(* ===== verification/_CoqProject ===== *)
-Q . S2P
Prelude.v
Heap.v
GoLib.v
Exporter.v
Storage.v
Multipart.v
Ring.v
Membership.v
Job.v
Keys.v
Scheduler.v
SchedInv.v
Tiling.v
SchedSteps.v
Accounting.v
Persist.v
SchedThms.v
Worker.v
Fleet.v
Ray.v
Formats.v
Encoding.v
Auth.v
Consensus.v
RaftNode.v
Commit.v
K8s.v
Float64.v
PhiAccrual.v
Vsearch.v
Columns.v
RateLimit.v
Quota.v
Rpc.v
Paths.v
Sandbox.v
Registry.v
CoordCommit.v
Wal.v
Policies.v
Metadata.v
Tiering.v
Ingestion.v
EventRing.v
LockOrder.v
LockStats.v
Prefetch.v
S3fifo.v
Cache.v
CacheThms.v
Admission.v
Coordinator.v
CoordThms.v
Recovery.v
Config.v
CoordSlots.v
Api.v
Lifecycle.v
Operator.v
GenImages.v
Programs.v
Server.v
Builder.v
Latency.v
