(* ===== verification/Prelude.v ===== *)
(** * Distributed image processing platform: verification development

    The program (Go, under src/) is a platform that splits image datasets into
    shards, lets a coordinator hand the shards to workers as tasks, and commits
    each task's output exactly once.  The parts modelled here and how they meet:

    - objects live in a store under keys that hash to shards (storage/);
    - a consistent-hash ring over the registered workers says which worker owns
      a shard (cluster/);
    - the scheduler turns a job into one task per shard, leases items of a task
      to a worker in chunks, splits a straggler's tail for an idle worker, and
      takes results (scheduler/);
    - a result is promoted to its final key, agreed in a replicated ledger
      (consensus/), its completion event emitted once (effect/), and only then
      is the task marked done;
    - every scheduler call appends a record to a write-ahead log and a
      checkpoint replaces the log (pipeline/checkpoint.go);
    - the coordinator ties these together, holds the admission slots of running
      jobs (admission/) and serves the HTTP interface (coordinator/);
    - workers read objects through a bounded local cache (cache/) and ahead of
      their use (pipeline/prefetcher.go);
    - files are ingested into the store and an SQL index of their metadata,
      and age through storage tiers (ingestion/, metadata/, tiering/);
    - a gRPC interface serves the scheduler behind tokens, roles and rate
      limits (rpc/, auth/, ratelimit/); users' algorithms are packaged, checked,
      registered and run in a sandbox (sandbox/, registry/, quota/);
    - an operator turns pending tasks into Kubernetes Jobs whose pods run the
      worker once, and reports their end (k8s/, cmd/operator);
    - embeddings of the images, kept in columnar files, are searched for the
      nearest neighbours of a query (vsearch/, formats/);
    - programs under cmd/ wire the parts together from a configuration
      (config/), and serve the index, the registry and the search over HTTP;
    - locks and events can be traced for diagnosis (diag/, trace/), counters
      exported (metrics/).

    ** Files

    - [Prelude]: record update, sums over maps, list lemmas, tactics.
    - [GoLib]: Go's 64-bit integers, results, decimal printing, byte order,
      CRC-32 and SHA-256 as the standard library computes them.
    - [Storage] (storage/shard.go, the interface of client.go), [Ring]
      (cluster/ring.go), [Membership] (cluster/membership.go, node.go).
    - [Job], [Keys], [Scheduler] (scheduler/job.go, commit.go, scheduler.go,
      persist.go): data and one definition per method; a loop body, a guarded
      block or an early return that a proof needs is a definition of its own,
      composed as the method composes it.  Theorems: [SchedInv] (the invariant
      and its preservation), [Tiling], [SchedSteps], [Accounting], [Persist],
      and the properties in [SchedThms].
    - [Consensus] (consensus/fsm.go, commit_fsm.go, node.go's applyCommitted,
      transport.go); [RaftNode] (consensus/node.go, raftgrpc/): a node's loop and
      the gRPC transport between processes; [Commit] (ReportResult over the interfaces [Committer],
      [CommitDecider], [SideEffect]); [CoordCommit] (their implementations in
      coordinator/ and effect/).
    - [Wal] (pipeline/checkpoint.go): the log over a disk that keeps synced
      data and may keep or lose any prefix of later writes.
    - [Policies], [S3fifo], [Cache], [CacheThms] (cache/): the
      [EvictionPolicy] interface as a class, its three implementations, and the
      cache over any of them.
    - [Admission] (admission/controller.go), [Coordinator]
      (coordinator/coordinator.go, scheduler/metrics.go), [Latency], [CoordThms],
      [Recovery] (the detector, the failure loop and the rebalance together),
      [CoordSlots], [Api] (coordinator/api.go).
    - [Multipart] (storage/multipart.go): the goroutines and channels of a
      parallel upload.
    - [Worker] (worker/worker.go) and [Fleet]: the item loop of a worker, and
      all workers together with the scheduler; [Lifecycle] (worker/worker.go,
      api.go): its start, loops and calls over HTTP, answered by [Api].
    - [Formats] (formats/tfrecord.go, webdataset.go), [Auth] (auth/jwt.go,
      rbac.go): output containers, tokens and roles.
    - [Metadata] (metadata/), [Tiering] (tiering/), [Ingestion] (ingestion/):
      the index as functions on its table, the nightly pass over store and
      index, the goroutines and channels of an ingest.
    - [Prefetch] (pipeline/prefetcher.go): its goroutines and channels.
    - [Float64]: Go's float64 by the Standard Library's [SpecFloat], and its
      exactness on whole numbers; [RateLimit] (ratelimit/), [Quota] (quota/).
    - [Rpc] (rpc/): the interceptor's gate, the handlers over the [JobService]
      interface, the job stream.
    - [Paths]: lexical path cleaning; [Sandbox] and [Builder] (sandbox/),
      [Registry] (registry/): packages, their digest and checks, image builds,
      the sandboxed run.
    - [Encoding] (base64 as the standard library's), [Heap] (container/heap),
      [Vsearch] (vsearch/, cmd/server/similar.go): the index with its bounded
      heap in float32; [Columns] (formats/parquet.go, arrow_reader.go,
      vsearch/embedding.go): rows and record batches over an Arrow interface.
    - [K8s] (k8s/, cmd/operator/): Jobs, clients, the watcher and the operator's
      cycle, and what becomes of a task that runs in a pod; [Operator]: the same
      cycle over HTTP, answered by [Api]; [Ray] (ray/).
    - [PhiAccrual] (cluster/phi_accrual.go), [Exporter] (metrics/).
    - [Config] (config/, cmd/coordinator/): defaults, loading, the coordinator's
      start; [Server] (cmd/server/): the routes over index and registry;
      [Programs] (cmd/sandbox-runner/, cmd/vsearch/, cmd/ingest/), [GenImages]
      (cmd/gen-images/).
    - [EventRing] (trace/, diag/assert.go), [LockOrder] and [LockStats]
      (diag/lock.go): the diagnostics with their concurrent writers.

    ** How the code is rendered

    A method that mutates its receiver takes the state and returns the new one;
    an [error] result is [Err]; a method that may block returns [option].  Go
    integers are [Z] and are wrapped where the source computes on them
    ([wrap64]).  Maps are [gmap]; Go's unspecified iteration order is an
    argument (an [order] list of keys), so that theorems hold for every order.
    The clock and fresh identifiers are arguments of the calls that read them.
    A mutex makes a method one step; code that runs outside the lock is split
    into the steps between which others may run (ReportResult, the cache's Get,
    the checkpoint, the front desk of submissions), and theorems about them
    quantify over every interleaving.

    ** What the theorems show

    Scheduler: well-formedness of every reachable state; the leases of a shard
    are disjoint and its tasks tile it; granted bounds are kept; a stale worker
    is told; done is final; job status is the verdict of its tasks; the
    completion hook; restoring a record; choice of work and of victim.
    Results: done implies committed, events at most once, decisions fenced.
    Ledger: replicas converge and never fall back; nodes that are handed
    prefixes of one log agree.  Raft between processes: every ordered pair of
    nodes has a lossy channel of its own, nothing arrives twice.  Log: appends and checkpoints
    are atomic under crashes and recovery returns what was acknowledged.
    Cache: accounting, budget and transparency.  Admission: slots are tickets,
    guaranteed slices.  Coordinator: restart, torn calls, slots of jobs; the
    tasks of a silent worker go back to the queue, unless the coordinator was
    restarted or the event was dropped.
    HTTP: refused requests change nothing, submissions are taken or shed.
    Workers: a run ends and reports, covers its range under an extended lease,
    and no item is read twice however the fleet runs; a run over HTTP is a run
    that calls the coordinator's methods.  Uploads: a successful
    upload is the input; small ones return, large ones block.  Formats and
    tokens: round trips, torn files, the exact acceptance and permission rules.
    Index and ingest: batches are atomic, records come back, every file is
    accounted for and an ingest returns; a tiering pass moves what is due and the
    index never runs ahead of the store.  Prefetcher: order, completion, bounded
    look-ahead.  Limits: the floating-point bucket and quotas are the integer
    ones on whole amounts.  gRPC: who passes the gate and who can change state;
    a job's stream tells its changes.  Sandbox: nothing outside the build
    directory is written and a build leaves nothing behind, digests identify
    contents, limits fit the quota.
    Search: the bounded heap answers what sorting all scores would, whatever the
    float32 scores; a corpus and a result file come back as written.
    Kubernetes: names, what a pod receives, what a poll reports, and the ways in
    which a task is stranded or marked done wrongly; a cycle over HTTP is a drain
    and the Jobs of what it handed out.  The image generator: what it wrote when
    it returns, and when it never does.  The adaptive detector's
    mean does not drift.  A coordinator has what its configuration names and
    serves gRPC only with a secret; the server registers only checked packages.
    Diagnostics: a deadlock was reported beforehand, every report is an
    inversion, the rings hold the latest events.
    Theorems of kind error state what the code does where it falls short of
    its comments.

    ** Fuel and bounds

    [recover_loop] gets the length of the log as fuel and each frame is longer
    than zero; the eviction loops get the number of entries and every turn
    removes one; [decide_loop]'s turns are the replies of the ledger; the item
    loop of a worker gets two turns an item and one more.  Each has a theorem
    that its fuel is enough.  Theorems about wrapped integers carry
    the bound they need as a hypothesis and a witness that meets it.

    ** Not modelled

    Library code (etcd raft, the AWS SDK, SQLite, Arrow and Parquet, Docker,
    gRPC, YAML and JSON, [math.Exp] and [math.Log10]) is a parameter with the
    behaviour its callers rely on.  Goroutines, tickers and channels of the
    background loops appear as steps.  Floating-point operations are rounded one
    by one; a Go compiler may fuse a multiplication with an addition on some
    machines.  [strings.ToLower] and [strings.TrimSpace] are modelled on ASCII.
    Left out: flags, signals and listeners of the programs, the drawing and
    encoding of a test image, and the generated protocol code. *)
From stdpp Require Export base tactics option list gmap fin_maps strings sorting pretty relations.
From Stdlib Require Export ZArith Lia.

#[export] Set Default Goal Selector "!".

(** ** Record update

    [r <| f := v |>] is the record [r] with field [f] replaced.  It is what a
    Go assignment [r.f = v] does to the value behind a pointer. *)

Declare Scope dip_scope.
Delimit Scope dip_scope with dip.

Class Eta (R : Type) := eta_expand : R → R.

Class FieldSet {R T : Type} (proj : R → T) :=
  field_update : (T → T) → R → R.
#[global] Hint Mode FieldSet + + + : typeclass_instances.

Ltac derive_field_set :=
  match goal with
  | |- FieldSet ?p =>
      let R := match type of p with ?R → _ => R end in
      let e := constr:(_ : Eta R) in
      let e' := eval hnf in e in
      let e'' := eval pattern p in e' in
      match e'' with
      | ?ctx _ =>
          let k := eval cbv beta in (λ upd (r : R), ctx (λ x : R, upd (p x)) r) in
          exact k
      end
  end.

#[global] Hint Extern 1 (FieldSet _) => derive_field_set : typeclass_instances.

Notation "r <| f := v |>" := (field_update (proj := f) (λ _, v) r)
  (at level 1, f at level 1, v at level 200, left associativity,
   format "r  <| f  :=  v |>") : dip_scope.
#[global] Open Scope dip_scope.

(** ** Results

    A Go function that returns [(T, error)]: the value of the [nil]-error
    return, or the error's message. *)

Inductive result (A : Type) : Type :=
| Ok (a : A)
| Err (msg : string).
Arguments Ok {A} a.
Arguments Err {A} msg.

#[export] Instance result_eq_dec {A} `{EqDecision A} : EqDecision (result A).
Proof. solve_decision. Defined.

Definition is_ok {A} (r : result A) : bool :=
  match r with Ok _ => true | Err _ => false end.

Definition result_bind {A B} (f : A → result B) (r : result A) : result B :=
  match r with Ok a => f a | Err m => Err m end.

Notation "'try' x ← e ; k" := (result_bind (λ x, k) e)
  (at level 10, x binder, e at level 100, k at level 200,
   format "'try'  x  ←  e ;  '/' k") : dip_scope.

(** ** Machine integers

    Go's [int64] and [int] on a 64-bit platform wrap around in two's
    complement; [uint32] and [uint64] wrap modulo their width. *)

Definition max_int64 : Z := 2 ^ 63 - 1.
Definition wrap64 (z : Z) : Z := (z + 2 ^ 63) mod 2 ^ 64 - 2 ^ 63.
Definition wrapu (bits : Z) (z : Z) : Z := z mod 2 ^ bits.

Lemma wrap64_id z : (- 2 ^ 63 ≤ z ≤ max_int64)%Z → wrap64 z = z.
Proof. unfold wrap64, max_int64. intros. rewrite Z.mod_small; lia. Qed.

Lemma wrap64_range z : (- 2 ^ 63 ≤ wrap64 z ≤ max_int64)%Z.
Proof.
  unfold wrap64, max_int64.
  pose proof (Z.mod_pos_bound (z + 2 ^ 63) (2 ^ 64)). lia.
Qed.

Lemma wrap64_add x y : wrap64 (wrap64 x + y) = wrap64 (x + y).
Proof.
  unfold wrap64.
  replace ((x + 2 ^ 63) mod 2 ^ 64 - 2 ^ 63 + y + 2 ^ 63)%Z with ((x + 2 ^ 63) mod 2 ^ 64 + y)%Z by lia.
  rewrite Z.add_mod_idemp_l by lia. by replace (x + 2 ^ 63 + y)%Z with (x + y + 2 ^ 63)%Z by lia.
Qed.

(** ** Automation *)

Create HintDb dip.
Create Rewrite HintDb dip.
#[export] Hint Rewrite wrap64_id using lia : dip.

(** [split_guard] case-splits on every boolean or decidable guard in sight
    and clears the branches that contradict the context. *)
Ltac bool_to_prop :=
  repeat match goal with
  | H : _ && _ = true |- _ => apply andb_true_iff in H as [? ?]
  | H : _ || _ = false |- _ => apply orb_false_iff in H as [? ?]
  | H : negb _ = true |- _ => apply negb_true_iff in H
  | H : negb _ = false |- _ => apply negb_false_iff in H
  | H : bool_decide _ = true |- _ => apply bool_decide_eq_true in H
  | H : bool_decide _ = false |- _ => apply bool_decide_eq_false in H
  | H : (_ <? _)%Z = true |- _ => apply Z.ltb_lt in H
  | H : (_ <? _)%Z = false |- _ => apply Z.ltb_ge in H
  | H : (_ <=? _)%Z = true |- _ => apply Z.leb_le in H
  | H : (_ <=? _)%Z = false |- _ => apply Z.leb_gt in H
  | H : (_ =? _)%Z = true |- _ => apply Z.eqb_eq in H
  | H : (_ =? _)%Z = false |- _ => apply Z.eqb_neq in H
  | H : (_ >? _)%Z = _ |- _ => rewrite Z.gtb_ltb in H
  | H : (_ >=? _)%Z = _ |- _ => rewrite Z.geb_leb in H
  | H : (_ <? _)%nat = true |- _ => apply Nat.ltb_lt in H
  | H : (_ <? _)%nat = false |- _ => apply Nat.ltb_ge in H
  | H : (_ <=? _)%nat = true |- _ => apply Nat.leb_le in H
  | H : (_ <=? _)%nat = false |- _ => apply Nat.leb_gt in H
  | H : (_ =? _)%nat = true |- _ => apply Nat.eqb_eq in H
  | H : (_ =? _)%nat = false |- _ => apply Nat.eqb_neq in H
  end.

Ltac split_guards :=
  repeat (case_match; simplify_eq/=); bool_to_prop.

(** Rewriting of map lookups after an update, by cases on the key. *)
Ltac lookup_cases H :=
  let E := fresh "Hkey" in
  match type of H with
  | <[?k:=_]> _ !! ?j = Some _ =>
      destruct (decide (k = j)) as [E|E];
      [ subst; rewrite lookup_insert_eq in H; simplify_eq
      | rewrite lookup_insert_ne in H by done ]
  end.

(** Two lists with the same elements: compare how often each occurs. *)
Ltac solve_perm :=
  match goal with |- @Permutation ?A ?l ?l' =>
    apply (proj2 (Permutation_count_occ (λ x y : A, decide (x = y)) l l')); intros ?;
    repeat (rewrite count_occ_app || (progress (cbn [count_occ app]))); repeat case_decide; lia
  end.

(** ** Lists *)

(** Go's [append(q[:i], q[i+1:]...)]: drop the element at index [i]. *)
Definition remove_at {A} (i : nat) (l : list A) : list A := take i l ++ drop (S i) l.

Lemma elem_of_remove_at {A} (i : nat) (l : list A) x y :
  l !! i = Some x → y ∈ l → y = x ∨ y ∈ remove_at i l.
Proof.
  intros Hi Hy. unfold remove_at.
  rewrite <- (take_drop_middle l i x Hi), elem_of_app, elem_of_cons in Hy.
  rewrite elem_of_app. destruct Hy as [|[|]]; auto.
Qed.

Lemma remove_at_elem_of {A} (i : nat) (l : list A) y : y ∈ remove_at i l → y ∈ l.
Proof.
  unfold remove_at. intros [H|H]%elem_of_app.
  - by eapply subseteq_take.
  - by eapply subseteq_drop.
Qed.

Lemma remove_at_perm {A} i (l : list A) x : l !! i = Some x → l ≡ₚ x :: remove_at i l.
Proof.
  intros Hi. unfold remove_at. rewrite <- (take_drop_middle l i x Hi) at 1. by rewrite Permutation_middle.
Qed.

Lemma length_omap_le {A B} (f : A → option B) l : (length (omap f l) ≤ length l)%nat.
Proof.
  induction l as [|a l IH]; [done|]. change (omap f (a :: l)) with (match f a with Some b => b :: omap f l | None => omap f l end).
  destruct (f a); cbn; lia.
Qed.

Lemma insert_perm {A} (l : list A) i x y : l !! i = Some x →
  ∃ l', l ≡ₚ x :: l' ∧ <[i := y]> l ≡ₚ y :: l'.
Proof.
  intros Hi. exists (take i l ++ drop (S i) l). split.
  - rewrite <- (take_drop_middle l i x Hi) at 1. by rewrite Permutation_middle.
  - rewrite insert_take_drop by by eapply lookup_lt_Some. by rewrite Permutation_middle.
Qed.

Lemma lookup_remove_at {A} (i j : nat) (l : list A) : (i < length l)%nat → remove_at i l !! j = l !! (if (j <? i)%nat then j else S j).
Proof.
  intros Hi. unfold remove_at. destruct (Nat.ltb_spec j i).
  - rewrite lookup_app_l by (rewrite length_take; lia). by rewrite lookup_take_lt.
  - rewrite lookup_app_r by (rewrite length_take; lia). rewrite lookup_drop, length_take. f_equal. lia.
Qed.

Lemma lookup_remove_at_Some {A} (i j : nat) (l : list A) x : (i < length l)%nat → remove_at i l !! j = Some x →
  ∃ j', l !! j' = Some x ∧ j' ≠ i ∧ j = (if (j' <? i)%nat then j' else pred j').
Proof.
  intros Hi. rewrite lookup_remove_at by done. destruct (Nat.ltb_spec j i) as [Hlt|Hge]; intros Hx.
  - exists j. split_and!; [done|lia|]. destruct (Nat.ltb_spec j i); lia.
  - exists (S j). split_and!; [done|lia|]. destruct (Nat.ltb_spec (S j) i); lia.
Qed.

(** The fold a Go [for i, x := range l] loop with a mutable accumulator is. *)
Definition range_loop {A S} (body : nat → A → S → S) (l : list A) (s : S) : S :=
  snd (foldl (λ '(i, acc) x, (Datatypes.S i, body i x acc)) (0%nat, s) l).

Lemma foldl_ind {A B} (P : B → list A → Prop) (f : B → A → B) (b : B) (l : list A) :
  P b [] → (∀ acc pre x, P acc pre → x ∈ l → P (f acc x) (pre ++ [x])) → P (foldl f b l) l.
Proof.
  intros Hb Hstep.
  induction l as [|x l IH] using rev_ind; [done|].
  rewrite foldl_app; simpl. apply Hstep; [|set_solver].
  apply IH. intros acc pre y HP Hy. apply Hstep; [done|set_solver].
Qed.

Lemma foldl_inv {A B} (P : B → Prop) (f : B → A → B) (b : B) (l : list A) :
  P b → (∀ acc x, x ∈ l → P acc → P (f acc x)) → P (foldl f b l).
Proof.
  intros Hb Hstep. apply (foldl_ind (λ acc _, P acc)); [done|]. intros. by apply Hstep.
Qed.

Lemma filter_all {A} (P : A → Prop) `{!∀ x, Decision (P x)} (l : list A) :
  (∀ x, x ∈ l → P x) → filter P l = l.
Proof.
  induction l as [|x l IH]; intros Hl; [done|].
  rewrite filter_cons_True by (apply Hl; set_solver). f_equal. apply IH. set_solver.
Qed.

Lemma filter_none {A} (P : A → Prop) `{!∀ x, Decision (P x)} (l : list A) :
  (∀ x, x ∈ l → ¬ P x) → filter P l = [].
Proof.
  induction l as [|x l IH]; intros Hl; [done|].
  rewrite filter_cons_False by (apply Hl; set_solver). apply IH. set_solver.
Qed.

Lemma StronglySorted_filter {A} (R : relation A) (P : A → Prop) `{!∀ x, Decision (P x)} l :
  StronglySorted R l → StronglySorted R (filter P l).
Proof.
  induction 1 as [|x l Hl IH Hx]; [constructor|].
  rewrite filter_cons. case_decide; [|done]. constructor; [done|].
  apply Forall_forall. intros y [_ Hy]%list_elem_of_filter.
  by apply (proj1 (Forall_forall _ _) Hx).
Qed.

Lemma StronglySorted_lookup {A} (R : relation A) l i j x y :
  StronglySorted R l → i < j → l !! i = Some x → l !! j = Some y → R x y.
Proof.
  intros Hl. revert i j. induction Hl as [|z l Hl IH Hz]; intros i j Hij Hi Hj; [done|].
  destruct j as [|j]; [lia|]. simpl in Hj. destruct i as [|i].
  - simplify_eq/=. apply (proj1 (Forall_forall _ _) Hz). by eapply list_elem_of_lookup_2.
  - simpl in Hi. apply (IH i j); [lia|done|done].
Qed.

(** The first element that satisfies a boolean test, at its index. *)
Lemma find_lookup {A} (f : A → bool) (l : list A) k x :
  l !! k = Some x → f x = true → (∀ i y, i < k → l !! i = Some y → f y = false) →
  List.find f l = Some x.
Proof.
  revert k. induction l as [|y l IH]; intros k Hk Hx Hlo; [done|].
  destruct k as [|k]; simplify_eq/=; [by rewrite Hx|].
  rewrite (Hlo 0 y) by (done || lia). apply (IH k); [done|done|].
  intros i z Hi Hz. apply (Hlo (S i)); [lia|done].
Qed.

Lemma find_filter {A} (f : A → bool) (P : A → Prop) `{!∀ x, Decision (P x)} (l : list A) x :
  List.find f l = Some x → P x → List.find f (filter P l) = Some x.
Proof.
  induction l as [|y l IH]; [done|]. simpl. intros Hf Hx.
  rewrite filter_cons. destruct (f y) eqn:Hy.
  - simplify_eq. rewrite decide_True by done. simpl. by rewrite Hy.
  - case_decide; simpl; [rewrite Hy|]; auto.
Qed.

Lemma find_filter_none {A} (f : A → bool) (P : A → Prop) `{!∀ x, Decision (P x)} (l : list A) :
  List.find f l = None → List.find f (filter P l) = None.
Proof.
  induction l as [|y l IH]; [done|]. simpl. destruct (f y) eqn:Hy; [done|]. intros Hf.
  rewrite filter_cons. case_decide; simpl; [rewrite Hy|]; auto.
Qed.

(** ** Sums over maps *)

Definition map_sum {A} (f : string → A → Z) (m : gmap string A) : Z :=
  map_fold (λ k x acc, (f k x + acc)%Z) 0%Z m.

Lemma map_sum_empty {A} (f : string → A → Z) : map_sum f ∅ = 0%Z.
Proof. apply map_fold_empty. Qed.

Lemma map_sum_insert {A} (f : string → A → Z) m k x :
  m !! k = None → map_sum f (<[k := x]> m) = (f k x + map_sum f m)%Z.
Proof.
  intros Hn. unfold map_sum. rewrite (map_fold_insert_L (λ k x acc, (f k x + acc)%Z)); [done| |done].
  intros. lia.
Qed.

Lemma map_sum_delete {A} (f : string → A → Z) m k x :
  m !! k = Some x → map_sum f m = (f k x + map_sum f (delete k m))%Z.
Proof.
  intros He. rewrite <- (insert_delete_id m k x) at 1 by done. apply map_sum_insert, lookup_delete_eq.
Qed.

Lemma map_sum_update {A} (f : string → A → Z) m k x y :
  m !! k = Some x → map_sum f (<[k := y]> m) = (map_sum f m - f k x + f k y)%Z.
Proof.
  intros He. rewrite <- insert_delete_eq, map_sum_insert by apply lookup_delete_eq.
  rewrite (map_sum_delete f m k x) by done. lia.
Qed.

Lemma map_sum_le {A} (f g : string → A → Z) m :
  (∀ k x, m !! k = Some x → (f k x ≤ g k x)%Z) → (map_sum f m ≤ map_sum g m)%Z.
Proof.
  induction m as [|k x m Hk IH] using map_ind; intros Hle; [by rewrite !map_sum_empty|].
  rewrite !map_sum_insert by done. pose proof (Hle k x (lookup_insert_eq _ _ _)).
  assert (map_sum f m ≤ map_sum g m)%Z; [|lia]. apply IH. intros k' x' Hx. apply Hle.
  rewrite lookup_insert_ne; [done|]. intros ->. congruence.
Qed.

Lemma map_sum_ext {A} (f g : string → A → Z) m :
  (∀ k x, m !! k = Some x → f k x = g k x) → map_sum f m = map_sum g m.
Proof.
  intros Heq. apply Z.le_antisymm; apply map_sum_le; intros k x Hx; rewrite (Heq k x Hx); done.
Qed.
