(* ===== verification/Heap.v ===== *)
(** * Go's container/heap

    The array heap of the standard library over a comparison [less], and what
    it promises when "not less the other way" is a preorder on the elements it
    holds.  An index past the end, where Go panics, compares as [false] and
    swaps nothing; the operations stay inside. *)
From S2P Require Import Prelude.

(** "Not less" is a preorder on the elements that are [ok]. *)
Class Ranking {A} (less : A → A → bool) (ok : A → Prop) := {
  less_asym x y : less x y = true → less y x = false;
  rank_trans x y z : ok x → ok y → ok z → less y x = false → less z y = false → less z x = false }.

Section heap.
Context {A : Type} (less : A → A → bool).

Definition Less (h : list A) (i j : nat) : bool :=
  match h !! i, h !! j with Some x, Some y => less x y | _, _ => false end.
Definition Swap (h : list A) (i j : nat) : list A :=
  match h !! i, h !! j with Some x, Some y => <[j := x]> (<[i := y]> h) | _, _ => h end.

(** [up]; a turn at least halves [j]. *)
Fixpoint up (fuel : nat) (h : list A) (j : nat) : list A :=
  match fuel with
  | O => h
  | S fuel =>
      let i := ((j - 1) / 2)%nat in
      if (i =? j)%nat || negb (Less h j i) then h else up fuel (Swap h i j) i
  end.

(** [down]; a turn at least doubles [i]. The result tells whether it moved. *)
Fixpoint down_loop (fuel : nat) (h : list A) (i n : nat) : list A * nat :=
  match fuel with
  | O => (h, i)
  | S fuel =>
      let j1 := (2 * i + 1)%nat in
      if (n <=? j1)%nat then (h, i)
      else
        let j2 := S j1 in
        let j := if (j2 <? n)%nat && Less h j2 j1 then j2 else j1 in
        if negb (Less h j i) then (h, i) else down_loop fuel (Swap h i j) j n
  end.
Definition down (h : list A) (i0 n : nat) : list A * bool :=
  let '(h', i) := down_loop n h i0 n in (h', (i0 <? i)%nat).

Definition Push (h : list A) (x : A) : list A :=
  let h' := h ++ [x] in up (length h') h' (length h' - 1).
(** The popped element is the one swapped to the end. *)
Definition Pop (h : list A) : option (A * list A) :=
  let n := (length h - 1)%nat in
  let h' := fst (down (Swap h 0 n) 0 n) in
  x ← h' !! n; Some (x, take n h').
Definition Fix (h : list A) (i : nat) : list A :=
  let '(h', moved) := down h i (length h) in
  if moved then h' else up (length h') h' i.

(** ** What the operations keep *)

Lemma Swap_eq h i j x y : h !! i = Some x → h !! j = Some y → Swap h i j = <[j := x]> (<[i := y]> h).
Proof. unfold Swap. by intros -> ->. Qed.

Lemma Swap_length h i j : length (Swap h i j) = length h.
Proof. unfold Swap. destruct (h !! i), (h !! j); rewrite ?length_insert; done. Qed.

(** The index that holds, after the swap, what was at [k] before. *)
Definition swapped (i j k : nat) : nat := if (k =? i)%nat then j else if (k =? j)%nat then i else k.

Lemma lookup_Swap h i j k : (i < length h)%nat → (j < length h)%nat → Swap h i j !! k = h !! swapped i j k.
Proof.
  intros Hi Hj. destruct (lookup_lt_is_Some_2 h i Hi) as [x Hx]. destruct (lookup_lt_is_Some_2 h j Hj) as [y Hy].
  rewrite (Swap_eq _ _ _ x y) by done. unfold swapped.
  destruct (Nat.eqb_spec k i) as [->|Hki]; [|destruct (Nat.eqb_spec k j) as [->|Hkj]].
  - destruct (decide (i = j)) as [<-|]; [by rewrite list_lookup_insert_eq, Hx by (rewrite length_insert; lia)|].
    by rewrite list_lookup_insert_ne, list_lookup_insert_eq by done.
  - by rewrite list_lookup_insert_eq by (rewrite length_insert; lia).
  - by rewrite !list_lookup_insert_ne by done.
Qed.

Lemma Swap_Permutation h i j : Swap h i j ≡ₚ h.
Proof.
  destruct (h !! i) as [x|] eqn:Hx; [|unfold Swap; by rewrite Hx].
  destruct (h !! j) as [y|] eqn:Hy; [|unfold Swap; by rewrite Hx, Hy].
  rewrite (Swap_eq _ _ _ x y) by done. destruct (decide (i = j)) as [<-|Hij].
  - simplify_eq. by rewrite list_insert_insert_eq, list_insert_id.
  - apply lookup_lt_Some in Hx as Hi. apply lookup_lt_Some in Hy as Hj.
    apply Permutation_inj. split; [by rewrite !length_insert|].
    exists (swapped i j). split; [intros a b; unfold swapped; repeat case_match; rewrite ?Nat.eqb_eq, ?Nat.eqb_neq in *; lia|].
    intros k. rewrite <- (Swap_eq h i j) by done. by apply lookup_Swap.
Qed.

(** ** Heap order *)

Definition parent (c : nat) : nat := ((c - 1) / 2)%nat.

Lemma parent_spec c : (0 < c)%nat → (parent c < c)%nat ∧ (c = 2 * parent c + 1 ∨ c = 2 * parent c + 2)%nat.
Proof. intros Hc. unfold parent. pose proof (Nat.div_mod (c - 1) 2). pose proof (Nat.mod_upper_bound (c - 1) 2). lia. Qed.

Context {ok : A → Prop} `{Rk : !Ranking less ok}.

Definition le_at (h : list A) (i j : nat) : Prop := ∀ x y, h !! i = Some x → h !! j = Some y → less y x = false.

Lemma le_at_trans h i j k : Forall ok h → (j < length h)%nat → le_at h i j → le_at h j k → le_at h i k.
Proof.
  intros Hok [y Hy]%lookup_lt_is_Some_2 Hij Hjk x z Hx Hz. rewrite Forall_lookup in Hok.
  apply (rank_trans x y z); eauto.
Qed.

Lemma Less_false h i j : Less h j i = false → le_at h i j.
Proof. intros E x y Hx Hy. unfold Less in E. by rewrite Hx, Hy in E. Qed.

Lemma Less_true h i j : Less h j i = true → le_at h j i.
Proof. intros E x y Hx Hy. unfold Less in E. rewrite Hx, Hy in E. by apply less_asym. Qed.

Lemma le_at_Swap h i j a b : (i < length h)%nat → (j < length h)%nat →
  le_at h (swapped i j a) (swapped i j b) → le_at (Swap h i j) a b.
Proof. intros Hi Hj H x y. rewrite !lookup_Swap by done. apply H. Qed.

Lemma swapped_l i j : swapped i j i = j.
Proof. unfold swapped. by rewrite Nat.eqb_refl. Qed.
Lemma swapped_r i j : swapped i j j = i.
Proof. unfold swapped. rewrite Nat.eqb_refl. by destruct (Nat.eqb_spec j i). Qed.
Lemma swapped_ne i j k : k ≠ i → k ≠ j → swapped i j k = k.
Proof. intros Hi Hj. unfold swapped. by rewrite (proj2 (Nat.eqb_neq k i)), (proj2 (Nat.eqb_neq k j)). Qed.

(** The first [n] elements are in heap order, but maybe at [hole]. *)
Definition ordered_but (P : nat → Prop) (n : nat) (h : list A) : Prop :=
  ∀ c, (0 < c < n)%nat → ¬ P c → le_at h (parent c) c.
Definition ordered (n : nat) (h : list A) : Prop := ordered_but (λ _, False) n h.
(** The children of [hole] are not below its parent. *)
Definition bridged (hole n : nat) (h : list A) : Prop :=
  ∀ c, (0 < c < n)%nat → parent c = hole → (0 < hole)%nat → le_at h (parent hole) c.

Lemma up_ordered fuel h j : (j < fuel)%nat → (j < length h)%nat → Forall ok h →
  ordered_but (λ c, c = j) (length h) h → bridged j (length h) h → ordered (length h) (up fuel h j).
Proof.
  revert h j. induction fuel as [|fuel IH]; intros h j Hf Hj Hok Ho Hb; [lia|]. cbn [up]. fold (parent j).
  destruct (Nat.eqb_spec (parent j) j) as [E|E]; cbn [orb].
  { intros c Hc _. apply Ho; [done|]. intros ->. pose proof (parent_spec j). lia. }
  assert (0 < j)%nat as Hpos by (destruct j; [done|lia]). pose proof (parent_spec j Hpos) as [Hp _].
  destruct (Less h j (parent j)) eqn:HL; cbn [negb].
  2: { intros c Hc _. destruct (decide (c = j)) as [->|]; [by apply Less_false|by apply Ho]. }
  apply Less_true in HL. remember (parent j) as i eqn:Ei. rewrite <- (Swap_length h i j).
  apply IH; rewrite ?Swap_length; [lia|lia|by rewrite Swap_Permutation|..].
  - intros c Hc Hci. pose proof (parent_spec c ltac:(lia)) as [Hpc _]. pose proof (Ho c Hc) as Hoc.
    apply le_at_Swap; [lia|done|]. destruct (decide (c = j)) as [->|Hcj]; [by rewrite <- Ei, swapped_r, swapped_l|].
    rewrite (swapped_ne i j c) by done.
    destruct (decide (parent c = i)) as [Hpi|Hpi]; [|destruct (decide (parent c = j)) as [Hpj|Hpj]].
    + rewrite Hpi, swapped_l in *. apply (le_at_trans _ _ i); [done|lia|done|by apply Hoc].
    + rewrite Hpj, swapped_r, Ei. by apply Hb.
    + rewrite swapped_ne by done. by apply Hoc.
  - intros c Hc Hpc Hi. pose proof (parent_spec i Hi) as [Hpi _]. pose proof (parent_spec c ltac:(lia)) as [Hpc' _].
    pose proof (Ho i ltac:(lia) (Nat.lt_neq _ _ Hp)) as Hoi. apply le_at_Swap; [lia|done|]. rewrite (swapped_ne i j (parent i)) by lia.
    destruct (decide (c = j)) as [->|Hcj]; [by rewrite swapped_r|]. rewrite swapped_ne by lia.
    apply (le_at_trans _ _ i); [done|lia|done|]. pose proof (Ho c Hc Hcj) as Hoc. by rewrite Hpc in Hoc.
Qed.

Lemma up_Permutation fuel h j : up fuel h j ≡ₚ h.
Proof. revert h j. induction fuel as [|fuel IH]; intros h j; cbn [up]; [done|]. case_match; [done|]. by rewrite IH, Swap_Permutation. Qed.

(** Every parent but [hole] is not above its children. *)
Lemma down_ordered fuel h i n : (n ≤ fuel + i)%nat → (i < n ≤ length h)%nat → Forall ok h →
  ordered_but (λ c, parent c = i) n h → bridged i n h → ordered n (fst (down_loop fuel h i n)).
Proof.
  revert h i. induction fuel as [|fuel IH]; intros h i Hf Hi Hok Ho Hb; [lia|]. cbn [down_loop].
  destruct (Nat.leb_spec n (2 * i + 1)) as [Hn|Hn].
  { intros c Hc _. apply Ho; [done|]. intros E. pose proof (parent_spec c ltac:(lia)). lia. }
  cbv zeta.
  match goal with |- context [negb (Less h ?x i)] => set (j := x) end.
  assert (Hj : (0 < j < n)%nat ∧ parent j = i ∧ ∀ c, (0 < c < n)%nat → parent c = i → c ≠ j → le_at h j c).
  { assert (Hp : ∀ c, (0 < c)%nat → parent c = i ↔ (c = 2 * i + 1 ∨ c = 2 * i + 2)%nat)
      by (intros c Hc; pose proof (parent_spec c Hc); lia).
    unfold j. destruct (Nat.ltb_spec (S (2 * i + 1)) n); cbn [andb]; [destruct (Less h _ _) eqn:HL|].
    - split_and!; [lia|lia|apply Hp; lia|]. intros c Hc Hpc Hne. apply Hp in Hpc; [|lia].
      replace c with (2 * i + 1)%nat by lia. by apply Less_true.
    - split_and!; [lia|lia|apply Hp; lia|]. intros c Hc Hpc Hne. apply Hp in Hpc; [|lia].
      replace c with (S (2 * i + 1)) by lia. by apply Less_false.
    - split_and!; [lia|lia|apply Hp; lia|]. intros c Hc Hpc Hne. apply Hp in Hpc; lia. }
  clearbody j. destruct Hj as (Hj & Hpj & Hmin). pose proof (parent_spec j ltac:(lia)) as [Hij _].
  destruct (Less h j i) eqn:HL; cbn [negb].
  2: { apply Less_false in HL. cbn [fst]. intros c Hc _. destruct (decide (parent c = i)) as [Hpc|Hpc]; [|by apply Ho].
       rewrite Hpc. destruct (decide (c = j)) as [->|]; [done|]. apply (le_at_trans _ _ j); [done|lia|done|by apply Hmin]. }
  apply Less_true in HL. apply IH; rewrite ?Swap_length; [lia|lia|by rewrite Swap_Permutation|..].
  - intros c Hc Hpc. pose proof (parent_spec c ltac:(lia)) as [Hpc' _]. apply le_at_Swap; [lia|lia|].
    destruct (decide (c = j)) as [->|Hcj]; [by rewrite Hpj, swapped_r, swapped_l|].
    destruct (decide (c = i)) as [->|Hci]; [rewrite swapped_l, swapped_ne by lia; apply Hb; [lia|done|lia]|].
    rewrite (swapped_ne i j c) by done. destruct (decide (parent c = i)) as [Hpi|Hpi].
    + rewrite Hpi, swapped_l. by apply Hmin.
    + rewrite swapped_ne by done. by apply Ho.
  - intros c Hc Hpc _. pose proof (parent_spec c ltac:(lia)) as [Hpc' _]. apply le_at_Swap; [lia|lia|].
    rewrite Hpj, swapped_l, swapped_ne by lia. rewrite <- Hpc. apply Ho; [done|]. rewrite Hpc. lia.
Qed.

Lemma down_Permutation fuel h i n : fst (down_loop fuel h i n) ≡ₚ h.
Proof.
  revert h i. induction fuel as [|fuel IH]; intros h i; cbn [down_loop]; [done|].
  destruct (n <=? _)%nat; [done|]. cbv zeta. destruct (negb _); [done|]. by rewrite IH, Swap_Permutation.
Qed.

Lemma down_beyond fuel h i n k : (i < n ≤ length h)%nat → (n ≤ k)%nat → fst (down_loop fuel h i n) !! k = h !! k.
Proof.
  revert h i. induction fuel as [|fuel IH]; intros h i Hi Hk; cbn [down_loop]; [done|].
  destruct (Nat.leb_spec n (2 * i + 1)) as [Hn|Hn]; [done|]. cbv zeta.
  match goal with |- context [negb (Less h ?x i)] => set (j := x) end.
  assert (i < j < n)%nat as Hj by (unfold j; destruct (Nat.ltb_spec (S (2 * i + 1)) n); cbn [andb]; [case_match|]; lia).
  destruct (negb _); [done|]. rewrite IH by (rewrite ?Swap_length; lia).
  rewrite lookup_Swap by lia. by rewrite swapped_ne by lia.
Qed.

(** ** The operations *)

Definition heap (h : list A) : Prop := ordered (length h) h.

(** The root is a least element. *)
Lemma heap_root h k : Forall ok h → heap h → (k < length h)%nat → le_at h 0 k.
Proof.
  intros Hok Hh. induction k as [k IH] using lt_wf_ind. intros Hk. destruct (decide (k = 0)) as [->|Hk0].
  - intros x y Hx Hy. simplify_eq. destruct (less x x) eqn:E; [|done]. by apply less_asym in E as E'; congruence.
  - pose proof (parent_spec k ltac:(lia)) as [Hp _]. apply (le_at_trans _ _ (parent k)); [done|lia|apply IH; lia|].
    apply Hh; [lia|tauto].
Qed.

Lemma Push_Permutation h x : Push h x ≡ₚ x :: h.
Proof. unfold Push. rewrite up_Permutation. symmetry. apply Permutation_cons_append. Qed.

Lemma Push_heap h x : Forall ok h → ok x → heap h → heap (Push h x).
Proof.
  intros Hok Hx Hh. unfold heap. rewrite (Permutation_length (Push_Permutation h x)). unfold Push. cbn [length].
  rewrite length_app. cbn [length]. rewrite Nat.add_sub. replace (S (length h)) with (length (h ++ [x])) by (rewrite length_app; cbn; lia).
  apply up_ordered; rewrite ?length_app; cbn [length]; [lia|lia|by apply Forall_app; split; [|constructor]|..].
  - intros c Hc Hne y z Hy Hz. pose proof (parent_spec c ltac:(lia)). rewrite lookup_app_l in Hy, Hz by lia.
    by apply (Hh c ltac:(lia) ltac:(tauto)).
  - intros c Hc Hpc Hpos. pose proof (parent_spec c ltac:(lia)). lia.
Qed.

Lemma root_ordered n h : ordered n h → ∀ x, (0 < n)%nat → ordered_but (λ c, parent c = 0%nat) n (<[0%nat := x]> h) ∧ bridged 0 n (<[0%nat := x]> h).
Proof.
  intros Ho x Hn. split.
  - intros c Hc Hpc y z. pose proof (parent_spec c ltac:(lia)). rewrite !list_lookup_insert_ne by lia.
    by apply Ho; [|tauto].
  - intros c Hc Hpc Hpos. lia.
Qed.

(** Replacing the root and fixing it. *)
Lemma Fix_Permutation h i : Fix h i ≡ₚ h.
Proof.
  unfold Fix, down. pose proof (down_Permutation (length h) h i (length h)) as HP. destruct (down_loop _ _ _ _) as [g m].
  cbn in *. case_match; [done|]. by rewrite up_Permutation.
Qed.

Lemma Fix_root_down h : Fix h 0 = fst (down_loop (length h) h 0 (length h)).
Proof. unfold Fix, down. destruct (down_loop _ _ _ _) as [g m]. cbn. case_match; [done|]. by destruct (length g). Qed.

Lemma Fix_root h x : h ≠ [] → Forall ok h → ok x → heap h → heap (Fix (<[0%nat := x]> h) 0).
Proof.
  intros Hne Hok Hx Hh. assert (0 < length h)%nat as Hpos by (destruct h; [done|cbn; lia]). unfold heap.
  rewrite (Permutation_length (Fix_Permutation _ _)), Fix_root_down. destruct (root_ordered _ _ Hh x Hpos) as [Ho Hb].
  apply down_ordered; rewrite ?length_insert; [lia|lia|by apply Forall_insert|done|done].
Qed.

Lemma heap_take n h : (n ≤ length h)%nat → ordered n h → heap (take n h).
Proof.
  intros Hn Ho c Hc _ x y. rewrite length_take in Hc. pose proof (parent_spec c ltac:(lia)).
  rewrite !lookup_take_lt by lia. apply Ho; [lia|tauto].
Qed.

Lemma heap_least h x : Forall ok h → heap h → h !! 0%nat = Some x → Forall (λ y, less y x = false) h.
Proof.
  intros Hok Hh Hx. apply Forall_lookup. intros k y Hy. apply (heap_root h k Hok Hh); [by eapply lookup_lt_Some|done|done].
Qed.

(** Moving the last element to the root and down. *)
Lemma Pop_down h n : length h = S n → Forall ok h → heap h →
  ordered n (fst (down_loop n (Swap h 0 n) 0 n)).
Proof.
  intros Hl Hok Hh. destruct n as [|n]; [intros c Hc; lia|].
  apply down_ordered; rewrite ?Swap_length; [lia|lia|by rewrite Swap_Permutation| |intros c Hc Hpc Hpos; lia].
  intros c Hc Hpc. pose proof (parent_spec c ltac:(lia)). apply le_at_Swap; [lia|lia|].
  rewrite !swapped_ne by (done || lia). apply Hh; [lia|tauto].
Qed.

(** [Pop] takes the root out. *)
Lemma Pop_root x t : let h := x :: t in let n := length t in
  ∃ h', Pop h = Some (x, h') ∧ h ≡ₚ x :: h' ∧ h' = take n (fst (down_loop n (Swap h 0 n) 0 n)).
Proof.
  intros h n. assert (Hl : length h = S n) by done. set (g := fst (down_loop n (Swap h 0 n) 0 n)).
  assert (HP : g ≡ₚ h) by (unfold g; by rewrite down_Permutation, Swap_Permutation).
  assert (Hg : g !! n = Some x).
  { unfold g. destruct (decide (n = 0)) as [->|Hn].
    - cbn [down_loop fst]. by rewrite lookup_Swap, swapped_l by (cbn; lia).
    - by rewrite down_beyond, lookup_Swap, swapped_r by (rewrite ?Swap_length; lia). }
  exists (take n g). split_and!; [| |done].
  - unfold Pop. rewrite Hl, Nat.sub_succ, Nat.sub_0_r. unfold down.
    unfold g in *. destruct (down_loop _ _ _ _) as [g' m]. cbn [fst] in *. by rewrite Hg.
  - rewrite <- HP at 1. rewrite <- (take_drop_middle g n x Hg) at 1.
    rewrite drop_ge by (rewrite HP, Hl; lia). symmetry. apply Permutation_cons_append.
Qed.

Lemma Pop_heap x t : Forall ok (x :: t) → heap (x :: t) →
  ∃ h', Pop (x :: t) = Some (x, h') ∧ x :: t ≡ₚ x :: h' ∧ heap h' ∧ Forall (λ y, less y x = false) h'.
Proof.
  intros Hok Hh. destruct (Pop_root x t) as (h' & E & HP & Eh). exists h'. split_and!; [done..| |].
  - rewrite Eh. apply heap_take; [rewrite down_Permutation, Swap_Permutation; cbn; lia|]. by apply Pop_down.
  - pose proof (heap_least (x :: t) x Hok Hh eq_refl) as H. rewrite HP in H. by apply Forall_cons in H as [_ H].
Qed.

(** ** Draining *)

(** [Pop] until nothing is left, the last popped first. *)
Fixpoint drain (fuel : nat) (h : list A) (out : list A) : list A :=
  match fuel with
  | O => out
  | S fuel => match Pop h with Some (x, h') => drain fuel h' (x :: out) | None => out end
  end.

Lemma drain_Permutation h out : drain (length h) h out ≡ₚ h ++ out.
Proof.
  remember (length h) as n eqn:Hn. revert h out Hn. induction n as [|n IH]; intros [|x t] out Hn; try done.
  cbn [drain]. destruct (Pop_root x t) as (h' & -> & HP & _). rewrite HP in Hn. rewrite IH by (by injection Hn).
  rewrite HP. cbn. by rewrite Permutation_middle.
Qed.

Lemma drain_sorted h out : Forall ok h → heap h →
  StronglySorted (λ x y, less x y = false) out → (∀ x y, x ∈ out → y ∈ h → less y x = false) →
  StronglySorted (λ x y, less x y = false) (drain (length h) h out).
Proof.
  remember (length h) as n eqn:Hn. revert h out Hn. induction n as [|n IH]; intros [|x t] out Hn Hok Hh Hs Hb; try done.
  destruct (Pop_heap x t) as (h' & E & HP & Hh' & Hmin); [done..|]. cbn [drain]. rewrite E.
  rewrite HP in Hok, Hn. apply Forall_cons in Hok as [_ Hok']. rewrite Forall_forall in Hmin. apply IH; [by injection Hn|done|done|..].
  - constructor; [done|]. apply Forall_forall. intros y Hy. apply Hb; [done|by left].
  - intros o y [->|Ho]%elem_of_cons Hy; [by apply Hmin|]. apply Hb; [done|]. rewrite HP. by right.
Qed.
End heap.
