(* ===== verification/GoLib.v ===== *)
(** * Pieces of Go's standard library

    The operations of [encoding/binary], [encoding/hex], [fmt], [strconv],
    [strings], [crypto/sha256] and [hash/crc32] that the platform calls, as
    executable functions on byte strings.  A Go [string] is a [string] (a
    list of 8-bit characters), a [[]byte] is a [list byte]. *)
From Stdlib Require Strings.String Strings.Byte Strings.Ascii.
From S2P Require Import Prelude.
Open Scope Z_scope.

Abbreviation byte := Corelib.Init.Byte.byte.

#[export] Instance byte_eq_dec : EqDecision byte := Byte.byte_eq_dec.

Definition byte_val (b : byte) : Z := Z.of_N (Byte.to_N b).
Definition byte_of (z : Z) : byte :=
  match Byte.of_N (Z.to_N (z mod 256)) with Some b => b | None => Byte.x00 end.

Definition bytes_of_string (s : string) : list byte :=
  Stdlib.Strings.String.list_byte_of_string s.
Definition string_of_bytes (l : list byte) : string :=
  Stdlib.Strings.String.string_of_list_byte l.

Lemma byte_val_range b : 0 ≤ byte_val b < 256.
Proof. unfold byte_val. pose proof (Byte.to_N_bounded b). lia. Qed.

Lemma byte_of_val b : byte_of (byte_val b) = b.
Proof.
  unfold byte_of. rewrite Z.mod_small by apply byte_val_range.
  unfold byte_val. by rewrite N2Z.id, Byte.of_to_N.
Qed.

Lemma byte_val_of z : byte_val (byte_of z) = z mod 256.
Proof.
  unfold byte_of. pose proof (Z.mod_pos_bound z 256).
  destruct (Byte.of_N (Z.to_N (z mod 256))) as [b|] eqn:E.
  - apply Byte.to_of_N in E. unfold byte_val. rewrite E. lia.
  - apply Byte.of_N_None_iff in E. lia.
Qed.

Lemma bytes_of_string_of_bytes l : bytes_of_string (string_of_bytes l) = l.
Proof. apply Stdlib.Strings.String.list_byte_of_string_of_list_byte. Qed.

Lemma string_of_bytes_of_string s : string_of_bytes (bytes_of_string s) = s.
Proof. apply Stdlib.Strings.String.string_of_list_byte_of_string. Qed.

(** ** Strings *)

Definition slash : Ascii.ascii := Ascii.ascii_of_N 47.
Definition nul : Ascii.ascii := Ascii.ascii_of_N 0.

(** [c] does not occur in the string. *)
Fixpoint no_char (c : Ascii.ascii) (s : string) : bool :=
  match s with
  | EmptyString => true
  | String c' s' => negb (Ascii.eqb c' c) && no_char c s'
  end.

Lemma string_app_cons c a b : String c a +:+ b = String c (a +:+ b).
Proof. done. Qed.

Lemma string_app_nil b : EmptyString +:+ b = b.
Proof. done. Qed.

Lemma string_app_assoc a b c : (a +:+ b) +:+ c = a +:+ b +:+ c.
Proof. induction a as [|x a IH]; [done|]. by rewrite !string_app_cons, IH. Qed.

Lemma string_app_head a b c : a +:+ b = a +:+ c → b = c.
Proof. induction a as [|x a IH]; [done|]. rewrite !string_app_cons. intros [= E]. by apply IH. Qed.

(** Two places of a ring that are less than a turn apart. *)
Lemma mod_apart n a b : (a < b < a + n)%nat → (a mod n ≠ b mod n)%nat.
Proof.
  intros H E. assert (Hn : n ≠ 0%nat) by lia.
  pose proof (Nat.div_mod a n Hn). pose proof (Nat.div_mod b n Hn). rewrite E in *.
  destruct (Nat.le_gt_cases (b / n) (a / n)); nia.
Qed.

Lemma substring_all s : String.substring 0 (String.length s) s = s.
Proof. induction s as [|c s IH]; cbn; [done|by rewrite IH]. Qed.

Lemma substring_prefix a b : String.substring 0 (String.length a) (a +:+ b) = a.
Proof. induction a as [|c a IH]; [by destruct b|]. rewrite string_app_cons. cbn. by rewrite IH. Qed.

Lemma substring_skip a b n : String.substring (String.length a) n (a +:+ b) = String.substring 0 n b.
Proof. induction a as [|c a IH]; [done|]. rewrite string_app_cons. cbn. apply IH. Qed.

Lemma string_app_length a b : String.length (a +:+ b) = (String.length a + String.length b)%nat.
Proof. induction a as [|c a IH]; [by rewrite string_app_nil|]. rewrite string_app_cons. cbn. by rewrite IH. Qed.

(** What is left of a string after a prefix of it. *)
Lemma substring_rest a b : String.substring (String.length a) (String.length (a +:+ b) - String.length a) (a +:+ b) = b.
Proof.
  rewrite substring_skip, string_app_length. replace (_ - _)%nat with (String.length b) by lia. apply substring_all.
Qed.

Lemma no_char_app c a b : no_char c (a +:+ b) = no_char c a && no_char c b.
Proof.
  induction a as [|c' a IH]; [done|]. rewrite string_app_cons. simpl.
  by rewrite IH, andb_assoc.
Qed.

Lemma split_at_char c a a' r r' :
  no_char c a = true → no_char c a' = true →
  a +:+ String c r = a' +:+ String c r' → a = a' ∧ r = r'.
Proof.
  revert a'. induction a as [|x a IH]; intros [|x' a'] Ha Ha' H;
    rewrite ?string_app_cons, ?string_app_nil in H; simplify_eq/=; bool_to_prop.
  - done.
  - by rewrite Ascii.eqb_refl in H.
  - by rewrite Ascii.eqb_refl in H.
  - destruct (IH a') as [-> ->]; done.
Qed.

(** Byte order on strings. *)

Definition str_le (a b : string) : Prop := String.leb a b = true.

#[export] Instance str_le_dec : RelDecision str_le := λ a b, decide (String.leb a b = true).
#[export] Instance str_le_total : Total str_le := String.leb_total.
#[export] Instance str_le_antisymm : AntiSymm eq str_le := String.leb_antisym.

Lemma compare_lt_trans a b c : String.compare a b = Lt → String.compare b c = Lt → String.compare a c = Lt.
Proof.
  revert b c. induction a as [|x a IH]; intros [|y b] [|z c]; cbn; try done.
  unfold Ascii.compare. intros H1 H2.
  destruct (N.compare_spec (Ascii.N_of_ascii x) (Ascii.N_of_ascii y)),
    (N.compare_spec (Ascii.N_of_ascii y) (Ascii.N_of_ascii z)),
    (N.compare_spec (Ascii.N_of_ascii x) (Ascii.N_of_ascii z)); try done; try lia. by eapply IH.
Qed.

#[export] Instance str_le_trans : Transitive str_le.
Proof.
  intros a b c. unfold str_le, String.leb.
  destruct (String.compare a b) eqn:E1; [|..]; try done.
  - apply String.compare_eq_iff in E1 as ->. done.
  - intros _. destruct (String.compare b c) eqn:E2; try done.
    + apply String.compare_eq_iff in E2 as ->. by rewrite E1.
    + by rewrite (compare_lt_trans a b c E1 E2).
Qed.

(** ** [encoding/binary]: big-endian integers *)

(** [be_bytes n v] is what [BigEndian.PutUintN] stores: the [n] low-order
    bytes of [v], most significant first. *)
Fixpoint be_bytes (n : nat) (v : Z) : list byte :=
  match n with
  | O => []
  | S n' => byte_of (v / 256 ^ Z.of_nat n') :: be_bytes n' v
  end.

(** [be_val] is what [BigEndian.UintN] reads. *)
Definition be_val (l : list byte) : Z := foldl (λ acc b, acc * 256 + byte_val b) 0 l.

Lemma length_be_bytes n v : length (be_bytes n v) = n.
Proof. induction n; simpl; congruence. Qed.

Lemma be_val_acc l acc : foldl (λ acc b, acc * 256 + byte_val b) acc l
  = acc * 256 ^ Z.of_nat (length l) + be_val l.
Proof.
  unfold be_val. revert acc. induction l as [|b l IH]; intros acc; simpl.
  - lia.
  - rewrite IH, (IH (0 * 256 + byte_val b)), Nat2Z.inj_succ, Z.pow_succ_r by lia. lia.
Qed.

Lemma be_val_cons b l : be_val (b :: l) = byte_val b * 256 ^ Z.of_nat (length l) + be_val l.
Proof.
  unfold be_val at 1. cbn [foldl]. by rewrite be_val_acc, Z.add_0_l.
Qed.

Lemma be_val_be_bytes n v : 0 ≤ v → be_val (be_bytes n v) = v mod 256 ^ Z.of_nat n.
Proof.
  intros Hv. induction n as [|n IH]; simpl be_bytes.
  - by rewrite Z.mod_1_r.
  - rewrite be_val_cons, length_be_bytes, byte_val_of, IH.
    rewrite Nat2Z.inj_succ, Z.pow_succ_r by lia.
    rewrite (Z.mul_comm 256).
    rewrite (Z.rem_mul_r v (256 ^ Z.of_nat n) 256) by lia. lia.
Qed.

Lemma be_val_range l : 0 ≤ be_val l < 256 ^ Z.of_nat (length l).
Proof.
  induction l as [|b l IH]; [done|].
  rewrite be_val_cons. pose proof (byte_val_range b). simpl length.
  rewrite Nat2Z.inj_succ, Z.pow_succ_r by lia. nia.
Qed.

(** ** [fmt] and [encoding/hex] *)

Definition hex_digit (n : Z) : Ascii.ascii :=
  Ascii.ascii_of_N (Z.to_N (if n <? 10 then 48 + n else 87 + n)).

(** [fmt.Sprintf("%02x", b)] for a byte. *)
Definition hex_byte (b : byte) : string :=
  String (hex_digit (byte_val b / 16)) (String (hex_digit (byte_val b mod 16)) EmptyString).

(** [hex.EncodeToString]. *)
Fixpoint hex_encode (l : list byte) : string :=
  match l with
  | [] => EmptyString
  | b :: l' => hex_byte b +:+ hex_encode l'
  end.

(** [%d] of an integer. *)
Definition fmt_d (z : Z) : string := pretty z.

Fixpoint zeros (n : nat) : string :=
  match n with O => EmptyString | S n' => "0" +:+ zeros n' end.

(** [fmt.Sprintf("%012d", z)]: zero padding goes after the sign and the
    width counts it. *)
Definition fmt_0d (width : nat) (z : Z) : string :=
  if z <? 0
  then "-" +:+ zeros (width - 1 - String.length (pretty (Z.abs z))) +:+ pretty (Z.abs z)
  else zeros (width - String.length (pretty z)) +:+ pretty z.

(** ** [sort.Search]

    Binary search for the least index in [[0, n)] at which [f] is true; [f]
    is false before that index and true from it on.  [fuel] bounds the
    iterations; [n] is always enough because the interval shrinks. *)
Fixpoint search_loop (fuel : nat) (f : nat → bool) (i j : nat) : nat :=
  match fuel with
  | O => i
  | S fuel' =>
      if (i <? j)%nat then
        let h := ((i + j) / 2)%nat in
        if f h then search_loop fuel' f i h else search_loop fuel' f (S h) j
      else i
  end.

Definition sort_search (n : nat) (f : nat → bool) : nat := search_loop n f 0 n.

Lemma search_loop_spec fuel f i j :
  (i ≤ j ≤ i + fuel)%nat →
  (∀ a b, (a ≤ b < j)%nat → f a = true → f b = true) →
  (i ≤ search_loop fuel f i j ≤ j)%nat ∧
  (∀ k, (i ≤ k < search_loop fuel f i j)%nat → f k = false) ∧
  (∀ k, (search_loop fuel f i j ≤ k < j)%nat → f k = true).
Proof.
  revert i j. induction fuel as [|fuel IH]; intros i j Hij Hmono; cbn [search_loop].
  { split_and!; [lia|lia|intros; lia|intros; lia]. }
  destruct (Nat.ltb_spec i j) as [Hlt|Hge]; [|split_and!; [lia|lia|intros; lia|intros; lia]].
  set (h := ((i + j) / 2)%nat).
  assert (i ≤ h < j)%nat as Hh.
  { unfold h. split; [apply Nat.div_le_lower_bound; lia|].
    apply Nat.Div0.div_lt_upper_bound; lia. }
  clearbody h. assert (∀ k, (h ≤ k < j)%nat → f h = true → f k = true) as Hup
    by (intros; eapply Hmono; [|done]; lia).
  destruct (f h) eqn:Hf.
  - destruct (IH i h) as (Hr & Hlo & Hhi); [lia|intros; eapply Hmono; [|done]; lia|].
    split_and!; [lia|lia|done|]. intros k Hk.
    destruct (decide (k < h)%nat); [apply Hhi; lia|apply Hup; [lia|done]].
  - destruct (IH (S h) j) as (Hr & Hlo & Hhi); [lia|done|].
    split_and!; [lia|lia| |intros; apply Hhi; lia]. intros k Hk.
    destruct (decide (S h ≤ k)%nat); [apply Hlo; lia|].
    destruct (f k) eqn:Hfk; [|done]. rewrite (Hmono k h) in Hf; [done|lia|done].
Qed.

(** The index [sort.Search] returns, for a monotone predicate. *)
Lemma sort_search_spec n f :
  (∀ a b, (a ≤ b < n)%nat → f a = true → f b = true) →
  (sort_search n f ≤ n)%nat ∧
  (∀ k, (k < sort_search n f)%nat → f k = false) ∧
  (∀ k, (sort_search n f ≤ k < n)%nat → f k = true).
Proof.
  intros Hmono. unfold sort_search.
  destruct (search_loop_spec n f 0 n) as (H1 & H2 & H3); [lia|done|].
  split_and!; [lia| |done]. intros; apply H2; lia.
Qed.

(** ** [crypto/sha256] *)

Module Sha256.

Definition w32 (z : Z) : Z := z mod 2 ^ 32.
Definition rotr (n x : Z) : Z := Z.lor (Z.shiftr x n) (w32 (Z.shiftl x (32 - n))).
Definition not32 (x : Z) : Z := 2 ^ 32 - 1 - x.

Definition ch (x y z : Z) := Z.lxor (Z.land x y) (Z.land (not32 x) z).
Definition maj (x y z : Z) := Z.lxor (Z.lxor (Z.land x y) (Z.land x z)) (Z.land y z).
Definition big_sigma0 x := Z.lxor (Z.lxor (rotr 2 x) (rotr 13 x)) (rotr 22 x).
Definition big_sigma1 x := Z.lxor (Z.lxor (rotr 6 x) (rotr 11 x)) (rotr 25 x).
Definition small_sigma0 x := Z.lxor (Z.lxor (rotr 7 x) (rotr 18 x)) (Z.shiftr x 3).
Definition small_sigma1 x := Z.lxor (Z.lxor (rotr 17 x) (rotr 19 x)) (Z.shiftr x 10).

Definition K : list Z := [
1116352408; 1899447441; 3049323471; 3921009573; 961987163; 1508970993; 2453635748; 2870763221;
3624381080; 310598401; 607225278; 1426881987; 1925078388; 2162078206; 2614888103; 3248222580;
3835390401; 4022224774; 264347078; 604807628; 770255983; 1249150122; 1555081692; 1996064986;
2554220882; 2821834349; 2952996808; 3210313671; 3336571891; 3584528711; 113926993; 338241895;
666307205; 773529912; 1294757372; 1396182291; 1695183700; 1986661051; 2177026350; 2456956037;
2730485921; 2820302411; 3259730800; 3345764771; 3516065817; 3600352804; 4094571909; 275423344;
430227734; 506948616; 659060556; 883997877; 958139571; 1322822218; 1537002063; 1747873779;
1955562222; 2024104815; 2227730452; 2361852424; 2428436474; 2756734187; 3204031479; 3329325298].

Definition H0 : list Z := [
1779033703; 3144134277; 1013904242; 2773480762; 1359893119; 2600822924; 528734635; 1541459225].

(** Padding to a multiple of 64 bytes: [128], zeros, the bit length. *)
Definition pad (msg : list byte) : list byte :=
let n := length msg in
let k := ((119 - n mod 64) mod 64)%nat in
msg ++ [byte_of 0x80] ++ replicate k Byte.x00 ++ be_bytes 8 (8 * Z.of_nat n).

(** The message schedule, newest word first. *)
Fixpoint schedule (n : nat) (w : list Z) : list Z :=
match n with
| O => w
| S n' =>
    let g i := nth i w 0 in
    schedule n' (w32 (small_sigma1 (g 1%nat) + g 6%nat + small_sigma0 (g 14%nat) + g 15%nat) :: w)
end.

Fixpoint words (n : nat) (l : list byte) : list Z :=
match n with
| O => []
| S n' => be_val (take 4 l) :: words n' (drop 4 l)
end.

Definition round (st : list Z) (kw : Z * Z) : list Z :=
match st with
| [a; b; c; d; e; f; g; h] =>
    let t1 := h + big_sigma1 e + ch e f g + kw.1 + kw.2 in
    let t2 := big_sigma0 a + maj a b c in
    [w32 (t1 + t2); a; b; c; w32 (d + t1); e; f; g]
| _ => st
end.

Definition compress (st : list Z) (block : list byte) : list Z :=
let w := rev (schedule 48 (rev (words 16 block))) in
zip_with (λ x y, w32 (x + y)) st (foldl round st (zip K w)).

Fixpoint blocks (n : nat) (st : list Z) (l : list byte) : list Z :=
match n with
| O => st
| S n' => blocks n' (compress st (take 64 l)) (drop 64 l)
end.

(** [sha256.Sum256]. *)
Definition sum256 (msg : list byte) : list byte :=
let p := pad msg in
concat (map (be_bytes 4) (blocks (length p / 64) H0 p)).

Example sum256_abc :
hex_encode (sum256 (bytes_of_string "abc"))
= "ba7816bf8f01cfea414140de5dae2223b00361a396177a9cb410ff61f20015ad"%string.
Proof. vm_compute. reflexivity. Qed.

Example sum256_empty :
hex_encode (sum256 [])
= "e3b0c44298fc1c149afbf4c8996fb92427ae41e4649b934ca495991b7852b855"%string.
Proof. vm_compute. reflexivity. Qed.

Example sum256_two_blocks :
hex_encode (sum256 (bytes_of_string "abcdbcdecdefdefgefghfghighijhijkijkljklmklmnlmnomnopnopq"))
= "248d6a61d20638b8e5c026930c3e6039a33ce45964ff2167f6ecedd419db06c1"%string.
Proof. vm_compute. reflexivity. Qed.

Lemma length_round st kw : length (round st kw) = length st.
Proof. by destruct st as [|?[|?[|?[|?[|?[|?[|?[|?[|??]]]]]]]]]. Qed.

Lemma length_rounds kws st : length (foldl round st kws) = length st.
Proof.
revert st. induction kws as [|kw kws IH]; intros st; [done|].
simpl. by rewrite IH, length_round.
Qed.

Lemma length_blocks n st l : length (blocks n st l) = length st.
Proof.
revert st l. induction n as [|n IH]; intros st l; [done|].
simpl. rewrite IH. unfold compress. rewrite length_zip_with, length_rounds. lia.
Qed.

Lemma length_concat_words st : length (concat (map (be_bytes 4) st)) = (4 * length st)%nat.
Proof.
induction st as [|w st IH]; [done|].
cbn [map concat]. rewrite List.length_app, IH, length_be_bytes. cbn [length]. lia.
Qed.

(** A digest has 32 bytes. *)
Lemma length_sum256 msg : length (sum256 msg) = 32%nat.
Proof. unfold sum256. by rewrite length_concat_words, length_blocks. Qed.

End Sha256.

(** ** [hash/crc32], IEEE polynomial *)

Module Crc32.

Fixpoint shift_bits (n : nat) (c : Z) : Z :=
match n with
| O => c
| S n' => shift_bits n' (if Z.odd c then Z.lxor (Z.shiftr c 1) 0xedb88320 else Z.shiftr c 1)
end.

Definition step (crc : Z) (b : byte) : Z :=
Z.lxor (shift_bits 8 (Z.land (Z.lxor crc (byte_val b)) 255)) (Z.shiftr crc 8).

(** [crc32.Checksum(data, crc32.MakeTable(crc32.IEEE))]. *)
Definition checksum (data : list byte) : Z :=
Z.lxor (foldl step 0xffffffff data) 0xffffffff.

Example checksum_check : checksum (bytes_of_string "123456789") = 0xcbf43926.
Proof. vm_compute. reflexivity. Qed.

Lemma lxor_range a b : 0 ≤ a < 2 ^ 32 → 0 ≤ b < 2 ^ 32 → 0 ≤ Z.lxor a b < 2 ^ 32.
Proof.
intros Ha Hb. split; [apply Z.lxor_nonneg; lia|].
destruct (decide (Z.lxor a b = 0)) as [->|Hne]; [lia|].
assert (0 ≤ Z.lxor a b) by (apply Z.lxor_nonneg; lia).
apply Z.log2_lt_pow2; [lia|].
eapply Z.le_lt_trans; [apply Z.log2_lxor; lia|].
apply Z.max_lub_lt.
- destruct (decide (a = 0)) as [->|]; [done|]. apply Z.log2_lt_pow2; lia.
- destruct (decide (b = 0)) as [->|]; [done|]. apply Z.log2_lt_pow2; lia.
Qed.

Lemma shift_bits_range n c : 0 ≤ c < 2 ^ 32 → 0 ≤ shift_bits n c < 2 ^ 32.
Proof.
revert c. induction n as [|n IH]; intros c Hc; [done|]. simpl. apply IH.
assert (0 ≤ Z.shiftr c 1 < 2 ^ 32) as Hs.
{ rewrite Z.shiftr_div_pow2 by lia. change (2 ^ 1) with 2.
  split; [apply Z.div_pos; lia|]. apply Z.div_lt_upper_bound; lia. }
destruct (Z.odd c); [|done]. by apply lxor_range.
Qed.

Lemma step_range crc b : 0 ≤ crc < 2 ^ 32 → 0 ≤ step crc b < 2 ^ 32.
Proof.
intros Hc. unfold step. apply lxor_range.
- apply shift_bits_range.
  change 255 with (Z.ones 8). rewrite Z.land_ones by lia.
  pose proof (Z.mod_pos_bound (Z.lxor crc (byte_val b)) (2 ^ 8)). lia.
- rewrite Z.shiftr_div_pow2 by lia.
  split; [apply Z.div_pos; lia|]. apply Z.div_lt_upper_bound; lia.
Qed.

(** A checksum fits in a [uint32]. *)
Lemma checksum_range data : 0 ≤ checksum data < 2 ^ 32.
Proof.
unfold checksum. apply lxor_range; [|done].
apply (foldl_inv (λ c, 0 ≤ c < 2 ^ 32)); [done|].
intros. by apply step_range.
Qed.

End Crc32.

(** ** [%q]

    A quoted string; escapes, which only a string with quotes, backslashes or
    unprintable characters needs, are left out. *)
Definition quote_char : Ascii.ascii := Ascii.ascii_of_N 34.
Definition fmt_q (s : string) : string := String quote_char (s +:+ String quote_char EmptyString).

(** ** A byte per bit

    Where an example needs a codec, any countable type is one: a value's
    position in an enumeration, in binary. *)

Fixpoint pos_bytes (p : positive) : list byte :=
  match p with
  | xH => [Byte.xff]
  | xO p => Byte.x00 :: pos_bytes p
  | xI p => Byte.x01 :: pos_bytes p
  end.
Fixpoint bytes_pos (l : list byte) : option positive :=
  match l with
  | [Byte.xff] => Some xH
  | Byte.x00 :: l => xO <$> bytes_pos l
  | Byte.x01 :: l => xI <$> bytes_pos l
  | _ => None
  end.

Lemma bytes_pos_bytes p : bytes_pos (pos_bytes p) = Some p.
Proof. induction p as [p IH|p IH|]; simpl; [by rewrite IH..|done]. Qed.
