(* ===== verification/Exporter.v ===== *)
(** * The metrics exporter (metrics/metrics.go)

    Atomic counters and gauges, and a histogram of fixed upper bounds.  Every
    method is one atomic step. *)
From S2P Require Import Prelude GoLib.
Open Scope Z_scope.

(** ** Counters and gauges *)

Record Counter := MkCounter { cValue : Z }.
Definition Counter_Inc (c : Counter) : Counter := MkCounter (wrap64 (cValue c + 1)).
Definition Counter_Add (n : Z) (c : Counter) : Counter := MkCounter (wrap64 (cValue c + n)).
Definition Counter_Value (c : Counter) : Z := cValue c.

Record Gauge := MkGauge { gValue : Z }.
Definition Gauge_Set (n : Z) (g : Gauge) : Gauge := MkGauge n.
Definition Gauge_Inc (g : Gauge) : Gauge := MkGauge (wrap64 (gValue g + 1)).
Definition Gauge_Dec (g : Gauge) : Gauge := MkGauge (wrap64 (gValue g - 1)).
Definition Gauge_Value (g : Gauge) : Z := gValue g.

(** ** Histograms *)

Record Histogram := MkHistogram { hCount : Z; hSum : Z; hBuckets : list Z; hBounds : list Z }.

Definition NewHistogram (bounds : list Z) : Histogram :=
  MkHistogram 0 0 (replicate (length bounds + 1) 0) bounds.

(** The first bound that is not below [v], or the last bucket. *)
Fixpoint bucket_of (v : Z) (bounds : list Z) : nat :=
  match bounds with
  | [] => 0
  | b :: bounds => if v <=? b then 0 else S (bucket_of v bounds)
  end.

Definition Observe (v : Z) (h : Histogram) : Histogram :=
  MkHistogram (wrap64 (hCount h + 1)) (wrap64 (hSum h + v))
    (alter (λ n, wrap64 (n + 1)) (bucket_of v (hBounds h)) (hBuckets h)) (hBounds h).

(** The loop over the bounds: [None] is an index past the buckets. *)
Fixpoint snapshot_loop (bounds buckets : list Z) (i : nat) (out : gmap string Z) : option (gmap string Z) :=
  match bounds with
  | [] => n ← buckets !! i; Some (<["le_inf" := n]> out)
  | b :: bounds => n ← buckets !! i; snapshot_loop bounds buckets (S i) (<["le_" +:+ fmt_d b := n]> out)
  end.
Definition Histogram_Snapshot (h : Histogram) : option (gmap string Z) :=
  snapshot_loop (hBounds h) (hBuckets h) 0 (<["count" := hCount h]> {["sum" := hSum h]}).

(** ** The collector *)

Record Collector := MkCollector {
  JobsSubmitted : Counter; JobsCompleted : Counter; JobsFailed : Counter; TasksDispatched : Counter; TasksCompleted : Counter;
  TasksFailed : Counter; BytesProcessed : Counter; RecordsProcessed : Counter;
  ActiveWorkers : Gauge; ActiveTasks : Gauge; PendingJobs : Gauge; TaskDuration : Histogram; startTime : Z }.

Definition duration_bounds : list Z := [100; 500; 1000; 5000; 10000; 30000; 60000; 300000].
Definition NewCollector (now : Z) : Collector :=
  let c := MkCounter 0 in let g := MkGauge 0 in
  MkCollector c c c c c c c c g g g (NewHistogram duration_bounds) now.

Inductive metric := MNumber (n : Z) | MSeconds (d : Z) | MBuckets (m : gmap string Z).
Definition Collector_Snapshot (now : Z) (c : Collector) : option (gmap string metric) :=
  d ← Histogram_Snapshot (TaskDuration c);
  Some (list_to_map [
    ("uptime_seconds", MSeconds (now - startTime c));
    ("jobs_submitted", MNumber (Counter_Value (JobsSubmitted c))); ("jobs_completed", MNumber (Counter_Value (JobsCompleted c)));
    ("jobs_failed", MNumber (Counter_Value (JobsFailed c))); ("tasks_dispatched", MNumber (Counter_Value (TasksDispatched c)));
    ("tasks_completed", MNumber (Counter_Value (TasksCompleted c))); ("tasks_failed", MNumber (Counter_Value (TasksFailed c)));
    ("bytes_processed", MNumber (Counter_Value (BytesProcessed c))); ("records_processed", MNumber (Counter_Value (RecordsProcessed c)));
    ("active_workers", MNumber (Gauge_Value (ActiveWorkers c))); ("active_tasks", MNumber (Gauge_Value (ActiveTasks c)));
    ("pending_jobs", MNumber (Gauge_Value (PendingJobs c))); ("task_duration", MBuckets d)]%string).

(** ** What a histogram counts *)

Definition observed (bounds vs : list Z) : Histogram := foldl (λ h v, Observe v h) (NewHistogram bounds) vs.

(** The values that fall between bound [i - 1] and bound [i]. *)
Definition in_bucket (bounds : list Z) (i : nat) (v : Z) : Prop :=
  Forall (λ b, b < v) (take i bounds) ∧ match bounds !! i with Some b => v ≤ b | None => True end.
#[export] Instance in_bucket_dec bounds i v : Decision (in_bucket bounds i v).
Proof. unfold in_bucket. apply and_dec; [apply _|]. destruct (bounds !! i); apply _. Defined.

Lemma bucket_of_le v bounds : (bucket_of v bounds ≤ length bounds)%nat.
Proof. induction bounds as [|b bounds IH]; cbn; [lia|]. destruct (v <=? b); lia. Qed.

Lemma bucket_of_spec v bounds i : (i ≤ length bounds)%nat → bucket_of v bounds = i ↔ in_bucket bounds i v.
Proof.
  revert i. induction bounds as [|b bounds IH]; intros i Hi; cbn [bucket_of length] in *.
  - destruct i; [|lia]. unfold in_bucket. cbn. split; [by repeat constructor|done].
  - unfold in_bucket in *. destruct (Z.leb_spec v b) as [Hv|Hv], i as [|i]; cbn [take lookup list_lookup].
    + split; [by split; [constructor|]|done].
    + split; [done|]. intros [HF _]. apply Forall_cons in HF as [? _]. lia.
    + split; [done|]. intros [_ ?]. lia.
    + rewrite Nat.succ_inj_wd, IH, Forall_cons by lia. tauto.
Qed.

Definition tally (bounds : list Z) (i : nat) (vs : list Z) : Z := Z.of_nat (length (filter (λ v, bucket_of v bounds = i) vs)).

Lemma observed_buckets bounds vs : Z.of_nat (length vs) ≤ max_int64 →
  hBounds (observed bounds vs) = bounds ∧ hCount (observed bounds vs) = Z.of_nat (length vs) ∧
  length (hBuckets (observed bounds vs)) = (length bounds + 1)%nat ∧
  ∀ i, (i ≤ length bounds)%nat → hBuckets (observed bounds vs) !! i = Some (tally bounds i vs).
Proof.
  unfold observed. induction vs as [|v vs IH] using rev_ind; intros Hn.
  - cbn. split_and!; [done|done|by rewrite length_replicate|]. intros i Hi. rewrite lookup_replicate_2 by lia. done.
  - rewrite length_app in Hn. cbn in Hn. destruct IH as (Hb & Hc & Hl & Hi); [lia|]. rewrite foldl_snoc. set (h := foldl _ _ vs) in *.
    unfold Observe. cbn [hBounds hCount hBuckets]. rewrite Hb, Hc, length_alter, length_app. cbn [length]. split_and!; [done| |done|].
    + rewrite wrap64_id; lia.
    + intros i Hi'. unfold tally. rewrite filter_app, length_app. destruct (decide (bucket_of v bounds = i)) as [Hd|Hd].
      * rewrite Hd, list_lookup_alter_eq, Hi by done. rewrite filter_cons_True, filter_nil by done. cbn. f_equal. unfold tally.
        pose proof (length_filter (λ w, bucket_of w bounds = i) vs). rewrite wrap64_id; lia.
      * rewrite list_lookup_alter_ne, Hi by done. rewrite filter_cons_False, filter_nil by done. cbn. unfold tally. f_equal. lia.
Qed.

Definition sum_of (l : list Z) : Z := foldr Z.add 0 l.

Lemma sum_of_tallies bounds vs l : length l = (length bounds + 1)%nat →
  (∀ i, (i ≤ length bounds)%nat → l !! i = Some (tally bounds i vs)) → sum_of l = Z.of_nat (length vs).
Proof.
  revert l. induction vs as [|v vs IH]; intros l Hl Hi.
  - assert (HF : Forall (λ n, n = 0) l). { apply Forall_lookup. intros i n Hn. apply lookup_lt_Some in Hn as Hlt. rewrite (Hi i) in Hn by lia. by injection Hn as <-. }
    clear - HF. induction HF as [|n l -> HF IH]; [done|]. cbn in *. unfold sum_of in *. lia.
  - destruct (lookup_lt_is_Some_2 l (bucket_of v bounds)) as [n Hn]; [pose proof (bucket_of_le v bounds); lia|].
    specialize (IH (alter Z.pred (bucket_of v bounds) l)). rewrite length_alter in IH.
    assert (sum_of l = sum_of (alter Z.pred (bucket_of v bounds) l) + 1) as ->.
    { clear - Hn. revert Hn. generalize (bucket_of v bounds) as i. intros i. revert i. induction l as [|x l IH]; intros [|i] Hn; try done; cbn in *; unfold sum_of in *; cbn; [lia|]. rewrite (IH i Hn). lia. }
    rewrite IH; [cbn [length]; lia|done|]. intros i Hi'. pose proof (Hi i Hi') as E. unfold tally in *. destruct (decide (bucket_of v bounds = i)) as [Hd|Hd].
    + rewrite Hd, list_lookup_alter_eq, E, filter_cons_True by done. cbn. f_equal. lia.
    + by rewrite list_lookup_alter_ne, E, filter_cons_False by done.
Qed.

(** A histogram's buckets partition what it observed: each holds the number of
    values above the previous bound and not above its own, the last one the rest,
    and they add up to the count. So a bucket named [le_b] is not the number of
    values up to [b], as it would be in a Prometheus export: with bounds 100 and
    500, after 50 and 200, [le_500] is 1. *)
Theorem histogram_partitions bounds vs (h := observed bounds vs) : Z.of_nat (length vs) ≤ max_int64 →
  hCount h = Z.of_nat (length vs) ∧ sum_of (hBuckets h) = hCount h ∧
  (∀ i, (i ≤ length bounds)%nat → hBuckets h !! i = Some (Z.of_nat (length (filter (in_bucket bounds i) vs)))) ∧
  (snap ← Histogram_Snapshot (observed [100; 500] [50; 200]); snap !! "le_500"%string) = Some 1.
Proof.
  intros Hn. destruct (observed_buckets bounds vs Hn) as (Hb & Hc & Hl & Hi). fold h in Hb, Hc, Hl, Hi. split_and!; [done| | |by vm_compute].
  - rewrite Hc. by apply (sum_of_tallies bounds).
  - intros i Hi'. rewrite Hi by done. unfold tally. do 3 f_equal. apply list_filter_iff. intros v. by apply bucket_of_spec.
Qed.

Lemma histogram_partitions_witness : hBuckets (observed duration_bounds [7; 400; 100; 999999]) !! 0%nat = Some 2.
Proof.
  destruct (histogram_partitions duration_bounds [7; 400; 100; 999999]) as (_ & _ & H & _); [cbn; unfold max_int64; lia|].
  rewrite (H 0%nat ltac:(cbn; lia)). vm_compute. reflexivity.
Defined.
