(* ===== verification/Storage.v ===== *)
(** * Object layout and object store (internal/storage)

    [shard.go]: the hash-prefix shard of a file name, object keys, tiers.
    [client.go]: the S3 operations the platform calls, as an interface with
    the laws the callers rely on. *)
From S2P Require Import Prelude GoLib.
Open Scope Z_scope.

Definition ShardCount : nat := 256.

(** [ShardKey]: the first byte of the SHA-256 digest, in hex. *)
Definition ShardKey (filename : string) : string :=
  match Sha256.sum256 (bytes_of_string filename) with
  | h0 :: _ => hex_byte h0
  | [] => EmptyString
  end.

Definition ObjectKey (dataset filename : string) : string :=
  dataset +:+ "/" +:+ ShardKey filename +:+ "/" +:+ filename.

Definition AllShards : list string :=
  map (λ i, hex_byte (byte_of (Z.of_nat i))) (seq 0 ShardCount).

(** [StorageTier] is a Go string type; a tier read back from the database
    may be any string. *)
Definition TierHot : string := "HOT".
Definition TierWarm : string := "WARM".
Definition TierCold : string := "COLD".
Definition TierArchive : string := "ARCHIVE".

Definition S3StorageClass (t : string) : string :=
  if bool_decide (t = TierHot) then "STANDARD"
  else if bool_decide (t = TierWarm) then "STANDARD_IA"
  else if bool_decide (t = TierCold) then "GLACIER_IR"
  else if bool_decide (t = TierArchive) then "DEEP_ARCHIVE"
  else "STANDARD".

(** ** The object store service

    The bucket behind [Client] is S3, which is not part of this repository.
    [ObjectStore] states what the platform relies on: [Copy] and [Delete]
    either fail and leave the bucket as it was, or have their documented
    effect. *)
Class ObjectStore (S : Type) := {
  os_get : S → string → option (list byte);
  os_copy : S → string → string → option S;
  os_delete : S → string → option S;
  os_copy_dst s s' src dst : os_copy s src dst = Some s' → os_get s' dst = os_get s src;
  os_copy_src s s' src dst : os_copy s src dst = Some s' → is_Some (os_get s src);
  os_copy_other s s' src dst k :
    os_copy s src dst = Some s' → k ≠ dst → os_get s' k = os_get s k;
  os_delete_key s s' k : os_delete s k = Some s' → os_get s' k = None;
  os_delete_other s s' k k' : os_delete s k = Some s' → k' ≠ k → os_get s' k' = os_get s k';
}.

(** A bucket as a finite map; [Copy] of a missing key fails. *)
#[export, refine] Instance map_store : ObjectStore (gmap string (list byte)) := {|
  os_get s k := s !! k;
  os_copy s src dst := (λ v, <[dst := v]> s) <$> (s !! src);
  os_delete s k := Some (delete k s);
|}.
Proof.
  - intros s s' src dst H. apply fmap_Some in H as (v & Hv & ->). by simplify_map_eq.
  - intros s s' src dst H. apply fmap_Some in H as (v & Hv & ->). by eexists.
  - intros s s' src dst k H ?. apply fmap_Some in H as (v & Hv & ->). by simplify_map_eq.
  - intros s s' k [= <-]. by simplify_map_eq.
  - intros s s' k k' [= <-] ?. by simplify_map_eq.
Defined.

(** ** Properties *)

Lemma hex_digit_inj a b : 0 ≤ a < 16 → 0 ≤ b < 16 → hex_digit a = hex_digit b → a = b.
Proof.
  intros Ha Hb H. apply (f_equal Ascii.N_of_ascii) in H. unfold hex_digit in H.
  destruct (Z.ltb_spec a 10), (Z.ltb_spec b 10);
    rewrite !Ascii.N_ascii_embedding in H by lia; lia.
Qed.

Lemma hex_byte_inj x y : hex_byte x = hex_byte y → x = y.
Proof.
  intros [= H1 H2]. pose proof (byte_val_range x). pose proof (byte_val_range y).
  apply hex_digit_inj in H1; [|split; [apply Z.div_pos|apply Z.div_lt_upper_bound]; lia..].
  apply hex_digit_inj in H2; [|apply Z.mod_pos_bound; lia..].
  rewrite <- (byte_of_val x), <- (byte_of_val y). f_equal.
  rewrite (Z.div_mod (byte_val x) 16), (Z.div_mod (byte_val y) 16) by lia. congruence.
Qed.

Lemma AllShards_NoDup : NoDup AllShards.
Proof.
  unfold AllShards. apply NoDup_fmap_2_strong; [|apply NoDup_seq].
  intros i j Hi Hj H. apply elem_of_seq in Hi, Hj. apply hex_byte_inj in H.
  apply (f_equal byte_val) in H. rewrite !byte_val_of in H. unfold ShardCount in *.
  rewrite !Z.mod_small in H by lia. lia.
Qed.

Lemma length_AllShards : length AllShards = ShardCount.
Proof. unfold AllShards. by rewrite length_fmap, length_seq. Qed.

Lemma hex_byte_in_AllShards b : hex_byte b ∈ AllShards.
Proof.
  unfold AllShards. apply list_elem_of_fmap. exists (Z.to_nat (byte_val b)).
  pose proof (byte_val_range b). split.
  - rewrite Z2Nat.id by lia. by rewrite byte_of_val.
  - apply elem_of_seq. unfold ShardCount. lia.
Qed.

Lemma ShardKey_in_AllShards filename : ShardKey filename ∈ AllShards.
Proof.
  unfold ShardKey. pose proof (Sha256.length_sum256 (bytes_of_string filename)) as Hlen.
  destruct (Sha256.sum256 _) as [|b l]; [done|]. apply hex_byte_in_AllShards.
Qed.
