(* ===== verification/Multipart.v ===== *)
(** * Parallel multipart upload (storage/multipart.go)

    [MultipartUpload] starts [concurrency] goroutines that take parts from a
    channel and upload them, a goroutine that closes the result channel when
    they have all returned, and then reads the input and hands out the parts.
    The model is the state of the three channels and of every goroutine; an
    event names the goroutine that moves next and what the store answers if
    it makes a call. *)
From S2P Require Import Prelude GoLib.
Open Scope Z_scope.

Definition wrap32 (z : Z) : Z := (z + 2 ^ 31) mod 2 ^ 32 - 2 ^ 31.

Record work := MkWork { wNum : Z; wData : list byte }.
Record part := MkPart { pNum : Z; pEtag : string }.

#[export] Instance work_eq_dec : EqDecision work.
Proof. solve_decision. Defined.
#[export] Instance part_eq_dec : EqDecision part.
Proof. solve_decision. Defined.

(** What [io.ReadFull] reports besides the bytes: the buffer was filled, the
    input ended ([io.EOF] or [io.ErrUnexpectedEOF]), or reading failed. *)
Inductive read_status := Full | Ended | Failed (e : string).

(** A goroutine of the pool. *)
Inductive worker := Waiting | Uploading (w : work) | Sending (p : part) | Reporting (e : string) | Exited.

(** Where the caller is. *)
Inductive caller :=
  | Reading (rest : list byte)
  | Handing (w : work) (st : read_status) (rest : list byte)
  | Selecting
  | Collecting (parts : list part)
  | Completing (parts : list part)
  | Returned (r : result unit).

Record Upload := MkUpload {
  main : caller; partNum : Z;
  workCh : list work; workClosed : bool;
  pool : list worker;
  resultCh : list part; resultClosed : bool;
  errCh : list string;
  stored : gmap Z (string * list byte);   (* the upload's parts at the store *)
  object : option (list byte);            (* the completed object *)
  aborted : bool }.

#[export] Instance eta_Upload : Eta Upload := λ u,
  MkUpload (main u) (partNum u) (workCh u) (workClosed u) (pool u) (resultCh u) (resultClosed u) (errCh u)
    (stored u) (object u) (aborted u).

(** [Go b out] moves worker [b], [Main out] the caller, [Close] the goroutine
    that waits for the pool. *)
Inductive event := Main (out : result string) | Go (i : nat) (out : result string) | Close.

Section upload.
Context (concurrency : nat) (chunkSize : nat) (readError : option string).

(** [io.ReadFull(r, buf)] on the bytes that are left. *)
Definition ReadFull (rest : list byte) : list byte * read_status * list byte :=
  (take chunkSize rest,
   if (chunkSize <=? length rest)%nat then Full else match readError with None => Ended | Some e => Failed e end,
   drop chunkSize rest).

(** The loop's exits after a read. *)
Definition after_read (st : read_status) (rest : list byte) (u : Upload) : Upload :=
  match st with
  | Full => u <| main := Reading rest |>
  | Ended => u <| workClosed := true |> <| main := Selecting |>
  | Failed e => u <| workClosed := true |> <| aborted := true |> <| main := Returned (Err ("read input: " +:+ e)) |>
  end.

(** [sort.Slice(parts, …)]: part numbers are distinct. *)
Definition by_num (p q : part) : Prop := pNum p ≤ pNum q.
#[local] Instance by_num_dec : RelDecision by_num := λ p q, decide (pNum p ≤ pNum q).
Definition sort_parts (ps : list part) : list part := merge_sort by_num ps.

(** The object the store builds from a list of parts. *)
Definition assemble (s : gmap Z (string * list byte)) (ps : list part) : list byte :=
  concat (map (λ p, default [] (snd <$> s !! pNum p)) ps).

Definition main_step (out : result string) (u : Upload) : option Upload :=
  match main u with
  | Reading rest =>
      let '(chunk, st, rest') := ReadFull rest in
      if (0 <? length chunk)%nat
      then Some (u <| main := Handing (MkWork (partNum u) chunk) st rest' |> <| partNum := wrap32 (partNum u + 1) |>)
      else Some (after_read st rest' u)
  | Handing w st rest =>
      if (length (workCh u) <? concurrency)%nat
      then Some (after_read st rest (u <| workCh := workCh u ++ [w] |>)) else None
  | Selecting =>
      match errCh u with
      | e :: es => Some (u <| errCh := es |> <| aborted := true |> <| main := Returned (Err e) |>)
      | [] => Some (u <| main := Collecting [] |>)
      end
  | Collecting ps =>
      match resultCh u with
      | p :: r => Some (u <| resultCh := r |> <| main := Collecting (ps ++ [p]) |>)
      | [] => if resultClosed u then Some (u <| main := Completing (sort_parts ps) |>) else None
      end
  | Completing ps =>
      match out with
      | Ok _ => Some (u <| object := Some (assemble (stored u) ps) |> <| main := Returned (Ok tt) |>)
      | Err e => Some (u <| aborted := true |> <| main := Returned (Err ("complete multipart upload: " +:+ e)) |>)
      end
  | Returned _ => None
  end.

Definition worker_step (i : nat) (out : result string) (u : Upload) : option Upload :=
  w ← pool u !! i;
  let become x u := u <| pool := <[i := x]> (pool u) |> in
  match w with
  | Waiting =>
      match workCh u with
      | x :: r => Some (become (Uploading x) (u <| workCh := r |>))
      | [] => if workClosed u then Some (become Exited u) else None
      end
  | Uploading x =>
      match out with
      | Ok etag => Some (become (Sending (MkPart (wNum x) etag)) (u <| stored := <[wNum x := (etag, wData x)]> (stored u) |>))
      | Err e => Some (become (Reporting ("upload part " +:+ fmt_d (wNum x) +:+ ": " +:+ e)) u)
      end
  | Sending p =>
      if (length (resultCh u) <? concurrency)%nat
      then Some (become Waiting (u <| resultCh := resultCh u ++ [p] |>)) else None
  | Reporting e =>
      if (length (errCh u) <? concurrency)%nat
      then Some (become Exited (u <| errCh := errCh u ++ [e] |>)) else None
  | Exited => None
  end.

Definition exited (w : worker) : bool := match w with Exited => true | _ => false end.

Definition close_step (u : Upload) : option Upload :=
  if forallb exited (pool u) && negb (resultClosed u) then Some (u <| resultClosed := true |>) else None.

Definition step (e : event) (u : Upload) : option Upload :=
  match e with Main out => main_step out u | Go i out => worker_step i out u | Close => close_step u end.

(** After [CreateMultipartUpload]. *)
Definition start (input : list byte) : Upload :=
  MkUpload (Reading input) 1 [] false (replicate concurrency Waiting) [] false [] ∅ None false.

Fixpoint run (evs : list event) (u : Upload) : option Upload :=
  match evs with [] => Some u | e :: evs => u' ← step e u; run evs u' end.

Definition reached (input : list byte) (u : Upload) : Prop := ∃ evs, run evs (start input) = Some u.

(** [MultipartUpload]: the store may refuse to open the upload. *)
Definition MultipartUpload (input : list byte) (create : result string) : Upload + result unit :=
  match create with
  | Ok _ => inl (start input)
  | Err e => inr (Err ("create multipart upload: " +:+ e))
  end.
End upload.

(** ** The reader given to the store *)

Record bytesReader := MkReader { brData : list byte; brPos : nat }.
Definition newBytesReader (data : list byte) : bytesReader := MkReader data 0.

(** [Read] into a buffer of [n] bytes; [None] is [io.EOF]. *)
Definition Read (n : nat) (b : bytesReader) : option (list byte) * bytesReader :=
  if (length (brData b) <=? brPos b)%nat then (None, b)
  else
    let got := take n (drop (brPos b) (brData b)) in
    (Some got, MkReader (brData b) (brPos b + length got)).

(** ** Parts of an input *)

Section chunks.
Context (n : nat) (Hn : (0 < n)%nat).

Fixpoint chunk_loop (fuel : nat) (l : list byte) : list (list byte) :=
  match fuel, l with
  | S fuel, _ :: _ => take n l :: chunk_loop fuel (drop n l)
  | _, _ => []
  end.

(** The parts the caller cuts [l] into. *)
Definition chunks (l : list byte) : list (list byte) := chunk_loop (length l) l.

Lemma chunk_loop_fuel f l : (length l ≤ f)%nat → chunk_loop f l = chunks l.
Proof.
  unfold chunks. revert l. induction f as [f IH] using lt_wf_ind. intros l Hf.
  destruct l as [|b l]; [by destruct f|]. destruct f as [|f]; [simpl in Hf; lia|].
  cbn [length chunk_loop]. f_equal.
  assert (Hd : (length (drop n (b :: l)) ≤ length l)%nat) by (rewrite length_drop; simpl; lia).
  rewrite IH by (simpl in Hf; lia). destruct (decide (length l < S f)%nat) as [E|E]; [|simpl in Hf; lia].
  by rewrite (IH (length l)) by (simpl in Hf; lia).
Qed.

Lemma chunks_cons l : l ≠ [] → chunks l = take n l :: chunks (drop n l).
Proof.
  intros Hl. destruct l as [|b l]; [done|].
  unfold chunks at 1. cbn [length chunk_loop]. f_equal. apply chunk_loop_fuel. rewrite length_drop. simpl. lia.
Qed.

Lemma chunks_nil : chunks [] = [].
Proof. done. Qed.

Lemma concat_chunks l : concat (chunks l) = l.
Proof.
  remember (length l) as k eqn:Hk. revert l Hk. induction k as [k IH] using lt_wf_ind. intros l ->.
  destruct (decide (l = [])) as [->|Hl]; [done|]. rewrite chunks_cons by done. cbn [concat].
  rewrite (IH (length (drop n l))); [apply take_drop|rewrite length_drop; destruct l; simpl in *; [done|lia]|done].
Qed.
End chunks.

(** The numbers the caller gives them. *)
Fixpoint number (k : Z) (ds : list (list byte)) : list work :=
  match ds with [] => [] | d :: ds => MkWork k d :: number (wrap32 (k + 1)) ds end.

Lemma wrap32_id z : - 2 ^ 31 ≤ z < 2 ^ 31 → wrap32 z = z.
Proof. intros Hz. unfold wrap32. rewrite Z.mod_small; lia. Qed.

Lemma number_data k ds : wData <$> number k ds = ds.
Proof. revert k. induction ds as [|d ds IH]; intros k; simpl; f_equal; auto. Qed.

Lemma number_length k ds : length (number k ds) = length ds.
Proof. rewrite <- (number_data k ds) at 2. by rewrite length_fmap. Qed.

Lemma number_lower k ds w : 0 ≤ k → k + Z.of_nat (length ds) < 2 ^ 31 → w ∈ number k ds → k ≤ wNum w.
Proof.
  revert k. induction ds as [|d ds IH]; intros k Hk Hb Hw; [by apply elem_of_nil in Hw|]. cbn [length number] in *.
  apply elem_of_cons in Hw as [->|Hw]; [done|]. rewrite wrap32_id in Hw by lia.
  apply IH in Hw; lia.
Qed.

Lemma number_sorted k ds : 0 ≤ k → k + Z.of_nat (length ds) < 2 ^ 31 →
  StronglySorted Z.lt (wNum <$> number k ds).
Proof.
  revert k. induction ds as [|d ds IH]; intros k Hk Hb; [constructor|]. cbn [length number fmap list_fmap wNum] in *.
  rewrite wrap32_id by lia. constructor; [apply IH; lia|].
  apply Forall_forall. intros ? [w [-> Hw]]%list_elem_of_fmap. apply number_lower in Hw; lia.
Qed.

Lemma sorted_lt_nodup (l : list Z) : StronglySorted Z.lt l → NoDup l.
Proof.
  induction 1 as [|x l Hl IH Hx]; constructor; [|done]. intros Hin.
  apply (proj1 (Forall_forall _ _) Hx) in Hin. lia.
Qed.

Lemma sorted_lt_le (l : list Z) : StronglySorted Z.lt l → StronglySorted Z.le l.
Proof. induction 1 as [|x l Hl IH Hx]; constructor; [done|]. eapply Forall_impl; [done|]. simpl; lia. Qed.

(** ** The pool as a multiset *)

Definition upl (w : worker) : option work := match w with Uploading x => Some x | _ => None end.
Definition snd_ (w : worker) : option part := match w with Sending p => Some p | _ => None end.
Definition rep (w : worker) : option string := match w with Reporting e => Some e | _ => None end.
Definition awake (l : list worker) : nat := length (omap (λ w, if exited w then None else Some w) l).

#[global] Arguments awake : simpl never.

#[export] Instance awake_proper : Proper ((≡ₚ) ==> eq) awake.
Proof. intros l l' Hl. unfold awake. by rewrite Hl. Qed.

Lemma awake_none l : awake l = O ↔ forallb exited l = true.
Proof. unfold awake. induction l as [|[] l IH]; simpl; try done; split; lia || done. Qed.

Lemma awake_le l : (awake l ≤ length l)%nat.
Proof. unfold awake. induction l as [|w l IH]; cbn; [lia|]. destruct (exited w); cbn; lia. Qed.

(** ** The invariant *)

Section invariant.
Context (c : nat) (n : nat) (readError : option string) (input : list byte).

Definition handing (m : caller) : bool := match m with Reading _ | Handing _ _ _ => true | _ => false end.
Definition gave_up (m : caller) : bool := match m with Returned (Err _) => true | _ => false end.
Definition past_results (m : caller) : bool := match m with Completing _ | Returned (Ok _) => true | _ => false end.

(** Who runs and which channels are open. *)
Record control (u : Upload) : Prop := {
  ct_work : (length (workCh u) ≤ c)%nat;
  ct_results : (length (resultCh u) ≤ c)%nat;
  ct_open : workClosed u = negb (handing (main u));
  ct_errors : gave_up (main u) = false → (length (errCh u) + awake (pool u) ≤ c)%nat;
  ct_exit : gave_up (main u) = false → (length (errCh u) + awake (pool u) < c)%nat →
    workClosed u = true ∧ workCh u = [];
  ct_closed : resultClosed u = true → awake (pool u) = O;
  ct_past : past_results (main u) = true → resultClosed u = true ∧ resultCh u = [] }.

Definition collected (m : caller) : list part :=
  match m with Collecting ps | Completing ps => ps | _ => [] end.
Definition finished (u : Upload) : list part := omap snd_ (pool u) ++ resultCh u ++ collected (main u).
Definition pending (u : Upload) : list work :=
  match main u with
  | Reading rest => number (partNum u) (chunks n rest)
  | Handing w _ rest => w :: number (partNum u) (chunks n rest)
  | _ => []
  end.
Definition parts : list work := number 1 (chunks n input).

(** Where every part handed out so far is: in the channel, with a worker,
    uploaded, or given up. *)
Record placed (u : Upload) (sent : list work) (ups : list (work * string)) (lost : list work) : Prop := {
  pl_parts : parts = sent ++ pending u;
  pl_sent : sent ≡ₚ workCh u ++ omap upl (pool u) ++ ups.*1 ++ lost;
  pl_done : finished u ≡ₚ (λ x, MkPart (wNum x.1) x.2) <$> ups;
  pl_stored : Forall (λ x, stored u !! wNum x.1 = Some (x.2, wData x.1)) ups;
  pl_lost : length lost = (length (errCh u) + length (omap rep (pool u)))%nat;
  pl_rest : ∀ w st rest, main u = Handing w st rest → st ≠ Full → rest = [];
  pl_sorted : ∀ ps, main u = Completing ps → StronglySorted by_num ps }.

Definition accounted (u : Upload) : Prop :=
  match main u with
  | Returned (Ok _) => errCh u = [] → object u = Some input
  | Returned (Err _) => True
  | _ => ∃ sent ups lost, placed u sent ups lost
  end.

Record inv (u : Upload) : Prop := { iv_control : control u; iv_accounted : accounted u }.

Lemma awake_replicate k : awake (replicate k Waiting) = k.
Proof. unfold awake. induction k; simpl; auto. Qed.

Lemma omap_replicate_none {B} (f : worker → option B) k : f Waiting = None → omap f (replicate k Waiting) = [].
Proof. intros Hf. induction k; simpl; [done|]. by rewrite Hf. Qed.

Lemma start_inv : inv (start c input).
Proof.
  split.
  - split; simpl; rewrite ?awake_replicate; try done; lia.
  - exists [], [], []. split; cbn; rewrite ?omap_replicate_none by done; try done; constructor.
Qed.

(** *** The caller's moves *)

Lemma caller_control out u u' : control u → main_step c n readError out u = Some u' → control u'.
Proof.
  intros [C1 C2 C3 C4 C5 C6 C7] Hs. unfold main_step, after_read, ReadFull in Hs.
  destruct (main u) eqn:Em; cbn in *; split_guards; split; cbn;
    rewrite ?length_app in *; cbn in *; try done; try lia;
    try (intros _ Hlt; destruct (C5 eq_refl ltac:(lia)); split; congruence);
    try (intros; split; congruence).
  - intros _. rewrite H. by apply C4.
  - match goal with E : resultCh u = _ |- _ => rewrite E in * end. cbn in *. lia.
Qed.

Lemma all_exited l : awake l = O → omap upl l = [] ∧ omap snd_ l = [] ∧ omap rep l = [].
Proof. unfold awake. induction l as [|[] l IH]; cbn; intros Hl; try done. by apply IH. Qed.

(** Once the results are in and nothing was lost, the sorted parts are the
    input, in order. *)
Lemma assemble_input u ps sent ups lost :
  control u → placed u sent ups lost → main u = Completing ps → errCh u = [] → (0 < c)%nat →
  (0 < n)%nat → Z.of_nat (length (chunks n input)) < 2 ^ 31 - 1 →
  assemble (stored u) ps = input.
Proof.
  intros Hc [P1 P2 P3 P4 P5 _ P7] Hm He Hcc Hn Hsmall.
  destruct (ct_past u Hc) as [Hcl Hr]; [by rewrite Hm|].
  pose proof (ct_closed u Hc Hcl) as Haw. destruct (all_exited _ Haw) as (Hup & Hsn & Hrep).
  destruct (ct_exit u Hc) as [_ Hwk]; [by rewrite Hm|rewrite He, Haw; simpl; lia|].
  unfold finished, pending in *. rewrite Hm, He, Hwk, Hup, Hsn, Hrep, Hr in *. cbn in *.
  apply nil_length_inv in P5 as ->. rewrite !app_nil_r in *. subst sent.
  set (g k := default [] (snd <$> stored u !! k)).
  assert (Hg : ∀ w, w ∈ parts → g (wNum w) = wData w).
  { intros w Hw. rewrite P2 in Hw. apply list_elem_of_fmap in Hw as [[w' e] [-> Hw]].
    apply (proj1 (Forall_forall _ _) P4) in Hw. unfold g. cbn in *. by rewrite Hw. }
  assert (Hnums : pNum <$> ps = wNum <$> parts).
  { apply (StronglySorted_unique Z.le).
    - specialize (P7 ps eq_refl). clear -P7. induction P7; constructor; [done|].
      apply Forall_fmap. eapply Forall_impl; [done|]. done.
    - apply sorted_lt_le, number_sorted; lia.
    - rewrite P2, P3, <- !list_fmap_compose. done. }
  transitivity (concat (wData <$> parts)); [|unfold parts; rewrite number_data; apply (concat_chunks n Hn)].
  unfold assemble. f_equal. trans (g <$> (pNum <$> ps)); [by rewrite <- list_fmap_compose|].
  rewrite Hnums, <- list_fmap_compose. apply list_fmap_ext. intros i w Hw. apply Hg. by eapply list_elem_of_lookup_2.
Qed.

Lemma caller_accounted out u u' : control u → accounted u →
  (0 < n)%nat → (0 < c)%nat → Z.of_nat (length (chunks n input)) < 2 ^ 31 - 1 →
  main_step c n readError out u = Some u' → accounted u'.
Proof.
  intros Hc Ha Hn Hcc Hsmall Hs. unfold main_step, after_read, ReadFull in Hs. unfold accounted in *.
  destruct (main u) as [rest|w st rest| |ps|ps|[]] eqn:Em; cbn in *; [..|done|done].
  - destruct Ha as (sent & ups & lost & [P1 P2 P3 P4 P5 P6 P7]).
    assert (Hr : length (take n rest) = O → rest = []).
    { intros Ht. destruct rest; [done|]. destruct n; [lia|]. done. }
    unfold finished, pending in *. rewrite Em in *. cbn in *.
    rewrite length_take in Hs, Hr.
    split_guards; try done; try lia; exists sent, ups, lost; split; unfold finished, pending; cbn; try done.
    all: try (rewrite (chunks_cons n Hn) in P1 by (intros ->; cbn in *; lia); cbn in P1; done).
    all: try (rewrite Hr in P1 by lia; cbn in P1; by rewrite P1).
    all: try (intros ??? [= <- <- <-]; intros; try done; apply drop_ge; lia).
  - destruct Ha as (sent & ups & lost & [P1 P2 P3 P4 P5 P6 P7]).
    assert (Hr : st ≠ Full → rest = []) by (intros; by eapply P6).
    unfold finished, pending in *. rewrite Em in *. cbn in *.
    split_guards; try done; exists (sent ++ [w]), ups, lost; split; unfold finished, pending; cbn;
      rewrite <- ?app_assoc; try done.
    all: try (rewrite P2; solve_perm).
    all: rewrite Hr in P1 by done; done.
  - destruct Ha as (sent & ups & lost & [P1 P2 P3 P4 P5 P6 P7]).
    split_guards; try done. exists sent, ups, lost.
    split; unfold finished, pending in *; rewrite Em in *; try done. cbn. by rewrite H.
  - destruct Ha as (sent & ups & lost & Hp). pose proof Hp as [P1 P2 P3 P4 P5 P6 P7].
    split_guards; try done; exists sent, ups, lost; split; unfold finished, pending in *; rewrite Em in *; cbn in *; try done.
    + rewrite <- P3. unfold sort_parts. by rewrite merge_sort_Permutation.
    + intros ? [= <-]. apply StronglySorted_merge_sort; intros ?*; unfold by_num; lia.
    + rewrite <- P3. match goal with E : resultCh u = _ |- _ => rewrite E end. solve_perm.
  - destruct Ha as (sent & ups & lost & Hp). split_guards; try done.
    intros He. cbn. f_equal. by eapply assemble_input.
Qed.

(** *** The pool's moves *)

Lemma awake_cons w l : awake (w :: l) = (if exited w then awake l else S (awake l)).
Proof. unfold awake. cbn. by destruct (exited w). Qed.

Lemma worker_control i out u u' : control u → worker_step c i out u = Some u' → control u'.
Proof.
  intros [C1 C2 C3 C4 C5 C6 C7] Hs. unfold worker_step in Hs.
  destruct (pool u !! i) as [w|] eqn:Hw; [|done]. cbn in Hs.
  assert (Hmove : ∀ y, ∃ k, awake (pool u) = (if exited w then k else S k) ∧
                            awake (<[i := y]> (pool u)) = (if exited y then k else S k)).
  { intros y. destruct (insert_perm _ i w y Hw) as (l & E1 & E2). exists (awake l).
    by rewrite (awake_proper _ _ E1), (awake_proper _ _ E2), !awake_cons. }
  destruct w; cbn in *; [..|done]; split_guards;
    match goal with |- control ?s => match s with context [<[_ := ?y]> _] => destruct (Hmove y) as (k & E1 & E2) end end;
    cbn in *; split; cbn; rewrite ?length_app, ?E2 in *; cbn; try done; try lia; try congruence;
    try (intros Hg; specialize (C4 Hg); lia); try (intros Hg; specialize (C6 Hg); lia);
    try (intros Hg Hlt; destruct (C5 Hg ltac:(lia)); split; congruence);
    try (intros Hg; destruct (C7 Hg) as [Hcl ?]; specialize (C6 Hcl); lia).
  by rewrite H.
Qed.

Lemma close_control u u' : control u → close_step u = Some u' → control u'.
Proof.
  intros [C1 C2 C3 C4 C5 C6 C7] Hs. unfold close_step in Hs. split_guards. split; cbn; try done.
  - intros _. by apply awake_none.
  - intros Hp. destruct (C7 Hp) as [? ?]. congruence.
Qed.

Lemma sent_nodup sent rest : parts = sent ++ rest →
  Z.of_nat (length (chunks n input)) < 2 ^ 31 - 1 → NoDup (wNum <$> sent).
Proof.
  intros Hp Hsmall.
  assert (Hd : NoDup (wNum <$> parts)) by (apply sorted_lt_nodup, number_sorted; lia).
  rewrite Hp, fmap_app in Hd. by apply NoDup_app in Hd as [? _].
Qed.

(** A worker's move keeps every part in its place. *)
Lemma worker_placed i out u u' sent ups lost : placed u sent ups lost →
  (0 < n)%nat → Z.of_nat (length (chunks n input)) < 2 ^ 31 - 1 →
  worker_step c i out u = Some u' → ∃ ups' lost', placed u' sent ups' lost'.
Proof.
  intros [P1 P2 P3 P4 P5 P6 P7] Hn Hsmall Hs. unfold worker_step in Hs.
  destruct (pool u !! i) as [w|] eqn:Hw; [|done]. cbn in Hs.
  assert (Hmove : ∀ y, ∃ l, (∀ (B : Type) (f : worker → option B), omap f (pool u) ≡ₚ omap f (w :: l)) ∧
                            (∀ (B : Type) (f : worker → option B), omap f (<[i := y]> (pool u)) ≡ₚ omap f (y :: l))).
  { intros y. destruct (insert_perm _ i w y Hw) as (l & E1 & E2). exists l.
    split; intros B f; [by rewrite E1|by rewrite E2]. }
  destruct w as [|x|p|e|]; cbn in *; [..|done]; split_guards;
    match goal with |- context [placed ?s] => match s with context [<[_ := ?y]> (pool _)] => destruct (Hmove y) as (q & E1 & E2) end end;
    pose proof (E1 _ upl) as U1; pose proof (E1 _ snd_) as S1; pose proof (Permutation_length (E1 _ rep)) as R1;
    pose proof (E2 _ upl) as U2; pose proof (E2 _ snd_) as S2; pose proof (Permutation_length (E2 _ rep)) as R2;
    unfold finished, pending in *; cbn in *; clear Hmove E1 E2.
  1,2,5,6: exists ups, lost; split; unfold finished, pending; cbn;
    rewrite ?length_app; cbn; first [done | lia | rewrite P2, U1, U2; solve_perm
                                    | rewrite S2, <- P3, S1; solve_perm | idtac].
  - by rewrite P2, H, U1, U2.
  - exists ((x, a) :: ups), lost. split; unfold finished, pending; cbn; try done; try lia.
    + rewrite P2, U1, U2. solve_perm.
    + by rewrite S2, <- P3, S1.
    + pose proof (sent_nodup _ _ P1 Hsmall) as Hd. rewrite P2, U1, !fmap_app in Hd. cbn in Hd.
      constructor; cbn; [by rewrite lookup_insert_eq|].
      apply NoDup_app in Hd as (_ & _ & Hd). apply NoDup_cons in Hd as [Hx _].
      apply Forall_forall. intros [w e] Hin. cbn. rewrite lookup_insert_ne.
      * by apply (proj1 (Forall_forall _ _) P4) in Hin.
      * intros Hk. apply Hx, elem_of_app. right. apply elem_of_app. left. rewrite Hk, <- list_fmap_compose.
        apply list_elem_of_fmap. by exists (w, e).
  - exists ups, (x :: lost). split; unfold finished, pending; cbn; try done; try lia.
    + rewrite P2, U1, U2. solve_perm.
    + by rewrite S2, <- P3, S1.
Qed.

Lemma worker_inv i out u u' : inv u →
  (0 < n)%nat → Z.of_nat (length (chunks n input)) < 2 ^ 31 - 1 →
  worker_step c i out u = Some u' → inv u'.
Proof.
  intros [Hc Ha] Hn Hsmall Hs. split; [by eapply worker_control|].
  assert (Hm : main u' = main u ∧ object u' = object u).
  { unfold worker_step in Hs. destruct (pool u !! i) as [[]|]; cbn in Hs; split_guards; done. }
  destruct Hm as [Hm Ho]. unfold accounted in *. rewrite Hm, Ho.
  destruct (main u) as [| | | | |[]] eqn:Em; [..|done];
    try (destruct Ha as (sent & ups & lost & Hp); destruct (worker_placed i out u u' sent ups lost)
           as (ups' & lost' & Hp'); [done..|by exists sent, ups', lost']).
  destruct (ct_past u Hc) as [Hcl _]; [by rewrite Em|].
  pose proof (ct_closed u Hc Hcl) as Haw. exfalso. unfold worker_step in Hs.
  destruct (pool u !! i) as [w|] eqn:Hw; [|done]. cbn in Hs.
  destruct (insert_perm _ i w w Hw) as (l & E & _). rewrite (awake_proper _ _ E), awake_cons in Haw.
  destruct w; done.
Qed.

Lemma step_inv e u u' : inv u →
  (0 < n)%nat → (0 < c)%nat → Z.of_nat (length (chunks n input)) < 2 ^ 31 - 1 →
  step c n readError e u = Some u' → inv u'.
Proof.
  intros Hi Hn Hcc Hsmall Hs. pose proof Hi as [Hc Ha]. destruct e as [out|i out|]; cbn in Hs.
  - split; [by eapply caller_control|by eapply caller_accounted].
  - by eapply worker_inv.
  - split; [by eapply close_control|]. unfold close_step in Hs. split_guards. unfold accounted in *. cbn.
    destruct (main u) as [| | | | |[]] eqn:Em; try done;
      destruct Ha as (sent & ups & lost & [P1 P2 P3 P4 P5 P6 P7]); exists sent, ups, lost;
      split; unfold finished, pending in *; cbn; rewrite Em in *; done.
Qed.

Lemma run_inv evs u u' : inv u →
  (0 < n)%nat → (0 < c)%nat → Z.of_nat (length (chunks n input)) < 2 ^ 31 - 1 →
  run c n readError evs u = Some u' → inv u'.
Proof.
  revert u. induction evs as [|e evs IH]; intros u Hi Hn Hcc Hsmall Hr; cbn in Hr; [by simplify_eq|].
  destruct (step c n readError e u) as [u1|] eqn:Es; [|done]. cbn in Hr.
  apply (IH u1); try done. by eapply step_inv.
Qed.
End invariant.

(** ** How long an upload can run *)

Section progress.
Local Open Scope nat_scope.

Definition worker_weight (w : worker) : nat :=
  match w with Waiting => 1 | Uploading _ => 5 | Sending _ => 4 | Reporting _ => 4 | Exited => 0 end.
Definition caller_weight (m : caller) : nat :=
  match m with
  | Reading rest => 8 * length rest + 10
  | Handing _ _ rest => 8 * length rest + 17
  | Selecting => 3 | Collecting _ => 2 | Completing _ => 1 | Returned _ => 0
  end.
Definition pool_weight (l : list worker) : nat := foldr (λ w k, worker_weight w + k) 0 l.
Definition measure (u : Upload) : nat :=
  caller_weight (main u) + 5 * length (workCh u) + pool_weight (pool u) + length (resultCh u)
  + (if resultClosed u then 0 else 1).

#[local] Arguments pool_weight : simpl never.
#[local] Instance pool_weight_proper : Proper ((≡ₚ) ==> eq) pool_weight.
Proof. unfold pool_weight. induction 1; simpl in *; lia. Qed.

Context (c : nat) (n : nat) (readError : option string) (Hn : 0 < n).

Lemma step_decreases e u u' : step c n readError e u = Some u' → measure u' < measure u.
Proof.
  destruct e as [out|i out|]; cbn; intros Hs.
  - unfold main_step, after_read, ReadFull in Hs. unfold measure.
    destruct (main u) eqn:Em; cbn in *; [..|done]; split_guards; cbn;
      rewrite ?length_app, ?length_drop, ?length_take in *; cbn; try lia.
    rewrite H. simpl. lia.
  - unfold worker_step in Hs. destruct (pool u !! i) as [w|] eqn:Hw; [|done]. cbn in Hs.
    assert (Hmove : ∀ y, ∃ k, pool_weight (pool u) = worker_weight w + k ∧
                              pool_weight (<[i := y]> (pool u)) = worker_weight y + k).
    { intros y. destruct (insert_perm _ i w y Hw) as (l & E1 & E2). exists (pool_weight l).
      by rewrite (pool_weight_proper _ _ E1), (pool_weight_proper _ _ E2). }
    destruct w; cbn in *; [..|done]; split_guards; unfold measure;
      match goal with |- context [<[_ := ?y]> (pool _)] => destruct (Hmove y) as (k & E1 & E2) end;
      cbn in *; rewrite ?length_app; cbn; try lia.
    rewrite H. simpl. lia.
  - unfold close_step in Hs. unfold measure.
    destruct (forallb exited (pool u)), (resultClosed u) eqn:E; cbn in Hs; simplify_eq; cbn; lia.
Qed.

Lemma run_length evs u u' : run c n readError evs u = Some u' → length evs + measure u' ≤ measure u.
Proof.
  revert u. induction evs as [|e evs IH]; intros u Hr; cbn in *; [by simplify_eq|].
  destruct (step c n readError e u) as [u1|] eqn:Es; [|done]. apply step_decreases in Es. apply IH in Hr. lia.
Qed.

Context (input : list byte).
Context (Hc : 0 < c) (Hsmall : (Z.of_nat (length (chunks n input)) < 2 ^ 31 - 1)%Z).

(** Nobody can move. *)
Definition stuck (u : Upload) : Prop := ∀ e, step c n readError e u = None.

(** Where the pool waits when nobody can move. *)
Lemma stuck_worker u : stuck u → control c u → gave_up (main u) = false → awake (pool u) ≠ 0 →
  (workCh u = [] ∧ workClosed u = false) ∨ c ≤ length (resultCh u).
Proof.
  intros Hs [_ _ _ C4 _ _ _] Hg Ha. specialize (C4 Hg).
  destruct (forallb exited (pool u)) eqn:Hf; [by apply awake_none in Hf|].
  assert (∃ i w, pool u !! i = Some w ∧ exited w = false) as (i & w & Hw & He).
  { clear -Hf. induction (pool u) as [|w l IH]; [done|]. cbn in Hf. destruct (exited w) eqn:E; [|by exists 0, w].
    destruct IH as (i & w' & ? & ?); [done|]. by exists (S i), w'. }
  pose proof (Hs (Go i (Ok EmptyString))) as H. cbn in H. unfold worker_step in H. rewrite Hw in H. simpl mbind in H.
  destruct w as [|x|p|e|]; [|done| | |done].
  - destruct (workCh u); [|done]. destruct (workClosed u); [done|]. by left.
  - destruct (length (resultCh u) <? c) eqn:E in H; [done|]. apply Nat.ltb_ge in E. by right.
  - destruct (length (errCh u) <? c) eqn:E in H; [done|]. apply Nat.ltb_ge in E. lia.
Qed.

Lemma stuck_returned u : inv c n input u → length (chunks n input) ≤ 2 * c → stuck u →
  ∃ r, main u = Returned r.
Proof.
  intros [Hct Ha] Hsz Hs. pose proof (stuck_worker u Hs Hct) as Hw.
  pose proof (Hs (Main (Ok EmptyString))) as Hm. pose proof (Hs Close) as Hk. cbn in Hm, Hk.
  unfold main_step, after_read, ReadFull, close_step, accounted in *.
  destruct Hct as [C1 C2 C3 C4 C5 C6 C7].
  destruct (main u) as [rest|w st rest| |ps|ps|r] eqn:Em; [..|by eexists]; exfalso.
  - by destruct (0 <? length (take n rest)).
  - destruct Ha as (sent & ups & lost & [P1 P2 P3 P4 P5 _ _]). specialize (Hw eq_refl).
    destruct (length (workCh u) <? c) eqn:E1 in Hm; [done|]. apply Nat.ltb_ge in E1. cbn in C3.
    apply (f_equal length) in P1. unfold parts, pending in P1. rewrite Em in P1.
    rewrite number_length, length_app in P1. cbn in P1.
    apply Permutation_length in P2, P3. unfold finished in P3. rewrite Em in P3.
    repeat rewrite length_app in P2, P3. rewrite !length_fmap in *. cbn in *. rewrite length_app, length_fmap in P2.
    destruct (decide (awake (pool u) = 0)) as [E|E].
    + destruct (decide (length (errCh u) < c)) as [F|F]; [|lia].
      destruct (C5 eq_refl) as [? _]; [lia|congruence].
    + destruct (Hw E) as [[Hwk _]|?]; [|lia]. rewrite Hwk in *. cbn in *. lia.
  - by destruct (errCh u).
  - specialize (Hw eq_refl). destruct (resultCh u) eqn:Er; [|done]. destruct (resultClosed u); [done|]. cbn in C3.
    destruct (decide (awake (pool u) = 0)) as [E|E]; [apply awake_none in E; by rewrite E in Hk|].
    destruct (Hw E) as [[_ ?]|Hr]; [congruence|simpl in Hr; lia].
  - done.
Qed.

(** While parts are handed out, at most [2 c] of them are outside the channel. *)
Lemma handed_out u sent ups lost : control c u → placed n input u sent ups lost → handing (main u) = true →
  length (chunks n input) ≤ length (workCh u) + 2 * c + length (pending n u).
Proof.
  intros [C1 C2 C3 C4 C5 C6 C7] [P1 P2 P3 P4 P5 _ _] Hh.
  assert (Hpool : length (omap upl (pool u)) + length (omap snd_ (pool u)) + length (omap rep (pool u)) ≤ awake (pool u)).
  { clear. unfold awake. induction (pool u) as [|[] l IH]; cbn; lia. }
  assert (Hg : gave_up (main u) = false) by (by destruct (main u)). specialize (C4 Hg).
  assert (Hcol : collected (main u) = []) by (by destruct (main u)).
  apply (f_equal length) in P1. unfold parts in P1. rewrite number_length, length_app in P1.
  apply Permutation_length in P2, P3. unfold finished in P3. rewrite Hcol in P3.
  rewrite !length_app, !length_fmap in P2. rewrite !length_app, length_fmap in P3. cbn in P3. lia.
Qed.

Lemma handing_stays e u u' : inv c n input u → 3 * c < length (chunks n input) → handing (main u) = true →
  step c n readError e u = Some u' → handing (main u') = true ∧ object u' = object u.
Proof.
  intros [Hct Ha] Hbig Hh Hs. unfold accounted in Ha.
  assert (∃ sent ups lost, placed n input u sent ups lost) as (sent & ups & lost & Hp) by (by destruct (main u)).
  pose proof (handed_out u sent ups lost Hct Hp Hh) as Hout. destruct Hp as [_ _ _ _ _ P6 _].
  pose proof (ct_work _ _ Hct) as Hcap. unfold pending in Hout.
  destruct e as [out|i out|]; cbn in Hs.
  - unfold main_step, after_read, ReadFull in Hs. destruct (main u) as [rest|w st rest| | | |] eqn:Em; try done.
    + destruct (0 <? length (take n rest)) eqn:Et; simplify_eq/=; [done|]. apply Nat.ltb_ge in Et.
      rewrite length_take in Et. destruct rest; [cbn in Hout; lia|cbn in Et; lia].
    + destruct (length (workCh u) <? c) eqn:Et; [|done]. apply Nat.ltb_lt in Et.
      destruct st; simplify_eq/=; [done|..]; rewrite (P6 w _ rest eq_refl) in Hout by done; cbn in Hout; lia.
  - unfold worker_step in Hs. clear -Hs Hh. destruct (pool u !! i) as [[]|]; cbn in Hs; repeat case_match; by simplify_eq.
  - unfold close_step in Hs. clear -Hs Hh. case_match; by simplify_eq.
Qed.

Lemma handing_run evs u u' : inv c n input u → 3 * c < length (chunks n input) → handing (main u) = true →
  run c n readError evs u = Some u' → handing (main u') = true ∧ object u' = object u.
Proof.
  revert u. induction evs as [|e evs IH]; intros u Hi Hbig Hh Hr; cbn in Hr; [by simplify_eq|].
  destruct (step c n readError e u) as [u1|] eqn:Es; [|done]. cbn in Hr.
  destruct (handing_stays e u u1 Hi Hbig Hh Es) as [Hh1 <-]. apply IH; try done. by eapply step_inv.
Qed.
End progress.

(** ** Properties *)

(** C31: whenever [MultipartUpload] returns without an error and no goroutine
    reported one, the object it completed is the input, part after part, in
    whatever order the pool worked. *)
Theorem completed_upload_is_input c n readError input evs u :
  (0 < n)%nat → (0 < c)%nat → Z.of_nat (length (chunks n input)) < 2 ^ 31 - 1 →
  run c n readError evs (start c input) = Some u →
  main u = Returned (Ok tt) → errCh u = [] →
  object u = Some input.
Proof.
  intros Hn Hc Hsmall Hr Hm He.
  destruct (run_inv c n readError input evs _ u (start_inv c n input) Hn Hc Hsmall Hr) as [_ Ha].
  unfold accounted in Ha. rewrite Hm in Ha. auto.
Qed.

(** An upload of at most two parts per goroutine returns: whatever the
    store answers and whoever moves, its runs are bounded in length, and a run
    in which nobody can move any more has returned. *)
Theorem small_upload_returns c n readError input evs u :
  (0 < n)%nat → (0 < c)%nat → Z.of_nat (length (chunks n input)) < 2 ^ 31 - 1 →
  (length (chunks n input) ≤ 2 * c)%nat →
  run c n readError evs (start c input) = Some u →
  (length evs ≤ measure (start c input))%nat ∧
  ((∀ e, step c n readError e u = None) → ∃ r, main u = Returned r).
Proof.
  intros Hn Hc Hsmall Hsz Hr. split.
  - pose proof (run_length c n readError Hn evs _ u Hr). lia.
  - assert (Hi : inv c n input u) by (eapply run_inv; eauto using start_inv).
    by eapply stuck_returned.
Qed.

(** An upload of more than three parts per goroutine never returns: the
    caller collects results only after it has handed out every part, and by
    then the two channels and the goroutines are full.  With the default
    configuration (8 goroutines, 64 MiB parts) this is every object above
    1.5 GiB. *)
Theorem large_upload_never_returns c n readError input evs u :
  (0 < n)%nat → (0 < c)%nat → Z.of_nat (length (chunks n input)) < 2 ^ 31 - 1 →
  (3 * c < length (chunks n input))%nat →
  run c n readError evs (start c input) = Some u →
  handing (main u) = true ∧ object u = None.
Proof.
  intros Hn Hc Hsmall Hbig Hr.
  assert (Hi : inv c n input (start c input)) by apply start_inv.
  change (object u = None) with (object u = object (start c input)).
  eapply (handing_run c n readError Hn input Hc Hsmall); [exact Hi|exact Hbig|done|exact Hr].
Qed.

(** An upload that fails in the pool after the caller has looked for errors
    is not noticed: the call returns no error and the completed object lacks
    the part. *)
Theorem late_part_error_is_ignored :
  ∃ evs u, run 2 1 None evs (start 2 [Byte.x01; Byte.x02]) = Some u ∧
    main u = Returned (Ok tt) ∧ errCh u = ["upload part 2: timeout"] ∧ object u = Some [Byte.x01].
Proof.
  set (ok := Ok EmptyString).
  exists [Main ok; Main ok; Main ok; Main ok; Main ok; Main ok; Go 0 ok; Go 1 ok; Go 0 (Ok "a"); Go 0 ok;
          Go 1 (Err "timeout"); Go 1 ok; Go 0 ok; Close; Main ok; Main ok; Main ok].
  eexists. split; [vm_compute; reflexivity|]. repeat split.
Qed.

(** The store reads back what the part holds. *)
Fixpoint drain (fuel n : nat) (b : bytesReader) : list byte :=
  match fuel with
  | O => []
  | S fuel => match Read n b with (None, _) => [] | (Some l, b) => l ++ drain fuel n b end
  end.

Lemma drain_rest fuel n b : (0 < n)%nat → (length (brData b) - brPos b < fuel)%nat →
  drain fuel n b = drop (brPos b) (brData b).
Proof.
  intros Hn. revert b. induction fuel as [|fuel IH]; intros b Hf; [lia|]. cbn. unfold Read.
  destruct (length (brData b) <=? brPos b)%nat eqn:E.
  - apply Nat.leb_le in E. by rewrite drop_ge.
  - apply Nat.leb_gt in E. assert (Hl : (0 < length (take n (drop (brPos b) (brData b))))%nat)
      by (rewrite length_take, length_drop; lia).
    rewrite IH by (cbn; lia). cbn. rewrite <- drop_drop.
    set (rest := drop (brPos b) (brData b)). rewrite length_take.
    destruct (decide (n ≤ length rest)%nat).
    + rewrite Nat.min_l by done. apply take_drop.
    + rewrite Nat.min_r, drop_all, take_ge, app_nil_r by lia. done.
Qed.

Lemma reader_delivers_part n data : (0 < n)%nat → drain (S (length data)) n (newBytesReader data) = data.
Proof. intros Hn. rewrite drain_rest by (cbn; lia). done. Qed.

(** A run of three bytes in two parts through one goroutine. *)
Definition demo_input : list byte := [Byte.x01; Byte.x02; Byte.x03].
Definition demo_events : list event :=
  let ok := Ok EmptyString in
  [Main ok; Main ok; Go 0 ok; Main ok; Go 0 (Ok "a"); Go 0 ok; Main ok; Main ok; Go 0 ok; Go 0 (Ok "b")].
Definition demo_upload : Upload := default (start 1 []) (run 1 2 None demo_events (start 1 demo_input)).

(* The one result fits the channel, so the second part waits to be sent. *)
Example demo_upload_waits : main demo_upload = Collecting [] ∧ pool demo_upload = [Sending (MkPart 2 "b")].
Proof. vm_compute. done. Qed.

Definition demo_rest : list event :=
  let ok := Ok EmptyString in [Main ok; Go 0 ok; Main ok; Go 0 ok; Close; Main ok; Main ok].
Definition demo_done : Upload := default (start 1 []) (run 1 2 None (demo_events ++ demo_rest) (start 1 demo_input)).

Lemma completed_upload_is_input_witness :
  main demo_done = Returned (Ok tt) ∧ object demo_done = Some demo_input.
Proof.
  split; [vm_compute; reflexivity|].
  apply (completed_upload_is_input 1 2 None demo_input (demo_events ++ demo_rest));
    [lia|lia|vm_compute; reflexivity|vm_compute; reflexivity|vm_compute; reflexivity|vm_compute; reflexivity].
Defined.

Lemma small_upload_returns_witness :
  length (chunks 2 demo_input) = 2%nat ∧
  (length (demo_events ++ demo_rest) ≤ measure (start 1 demo_input))%nat ∧
  ((∀ e, step 1 2 None e demo_done = None) → ∃ r, main demo_done = Returned r).
Proof.
  split; [reflexivity|].
  apply (small_upload_returns 1 2 None demo_input (demo_events ++ demo_rest) demo_done);
    [lia|lia|vm_compute; reflexivity|vm_compute; lia|vm_compute; reflexivity].
Defined.

Definition big_input : list byte := replicate 4 Byte.x07.
Definition stuck_events : list event :=
  let ok := Ok EmptyString in
  [Main ok; Main ok; Go 0 ok; Go 0 ok; Go 0 ok; Main ok; Main ok; Go 0 ok; Go 0 ok; Main ok; Main ok; Main ok].
Definition stuck_upload : Upload := default (start 1 []) (run 1 1 None stuck_events (start 1 big_input)).

Lemma large_upload_never_returns_witness :
  main stuck_upload = Handing (MkWork 4 [Byte.x07]) Full [] ∧
  handing (main stuck_upload) = true ∧ object stuck_upload = None.
Proof.
  split; [vm_compute; reflexivity|].
  apply (large_upload_never_returns 1 1 None big_input stuck_events);
    [lia|lia|vm_compute; reflexivity|vm_compute; lia|vm_compute; reflexivity].
Defined.
