(* ===== verification/Ring.v ===== *)
(** * Consistent hash ring (internal/cluster/ring.go)

    The ring maps a shard to the worker the scheduler prefers for it.  The
    record [Ring] is the struct behind [*Ring]; every method holds the
    ring's lock for its whole body, so each is one function on the state. *)
From S2P Require Import Prelude GoLib.
Open Scope Z_scope.

Definition DefaultVnodesPerNode : Z := 150.

Record vnode := Vnode { vhash : Z; vnodeID : string }.

#[export] Instance vnode_eq_dec : EqDecision vnode.
Proof. solve_decision. Defined.

Record Ring := MkRing { vnodes : list vnode; nodes : gset string; vnodesPer : nat }.

Definition NewRing (vnodesPerNode : Z) : Ring :=
  MkRing [] ∅ (Z.to_nat (if vnodesPerNode <=? 0 then DefaultVnodesPerNode else vnodesPerNode)).

Definition hashKey (key : string) : Z := be_val (take 8 (Sha256.sum256 (bytes_of_string key))).

(** [fmt.Sprintf("%s#%d", nodeID, i)] *)
Definition vnode_key (nodeID : string) (i : nat) : string := nodeID +:+ "#" +:+ fmt_d (Z.of_nat i).

(** The loop of [Add] that builds the node's virtual nodes. *)
Definition node_vnodes (per : nat) (nodeID : string) : list vnode :=
  map (λ i, Vnode (hashKey (vnode_key nodeID i)) nodeID) (seq 0 per).

Definition vnode_le (a b : vnode) : Prop := vhash a ≤ vhash b.
#[export] Instance vnode_le_dec : RelDecision vnode_le.
Proof. intros a b. unfold vnode_le. apply _. Defined.
#[export] Instance vnode_le_total : Total vnode_le.
Proof. intros a b. unfold vnode_le. lia. Qed.
#[export] Instance vnode_le_trans : Transitive vnode_le.
Proof. intros a b c. unfold vnode_le. lia. Qed.

(** [sort.Slice] by hash.  Go's sort is not stable, so the order of two
    virtual nodes with the same 64-bit hash is not specified; the theorems
    that depend on it assume there are none. *)
Definition sort_vnodes (l : list vnode) : list vnode := merge_sort vnode_le l.

Definition Add (nodeID : string) (r : Ring) : Ring :=
  if bool_decide (nodeID ∈ nodes r) then r
  else MkRing (sort_vnodes (vnodes r ++ node_vnodes (vnodesPer r) nodeID))
              ({[nodeID]} ∪ nodes r) (vnodesPer r).

Definition Remove (nodeID : string) (r : Ring) : Ring :=
  MkRing (filter (λ v, vnodeID v ≠ nodeID) (vnodes r)) (nodes r ∖ {[nodeID]}) (vnodesPer r).

(** The index [sort.Search] finds: the first virtual node at or after [h]. *)
Definition search_hash (vs : list vnode) (h : Z) : nat :=
  sort_search (length vs)
    (λ i, match vs !! i with Some v => h <=? vhash v | None => true end).

Definition Lookup (r : Ring) (key : string) : result string :=
  if (length (vnodes r) =? 0)%nat then Err "ring is empty"
  else
    let h := hashKey key in
    let idx := search_hash (vnodes r) h in
    let idx := if (idx =? length (vnodes r))%nat then 0%nat else idx in
    match vnodes r !! idx with
    | Some v => Ok (vnodeID v)
    | None => Err "index out of range"
    end.

(** One iteration of [LookupN]'s loop at offset [i] from [start]; the state
    is [(seen, result)], and the loop condition is tested first. *)
Definition lookupN_step (vs : list vnode) (start : nat) (n : Z)
    (st : gset string * list string) (i : nat) : gset string * list string :=
  if Z.of_nat (length st.2) <? n then
    match vs !! ((start + i) mod length vs)%nat with
    | Some v =>
        if bool_decide (vnodeID v ∈ st.1) then st
        else ({[vnodeID v]} ∪ st.1, st.2 ++ [vnodeID v])
    | None => st
    end
  else st.

Definition LookupN (r : Ring) (key : string) (n : Z) : result (list string) :=
  if (length (vnodes r) =? 0)%nat then Err "ring is empty"
  else
    let h := hashKey key in
    let start := search_hash (vnodes r) h in
    Ok (foldl (lookupN_step (vnodes r) start n) (∅, []) (seq 0 (length (vnodes r)))).2.

Definition NodeCount (r : Ring) : nat := size (nodes r).

Definition Distribution (r : Ring) : gmap string nat :=
  foldl (λ d v, <[vnodeID v := S (default 0%nat (d !! vnodeID v))]> d) ∅ (vnodes r).

(** ** Invariant *)

(** What a ring holds: the virtual nodes of its nodes, sorted by hash. *)
Definition ring_content (per : nat) (ns : gset string) : list vnode :=
  elements ns ≫= node_vnodes per.

Record ring_ok (r : Ring) : Prop := {
  ring_sorted : StronglySorted vnode_le (vnodes r);
  ring_perm : vnodes r ≡ₚ ring_content (vnodesPer r) (nodes r);
}.

(** No two virtual nodes share a 64-bit hash. *)
Definition no_collision (r : Ring) : Prop := NoDup (vhash <$> vnodes r).

Lemma node_vnodes_id per n v : v ∈ node_vnodes per n → vnodeID v = n.
Proof. intros (i & -> & _)%list_elem_of_fmap. done. Qed.

Lemma length_node_vnodes per n : length (node_vnodes per n) = per.
Proof. unfold node_vnodes. by rewrite length_fmap, length_seq. Qed.

Lemma NewRing_ok n : ring_ok (NewRing n).
Proof. split; [constructor|]. unfold ring_content. simpl. by rewrite elements_empty. Qed.

Lemma ring_content_add per n ns :
  n ∉ ns → ring_content per ({[n]} ∪ ns) ≡ₚ ring_content per ns ++ node_vnodes per n.
Proof.
  intros Hn. unfold ring_content. rewrite elements_union_singleton by done.
  simpl. by rewrite Permutation_app_comm.
Qed.

Lemma filter_node_vnodes per n m :
  filter (λ v, vnodeID v ≠ n) (node_vnodes per m) = if decide (m = n) then [] else node_vnodes per m.
Proof.
  case_decide as Hm.
  - apply filter_none. intros v Hv%node_vnodes_id. naive_solver.
  - apply filter_all. intros v Hv%node_vnodes_id. congruence.
Qed.

Lemma filter_content per n l :
  filter (λ v, vnodeID v ≠ n) (l ≫= node_vnodes per) = filter (λ m, m ≠ n) l ≫= node_vnodes per.
Proof.
  induction l as [|m l IH]; [done|].
  rewrite filter_cons, bind_cons, filter_app, IH, filter_node_vnodes.
  repeat case_decide; naive_solver.
Qed.

Lemma ring_content_remove per n ns :
  filter (λ v, vnodeID v ≠ n) (ring_content per ns) ≡ₚ ring_content per (ns ∖ {[n]}).
Proof.
  unfold ring_content. rewrite filter_content. apply bind_Permutation.
  apply NoDup_Permutation; [apply NoDup_filter, NoDup_elements|apply NoDup_elements|].
  intros m. rewrite list_elem_of_filter, !elem_of_elements. set_solver.
Qed.

(** Every operation keeps the ring well formed. *)
Lemma Add_ok n r : ring_ok r → ring_ok (Add n r).
Proof.
  intros [Hs Hp]. unfold Add. case_bool_decide as Hn; [done|]. split; simpl.
  - apply StronglySorted_merge_sort; apply _.
  - unfold sort_vnodes. by rewrite merge_sort_Permutation, Hp, ring_content_add.
Qed.

Lemma Remove_ok n r : ring_ok r → ring_ok (Remove n r).
Proof.
  intros [Hs Hp]. split; simpl.
  - by apply StronglySorted_filter.
  - rewrite Hp. apply ring_content_remove.
Qed.

#[export] Hint Resolve NewRing_ok Add_ok Remove_ok : dip.

Lemma nodes_Add n r : nodes (Add n r) = {[n]} ∪ nodes r.
Proof. unfold Add. case_bool_decide; simpl; set_solver. Qed.

Lemma nodes_Remove n r : nodes (Remove n r) = nodes r ∖ {[n]}.
Proof. done. Qed.

Lemma vnodesPer_Add n r : vnodesPer (Add n r) = vnodesPer r.
Proof. unfold Add. by case_bool_decide. Qed.

Lemma vnode_owner_in_nodes r v : ring_ok r → v ∈ vnodes r → vnodeID v ∈ nodes r.
Proof.
  intros [_ Hp]. rewrite Hp. intros (m & Hv & Hm)%list_elem_of_bind.
  rewrite elem_of_elements in Hm. apply node_vnodes_id in Hv. by subst.
Qed.

(** The ring is determined by its node set: the join order, and any nodes
    that came and went, leave no trace. *)
Lemma ring_unique r r' :
  ring_ok r → ring_ok r' → no_collision r →
  nodes r = nodes r' → vnodesPer r = vnodesPer r' → vnodes r = vnodes r'.
Proof.
  intros [Hs Hp] [Hs' Hp'] Hc Hn Hv.
  assert (vnodes r ≡ₚ vnodes r') as Hperm by (rewrite Hp, Hp', Hn, Hv; done).
  apply (StronglySorted_unique_strong vnode_le); [|done..].
  intros x y Hx Hy Hxy Hyx. rewrite <- Hperm in Hy.
  apply list_elem_of_lookup in Hx as [i Hi]. apply list_elem_of_lookup in Hy as [j Hj].
  assert (i = j) as ->; [|congruence].
  eapply NoDup_lookup; [exact Hc|..].
  - by rewrite list_lookup_fmap, Hi.
  - rewrite list_lookup_fmap, Hj. simpl. f_equal. unfold vnode_le in *. lia.
Qed.

(** ** Lookup against its specification

    Clockwise successor: the first virtual node at or after the key's hash,
    wrapping round to the first of the ring. *)
Definition successor (vs : list vnode) (h : Z) : option string :=
  match List.find (λ v, h <=? vhash v) vs with
  | Some v => Some (vnodeID v)
  | None => vnodeID <$> head vs
  end.

Lemma search_hash_spec vs h :
  StronglySorted vnode_le vs →
  (search_hash vs h ≤ length vs)%nat ∧
  (∀ k v, (k < search_hash vs h)%nat → vs !! k = Some v → vhash v < h) ∧
  (∀ k v, (search_hash vs h ≤ k)%nat → vs !! k = Some v → h ≤ vhash v).
Proof.
  intros Hs. unfold search_hash.
  edestruct (sort_search_spec (length vs)) as (H1 & H2 & H3); [|split_and!; [exact H1| |]].
  - intros a b Hab Ha. destruct (lookup_lt_is_Some_2 vs a) as [x Hx]; [lia|].
    destruct (lookup_lt_is_Some_2 vs b) as [y Hy]; [lia|].
    cbv beta in *. rewrite Hx in Ha. rewrite Hy.
    destruct (decide (a = b)) as [->|]; [congruence|].
    assert (vnode_le x y) as Hle by (eapply (StronglySorted_lookup _ _ a b); [done|lia|done..]).
    unfold vnode_le in Hle. lia.
  - intros k v Hk Hv. specialize (H2 k Hk). cbv beta in H2. rewrite Hv in H2. lia.
  - intros k v Hk Hv. specialize (H3 k). cbv beta in H3. rewrite Hv in H3.
    apply lookup_lt_Some in Hv. lia.
Qed.

Lemma Lookup_successor r key :
  ring_ok r →
  Lookup r key = match successor (vnodes r) (hashKey key) with
                 | Some n => Ok n
                 | None => Err "ring is empty"
                 end.
Proof.
  intros [Hs _]. unfold Lookup, successor. set (vs := vnodes r) in *. set (h := hashKey key).
  destruct (search_hash_spec vs h Hs) as (Hle & Hlo & Hhi). clearbody h.
  destruct vs as [|v0 vs0] eqn:Evs; [done|]. rewrite <- Evs in *.
  replace (length vs =? 0)%nat with false by (by rewrite Evs).
  destruct (Nat.eqb_spec (search_hash vs h) (length vs)) as [He|Hne].
  - assert (List.find (λ v, h <=? vhash v) vs = None) as ->; [|by rewrite Evs].
    destruct (List.find _ vs) as [v|] eqn:Hf; [|done].
    apply List.find_some in Hf as [Hin Hv]. apply list_elem_of_In in Hin.
    apply list_elem_of_lookup in Hin as [k Hk].
    pose proof (lookup_lt_Some _ _ _ Hk).
    specialize (Hlo k v ltac:(lia) Hk). lia.
  - destruct (lookup_lt_is_Some_2 vs (search_hash vs h)) as [v Hv]; [lia|].
    rewrite Hv. erewrite find_lookup; [done|exact Hv| |].
    + specialize (Hhi _ v (Nat.le_refl _) Hv). lia.
    + intros i y Hi Hy. specialize (Hlo i y Hi Hy). lia.
Qed.

Lemma successor_filter vs n m h :
  successor vs h = Some m → m ≠ n →
  successor (filter (λ v, vnodeID v ≠ n) vs) h = Some m.
Proof.
  unfold successor. destruct (List.find _ vs) as [v|] eqn:Hf.
  - intros [= <-] Hm. by rewrite (find_filter _ _ _ v).
  - intros Hm Hne. rewrite find_filter_none by done.
    destruct vs as [|v vs]; simplify_eq/=. rewrite filter_cons_True by done. done.
Qed.

Lemma no_collision_Add_inv n r : no_collision (Add n r) → no_collision r.
Proof.
  unfold no_collision, Add. case_bool_decide; [done|]. simpl.
  unfold sort_vnodes. rewrite merge_sort_Permutation, fmap_app. by intros (? & _)%NoDup_app.
Qed.

Lemma Remove_vnodes_Add n r :
  ring_ok r → no_collision (Add n r) → n ∉ nodes r → vnodes (Remove n (Add n r)) = vnodes r.
Proof.
  intros Hr Hc%no_collision_Add_inv Hn. symmetry.
  apply ring_unique; [by auto with dip..| |by simpl; rewrite vnodesPer_Add].
  rewrite nodes_Remove, nodes_Add. set_solver.
Qed.

(** ** Minimal disruption *)

(** Removing a node moves only the keys it owned. *)
Lemma Lookup_Remove_other n m r key :
  ring_ok r → Lookup r key = Ok m → m ≠ n → Lookup (Remove n r) key = Ok m.
Proof.
  intros Hr Hm Hne. rewrite Lookup_successor in Hm |- * by auto with dip.
  destruct (successor (vnodes r) (hashKey key)) as [m'|] eqn:Hs; [|done]. simplify_eq.
  simpl. by rewrite (successor_filter _ n m).
Qed.

(** Adding a node moves keys only to it. *)
Lemma Lookup_Add_other n m r key :
  ring_ok r → no_collision (Add n r) →
  Lookup (Add n r) key = Ok m → m ≠ n → Lookup r key = Ok m.
Proof.
  intros Hr Hc Hm Hne. destruct (decide (n ∈ nodes r)) as [Hn|Hn].
  { unfold Add in Hm. by rewrite bool_decide_true in Hm. }
  apply (Lookup_Remove_other n) in Hm; [|by auto with dip|done].
  rewrite Lookup_successor in Hm |- * by auto with dip.
  by rewrite Remove_vnodes_Add in Hm.
Qed.

Lemma Lookup_total r key :
  ring_ok r → (0 < vnodesPer r)%nat → nodes r ≠ ∅ → ∃ n, Lookup r key = Ok n ∧ n ∈ nodes r.
Proof.
  intros Hr Hper Hne. rewrite Lookup_successor by done.
  apply set_choose_L in Hne as [m Hm].
  assert (∃ v, v ∈ vnodes r) as [v Hv].
  { exists (Vnode (hashKey (vnode_key m 0)) m). rewrite (ring_perm _ Hr).
    apply list_elem_of_bind. exists m. split; [|by apply elem_of_elements].
    apply list_elem_of_fmap. exists 0%nat. split; [done|]. apply elem_of_seq. lia. }
  unfold successor. destruct (List.find _ (vnodes r)) as [w|] eqn:Hf.
  - apply List.find_some in Hf as [Hw _]. apply list_elem_of_In in Hw.
    exists (vnodeID w). split; [done|]. by apply vnode_owner_in_nodes.
  - destruct (vnodes r) as [|w vs] eqn:Hvs; [set_solver|].
    exists (vnodeID w). split; [done|]. apply vnode_owner_in_nodes; [done|]. rewrite Hvs. set_solver.
Qed.

(** ** Replica selection *)

(** The loop invariant of [LookupN] after [k] offsets. *)
Record lookupN_inv (r : Ring) (start : nat) (n : Z) (k : nat) (st : gset string * list string) := {
  ln_seen : ∀ m, m ∈ st.1 ↔ m ∈ st.2;
  ln_nodup : NoDup st.2;
  ln_nodes : ∀ m, m ∈ st.2 → m ∈ nodes r;
  ln_bound : Z.of_nat (length st.2) ≤ n;
  ln_scanned : Z.of_nat (length st.2) < n → ∀ i v, (i < k)%nat →
    vnodes r !! ((start + i) mod length (vnodes r))%nat = Some v → vnodeID v ∈ st.2;
}.

Lemma lookupN_step_inv r start n k st :
  ring_ok r → lookupN_inv r start n k st →
  lookupN_inv r start n (S k) (lookupN_step (vnodes r) start n st k).
Proof.
  intros Hr [Hseen Hnd Hin Hb Hsc]. unfold lookupN_step.
  destruct (Z.ltb_spec (Z.of_nat (length st.2)) n) as [Hlt|Hge]; [|by split; try done; lia].
  assert (∀ i v, (i < S k)%nat → vnodes r !! ((start + i) mod length (vnodes r))%nat = Some v →
    i = k ∨ vnodeID v ∈ st.2) as Hsc'.
  { intros i v Hi Hv. destruct (decide (i = k)); [by left|right]. apply (Hsc Hlt i v); [lia|done]. }
  destruct (vnodes r !! _) as [v|] eqn:Hv.
  - case_bool_decide as Hs.
    + split; try done. intros _ i w Hi Hw. destruct (Hsc' i w Hi Hw) as [->|]; [|done].
      rewrite Hv in Hw. simplify_eq. by apply Hseen.
    + rewrite Hseen in Hs. split; simpl.
      * intros m. rewrite elem_of_union, elem_of_singleton, elem_of_app, list_elem_of_singleton, Hseen.
        tauto.
      * apply NoDup_app. split_and!; [done| |apply NoDup_singleton]. set_solver.
      * intros m [Hm| ->%list_elem_of_singleton]%elem_of_app; [by apply Hin|].
        apply vnode_owner_in_nodes; [done|]. by eapply list_elem_of_lookup_2.
      * rewrite length_app. simpl. lia.
      * intros _ i w Hi Hw. destruct (Hsc' i w Hi Hw) as [->|]; set_solver.
  - split; try done. intros _ i w Hi Hw. destruct (Hsc' i w Hi Hw) as [->|]; [congruence|done].
Qed.

Lemma lookupN_loop_inv r start n k :
  ring_ok r → 0 ≤ n →
  lookupN_inv r start n k (foldl (lookupN_step (vnodes r) start n) (∅, []) (seq 0 k)).
Proof.
  intros Hr Hn. induction k as [|k IH].
  - split; simpl; [set_solver|constructor|set_solver|lia|lia].
  - rewrite seq_S, foldl_app. simpl. by apply lookupN_step_inv.
Qed.

Lemma lookupN_scan_all r start n st v :
  (0 < length (vnodes r))%nat → lookupN_inv r start n (length (vnodes r)) st →
  Z.of_nat (length st.2) < n → v ∈ vnodes r → vnodeID v ∈ st.2.
Proof.
  intros Hlen Hinv Hlt [j Hj]%list_elem_of_lookup. set (L := length (vnodes r)) in *.
  pose proof (lookup_lt_Some _ _ _ Hj) as HjL. fold L in HjL.
  assert (((start + (j + (L - start mod L)) mod L) mod L)%nat = j) as Hidx.
  { pose proof (Nat.mod_upper_bound start L). pose proof (Nat.div_mod_eq start L).
    rewrite Nat.Div0.add_mod_idemp_r.
    replace (start + (j + (L - start mod L)))%nat with (j + (start / L + 1) * L)%nat by lia.
    rewrite Nat.Div0.mod_add. by apply Nat.mod_small. }
  eapply (ln_scanned _ _ _ _ _ Hinv Hlt ((j + (L - start mod L)) mod L)%nat).
  - apply Nat.mod_upper_bound. lia.
  - fold L. rewrite Hidx. exact Hj.
Qed.

Lemma node_has_vnode r m :
  ring_ok r → (0 < vnodesPer r)%nat → m ∈ nodes r → ∃ v, v ∈ vnodes r ∧ vnodeID v = m.
Proof.
  intros Hr Hper Hm. exists (Vnode (hashKey (vnode_key m 0)) m). split; [|done].
  rewrite (ring_perm _ Hr). apply list_elem_of_bind. exists m.
  split; [|by apply elem_of_elements].
  apply list_elem_of_fmap. exists 0%nat. split; [done|]. apply elem_of_seq. lia.
Qed.

Lemma LookupN_spec r key n :
  ring_ok r → (0 < vnodesPer r)%nat → nodes r ≠ ∅ → 0 ≤ n →
  ∃ l, LookupN r key n = Ok l ∧ NoDup l ∧ (∀ m, m ∈ l → m ∈ nodes r) ∧
       Z.of_nat (length l) = Z.min n (Z.of_nat (size (nodes r))).
Proof.
  intros Hr Hper Hne Hn. pose proof (set_choose_L _ Hne) as [m0 Hm0].
  destruct (node_has_vnode r m0) as (v0 & Hv0 & _); [done..|].
  assert (0 < length (vnodes r))%nat as Hlen by (destruct (vnodes r); [set_solver|simpl; lia]).
  unfold LookupN. rewrite (proj2 (Nat.eqb_neq _ 0)) by lia.
  set (start := search_hash _ _).
  pose proof (lookupN_loop_inv r start n (length (vnodes r)) Hr Hn) as Hinv.
  set (st := foldl _ _ _) in *. eexists. split; [done|].
  split; [apply (ln_nodup _ _ _ _ _ Hinv)|]. split; [apply (ln_nodes _ _ _ _ _ Hinv)|].
  assert (size (list_to_set st.2 : gset string) = length st.2) as Hsz
    by apply size_list_to_set, (ln_nodup _ _ _ _ _ Hinv).
  assert (list_to_set st.2 ⊆ nodes r) as Hsub.
  { intros m Hm%elem_of_list_to_set. by apply (ln_nodes _ _ _ _ _ Hinv). }
  pose proof (subseteq_size _ _ Hsub). pose proof (ln_bound _ _ _ _ _ Hinv).
  destruct (decide (Z.of_nat (length st.2) < n)) as [Hlt|]; [|lia].
  assert (nodes r ⊆ list_to_set st.2) as Hsup.
  { intros m Hm. apply elem_of_list_to_set.
    destruct (node_has_vnode r m) as (v & Hv & <-); [done..|].
    by apply (lookupN_scan_all r start n st v). }
  pose proof (subseteq_size _ _ Hsup). lia.
Qed.

(** ** Load *)

Lemma Distribution_count (l : list vnode) (d : gmap string nat) k :
  default 0%nat (foldl (λ (d : gmap string nat) v, <[vnodeID v := S (default 0%nat (d !! vnodeID v))]> d) d l !! k)
  = (default 0%nat (d !! k) + length (filter (λ v, vnodeID v = k) l))%nat.
Proof.
  revert d. induction l as [|v l IH]; intros d; simpl; [lia|].
  rewrite IH, filter_cons. destruct (decide (vnodeID v = k)) as [->|Hne].
  - rewrite lookup_insert_eq. simpl. lia.
  - by rewrite lookup_insert_ne.
Qed.

Lemma length_filter_content per k l :
  NoDup l → length (filter (λ v, vnodeID v = k) (l ≫= node_vnodes per))
  = if decide (k ∈ l) then per else 0%nat.
Proof.
  induction 1 as [|m l Hm Hnd IH]; [done|].
  rewrite bind_cons, filter_app, length_app, IH.
  destruct (decide (m = k)) as [->|Hne].
  - rewrite filter_all by (intros v; apply node_vnodes_id).
    rewrite length_node_vnodes, (decide_True (P := k ∈ k :: l)) by set_solver.
    rewrite decide_False by done. lia.
  - rewrite filter_none by (intros v ->%node_vnodes_id; done). simpl.
    destruct (decide (k ∈ l)); [rewrite decide_True by set_solver|rewrite decide_False by set_solver]; done.
Qed.

(** Every node carries exactly [vnodesPer] virtual nodes. *)
Lemma Distribution_uniform r k :
  ring_ok r → default 0%nat (Distribution r !! k) = if decide (k ∈ nodes r) then vnodesPer r else 0%nat.
Proof.
  intros [_ Hp]. unfold Distribution. rewrite Distribution_count, lookup_empty, Hp. simpl.
  unfold ring_content. rewrite length_filter_content by apply NoDup_elements.
  destruct (decide (k ∈ nodes r)); [rewrite decide_True|rewrite decide_False];
    by rewrite ?elem_of_elements.
Qed.
