(* ===== verification/Membership.v ===== *)
(** * Cluster membership (internal/cluster/membership.go, node.go)

    The two-stage failure detector.  Every method holds the membership lock
    for its whole body.  The clock reading [now] is an argument; where a
    method reads the clock more than once it gets the same reading.  The
    ring is the one the scheduler consults. *)
From S2P Require Import Prelude GoLib Ring.
Open Scope Z_scope.

Inductive NodeState := NodeActive | NodeSuspect | NodeDead.
#[export] Instance NodeState_eq_dec : EqDecision NodeState.
Proof. solve_decision. Defined.

(** The two [float64] gauges are kept as their IEEE bit patterns: nothing in
    the component computes with them. *)
Record NodeMetrics := MkMetrics {
  ActiveTasks : Z; CPUPct : Z; MemUsedGB : Z; CachedShards : list string }.

Record NodeInfo := MkNode {
  nodeID : string; Address : string; State : NodeState; LastSeen : Z; JoinedAt : Z;
  Metrics : NodeMetrics; NodeName : string }.
#[export] Instance eta_NodeInfo : Eta NodeInfo := λ n,
  MkNode (nodeID n) (Address n) (State n) (LastSeen n) (JoinedAt n) (Metrics n) (NodeName n).

Record Heartbeat := MkHeartbeat { hbNodeID : string; hbMetrics : NodeMetrics }.
Record FailureEvent := MkEvent { evNodeID : string; OldState : NodeState; NewState : NodeState; evAt : Z }.
Record RegisterRequest := MkRegister { regID : string; regAddress : string; regNodeName : string }.

Record Membership := MkMembership {
  mNodes : gmap string NodeInfo; mRing : Ring;
  suspectTimeout : Z; deadTimeout : Z; events : list FailureEvent }.
#[export] Instance eta_Membership : Eta Membership := λ m,
  MkMembership (mNodes m) (mRing m) (suspectTimeout m) (deadTimeout m) (events m).

Definition events_cap : nat := 128.
Definition zero_metrics : NodeMetrics := MkMetrics 0 0 0 [].

Definition NewMembership (ring : Ring) (suspect dead : Z) : Membership :=
  MkMembership ∅ ring suspect dead [].

(** [emit]: a non-blocking send on the buffered channel; dropped when full. *)
Definition emit (e : FailureEvent) (m : Membership) : Membership :=
  if (length (events m) <? events_cap)%nat then m <| events := events m ++ [e] |> else m.

Definition Register (now : Z) (req : RegisterRequest) (m : Membership) : Membership :=
  match mNodes m !! regID req with
  | Some n => m <| mNodes := <[regID req := n <| State := NodeActive |> <| LastSeen := now |>]> (mNodes m) |>
  | None =>
      let n := MkNode (regID req) (regAddress req) NodeActive now now zero_metrics EmptyString in
      m <| mNodes := <[regID req := n]> (mNodes m) |> <| mRing := Add (regID req) (mRing m) |>
  end.

Definition HeartbeatOp (now : Z) (hb : Heartbeat) (m : Membership) : result unit * Membership :=
  match mNodes m !! hbNodeID hb with
  | None => (Err ("unknown node: " +:+ hbNodeID hb), m)
  | Some n =>
      let prev := State n in
      let n := n <| LastSeen := now |> <| Metrics := hbMetrics hb |> in
      if bool_decide (State n ≠ NodeActive) then
        let n := n <| State := NodeActive |> in
        let m := m <| mNodes := <[hbNodeID hb := n]> (mNodes m) |>
                   <| mRing := Add (nodeID n) (mRing m) |> in
        (Ok tt, emit (MkEvent (nodeID n) prev NodeActive now) m)
      else (Ok tt, m <| mNodes := <[hbNodeID hb := n]> (mNodes m) |>)
  end.

(** One iteration of [Tick]'s loop, for the node under key [id]. *)
Definition tick_node (now : Z) (m : Membership) (id : string) : Membership :=
  match mNodes m !! id with
  | None => m
  | Some n =>
      let age := now - LastSeen n in
      match State n with
      | NodeActive =>
          if age >? suspectTimeout m then
            let m := m <| mNodes := <[id := n <| State := NodeSuspect |>]> (mNodes m) |> in
            emit (MkEvent (nodeID n) NodeActive NodeSuspect now) m
          else m
      | NodeSuspect =>
          if age >? deadTimeout m then
            let m := m <| mNodes := <[id := n <| State := NodeDead |>]> (mNodes m) |>
                       <| mRing := Remove (nodeID n) (mRing m) |> in
            emit (MkEvent (nodeID n) NodeSuspect NodeDead now) m
          else m
      | NodeDead => m
      end
  end.

(** [Tick]: [order] is the order in which Go's map iteration visits the
    nodes, which the language leaves open. *)
Definition Tick (now : Z) (order : list string) (m : Membership) : Membership :=
  foldl (tick_node now) m order.

Definition ActiveNodes (m : Membership) : list NodeInfo :=
  filter (λ n, State n = NodeActive) (map_to_list (mNodes m)).*2.

Definition AllNodes (m : Membership) : list NodeInfo := (map_to_list (mNodes m)).*2.

Definition NodeAddress (id : string) (m : Membership) : result string :=
  match mNodes m !! id with
  | Some n => Ok (Address n)
  | None => Err ("node not found: " +:+ id)
  end.

(** Receiving from [Events()]. *)
Definition next_event (m : Membership) : option (FailureEvent * Membership) :=
  match events m with
  | e :: es => Some (e, m <| events := es |>)
  | [] => None
  end.

(** ** The detector as a state machine *)

(** The rules of the package comment. *)
Definition tick_state (suspect dead age : Z) (s : NodeState) : NodeState :=
  match s with
  | NodeActive => if age >? suspect then NodeSuspect else NodeActive
  | NodeSuspect => if age >? dead then NodeDead else NodeSuspect
  | NodeDead => NodeDead
  end.

Inductive op :=
| OpRegister (now : Z) (req : RegisterRequest)
| OpHeartbeat (now : Z) (hb : Heartbeat)
| OpTick (now : Z) (order : list string)
| OpEvent.

Definition apply_op (o : op) (m : Membership) : Membership :=
  match o with
  | OpRegister now req => Register now req m
  | OpHeartbeat now hb => (HeartbeatOp now hb m).2
  | OpTick now order => Tick now order m
  | OpEvent => match next_event m with Some (_, m') => m' | None => m end
  end.

(** The states a membership goes through from its creation on. *)
Inductive reachable (per suspect dead : Z) : Membership → Prop :=
| reach_new : reachable per suspect dead (NewMembership (NewRing per) suspect dead)
| reach_op o m : reachable per suspect dead m → reachable per suspect dead (apply_op o m).

(** ** Invariant: the ring never holds a dead or unknown node *)

Record mem_ok (m : Membership) : Prop := {
  mem_ring : ring_ok (mRing m);
  mem_id : ∀ id n, mNodes m !! id = Some n → nodeID n = id;
  mem_live : ∀ id, id ∈ nodes (mRing m) → ∃ n, mNodes m !! id = Some n ∧ State n ≠ NodeDead;
}.

Lemma emit_nodes e m : mNodes (emit e m) = mNodes m.
Proof. unfold emit. by case_match. Qed.
Lemma emit_ring e m : mRing (emit e m) = mRing m.
Proof. unfold emit. by case_match. Qed.
Lemma emit_suspect e m : suspectTimeout (emit e m) = suspectTimeout m.
Proof. unfold emit. by case_match. Qed.
Lemma emit_dead e m : deadTimeout (emit e m) = deadTimeout m.
Proof. unfold emit. by case_match. Qed.
#[export] Hint Rewrite emit_nodes emit_ring emit_suspect emit_dead : dip.

Lemma emit_ok e m : mem_ok m → mem_ok (emit e m).
Proof. intros [H1 H2 H3]. by split; rewrite ?emit_ring, ?emit_nodes. Qed.

Lemma update_ok id n m r :
  mem_ok m → nodeID n = id → ring_ok r →
  (∀ x, x ∈ nodes r → x = id ∧ State n ≠ NodeDead ∨ x ≠ id ∧ x ∈ nodes (mRing m)) →
  mem_ok (m <| mNodes := <[id := n]> (mNodes m) |> <| mRing := r |>).
Proof.
  intros [Hr Hid Hlive] Hn Hr' Hx. split; simpl; [done| |].
  - intros id' n' H. lookup_cases H; [done|by apply Hid].
  - intros x Hin. destruct (Hx x Hin) as [[-> Hs]|[Hne Hin']].
    + exists n. by rewrite lookup_insert_eq.
    + rewrite lookup_insert_ne by done. by apply Hlive.
Qed.

Lemma Register_ok now req m : mem_ok m → mem_ok (Register now req m).
Proof.
  intros Hm. unfold Register. destruct (mNodes m !! regID req) as [n|] eqn:Hn.
  - change (mem_ok (m <| mNodes := <[regID req := n <| State := NodeActive |> <| LastSeen := now |>]>
      (mNodes m) |> <| mRing := mRing m |>)).
    apply update_ok; [done|by apply (mem_id _ Hm) in Hn|apply Hm|].
    intros x Hx. destruct (decide (x = regID req)); [by left|by right].
  - apply update_ok; [done|done|by apply Add_ok, Hm|].
    intros x. rewrite nodes_Add. intros [->%elem_of_singleton|Hx]%elem_of_union; [by left|].
    destruct (decide (x = regID req)); [by left|by right].
Qed.

Lemma HeartbeatOp_ok now hb m : mem_ok m → mem_ok (HeartbeatOp now hb m).2.
Proof.
  intros Hm. unfold HeartbeatOp. destruct (mNodes m !! hbNodeID hb) as [n|] eqn:Hn; [|done].
  pose proof (mem_id _ Hm _ _ Hn) as Hid. case_bool_decide as Hs; simpl in *.
  - apply emit_ok, update_ok; [done|done|by apply Add_ok, Hm|].
    intros x. rewrite nodes_Add, Hid. intros [->%elem_of_singleton|Hx]%elem_of_union; [by left|].
    destruct (decide (x = hbNodeID hb)); [by left|by right].
  - set (n' := n <| LastSeen := now |> <| Metrics := hbMetrics hb |>).
    change (mem_ok (m <| mNodes := <[hbNodeID hb := n']> (mNodes m) |> <| mRing := mRing m |>)).
    apply update_ok; [done|done|apply Hm|].
    intros x Hx. destruct (decide (x = hbNodeID hb)); [left|by right].
    split; [done|]. simpl. destruct (State n); naive_solver.
Qed.

Lemma tick_node_ok now id m : mem_ok m → mem_ok (tick_node now m id).
Proof.
  intros Hm. unfold tick_node. destruct (mNodes m !! id) as [n|] eqn:Hn; [|done].
  pose proof (mem_id _ Hm _ _ Hn) as Hid. destruct (State n) eqn:Hs; [| |done].
  - destruct (_ >? _); [|done]. apply emit_ok.
    set (n' := n <| State := NodeSuspect |>).
    change (mem_ok (m <| mNodes := <[id := n']> (mNodes m) |> <| mRing := mRing m |>)).
    apply update_ok; [done|done|apply Hm|].
    intros x Hx. destruct (decide (x = id)); [by left|by right].
  - destruct (_ >? _); [|done]. apply emit_ok, update_ok; [done|done|by apply Remove_ok, Hm|].
    intros x. rewrite nodes_Remove, Hid. intros [Hx ?%not_elem_of_singleton]%elem_of_difference.
    by right.
Qed.

Lemma Tick_ok now order m : mem_ok m → mem_ok (Tick now order m).
Proof. intros Hm. apply (foldl_inv mem_ok); [done|]. intros. by apply tick_node_ok. Qed.

Lemma apply_op_ok o m : mem_ok m → mem_ok (apply_op o m).
Proof.
  intros Hm. destruct o; simpl.
  - by apply Register_ok.
  - by apply HeartbeatOp_ok.
  - by apply Tick_ok.
  - unfold next_event. destruct (events m); [done|]. destruct Hm. by split.
Qed.

Lemma mem_reachable_ok per suspect dead m : reachable per suspect dead m → mem_ok m.
Proof.
  induction 1 as [|o m Hm IH]; [|by apply apply_op_ok].
  split; simpl; [apply NewRing_ok|set_solver|set_solver].
Qed.

(** ** What one tick does *)

Definition ticked (now : Z) (m : Membership) (n : NodeInfo) : NodeInfo :=
  n <| State := tick_state (suspectTimeout m) (deadTimeout m) (now - LastSeen n) (State n) |>.

Lemma tick_node_nodes now m id :
  mNodes (tick_node now m id) = alter (ticked now m) id (mNodes m).
Proof.
  unfold tick_node. destruct (mNodes m !! id) as [n|] eqn:Hn.
  - assert (∀ n', n' = ticked now m n → <[id := n']> (mNodes m) = alter (ticked now m) id (mNodes m))
      as Halter.
    { intros n' ->. apply map_eq. intros j. destruct (decide (id = j)) as [<-|].
      - by rewrite lookup_insert_eq, lookup_alter_eq, Hn.
      - by rewrite lookup_insert_ne, lookup_alter_ne. }
    assert (ticked now m n = n → mNodes m = alter (ticked now m) id (mNodes m)) as Hsame.
    { intros Heq. rewrite <- Halter with (n' := n) by done. by rewrite insert_id. }
    destruct (State n) eqn:Hs; [destruct (_ >? _) eqn:Hg..|];
      rewrite ?emit_nodes; simpl;
      first [ apply Halter; unfold ticked; rewrite Hs; simpl; by rewrite Hg
            | apply Hsame; unfold ticked; rewrite Hs; simpl; rewrite ?Hg;
              clear -Hs; destruct n; simpl in *; by subst ].
  - apply map_eq. intros j. destruct (decide (id = j)) as [<-|].
    + by rewrite lookup_alter_eq, Hn.
    + by rewrite lookup_alter_ne.
Qed.

Lemma tick_node_timeouts now m id :
  suspectTimeout (tick_node now m id) = suspectTimeout m ∧
  deadTimeout (tick_node now m id) = deadTimeout m.
Proof.
  unfold tick_node. destruct (mNodes m !! id) as [n|]; [|done].
  destruct (State n); [destruct (_ >? _)..|]; by autorewrite with dip.
Qed.

(** The timeouts never change. *)
Lemma Tick_timeouts now order m :
  suspectTimeout (Tick now order m) = suspectTimeout m ∧
  deadTimeout (Tick now order m) = deadTimeout m.
Proof.
  unfold Tick. apply (foldl_inv (λ m', suspectTimeout m' = suspectTimeout m ∧ deadTimeout m' = deadTimeout m));
    [done|]. intros m' id _ [H1 H2]. destruct (tick_node_timeouts now m' id). split; congruence.
Qed.

Lemma Tick_nodes now order m id :
  NoDup order →
  mNodes (Tick now order m) !! id
  = (if decide (id ∈ order) then ticked now m <$> mNodes m !! id else mNodes m !! id).
Proof.
  unfold Tick. intros Hnd. revert m. induction Hnd as [|x order Hx Hnd IH]; intros m; [done|].
  simpl. rewrite IH, tick_node_nodes.
  assert (∀ n, ticked now (tick_node now m x) n = ticked now m n) as Ht.
  { intros n. unfold ticked. by destruct (tick_node_timeouts now m x) as [-> ->]. }
  destruct (decide (id = x)) as [->|Hne].
  - rewrite decide_False, (decide_True (P := x ∈ x :: order)) by set_solver.
    by rewrite lookup_alter_eq.
  - rewrite lookup_alter_ne by done.
    destruct (decide (id ∈ order)); [rewrite decide_True by set_solver|by rewrite decide_False by set_solver].
    destruct (mNodes m !! id) as [n|]; simpl; [by rewrite Ht|done].
Qed.

(** A tick visits every node: its order is some enumeration of the keys. *)
Definition visits_all (order : list string) (m : Membership) : Prop :=
  NoDup order ∧ ∀ id, id ∈ order ↔ is_Some (mNodes m !! id).

Lemma Tick_all now order m id :
  visits_all order m → mNodes (Tick now order m) !! id = ticked now m <$> mNodes m !! id.
Proof.
  intros [Hnd Hall]. rewrite Tick_nodes by done. case_decide as Hin; [done|].
  rewrite Hall in Hin. apply eq_None_not_Some in Hin. by rewrite Hin.
Qed.

Lemma visits_all_Tick now order m order' :
  visits_all order m → visits_all order' (Tick now order m) ↔ visits_all order' m.
Proof.
  intros Ho. unfold visits_all.
  assert (∀ id, is_Some (mNodes (Tick now order m) !! id) ↔ is_Some (mNodes m !! id)) as Hs.
  { intros id. rewrite (Tick_all now order m id Ho). by rewrite fmap_is_Some. }
  by setoid_rewrite Hs.
Qed.

(** [tick_node] takes a node out of the ring exactly when it declares it dead. *)
Lemma tick_node_ring now m id x :
  mem_ok m →
  x ∈ nodes (mRing (tick_node now m id)) ↔
  x ∈ nodes (mRing m) ∧
  ¬ (x = id ∧ ∃ n, mNodes m !! id = Some n ∧ State n = NodeSuspect ∧ now - LastSeen n > deadTimeout m).
Proof.
  intros Hm. unfold tick_node.
  assert (∀ n, mNodes m !! id = Some n → State n ≠ NodeSuspect ∨ now - LastSeen n ≤ deadTimeout m →
    x ∈ nodes (mRing m) ↔ x ∈ nodes (mRing m) ∧
    ¬ (x = id ∧ ∃ n, mNodes m !! id = Some n ∧ State n = NodeSuspect ∧ now - LastSeen n > deadTimeout m))
    as Hstay.
  { intros n Hn Hs. split; [|by intros [? _]]. intros ?. split; [done|].
    intros (_ & n' & ? & ? & ?). simplify_eq. destruct Hs; [done|lia]. }
  destruct (mNodes m !! id) as [n|] eqn:Hn.
  - pose proof (mem_id _ Hm _ _ Hn) as Hid. destruct (State n) eqn:Hs.
    + destruct (_ >? _); rewrite ?emit_ring; apply (Hstay n); [done|left; congruence|done|left; congruence].
    + destruct (Z.gtb_spec (now - LastSeen n) (deadTimeout m)); [|apply (Hstay n); auto].
      rewrite emit_ring. simpl. rewrite Hid, elem_of_difference, elem_of_singleton.
      split; [|intros [? Hno]; split; [done|intros ->; apply Hno; split; [done|by exists n; split_and!; auto; lia]]].
      intros [? Hne]. split; [done|]. by intros [? _].
    + apply (Hstay n); [done|left; congruence].
  - split; [|by intros [? _]]. intros ?. split; [done|]. intros (_ & n' & ? & _). done.
Qed.

(** A node silent past both timeouts is out of the ring after two ticks. *)
Lemma tick_out_of_ring now order m id n :
  mem_ok m → visits_all order m → mNodes m !! id = Some n →
  tick_state (suspectTimeout m) (deadTimeout m) (now - LastSeen n) (State n) = NodeDead →
  id ∉ nodes (mRing (Tick now order m)).
Proof.
  intros Hm Ho Hn Ht Hin. pose proof (Tick_ok now order m Hm) as Hm'.
  destruct (mem_live _ Hm' id Hin) as (n' & Hn' & Hs).
  rewrite (Tick_all now order m id Ho), Hn in Hn'. by simplify_eq/=.
Qed.

(** ** Properties of the detector *)

(** Silence is eventually fatal. *)
Lemma silent_node_declared_dead m id n t1 t2 o1 o2 :
  mem_ok m → mNodes m !! id = Some n → State n ≠ NodeDead →
  t1 - LastSeen n > suspectTimeout m → t2 - LastSeen n > deadTimeout m →
  visits_all o1 m → visits_all o2 m →
  let m' := Tick t2 o2 (Tick t1 o1 m) in
  (∃ n', mNodes m' !! id = Some n' ∧ State n' = NodeDead) ∧ id ∉ nodes (mRing m').
Proof.
  intros Hm Hn Hs H1 H2 Ho1 Ho2. set (m1 := Tick t1 o1 m).
  pose proof (Tick_all t1 o1 m id Ho1) as Hn1. rewrite Hn in Hn1. simpl in Hn1.
  destruct (Tick_timeouts t1 o1 m) as [Hts Htd].
  assert (visits_all o2 m1) as Ho2' by (by apply visits_all_Tick).
  assert (tick_state (suspectTimeout m1) (deadTimeout m1)
            (t2 - LastSeen (ticked t1 m n)) (State (ticked t1 m n)) = NodeDead) as Hdead.
  { unfold ticked, m1. simpl. rewrite Hts, Htd. destruct (State n); simpl; [| |done].
    - rewrite (proj2 (Z.gtb_lt _ _)) by lia. simpl. by rewrite (proj2 (Z.gtb_lt _ _)) by lia.
    - destruct (_ >? _); simpl; [done|]. by rewrite (proj2 (Z.gtb_lt _ _)) by lia. }
  split.
  - exists (ticked t2 m1 (ticked t1 m n)). rewrite (Tick_all t2 o2 m1 id Ho2'). fold m1 in Hn1.
    rewrite Hn1. split; [done|]. exact Hdead.
  - eapply tick_out_of_ring; [by apply Tick_ok|done|exact Hn1|exact Hdead].
Qed.

(** The heartbeats of one node, as it keeps sending them. *)
Definition heartbeats (id : string) (hs : list (Z * NodeMetrics)) (m : Membership) : Membership :=
  foldl (λ m '(now, mt), (HeartbeatOp now (MkHeartbeat id mt) m).2) m hs.

(** A node that is declared dead and registers again is marked active but
    does not rejoin the ring, however many heartbeats it sends. *)
Lemma reregistered_node_stays_out m id n now addr name hs :
  mem_ok m → mNodes m !! id = Some n → State n = NodeDead →
  let m' := heartbeats id hs (Register now (MkRegister id addr name) m) in
  (∃ n', mNodes m' !! id = Some n' ∧ State n' = NodeActive) ∧ id ∉ nodes (mRing m').
Proof.
  intros Hm Hn Hs. simpl. unfold heartbeats.
  apply (foldl_inv (λ m', (∃ n', mNodes m' !! id = Some n' ∧ State n' = NodeActive) ∧ id ∉ nodes (mRing m'))).
  - unfold Register. simpl. rewrite Hn. simpl. rewrite lookup_insert_eq. split; [by eexists|].
    intros Hin. destruct (mem_live _ Hm id Hin) as (n' & Hn' & Hs'). congruence.
  - intros m' [t mt] _ [(n' & Hn' & Hs') Hout]. unfold HeartbeatOp. simpl. rewrite Hn'. simpl.
    rewrite Hs'. simpl. rewrite lookup_insert_eq. split; [by eexists|done].
Qed.

(** In contrast, a heartbeat alone brings a dead node back into the ring. *)
Lemma heartbeat_recovers m id n now mt :
  mem_ok m → mNodes m !! id = Some n → State n ≠ NodeActive →
  let m' := (HeartbeatOp now (MkHeartbeat id mt) m).2 in
  (∃ n', mNodes m' !! id = Some n' ∧ State n' = NodeActive ∧ LastSeen n' = now) ∧
  id ∈ nodes (mRing m').
Proof.
  intros Hm Hn Hs. simpl. unfold HeartbeatOp. simpl. rewrite Hn.
  rewrite bool_decide_true by done. pose proof (mem_id _ Hm _ _ Hn) as Hid.
  simpl. rewrite Hid. autorewrite with dip. simpl. rewrite lookup_insert_eq. split; [by eexists|].
  rewrite nodes_Add. set_solver.
Qed.
