(* ===== verification/Job.v ===== *)
(** * Scheduler data model (internal/scheduler/job.go)

    Jobs, tasks and the messages exchanged with workers.  A [time.Time] is
    its nanosecond count, a [*time.Time] an option; [int] and [int64] fields
    are [Z]. *)
From S2P Require Import Prelude GoLib.
Open Scope Z_scope.

Inductive JobStatus := JobPending | JobRunning | JobCompleted | JobFailed | JobCancelled.
Inductive TaskStatus := TaskPending | TaskAssigned | TaskRunning | TaskDone | TaskFailed.

#[export] Instance JobStatus_eq_dec : EqDecision JobStatus.
Proof. solve_decision. Defined.
#[export] Instance TaskStatus_eq_dec : EqDecision TaskStatus.
Proof. solve_decision. Defined.

(** The wire values of the two enumerations. *)
Definition JobStatus_string (s : JobStatus) : string :=
  match s with
  | JobPending => "pending" | JobRunning => "running" | JobCompleted => "completed"
  | JobFailed => "failed" | JobCancelled => "cancelled"
  end.
Definition TaskStatus_string (s : TaskStatus) : string :=
  match s with
  | TaskPending => "pending" | TaskAssigned => "assigned" | TaskRunning => "running"
  | TaskDone => "done" | TaskFailed => "failed"
  end.

Record Job := MkJob {
  jID : string; jDataset : string; jAlgorithm : string; jConfig : gmap string string;
  jPriority : Z; jStatus : JobStatus; jShards : list string;
  jTotalTasks : Z; jDoneTasks : Z; jFailedTasks : Z;
  jCreatedAt : Z; jStartedAt : option Z; jFinishedAt : option Z; jError : string }.
#[export] Instance eta_Job : Eta Job := λ j,
  MkJob (jID j) (jDataset j) (jAlgorithm j) (jConfig j) (jPriority j) (jStatus j) (jShards j)
    (jTotalTasks j) (jDoneTasks j) (jFailedTasks j)
    (jCreatedAt j) (jStartedAt j) (jFinishedAt j) (jError j).

Record Task := MkTask {
  tID : string; tJobID : string; tShard : string; tWorkerID : string; tStatus : TaskStatus;
  tPriority : Z; tRetries : Z; tMaxRetries : Z;
  tAssignedAt : option Z; tStartedAt : option Z; tFinishedAt : option Z; tError : string;
  tRangeStart : Z; tRangeEnd : Z; tFrontier : Z; tGranted : Z; tGeneration : Z; tSplit : bool }.
#[export] Instance eta_Task : Eta Task := λ t,
  MkTask (tID t) (tJobID t) (tShard t) (tWorkerID t) (tStatus t) (tPriority t) (tRetries t)
    (tMaxRetries t) (tAssignedAt t) (tStartedAt t) (tFinishedAt t) (tError t)
    (tRangeStart t) (tRangeEnd t) (tFrontier t) (tGranted t) (tGeneration t) (tSplit t).

#[export] Instance Job_eq_dec : EqDecision Job.
Proof. solve_decision. Defined.
#[export] Instance Task_eq_dec : EqDecision Task.
Proof. solve_decision. Defined.

Record TaskAssignment := MkAssignment {
  aTaskID : string; aJobID : string; aShard : string; aDataset : string; aAlgorithm : string;
  aConfig : gmap string string; aRangeStart : Z; aRangeEnd : Z; aBound : Z; aGeneration : Z;
  aSplit : bool }.

Record RenewLeaseRequest := MkRenew {
  rlWorkerID : string; rlGeneration : Z; rlFrontier : Z; rlTotal : Z }.

Record LeaseRenewal := MkRenewal { lrGeneration : Z; lrBound : Z; lrStolen : bool }.

Record SubmitJobRequest := MkSubmit {
  sjDataset : string; sjAlgorithm : string; sjConfig : gmap string string;
  sjShards : list string; sjPriority : Z }.

Record ResultRequest := MkResult {
  rrWorkerID : string; rrImagesProcessed : Z; rrBytesRead : Z; rrOutputKey : string;
  rrDuration : Z; rrError : string }.
