(* ===== verification/Keys.v ===== *)
(** * Result keys (internal/scheduler/commit.go)

    The object keys of the two-phase result protocol and the idempotency key
    of a committed unit of work. *)
From S2P Require Import Prelude GoLib.
Open Scope Z_scope.

Record Range := MkRange { rgStart : Z; rgEnd : Z; rgSplit : bool }.

Definition StagingResultKey (jobID taskID : string) : string :=
  "staging/" +:+ jobID +:+ "/" +:+ taskID +:+ ".parquet".

Definition FinalResultKey (jobID shard : string) (rng : Range) : string :=
  if negb (rgSplit rng) then "results/" +:+ jobID +:+ "/" +:+ shard +:+ ".parquet"
  else "results/" +:+ jobID +:+ "/" +:+ shard +:+ "/" +:+
       fmt_0d 12 (rgStart rng) +:+ "-" +:+ fmt_0d 12 (rgEnd rng) +:+ ".parquet".

Definition SideEffectKey (jobID shard : string) (rng : Range) : string :=
  "sfx-" +:+ hex_encode (take 16 (Sha256.sum256 (bytes_of_string (FinalResultKey jobID shard rng)))).

Example FinalResultKey_whole :
  FinalResultKey "j1" "3f" (MkRange 0 (-1) false) = "results/j1/3f.parquet"%string.
Proof. vm_compute. reflexivity. Qed.
Example FinalResultKey_split :
  FinalResultKey "j1" "3f" (MkRange 3200 6000 true)
  = "results/j1/3f/000000003200-000000006000.parquet"%string.
Proof. vm_compute. reflexivity. Qed.

(** ** Keys name the work they hold *)

Lemma length_app_string a b : String.length (a +:+ b) = (String.length a + String.length b)%nat.
Proof. induction a as [|c a IH]; [done|]. rewrite string_app_cons. simpl. by rewrite IH. Qed.

Lemma app_string_inv_tail a b c : a +:+ c = b +:+ c → a = b.
Proof.
  revert b. induction a as [|x a IH]; intros [|y b] H; [done|..];
    rewrite ?string_app_cons, ?string_app_nil in H.
  - apply (f_equal String.length) in H. simpl in H. rewrite length_app_string in H.
    lia.
  - apply (f_equal String.length) in H. simpl in H. rewrite length_app_string in H.
    lia.
  - simplify_eq. f_equal. by apply IH.
Qed.

(** The value of a string of decimal digits. *)
Fixpoint digits_val (acc : N) (s : string) : N :=
  match s with
  | EmptyString => acc
  | String c s' => digits_val (acc * 10 + (Ascii.N_of_ascii c - 48)) s'
  end%N.

Fixpoint all_digits (s : string) : bool :=
  match s with
  | EmptyString => true
  | String c s' => (48 <=? Ascii.N_of_ascii c)%N && (Ascii.N_of_ascii c <=? 57)%N && all_digits s'
  end.

Lemma pretty_N_char_digit n :
  (n < 10)%N → Ascii.N_of_ascii (pretty_N_char n) = (48 + n)%N.
Proof.
  intros Hn. assert (n ∈ [0;1;2;3;4;5;6;7;8;9]%N) as H.
  { rewrite !elem_of_cons. lia. }
  repeat (apply elem_of_cons in H as [->|H]; [done|]). by apply elem_of_nil in H.
Qed.

Lemma pretty_N_go_val (x : N) s :
  digits_val 0 (pretty_N_go x s) = digits_val x s ∧
  (all_digits s = true → all_digits (pretty_N_go x s) = true).
Proof.
  revert s. induction (N.lt_wf_0 x) as [x _ IH]; intros s.
  destruct (decide (x = 0)%N) as [->|Hx]; [by rewrite pretty_N_go_0|].
  rewrite pretty_N_go_step by lia.
  assert (x `mod` 10 < 10)%N as Hm by (apply N.mod_lt; lia).
  assert (x `div` 10 < x)%N as Hd by (apply N.div_lt; lia).
  pose proof (N.div_mod' x 10) as Hx10. revert Hm Hd Hx10.
  generalize (x `div` 10)%N (x `mod` 10)%N. intros q r Hm Hd Hx10.
  destruct (IH _ Hd (String (pretty_N_char r) s)) as [IH1 IH2]. split.
  - rewrite IH1. simpl. rewrite pretty_N_char_digit by done. f_equal. lia.
  - intros Hs. apply IH2. simpl. rewrite pretty_N_char_digit by done.
    rewrite Hs, (proj2 (N.leb_le 48 _)), (proj2 (N.leb_le _ 57)) by lia. done.
Qed.

Lemma pretty_val z : 0 ≤ z →
  digits_val 0 (pretty z) = Z.to_N z ∧ all_digits (pretty z) = true.
Proof.
  intros Hz. destruct z as [|p|p]; [done| |lia].
  change (pretty (Zpos p)) with (pretty (Npos p)).
  unfold pretty, pretty_N. rewrite decide_False by done.
  destruct (pretty_N_go_val (Npos p) "") as [H1 H2]. by rewrite H1, H2.
Qed.

Lemma zeros_val n s :
  digits_val 0 (zeros n +:+ s) = digits_val 0 s ∧ all_digits (zeros n +:+ s) = all_digits s.
Proof.
  induction n as [|n IH]; [done|]. destruct IH as [IH1 IH2].
  split; [rewrite <- IH1|rewrite <- IH2]; done.
Qed.

Lemma fmt_0d_val w z : 0 ≤ z →
  digits_val 0 (fmt_0d w z) = Z.to_N z ∧ all_digits (fmt_0d w z) = true.
Proof.
  intros Hz. unfold fmt_0d. rewrite (proj2 (Z.ltb_ge z 0)) by done.
  destruct (zeros_val (w - String.length (pretty z)) (pretty z)) as [-> ->].
  by apply pretty_val.
Qed.

Lemma fmt_0d_inj w z z' : 0 ≤ z → 0 ≤ z' → fmt_0d w z = fmt_0d w z' → z = z'.
Proof.
  intros Hz Hz' H. destruct (fmt_0d_val w z Hz) as [H1 _], (fmt_0d_val w z' Hz') as [H2 _].
  rewrite H in H1. lia.
Qed.

Lemma digits_no_char c s :
  all_digits s = true → (Ascii.N_of_ascii c < 48)%N → no_char c s = true.
Proof.
  intros H Hc. induction s as [|c' s IH]; [done|]. simpl in *.
  apply andb_true_iff in H as [H Hs]. apply andb_true_iff in H as [Hlo _].
  rewrite IH by done. rewrite andb_true_r. apply negb_true_iff, Ascii.eqb_neq.
  intros ->. apply N.leb_le in Hlo. lia.
Qed.

Lemma fmt_d_no_nul z : no_char nul (fmt_d z) = true.
Proof.
  unfold fmt_d. destruct (Z.le_gt_cases 0 z) as [Hz|Hz].
  - apply digits_no_char; [by apply pretty_val|done].
  - destruct z as [|p|p]; [lia..|]. change (pretty (Z.neg p)) with ("-" +:+ pretty (Z.pos p)).
    rewrite no_char_app. apply andb_true_iff. split; [done|]. apply digits_no_char; [by apply pretty_val|done].
Qed.

Definition dash : Ascii.ascii := Ascii.ascii_of_N 45.

Lemma slash_clash s r : no_char slash s = true → ∀ a, a +:+ String slash r ≠ s +:+ ".parquet".
Proof.
  intros Hs a H. apply (f_equal (no_char slash)) in H. rewrite !no_char_app, Hs in H.
  simpl in H. by rewrite andb_false_r in H.
Qed.

(** Distinct units of work have distinct result keys.  Job ids and shard
    names contain no slash, and offsets are not negative. *)
Lemma FinalResultKey_inj jobID jobID' shard shard' rng rng' :
  no_char slash jobID = true → no_char slash jobID' = true →
  no_char slash shard = true → no_char slash shard' = true →
  0 ≤ rgStart rng → 0 ≤ rgStart rng' →
  (rgSplit rng = true → 0 ≤ rgEnd rng) → (rgSplit rng' = true → 0 ≤ rgEnd rng') →
  FinalResultKey jobID shard rng = FinalResultKey jobID' shard' rng' →
  jobID = jobID' ∧ shard = shard' ∧ rgSplit rng = rgSplit rng' ∧
  (rgSplit rng = true → rgStart rng = rgStart rng' ∧ rgEnd rng = rgEnd rng').
Proof.
  intros Hj Hj' Hs Hs' H0 H0' He He' H. unfold FinalResultKey in H.
  destruct (rgSplit rng) eqn:E, (rgSplit rng') eqn:E'; simpl in H;
    rewrite !string_app_cons, !string_app_nil in H; injection H as H;
    (apply (split_at_char slash) in H as [-> H]; [|exact Hj|exact Hj']).
  - apply (split_at_char slash) in H as [-> H]; [|exact Hs|exact Hs'].
    apply (split_at_char dash) in H as [Hst H];
      [|by apply digits_no_char; [apply fmt_0d_val|]..].
    apply app_string_inv_tail in H.
    apply fmt_0d_inj in Hst; [|done..]. apply fmt_0d_inj in H; [|by apply He|by apply He'].
    done.
  - by apply (slash_clash _ _ Hs') in H.
  - symmetry in H. by apply (slash_clash _ _ Hs) in H.
  - by apply app_string_inv_tail in H as ->.
Qed.
