(* ===== verification/Scheduler.v ===== *)
(** * The job scheduler (internal/scheduler/scheduler.go, persist.go)

    One definition per method.  Every method except [ReportResult] holds
    [s.mu] for its whole body, so it is one function on the state;
    [ReportResult] releases the lock around its external calls and is given
    here as its two locked phases ([report_begin], [report_finish]); the
    calls between them are in Commit.v.

    Inputs the code takes from outside the state are arguments: the clock
    reading [now], fresh identifiers from [uuid.New], and the order in which
    a map iteration visits the tasks.  [diag], [trace] and [log] calls have
    no effect on the state and are left out. *)
From S2P Require Import Prelude GoLib Storage Ring Job Keys.
Open Scope Z_scope.

Definition defaultLeaseChunk : Z := 1000.
Definition minStealItems : Z := 2.

(** What the scheduler serializes on every mutation (persist.go). *)
Record schedulerState := MkState {
  stJobs : list Job; stTasks : list Task; stPending : list string }.

(** The scheduler.  [store] is [None] without a [RecordStore], and otherwise
    the records handed to its [Append], oldest first; [onJobDone] is [None]
    without a hook, and otherwise the job ids it was called with, oldest
    first. *)
Record Scheduler := MkSched {
  jobs : gmap string Job; tasks : gmap string Task; pendingQ : list string;
  maxRetries : Z; leaseChunk : Z;
  store : option (list schedulerState); onJobDone : option (list string) }.
#[export] Instance eta_Scheduler : Eta Scheduler := λ s,
  MkSched (jobs s) (tasks s) (pendingQ s) (maxRetries s) (leaseChunk s) (store s) (onJobDone s).

(** The scheduler asks the ring which worker a shard belongs to, and ignores
    the error: an empty ring answers the empty string. *)
Class ShardOwner (R : Type) := owner_of : R → string → string.
#[export] Instance ring_owner : ShardOwner Ring := λ r shard,
  match Lookup r shard with Ok n => n | Err _ => EmptyString end.

Definition New (maxRetries : Z) : Scheduler :=
  MkSched ∅ ∅ [] maxRetries defaultLeaseChunk None None.

Definition SetJobDoneHook (s : Scheduler) : Scheduler := s <| onJobDone := Some [] |>.

Definition SetLeaseChunk (n : Z) (s : Scheduler) : Scheduler :=
  if n <=? 0 then s else s <| leaseChunk := n |>.

(** ** Persistence *)

Definition AttachStore (s : Scheduler) : Scheduler := s <| store := Some [] |>.

(** The Go code lists the maps in iteration order; the order is immaterial
    (see [install_record] in Persist.v). *)
Definition encodeStateLocked (s : Scheduler) : schedulerState :=
  MkState (map_to_list (jobs s)).*2 (map_to_list (tasks s)).*2 (pendingQ s).

Definition Snapshot (s : Scheduler) : schedulerState := encodeStateLocked s.

(** [persistLocked]: a failing [Append] is logged and changes nothing here. *)
Definition persistLocked (s : Scheduler) : Scheduler :=
  match store s with
  | None => s
  | Some recs => s <| store := Some (recs ++ [encodeStateLocked s]) |>
  end.

Definition install_state (st : schedulerState) (s : Scheduler) : Scheduler :=
  s <| jobs := foldl (λ m j, <[jID j := j]> m) ∅ (stJobs st) |>
    <| tasks := foldl (λ m t, <[tID t := t]> m) ∅ (stTasks st) |>
    <| pendingQ := stPending st |>.

(** [Restore]: [decode] is [json.Unmarshal] into a [schedulerState]. *)
Definition Restore {B} (decode : B → result schedulerState)
    (snapshot : option B) (records : list B) (s : Scheduler) : result Scheduler :=
  let blob := match last records with Some r => Some r | None => snapshot end in
  match blob with
  | None => Ok s
  | Some b =>
      match decode b with
      | Err e => Err ("scheduler: decode restored state: " +:+ e)
      | Ok st => Ok (install_state st s)
      end
  end.

(** ** Submission *)

Definition submit_task (job : Job) (s : Scheduler) (p : string * string) : Scheduler :=
  let '(shard, tid) := p in
  let t := MkTask tid (jID job) shard EmptyString TaskPending (jPriority job) 0 (maxRetries s)
             None None None EmptyString 0 (-1) 0 0 0 false in
  s <| tasks := <[tid := t]> (tasks s) |> <| pendingQ := pendingQ s ++ [tid] |>.

Definition submit_shards (req : SubmitJobRequest) : list string :=
  if (length (sjShards req) =? 0)%nat then AllShards else sjShards req.

Definition new_job (created : Z) (jid : string) (req : SubmitJobRequest) : Job :=
  let shards := submit_shards req in
  MkJob jid (sjDataset req) (sjAlgorithm req) (sjConfig req) (sjPriority req) JobPending shards
    (Z.of_nat (length shards)) 0 0 created None None EmptyString.

(** [Submit]: [jid] and [tids] are the identifiers [uuid.New] returns for
    the job and, in order, its tasks. *)
Definition Submit (created now : Z) (jid : string) (tids : list string)
    (req : SubmitJobRequest) (s : Scheduler) : Job * Scheduler :=
  let job := new_job created jid req in
  let s := s <| jobs := <[jid := job]> (jobs s) |> in
  let s := foldl (submit_task job) s (zip (submit_shards req) tids) in
  let job := job <| jStatus := JobRunning |> <| jStartedAt := Some now |> in
  let s := s <| jobs := <[jid := job]> (jobs s) |> in
  (job, persistLocked s).

(** ** Leases *)

Definition resetLeaseLocked (t : Task) : Task :=
  t <| tFrontier := tRangeStart t |> <| tGranted := tRangeStart t |>.

Definition grantLocked (chunk : Z) (t : Task) : Task :=
  let g := wrap64 (tFrontier t + chunk) in
  let g := if (0 <=? tRangeEnd t) && (g >? tRangeEnd t) then tRangeEnd t else g in
  if g >? tGranted t then t <| tGranted := g |> else t.

(** The condition [checkLeaseInvariant] asserts when diagnostics are on. *)
Definition checkLeaseInvariant (t : Task) : bool :=
  let ok := (tRangeStart t <=? tFrontier t) && (tFrontier t <=? tGranted t) in
  if 0 <=? tRangeEnd t then ok && (tGranted t <=? tRangeEnd t) else ok.

(** [assignmentFor]: [None] is the nil dereference of a task without job. *)
Definition assignmentFor (s : Scheduler) (t : Task) : option TaskAssignment :=
  job ← jobs s !! tJobID t;
  Some (MkAssignment (tID t) (tJobID t) (tShard t) (jDataset job) (jAlgorithm job) (jConfig job)
          (tRangeStart t) (tRangeEnd t) (tGranted t) (tGeneration t) (tSplit t)).

Definition put_task (id : string) (t : Task) (s : Scheduler) : Scheduler :=
  s <| tasks := <[id := t]> (tasks s) |>.

(** [assignLocked] on the task under key [id]. *)
Definition assignLocked (now : Z) (id : string) (t : Task) (workerID : string) (s : Scheduler)
    : option TaskAssignment * Scheduler :=
  let t := t <| tStatus := TaskAssigned |> <| tWorkerID := workerID |> <| tAssignedAt := Some now |> in
  let t := grantLocked (leaseChunk s) t in
  let s := put_task id t s in
  (assignmentFor s t, s).

(** ** Work stealing *)

Definition in_flight (t : Task) : bool :=
  bool_decide (tStatus t = TaskAssigned ∨ tStatus t = TaskRunning).

(** One iteration of the victim search; the state is [(victim, bestTail)]. *)
Definition steal_scan (s : Scheduler) (acc : option string * Z) (id : string) : option string * Z :=
  match tasks s !! id with
  | None => acc
  | Some t =>
      if negb (in_flight t) then acc
      else if tRangeEnd t <? 0 then acc
      else
        let tail := wrap64 (tRangeEnd t - tGranted t) in
        if tail >? acc.2 then (Some id, tail) else acc
  end.

Definition split_point (victim : Task) (bestTail : Z) : Z := wrap64 (tGranted victim + bestTail / 2).

Definition stolen_task (newID : string) (victim : Task) (split : Z) : Task :=
  MkTask newID (tJobID victim) (tShard victim) EmptyString TaskPending 0 0 (tMaxRetries victim)
    None None None EmptyString split (tRangeEnd victim) split split 0 true.

Definition shrunk_victim (victim : Task) (split : Z) : Task :=
  victim <| tRangeEnd := split |> <| tGeneration := wrap64 (tGeneration victim + 1) |> <| tSplit := true |>.

Definition bump_total (jid : string) (s : Scheduler) : Scheduler :=
  match jobs s !! jid with
  | Some j => s <| jobs := <[jid := j <| jTotalTasks := jTotalTasks j + 1 |>]> (jobs s) |>
  | None => s
  end.

(** [stealLocked]: [order] is the iteration order over the tasks, [newID]
    the identifier of the new sub-task, which is returned. *)
Definition stealLocked (order : list string) (newID : string) (s : Scheduler)
    : option Task * Scheduler :=
  let '(victimID, bestTail) := foldl (steal_scan s) (None, 0) order in
  match victimID with
  | None => (None, s)
  | Some vid =>
      match tasks s !! vid with
      | None => (None, s)
      | Some victim =>
          if bestTail <? minStealItems then (None, s)
          else
            let split := split_point victim bestTail in
            if (split <=? tGranted victim) || (tRangeEnd victim <=? split) then (None, s)
            else
              let stolen := stolen_task newID victim split in
              let s := put_task vid (shrunk_victim victim split) s in
              let s := put_task newID stolen s in
              (Some stolen, bump_total (tJobID victim) s)
      end
  end.

(** ** Dispatch *)

(** The scan of the pending queue from index [i] on: the index of the first
    task the worker owns, and the first of the highest-priority tasks seen
    before it. *)
Fixpoint poll_scan {R} `{ShardOwner R} (r : R) (s : Scheduler) (workerID : string)
    (q : list string) (i : nat) (fallback : option nat) (fallbackPri : Z) : option nat * option nat :=
  match q with
  | [] => (None, fallback)
  | tid :: q' =>
      match tasks s !! tid with
      | None => poll_scan r s workerID q' (S i) fallback fallbackPri
      | Some t =>
          if bool_decide (tStatus t ≠ TaskPending) then poll_scan r s workerID q' (S i) fallback fallbackPri
          else if bool_decide (owner_of r (tShard t) = workerID) then (Some i, fallback)
          else if bool_decide (fallback = None) || (tPriority t >? fallbackPri)
          then poll_scan r s workerID q' (S i) (Some i) (tPriority t)
          else poll_scan r s workerID q' (S i) fallback fallbackPri
      end
  end.

Definition poll_index {R} `{ShardOwner R} (r : R) (s : Scheduler) (workerID : string) : option nat :=
  match poll_scan r s workerID (pendingQ s) 0 None 0 with
  | (Some i, _) => Some i
  | (None, fallback) => fallback
  end.

(** The end of [PollTasks]: assign the task and persist. *)
Definition dispatch (now : Z) (workerID id : string) (t : Task) (s : Scheduler)
    : result (option TaskAssignment) * Scheduler :=
  let '(a, s) := assignLocked now id t workerID s in
  match a with
  | None => (Err "nil pointer dereference", s)
  | Some a => (Ok (Some a), persistLocked s)
  end.

(** [PollTasks]: [Ok None] is no work; [Err] is a panic. *)
Definition PollTasks {R} `{ShardOwner R} (r : R) (now : Z) (order : list string) (newID : string)
    (workerID : string) (s : Scheduler) : result (option TaskAssignment) * Scheduler :=
  match poll_index r s workerID with
  | None =>
      match stealLocked order newID s with
      | (None, s) => (Ok None, s)
      | (Some t, s) => dispatch now workerID newID t s
      end
  | Some idx =>
      match pendingQ s !! idx with
      | None => (Err "index out of range", s)
      | Some tid =>
          let s := s <| pendingQ := remove_at idx (pendingQ s) |> in
          match tasks s !! tid with
          | None => (Err "nil pointer dereference", s)
          | Some t => dispatch now workerID tid t s
          end
      end
  end.

Definition StartTask (now : Z) (taskID : string) (s : Scheduler) : result unit * Scheduler :=
  match tasks s !! taskID with
  | None => (Err ("task not found: " +:+ taskID), s)
  | Some t =>
      let t := t <| tStatus := TaskRunning |> <| tStartedAt := Some now |> in
      (Ok tt, persistLocked (put_task taskID t s))
  end.

(** One iteration of [DrainPending]'s loop; [None] is a nil dereference. *)
Definition drain_step (now : Z) (acc : list TaskAssignment * Scheduler) (tid : string)
    : list TaskAssignment * Scheduler :=
  let '(out, s) := acc in
  match tasks s !! tid with
  | None => acc
  | Some t =>
      if bool_decide (tStatus t ≠ TaskPending) then acc
      else
        match jobs s !! tJobID t with
        | None => acc
        | Some _ =>
            let t := t <| tStatus := TaskAssigned |> <| tAssignedAt := Some now |> in
            let t := grantLocked (leaseChunk s) t in
            let s := put_task tid t s in
            match assignmentFor s t with
            | Some a => (out ++ [a], s)
            | None => (out, s)
            end
        end
  end.

(** [DrainPending n]; a negative [n] is a slice-bounds panic. *)
Definition DrainPending (now : Z) (n : Z) (s : Scheduler) : result (list TaskAssignment) * Scheduler :=
  let n := if n >? Z.of_nat (length (pendingQ s)) then Z.of_nat (length (pendingQ s)) else n in
  if n =? 0 then (Ok [], s)
  else if n <? 0 then (Err "slice bounds out of range", s)
  else
    let ids := take (Z.to_nat n) (pendingQ s) in
    let s := s <| pendingQ := drop (Z.to_nat n) (pendingQ s) |> in
    let '(out, s) := foldl (drain_step now) ([], s) ids in
    (Ok out, persistLocked s).

(** ** Job accounting *)

Definition job_tasks (jobID : string) (s : Scheduler) : list Task :=
  filter (λ t, tJobID t = jobID) (map_to_list (tasks s)).*2.

Definition count_status (P : TaskStatus → Prop) `{!∀ x, Decision (P x)} (l : list Task) : Z :=
  Z.of_nat (length (filter (λ t, P (tStatus t)) l)).

Definition call_hook (jobID : string) (s : Scheduler) : Scheduler :=
  match onJobDone s with
  | Some calls => s <| onJobDone := Some (calls ++ [jobID]) |>
  | None => s
  end.

(** [updateJob]: counts the job's tasks; when none is left pending, settles
    the job and calls the hook. *)
Definition updateJob (now : Z) (jobID : string) (s : Scheduler) : Scheduler :=
  match jobs s !! jobID with
  | None => s
  | Some j =>
      let ts := job_tasks jobID s in
      let done := count_status (λ x, x = TaskDone) ts in
      let failed := count_status (λ x, x = TaskFailed) ts in
      let pending := count_status (λ x, x ≠ TaskDone ∧ x ≠ TaskFailed) ts in
      let j := j <| jDoneTasks := done |> <| jFailedTasks := failed |> in
      if pending >? 0 then s <| jobs := <[jobID := j]> (jobs s) |>
      else
        let j := j <| jFinishedAt := Some now |> in
        let j := if failed >? 0
                 then j <| jStatus := JobFailed |> <| jError := fmt_d failed +:+ " tasks failed" |>
                 else j <| jStatus := JobCompleted |> in
        call_hook jobID (s <| jobs := <[jobID := j]> (jobs s) |>)
  end.

(** ** Results *)

(** What phase 1 of [ReportResult] reads under the lock. *)
Record Attempt := MkAttempt {
  atTaskID : string; atReq : ResultRequest; atJobID : string; atShard : string;
  atRange : Range; atGen : Z }.

Definition task_range (t : Task) : Range := MkRange (tRangeStart t) (tRangeEnd t) (tSplit t).

(** Phase 1: [Ok None] is the short circuit of an already committed task. *)
Definition report_begin (taskID : string) (req : ResultRequest) (s : Scheduler)
    : result (option Attempt) :=
  match tasks s !! taskID with
  | None => Err ("task not found: " +:+ taskID)
  | Some t =>
      if bool_decide (tStatus t = TaskDone) then Ok None
      else Ok (Some (MkAttempt taskID req (tJobID t) (tShard t) (task_range t) (tGeneration t)))
  end.

(** Put a task back in the queue after a failed attempt. *)
Definition requeue (t : Task) : Task :=
  resetLeaseLocked (t <| tRetries := tRetries t + 1 |> <| tStatus := TaskPending |>
                      <| tWorkerID := EmptyString |>).

(** Phase 4. *)
Definition report_finish (now : Z) (taskID : string) (req : ResultRequest) (s : Scheduler)
    : result unit * Scheduler :=
  match tasks s !! taskID with
  | None => (Err ("task not found: " +:+ taskID), s)
  | Some t =>
      if bool_decide (tStatus t = TaskDone) then (Ok tt, s)
      else
        let t := t <| tFinishedAt := Some now |> <| tWorkerID := rrWorkerID req |> in
        if bool_decide (rrError req ≠ EmptyString) then
          let t := t <| tError := rrError req |> in
          if tRetries t <? tMaxRetries t then
            let s := put_task taskID (requeue t) s in
            let s := s <| pendingQ := pendingQ s ++ [tID t] |> in
            (Ok tt, persistLocked s)
          else
            let s := put_task taskID (t <| tStatus := TaskFailed |>) s in
            (Ok tt, persistLocked (updateJob now (tJobID t) s))
        else
          let s := put_task taskID (t <| tStatus := TaskDone |>) s in
          (Ok tt, persistLocked (updateJob now (tJobID t) s))
  end.

(** ** Lease renewal *)

Definition renew_task (chunk : Z) (req : RenewLeaseRequest) (t : Task) : Task :=
  let t := if (tRangeEnd t <? 0) && (rlTotal req >? 0) then t <| tRangeEnd := rlTotal req |> else t in
  let t := if rlFrontier req >? tFrontier t then t <| tFrontier := rlFrontier req |> else t in
  let t := if (0 <=? tRangeEnd t) && (tFrontier t >? tRangeEnd t)
           then t <| tFrontier := tRangeEnd t |> else t in
  grantLocked chunk t.

Definition RenewLease (taskID : string) (req : RenewLeaseRequest) (s : Scheduler)
    : result LeaseRenewal * Scheduler :=
  match tasks s !! taskID with
  | None => (Err ("task not found: " +:+ taskID), s)
  | Some t =>
      let t := renew_task (leaseChunk s) req t in
      (Ok (MkRenewal (tGeneration t) (tGranted t) (rlGeneration req <? tGeneration t)),
       persistLocked (put_task taskID t s))
  end.

(** ** Rebalancing a dead worker's tasks *)

(** One iteration of the loop; the state is [(requeued, s)]. *)
Definition rebalance_step (now : Z) (workerID : string) (acc : nat * Scheduler) (id : string)
    : nat * Scheduler :=
  let '(requeued, s) := acc in
  match tasks s !! id with
  | None => acc
  | Some t =>
      if bool_decide (tWorkerID t ≠ workerID) then acc
      else if negb (in_flight t) then acc
      else if tRetries t <? tMaxRetries t then
        let s := put_task id (requeue t) s in
        (S requeued, s <| pendingQ := pendingQ s ++ [tID t] |>)
      else
        (requeued, updateJob now (tJobID t) (put_task id (t <| tStatus := TaskFailed |>) s))
  end.

Definition RebalanceWorker (now : Z) (order : list string) (workerID : string) (s : Scheduler)
    : Scheduler :=
  let '(requeued, s) := foldl (rebalance_step now workerID) (0%nat, s) order in
  if (0 <? requeued)%nat then persistLocked s else s.

(** ** Queries *)

Definition GetJob (id : string) (s : Scheduler) : result Job :=
  match jobs s !! id with
  | Some j => Ok j
  | None => Err ("job not found: " +:+ id)
  end.

Definition PendingCount (s : Scheduler) : nat := length (pendingQ s).
Definition Tasks (s : Scheduler) : list Task := (map_to_list (tasks s)).*2.
Definition ListJobs (s : Scheduler) : list Job := (map_to_list (jobs s)).*2.

(** ** Runs

    The mutating calls as labels, and the states they lead to.  A late or
    duplicate report is just another [OpFinish]: phase 4 takes nothing from
    phase 1 but the task id and the request. *)
Inductive op :=
| OpSubmit (created now : Z) (jid : string) (tids : list string) (req : SubmitJobRequest)
| OpPoll (now : Z) (order : list string) (newID workerID : string)
| OpStart (now : Z) (taskID : string)
| OpFinish (now : Z) (taskID : string) (req : ResultRequest)
| OpRenew (taskID : string) (req : RenewLeaseRequest)
| OpRebalance (now : Z) (order : list string) (workerID : string)
| OpDrain (now n : Z)
| OpSetChunk (n : Z)
| OpSetHook
| OpAttach.

Definition run_op {R} `{ShardOwner R} (r : R) (o : op) (s : Scheduler) : Scheduler :=
  match o with
  | OpSubmit created now jid tids req => (Submit created now jid tids req s).2
  | OpPoll now order newID w => (PollTasks r now order newID w s).2
  | OpStart now id => (StartTask now id s).2
  | OpFinish now id req => (report_finish now id req s).2
  | OpRenew id req => (RenewLease id req s).2
  | OpRebalance now order w => RebalanceWorker now order w s
  | OpDrain now n => (DrainPending now n s).2
  | OpSetChunk n => SetLeaseChunk n s
  | OpSetHook => SetJobDoneHook s
  | OpAttach => AttachStore s
  end.
