(* ===== verification/SchedInv.v ===== *)
(** * Well-formedness of the scheduler

    The invariant of scheduler.go and that every operation keeps it: maps
    keyed by id, every task's job known, no pending task outside the queue,
    retries within their limit, task counts, and the lease ordering
    [RangeStart <= Frontier <= Granted <= RangeEnd] of job.go. *)
From S2P Require Import Prelude GoLib Storage Ring Job Keys Scheduler.
Open Scope Z_scope.

(** Offsets into a shard stay below this bound, far from the [int64] limit. *)
Definition items_max : Z := 2 ^ 61.

Record lease_ok (t : Task) : Prop := {
  lease_start : 0 ≤ tRangeStart t ≤ tFrontier t;
  lease_frontier : tFrontier t ≤ tGranted t;
  lease_small : tFrontier t ≤ items_max ∧ tGranted t ≤ 2 * items_max;
  lease_unknown : tRangeEnd t < 0 → tRangeEnd t = -1 ∧ tRangeStart t = 0 ∧ tGeneration t = 0;
  lease_known : 0 ≤ tRangeEnd t → tGranted t ≤ tRangeEnd t ≤ items_max;
  lease_gen : 0 ≤ tGeneration t ∧
    (0 ≤ tRangeEnd t → tGeneration t + tRangeEnd t - tRangeStart t ≤ items_max);
}.

Definition retries_ok (t : Task) : Prop := 0 ≤ tRetries t ≤ Z.max 0 (tMaxRetries t).

Definition job_count (jid : string) (s : Scheduler) : nat :=
  size (filter (λ kv : string * Task, tJobID kv.2 = jid) (tasks s)).

Record sched_ok (s : Scheduler) : Prop := {
  ok_task_id : ∀ id t, tasks s !! id = Some t → tID t = id;
  ok_job_id : ∀ id j, jobs s !! id = Some j → jID j = id;
  ok_task_job : ∀ id t, tasks s !! id = Some t → is_Some (jobs s !! tJobID t);
  ok_lease : ∀ id t, tasks s !! id = Some t → lease_ok t;
  ok_retries : ∀ id t, tasks s !! id = Some t → retries_ok t;
  ok_queue : ∀ id, id ∈ pendingQ s → is_Some (tasks s !! id);
  ok_pending : ∀ id t, tasks s !! id = Some t → tStatus t = TaskPending → id ∈ pendingQ s;
  ok_total : ∀ id j, jobs s !! id = Some j → jTotalTasks j = Z.of_nat (job_count id s);
  ok_chunk : 0 < leaseChunk s ≤ items_max;
}.

(** ** Counting a job's tasks *)

Lemma job_count_put id t t' jid s :
  tasks s !! id = Some t → tJobID t' = tJobID t →
  job_count jid (put_task id t' s) = job_count jid s.
Proof.
  intros Ht Hj. unfold job_count, put_task. simpl. rewrite map_filter_insert.
  case_decide as Hd; simpl in Hd.
  - assert (filter (λ kv : string * Task, tJobID kv.2 = jid) (tasks s) !! id = Some t) as Hf
      by (apply map_lookup_filter_Some; split; [done|simpl; congruence]).
    by rewrite map_size_insert_Some by (by eexists).
  - rewrite map_filter_delete_not; [done|]. intros y Hy. simplify_eq. simpl. congruence.
Qed.

Lemma job_count_new id t jid s :
  tasks s !! id = None →
  job_count jid (put_task id t s) = (job_count jid s + if decide (tJobID t = jid) then 1 else 0)%nat.
Proof.
  intros Ht. unfold job_count, put_task. simpl. rewrite map_filter_insert.
  case_decide as Hd; simpl in Hd.
  - rewrite map_size_insert_None, decide_True by
      (done || (apply map_lookup_filter_None; by left)). lia.
  - rewrite decide_False by done. rewrite map_filter_delete_not; [lia|]. congruence.
Qed.

Lemma length_job_tasks jid s : length (job_tasks jid s) = job_count jid s.
Proof.
  unfold job_tasks, job_count. rewrite map_filter_alt, map_size_list_to_map.
  - induction (map_to_list (tasks s)) as [|[k t] l IH]; [done|].
    rewrite fmap_cons, !filter_cons. simpl. case_decide; simpl; by rewrite IH.
  - eapply sublist_NoDup; [apply (NoDup_fst_map_to_list (tasks s))|].
    apply fmap_sublist, sublist_filter.
Qed.

Lemma elem_of_job_tasks jid s t :
  t ∈ job_tasks jid s ↔ tJobID t = jid ∧ ∃ id, tasks s !! id = Some t.
Proof.
  unfold job_tasks. rewrite list_elem_of_filter, list_elem_of_fmap. split.
  - intros [Hj ([k u] & -> & H)]. rewrite elem_of_map_to_list in H. eauto.
  - intros [Hj [id H]]. split; [done|]. exists (id, t). by rewrite elem_of_map_to_list.
Qed.

(** ** One task at a time *)

(** A change of one task and of the queue keeps the invariant when the task
    keeps its identity and the queue still holds what is pending. *)
Lemma put_task_ok s id t t' q :
  sched_ok s → tasks s !! id = Some t →
  tID t' = tID t → tJobID t' = tJobID t → lease_ok t' → retries_ok t' →
  (∀ x, x ∈ q → is_Some (tasks s !! x)) →
  (∀ x u, tasks s !! x = Some u → x ≠ id → tStatus u = TaskPending → x ∈ q) →
  (tStatus t' = TaskPending → id ∈ q) →
  sched_ok (put_task id t' s <| pendingQ := q |>).
Proof.
  intros [H1 H2 H3 H4 H5 H6 H7 H8 H9] Ht Hid Hjob Hl Hr Hq1 Hq2 Hq3.
  unfold put_task. split; simpl; try done.
  - intros x u Hu. lookup_cases Hu; [by rewrite Hid, (H1 _ _ Ht)|by apply H1].
  - intros x u Hu. lookup_cases Hu; [rewrite Hjob; by apply (H3 _ _ Ht)|by apply (H3 x)].
  - intros x u Hu. lookup_cases Hu; [done|by apply (H4 x)].
  - intros x u Hu. lookup_cases Hu; [done|by apply (H5 x)].
  - intros x Hx. rewrite lookup_insert. case_decide; [done|by apply Hq1].
  - intros x u Hu Hp. lookup_cases Hu; [by apply Hq3|by apply (Hq2 x u)].
  - intros x j Hj. rewrite (H8 x j Hj). f_equal. symmetry. exact (job_count_put id t t' x s Ht Hjob).
Qed.

(** The same with the queue unchanged. *)
Lemma put_task_ok' s id t t' :
  sched_ok s → tasks s !! id = Some t →
  tID t' = tID t → tJobID t' = tJobID t → lease_ok t' → retries_ok t' →
  (tStatus t' = TaskPending → tStatus t = TaskPending) →
  sched_ok (put_task id t' s).
Proof.
  intros Hs Ht Hid Hj Hl Hr Hp.
  apply (put_task_ok s id t t' (pendingQ s)); try done.
  - apply (ok_queue _ Hs).
  - intros. by eapply (ok_pending _ Hs).
  - intros. eapply (ok_pending _ Hs); [done|by apply Hp].
Qed.

(** Changing a job but not its id, total or shards is harmless. *)
Lemma put_job_ok s id j j' :
  sched_ok s → jobs s !! id = Some j → jID j' = jID j → jTotalTasks j' = jTotalTasks j →
  sched_ok (s <| jobs := <[id := j']> (jobs s) |>).
Proof.
  intros [H1 H2 H3 H4 H5 H6 H7 H8 H9] Hj Hid Htot. split; simpl; try done.
  - intros x u Hu. lookup_cases Hu; [by rewrite Hid, (H2 _ _ Hj)|by apply H2].
  - intros x u Hu. rewrite lookup_insert. case_decide; [done|by apply (H3 x)].
  - intros x u Hu. lookup_cases Hu; [by rewrite Htot, (H8 _ _ Hj)|by apply H8].
Qed.

Lemma persistLocked_ok s : sched_ok s → sched_ok (persistLocked s).
Proof. unfold persistLocked. destruct (store s); [|done]. intros []. by split. Qed.

Lemma call_hook_ok jid s : sched_ok s → sched_ok (call_hook jid s).
Proof. unfold call_hook. destruct (onJobDone s); [|done]. intros []. by split. Qed.

Lemma updateJob_ok now jid s : sched_ok s → sched_ok (updateJob now jid s).
Proof.
  intros Hs. unfold updateJob. destruct (jobs s !! jid) as [j|] eqn:Hj; [|done].
  repeat case_match; try apply call_hook_ok; by eapply put_job_ok.
Qed.

(** ** Leases *)

Lemma resetLease_ok t : lease_ok t → lease_ok (resetLeaseLocked t).
Proof. intros [? ? ? ? ? ?]. split; simpl; lia. Qed.

(** What a lease satisfies between a progress report and the grant that
    follows it: the frontier may have passed the granted bound. *)
Record lease_pre (t : Task) : Prop := {
  pre_start : 0 ≤ tRangeStart t ≤ tFrontier t;
  pre_small : tFrontier t ≤ items_max ∧ tGranted t ≤ 2 * items_max;
  pre_unknown : tRangeEnd t < 0 → tRangeEnd t = -1 ∧ tRangeStart t = 0 ∧ tGeneration t = 0;
  pre_known : 0 ≤ tRangeEnd t → tFrontier t ≤ tRangeEnd t ∧ tGranted t ≤ tRangeEnd t ≤ items_max;
  pre_gen : 0 ≤ tGeneration t ∧
    (0 ≤ tRangeEnd t → tGeneration t + tRangeEnd t - tRangeStart t ≤ items_max);
}.

Lemma lease_ok_pre t : lease_ok t → lease_pre t.
Proof. intros [? ? ? ? ? ?]. split; try done; lia. Qed.

(** [grantLocked] in the ordinary range, without wrap-around. *)
Lemma grantLocked_spec chunk t :
  0 ≤ tFrontier t ≤ items_max → 0 < chunk ≤ items_max →
  grantLocked chunk t = t <| tGranted := Z.max (tGranted t)
    (if 0 <=? tRangeEnd t then Z.min (tFrontier t + chunk) (tRangeEnd t) else tFrontier t + chunk) |>.
Proof.
  intros Hf Hc. unfold grantLocked, items_max in *.
  rewrite wrap64_id by (unfold max_int64; lia).
  assert (∀ g, tGranted t = g → t <| tGranted := g |> = t) as Hsame by (intros g <-; by destruct t).
  destruct (Z.leb_spec 0 (tRangeEnd t)); simpl.
  - destruct (Z.gtb_spec (tFrontier t + chunk) (tRangeEnd t)) as [Hg|Hg].
    + rewrite Z.min_r by lia. destruct (Z.gtb_spec (tRangeEnd t) (tGranted t)).
      * by rewrite Z.max_r by lia.
      * symmetry. apply Hsame. lia.
    + rewrite Z.min_l by lia. destruct (Z.gtb_spec (tFrontier t + chunk) (tGranted t)).
      * by rewrite Z.max_r by lia.
      * symmetry. apply Hsame. lia.
  - destruct (Z.gtb_spec (tFrontier t + chunk) (tGranted t)).
    + by rewrite Z.max_r by lia.
    + symmetry. apply Hsame. lia.
Qed.

Lemma grantLocked_pre chunk t :
  lease_pre t → 0 < chunk ≤ items_max → lease_ok (grantLocked chunk t).
Proof.
  intros [H1 H2 H3 H4 H5] Hc. rewrite grantLocked_spec by (done || lia).
  split; simpl; try done; destruct (Z.leb_spec 0 (tRangeEnd t)); lia.
Qed.

Lemma grantLocked_ok chunk t :
  lease_ok t → 0 < chunk ≤ items_max → lease_ok (grantLocked chunk t).
Proof. intros Hl%lease_ok_pre. by apply grantLocked_pre. Qed.

(** What an honest renewal looks like: offsets in range, and a total, where
    it fixes the end of the task, that covers what was already granted. *)
Definition renew_honest (req : RenewLeaseRequest) (t : Task) : Prop :=
  rlFrontier req ≤ items_max ∧ rlTotal req ≤ items_max ∧
  (tRangeEnd t < 0 → 0 < rlTotal req → tGranted t ≤ rlTotal req).

(** The end and the frontier of a task after a renewal. *)
Definition renewed_end (req : RenewLeaseRequest) (t : Task) : Z :=
  if (tRangeEnd t <? 0) && (rlTotal req >? 0) then rlTotal req else tRangeEnd t.
Definition renewed_frontier (req : RenewLeaseRequest) (t : Task) : Z :=
  let f := Z.max (tFrontier t) (rlFrontier req) in
  if 0 <=? renewed_end req t then Z.min f (renewed_end req t) else f.

(** Capping the frontier at a known end. *)
Lemma cap_frontier t f :
  tFrontier t = f →
  (if (0 <=? tRangeEnd t) && (tFrontier t >? tRangeEnd t) then t <| tFrontier := tRangeEnd t |> else t)
  = t <| tFrontier := if 0 <=? tRangeEnd t then Z.min f (tRangeEnd t) else f |>.
Proof.
  intros <-. destruct t; simpl. destruct (Z.leb_spec 0 tRangeEnd); simpl; [|done].
  destruct (Z.gtb_spec tFrontier tRangeEnd); simpl; [by rewrite Z.min_r by lia|by rewrite Z.min_l by lia].
Qed.

Lemma renew_task_alt chunk req t :
  renew_task chunk req t
  = grantLocked chunk (t <| tRangeEnd := renewed_end req t |> <| tFrontier := renewed_frontier req t |>).
Proof.
  unfold renew_task. f_equal.
  set (t1 := if _ && _ then _ else t).
  assert (t1 = t <| tRangeEnd := renewed_end req t |>) as E1.
  { unfold t1, renewed_end. destruct (_ && _); [done|by destruct t]. }
  set (t2 := if rlFrontier req >? _ then _ else t1).
  assert (t2 = t1 <| tFrontier := Z.max (tFrontier t) (rlFrontier req) |>) as E2.
  { unfold t2. rewrite E1. simpl. destruct (Z.gtb_spec (rlFrontier req) (tFrontier t)).
    - by rewrite Z.max_r by lia.
    - rewrite Z.max_l by lia. by destruct t. }
  rewrite (cap_frontier t2 (Z.max (tFrontier t) (rlFrontier req))) by (by rewrite E2).
  rewrite E2, E1. unfold renewed_frontier. done.
Qed.

Lemma renew_pre req t :
  lease_ok t → renew_honest req t →
  lease_pre (t <| tRangeEnd := renewed_end req t |> <| tFrontier := renewed_frontier req t |>).
Proof.
  intros [H1 H2 H3 H4 H5 H6] (Hf & Ht & Htot). unfold renewed_frontier.
  assert (renewed_end req t = tRangeEnd t ∨
    tRangeEnd t < 0 ∧ 0 < rlTotal req ∧ renewed_end req t = rlTotal req) as He.
  { unfold renewed_end. destruct (Z.ltb_spec (tRangeEnd t) 0), (Z.gtb_spec (rlTotal req) 0); simpl; auto. }
  split; simpl; destruct (Z.leb_spec 0 (renewed_end req t)); lia.
Qed.

Lemma renew_task_ok chunk req t :
  lease_ok t → 0 < chunk ≤ items_max → renew_honest req t → lease_ok (renew_task chunk req t).
Proof.
  intros Hl Hc Hr. rewrite renew_task_alt. apply grantLocked_pre; [by apply renew_pre|done].
Qed.

(** [grantLocked] moves the bound only. *)
Lemma grantLocked_fields chunk t :
  ∃ g, grantLocked chunk t = t <| tGranted := g |> ∧ tGranted t ≤ g.
Proof.
  unfold grantLocked. case_match; [|exists (tGranted t); split; [by destruct t|lia]].
  bool_to_prop. eexists. split; [done|lia].
Qed.

#[export] Hint Resolve grantLocked_ok resetLease_ok persistLocked_ok updateJob_ok call_hook_ok : dip.

Lemma retries_requeue t :
  retries_ok t → tRetries t < tMaxRetries t → retries_ok (requeue t).
Proof. unfold retries_ok. simpl. lia. Qed.

Lemma requeue_lease t : lease_ok t → lease_ok (requeue t).
Proof. intros [? ? ? ? ? ?]. split; simpl; lia. Qed.

#[export] Hint Resolve retries_requeue requeue_lease : dip.

(** ** New tasks *)

(** Adding one task, already assigned, to a job that exists. *)
Lemma new_task_ok s id t :
  sched_ok s → tasks s !! id = None → tID t = id → is_Some (jobs s !! tJobID t) →
  lease_ok t → retries_ok t → tStatus t ≠ TaskPending →
  sched_ok (bump_total (tJobID t) (put_task id t s)).
Proof.
  intros [H1 H2 H3 H4 H5 H6 H7 H8 H9] Hn Hid [j Hj] Hl Hr Hst.
  unfold bump_total. simpl. rewrite Hj. split; simpl.
  - intros x u Hu. lookup_cases Hu; [done|by apply H1].
  - intros x u Hu. lookup_cases Hu; [simpl; by apply H2|by apply H2].
  - intros x u Hu. rewrite lookup_insert. case_decide; [done|].
    lookup_cases Hu. by apply (H3 x).
  - intros x u Hu. lookup_cases Hu; [done|by apply (H4 x)].
  - intros x u Hu. lookup_cases Hu; [done|by apply (H5 x)].
  - intros x Hx. rewrite lookup_insert. case_decide; [done|by apply H6].
  - intros x u Hu Hp. lookup_cases Hu. by apply (H7 x u).
  - intros x k Hk.
    change (jTotalTasks k = Z.of_nat (job_count x (put_task id t s))). rewrite job_count_new by done.
    lookup_cases Hk.
    + simpl. rewrite (H8 _ _ Hj). lia.
    + rewrite (H8 _ _ Hk). lia.
  - done.
Qed.

(** ** Submission *)

(** The tasks a submission creates. *)
Definition fresh_task (job : Job) (s : Scheduler) (shard tid : string) : Task :=
  MkTask tid (jID job) shard EmptyString TaskPending (jPriority job) 0 (maxRetries s)
    None None None EmptyString 0 (-1) 0 0 0 false.

Lemma fresh_lease job s shard tid : lease_ok (fresh_task job s shard tid).
Proof. split; simpl; unfold items_max; lia. Qed.

Lemma fresh_retries job s shard tid : retries_ok (fresh_task job s shard tid).
Proof. unfold retries_ok. simpl. lia. Qed.

(** The invariant without the count of the job being submitted, which is set
    up front: [n] of its tasks are still to come. *)
Record submitting (jid : string) (n : nat) (s : Scheduler) : Prop := {
  sub_task_id : ∀ id t, tasks s !! id = Some t → tID t = id;
  sub_job_id : ∀ id j, jobs s !! id = Some j → jID j = id;
  sub_task_job : ∀ id t, tasks s !! id = Some t → is_Some (jobs s !! tJobID t);
  sub_lease : ∀ id t, tasks s !! id = Some t → lease_ok t;
  sub_retries : ∀ id t, tasks s !! id = Some t → retries_ok t;
  sub_queue : ∀ id, id ∈ pendingQ s → is_Some (tasks s !! id);
  sub_pending : ∀ id t, tasks s !! id = Some t → tStatus t = TaskPending → id ∈ pendingQ s;
  sub_total : ∀ id j, jobs s !! id = Some j →
    jTotalTasks j = Z.of_nat (job_count id s + if decide (id = jid) then n else 0);
  sub_chunk : 0 < leaseChunk s ≤ items_max;
}.

Lemma submitting_done jid s : submitting jid 0 s → sched_ok s.
Proof.
  intros [? ? ? ? ? ? ? Ht ?]. split; try done. intros id j Hj. rewrite (Ht _ _ Hj).
  case_decide; lia.
Qed.

Lemma submit_task_ok job n s shard tid :
  submitting (jID job) (S n) s → tasks s !! tid = None → is_Some (jobs s !! jID job) →
  submitting (jID job) n (submit_task job s (shard, tid)).
Proof.
  intros [H1 H2 H3 H4 H5 H6 H7 H8 H9] Hn Hj.
  change (submit_task job s (shard, tid))
    with (put_task tid (fresh_task job s shard tid) s <| pendingQ := pendingQ s ++ [tid] |>).
  split; simpl.
  - intros x u Hu. lookup_cases Hu; [done|by apply H1].
  - done.
  - intros x u Hu. lookup_cases Hu; [done|by apply (H3 x)].
  - intros x u Hu. lookup_cases Hu; [apply fresh_lease|by apply (H4 x)].
  - intros x u Hu. lookup_cases Hu; [apply fresh_retries|by apply (H5 x)].
  - intros x [Hx| ->%list_elem_of_singleton]%elem_of_app; rewrite lookup_insert; case_decide;
      [done|by apply H6|done|done].
  - intros x u Hu Hp. apply elem_of_app. lookup_cases Hu; [right; set_solver|left; by apply (H7 x u)].
  - intros x k Hk.
    change (jTotalTasks k = Z.of_nat (job_count x (put_task tid (fresh_task job s shard tid) s)
      + if decide (x = jID job) then n else 0)).
    rewrite job_count_new, (H8 _ _ Hk) by done. simpl.
    destruct (decide (x = jID job)) as [->|]; [rewrite decide_True by done|rewrite decide_False by done]; lia.
  - done.
Qed.

Lemma submit_task_fields job s p :
  jobs (submit_task job s p) = jobs s ∧
  ∀ id, id ≠ p.2 → tasks (submit_task job s p) !! id = tasks s !! id.
Proof. destruct p as [shard tid]. split; [done|]. intros id Hid. simpl in *. by rewrite lookup_insert_ne. Qed.

Lemma submit_loop_ok job ps s :
  submitting (jID job) (length ps) s → NoDup ps.*2 →
  (∀ p, p ∈ ps → tasks s !! p.2 = None) → is_Some (jobs s !! jID job) →
  submitting (jID job) 0 (foldl (submit_task job) s ps) ∧
  jobs (foldl (submit_task job) s ps) = jobs s.
Proof.
  revert s. induction ps as [|p ps IH]; intros s Hs Hnd Hfresh Hj; [done|].
  rewrite fmap_cons in Hnd. apply NoDup_cons in Hnd as [Hp Hnd]. simpl.
  destruct (submit_task_fields job s p) as [Ej Et].
  destruct (IH (submit_task job s p)) as [IH1 IH2].
  - destruct p as [shard tid]. apply submit_task_ok; [done|apply (Hfresh (shard, tid)); set_solver|done].
  - done.
  - intros p' Hp'. rewrite Et; [apply Hfresh; set_solver|].
    intros Heq. apply Hp. rewrite <- Heq. by apply list_elem_of_fmap_2.
  - by rewrite Ej.
  - split; [done|congruence].
Qed.

(** What [Submit] needs of [uuid.New]: identifiers not in use. *)
Definition submit_fresh (jid : string) (tids : list string) (req : SubmitJobRequest) (s : Scheduler) : Prop :=
  jobs s !! jid = None ∧ NoDup tids ∧ length tids = length (submit_shards req) ∧
  ∀ tid, tid ∈ tids → tasks s !! tid = None.

Lemma job_count_unknown s jid : sched_ok s → jobs s !! jid = None → job_count jid s = 0%nat.
Proof.
  intros Hs Hj. unfold job_count. apply map_size_empty_iff, map_empty. intros id.
  apply map_lookup_filter_None. right. intros t Ht Heq. simpl in Heq.
  destruct (ok_task_job _ Hs id t Ht) as [j Hj']. congruence.
Qed.

Lemma submit_init_ok created jid req s :
  sched_ok s → jobs s !! jid = None →
  submitting jid (length (submit_shards req))
    (s <| jobs := <[jid := new_job created jid req]> (jobs s) |>).
Proof.
  intros Hs Hj. pose proof (job_count_unknown s jid Hs Hj) as Hc.
  destruct Hs as [H1 H2 H3 H4 H5 H6 H7 H8 H9]. split; simpl; try done.
  - intros x k Hk. lookup_cases Hk; [done|by apply H2].
  - intros x u Hu. rewrite lookup_insert. case_decide; [done|by apply (H3 x)].
  - intros x k Hk.
    change (jTotalTasks k = Z.of_nat (job_count x s + if decide (x = jid) then length (submit_shards req) else 0)).
    lookup_cases Hk; [rewrite Hc, decide_True by done; done|].
    rewrite (H8 _ _ Hk), decide_False by done. lia.
Qed.

Lemma Submit_ok created now jid tids req s :
  sched_ok s → submit_fresh jid tids req s → sched_ok (Submit created now jid tids req s).2.
Proof.
  intros Hs (Hj & Hnd & Hlen & Hfresh). unfold Submit. set (job := new_job created jid req).
  set (s1 := s <| jobs := <[jid := job]> (jobs s) |>).
  destruct (submit_loop_ok job (zip (submit_shards req) tids) s1) as [Hok Ejobs].
  - rewrite length_zip, Hlen, Nat.min_id. by apply submit_init_ok.
  - rewrite snd_zip by lia. done.
  - intros [sh tid] Hp. apply Hfresh. by apply elem_of_zip_r in Hp.
  - simpl. rewrite lookup_insert_eq. by eexists.
  - cbn [snd]. apply persistLocked_ok.
    apply (put_job_ok _ jid job); [by eapply submitting_done| |done|done].
    rewrite Ejobs. simpl. by rewrite lookup_insert_eq.
Qed.

(** ** Dispatch and stealing *)

Definition assigned (now : Z) (w : string) (chunk : Z) (t : Task) : Task :=
  grantLocked chunk (t <| tStatus := TaskAssigned |> <| tWorkerID := w |> <| tAssignedAt := Some now |>).

Lemma lease_ok_fields t t' :
  tRangeStart t' = tRangeStart t → tRangeEnd t' = tRangeEnd t → tFrontier t' = tFrontier t →
  tGranted t' = tGranted t → tGeneration t' = tGeneration t → lease_ok t → lease_ok t'.
Proof. intros E1 E2 E3 E4 E5 []. split; rewrite ?E1, ?E2, ?E3, ?E4, ?E5; done. Qed.

Lemma grantLocked_keeps chunk t :
  tID (grantLocked chunk t) = tID t ∧ tJobID (grantLocked chunk t) = tJobID t ∧
  tShard (grantLocked chunk t) = tShard t ∧ tStatus (grantLocked chunk t) = tStatus t ∧
  tWorkerID (grantLocked chunk t) = tWorkerID t ∧ tRangeStart (grantLocked chunk t) = tRangeStart t ∧
  tRangeEnd (grantLocked chunk t) = tRangeEnd t ∧ tFrontier (grantLocked chunk t) = tFrontier t ∧
  tRetries (grantLocked chunk t) = tRetries t ∧ tMaxRetries (grantLocked chunk t) = tMaxRetries t ∧
  tGeneration (grantLocked chunk t) = tGeneration t ∧ tSplit (grantLocked chunk t) = tSplit t ∧
  tPriority (grantLocked chunk t) = tPriority t.
Proof. destruct (grantLocked_fields chunk t) as [g [-> _]]. by split_and!. Qed.

Lemma retries_ok_fields t t' :
  tRetries t' = tRetries t → tMaxRetries t' = tMaxRetries t → retries_ok t → retries_ok t'.
Proof. unfold retries_ok. by intros -> ->. Qed.

Lemma assigned_lease now w chunk t :
  lease_ok t → 0 < chunk ≤ items_max → lease_ok (assigned now w chunk t).
Proof. intros Hl Hc. apply grantLocked_ok; [by apply (lease_ok_fields t)|done]. Qed.

Lemma assigned_fields now w chunk t :
  ∃ g, assigned now w chunk t = t <| tStatus := TaskAssigned |> <| tWorkerID := w |>
         <| tAssignedAt := Some now |> <| tGranted := g |> ∧ tGranted t ≤ g.
Proof.
  unfold assigned. destruct (grantLocked_fields chunk (t <| tStatus := TaskAssigned |>
    <| tWorkerID := w |> <| tAssignedAt := Some now |>)) as (g & -> & Hg). by exists g.
Qed.

(** The fields an assignment leaves alone. *)
Ltac by_assigned :=
  match goal with
  | |- context [assigned ?now ?w ?c ?t] =>
      let g := fresh in destruct (assigned_fields now w c t) as [g [-> _]]; done
  end.

Lemma assigned_retries now w chunk t : retries_ok t → retries_ok (assigned now w chunk t).
Proof. by_assigned. Qed.
Lemma assigned_status now w chunk t : tStatus (assigned now w chunk t) = TaskAssigned.
Proof. by_assigned. Qed.
Lemma assigned_job now w chunk t : tJobID (assigned now w chunk t) = tJobID t.
Proof. by_assigned. Qed.
Lemma assigned_id now w chunk t : tID (assigned now w chunk t) = tID t.
Proof. by_assigned. Qed.

Lemma assignLocked_state now id t w s :
  (assignLocked now id t w s).2 = put_task id (assigned now w (leaseChunk s) t) s.
Proof. done. Qed.

#[export] Hint Resolve assigned_lease assigned_retries assigned_status : dip.

(** What a task has left to steal. *)
Definition tail (t : Task) : Z := tRangeEnd t - tGranted t.
Definition stealable (t : Task) : Prop := in_flight t = true ∧ 0 ≤ tRangeEnd t.

Lemma tail_wrap t : lease_ok t → 0 ≤ tRangeEnd t → wrap64 (tRangeEnd t - tGranted t) = tail t.
Proof.
  intros [? ? ? _ Hk _] Hend. specialize (Hk Hend). unfold tail, items_max in *.
  apply wrap64_id. unfold max_int64. lia.
Qed.

(** The victim search finds the longest tail among the tasks it visits. *)
Lemma steal_scan_spec s order :
  sched_ok s →
  let '(v, best) := foldl (steal_scan s) (None, 0) order in
  (∀ id t, id ∈ order → tasks s !! id = Some t → stealable t → tail t ≤ best) ∧
  match v with
  | None => best = 0
  | Some id => id ∈ order ∧ ∃ t, tasks s !! id = Some t ∧ stealable t ∧ tail t = best ∧ 0 < best
  end.
Proof.
  intros Hs. induction order as [|x order IH] using rev_ind; [set_solver|].
  rewrite foldl_app. simpl. destruct (foldl (steal_scan s) (None, 0) order) as [v best].
  destruct IH as [IHmax IHv]. unfold steal_scan.
  assert (∀ t, tasks s !! x = Some t → stealable t → wrap64 (tRangeEnd t - tGranted t) = tail t) as Hw.
  { intros t Ht [_ He]. apply tail_wrap; [by eapply ok_lease|done]. }
  assert (0 ≤ best) as Hb by (destruct v as [?|]; simpl in IHv; [destruct IHv as (_ & ? & _ & _ & _ & ?)|]; lia).
  assert (∀ best', best ≤ best' → (∀ t, tasks s !! x = Some t → stealable t → tail t ≤ best') →
    ∀ id t, id ∈ order ++ [x] → tasks s !! id = Some t → stealable t → tail t ≤ best') as Hext.
  { intros best' Hle Hx id t [Hin| ->%list_elem_of_singleton]%elem_of_app Ht Hst; [|by apply Hx].
    etrans; [by eapply IHmax|done]. }
  assert (match v with None => best = 0 | Some id => id ∈ order ++ [x] ∧
    ∃ t, tasks s !! id = Some t ∧ stealable t ∧ tail t = best ∧ 0 < best end) as Hv.
  { destruct v; [|done]. split; [set_solver|apply IHv]. }
  destruct (tasks s !! x) as [t|] eqn:Ht; [|split; [apply Hext; [done|congruence]|done]].
  destruct (in_flight t) eqn:Hf; simpl;
    [|split; [apply Hext; [done|]|done]; intros ? [= <-] [? _]; congruence].
  destruct (Z.ltb_spec (tRangeEnd t) 0);
    [split; [apply Hext; [done|]|done]; intros ? [= <-] [_ ?]; lia|].
  rewrite Hw by done. destruct (Z.gtb_spec (tail t) best).
  - split; [apply Hext; [lia|]; intros ? [= <-] _; lia|]. split; [set_solver|].
    exists t. split_and!; done || lia.
  - split; [apply Hext; [done|]; intros ? [= <-] _; lia|done].
Qed.

(** Everything [stealLocked] does, with and without a victim. *)
Lemma stealLocked_spec order newID s :
  sched_ok s →
  (stealLocked order newID s = (None, s) ∧
   ∀ id t, id ∈ order → tasks s !! id = Some t → stealable t → tail t < minStealItems) ∨
  ∃ vid t split, vid ∈ order ∧ tasks s !! vid = Some t ∧ stealable t ∧ minStealItems ≤ tail t ∧
    split = tGranted t + tail t / 2 ∧ tGranted t < split < tRangeEnd t ∧
    (∀ id u, id ∈ order → tasks s !! id = Some u → stealable u → tail u ≤ tail t) ∧
    stealLocked order newID s =
      (Some (stolen_task newID t split),
       bump_total (tJobID t) (put_task newID (stolen_task newID t split)
         (put_task vid (shrunk_victim t split) s))).
Proof.
  intros Hs. pose proof (steal_scan_spec s order Hs) as H. unfold stealLocked.
  destruct (foldl (steal_scan s) (None, 0) order) as [[vid|] best]; [|].
  2:{ destruct H as [Hmax ->]. left. split; [done|]. intros id t Hin Ht Hst.
      specialize (Hmax id t Hin Ht Hst). unfold minStealItems. lia. }
  destruct H as (Hmax & Hin & t & Ht & Hst & Htail & Hpos). rewrite Ht.
  destruct (Z.ltb_spec best minStealItems) as [Hlt|Hge].
  { left. split; [done|]. intros id u Hu Hlu Hsu. specialize (Hmax id u Hu Hlu Hsu). lia. }
  assert (split_point t best = tGranted t + tail t / 2) as Hsp.
  { unfold split_point. rewrite <- Htail. apply wrap64_id.
    destruct (ok_lease _ Hs vid t Ht) as [? ? ? ? ? ?]. destruct Hst. unfold tail, items_max, max_int64 in *.
    pose proof (Z.div_le_upper_bound (tRangeEnd t - tGranted t) 2 (2 ^ 61)).
    pose proof (Z.div_pos (tRangeEnd t - tGranted t) 2). lia. }
  assert (tGranted t < split_point t best < tRangeEnd t) as Hbetween.
  { rewrite Hsp. unfold minStealItems in *. subst best. unfold tail in *.
    pose proof (Z.div_str_pos (tRangeEnd t - tGranted t) 2).
    pose proof (Z.div_lt (tRangeEnd t - tGranted t) 2). lia. }
  right. exists vid, t, (split_point t best).
  destruct (Z.leb_spec (split_point t best) (tGranted t)); [lia|].
  destruct (Z.leb_spec (tRangeEnd t) (split_point t best)); [lia|]. simpl.
  split_and!; try done || lia. intros id u Hu Hlu Hsu. rewrite Htail. by eapply Hmax.
Qed.

(** Both halves of a split satisfy the lease invariant. *)
Lemma split_leases t split newID :
  lease_ok t → 0 ≤ tRangeEnd t → tGranted t < split < tRangeEnd t →
  lease_ok (shrunk_victim t split) ∧ lease_ok (stolen_task newID t split).
Proof.
  intros [? ? ? ? ? ?] ? ?.
  assert (wrap64 (tGeneration t + 1) = tGeneration t + 1) as Hg
    by (apply wrap64_id; unfold items_max, max_int64 in *; lia).
  split; split; simpl; rewrite ?Hg; unfold items_max in *; lia.
Qed.

(** ** The choice of a pending task *)

Section poll.
Context {R} `{ShardOwner R} (r : R) (s : Scheduler) (w : string).

(** [tid] names a task that can be dispatched. *)
Definition pollable (tid : string) (t : Task) : Prop :=
  tasks s !! tid = Some t ∧ tStatus t = TaskPending.

Definition owned (t : Task) : Prop := owner_of r (tShard t) = w.

(** The state of the scan after the prefix [pre] of the queue. *)
Definition scan_inv (pre : list string) (fb : option nat) (pri : Z) : Prop :=
  (∀ j tid t, pre !! j = Some tid → pollable tid t → ¬ owned t) ∧
  match fb with
  | None => ∀ j tid t, pre !! j = Some tid → ¬ pollable tid t
  | Some k => ∃ tid t, pre !! k = Some tid ∧ pollable tid t ∧ tPriority t = pri ∧
      ∀ j tid' t', pre !! j = Some tid' → pollable tid' t' →
        tPriority t' ≤ pri ∧ (tPriority t' = pri → (k ≤ j)%nat)
  end.

(** The task at index [k] is the one to hand to [w]: the first it owns, or
    else the first of those of the highest priority. *)
Definition poll_best (q : list string) (k : nat) : Prop :=
  ∃ tid t, q !! k = Some tid ∧ pollable tid t ∧
    ((owned t ∧ ∀ j tid' t', (j < k)%nat → q !! j = Some tid' → pollable tid' t' → ¬ owned t') ∨
     ((∀ j tid' t', q !! j = Some tid' → pollable tid' t' → ¬ owned t') ∧
      ∀ j tid' t', q !! j = Some tid' → pollable tid' t' →
        tPriority t' ≤ tPriority t ∧ (tPriority t' = tPriority t → (k ≤ j)%nat))).

Lemma scan_inv_skip pre tid fb pri :
  (∀ t, ¬ pollable tid t) → scan_inv pre fb pri → scan_inv (pre ++ [tid]) fb pri.
Proof.
  intros Hno [H1 H2].
  assert (∀ j x t, (pre ++ [tid]) !! j = Some x → pollable x t → pre !! j = Some x) as Hpre.
  { intros j x t [Hj|[? Hj]]%lookup_app_Some Hp; [done|].
    apply list_lookup_singleton_Some in Hj as [? <-]. by apply Hno in Hp. }
  split; [intros j x t Hj Hp; apply (H1 j x t); eauto|].
  destruct fb as [k|].
  - destruct H2 as (x & t & Hk & Hp & Hpri & Hmax). exists x, t.
    split_and!; [by apply lookup_app_l_Some|done|done|]. intros j y u Hj Hu. by apply (Hmax j y u); eauto.
  - intros j x t Hj Hp. by apply (H2 j x t); eauto.
Qed.

Lemma scan_inv_here pre tid t fb pri :
  pollable tid t → ¬ owned t → scan_inv pre fb pri →
  (fb = None ∨ tPriority t > pri → scan_inv (pre ++ [tid]) (Some (length pre)) (tPriority t)) ∧
  (¬ (fb = None ∨ tPriority t > pri) → scan_inv (pre ++ [tid]) fb pri).
Proof.
  intros Hp Ho [H1 H2].
  assert (∀ j x u, (pre ++ [tid]) !! j = Some x → pollable x u →
    (pre !! j = Some x) ∨ (j = length pre ∧ u = t)) as Hpre.
  { intros j x u [Hj|[? Hj]]%lookup_app_Some Hu; [by left|right].
    apply list_lookup_singleton_Some in Hj as [? <-]. destruct Hu, Hp. split; [lia|congruence]. }
  assert (∀ j x u, (pre ++ [tid]) !! j = Some x → pollable x u → ¬ owned u) as Hno.
  { intros j x u Hj Hu. destruct (Hpre j x u Hj Hu) as [Hj'|[_ ->]]; [by eapply H1|done]. }
  split; intros Hc; (split; [done|]).
  - exists tid, t. split_and!; [by rewrite list_lookup_middle|done|done|].
    intros j x u Hj Hu. destruct (Hpre j x u Hj Hu) as [Hj'|[-> ->]]; [|lia].
    destruct fb as [k|]; [|by destruct (H2 j x u)].
    destruct H2 as (y & v & _ & _ & Hpri & Hmax), Hc as [?|?]; [done|].
    destruct (Hmax j x u Hj' Hu). lia.
  - destruct fb as [k|]; [|by destruct Hc; left].
    destruct H2 as (y & v & Hk & Hv & Hpri & Hmax). exists y, v.
    split_and!; [by apply lookup_app_l_Some|done|done|]. intros j x u Hj Hu.
    destruct (Hpre j x u Hj Hu) as [Hj'|[-> ->]]; [by apply (Hmax j x u)|].
    apply lookup_lt_Some in Hk. split; lia.
Qed.

Lemma poll_scan_spec q pre fb pri :
  scan_inv pre fb pri →
  match poll_scan r s w q (length pre) fb pri with
  | (Some k, _) => poll_best (pre ++ q) k
  | (None, Some k) => poll_best (pre ++ q) k
  | (None, None) => ∀ tid t, tid ∈ pre ++ q → ¬ pollable tid t
  end.
Proof.
  revert pre fb pri. induction q as [|x q IH]; intros pre fb pri Hinv; simpl.
  { destruct Hinv as [H1 H2]. rewrite app_nil_r. destruct fb as [k|].
    - destruct H2 as (tid & t & Hk & Hp & <- & Hmax). exists tid, t. split_and!; [done..|].
      right. split; [done|]. apply Hmax.
    - intros tid t [j Hj]%list_elem_of_lookup. by apply (H2 j). }
  assert (∀ fb' pri', scan_inv (pre ++ [x]) fb' pri' →
    match poll_scan r s w q (S (length pre)) fb' pri' with
    | (Some k, _) => poll_best (pre ++ x :: q) k
    | (None, Some k) => poll_best (pre ++ x :: q) k
    | (None, None) => ∀ tid t, tid ∈ pre ++ x :: q → ¬ pollable tid t
    end) as Hrec.
  { intros fb' pri' Hi. specialize (IH _ _ _ Hi).
    rewrite length_app, Nat.add_1_r, <- (assoc_L (++)) in IH. exact IH. }
  destruct (tasks s !! x) as [t|] eqn:Ht;
    [|apply Hrec, scan_inv_skip; [intros u [? _]; congruence|done]].
  case_bool_decide as Hst;
    [apply Hrec, scan_inv_skip; [intros u [? ?]; congruence|done]|].
  assert (pollable x t) as Hp by done.
  case_bool_decide as Hown.
  - exists x, t. split_and!; [by rewrite list_lookup_middle|done|]. left. split; [done|].
    intros j y u Hj Hy. apply (proj1 Hinv j y). by rewrite lookup_app_l in Hy.
  - destruct (scan_inv_here pre x t fb pri Hp Hown Hinv) as [Hyes Hno].
    case_bool_decide as Hfb; simpl; [by apply Hrec, Hyes; left|].
    destruct (Z.gtb_spec (tPriority t) pri); apply Hrec; [apply Hyes; lia|].
    apply Hno. intros [?|?]; [done|lia].
Qed.

Lemma poll_index_spec :
  match poll_index r s w with
  | Some k => poll_best (pendingQ s) k
  | None => ∀ tid t, tid ∈ pendingQ s → ¬ pollable tid t
  end.
Proof.
  unfold poll_index. pose proof (poll_scan_spec (pendingQ s) [] None 0) as Hs.
  destruct (poll_scan r s w (pendingQ s) 0 None 0) as [[k|] [k'|]] eqn:E; simpl in Hs;
    rewrite E in Hs; apply Hs; (split; [intros j tid t Hj|intros j tid t Hj]); by rewrite lookup_nil in Hj.
Qed.
End poll.

(** ** [PollTasks] *)

Definition assignment_of (j : Job) (t : Task) : TaskAssignment :=
  MkAssignment (tID t) (tJobID t) (tShard t) (jDataset j) (jAlgorithm j) (jConfig j)
    (tRangeStart t) (tRangeEnd t) (tGranted t) (tGeneration t) (tSplit t).

(** The states a poll leads to: a queued task assigned, half of a running
    task's tail split off and assigned, or nothing. *)
Inductive poll_outcome {R} `{ShardOwner R} (r : R) (now : Z) (order : list string) (newID w : string)
    (s : Scheduler) : option TaskAssignment → Scheduler → Prop :=
| PollQueued k tid t j :
    poll_index r s w = Some k → pendingQ s !! k = Some tid → tasks s !! tid = Some t →
    tStatus t = TaskPending → jobs s !! tJobID t = Some j →
    poll_outcome r now order newID w s
      (Some (assignment_of j (assigned now w (leaseChunk s) t)))
      (persistLocked (put_task tid (assigned now w (leaseChunk s) t)
         (s <| pendingQ := remove_at k (pendingQ s) |>)))
| PollStolen vid t j split :
    poll_index r s w = None → vid ∈ order → tasks s !! vid = Some t → stealable t →
    minStealItems ≤ tail t → split = tGranted t + tail t / 2 → tGranted t < split < tRangeEnd t →
    (∀ id u, id ∈ order → tasks s !! id = Some u → stealable u → tail u ≤ tail t) →
    jobs s !! tJobID t = Some j →
    poll_outcome r now order newID w s
      (Some (assignment_of j (assigned now w (leaseChunk s) (stolen_task newID t split))))
      (persistLocked (bump_total (tJobID t)
         (put_task newID (assigned now w (leaseChunk s) (stolen_task newID t split))
           (put_task vid (shrunk_victim t split) s))))
| PollNone :
    poll_index r s w = None →
    (∀ id t, id ∈ order → tasks s !! id = Some t → stealable t → tail t < minStealItems) →
    poll_outcome r now order newID w s None s.

Lemma put_put id t t' s : put_task id t' (put_task id t s) = put_task id t' s.
Proof. unfold put_task. destruct s. unfold field_update. simpl. by rewrite insert_insert_eq. Qed.

Lemma put_bump id t jid s : put_task id t (bump_total jid s) = bump_total jid (put_task id t s).
Proof. unfold bump_total, put_task. simpl. by destruct (jobs s !! jid). Qed.

Lemma bump_jobs jid s j :
  jobs s !! jid = Some j → jobs (bump_total jid s) !! jid = Some (j <| jTotalTasks := jTotalTasks j + 1 |>).
Proof. unfold bump_total. intros ->. simpl. by rewrite lookup_insert_eq. Qed.

Lemma assignLocked_eq now id t w s j :
  jobs s !! tJobID t = Some j →
  assignLocked now id t w s =
    (Some (assignment_of j (assigned now w (leaseChunk s) t)), put_task id (assigned now w (leaseChunk s) t) s).
Proof.
  intros Hj. unfold assignLocked. cbv zeta. fold (assigned now w (leaseChunk s) t). unfold assignmentFor.
  rewrite assigned_job. change (jobs (put_task id _ s)) with (jobs s). rewrite Hj.
  unfold assignment_of. by rewrite assigned_job.
Qed.

Lemma dispatch_eq now w id t s j :
  jobs s !! tJobID t = Some j →
  dispatch now w id t s =
    (Ok (Some (assignment_of j (assigned now w (leaseChunk s) t))),
     persistLocked (put_task id (assigned now w (leaseChunk s) t) s)).
Proof. intros Hj. unfold dispatch. by rewrite (assignLocked_eq _ _ _ _ _ j). Qed.

#[local] Arguments dispatch : simpl never.

Lemma PollTasks_outcome {R} `{ShardOwner R} (r : R) now order newID w s :
  sched_ok s →
  ∃ a, (PollTasks r now order newID w s).1 = Ok a ∧
       poll_outcome r now order newID w s a (PollTasks r now order newID w s).2.
Proof.
  intros Hs. unfold PollTasks. pose proof (poll_index_spec r s w) as Hidx.
  destruct (poll_index r s w) as [k|] eqn:Hk.
  - destruct Hidx as (tid & t & Hq & [Ht Hst] & _). rewrite Hq. simpl. rewrite Ht.
    destruct (ok_task_job _ Hs tid t Ht) as [j Hj]. rewrite (dispatch_eq _ _ _ _ _ j) by done.
    eexists. split; [done|]. by apply (PollQueued r now order newID w s k tid t j).
  - destruct (stealLocked_spec order newID s Hs) as [[-> Hno]|Hsteal].
    + exists None. split; [done|]. by constructor.
    + destruct Hsteal as (vid & t & split & Hin & Ht & Hst & Hge & Hsp & Hbt & Hmax & ->).
      destruct (ok_task_job _ Hs vid t Ht) as [j Hj].
      rewrite (dispatch_eq _ _ _ _ _ (j <| jTotalTasks := jTotalTasks j + 1 |>)) by (by apply bump_jobs).
      eexists. split; [done|].
      assert (leaseChunk (bump_total (tJobID t) (put_task newID (stolen_task newID t split)
        (put_task vid (shrunk_victim t split) s))) = leaseChunk s) as Hc.
      { unfold bump_total. by destruct (jobs _ !! _). }
      simpl. rewrite Hc, put_bump, put_put.
      by apply (PollStolen r now order newID w s vid t j split).
Qed.

Lemma victim_ok s vid t split :
  sched_ok s → tasks s !! vid = Some t → 0 ≤ tRangeEnd t → tGranted t < split < tRangeEnd t →
  sched_ok (put_task vid (shrunk_victim t split) s).
Proof.
  intros Hs Ht He Hb. apply (put_task_ok' s vid t); try done.
  - apply (split_leases t split EmptyString); [by eapply ok_lease|done|done].
  - apply (ok_retries _ Hs vid t Ht).
Qed.

Lemma queued_ok s k tid t t' :
  sched_ok s → pendingQ s !! k = Some tid → tasks s !! tid = Some t →
  tID t' = tID t → tJobID t' = tJobID t → lease_ok t' → retries_ok t' → tStatus t' ≠ TaskPending →
  sched_ok (put_task tid t' (s <| pendingQ := remove_at k (pendingQ s) |>)).
Proof.
  intros Hs Hq Ht Hid Hj Hl Hr Hst.
  apply (put_task_ok s tid t t' (remove_at k (pendingQ s))); try done.
  - intros x Hx%remove_at_elem_of. by apply (ok_queue _ Hs).
  - intros x u Hu Hne Hp. pose proof (ok_pending _ Hs x u Hu Hp) as Hin.
    by destruct (elem_of_remove_at k _ _ _ Hq Hin).
Qed.

Lemma PollTasks_ok {R} `{ShardOwner R} (r : R) now order newID w s :
  sched_ok s → tasks s !! newID = None → sched_ok (PollTasks r now order newID w s).2.
Proof.
  intros Hs Hnew. destruct (PollTasks_outcome r now order newID w s Hs) as (a & _ & Hout).
  destruct Hout as [k tid t j _ Hq Ht Hst Hj|vid t j split _ Hin Ht Hst _ Hsp Hbt _ Hj|]; [| |done].
  - apply persistLocked_ok, (queued_ok s k tid t); rewrite ?assigned_id, ?assigned_job, ?assigned_status; try done.
    + apply assigned_lease; [by eapply ok_lease|apply (ok_chunk _ Hs)].
    + apply assigned_retries. by eapply ok_retries.
  - destruct Hst as [_ He]. pose proof (victim_ok s vid t split Hs Ht He Hbt) as Hs'.
    pose proof (ok_chunk _ Hs) as Hch. pose proof (ok_lease _ Hs vid t Ht) as Hl.
    pose proof (ok_retries _ Hs vid t Ht) as Hr. apply persistLocked_ok.
    set (t' := assigned _ _ _ _). assert (tJobID t' = tJobID t) as Ej by (unfold t'; by rewrite assigned_job).
    rewrite <- Ej. apply new_task_ok; [done| | | | | |].
    + simpl. rewrite lookup_insert_ne by congruence. done.
    + unfold t'. by rewrite assigned_id.
    + rewrite Ej. simpl. by eexists.
    + apply assigned_lease; [by eapply split_leases|done].
    + apply assigned_retries. unfold retries_ok in *. simpl. lia.
    + unfold t'. by rewrite assigned_status.
Qed.

(** ** The other calls *)

Lemma StartTask_ok now id s : sched_ok s → sched_ok (StartTask now id s).2.
Proof.
  intros Hs. unfold StartTask. destruct (tasks s !! id) as [t|] eqn:Ht; [|done].
  apply persistLocked_ok, (put_task_ok' s id t); try done.
  - apply (lease_ok_fields t); try done. by eapply ok_lease.
  - apply (ok_retries _ Hs id t Ht).
Qed.

(** Putting a failed task back at the end of the queue. *)
Lemma requeue_ok s id t t' :
  sched_ok s → tasks s !! id = Some t → tID t' = tID t → tJobID t' = tJobID t →
  lease_ok t' → retries_ok t' → sched_ok (put_task id t' s <| pendingQ := pendingQ s ++ [tID t] |>).
Proof.
  intros Hs Ht Hid Hj Hl Hr. rewrite (ok_task_id _ Hs id t Ht).
  apply (put_task_ok s id t t'); try done.
  - intros x [Hx| ->%list_elem_of_singleton]%elem_of_app; [by apply (ok_queue _ Hs)|by eexists].
  - intros x u Hu _ Hp. apply elem_of_app. left. by eapply ok_pending.
  - intros _. set_solver.
Qed.

Lemma report_finish_ok now id req s : sched_ok s → sched_ok (report_finish now id req s).2.
Proof.
  intros Hs. unfold report_finish. destruct (tasks s !! id) as [t|] eqn:Ht; [|done].
  pose proof (ok_lease _ Hs id t Ht) as Hl. pose proof (ok_retries _ Hs id t Ht) as Hr.
  case_bool_decide; [done|]. case_bool_decide.
  - destruct (Z.ltb_spec (tRetries t) (tMaxRetries t)); simpl;
      destruct (Z.ltb_spec (tRetries t) (tMaxRetries t)); try lia; simpl.
    + apply persistLocked_ok, requeue_ok; try done; [by apply requeue_lease, (lease_ok_fields t)|].
      by apply retries_requeue.
    + apply persistLocked_ok, updateJob_ok, (put_task_ok' s id t); try done. by apply (lease_ok_fields t).
  - apply persistLocked_ok, updateJob_ok, (put_task_ok' s id t); try done. by apply (lease_ok_fields t).
Qed.

Lemma renew_keeps chunk req t :
  ∃ e f g, renew_task chunk req t = t <| tRangeEnd := e |> <| tFrontier := f |> <| tGranted := g |> ∧
    tGranted t ≤ g.
Proof.
  rewrite renew_task_alt.
  destruct (grantLocked_fields chunk (t <| tRangeEnd := renewed_end req t |>
    <| tFrontier := renewed_frontier req t |>)) as (g & -> & Hg). by eexists _, _, g.
Qed.

Lemma RenewLease_ok id req s :
  sched_ok s → (∀ t, tasks s !! id = Some t → renew_honest req t) → sched_ok (RenewLease id req s).2.
Proof.
  intros Hs Hreq. unfold RenewLease. destruct (tasks s !! id) as [t|] eqn:Ht; [|done].
  assert (lease_ok (renew_task (leaseChunk s) req t)) as Hl.
  { apply renew_task_ok; [by eapply ok_lease|apply (ok_chunk _ Hs)|by apply Hreq]. }
  pose proof (ok_retries _ Hs id t Ht) as Hr.
  apply persistLocked_ok, (put_task_ok' s id t); try done;
    destruct (renew_keeps (leaseChunk s) req t) as (e & f & g & -> & _); done.
Qed.

Lemma rebalance_step_ok now w acc id :
  sched_ok acc.2 → sched_ok (rebalance_step now w acc id).2.
Proof.
  destruct acc as [n s]. simpl. intros Hs. destruct (tasks s !! id) as [t|] eqn:Ht; [|done].
  pose proof (ok_lease _ Hs id t Ht) as Hl. pose proof (ok_retries _ Hs id t Ht) as Hr.
  case_bool_decide; [done|]. destruct (in_flight t); [|done]. simpl.
  destruct (Z.ltb_spec (tRetries t) (tMaxRetries t)); simpl.
  - apply requeue_ok; try done; [by apply requeue_lease|by apply retries_requeue].
  - apply updateJob_ok, (put_task_ok' s id t); try done. by apply (lease_ok_fields t).
Qed.

Lemma RebalanceWorker_ok now order w s : sched_ok s → sched_ok (RebalanceWorker now order w s).
Proof.
  intros Hs. unfold RebalanceWorker.
  pose proof (foldl_inv (λ acc, sched_ok acc.2) (rebalance_step now w) (0%nat, s) order Hs
    (λ acc x _, rebalance_step_ok now w acc x)) as H.
  destruct (foldl _ _ order) as [n s']. simpl in H. case_match; [by apply persistLocked_ok|done].
Qed.

Definition drained (now chunk : Z) (t : Task) : Task :=
  grantLocked chunk (t <| tStatus := TaskAssigned |> <| tAssignedAt := Some now |>).

Lemma drained_fields now chunk t :
  ∃ g, drained now chunk t = t <| tStatus := TaskAssigned |> <| tAssignedAt := Some now |> <| tGranted := g |>
    ∧ tGranted t ≤ g.
Proof.
  unfold drained. destruct (grantLocked_fields chunk (t <| tStatus := TaskAssigned |>
    <| tAssignedAt := Some now |>)) as (g & -> & Hg). by exists g.
Qed.

(** What [DrainPending] does to the state at one entry of the queue. *)
Lemma drain_step_state now out s tid :
  (∀ id t, tasks s !! id = Some t → is_Some (jobs s !! tJobID t)) →
  (drain_step now (out, s) tid).2 =
    match tasks s !! tid with
    | Some t => if decide (tStatus t = TaskPending)
                then put_task tid (drained now (leaseChunk s) t) s else s
    | None => s
    end.
Proof.
  intros Hjob. unfold drain_step. destruct (tasks s !! tid) as [t|] eqn:Ht; [|done].
  case_bool_decide as Hst; [by rewrite decide_False|]. rewrite decide_True by done.
  destruct (Hjob tid t Ht) as [j ->]. fold (drained now (leaseChunk s) t). by case_match.
Qed.

Lemma drain_step_ok now out s tid q :
  sched_ok (s <| pendingQ := tid :: q |>) →
  sched_ok ((drain_step now (out, s) tid).2 <| pendingQ := q |>) ∧
  pendingQ (drain_step now (out, s) tid).2 = pendingQ s.
Proof.
  intros Hs. rewrite drain_step_state by apply (ok_task_job _ Hs).
  assert (∀ x, x ∈ q → is_Some (tasks s !! x)) as Hq
    by (intros x Hx; apply (ok_queue _ Hs x); simpl; set_solver).
  destruct (tasks s !! tid) as [t|] eqn:Ht.
  2:{ destruct (ok_queue _ Hs tid) as [? ?]; simpl in *; [set_solver|congruence]. }
  assert (∀ x u, tasks s !! x = Some u → x ≠ tid → tStatus u = TaskPending → x ∈ q) as Hp.
  { intros x u Hu Hne Hpend. pose proof (ok_pending _ Hs x u Hu Hpend) as Hx. simpl in Hx. set_solver. }
  pose proof (ok_lease _ Hs tid t Ht) as Hl. pose proof (ok_retries _ Hs tid t Ht) as Hr.
  pose proof (ok_chunk _ Hs) as Hc. simpl in Hc.
  case_decide as Hst.
  - split; [|done].
    apply (put_task_ok _ tid t (drained now (leaseChunk s) t) q Hs Ht); try done.
    + by destruct (drained_fields now (leaseChunk s) t) as (g & -> & _).
    + by destruct (drained_fields now (leaseChunk s) t) as (g & -> & _).
    + apply grantLocked_ok; [by apply (lease_ok_fields t)|done].
    + by destruct (drained_fields now (leaseChunk s) t) as (g & -> & _).
    + by destruct (drained_fields now (leaseChunk s) t) as (g & -> & _).
  - split; [|done].
    assert (put_task tid t (s <| pendingQ := q |>) = s <| pendingQ := q |>) as <-.
    { unfold put_task. destruct s. unfold field_update. simpl in *. by rewrite insert_id. }
    by apply (put_task_ok _ tid t t q Hs Ht).
Qed.

Lemma drain_loop_ok now ids out s q :
  sched_ok (s <| pendingQ := ids ++ q |>) →
  sched_ok ((foldl (drain_step now) (out, s) ids).2 <| pendingQ := q |>) ∧
  pendingQ (foldl (drain_step now) (out, s) ids).2 = pendingQ s.
Proof.
  revert out s. induction ids as [|tid ids IH]; intros out s Hs; [done|].
  destruct (drain_step_ok now out s tid (ids ++ q) Hs) as [Hs' Hq].
  change (foldl (drain_step now) (out, s) (tid :: ids))
    with (foldl (drain_step now) (drain_step now (out, s) tid) ids).
  destruct (drain_step now (out, s) tid) as [out' s']. simpl in Hs', Hq.
  destruct (IH out' s' Hs') as [H1 H2]. split; [done|congruence].
Qed.

Lemma DrainPending_ok now n s : sched_ok s → sched_ok (DrainPending now n s).2.
Proof.
  intros Hs. unfold DrainPending. set (m := if n >? _ then _ else n).
  destruct (m =? 0); [done|]. destruct (m <? 0); [done|].
  set (q := drop (Z.to_nat m) (pendingQ s)).
  destruct (drain_loop_ok now (take (Z.to_nat m) (pendingQ s)) [] (s <| pendingQ := q |>) q) as [H1 H2].
  { unfold q. simpl. rewrite take_drop. by destruct s. }
  destruct (foldl _ _ _) as [out s']. simpl in H1, H2. apply persistLocked_ok.
  destruct s'. simpl in *. by rewrite H2.
Qed.

Lemma SetLeaseChunk_ok n s : sched_ok s → n ≤ items_max → sched_ok (SetLeaseChunk n s).
Proof.
  unfold SetLeaseChunk. intros Hs Hn. destruct (Z.leb_spec n 0); [done|].
  destruct Hs. by split; simpl.
Qed.

(** ** Reachable states *)

(** What the environment owes the scheduler: fresh identifiers, no shard
    listed twice in a submission, iteration over every task, and honest
    progress reports. *)
Definition valid_op (o : op) (s : Scheduler) : Prop :=
  match o with
  | OpSubmit _ _ jid tids req => submit_fresh jid tids req s ∧ NoDup (submit_shards req)
  | OpPoll _ order newID _ =>
      tasks s !! newID = None ∧ ∀ id, id ∈ order ↔ is_Some (tasks s !! id)
  | OpRenew id req => ∀ t, tasks s !! id = Some t → renew_honest req t
  | OpRebalance _ order _ => ∀ id, id ∈ order ↔ is_Some (tasks s !! id)
  | OpSetChunk n => n ≤ items_max
  | _ => True
  end.

Inductive reachable {R} `{ShardOwner R} (mr : Z) : Scheduler → Prop :=
| reach_new : reachable mr (New mr)
| reach_op r o s : reachable mr s → valid_op o s → reachable mr (run_op r o s).

Lemma New_ok mr : sched_ok (New mr).
Proof.
  split; simpl; try (intros *; rewrite lookup_empty; done); unfold defaultLeaseChunk, items_max; try done.
  intros id. set_solver.
Qed.

Lemma run_op_ok {R} `{ShardOwner R} (r : R) o s : sched_ok s → valid_op o s → sched_ok (run_op r o s).
Proof.
  intros Hs Hv. destruct o; simpl in *.
  - by apply Submit_ok, Hv.
  - apply PollTasks_ok; [done|apply Hv].
  - by apply StartTask_ok.
  - by apply report_finish_ok.
  - by apply RenewLease_ok.
  - by apply RebalanceWorker_ok.
  - by apply DrainPending_ok.
  - by apply SetLeaseChunk_ok.
  - unfold SetJobDoneHook. destruct Hs. by split; simpl.
  - unfold AttachStore. destruct Hs. by split; simpl.
Qed.

Lemma reachable_ok {R} `{ShardOwner R} mr s : reachable (R:=R) mr s → sched_ok s.
Proof. induction 1; [apply New_ok|by apply run_op_ok]. Qed.
