(* ===== verification/Tiling.v ===== *)
(** * Every item of a shard belongs to one task

    A shard's items are covered by the ranges of its tasks: by one task until
    the shard's size is known, and after that by ranges that tile [0, total)
    however often tails are stolen.  With the lease ordering this makes the
    regions workers may process disjoint. *)
From S2P Require Import Prelude GoLib Storage Ring Job Keys Scheduler SchedInv.
Open Scope Z_scope.

(** What tiling depends on: job, shard and range of each task. *)
Notation shape := (string * string * Z * Z)%type.
Definition task_shape (t : Task) : shape := (tJobID t, tShard t, tRangeStart t, tRangeEnd t).
Definition shapes (s : Scheduler) : gmap string shape := task_shape <$> tasks s.

Section tiles.
Context (m : gmap string shape) (jid shard : string).

Definition in_group (id : string) (lo hi : Z) : Prop := m !! id = Some (jid, shard, lo, hi).

(** The whole shard is one task, of unknown size. *)
Definition whole : Prop :=
  ∃ id, in_group id 0 (-1) ∧ ∀ id' lo hi, in_group id' lo hi → id' = id.

(** The ranges tile [0, total). *)
Definition tiled (total : Z) : Prop :=
  (∀ id lo hi, in_group id lo hi → 0 ≤ lo ≤ hi ∧ hi ≤ total) ∧
  (∀ x, 0 ≤ x < total → ∃ id lo hi, in_group id lo hi ∧ lo ≤ x < hi) ∧
  (∀ id id' lo hi lo' hi', in_group id lo hi → in_group id' lo' hi' → id ≠ id' →
     hi ≤ lo' ∨ hi' ≤ lo).

Definition no_tasks : Prop := ∀ id lo hi, ¬ in_group id lo hi.

Definition group_ok : Prop := no_tasks ∨ whole ∨ ∃ total, tiled total.
End tiles.

Definition tiling (m : gmap string shape) : Prop := ∀ jid shard, group_ok m jid shard.

(** ** Operations that keep the shapes *)

Lemma shapes_put id t t' s :
  tasks s !! id = Some t → task_shape t' = task_shape t → shapes (put_task id t' s) = shapes s.
Proof.
  intros Ht E. unfold shapes, put_task. simpl. rewrite fmap_insert, E. apply insert_id.
  by rewrite lookup_fmap, Ht.
Qed.

Lemma shapes_same s s' : tasks s' = tasks s → shapes s' = shapes s.
Proof. unfold shapes. by intros ->. Qed.

Lemma tasks_persist s : tasks (persistLocked s) = tasks s.
Proof. unfold persistLocked. by destruct (store s). Qed.

Lemma tasks_hook jid s : tasks (call_hook jid s) = tasks s.
Proof. unfold call_hook. by destruct (onJobDone s). Qed.

Lemma tasks_update now jid s : tasks (updateJob now jid s) = tasks s.
Proof.
  unfold updateJob. destruct (jobs s !! jid); [|done]. repeat case_match; rewrite ?tasks_hook; done.
Qed.

Lemma tasks_bump jid s : tasks (bump_total jid s) = tasks s.
Proof. unfold bump_total. by destruct (jobs s !! jid). Qed.

Lemma shapes_persist s : shapes (persistLocked s) = shapes s.
Proof. apply shapes_same, tasks_persist. Qed.
Lemma shapes_update now jid s : shapes (updateJob now jid s) = shapes s.
Proof. apply shapes_same, tasks_update. Qed.

#[export] Hint Rewrite tasks_persist tasks_hook tasks_update tasks_bump shapes_persist shapes_update : dip.

Lemma shapes_start now id s : shapes (StartTask now id s).2 = shapes s.
Proof.
  unfold StartTask. destruct (tasks s !! id) as [t|] eqn:Ht; [|done]. simpl.
  rewrite shapes_persist. by eapply shapes_put.
Qed.

Lemma shapes_finish now id req s : shapes (report_finish now id req s).2 = shapes s.
Proof.
  unfold report_finish. destruct (tasks s !! id) as [t|] eqn:Ht; [|done].
  repeat (case_match; simpl); rewrite ?shapes_persist, ?shapes_update; try done;
    first [by eapply shapes_put|etrans; [by apply shapes_same|by eapply shapes_put]].
Qed.

Lemma shapes_rebalance_step now w acc id : shapes (rebalance_step now w acc id).2 = shapes acc.2.
Proof.
  destruct acc as [n s]. simpl. destruct (tasks s !! id) as [t|] eqn:Ht; [|done].
  repeat (case_match; simpl); rewrite ?shapes_update; try done;
    first [by eapply shapes_put|etrans; [by apply shapes_same|by eapply shapes_put]].
Qed.

Lemma shapes_rebalance now order w s : shapes (RebalanceWorker now order w s) = shapes s.
Proof.
  unfold RebalanceWorker.
  assert (shapes (foldl (rebalance_step now w) (0%nat, s) order).2 = shapes s) as H.
  { apply (foldl_inv (λ acc, shapes acc.2 = shapes s)); [done|].
    intros acc x _ E. by rewrite shapes_rebalance_step. }
  destruct (foldl _ _ order) as [n s']. simpl in H. case_match; by rewrite ?shapes_persist.
Qed.

Lemma shapes_drain_step now acc id : shapes (drain_step now acc id).2 = shapes acc.2.
Proof.
  destruct acc as [out s]. simpl. destruct (tasks s !! id) as [t|] eqn:Ht; [|done].
  case_bool_decide; [done|]. destruct (jobs s !! tJobID t); [|done].
  fold (drained now (leaseChunk s) t).
  destruct (drained_fields now (leaseChunk s) t) as (g & -> & _).
  case_match; simpl; by eapply shapes_put.
Qed.

Lemma shapes_drain now n s : shapes (DrainPending now n s).2 = shapes s.
Proof.
  unfold DrainPending. set (m := if n >? _ then _ else n).
  destruct (m =? 0); [done|]. destruct (m <? 0); [done|].
  match goal with |- context [foldl ?f (?o, ?s0) ?ids] =>
    assert (shapes (foldl f (o, s0) ids).2 = shapes s) as H end.
  { apply (foldl_inv (λ acc, shapes acc.2 = shapes s)); [done|].
    intros acc x _ E. by rewrite shapes_drain_step. }
  destruct (foldl _ _ _) as [out s']. simpl in *. by rewrite shapes_persist.
Qed.

(** ** Submission *)

Lemma no_tasks_unknown s jid shard : sched_ok s → jobs s !! jid = None → no_tasks (shapes s) jid shard.
Proof.
  intros Hs Hj id lo hi Hg. unfold in_group, shapes in Hg. rewrite lookup_fmap in Hg.
  destruct (tasks s !! id) as [t|] eqn:Ht; [|done]. unfold task_shape in Hg. simplify_eq/=.
  destruct (ok_task_job _ Hs id t Ht). congruence.
Qed.

Lemma shapes_submit_task job s shard tid :
  shapes (submit_task job s (shard, tid)) = <[tid := (jID job, shard, 0, -1)]> (shapes s).
Proof. unfold shapes. simpl. by rewrite fmap_insert. Qed.

(** [group_ok] is a property of the group's members. *)
Lemma group_ext m m' jid shard :
  (∀ x a b, in_group m' jid shard x a b ↔ in_group m jid shard x a b) →
  group_ok m jid shard → group_ok m' jid shard.
Proof.
  intros Heq [H|[(y & Hy & Hu)|(total & Hb & Hc & Hd)]].
  - left. intros x a b Hx%Heq. by eapply H.
  - right; left. exists y. split; [by apply Heq|]. intros x a b Hx%Heq. by eapply Hu.
  - right; right. exists total. split_and!.
    + intros x a b Hx%Heq. by eapply Hb.
    + intros z (x & a & b & Hx%Heq & ?)%Hc. eauto.
    + intros x x' a b a' b' Hx%Heq Hx'%Heq. by eapply Hd.
Qed.

Lemma group_other (m : gmap string shape) id jid' shard' lo hi jid shard :
  (∀ jid1 sh1 a b, m !! id = Some (jid1, sh1, a, b) → (jid1, sh1) = (jid', shard')) →
  (jid', shard') ≠ (jid, shard) →
  group_ok m jid shard → group_ok (<[id := (jid', shard', lo, hi)]> m) jid shard.
Proof.
  intros Hn Hne. apply group_ext. intros x a b. unfold in_group.
  rewrite lookup_insert. case_decide as E; [subst x|done].
  split; [intros; simplify_eq|]. intros H%Hn. congruence.
Qed.

Lemma group_fresh (m : gmap string shape) id jid shard :
  m !! id = None → no_tasks m jid shard → group_ok (<[id := (jid, shard, 0, -1)]> m) jid shard.
Proof.
  intros Hn Hno. right; left. exists id. split; [by apply lookup_insert_eq|].
  intros x lo hi Hx. destruct (decide (x = id)) as [->|Hne]; [done|].
  unfold in_group in Hx. rewrite lookup_insert_ne in Hx by done. by apply Hno in Hx.
Qed.

(** The loop of [Submit] over distinct shards, none of which has a task yet. *)
Lemma tiling_submit job ps s :
  tiling (shapes s) → NoDup ps.*1 → NoDup ps.*2 → (∀ p, p ∈ ps → tasks s !! p.2 = None) →
  (∀ p, p ∈ ps → no_tasks (shapes s) (jID job) p.1) →
  tiling (shapes (foldl (submit_task job) s ps)).
Proof.
  revert s. induction ps as [|[shard tid] ps IH]; intros s Ht Hn1 Hn2 Hfresh Hno; [done|].
  rewrite !fmap_cons in *. apply NoDup_cons in Hn1 as [Hs1 Hn1]. apply NoDup_cons in Hn2 as [Hs2 Hn2].
  simpl in *.
  assert (shapes s !! tid = None) as Hnone.
  { pose proof (Hfresh (shard, tid) ltac:(set_solver)) as Hf. simpl in Hf.
    unfold shapes. by rewrite lookup_fmap, Hf. }
  apply IH; [|done|done| |].
  - change (tiling (shapes (submit_task job s (shard, tid)))). rewrite shapes_submit_task.
    intros jid sh. destruct (decide ((jID job, shard) = (jid, sh))) as [[= <- <-]|Hne].
    + apply group_fresh; [done|]. apply (Hno (shard, tid)). set_solver.
    + apply group_other; [rewrite Hnone; done|done|apply Ht].
  - intros p Hp. simpl. rewrite lookup_insert_ne; [apply Hfresh; set_solver|].
    intros ->. apply Hs2. by apply list_elem_of_fmap_2.
  - intros p Hp.
    assert (p.1 ≠ shard) as Hne by (intros <-; apply Hs1; by apply list_elem_of_fmap_2).
    intros x lo hi Hx. unfold in_group in Hx.
    change (shapes (submit_task job s (shard, tid)) !! x = Some (jID job, p.1, lo, hi)) in Hx.
    rewrite shapes_submit_task, lookup_insert in Hx. case_decide; [simplify_eq|].
    apply (Hno p ltac:(set_solver) x lo hi Hx).
Qed.

Lemma tiling_Submit created now jid tids req s :
  sched_ok s → tiling (shapes s) → submit_fresh jid tids req s → NoDup (submit_shards req) →
  tiling (shapes (Submit created now jid tids req s).2).
Proof.
  intros Hs Ht (Hj & Hnd & Hlen & Hfresh) Hsh. unfold Submit. cbn [snd].
  rewrite shapes_persist.
  match goal with |- tiling (shapes (_ <| jobs := _ |>)) => rewrite (shapes_same (foldl
    (submit_task (new_job created jid req)) (s <| jobs := <[jid := new_job created jid req]> (jobs s) |>)
    (zip (submit_shards req) tids))) by done end.
  apply tiling_submit.
  - done.
  - by rewrite fst_zip by lia.
  - by rewrite snd_zip by lia.
  - intros [sh tid] Hp. apply Hfresh. by apply elem_of_zip_r in Hp.
  - intros p Hp. apply (no_tasks_unknown s jid p.1 Hs Hj).
Qed.

(** ** Renewal *)

Lemma group_whole m jid shard id hi :
  group_ok m jid shard → in_group m jid shard id 0 hi → hi < 0 →
  ∀ id' lo' hi', in_group m jid shard id' lo' hi' → id' = id.
Proof.
  intros [H|[(y & Hy & Hu)|(total & Hb & _)]] Hg Hlt.
  - by apply H in Hg.
  - intros. etrans; [by eapply Hu|]. symmetry. by eapply Hu.
  - apply Hb in Hg. lia.
Qed.

Lemma group_sized (m : gmap string shape) jid shard id hi total :
  group_ok m jid shard → in_group m jid shard id 0 hi → hi < 0 → 0 < total →
  group_ok (<[id := (jid, shard, 0, total)]> m) jid shard.
Proof.
  intros Hok Hg Hlt Hpos. pose proof (group_whole m jid shard id hi Hok Hg Hlt) as Huniq.
  assert (∀ x a b, in_group (<[id := (jid, shard, 0, total)]> m) jid shard x a b ↔
    x = id ∧ a = 0 ∧ b = total) as Heq.
  { intros x a b. unfold in_group. rewrite lookup_insert. case_decide as E.
    - subst. split; [intros; by simplify_eq|]. by intros (_ & -> & ->).
    - split; [intros H%Huniq; congruence|]. intros (? & _). congruence. }
  right; right. exists total. split_and!.
  - intros x a b (-> & -> & ->)%Heq. lia.
  - intros z Hz. exists id, 0, total. split; [by apply Heq|done].
  - intros x x' a b a' b' (-> & _)%Heq (-> & _)%Heq. done.
Qed.

Lemma shapes_lookup s id t :
  tasks s !! id = Some t → shapes s !! id = Some (task_shape t).
Proof. intros H. unfold shapes. by rewrite lookup_fmap, H. Qed.

Lemma tiling_RenewLease id req s :
  sched_ok s → tiling (shapes s) → tiling (shapes (RenewLease id req s).2).
Proof.
  intros Hs Ht. unfold RenewLease. destruct (tasks s !! id) as [t|] eqn:Hid; [|done].
  cbn [snd]. rewrite shapes_persist.
  pose proof (renew_task_alt (leaseChunk s) req t) as Ealt.
  destruct (grantLocked_fields (leaseChunk s) (t <| tRangeEnd := renewed_end req t |>
    <| tFrontier := renewed_frontier req t |>)) as (g & Eg & _). rewrite Eg in Ealt.
  pose proof (shapes_lookup s id t Hid) as Hsh.
  assert (shapes (put_task id (renew_task (leaseChunk s) req t) s)
    = <[id := (tJobID t, tShard t, tRangeStart t, renewed_end req t)]> (shapes s)) as ->.
  { unfold shapes, put_task. simpl. by rewrite fmap_insert, Ealt. }
  unfold renewed_end. destruct (Z.ltb_spec (tRangeEnd t) 0) as [Hlt|]; simpl; [|by rewrite insert_id].
  destruct (Z.gtb_spec (rlTotal req) 0); [|by rewrite insert_id].
  destruct (lease_unknown _ (ok_lease _ Hs id t Hid) Hlt) as (_ & Hz & _).
  intros jid sh. destruct (decide ((tJobID t, tShard t) = (jid, sh))) as [[= <- <-]|Hne].
  - rewrite Hz. unfold task_shape in Hsh. rewrite Hz in Hsh. by eapply group_sized.
  - apply group_other; [|done|apply Ht]. intros. rewrite Hsh in *. unfold task_shape in *. congruence.
Qed.

(** ** Stealing *)

(** Cutting a range in two keeps the tiling. *)
Lemma group_split (m : gmap string shape) jid shard vid newID lo mid hi :
  group_ok m jid shard → in_group m jid shard vid lo hi → m !! newID = None → lo ≤ mid ≤ hi → 0 ≤ hi →
  group_ok (<[newID := (jid, shard, mid, hi)]> (<[vid := (jid, shard, lo, mid)]> m)) jid shard.
Proof.
  intros Hok Hv Hnew Hmid Hhi.
  assert (newID ≠ vid) as Hne by (intros ->; unfold in_group in Hv; congruence).
  destruct Hok as [H|[(y & Hy & Hu)|(total & Hb & Hc & Hd)]]; [by apply H in Hv| |].
  { pose proof (Hu _ _ _ Hv) as ->. unfold in_group in *. by simplify_eq. }
  set (m' := <[newID := _]> _).
  assert (∀ x a b, in_group m' jid shard x a b ↔
    x = newID ∧ a = mid ∧ b = hi ∨ x = vid ∧ a = lo ∧ b = mid ∨
    x ≠ vid ∧ x ≠ newID ∧ in_group m jid shard x a b) as Heq.
  { intros x a b. unfold m', in_group. rewrite !lookup_insert.
    case_decide as E1; [|case_decide as E2].
    - subst x. split; [intros [= <- <-]; by left|]. intros [(_ & -> & ->)|[(? & _)|(_ & ? & _)]]; done.
    - subst x. split; [intros [= <- <-]; by right; left|].
      intros [(? & _)|[(_ & -> & ->)|(? & _)]]; done.
    - split; [intros; right; right; by split_and!|].
      intros [(? & _)|[(? & _)|(_ & _ & ?)]]; congruence. }
  destruct (Hb _ _ _ Hv) as [??]. right; right. exists total. split_and!.
  - intros x a b [(-> & -> & ->)|[(-> & -> & ->)|(_ & _ & Hx)]]%Heq; [lia..|]. by eapply Hb.
  - intros z Hz. destruct (Hc z Hz) as (x & a & b & Hx & ?).
    destruct (decide (x = vid)) as [->|Hxv].
    + unfold in_group in *. simplify_eq. destruct (Z.lt_ge_cases z mid).
      * exists vid, lo, mid. split; [apply Heq; auto|lia].
      * exists newID, mid, hi. split; [apply Heq; auto|lia].
    + exists x, a, b. split; [|done]. apply Heq. right; right. split_and!; [done| |done].
      intros ->. unfold in_group in Hx. congruence.
  - intros x x' a b a' b' [(-> & -> & ->)|[(-> & -> & ->)|(Hxv & Hxn & Hx)]]%Heq
      [(-> & -> & ->)|[(-> & -> & ->)|(Hxv' & Hxn' & Hx')]]%Heq Hxx; try done; try lia.
    + destruct (Hd _ _ _ _ _ _ Hv Hx'); [congruence| |]; lia.
    + destruct (Hd _ _ _ _ _ _ Hv Hx'); [congruence| |]; lia.
    + destruct (Hd _ _ _ _ _ _ Hx Hv); [congruence| |]; lia.
    + destruct (Hd _ _ _ _ _ _ Hx Hv); [congruence| |]; lia.
    + by eapply Hd.
Qed.

Lemma assigned_shape now w chunk t : task_shape (assigned now w chunk t) = task_shape t.
Proof. by_assigned. Qed.

Lemma tiling_PollTasks {R} `{ShardOwner R} (r : R) now order newID w s :
  sched_ok s → tasks s !! newID = None → tiling (shapes s) →
  tiling (shapes (PollTasks r now order newID w s).2).
Proof.
  intros Hs Hnew Ht. destruct (PollTasks_outcome r now order newID w s Hs) as (a & _ & Hout).
  destruct Hout as [k tid t j _ Hq Hid Hst Hj|vid t j split _ Hin Hid [_ He] _ Hsp Hbt _ Hj|]; [| |done].
  - rewrite shapes_persist. rewrite (shapes_put tid t); [done|done|apply assigned_shape].
  - rewrite shapes_persist, (shapes_same _ _ (tasks_bump _ _)).
    pose proof (shapes_lookup s vid t Hid) as Hsh. unfold task_shape in Hsh.
    assert (shapes s !! newID = None) as Hn by (unfold shapes; by rewrite lookup_fmap, Hnew).
    unfold shapes, put_task. simpl. rewrite !fmap_insert, assigned_shape. fold (shapes s).
    unfold task_shape. simpl. destruct (ok_lease _ Hs vid t Hid) as [? ? ? ? ? ?].
    intros jid sh. destruct (decide ((tJobID t, tShard t) = (jid, sh))) as [[= <- <-]|Hne].
    + apply group_split; try done. lia.
    + apply group_other; [|done|apply group_other; [|done|apply Ht]].
      * intros *. rewrite lookup_insert. case_decide; [intros; by simplify_eq|].
        rewrite Hn. done.
      * intros *. rewrite Hsh. intros; by simplify_eq.
Qed.
