(* ===== verification/SchedSteps.v ===== *)
(** * The life of one task

    The state machine of a single task, and that every call of the scheduler
    moves every task along it: a simulation of the scheduler by independent
    task machines. *)
From S2P Require Import Prelude GoLib Storage Ring Job Keys Scheduler SchedInv Tiling.
Open Scope Z_scope.

(** Steps that move a task's lease within one attempt at it. *)
Inductive lease_step : Task → Task → Prop :=
| ts_assign now w chunk t :
    tStatus t = TaskPending → lease_ok t → 0 < chunk ≤ items_max →
    lease_step t (assigned now w chunk t)
| ts_drain now chunk t :
    tStatus t = TaskPending → lease_ok t → 0 < chunk ≤ items_max →
    lease_step t (drained now chunk t)
| ts_renew chunk req t :
    lease_ok t → 0 < chunk ≤ items_max → renew_honest req t → lease_step t (renew_task chunk req t)
| ts_shrink split t :
    stealable t → lease_ok t → tGranted t < split < tRangeEnd t → lease_step t (shrunk_victim t split).

(** Those the scheduler takes of its own accord: no renewal. *)
Inductive grant_step : Task → Task → Prop :=
| gs_assign now w chunk t :
    tStatus t = TaskPending → lease_ok t → 0 < chunk ≤ items_max →
    grant_step t (assigned now w chunk t)
| gs_drain now chunk t :
    tStatus t = TaskPending → lease_ok t → 0 < chunk ≤ items_max →
    grant_step t (drained now chunk t)
| gs_shrink split t :
    stealable t → lease_ok t → tGranted t < split < tRangeEnd t → grant_step t (shrunk_victim t split).

Lemma grant_lease t t' : grant_step t t' → lease_step t t'.
Proof. intros []; [by apply ts_assign|by apply ts_drain|by apply ts_shrink]. Qed.

(** The worker reports that it started; the code does not look at the status. *)
Inductive start_step : Task → Task → Prop :=
| ts_start now t :
    lease_ok t → start_step t (t <| tStatus := TaskRunning |> <| tStartedAt := Some now |>).

Definition attempt_step (t t' : Task) : Prop := lease_step t t' ∨ start_step t t'.

(** Steps that end an attempt. *)
Inductive settle_step : Task → Task → Prop :=
| ts_done now w t :
    tStatus t ≠ TaskDone →
    settle_step t (t <| tFinishedAt := Some now |> <| tWorkerID := w |> <| tStatus := TaskDone |>)
| ts_fail now w e t :
    tStatus t ≠ TaskDone → tMaxRetries t ≤ tRetries t →
    settle_step t (t <| tFinishedAt := Some now |> <| tWorkerID := w |> <| tError := e |>
                     <| tStatus := TaskFailed |>)
| ts_retry now w e t :
    tStatus t ≠ TaskDone → tRetries t < tMaxRetries t →
    settle_step t (requeue (t <| tFinishedAt := Some now |> <| tWorkerID := w |> <| tError := e |>))
| ts_lost t :
    in_flight t = true → tRetries t < tMaxRetries t → settle_step t (requeue t)
| ts_give_up t :
    in_flight t = true → tMaxRetries t ≤ tRetries t → settle_step t (t <| tStatus := TaskFailed |>).

Definition task_step (t t' : Task) : Prop := attempt_step t t' ∨ settle_step t t'.

(** Every task of [s] is still there in [s'], moved along [R]. *)
Definition evolves (R : relation Task) (s s' : Scheduler) : Prop :=
  ∀ id t, tasks s !! id = Some t → ∃ t', tasks s' !! id = Some t' ∧ rtc R t t'.

#[export] Instance evolves_preorder R : PreOrder (evolves R).
Proof.
  split.
  - intros s id t Ht. exists t. by split.
  - intros s1 s2 s3 H12 H23 id t Ht. destruct (H12 id t Ht) as (t' & Ht' & Hr).
    destruct (H23 id t' Ht') as (t'' & Ht'' & Hr'). exists t''. split; [done|by etrans].
Qed.

Lemma evolves_mono (R R' : relation Task) s s' :
  (∀ t t', R t t' → R' t t') → evolves R s s' → evolves R' s s'.
Proof.
  intros HR H id t Ht. destruct (H id t Ht) as (t' & Ht' & Hr). exists t'.
  split; [done|]. eapply (rtc_congruence (λ x, x)); [|done]. done.
Qed.

Lemma evolves_same R s s' : tasks s' = tasks s → evolves R s s'.
Proof. intros E id t Ht. exists t. rewrite E. by split. Qed.

Lemma evolves_put (R : relation Task) s id t t' :
  tasks s !! id = Some t → R t t' → evolves R s (put_task id t' s).
Proof.
  intros Ht HR x u Hu. unfold put_task. simpl. rewrite lookup_insert. case_decide as E.
  - subst x. rewrite Ht in Hu. simplify_eq. exists t'. split; [done|by apply rtc_once].
  - exists u. by split.
Qed.

Lemma evolves_new (R : relation Task) s id t :
  tasks s !! id = None → evolves R s (put_task id t s).
Proof.
  intros Hn x u Hu. unfold put_task. simpl. rewrite lookup_insert_ne by congruence. exists u. by split.
Qed.

(** Peel the bookkeeping off the goal [evolves R s (f s')]. *)
Ltac evolve_peel :=
  repeat first
    [ match goal with |- evolves _ _ (persistLocked ?x) =>
        transitivity x; [|apply evolves_same, tasks_persist] end
    | match goal with |- evolves _ _ (updateJob _ _ ?x) =>
        transitivity x; [|apply evolves_same, tasks_update] end
    | match goal with |- evolves _ _ (bump_total _ ?x) =>
        transitivity x; [|apply evolves_same, tasks_bump] end ].

Lemma evolves_submit R job ps s :
  NoDup ps.*2 → (∀ p, p ∈ ps → tasks s !! p.2 = None) → evolves R s (foldl (submit_task job) s ps).
Proof.
  revert s. induction ps as [|[shard tid] ps IH]; intros s Hnd Hf; [reflexivity|].
  rewrite fmap_cons in Hnd. apply NoDup_cons in Hnd as [Hp Hnd].
  transitivity (submit_task job s (shard, tid)).
  - transitivity (put_task tid (fresh_task job s shard tid) s); [|by apply evolves_same].
    apply evolves_new, (Hf (shard, tid)). set_solver.
  - apply IH; [done|]. intros p Hp'. simpl. rewrite lookup_insert_ne; [apply Hf; set_solver|].
    intros E. apply Hp. simpl in *. rewrite E. by apply list_elem_of_fmap_2.
Qed.

Lemma evolves_Submit R created now jid tids req s :
  submit_fresh jid tids req s → evolves R s (Submit created now jid tids req s).2.
Proof.
  intros (Hj & Hnd & Hlen & Hfresh). unfold Submit. cbn [snd]. evolve_peel.
  etrans; [|by apply evolves_same].
  transitivity (s <| jobs := <[jid := new_job created jid req]> (jobs s) |>); [by apply evolves_same|].
  apply evolves_submit.
  - by rewrite snd_zip by lia.
  - intros [sh tid] Hp. apply Hfresh. by apply elem_of_zip_r in Hp.
Qed.

Lemma evolves_PollTasks {R} `{ShardOwner R} (r : R) now order newID w s :
  sched_ok s → tasks s !! newID = None →
  evolves grant_step s (PollTasks r now order newID w s).2.
Proof.
  intros Hs Hnew. pose proof (ok_chunk _ Hs) as Hc.
  destruct (PollTasks_outcome r now order newID w s Hs) as (a & _ & Hout).
  destruct Hout as [k tid t j _ Hq Ht Hst Hj|vid t j split _ Hin Ht Hst _ Hsp Hbt _ Hj|]; [| |reflexivity].
  - evolve_peel. transitivity (s <| pendingQ := remove_at k (pendingQ s) |>); [by apply evolves_same|].
    eapply evolves_put; [done|]. apply gs_assign; [done|by eapply ok_lease|done].
  - evolve_peel. transitivity (put_task vid (shrunk_victim t split) s).
    + eapply evolves_put; [done|]. apply gs_shrink; [done|by eapply ok_lease|done].
    + apply evolves_new. simpl. rewrite lookup_insert_ne by congruence. done.
Qed.

Lemma evolves_StartTask now id s : sched_ok s → evolves start_step s (StartTask now id s).2.
Proof.
  intros Hs. unfold StartTask. destruct (tasks s !! id) as [t|] eqn:Ht; [|reflexivity]. cbn [snd].
  evolve_peel. eapply evolves_put; [done|]. apply ts_start. by eapply ok_lease.
Qed.

Lemma evolves_RenewLease id req s :
  sched_ok s → (∀ t, tasks s !! id = Some t → renew_honest req t) →
  evolves lease_step s (RenewLease id req s).2.
Proof.
  intros Hs Hr. unfold RenewLease. destruct (tasks s !! id) as [t|] eqn:Ht; [|reflexivity]. cbn [snd].
  evolve_peel. eapply evolves_put; [done|].
  apply ts_renew; [by eapply ok_lease|apply (ok_chunk _ Hs)|by apply Hr].
Qed.

Lemma evolves_finish now id req s : evolves settle_step s (report_finish now id req s).2.
Proof.
  unfold report_finish. destruct (tasks s !! id) as [t|] eqn:Ht; [|reflexivity].
  case_bool_decide; [reflexivity|]. case_bool_decide.
  - simpl. destruct (Z.ltb_spec (tRetries t) (tMaxRetries t)); cbn [snd]; evolve_peel.
    + etrans; [|by apply evolves_same]. eapply evolves_put; [done|]. by apply ts_retry.
    + eapply evolves_put; [done|]. by apply ts_fail.
  - cbn [snd]. evolve_peel. eapply evolves_put; [done|]. by apply ts_done.
Qed.

Lemma evolves_rebalance_step now w acc id : evolves settle_step acc.2 (rebalance_step now w acc id).2.
Proof.
  destruct acc as [n s]. simpl. destruct (tasks s !! id) as [t|] eqn:Ht; [|reflexivity].
  case_bool_decide; [reflexivity|]. destruct (in_flight t) eqn:Hf; [|reflexivity]. simpl.
  destruct (Z.ltb_spec (tRetries t) (tMaxRetries t)); cbn [snd]; evolve_peel.
  - etrans; [|by apply evolves_same]. eapply evolves_put; [done|]. by apply ts_lost.
  - eapply evolves_put; [done|]. by apply ts_give_up.
Qed.

Lemma evolves_Rebalance now order w s : evolves settle_step s (RebalanceWorker now order w s).
Proof.
  unfold RebalanceWorker.
  assert (evolves settle_step s (foldl (rebalance_step now w) (0%nat, s) order).2) as H.
  { apply (foldl_inv (λ acc, evolves settle_step s acc.2)); [reflexivity|].
    intros acc x _ E. etrans; [done|apply evolves_rebalance_step]. }
  destruct (foldl _ _ order) as [n s']. simpl in H. case_match; [by evolve_peel|done].
Qed.

Lemma evolves_drain_loop now ids out s q :
  sched_ok (s <| pendingQ := ids ++ q |>) →
  evolves grant_step s (foldl (drain_step now) (out, s) ids).2.
Proof.
  revert out s. induction ids as [|tid ids IH]; intros out s Hs; [reflexivity|].
  destruct (drain_step_ok now out s tid (ids ++ q) Hs) as [Hs' _].
  pose proof (drain_step_state now out s tid (ok_task_job _ Hs)) as E.
  change (foldl (drain_step now) (out, s) (tid :: ids))
    with (foldl (drain_step now) (drain_step now (out, s) tid) ids).
  destruct (drain_step now (out, s) tid) as [out' s']. cbn [snd] in E, Hs'.
  etrans; [|by apply IH]. rewrite E.
  destruct (tasks s !! tid) as [t|] eqn:Ht; [|reflexivity]. case_decide as Hst; [|reflexivity].
  eapply evolves_put; [done|]. apply gs_drain; [done| |apply (ok_chunk _ Hs)].
  apply (ok_lease _ Hs tid t Ht).
Qed.

Lemma evolves_DrainPending now n s : sched_ok s → evolves grant_step s (DrainPending now n s).2.
Proof.
  intros Hs. unfold DrainPending. set (m := if n >? _ then _ else n).
  destruct (m =? 0); [reflexivity|]. destruct (m <? 0); [reflexivity|].
  set (q := drop (Z.to_nat m) (pendingQ s)).
  pose proof (evolves_drain_loop now (take (Z.to_nat m) (pendingQ s)) [] (s <| pendingQ := q |>) q) as H.
  destruct (foldl _ _ _) as [out s']. cbn [snd] in *. evolve_peel.
  transitivity (s <| pendingQ := q |>); [by apply evolves_same|]. apply H.
  unfold q. simpl. rewrite take_drop. by destruct s.
Qed.

(** The calls that leave every attempt running. *)
Definition keeps_attempts (o : op) : bool :=
  match o with OpFinish _ _ _ | OpRebalance _ _ _ => false | _ => true end.

(** The relation each call moves the tasks along. *)
Definition op_step (o : op) : relation Task :=
  match o with
  | OpFinish _ _ _ | OpRebalance _ _ _ => settle_step
  | OpStart _ _ => start_step
  | _ => lease_step
  end.

Lemma run_op_step {R} `{ShardOwner R} (r : R) o s :
  sched_ok s → valid_op o s → evolves (op_step o) s (run_op r o s).
Proof.
  intros Hs Hv. destruct o; simpl in *.
  - by apply evolves_Submit, Hv.
  - eapply evolves_mono; [apply grant_lease|]. apply evolves_PollTasks; [done|apply Hv].
  - by apply evolves_StartTask.
  - apply evolves_finish.
  - by apply evolves_RenewLease.
  - apply evolves_Rebalance.
  - eapply evolves_mono; [apply grant_lease|]. by apply evolves_DrainPending.
  - unfold SetLeaseChunk. case_match; by apply evolves_same.
  - by apply evolves_same.
  - by apply evolves_same.
Qed.

Lemma run_op_attempt {R} `{ShardOwner R} (r : R) o s :
  sched_ok s → valid_op o s → keeps_attempts o = true → evolves attempt_step s (run_op r o s).
Proof.
  intros Hs Hv Hk. eapply evolves_mono; [|by apply run_op_step].
  intros t t'. unfold attempt_step. destruct o; simpl in *; try done; auto.
Qed.

Lemma run_op_evolves {R} `{ShardOwner R} (r : R) o s :
  sched_ok s → valid_op o s → evolves task_step s (run_op r o s).
Proof.
  intros Hs Hv. eapply evolves_mono; [|by apply run_op_step].
  intros t t'. unfold task_step, attempt_step. destruct o; simpl in *; auto.
Qed.

(** ** What steps keep *)

(** The identity of a task, its retry budget, and the bounds that only move
    one way. *)
Record step_mono (t t' : Task) : Prop := {
  sm_id : tID t' = tID t;
  sm_job : tJobID t' = tJobID t;
  sm_shard : tShard t' = tShard t;
  sm_start : tRangeStart t' = tRangeStart t;
  sm_max : tMaxRetries t' = tMaxRetries t;
  sm_retries : tRetries t ≤ tRetries t';
  sm_gen : tGeneration t ≤ tGeneration t';
  sm_end : 0 ≤ tRangeEnd t → 0 ≤ tRangeEnd t' ≤ tRangeEnd t;
  sm_cut : 0 ≤ tRangeEnd t → tRangeEnd t' ≠ tRangeEnd t → tGeneration t < tGeneration t';
  sm_split : tSplit t = true → tSplit t' = true;
}.

#[export] Instance step_mono_preorder : PreOrder step_mono.
Proof.
  split.
  - intros t. split; done || lia.
  - intros t1 t2 t3 [] []. split; try congruence; try lia; auto.
Qed.

Lemma shrink_gen t : lease_ok t → 0 ≤ tRangeEnd t → wrap64 (tGeneration t + 1) = tGeneration t + 1.
Proof.
  intros [? ? ? ? ? Hg] Hend. apply wrap64_id. unfold items_max, max_int64 in *. lia.
Qed.

Lemma attempt_step_mono t t' : attempt_step t t' → step_mono t t'.
Proof.
  intros [[now w chunk u Hst Hl Hc|now chunk u Hst Hl Hc|chunk req u Hl Hc Hr|split u [_ He] Hl Hb]|[now u Hl]].
  - destruct (assigned_fields now w chunk u) as (g & -> & _). split; simpl; done || lia.
  - destruct (drained_fields now chunk u) as (g & -> & _). split; simpl; done || lia.
  - destruct (renew_keeps chunk req u) as (e & f & g & E & _).
    assert (tRangeEnd (renew_task chunk req u) = renewed_end req u) as Hend.
    { rewrite renew_task_alt. apply grantLocked_keeps. }
    unfold renewed_end in Hend.
    split; rewrite ?Hend; rewrite ?E; simpl; try done; try lia;
      destruct (Z.ltb_spec (tRangeEnd u) 0); simpl; lia.
  - destruct Hl as [? ? ? ? ? ?]. split; simpl; rewrite ?shrink_gen by (done || by split); try done; lia.
  - split; simpl; done || lia.
Qed.

Lemma settle_step_mono t t' : settle_step t t' → step_mono t t'.
Proof. intros []; split; simpl; done || lia. Qed.

Lemma task_step_mono t t' : task_step t t' → step_mono t t'.
Proof. intros [?|?]; [by apply attempt_step_mono|by apply settle_step_mono]. Qed.

Lemma task_steps_mono t t' : rtc task_step t t' → step_mono t t'.
Proof.
  induction 1; [reflexivity|]. etrans; [by apply task_step_mono|done].
Qed.

(** Within an attempt the granted bound only grows, and the task is never cut
    below it. *)
Record attempt_mono (t t' : Task) : Prop := {
  am_granted : tGranted t ≤ tGranted t';
  am_frontier : tFrontier t ≤ tFrontier t';
  am_end : 0 ≤ tRangeEnd t' → tGranted t ≤ tRangeEnd t';
  am_lease : lease_ok t';
}.

Lemma attempt_step_lease t t' : attempt_step t t' → attempt_mono t t'.
Proof.
  intros [[now w chunk u Hst Hl Hc|now chunk u Hst Hl Hc|chunk req u Hl Hc Hr|split u [_ He] Hl Hb]|[now u Hl]].
  - pose proof (assigned_lease now w chunk u Hl Hc) as Hl'.
    destruct (assigned_fields now w chunk u) as (g & E & Hg). rewrite E in *.
    destruct Hl'. split; simpl in *; try done; lia.
  - assert (lease_ok (drained now chunk u)) as Hl' by (apply grantLocked_ok; [by apply (lease_ok_fields u)|done]).
    destruct (drained_fields now chunk u) as (g & E & Hg). rewrite E in *.
    destruct Hl'. split; simpl in *; try done; lia.
  - pose proof (renew_task_ok chunk req u Hl Hc Hr) as Hl'.
    destruct (renew_keeps chunk req u) as (e & f & g & E & Hg).
    assert (tFrontier (renew_task chunk req u) = renewed_frontier req u) as Hf.
    { rewrite renew_task_alt. apply grantLocked_keeps. }
    assert (tRangeEnd (renew_task chunk req u) = renewed_end req u) as Hend.
    { rewrite renew_task_alt. apply grantLocked_keeps. }
    pose proof (lease_known _ Hl') as Hk. split; [by rewrite E| | |done].
    + rewrite Hf. unfold renewed_frontier. destruct Hl. destruct Hr as (? & ? & ?).
      unfold renewed_end in *.
      destruct (Z.ltb_spec (tRangeEnd u) 0), (Z.gtb_spec (rlTotal req) 0); simpl in *;
        match goal with |- context [0 <=? ?e] => destruct (Z.leb_spec 0 e) end; lia.
    + intros He. specialize (Hk He). rewrite E in *. simpl in *. lia.
  - pose proof (split_leases u split EmptyString Hl He Hb) as [Hl' _]. split; simpl; try done; lia.
  - split; simpl; [done|done|apply Hl|by apply (lease_ok_fields u)].
Qed.

Lemma attempt_steps_lease t t' : rtc attempt_step t t' → lease_ok t → attempt_mono t t'.
Proof.
  induction 1 as [t|t1 t2 t3 H12 _ IH]; intros Hl.
  - split; try done. by apply lease_known.
  - apply attempt_step_lease in H12 as [? ? ? Hl2]. destruct (IH Hl2). split; try done; lia.
Qed.

(** A committed task leaves that status only by [StartTask]. *)
Definition quiet_step (t t' : Task) : Prop := lease_step t t' ∨ settle_step t t'.

Lemma done_step t t' : quiet_step t t' → tStatus t = TaskDone → tStatus t' = TaskDone.
Proof.
  intros [[now w chunk u Hst|now chunk u Hst|chunk req u|split u [Hf _]]|
          [?|?|?|u Hf|u Hf]] Hd; simpl in *; try congruence;
    try (unfold in_flight in Hf; rewrite Hd in Hf; done).
  by destruct (renew_keeps chunk req u) as (? & ? & ? & -> & _).
Qed.

Lemma done_steps t t' : rtc quiet_step t t' → tStatus t = TaskDone → tStatus t' = TaskDone.
Proof. induction 1; [done|]. intros Hd. eauto using done_step. Qed.

Lemma run_op_quiet {R} `{ShardOwner R} (r : R) o s :
  sched_ok s → valid_op o s → (∀ now id, o ≠ OpStart now id) → evolves quiet_step s (run_op r o s).
Proof.
  intros Hs Hv Hn. eapply evolves_mono; [|by apply run_op_step].
  intros t t'. unfold quiet_step. destruct o; simpl in *; auto. by destruct (Hn now taskID).
Qed.
