(* ===== verification/Accounting.v ===== *)
(** * Job completion

    A job is running while one of its tasks is unsettled, completed when all
    are done, failed when all are settled and one failed; and the completion
    hook fires once per job.  Both hold of runs in which workers start only
    tasks that are in flight; the hook's also needs that no task is reported
    on again after it failed for good (see [late_report_fires_hook_twice]). *)
From S2P Require Import Prelude GoLib Storage Ring Job Keys Scheduler SchedInv Tiling SchedSteps.
Open Scope Z_scope.

Definition settled (t : Task) : Prop := tStatus t = TaskDone ∨ tStatus t = TaskFailed.
#[export] Instance settled_dec t : Decision (settled t).
Proof. unfold settled. apply _. Defined.

Definition of_job (jid : string) (s : Scheduler) (t : Task) : Prop :=
  ∃ id, tasks s !! id = Some t ∧ tJobID t = jid.

(** What a job's status says of its tasks. *)
Definition verdict (jid : string) (st : JobStatus) (s : Scheduler) : Prop :=
  match st with
  | JobRunning => ∃ t, of_job jid s t ∧ ¬ settled t
  | JobCompleted => (∃ t, of_job jid s t) ∧ ∀ t, of_job jid s t → tStatus t = TaskDone
  | JobFailed => (∃ t, of_job jid s t ∧ tStatus t = TaskFailed) ∧ ∀ t, of_job jid s t → settled t
  | _ => False
  end.

Record acct_ok (s : Scheduler) : Prop := {
  acct_verdict : ∀ jid j, jobs s !! jid = Some j → verdict jid (jStatus j) s;
  acct_failed : ∀ id t, tasks s !! id = Some t → tStatus t = TaskFailed → tMaxRetries t ≤ tRetries t;
}.

Lemma acct_ext s s' : jobs s' = jobs s → tasks s' = tasks s → acct_ok s → acct_ok s'.
Proof.
  intros Ej Et [H1 H2]. split.
  - intros jid j. rewrite Ej. intros Hj. specialize (H1 jid j Hj).
    unfold verdict, of_job in *. by rewrite Et.
  - by rewrite Et.
Qed.

Lemma jobs_persist s : jobs (persistLocked s) = jobs s.
Proof. unfold persistLocked. by destruct (store s). Qed.
#[export] Hint Rewrite jobs_persist : dip.

Lemma acct_persist s : acct_ok s → acct_ok (persistLocked s).
Proof. apply acct_ext; [apply jobs_persist|apply tasks_persist]. Qed.

Lemma of_job_put jid s id t t' :
  tasks s !! id = Some t → tJobID t' = tJobID t →
  ∀ u, of_job jid (put_task id t' s) u ↔
    (u = t' ∧ tJobID t = jid) ∨ ∃ x, x ≠ id ∧ tasks s !! x = Some u ∧ tJobID u = jid.
Proof.
  intros Ht Hj u. unfold of_job, put_task. simpl. split.
  - intros (x & Hx & Hu). rewrite lookup_insert in Hx. case_decide; [|eauto].
    simplify_eq. left. split; [done|congruence].
  - intros [[-> Hu]|(x & Hne & Hx & Hu)].
    + exists id. rewrite lookup_insert_eq. split; [done|congruence].
    + exists x. rewrite lookup_insert_ne by done. done.
Qed.

(** A change of task that does not settle or unsettle it. *)
Definition same_phase (t t' : Task) : Prop :=
  tStatus t' = tStatus t ∨ (¬ settled t ∧ ¬ settled t').

Lemma verdict_put jid st s id t t' :
  tasks s !! id = Some t → tJobID t' = tJobID t → same_phase t t' →
  verdict jid st s → verdict jid st (put_task id t' s).
Proof.
  intros Ht Hj Hph.
  assert (∀ P : TaskStatus → Prop, (P (tStatus t) → P (tStatus t')) →
    (∃ u, of_job jid s u ∧ P (tStatus u)) → ∃ u, of_job jid (put_task id t' s) u ∧ P (tStatus u)) as Hex.
  { intros P HP (u & (x & Hx & Hu) & Pu). destruct (decide (x = id)) as [->|Hne].
    - simplify_eq. exists t'. split; [|by apply HP]. apply (of_job_put _ _ _ t); auto.
    - exists u. split; [|done]. apply (of_job_put _ _ _ t); eauto. }
  assert (∀ P : TaskStatus → Prop, (tJobID t = jid → P (tStatus t) → P (tStatus t')) →
    (∀ u, of_job jid s u → P (tStatus u)) → ∀ u, of_job jid (put_task id t' s) u → P (tStatus u)) as Hall.
  { intros P HP Hs u [[-> Hu]|(x & Hne & Hx & Hu)]%(of_job_put _ _ _ t); try done.
    - apply HP; [done|]. apply Hs. by exists id.
    - apply Hs. by exists x. }
  unfold verdict, same_phase, settled in *. destruct st; try done.
  - intros H. apply (Hex (λ x, ¬ (x = TaskDone ∨ x = TaskFailed))); [|done].
    destruct Hph as [->|[? ?]]; auto.
  - intros [H1 H2]. split.
    + destruct H1 as [u Hu].
      destruct (Hex (λ _, True) (λ _, I) (ex_intro _ u (conj Hu I))) as (v & Hv & _). by exists v.
    + apply (Hall (λ x, x = TaskDone)); [|done]. destruct Hph as [->|[Hn _]]; [done|tauto].
  - intros [H1 H2]. split.
    + apply (Hex (λ x, x = TaskFailed)); [|done]. destruct Hph as [->|[Hn _]]; [done|tauto].
    + apply (Hall (λ x, x = TaskDone ∨ x = TaskFailed)); [|done].
      destruct Hph as [->|[Hn _]]; [done|tauto].
Qed.

Lemma acct_put s id t t' :
  acct_ok s → tasks s !! id = Some t → tJobID t' = tJobID t → same_phase t t' →
  tMaxRetries t' = tMaxRetries t → tRetries t ≤ tRetries t' → acct_ok (put_task id t' s).
Proof.
  intros [H1 H2] Ht Hj Hph Hm Hr. split.
  - intros jid j Hjob. by apply (verdict_put _ _ _ _ t); auto.
  - intros x u Hu. unfold put_task in Hu. simpl in Hu. lookup_cases Hu; [|by eapply H2].
    intros Hf. destruct Hph as [E|[_ Hn]]; [|by destruct Hn; right].
    rewrite E in Hf. specialize (H2 _ _ Ht Hf). lia.
Qed.

(** ** [updateJob] *)

Lemma count_zero (P : TaskStatus → Prop) `{!∀ x, Decision (P x)} l :
  count_status P l = 0 ↔ ∀ t, t ∈ l → ¬ P (tStatus t).
Proof.
  unfold count_status. split.
  - intros Hc t Ht HP.
    assert (t ∈ filter (λ u, P (tStatus u)) l) as Hin by (by apply list_elem_of_filter).
    destruct (filter (λ u, P (tStatus u)) l); [set_solver|simpl in Hc; lia].
  - intros Hc. by rewrite (filter_none (λ t, P (tStatus t)) l).
Qed.

Lemma count_pos (P : TaskStatus → Prop) `{!∀ x, Decision (P x)} l :
  0 < count_status P l ↔ ∃ t, t ∈ l ∧ P (tStatus t).
Proof.
  unfold count_status. split.
  - intros Hc. destruct (filter (λ u, P (tStatus u)) l) as [|t fl] eqn:E; [simpl in Hc; lia|].
    assert (t ∈ filter (λ u, P (tStatus u)) l) as Hin by (rewrite E; set_solver).
    apply list_elem_of_filter in Hin as [? ?]. eauto.
  - intros (t & Ht & HP).
    assert (t ∈ filter (λ u, P (tStatus u)) l) as Hin by (by apply list_elem_of_filter).
    destruct (filter (λ u, P (tStatus u)) l); [set_solver|simpl; lia].
Qed.

Lemma of_job_tasks jid s t : of_job jid s t ↔ t ∈ job_tasks jid s.
Proof. rewrite elem_of_job_tasks. unfold of_job. firstorder. Qed.

Lemma updateJob_other now jid s x : x ≠ jid → jobs (updateJob now jid s) !! x = jobs s !! x.
Proof.
  intros Hne. unfold updateJob. destruct (jobs s !! jid); [|done].
  assert (∀ y s', jobs (call_hook y s') = jobs s') as Hh by (intros y s'; unfold call_hook; by destruct (onJobDone s')).
  case_match; rewrite ?Hh; simpl; by rewrite lookup_insert_ne.
Qed.

(** What [updateJob] does to the job and to the hook's calls. *)
Lemma updateJob_spec now jid s j :
  jobs s !! jid = Some j →
  ∃ j', jobs (updateJob now jid s) !! jid = Some j' ∧
    ((∃ t, of_job jid s t ∧ ¬ settled t) ∧ jStatus j' = jStatus j ∧
       onJobDone (updateJob now jid s) = onJobDone s
     ∨ (∀ t, of_job jid s t → settled t) ∧
       (jStatus j' = JobFailed ∧ (∃ t, of_job jid s t ∧ tStatus t = TaskFailed) ∨
        jStatus j' = JobCompleted ∧ ∀ t, of_job jid s t → tStatus t ≠ TaskFailed) ∧
       onJobDone (updateJob now jid s) = (λ calls, calls ++ [jid]) <$> onJobDone s).
Proof.
  intros Hj. unfold updateJob. rewrite Hj.
  set (ts := job_tasks jid s). set (pending := count_status (λ x, x ≠ TaskDone ∧ x ≠ TaskFailed) ts).
  set (failed := count_status (λ x, x = TaskFailed) ts).
  destruct (Z.gtb_spec pending 0) as [Hp|Hp].
  - eexists. split; [simpl; by rewrite lookup_insert_eq|]. left. split; [|done].
    apply count_pos in Hp as (t & Ht & H1 & H2).
    exists t. split; [by apply of_job_tasks|]. intros [?|?]; done.
  - assert (∀ t, of_job jid s t → settled t) as Hall.
    { assert (pending = 0) as H0 by (unfold pending, count_status in *; lia).
      intros t Ht%of_job_tasks. pose proof (proj1 (count_zero _ ts) H0 t Ht) as Hn.
      cbv beta in Hn.
      unfold settled. destruct (tStatus t); auto; by destruct Hn. }
    assert (∀ x : Scheduler, onJobDone (call_hook jid x) = (λ calls, calls ++ [jid]) <$> onJobDone x) as Hh.
    { intros x. unfold call_hook. by destruct (onJobDone x) eqn:E; simpl; rewrite ?E. }
    assert (∀ x : Scheduler, jobs (call_hook jid x) = jobs x) as Hk.
    { intros x. unfold call_hook. by destruct (onJobDone x). }
    eexists. split.
    + rewrite Hk. simpl. by rewrite lookup_insert_eq.
    + right. split; [done|]. split; [|by rewrite Hh].
      destruct (Z.gtb_spec failed 0) as [Hf|Hf]; simpl.
      * left. split; [done|]. apply count_pos in Hf as (t & Ht & Hst).
        exists t. by rewrite of_job_tasks.
      * right. split; [done|]. intros t Ht%of_job_tasks.
        assert (failed = 0) as H0 by (unfold failed, count_status in *; lia).
        by apply (proj1 (count_zero _ ts) H0 t Ht).
Qed.

(** ** Settling a task *)

Lemma verdict_other jid st s s' :
  (∀ t, of_job jid s' t ↔ of_job jid s t) → verdict jid st s → verdict jid st s'.
Proof. unfold verdict. intros Heq. destruct st; try setoid_rewrite Heq; done. Qed.

Lemma of_job_put_other jid s id t t' :
  tasks s !! id = Some t → tJobID t' = tJobID t → tJobID t ≠ jid →
  ∀ u, of_job jid (put_task id t' s) u ↔ of_job jid s u.
Proof.
  intros Ht Hj Hne u. rewrite (of_job_put _ _ _ t) by done. split.
  - intros [[_ ?]|(x & _ & Hx & Hu)]; [done|]. by exists x.
  - intros (x & Hx & Hu). right. exists x. split; [|done]. intros ->. congruence.
Qed.

Lemma of_job_update now jid x s u : of_job jid (updateJob now x s) u ↔ of_job jid s u.
Proof. unfold of_job. by rewrite tasks_update. Qed.

Definition terminal (st : JobStatus) : Prop := st = JobCompleted ∨ st = JobFailed.

(** Settling a task settles its job's account: the verdict of the job is
    recomputed, and the hook is called when it is final. *)
Lemma settle_job s now id t t' :
  acct_ok s → tasks s !! id = Some t → tJobID t' = tJobID t → settled t' → 
  ∀ j, jobs s !! tJobID t = Some j →
  ∃ j', jobs (updateJob now (tJobID t) (put_task id t' s)) !! tJobID t = Some j' ∧
    verdict (tJobID t) (jStatus j') (updateJob now (tJobID t) (put_task id t' s)) ∧
    (jStatus j = JobRunning ∧ jStatus j' = JobRunning ∧
       onJobDone (updateJob now (tJobID t) (put_task id t' s)) = onJobDone s
     ∨ terminal (jStatus j') ∧
       onJobDone (updateJob now (tJobID t) (put_task id t' s)) =
         (λ calls, calls ++ [tJobID t]) <$> onJobDone s).
Proof.
  intros [Hv _] Ht Hj Hset j Hjob. specialize (Hv _ _ Hjob).
  destruct (updateJob_spec now (tJobID t) (put_task id t' s) j Hjob) as (j' & Hj' & Hcase).
  exists j'. split; [done|].
  destruct Hcase as [((u & Hu & Hns) & Hst & Hh)|(Hall & Hst & Hh)].
  - assert (of_job (tJobID t) s u) as Hu'.
    { apply (of_job_put _ _ _ t) in Hu as [[-> _]|(x & _ & Hx & Hxj)]; try done. by exists x. }
    assert (jStatus j = JobRunning) as Hrun.
    { destruct (jStatus j); try done; destruct Hv as [_ Hv]; specialize (Hv u Hu'); destruct Hns; [by left|done]. }
    rewrite Hst, Hrun. split; [exists u; by rewrite of_job_update|]. left. done.
  - assert (of_job (tJobID t) (put_task id t' s) t') as Ht'.
    { apply (of_job_put _ _ _ t); auto. }
    split; [|right; split; [destruct Hst as [[-> _]|[-> _]]; [by right|by left]|done]].
    destruct Hst as [[-> (u & Hu & Huf)]|[-> Hnf]]; simpl; split.
    + exists u. by rewrite of_job_update.
    + intros v Hv'%of_job_update. by apply Hall.
    + exists t'. by rewrite of_job_update.
    + intros v Hv'%of_job_update. destruct (Hall v Hv') as [?|?]; [done|by apply Hnf in Hv'].
Qed.

Lemma acct_settle s now id t t' :
  acct_ok s → tasks s !! id = Some t → tJobID t' = tJobID t → settled t' →
  (tStatus t' = TaskFailed → tMaxRetries t' ≤ tRetries t') →
  acct_ok (updateJob now (tJobID t) (put_task id t' s)).
Proof.
  intros Hs Ht Hj Hset Hf. split.
  - intros jid k Hk. destruct (decide (jid = tJobID t)) as [->|Hne].
    + destruct (jobs s !! tJobID t) as [j|] eqn:Hjob.
      * destruct (settle_job s now id t t' Hs Ht Hj Hset j Hjob) as (j' & Hj' & Hv & _). congruence.
      * unfold updateJob in Hk. simpl in Hk. rewrite Hjob in Hk. simpl in Hk. congruence.
    + rewrite updateJob_other in Hk by done.
      eapply verdict_other; [|by apply (acct_verdict _ Hs)]. intros u.
      rewrite of_job_update. by apply (of_job_put_other _ _ _ t).
  - intros x u. rewrite tasks_update. unfold put_task. simpl. intros Hu. lookup_cases Hu; [done|].
    by apply (acct_failed _ Hs x).
Qed.

(** ** Every operation keeps the account *)

Lemma in_flight_unsettled t : in_flight t = true → ¬ settled t.
Proof. unfold in_flight, settled. intros [?|?]%bool_decide_eq_true [?|?]; congruence. Qed.

Lemma pending_unsettled t : tStatus t = TaskPending → ¬ settled t.
Proof. unfold settled. intros -> [?|?]; done. Qed.

Lemma acct_new_task s id t :
  acct_ok s → tasks s !! id = None → ¬ settled t →
  (∀ j, jobs s !! tJobID t = Some j → jStatus j = JobRunning) →
  acct_ok (bump_total (tJobID t) (put_task id t s)).
Proof.
  intros [H1 H2] Hn Hset Hrun.
  assert (∀ jid u, of_job jid s u → of_job jid (bump_total (tJobID t) (put_task id t s)) u) as Hmono.
  { intros jid u (x & Hx & Hu). exists x. rewrite tasks_bump. simpl.
    rewrite lookup_insert_ne by congruence. done. }
  assert (∀ jid u, of_job jid (bump_total (tJobID t) (put_task id t s)) u → jid ≠ tJobID t → of_job jid s u) as Hinv.
  { intros jid u (x & Hx & Hu) Hne. rewrite tasks_bump in Hx. simpl in Hx. lookup_cases Hx. by exists x. }
  split.
  - intros jid k Hk. unfold bump_total in Hk. simpl in Hk.
    assert (∃ k0, jobs s !! jid = Some k0 ∧ jStatus k0 = jStatus k) as (k0 & Hk0 & Est).
    { destruct (jobs s !! tJobID t) as [j|] eqn:Hj; simpl in Hk; [|eauto]. lookup_cases Hk; eauto. }
    specialize (H1 _ _ Hk0). rewrite <- Est. destruct (decide (jid = tJobID t)) as [->|Hne].
    + rewrite (Hrun _ Hk0) in *. destruct H1 as (u & Hu & ?). exists u. split; [by apply Hmono|done].
    + eapply verdict_other; [|done]. intros u. split; [intros Hu; by apply Hinv|apply Hmono].
  - intros x u. rewrite tasks_bump. simpl. intros Hu. lookup_cases Hu; [|by apply (H2 x)].
    intros Hf. destruct Hset. by right.
Qed.

(** Workers start only tasks that are in flight. *)
Definition polite (o : op) (s : Scheduler) : Prop :=
  match o with OpStart _ id => ∀ t, tasks s !! id = Some t → in_flight t = true | _ => True end.

Lemma acct_queue q s : acct_ok s → acct_ok (s <| pendingQ := q |>).
Proof. by apply acct_ext. Qed.

Lemma acct_PollTasks {R} `{ShardOwner R} (r : R) now order newID w s :
  sched_ok s → acct_ok s → tasks s !! newID = None → acct_ok (PollTasks r now order newID w s).2.
Proof.
  intros Hs Ha Hnew. destruct (PollTasks_outcome r now order newID w s Hs) as (a & _ & Hout).
  destruct Hout as [k tid t j _ Hq Ht Hst Hj|vid t j split _ Hin Ht [Hfl He] _ Hsp Hbt _ Hj|]; [| |done].
  - apply acct_persist. destruct (assigned_fields now w (leaseChunk s) t) as (g & E & _).
    apply (acct_put _ tid t); rewrite ?E; try done; [by apply acct_queue|].
    right. split; [by apply pending_unsettled|]. intros [?|?]; done.
  - apply acct_persist.
    set (t' := assigned now w (leaseChunk s) (stolen_task newID t split)).
    assert (tJobID t = tJobID t') as -> by (unfold t'; by_assigned).
    apply acct_new_task.
    + apply (acct_put s vid t); try done. by left.
    + simpl. rewrite lookup_insert_ne by congruence. done.
    + intros [?|?]; unfold t' in *; rewrite assigned_status in *; done.
    + intros k Hk. unfold t' in Hk. rewrite assigned_job in Hk. simpl in Hk.
      pose proof (acct_verdict _ Ha _ _ Hk) as Hv.
      destruct (jStatus k); simpl in Hv; try done; destruct Hv as [_ Hv], (in_flight_unsettled t Hfl).
      * left. apply Hv. by exists vid.
      * apply Hv. by exists vid.
Qed.

Lemma acct_finish now id req s : acct_ok s → acct_ok (report_finish now id req s).2.
Proof.
  intros Ha. unfold report_finish. destruct (tasks s !! id) as [t|] eqn:Ht; [|done].
  case_bool_decide as Hnd; [done|]. case_bool_decide; simpl.
  - destruct (Z.ltb_spec (tRetries t) (tMaxRetries t)); apply acct_persist.
    + apply acct_queue, (acct_put s id t); try done; [|simpl; lia]. right. split; [|by intros [?|?]].
      intros [?|Hf]; [done|]. pose proof (acct_failed _ Ha id t Ht Hf). lia.
    + apply acct_settle; try done. by right.
  - apply acct_persist. apply acct_settle; try done. by left.
Qed.

Lemma acct_rebalance_step now w acc id :
  acct_ok acc.2 → acct_ok (rebalance_step now w acc id).2.
Proof.
  destruct acc as [n s]. simpl. intros Ha. destruct (tasks s !! id) as [t|] eqn:Ht; [|done].
  case_bool_decide; [done|]. destruct (in_flight t) eqn:Hf; [|done]. simpl.
  destruct (Z.ltb_spec (tRetries t) (tMaxRetries t)); simpl.
  - apply acct_queue, (acct_put s id t); try done; [|simpl; lia]. right.
    split; [by apply in_flight_unsettled|by intros [?|?]].
  - apply acct_settle; try done. by right.
Qed.

Lemma acct_Rebalance now order w s : acct_ok s → acct_ok (RebalanceWorker now order w s).
Proof.
  intros Ha. unfold RebalanceWorker.
  pose proof (foldl_inv (λ acc, acct_ok acc.2) (rebalance_step now w) (0%nat, s) order Ha
    (λ acc x _, acct_rebalance_step now w acc x)) as H.
  destruct (foldl _ _ order) as [n s']. simpl in H. case_match; [by apply acct_persist|done].
Qed.

Lemma acct_RenewLease id req s : acct_ok s → acct_ok (RenewLease id req s).2.
Proof.
  intros Ha. unfold RenewLease. destruct (tasks s !! id) as [t|] eqn:Ht; [|done]. cbn [snd].
  destruct (renew_keeps (leaseChunk s) req t) as (e & f & g & E & _).
  apply acct_persist, (acct_put s id t); rewrite ?E; try done. by left.
Qed.

Lemma acct_StartTask now id s :
  acct_ok s → (∀ t, tasks s !! id = Some t → in_flight t = true) → acct_ok (StartTask now id s).2.
Proof.
  intros Ha Hp. unfold StartTask. destruct (tasks s !! id) as [t|] eqn:Ht; [|done]. cbn [snd].
  apply acct_persist, (acct_put s id t); try done. right.
  split; [by apply in_flight_unsettled, Hp|by intros [?|?]].
Qed.

Lemma acct_drain_step now acc id :
  (∀ x t, tasks acc.2 !! x = Some t → is_Some (jobs acc.2 !! tJobID t)) →
  acct_ok acc.2 → acct_ok (drain_step now acc id).2.
Proof.
  destruct acc as [out s]. intros Hj Ha. rewrite drain_step_state by done. simpl in *.
  destruct (tasks s !! id) as [t|] eqn:Ht; [|done]. case_decide as Hst; [|done].
  destruct (drained_fields now (leaseChunk s) t) as (g & E & _).
  apply (acct_put s id t); rewrite ?E; try done. right.
  split; [by apply pending_unsettled|by intros [?|?]].
Qed.

Lemma drain_loop_acct now ids out s q :
  sched_ok (s <| pendingQ := ids ++ q |>) → acct_ok s →
  acct_ok (foldl (drain_step now) (out, s) ids).2.
Proof.
  revert out s. induction ids as [|tid ids IH]; intros out s Hs Ha; [done|].
  destruct (drain_step_ok now out s tid (ids ++ q) Hs) as [Hs' _].
  pose proof (acct_drain_step now (out, s) tid (ok_task_job _ Hs) Ha) as Ha'.
  change (foldl (drain_step now) (out, s) (tid :: ids))
    with (foldl (drain_step now) (drain_step now (out, s) tid) ids).
  destruct (drain_step now (out, s) tid) as [out' s']. by apply IH.
Qed.

Lemma acct_Drain now n s : sched_ok s → acct_ok s → acct_ok (DrainPending now n s).2.
Proof.
  intros Hs Ha. unfold DrainPending. set (m := if n >? _ then _ else n).
  destruct (m =? 0); [done|]. destruct (m <? 0); [done|].
  set (q := drop (Z.to_nat m) (pendingQ s)).
  pose proof (drain_loop_acct now (take (Z.to_nat m) (pendingQ s)) [] (s <| pendingQ := q |>) q) as H.
  destruct (foldl _ _ _) as [out s']. cbn [snd] in *. apply acct_persist, H; [|by apply acct_queue].
  unfold q. simpl. rewrite take_drop. by destruct s.
Qed.

(** The tasks after the loop of [Submit]. *)
Lemma submit_loop_tasks job ps s :
  NoDup ps.*2 →
  (∀ x, x ∉ ps.*2 → tasks (foldl (submit_task job) s ps) !! x = tasks s !! x) ∧
  (∀ sh tid, (sh, tid) ∈ ps → ∃ t, tasks (foldl (submit_task job) s ps) !! tid = Some t ∧
     tJobID t = jID job ∧ tShard t = sh ∧ tStatus t = TaskPending).
Proof.
  revert s. induction ps as [|[sh0 tid0] ps IH]; intros s Hnd; [set_solver|].
  rewrite fmap_cons in Hnd. apply NoDup_cons in Hnd as [Hp Hnd].
  destruct (IH (submit_task job s (sh0, tid0)) Hnd) as [IH1 IH2]. cbn [foldl]. split.
  - intros x Hx. rewrite fmap_cons in Hx. rewrite IH1 by set_solver. simpl.
    rewrite lookup_insert_ne; [done|]. intros ->. apply Hx. set_solver.
  - intros sh tid [[= -> ->]|Hin]%elem_of_cons; [|by apply IH2].
    rewrite IH1 by done. eexists. split; [simpl; by rewrite lookup_insert_eq|done].
Qed.

Lemma Submit_tasks created now jid tids req s :
  submit_fresh jid tids req s →
  (∀ x, x ∉ tids → tasks (Submit created now jid tids req s).2 !! x = tasks s !! x) ∧
  (∀ sh tid, (sh, tid) ∈ zip (submit_shards req) tids →
     ∃ t, tasks (Submit created now jid tids req s).2 !! tid = Some t ∧
     tJobID t = jid ∧ tShard t = sh ∧ tStatus t = TaskPending).
Proof.
  intros (Hj & Hnd & Hlen & Hfresh). unfold Submit. cbn [snd]. rewrite tasks_persist. simpl.
  pose proof (submit_loop_tasks (new_job created jid req) (zip (submit_shards req) tids)
    (s <| jobs := <[jid := new_job created jid req]> (jobs s) |>)) as Hl.
  rewrite snd_zip in Hl by lia. by apply Hl.
Qed.

Lemma Submit_jobs created now jid tids req s :
  ∃ j, jStatus j = JobRunning ∧ jobs (Submit created now jid tids req s).2 = <[jid := j]> (jobs s).
Proof.
  unfold Submit. cbn [snd]. rewrite jobs_persist. simpl.
  assert (∀ ps s0, jobs (foldl (submit_task (new_job created jid req)) s0 ps) = jobs s0) as E.
  { induction ps as [|[sh tid] ps IH]; intros s0; [done|]. simpl. by rewrite IH. }
  rewrite E. simpl. rewrite insert_insert_eq. eexists. split; [|reflexivity]. done.
Qed.

Lemma submit_shards_nonempty req : submit_shards req ≠ [].
Proof.
  unfold submit_shards. destruct (sjShards req); simpl; [|done].
  intros E. apply (f_equal length) in E. rewrite length_AllShards in E. done.
Qed.

Lemma acct_Submit created now jid tids req s :
  sched_ok s → acct_ok s → submit_fresh jid tids req s →
  acct_ok (Submit created now jid tids req s).2.
Proof.
  intros Hs [H1 H2] Hf. pose proof Hf as (Hj & Hnd & Hlen & Hfresh).
  destruct (Submit_tasks created now jid tids req s Hf) as [Hold Hnew].
  destruct (Submit_jobs created now jid tids req s) as (j & Hrun & Ejobs).
  set (s' := (Submit created now jid tids req s).2) in *.
  assert (∀ x, x ∈ tids → ∃ sh, (sh, x) ∈ zip (submit_shards req) tids) as Hzip.
  { intros x [i Hi]%list_elem_of_lookup.
    destruct (lookup_lt_is_Some_2 (submit_shards req) i) as [sh Hsh].
    { rewrite <- Hlen. by eapply lookup_lt_Some. }
    exists sh. apply list_elem_of_lookup. exists i. by rewrite lookup_zip_with, Hsh, Hi. }
  split.
  - intros x k Hk. rewrite Ejobs in Hk. lookup_cases Hk.
    + rewrite Hrun. destruct (submit_shards req) as [|sh shs] eqn:Esh; [by destruct (submit_shards_nonempty req)|].
      destruct tids as [|tid tids]; [done|]. destruct (Hnew sh tid) as (t & Ht & Htj & _ & Hst); [simpl; set_solver|].
      exists t. split; [by exists tid|by apply pending_unsettled].
    + eapply verdict_other; [|by apply H1]. intros u. split; intros (y & Hy & Hu).
      * destruct (decide (y ∈ tids)) as [Hin|Hout]; [|rewrite Hold in Hy by done; by exists y].
        destruct (Hzip y Hin) as [sh Hz]. destruct (Hnew sh y Hz) as (t & Ht & Htj & _). congruence.
      * exists y. rewrite Hold; [done|]. intros Hin. rewrite (Hfresh y Hin) in Hy. done.
  - intros x u Hu Hst. destruct (decide (x ∈ tids)) as [Hin|Hout]; [|rewrite Hold in Hu by done; by eapply H2].
    destruct (Hzip x Hin) as [sh Hz]. destruct (Hnew sh x Hz) as (t & Ht & _ & _ & Hp). congruence.
Qed.

Lemma run_op_acct {R} `{ShardOwner R} (r : R) o s :
  sched_ok s → acct_ok s → valid_op o s → polite o s → acct_ok (run_op r o s).
Proof.
  intros Hs Ha Hv Hp. destruct o; simpl in *.
  - by apply acct_Submit, Hv.
  - apply acct_PollTasks; [done..|apply Hv].
  - by apply acct_StartTask.
  - by apply acct_finish.
  - by apply acct_RenewLease.
  - by apply acct_Rebalance.
  - by apply acct_Drain.
  - unfold SetLeaseChunk. case_match; [done|by apply (acct_ext s)].
  - by apply (acct_ext s).
  - by apply (acct_ext s).
Qed.

(** ** The completion hook *)

Definition job_terminal (s : Scheduler) (jid : string) : Prop :=
  ∃ j, jobs s !! jid = Some j ∧ terminal (jStatus j).

(** The hook was called once for each finished job, and for no other. *)
Definition hook_ok (s : Scheduler) : Prop :=
  ∀ calls, onJobDone s = Some calls → NoDup calls ∧ ∀ jid, jid ∈ calls ↔ job_terminal s jid.

(** No task is reported on after it failed for good, and the hook is not
    installed again. *)
Definition punctual (o : op) (s : Scheduler) : Prop :=
  match o with
  | OpFinish _ id _ => ∀ t, tasks s !! id = Some t → tStatus t ≠ TaskFailed
  | OpSetHook => False
  | _ => True
  end.

Lemma hook_same s s' :
  onJobDone s' = onJobDone s → (∀ jid, job_terminal s' jid ↔ job_terminal s jid) →
  hook_ok s → hook_ok s'.
Proof.
  intros Eh Hj Hok calls Hc. rewrite Eh in Hc. destruct (Hok calls Hc) as [Hnd Hin].
  split; [done|]. intros jid. by rewrite Hj.
Qed.

Lemma hook_jobs s s' : onJobDone s' = onJobDone s → jobs s' = jobs s → hook_ok s → hook_ok s'.
Proof. intros Eh Ej. apply hook_same; [done|]. intros jid. unfold job_terminal. by rewrite Ej. Qed.

Lemma hook_persisted s : onJobDone (persistLocked s) = onJobDone s.
Proof. unfold persistLocked. by destruct (store s). Qed.

Lemma hook_persist s : hook_ok s → hook_ok (persistLocked s).
Proof. apply hook_jobs; [apply hook_persisted|apply jobs_persist]. Qed.

(** Settling a task that was open fires the hook exactly when the job ends. *)
Lemma hook_settle s now id t t' :
  acct_ok s → hook_ok s → tasks s !! id = Some t → ¬ settled t → tJobID t' = tJobID t → settled t' →
  hook_ok (updateJob now (tJobID t) (put_task id t' s)).
Proof.
  intros Ha Hh Ht Hns Hj Hset.
  destruct (jobs s !! tJobID t) as [j|] eqn:Hjob.
  2:{ unfold updateJob. simpl. rewrite Hjob. by apply (hook_jobs s). }
  destruct (settle_job s now id t t' Ha Ht Hj Hset j Hjob) as (j' & Hj' & _ & Hcase).
  assert (jStatus j = JobRunning) as Hrun.
  { pose proof (acct_verdict _ Ha _ _ Hjob) as Hv. assert (of_job (tJobID t) s t) as Hof by (by exists id).
    destruct (jStatus j); simpl in Hv; try done; destruct Hv as [_ Hv]; specialize (Hv t Hof);
      destruct Hns; [by left|done]. }
  set (s' := updateJob now (tJobID t) (put_task id t' s)) in *.
  assert (∀ x, x ≠ tJobID t → job_terminal s' x ↔ job_terminal s x) as Hother.
  { intros x Hx. unfold job_terminal, s'. by rewrite updateJob_other. }
  assert (¬ job_terminal s (tJobID t)) as Hnt.
  { intros (k & Hk & [?|?]); simplify_eq; congruence. }
  destruct Hcase as [(_ & Hst & Eh)|(Hterm & Eh)].
  - apply (hook_same s); [done| |done]. intros x. destruct (decide (x = tJobID t)) as [->|]; [|by apply Hother].
    split; [|done]. intros (k & Hk & [?|?]); simplify_eq; congruence.
  - intros calls Hc. rewrite Eh in Hc. destruct (onJobDone s) as [calls0|] eqn:E0; simplify_eq/=.
    destruct (Hh calls0 E0) as [Hnd Hin]. split.
    + apply NoDup_app. split_and!; [done| |apply NoDup_singleton].
      intros x Hx ->%list_elem_of_singleton. by apply Hin in Hx.
    + intros x. rewrite elem_of_app, list_elem_of_singleton.
      destruct (decide (x = tJobID t)) as [->|Hne].
      * split; [intros _; by exists j'|by right].
      * rewrite Hother, Hin by done. naive_solver.
Qed.

Lemma hook_finish now id req s :
  acct_ok s → hook_ok s → (∀ t, tasks s !! id = Some t → tStatus t ≠ TaskFailed) →
  hook_ok (report_finish now id req s).2.
Proof.
  intros Ha Hh Hp. unfold report_finish. destruct (tasks s !! id) as [t|] eqn:Ht; [|done].
  case_bool_decide as Hnd; [done|].
  assert (¬ settled t) as Hns by (intros [?|?]; [done|by apply (Hp t)]).
  case_bool_decide; simpl.
  - destruct (Z.ltb_spec (tRetries t) (tMaxRetries t)); apply hook_persist.
    + by apply (hook_jobs s).
    + apply hook_settle; try done. by right.
  - apply hook_persist. apply hook_settle; try done. by left.
Qed.

Lemma hook_rebalance_step now w acc id :
  acct_ok acc.2 → hook_ok acc.2 → hook_ok (rebalance_step now w acc id).2.
Proof.
  destruct acc as [n s]. simpl. intros Ha Hh. destruct (tasks s !! id) as [t|] eqn:Ht; [|done].
  case_bool_decide; [done|]. destruct (in_flight t) eqn:Hf; [|done]. simpl.
  destruct (Z.ltb_spec (tRetries t) (tMaxRetries t)); simpl.
  - by apply (hook_jobs s).
  - apply hook_settle; try done; [by apply in_flight_unsettled|by right].
Qed.

Lemma hook_Rebalance now order w s : acct_ok s → hook_ok s → hook_ok (RebalanceWorker now order w s).
Proof.
  intros Ha Hh. unfold RebalanceWorker.
  assert (acct_ok (foldl (rebalance_step now w) (0%nat, s) order).2 ∧
          hook_ok (foldl (rebalance_step now w) (0%nat, s) order).2) as [_ H].
  { apply (foldl_inv (λ acc, acct_ok acc.2 ∧ hook_ok acc.2)); [done|].
    intros acc x _ [? ?]. split; [by apply acct_rebalance_step|by apply hook_rebalance_step]. }
  destruct (foldl _ _ order) as [n s']. simpl in H. case_match; [by apply hook_persist|done].
Qed.

Lemma bump_terminal jid s x : job_terminal (bump_total jid s) x ↔ job_terminal s x.
Proof.
  unfold job_terminal, bump_total. destruct (jobs s !! jid) as [j|] eqn:Hj; [|done]. simpl.
  rewrite lookup_insert. case_decide; [|done]. subst.
  split; intros (k & Hk & Hst); simplify_eq/=; eauto.
Qed.

Lemma bump_hook jid s : onJobDone (bump_total jid s) = onJobDone s.
Proof. unfold bump_total. by destruct (jobs s !! jid). Qed.

Lemma hook_PollTasks {R} `{ShardOwner R} (r : R) now order newID w s :
  sched_ok s → hook_ok s → hook_ok (PollTasks r now order newID w s).2.
Proof.
  intros Hs Hh. destruct (PollTasks_outcome r now order newID w s Hs) as (a & _ & Hout).
  destruct Hout; [| |done]; apply hook_persist.
  - by apply (hook_jobs s).
  - apply (hook_same s); [by rewrite bump_hook| |done]. intros x. by rewrite bump_terminal.
Qed.

Lemma hook_drain_step now acc id :
  jobs (drain_step now acc id).2 = jobs acc.2 ∧ onJobDone (drain_step now acc id).2 = onJobDone acc.2.
Proof.
  destruct acc as [out s]. simpl. destruct (tasks s !! id) as [t|]; [|done].
  case_bool_decide; [done|]. destruct (jobs s !! tJobID t); [|done]. by case_match.
Qed.

Lemma hook_Drain now n s : hook_ok s → hook_ok (DrainPending now n s).2.
Proof.
  intros Hh. unfold DrainPending. set (m := if n >? _ then _ else n).
  destruct (m =? 0); [done|]. destruct (m <? 0); [done|].
  match goal with |- context [foldl ?f (?o, ?s0) ?ids] =>
    assert (jobs (foldl f (o, s0) ids).2 = jobs s ∧ onJobDone (foldl f (o, s0) ids).2 = onJobDone s) as [Ej Eh] end.
  { apply (foldl_inv (λ acc, jobs acc.2 = jobs s ∧ onJobDone acc.2 = onJobDone s)); [done|].
    intros acc x _ [? ?]. destruct (hook_drain_step now acc x). split; congruence. }
  destruct (foldl _ _ _) as [out s']. simpl in *. apply hook_persist. by apply (hook_jobs s).
Qed.

Lemma Submit_hook created now jid tids req s :
  onJobDone (Submit created now jid tids req s).2 = onJobDone s.
Proof.
  unfold Submit. cbn [snd]. rewrite hook_persisted. simpl.
  assert (∀ ps s0, onJobDone (foldl (submit_task (new_job created jid req)) s0 ps) = onJobDone s0) as E.
  { induction ps as [|[sh tid] ps IH]; intros s0; [done|]. simpl. by rewrite IH. }
  by rewrite E.
Qed.

Lemma hook_Submit created now jid tids req s :
  jobs s !! jid = None → hook_ok s → hook_ok (Submit created now jid tids req s).2.
Proof.
  intros Hn Hh. destruct (Submit_jobs created now jid tids req s) as (j & Hrun & Ej).
  apply (hook_same s); [apply Submit_hook| |done].
  intros x. unfold job_terminal. rewrite Ej, lookup_insert. case_decide; [|done]. subst.
  rewrite Hn. split; [|by intros (? & ? & _)]. intros (k & [= <-] & [?|?]); congruence.
Qed.

Lemma run_op_hook {R} `{ShardOwner R} (r : R) o s :
  sched_ok s → acct_ok s → hook_ok s → valid_op o s → punctual o s → hook_ok (run_op r o s).
Proof.
  intros Hs Ha Hh Hv Hp. destruct o; simpl in *.
  - apply hook_Submit; [apply Hv|done].
  - by apply hook_PollTasks.
  - unfold StartTask. case_match; [|done]. apply hook_persist. by apply (hook_jobs s).
  - by apply hook_finish.
  - unfold RenewLease. case_match; [|done]. apply hook_persist. by apply (hook_jobs s).
  - by apply hook_Rebalance.
  - by apply hook_Drain.
  - unfold SetLeaseChunk. case_match; [done|by apply (hook_jobs s)].
  - done.
  - by apply (hook_jobs s).
Qed.

(** Runs of a scheduler whose workers are polite, with the hook installed at
    the start. *)
Inductive polite_run {R} `{ShardOwner R} (mr : Z) : Scheduler → Prop :=
| polite_new : polite_run mr (New mr)
| polite_op r o s : polite_run mr s → valid_op o s → polite o s → polite_run mr (run_op r o s).

Inductive punctual_run {R} `{ShardOwner R} (mr : Z) : Scheduler → Prop :=
| punctual_new : punctual_run mr (SetJobDoneHook (New mr))
| punctual_op r o s :
    punctual_run mr s → valid_op o s → polite o s → punctual o s → punctual_run mr (run_op r o s).

Lemma New_acct mr : acct_ok (New mr).
Proof. by split; intros *; simpl; rewrite lookup_empty. Qed.

Lemma polite_ok {R} `{ShardOwner R} mr s : polite_run (R:=R) mr s → sched_ok s ∧ acct_ok s.
Proof.
  induction 1 as [|r o s _ [IH1 IH2] Hv Hp]; [split; [apply New_ok|apply New_acct]|].
  split; [by apply run_op_ok|by apply run_op_acct].
Qed.

Lemma punctual_ok {R} `{ShardOwner R} mr s : punctual_run (R:=R) mr s → sched_ok s ∧ acct_ok s ∧ hook_ok s.
Proof.
  induction 1 as [|r o s _ (IH1 & IH2 & IH3) Hv Hp Hq].
  - pose proof (New_ok mr) as []. split_and!.
    + unfold SetJobDoneHook. by split; simpl.
    + apply (acct_ext (New mr)); [done..|]. apply New_acct.
    + intros calls [= <-]. split; [constructor|]. intros jid. split; [set_solver|].
      intros (j & Hj & _). simpl in Hj. by rewrite lookup_empty in Hj.
  - split_and!; [by apply run_op_ok|by apply run_op_acct|by apply run_op_hook].
Qed.
