(* ===== verification/Persist.v ===== *)
(** * Durability of the scheduler (internal/scheduler/persist.go)

    Every mutating call appends the whole state to the record store, so the
    last record is the current state and [Restore] brings it back; the order
    in which the Go code lists its maps does not matter. *)
From S2P Require Import Prelude GoLib Storage Ring Job Keys Scheduler SchedInv Tiling SchedSteps Accounting.
Open Scope Z_scope.

(** ** Rebuilding a keyed map from a list of its values *)

Section rebuild.
Context {A : Type} (key : A → string).

Definition by_key (m : gmap string A) (l : list A) : gmap string A :=
  foldl (λ m x, <[key x := x]> m) m l.

Lemma by_key_lookup l m k x :
  NoDup (key <$> l) →
  (by_key m l !! k = Some x) ↔ (x ∈ l ∧ key x = k) ∨ (k ∉ (key <$> l) ∧ m !! k = Some x).
Proof.
  revert m. induction l as [|y l IH]; intros m Hnd.
  { simpl. split; [intros; right; split; [set_solver|done]|]. intros [[? _]|[_ ?]]; [set_solver|done]. }
  rewrite fmap_cons in Hnd. apply NoDup_cons in Hnd as [Hy Hnd]. simpl.
  change (foldl _ ?m0 l) with (by_key m0 l). rewrite IH by done.
  rewrite elem_of_cons, not_elem_of_cons, lookup_insert. split.
  - intros [[Hx Hk]|[Hk Hm]]; [by left; auto|]. case_decide as E; [simplify_eq; left; auto|].
    right. auto.
  - intros [[[->|Hx] Hk]|[[Hne Hk] Hm]].
    + right. subst k. rewrite decide_True by done. done.
    + left. auto.
    + right. rewrite decide_False by congruence. done.
Qed.

Lemma by_key_elem l m k x : by_key m l !! k = Some x → x ∈ l ∨ m !! k = Some x.
Proof.
  revert m. induction l as [|y l IH]; intros m Hm; [by right|]. simpl in Hm.
  destruct (IH _ Hm) as [?|Hi]; [left; set_solver|]. lookup_cases Hi; [left; set_solver|by right].
Qed.

Lemma by_key_values (m : gmap string A) l :
  (∀ k x, m !! k = Some x → key x = k) → l ≡ₚ (map_to_list m).*2 → by_key ∅ l = m.
Proof.
  intros Hkey Hl. assert (NoDup (key <$> l)) as Hnd.
  { rewrite Hl. assert (key <$> (map_to_list m).*2 = (map_to_list m).*1) as ->.
    { rewrite <- list_fmap_compose. apply list_fmap_ext. intros i [k x] Hi. simpl.
      apply Hkey, elem_of_map_to_list. by eapply list_elem_of_lookup_2. }
    apply NoDup_fst_map_to_list. }
  assert (∀ x, x ∈ l ↔ ∃ k, m !! k = Some x) as Hin.
  { intros x. rewrite Hl, list_elem_of_fmap. split.
    - intros ([k y] & -> & Hy). exists k. by apply elem_of_map_to_list.
    - intros [k Hk]. exists (k, x). split; [done|]. by apply elem_of_map_to_list. }
  apply map_eq. intros k. apply option_eq. intros x. rewrite by_key_lookup by done.
  rewrite Hin. split.
  - intros [[[k' Hk'] <-]|[_ He]]; [|by rewrite lookup_empty in He]. by rewrite (Hkey _ _ Hk').
  - intros Hk. left. split; [by exists k|]. by apply Hkey.
Qed.
End rebuild.

(** A record of the state of [s], in whatever order the maps were listed. *)
Definition record_of (s : Scheduler) (st : schedulerState) : Prop :=
  stJobs st ≡ₚ (map_to_list (jobs s)).*2 ∧ stTasks st ≡ₚ (map_to_list (tasks s)).*2 ∧
  stPending st = pendingQ s.

(** [s'] holds the jobs, tasks and queue of [s]. *)
Definition same_state (s s' : Scheduler) : Prop :=
  jobs s' = jobs s ∧ tasks s' = tasks s ∧ pendingQ s' = pendingQ s.

Lemma install_record s st s0 : sched_ok s → record_of s st → same_state s (install_state st s0).
Proof.
  intros Hs (Hj & Ht & Hq). split_and!; [| |done].
  - apply (by_key_values jID); [|done]. intros k j Hk. by apply (ok_job_id _ Hs).
  - apply (by_key_values tID); [|done]. intros k t Hk. by apply (ok_task_id _ Hs).
Qed.

Lemma encode_record s : record_of s (encodeStateLocked s).
Proof. by split_and!. Qed.

(** ** The last record is the state *)

Definition durable (s : Scheduler) : Prop :=
  ∀ recs, store s = Some recs →
    last recs = Some (encodeStateLocked s) ∨
    recs = [] ∧ jobs s = ∅ ∧ tasks s = ∅ ∧ pendingQ s = [].

Lemma persist_durable s : durable (persistLocked s).
Proof.
  unfold durable, persistLocked. destruct (store s) as [recs|] eqn:E; [|by rewrite E].
  intros recs' [= <-]. left. by rewrite last_snoc.
Qed.

(** The calls that persist what they change. *)
Definition persists (o : op) (s : Scheduler) : Prop :=
  match o with
  | OpRebalance _ _ _ => False
  | OpAttach => jobs s = ∅ ∧ tasks s = ∅ ∧ pendingQ s = []
  | _ => True
  end.

Lemma durable_same s s' :
  jobs s' = jobs s → tasks s' = tasks s → pendingQ s' = pendingQ s → store s' = store s →
  durable s → durable s'.
Proof. unfold durable, encodeStateLocked. by intros -> -> -> ->. Qed.

Lemma run_op_durable {R} `{ShardOwner R} (r : R) o s :
  sched_ok s → persists o s → durable s → durable (run_op r o s).
Proof.
  intros Hs Hp Hd. destruct o; simpl in *; try done.
  - apply persist_durable.
  - destruct (PollTasks_outcome r now order newID workerID s Hs) as (a & _ & Hout).
    destruct Hout; [apply persist_durable..|done].
  - unfold StartTask. case_match; [apply persist_durable|done].
  - unfold report_finish. repeat (case_match; simpl); done || apply persist_durable.
  - unfold RenewLease. case_match; [apply persist_durable|done].
  - unfold DrainPending. set (m := if n >? _ then _ else n).
    destruct (m =? 0); [done|]. destruct (m <? 0); [done|].
    destruct (foldl _ _ _) as [out s']. apply persist_durable.
  - unfold SetLeaseChunk. case_match; [done|by apply (durable_same s)].
  - intros recs [= <-]. right. destruct Hp as (? & ? & ?). done.
Qed.
