(* ===== verification/SchedThms.v ===== *)
(** * What the scheduler guarantees

    The properties of the scheduler, each for every state the calls of
    Scheduler.v can reach, with runs that show their hypotheses can hold. *)
From S2P Require Import Prelude GoLib Storage Ring Job Keys Scheduler SchedInv Tiling SchedSteps.
From S2P Require Import Accounting Persist.
Open Scope Z_scope.

(** ** A concrete run *)

Definition task_keys (s : Scheduler) : list string := (map_to_list (tasks s)).*1.

Lemma elem_of_task_keys s id : id ∈ task_keys s ↔ is_Some (tasks s !! id).
Proof.
  unfold task_keys. rewrite list_elem_of_fmap. split.
  - intros ([k t] & -> & Hk%elem_of_map_to_list). by exists t.
  - intros [t Ht]. exists (id, t). by rewrite elem_of_map_to_list.
Qed.

(** A job of one shard; a worker takes it and reports 10 of 4000 items; a
    second worker finds the queue empty and steals. *)
Definition demo_req : SubmitJobRequest := MkSubmit "ds" "dense" ∅ ["aa"] 5.
Definition demo_ops : list (Scheduler → op) :=
  [ (λ _, OpAttach);
    (λ _, OpSubmit 1 2 "job" ["t1"] demo_req);
    (λ s, OpPoll 3 (task_keys s) "x" "w1");
    (λ _, OpStart 4 "t1");
    (λ _, OpRenew "t1" (MkRenew "w1" 0 10 4000));
    (λ s, OpPoll 5 (task_keys s) "t2" "w2") ].
Definition demo_ring : Ring := NewRing 1.
Definition demo_step (s : Scheduler) (o : Scheduler → op) : Scheduler := run_op demo_ring (o s) s.
Definition demo (n : nat) (s : Scheduler) : Scheduler := foldl demo_step s (take n demo_ops).

Lemma demo_valid n s0 :
  s0 = New 2 ∨ s0 = SetJobDoneHook (New 2) → (n < 6)%nat →
  ∀ o, demo_ops !! n = Some o → valid_op (o (demo n s0)) (demo n s0) ∧ polite (o (demo n s0)) (demo n s0) ∧
    punctual (o (demo n s0)) (demo n s0).
Proof.
  assert (∀ m : gmap string Task, m !! "t1" = None → ∀ tid, tid ∈ ["t1"] → m !! tid = None) as Hone.
  { intros m Hm tid ->%list_elem_of_singleton. done. }
  intros Hs0 Hn o Ho.
  destruct n as [|[|[|[|[|[|n]]]]]]; [..|lia]; simpl in Ho; injection Ho as <-;
    destruct Hs0 as [-> | ->]; cbn [valid_op polite punctual]; unfold submit_fresh; split_and!;
    try done; try (by apply elem_of_task_keys); try (apply NoDup_singleton); try (by apply Hone);
    try (unfold submit_shards; simpl; apply NoDup_singleton);
    try (intros t Ht; vm_compute in Ht; injection Ht as <-; first [by vm_compute|split_and!; vm_compute; by intros]).
Qed.

Lemma demo_S n s0 o : demo_ops !! n = Some o → demo (S n) s0 = run_op demo_ring (o (demo n s0)) (demo n s0).
Proof. intros Ho. unfold demo. by rewrite (take_S_r _ _ _ Ho), foldl_app. Qed.

Lemma demo_ind (P : Scheduler → Prop) s0 n :
  s0 = New 2 ∨ s0 = SetJobDoneHook (New 2) → (n ≤ 6)%nat → P s0 →
  (∀ s o, P s → valid_op o s → polite o s → punctual o s → P (run_op demo_ring o s)) → P (demo n s0).
Proof.
  intros Hs0 Hn H0 Hstep. induction n as [|n IH]; [done|].
  destruct (lookup_lt_is_Some_2 demo_ops n) as [o Ho]; [simpl; lia|].
  rewrite (demo_S n s0 o Ho). destruct (demo_valid n s0 Hs0 ltac:(lia) o Ho) as (? & ? & ?).
  apply Hstep; try done. apply IH. lia.
Qed.

Lemma demo_reachable n : (n ≤ 6)%nat → reachable (R:=Ring) 2 (demo n (New 2)).
Proof. intros Hn. apply demo_ind; [by left|done|constructor|]. intros. by constructor. Qed.

Lemma demo_polite n : (n ≤ 6)%nat → polite_run (R:=Ring) 2 (demo n (New 2)).
Proof. intros Hn. apply demo_ind; [by left|done|constructor|]. intros. by constructor. Qed.

Lemma demo_punctual n : (n ≤ 6)%nat → punctual_run (R:=Ring) 2 (demo n (SetJobDoneHook (New 2))).
Proof. intros Hn. apply demo_ind; [by right|done|constructor|]. intros. by constructor. Qed.

Lemma reachable_tiling {R} `{ShardOwner R} mr s : reachable (R:=R) mr s → tiling (shapes s).
Proof.
  induction 1 as [|r o s Hr IH Hv].
  - intros jid sh. left. intros id lo hi Hg. unfold in_group, shapes in Hg. simpl in Hg.
    by rewrite lookup_fmap, lookup_empty in Hg.
  - pose proof (reachable_ok mr s Hr) as Hs. destruct o; simpl in *.
    + destruct Hv. by apply tiling_Submit.
    + by apply tiling_PollTasks; [|apply Hv|].
    + by rewrite shapes_start.
    + by rewrite shapes_finish.
    + by apply tiling_RenewLease.
    + by rewrite shapes_rebalance.
    + by rewrite shapes_drain.
    + unfold SetLeaseChunk. by case_match.
    + done.
    + done.
Qed.

(** ** Safety of the shared state *)

(** C1: in every reachable state each task belongs to a known job and is
    filed under its id, every pending task is queued, retries stay within
    their limit, task totals are exact, every lease satisfies
    [RangeStart <= Frontier <= Granted <= RangeEnd], and the tasks of each
    shard tile it. *)
Theorem scheduler_safe {R} `{ShardOwner R} mr s :
  reachable (R:=R) mr s → sched_ok s ∧ tiling (shapes s).
Proof. intros Hr. split; [by eapply reachable_ok|by eapply reachable_tiling]. Qed.

Lemma scheduler_safe_witness : sched_ok (demo 6 (New 2)) ∧ tiling (shapes (demo 6 (New 2))).
Proof. apply (scheduler_safe (R:=Ring) 2), demo_reachable. lia. Defined.

Lemma same_group s id t jid shard :
  tasks s !! id = Some t → tJobID t = jid → tShard t = shard →
  in_group (shapes s) jid shard id (tRangeStart t) (tRangeEnd t).
Proof. intros Ht <- <-. unfold in_group. by rewrite (shapes_lookup s id t Ht). Qed.

Lemma in_group_task s jid shard id lo hi :
  in_group (shapes s) jid shard id lo hi →
  ∃ t, tasks s !! id = Some t ∧ tJobID t = jid ∧ tShard t = shard ∧ tRangeStart t = lo ∧ tRangeEnd t = hi.
Proof.
  unfold in_group, shapes. rewrite lookup_fmap. destruct (tasks s !! id) as [t|]; [|done].
  unfold task_shape. simpl. intros [= <- <- <- <-]. by exists t.
Qed.

(** The granted regions of two tasks of a shard do not meet. *)
Lemma granted_apart {R} `{ShardOwner R} mr s id t id' t' x :
  reachable (R:=R) mr s → tasks s !! id = Some t → tasks s !! id' = Some t' → id ≠ id' →
  tJobID t = tJobID t' → tShard t = tShard t' →
  tRangeStart t ≤ x < tGranted t → tRangeStart t' ≤ x < tGranted t' → False.
Proof.
  intros Hr Ht Ht' Hne Hj Hsh Hx Hx'. pose proof (reachable_ok mr s Hr) as Hs.
  pose proof (same_group s id t _ _ Ht eq_refl eq_refl) as Hg.
  pose proof (same_group s id' t' _ _ Ht' (eq_sym Hj) (eq_sym Hsh)) as Hg'.
  destruct (ok_lease _ Hs id t Ht), (ok_lease _ Hs id' t' Ht').
  destruct (reachable_tiling mr s Hr (tJobID t) (tShard t)) as [Hno|[(y & _ & Hu)|(total & Hb & _ & Hd)]].
  - by apply Hno in Hg.
  - apply Hne. by rewrite (Hu _ _ _ Hg), (Hu _ _ _ Hg').
  - destruct (Hb _ _ _ Hg), (Hb _ _ _ Hg'), (Hd _ _ _ _ _ _ Hg Hg' Hne); lia.
Qed.

(** C2: no item of a shard is leased to two workers: the granted regions
    [RangeStart, Granted) of two tasks of a shard are disjoint, whatever was
    stolen, retried or renewed before. *)
Theorem leases_disjoint {R} `{ShardOwner R} mr s id t id' t' x :
  reachable (R:=R) mr s → tasks s !! id = Some t → tasks s !! id' = Some t' → id ≠ id' →
  tJobID t = tJobID t' → tShard t = tShard t' →
  tRangeStart t ≤ x < tGranted t → ¬ (tRangeStart t' ≤ x < tGranted t').
Proof. intros Hr Ht Ht' Hne Hj Hsh Hx Hx'. exact (granted_apart mr s id t id' t' x Hr Ht Ht' Hne Hj Hsh Hx Hx'). Qed.

Lemma leases_disjoint_witness :
  ∃ t t', tasks (demo 6 (New 2)) !! "t1" = Some t ∧ tasks (demo 6 (New 2)) !! "t2" = Some t' ∧
    tRangeStart t' = 2505 ∧ ¬ (tRangeStart t' ≤ 900 < tGranted t').
Proof.
  eexists _, _. split_and!; [by vm_compute|by vm_compute|by vm_compute|].
  eapply (leases_disjoint (R:=Ring) 2 (demo 6 (New 2)) "t1" _ "t2" _ 900);
    [apply demo_reachable; lia|by vm_compute|by vm_compute|done|by vm_compute|by vm_compute|].
  split; vm_compute; congruence.
Defined.

(** C3: no item of a shard is lost or duplicated: its tasks are one task
    over the whole shard, or their ranges cover every item below the shard's
    size, each item in exactly one of them. *)
Theorem shard_items_tiled {R} `{ShardOwner R} mr s id t :
  reachable (R:=R) mr s → tasks s !! id = Some t →
  (tRangeStart t = 0 ∧ tRangeEnd t = -1 ∧
     ∀ id' t', tasks s !! id' = Some t' → tJobID t' = tJobID t → tShard t' = tShard t → id' = id) ∨
  ∃ total, tRangeEnd t ≤ total ∧ ∀ x, 0 ≤ x < total →
    ∃ id', (∃ t', tasks s !! id' = Some t' ∧ tJobID t' = tJobID t ∧ tShard t' = tShard t ∧
              tRangeStart t' ≤ x < tRangeEnd t') ∧
      ∀ id'' t'', tasks s !! id'' = Some t'' → tJobID t'' = tJobID t → tShard t'' = tShard t →
        tRangeStart t'' ≤ x < tRangeEnd t'' → id'' = id'.
Proof.
  intros Hr Ht. pose proof (same_group s id t _ _ Ht eq_refl eq_refl) as Hg.
  destruct (reachable_tiling mr s Hr (tJobID t) (tShard t)) as [Hno|[(y & Hy & Hu)|(total & Hb & Hc & Hd)]].
  - by apply Hno in Hg.
  - left. pose proof (Hu _ _ _ Hg) as ->. unfold in_group in *. simplify_eq.
    split_and!; [done..|]. intros id' t' Ht' Hj Hs'.
    exact (Hu _ _ _ (same_group s id' t' _ _ Ht' Hj Hs')).
  - right. exists total. split; [apply (Hb _ _ _ Hg)|]. intros x Hx.
    destruct (Hc x Hx) as (id' & lo & hi & Hin & Hbt). exists id'. split.
    + destruct (in_group_task _ _ _ _ _ _ Hin) as (t' & Ht' & Hj & Hsh & <- & <-). by exists t'.
    + intros id'' t'' Ht'' Hj Hsh Hx''. pose proof (same_group s id'' t'' _ _ Ht'' Hj Hsh) as Hg''.
      destruct (decide (id'' = id')) as [|Hne]; [done|].
      destruct (Hd _ _ _ _ _ _ Hg'' Hin Hne); lia.
Qed.

Lemma shard_items_tiled_witness :
  ∃ t, tasks (demo 6 (New 2)) !! "t1" = Some t ∧ tRangeEnd t = 2505 ∧
  ((tRangeStart t = 0 ∧ tRangeEnd t = -1 ∧ ∀ id' t', tasks (demo 6 (New 2)) !! id' = Some t' →
      tJobID t' = tJobID t → tShard t' = tShard t → id' = "t1") ∨
  ∃ total, tRangeEnd t ≤ total ∧ ∀ x, 0 ≤ x < total →
    ∃ id', (∃ t', tasks (demo 6 (New 2)) !! id' = Some t' ∧ tJobID t' = tJobID t ∧ tShard t' = tShard t ∧
              tRangeStart t' ≤ x < tRangeEnd t') ∧
      ∀ id'' t'', tasks (demo 6 (New 2)) !! id'' = Some t'' → tJobID t'' = tJobID t →
        tShard t'' = tShard t → tRangeStart t'' ≤ x < tRangeEnd t'' → id'' = id').
Proof.
  eexists. split_and!; [by vm_compute|by vm_compute|].
  apply (shard_items_tiled (R:=Ring) 2 (demo 6 (New 2)) "t1"); [apply demo_reachable; lia|by vm_compute].
Defined.

(** ** Dispatch *)

(** A steal is taken when some in-flight task of known size has at least
    two ungranted items, and then it takes the upper part of the longest such
    tail: the cut lies strictly inside the tail, the victim keeps what it was
    granted and is fenced by a new generation, and the two pieces are
    contiguous. *)
Theorem steal_longest_tail order newID s :
  sched_ok s → (∀ id, id ∈ order ↔ is_Some (tasks s !! id)) →
  ((stealLocked order newID s).1 = None ↔
     ∀ id t, tasks s !! id = Some t → stealable t → tail t < minStealItems) ∧
  ∀ stolen, (stealLocked order newID s).1 = Some stolen →
    ∃ vid victim victim', tasks s !! vid = Some victim ∧ stealable victim ∧
      (∀ id t, tasks s !! id = Some t → stealable t → tail t ≤ tail victim) ∧
      tasks (stealLocked order newID s).2 =
        <[newID := stolen]> (<[vid := victim']> (tasks s)) ∧
      tRangeStart stolen = tGranted victim + tail victim / 2 ∧
      tGranted victim < tRangeStart stolen < tRangeEnd victim ∧
      tRangeEnd stolen = tRangeEnd victim ∧ tRangeEnd victim' = tRangeStart stolen ∧
      tGranted victim' = tGranted victim ∧ tRangeStart victim' = tRangeStart victim ∧
      tGeneration victim' = tGeneration victim + 1 ∧
      tJobID stolen = tJobID victim ∧ tShard stolen = tShard victim.
Proof.
  intros Hs Hord.
  destruct (stealLocked_spec order newID s Hs) as [[E Hno]|Hsteal].
  - rewrite E. split; [|done]. split; [|done]. intros _ id t Ht. apply (Hno id); [|done]. apply Hord. by exists t.
  - destruct Hsteal as (vid & t & split & Hin & Ht & Hst & Hge & Hsp & Hbt & Hmax & ->). cbn [fst snd]. split.
    + split; [done|]. intros Hno. specialize (Hno vid t Ht Hst). lia.
    + intros stolen [= <-]. exists vid, t, (shrunk_victim t split).
      rewrite tasks_bump. simpl. rewrite shrink_gen by (by eapply ok_lease || apply Hst).
      split_and!; try done; try lia. intros id u Hu. apply (Hmax id); [|done]. apply Hord. by exists u.
Qed.

Lemma steal_longest_tail_witness :
  ∃ stolen, (stealLocked (task_keys (demo 5 (New 2))) "t2" (demo 5 (New 2))).1 = Some stolen ∧
    ∃ victim, tGranted victim < tRangeStart stolen < tRangeEnd victim.
Proof.
  eexists. split; [by vm_compute|].
  destruct (steal_longest_tail (task_keys (demo 5 (New 2))) "t2" (demo 5 (New 2))) as [_ Hst].
  - apply (reachable_ok (R:=Ring) 2), demo_reachable. lia.
  - intros id. apply elem_of_task_keys.
  - destruct (Hst _ ltac:(by vm_compute)) as (vid & victim & victim' & _ & _ & _ & _ & _ & Hb & _).
    by exists victim.
Defined.

(** Polling never fails, and it returns no work only when no task is
    pending anywhere and nothing in flight is worth stealing. *)
Theorem poll_idle_only_without_work {R} `{ShardOwner R} (r : R) now order newID w s :
  sched_ok s → (∀ id, id ∈ order ↔ is_Some (tasks s !! id)) →
  ∃ a, (PollTasks r now order newID w s).1 = Ok a ∧
  (a = None ↔ ∀ id t, tasks s !! id = Some t →
     tStatus t ≠ TaskPending ∧ (stealable t → tail t < minStealItems)).
Proof.
  intros Hs Hord. destruct (PollTasks_outcome r now order newID w s Hs) as (a & -> & Hout).
  exists a. split; [done|].
  destruct Hout as [k tid t j _ Hq Ht Hst Hj|vid t j split _ Hin Ht Hst Hge _ _ _ _|Hidx Hno].
  - split; [done|]. intros Hall. by destruct (Hall tid t Ht).
  - split; [done|]. intros Hall. destruct (Hall vid t Ht) as [_ Hlt]. specialize (Hlt Hst). lia.
  - split; [|done]. intros _ id t Ht. split.
    + intros Hp. pose proof (poll_index_spec r s w) as Hspec. rewrite Hidx in Hspec.
      by apply (Hspec id t (ok_pending _ Hs id t Ht Hp)).
    + intros Hst. apply (Hno id t); [|done|done]. apply Hord. by exists t.
Qed.

Lemma poll_idle_only_without_work_witness :
  ∃ a, (PollTasks demo_ring 9 (task_keys (demo 2 (New 2))) "x" "w" (demo 2 (New 2))).1 = Ok a ∧
  (a = None ↔ ∀ id t, tasks (demo 2 (New 2)) !! id = Some t →
     tStatus t ≠ TaskPending ∧ (stealable t → tail t < minStealItems)).
Proof.
  apply (poll_idle_only_without_work demo_ring 9 (task_keys (demo 2 (New 2))) "x" "w" (demo 2 (New 2))).
  - apply (reachable_ok (R:=Ring) 2), demo_reachable. lia.
  - intros id. apply elem_of_task_keys.
Defined.

(** The queued task handed to a worker is the first one in the queue that
    the hash ring maps to it, and only without one is it the first of the
    highest priority. *)
Theorem poll_prefers_owner {R} `{ShardOwner R} (r : R) now order newID w s k :
  sched_ok s → poll_index r s w = Some k →
  ∃ tid t a, pendingQ s !! k = Some tid ∧ tasks s !! tid = Some t ∧ tStatus t = TaskPending ∧
    (PollTasks r now order newID w s).1 = Ok (Some a) ∧ aTaskID a = tid ∧
    pendingQ (PollTasks r now order newID w s).2 = remove_at k (pendingQ s) ∧
    ∀ j tid' t', pendingQ s !! j = Some tid' → tasks s !! tid' = Some t' → tStatus t' = TaskPending →
      (owner_of r (tShard t') = w → owner_of r (tShard t) = w ∧ (k ≤ j)%nat) ∧
      (owner_of r (tShard t) ≠ w →
         tPriority t' ≤ tPriority t ∧ (tPriority t' = tPriority t → (k ≤ j)%nat)).
Proof.
  intros Hs Hk. pose proof (poll_index_spec r s w) as Hspec. rewrite Hk in Hspec.
  destruct Hspec as (tid & t & Hq & [Ht Hst] & Hbest).
  destruct (PollTasks_outcome r now order newID w s Hs) as (a & Ea & Hout). rewrite Ea.
  destruct Hout as [k' tid' t' j Hk' Hq' Ht' Hst' Hj|vid u j split Hk'|Hk']; [|congruence..].
  simplify_eq. exists tid, t, (assignment_of j (assigned now w (leaseChunk s) t)). split_and!; try done.
  - unfold assignment_of. cbn [aTaskID]. rewrite assigned_id. by apply (ok_task_id _ Hs).
  - unfold persistLocked. simpl. by destruct (store s).
  - intros i tid' t' Hi Hti Hpi. assert (pollable s tid' t') as Hpoll by done.
    destruct Hbest as [[Hown Hfirst]|[Hnone Hpri]].
    + split; [|done]. intros Ho. split; [done|].
      destruct (Nat.le_gt_cases k i) as [|Hlt]; [done|]. by destruct (Hfirst i tid' t' Hlt Hi Hpoll).
    + split; [intros Ho; by destruct (Hnone i tid' t' Hi Hpoll)|]. intros _. by apply (Hpri i tid' t').
Qed.

Lemma poll_prefers_owner_witness :
  ∃ tid t, pendingQ (demo 2 (New 2)) !! 0%nat = Some tid ∧ tasks (demo 2 (New 2)) !! tid = Some t ∧
    tStatus t = TaskPending.
Proof.
  destruct (poll_prefers_owner demo_ring 3 (task_keys (demo 2 (New 2))) "x" "w1" (demo 2 (New 2)) 0)
    as (tid & t & _ & ? & ? & ? & _).
  - apply (reachable_ok (R:=Ring) 2), demo_reachable. lia.
  - by vm_compute.
  - by exists tid, t.
Defined.

(** ** Attempts *)

(** Calls that do not end an attempt. *)
Inductive attempt_run {R} `{ShardOwner R} : Scheduler → Scheduler → Prop :=
| attempt_refl s : attempt_run s s
| attempt_more r o s s' :
    valid_op o s → keeps_attempts o = true → attempt_run (run_op r o s) s' → attempt_run s s'.

Lemma attempt_run_evolves {R} `{ShardOwner R} s s' :
  sched_ok s → attempt_run (R:=R) s s' → evolves attempt_step s s'.
Proof.
  intros Hs Hrun. revert Hs. induction Hrun as [|r o s s' Hv Hk _ IH]; intros Hs; [reflexivity|].
  etrans; [by apply (run_op_attempt r)|]. apply IH. by apply run_op_ok.
Qed.



(** Fencing.  Any call that changes the end of a task whose size was
    known lowers it and raises the task's generation, so that the worker
    holding the old generation is told on its next renewal, and the bound it
    gets back lies inside what is left. *)
Theorem stale_worker_is_told {R} `{ShardOwner R} mr (r : R) s o id t t' req :
  reachable (R:=R) mr s → valid_op o s →
  tasks s !! id = Some t → 0 ≤ tRangeEnd t →
  tasks (run_op r o s) !! id = Some t' → tRangeEnd t' ≠ tRangeEnd t →
  renew_honest req t' → rlGeneration req ≤ tGeneration t →
  tRangeEnd t' < tRangeEnd t ∧
  ∃ lr, (RenewLease id req (run_op r o s)).1 = Ok lr ∧ lrStolen lr = true ∧
    lrGeneration lr = tGeneration t' ∧ lrBound lr ≤ tRangeEnd t'.
Proof.
  intros Hr Hv Ht He Ht' Hne Hreq Hgen. pose proof (reachable_ok mr s Hr) as Hs.
  pose proof (run_op_ok r o s Hs Hv) as Hs'.
  destruct (run_op_evolves r o s Hs Hv id t Ht) as (u & Hu & Hsteps). rewrite Ht' in Hu. injection Hu as <-.
  destruct (task_steps_mono _ _ Hsteps) as [? ? ? ? ? ? ? Hend Hcut ?].
  specialize (Hend He). specialize (Hcut He Hne). split; [lia|].
  unfold RenewLease. rewrite Ht'. eexists. split; [done|].
  pose proof (renew_task_ok (leaseChunk (run_op r o s)) req t' (ok_lease _ Hs' id t' Ht') (ok_chunk _ Hs') Hreq) as Hl.
  rewrite renew_task_alt in *. set (u2 := t' <| tRangeEnd := _ |> <| tFrontier := _ |>) in *.
  assert (tRangeEnd u2 = tRangeEnd t') as Ee.
  { unfold u2, renewed_end. simpl. by destruct (Z.ltb_spec (tRangeEnd t') 0); [lia|]. }
  destruct (grantLocked_keeps (leaseChunk (run_op r o s)) u2) as (_ & _ & _ & _ & _ & _ & Eend & _ & _ & _ & Eg & _).
  simpl. rewrite Eg. split_and!; [apply Z.ltb_lt; simpl; lia|done|].
  destruct Hl as [_ _ _ _ Hk _]. rewrite Eend, Ee in Hk. lia.
Qed.

Definition demo_steal : op := OpPoll 5 (task_keys (demo 5 (New 2))) "t2" "w2".

Lemma stale_worker_is_told_witness :
  ∃ lr, (RenewLease "t1" (MkRenew "w1" 0 900 4000) (run_op demo_ring demo_steal (demo 5 (New 2)))).1 = Ok lr ∧
    lrStolen lr = true.
Proof.
  assert (∃ t, tasks (demo 5 (New 2)) !! "t1" = Some t ∧ tRangeEnd t = 4000 ∧ tGeneration t = 0) as (t & Ht & He & Hg)
    by (eexists; by vm_compute).
  assert (∃ t', tasks (run_op demo_ring demo_steal (demo 5 (New 2))) !! "t1" = Some t' ∧ tRangeEnd t' = 2505)
    as (t' & Ht' & He') by (eexists; by vm_compute).
  destruct (stale_worker_is_told (R:=Ring) 2 demo_ring (demo 5 (New 2)) demo_steal "t1" t t'
    (MkRenew "w1" 0 900 4000)) as (_ & lr & Hlr & Hst & _).
  - apply demo_reachable. lia.
  - apply (demo_valid 5 (New 2) (or_introl eq_refl) ltac:(lia) (λ s, OpPoll 5 (task_keys s) "t2" "w2") eq_refl).
  - exact Ht.
  - rewrite He. done.
  - exact Ht'.
  - rewrite He, He'. done.
  - unfold renew_honest, items_max. rewrite He'. cbn [rlFrontier rlTotal]. clear. lia.
  - rewrite Hg. done.
  - exists lr. exact (conj Hlr Hst).
Defined.

(** C18: a committed task stays committed: no call but [StartTask] moves a task
    out of [TaskDone]. *)
Theorem done_is_final {R} `{ShardOwner R} mr (r : R) s o id t :
  reachable (R:=R) mr s → valid_op o s → (∀ now id, o ≠ OpStart now id) →
  tasks s !! id = Some t → tStatus t = TaskDone →
  ∃ t', tasks (run_op r o s) !! id = Some t' ∧ tStatus t' = TaskDone.
Proof.
  intros Hr Hv Hns Ht Hd. destruct (run_op_quiet r o s (reachable_ok mr s Hr) Hv Hns id t Ht) as (t' & Ht' & Hst).
  exists t'. split; [done|]. by eapply done_steps.
Qed.

Definition demo_done : Scheduler :=
  run_op demo_ring (OpFinish 7 "t1" (MkResult "w1" 1 1 "k" 1 "")) (demo 6 (New 2)).

Lemma demo_done_reachable : reachable (R:=Ring) 2 demo_done.
Proof. unfold demo_done. apply reach_op; [apply demo_reachable; lia|exact I]. Qed.

Lemma done_is_final_witness :
  ∃ t', tasks (run_op demo_ring (OpFinish 8 "t1" (MkResult "w2" 1 1 "k" 1 "late error")) demo_done) !! "t1"
    = Some t' ∧ tStatus t' = TaskDone.
Proof.
  assert (∃ t, tasks demo_done !! "t1" = Some t ∧ tStatus t = TaskDone) as (t & Ht & Hd)
    by (eexists; by vm_compute).
  refine (done_is_final (R:=Ring) 2 demo_ring demo_done
    (OpFinish 8 "t1" (MkResult "w2" 1 1 "k" 1 "late error")) "t1" t demo_done_reachable I _ Ht Hd).
  intros ? ? [=].
Defined.

(** ** Jobs *)





(** ** Durability *)

(** After any call but a rebalance the last record in the store is the
    whole state, and restoring it into a fresh scheduler brings back every
    job, every task with its lease, and the queue in order. *)
Theorem restore_recovers {R B} `{ShardOwner R} (decode : B → result schedulerState)
    (encode : schedulerState → B) mr mr' (r : R) s o recs snapshot :
  (∀ st, decode (encode st) = Ok st) →
  reachable (R:=R) mr s → valid_op o s → persists o s → durable s →
  store (run_op r o s) = Some recs → recs ≠ [] →
  ∃ s', Restore decode snapshot (encode <$> recs) (New mr') = Ok s' ∧ same_state (run_op r o s) s'.
Proof.
  intros Hdec Hr Hv Hp Hd Hst Hne. pose proof (reachable_ok mr s Hr) as Hs.
  pose proof (run_op_durable r o s Hs Hp Hd recs Hst) as [Hlast|[? _]]; [|done].
  unfold Restore. rewrite fmap_last, Hlast. simpl. rewrite Hdec. eexists. split; [done|].
  apply install_record; [by apply run_op_ok|apply encode_record].
Qed.

Lemma restore_recovers_witness :
  ∃ recs s', store (run_op demo_ring (OpStart 4 "t1") (demo 3 (New 2))) = Some recs ∧
    Restore (λ st, Ok st) None (id <$> recs) (New 2) = Ok s' ∧
    same_state (run_op demo_ring (OpStart 4 "t1") (demo 3 (New 2))) s'.
Proof.
  assert (∃ recs, store (run_op demo_ring (OpStart 4 "t1") (demo 3 (New 2))) = Some recs ∧ recs ≠ []) as (recs & Hst & Hne).
  { eexists. split; [by vm_compute|]. intros [=]. }
  destruct (restore_recovers (λ st, Ok st) id 2 2 demo_ring (demo 3 (New 2)) (OpStart 4 "t1") recs None)
    as (s' & Hs' & Hsame).
  - intros st. exact eq_refl.
  - apply demo_reachable. lia.
  - exact I.
  - exact I.
  - intros recs' Hr. vm_compute in Hr. injection Hr as <-. left. by vm_compute.
  - exact Hst.
  - exact Hne.
  - exists recs, s'. exact (conj Hst (conj Hs' Hsame)).
Defined.

(** ** What does not hold *)

(** [StartTask] does not look at the status: a late start reopens a
    committed task, and with it the job that had completed. *)
Theorem start_reopens_done_task :
  ∃ s id t t', reachable (R:=Ring) 2 s ∧ tasks s !! id = Some t ∧ tStatus t = TaskDone ∧
    (StartTask 9 id s).1 = Ok tt ∧ tasks (StartTask 9 id s).2 !! id = Some t' ∧ tStatus t' = TaskRunning.
Proof.
  exists demo_done, "t1". eexists _, _. split_and!; [apply demo_done_reachable|by vm_compute..].
Qed.

(** A job of one task with no retries, its worker lost. *)
Definition lost_run : Scheduler :=
  let s := SetJobDoneHook (AttachStore (New 0)) in
  let s := run_op demo_ring (OpSubmit 1 2 "job" ["t1"] demo_req) s in
  run_op demo_ring (OpPoll 3 ["t1"] "x" "w1") s.

(** "exactly once" fails for late results: a worker whose task was failed
    by a rebalance and then reports success settles the job a second time;
    the hook fires twice, and the job ends completed after having failed. *)
Theorem late_report_fires_hook_twice :
  let s1 := RebalanceWorker 4 ["t1"] "w1" lost_run in
  let s2 := (report_finish 5 "t1" (MkResult "w1" 1 1 "k" 1 "") s1).2 in
  (jStatus <$> jobs s1 !! "job") = Some JobFailed ∧ onJobDone s1 = Some ["job"] ∧
  (jStatus <$> jobs s2 !! "job") = Some JobCompleted ∧ onJobDone s2 = Some ["job"; "job"].
Proof. by vm_compute. Qed.

(** A rebalance that only gives up on tasks is not persisted: the task and
    the job are failed in memory, while the last record still says running. *)
Theorem rebalance_not_persisted :
  let s := RebalanceWorker 4 ["t1"] "w1" lost_run in
  durable lost_run ∧ ¬ durable s ∧
  (tStatus <$> tasks s !! "t1") = Some TaskFailed ∧
  ∃ recs s', store s = Some recs ∧ Restore (λ st, Ok st) None recs (New 0) = Ok s' ∧
    (tStatus <$> tasks s' !! "t1") = Some TaskAssigned.
Proof.
  split_and!.
  - intros recs Hr. vm_compute in Hr. injection Hr as <-. left. by vm_compute.
  - intros Hd. destruct (Hd _ ltac:(by vm_compute)) as [H|[H _]]; by vm_compute in H.
  - by vm_compute.
  - eexists _, _. split_and!; by vm_compute.
Qed.
