(* ===== verification/Worker.v ===== *)
(** * The worker (worker/worker.go)

    [runAlgorithm] walks the items of a leased range, renewing the lease
    whenever it reaches its bound.  Its loop is a machine that says what it
    does next ([loop_next]) and takes the answer ([renewed], [fetched]); the
    sequential program drives the machine against a [Host].  Then the pool of
    goroutines around it. *)
From S2P Require Import Prelude GoLib Storage Job Keys.
Open Scope Z_scope.

(** One row of the staged result (formats/parquet.go). *)
Record ResultRow := MkRow {
  rowTaskID : string; rowShard : string; rowOutputKey : string; rowImages : Z; rowBytes : Z }.

(** The coordinator and the object store as a worker sees them, and the Parquet
    encoder. *)
Class Host (W : Type) := {
  ListPrefix : string → W → result (list string) * W;
  GetObject : string → W → result Z * W;
  PutObject : string → list byte → W → result unit * W;
  PostStart : string → string → W → W;
  PostRenew : string → RenewLeaseRequest → W → result LeaseRenewal * W;
  PostResult : string → ResultRequest → W → result unit * W;
  WriteResultsParquet : ResultRow → result (list byte);
  Elapsed : W → Z }.

(** ** The item loop *)

(** The loop's variables; [rStopped] is a [break]. *)
Record Run := MkRun {
  rTask : TaskAssignment; rKeys : list string; rTotal : Z; rStart : Z; rEnd : Z;
  rBound : Z; rGen : Z; rI : Z; rBytes : Z; rStopped : bool }.
#[export] Instance eta_Run : Eta Run := λ r,
  MkRun (rTask r) (rKeys r) (rTotal r) (rStart r) (rEnd r) (rBound r) (rGen r) (rI r) (rBytes r) (rStopped r).

Definition loop_start (a : TaskAssignment) (keys : list string) : Run :=
  let total := Z.of_nat (length keys) in
  let end_ := if (0 <=? aRangeEnd a) && (aRangeEnd a <? total) then aRangeEnd a else total in
  MkRun a keys total (aRangeStart a) end_ (aBound a) (aGeneration a) (aRangeStart a) 0 false.

Inductive next := Finish | Renew (req : RenewLeaseRequest) | Fetch (key : string) | Panic.

Definition loop_next (wid : string) (r : Run) : next :=
  if rStopped r then Finish
  else if rI r <? rEnd r then
    if rBound r <=? rI r then Renew (MkRenew wid (rGen r) (rI r) (rTotal r))
    else if rI r <? 0 then Panic
    else match rKeys r !! Z.to_nat (rI r) with Some k => Fetch k | None => Panic end
  else Finish.

(** The answer to a renewal; an error ends the loop like a spent lease. *)
Definition renewed (reply : result LeaseRenewal) (r : Run) : Run :=
  match reply with
  | Err _ => r <| rStopped := true |>
  | Ok l =>
      let r := r <| rGen := lrGeneration l |> <| rBound := lrBound l |> in
      if lrBound l <=? rI r then r <| rStopped := true |> else r
  end.

(** An object that cannot be read is skipped. *)
Definition fetched (got : result Z) (r : Run) : Run :=
  let r := match got with Ok size => r <| rBytes := wrap64 (rBytes r + size) |> | Err _ => r end in
  r <| rI := rI r + 1 |>.

Section host.
Context {W : Type} `{Host W}.

(** [None] is a panic, or fuel that ran out. *)
Fixpoint loop (fuel : nat) (wid : string) (r : Run) (w : W) : option Run * W :=
  match fuel with
  | O => (None, w)
  | S fuel =>
      match loop_next wid r with
      | Finish => (Some r, w)
      | Panic => (None, w)
      | Renew req =>
          let '(reply, w) := PostRenew (aTaskID (rTask r)) req w in loop fuel wid (renewed reply r) w
      | Fetch k => let '(got, w) := GetObject k w in loop fuel wid (fetched got r) w
      end
  end.

(** Two turns an item, and one to notice the end. *)
Definition loop_fuel (r : Run) : nat := (2 * Z.to_nat (rEnd r - rI r) + 1)%nat.

Record Outcome := MkOutcome { oProcessed : Z; oBytes : Z; oKey : string }.

(** After the loop: stage the row. *)
Definition stage_result (r : Run) (w : W) : result Outcome * W :=
  let a := rTask r in
  let processed := rI r - rStart r in
  let stagingKey := StagingResultKey (aJobID a) (aTaskID a) in
  let finalKey := FinalResultKey (aJobID a) (aShard a) (MkRange (aRangeStart a) (aRangeEnd a) (aSplit a)) in
  match WriteResultsParquet (MkRow (aTaskID a) (aShard a) finalKey processed (rBytes r)) with
  | Err e => (Err ("encode result parquet: " +:+ e), w)
  | Ok body =>
      match PutObject stagingKey body w with
      | (Err e, w) => (Err ("stage result " +:+ stagingKey +:+ ": " +:+ e), w)
      | (Ok _, w) => (Ok (MkOutcome processed (rBytes r) stagingKey), w)
      end
  end.

Definition runAlgorithm (wid : string) (a : TaskAssignment) (w : W) : option (result Outcome) * W :=
  match ListPrefix (aDataset a +:+ "/" +:+ aShard a +:+ "/") w with
  | (Err e, w) => (Some (Err ("list shard " +:+ aShard a +:+ ": " +:+ e)), w)
  | (Ok keys, w) =>
      let r := loop_start a keys in
      match loop (loop_fuel r) wid r w with
      | (None, w) => (None, w)
      | (Some r, w) => let '(o, w) := stage_result r w in (Some o, w)
      end
  end.

(** The request that reports an outcome. *)
Definition result_request (wid : string) (o : result Outcome) (d : Z) : ResultRequest :=
  match o with
  | Ok o => MkResult wid (oProcessed o) (oBytes o) (oKey o) d EmptyString
  | Err e => MkResult wid 0 0 EmptyString d e
  end.

(** [RunTask]; [executeTask] is the same and drops the reply. *)
Definition RunTask (wid : string) (a : TaskAssignment) (w : W) : option (result unit) * W :=
  let w := PostStart (aTaskID a) wid w in
  match runAlgorithm wid a w with
  | (None, w) => (None, w)
  | (Some o, w) => let '(r, w) := PostResult (aTaskID a) (result_request wid o (Elapsed w)) w in (Some r, w)
  end.

Definition executeTask (wid : string) (a : TaskAssignment) (w : W) : W := (RunTask wid a w).2.
End host.

(** ** The pool *)

Record PollResponse := MkPollResponse { prAssignment : option TaskAssignment; prHasWork : bool }.

(** [sem] counts its free slots taken; goroutines whose task has not got a slot
    yet wait in [queued]. *)
Record Worker := MkWorker {
  wID : string; wConcurrency : Z; activeTasks : gmap string Task;
  sem : Z; queued : list TaskAssignment; executing : list TaskAssignment }.
#[export] Instance eta_Worker : Eta Worker := λ w,
  MkWorker (wID w) (wConcurrency w) (activeTasks w) (sem w) (queued w) (executing w).

(** [uuid] is a fresh identifier. *)
Definition New (id uuid : string) (concurrency : Z) : Worker :=
  MkWorker (if bool_decide (id = EmptyString) then uuid else id) concurrency ∅ 0 [] [].

Definition ActiveTaskCount (w : Worker) : Z := Z.of_nat (size (activeTasks w)).

(** The guard of a tick of [pollLoop]. *)
Definition polls (w : Worker) : bool := ActiveTaskCount w <? wConcurrency w.

(** [poll]: [None] is a request or a decoding that failed. *)
Definition poll (resp : option PollResponse) (w : Worker) : Worker :=
  match resp with
  | None => w
  | Some pr =>
      if negb (prHasWork pr) then w
      else match prAssignment pr with None => w | Some a => w <| queued := queued w ++ [a] |> end
  end.

Definition poll_tick (resp : option PollResponse) (w : Worker) : Worker := if polls w then poll resp w else w.

(** [executeTask]'s slot: taken before the task starts, given back after. *)
Definition acquire (i : nat) (w : Worker) : option Worker :=
  a ← queued w !! i;
  if sem w <? wConcurrency w
  then Some (w <| queued := remove_at i (queued w) |> <| sem := sem w + 1 |> <| executing := executing w ++ [a] |>)
  else None.
Definition finish (i : nat) (w : Worker) : option Worker :=
  _ ← executing w !! i;
  Some (w <| executing := remove_at i (executing w) |> <| sem := sem w - 1 |>).

Inductive worker_step : Worker → Worker → Prop :=
| wk_tick resp w : worker_step w (poll_tick resp w)
| wk_acquire i w w' : acquire i w = Some w' → worker_step w w'
| wk_finish i w w' : finish i w = Some w' → worker_step w w'.

(** ** The loop ends *)

(** What the loop keeps: the offset is inside the range or the range is empty,
    and every offset below the end has a key. *)
Record run_ok (r : Run) : Prop := {
  rk_start : 0 ≤ rStart r ≤ rI r;
  rk_end : rI r ≤ Z.max (rStart r) (rEnd r);
  rk_keys : rEnd r ≤ Z.of_nat (length (rKeys r)) }.

(** The turns left. *)
Definition turns (r : Run) : Z :=
  if rStopped r then 1
  else if rI r <? rEnd r then (if rBound r <=? rI r then 2 * (rEnd r - rI r) + 1 else 2 * (rEnd r - rI r))
  else 1.

Lemma loop_start_ok a keys : 0 ≤ aRangeStart a → run_ok (loop_start a keys).
Proof.
  intros Ha. split; cbn; [lia|lia|].
  destruct (0 <=? aRangeEnd a) eqn:E1, (aRangeEnd a <? Z.of_nat (length keys)) eqn:E2; bool_to_prop; simpl; lia.
Qed.

Lemma loop_next_safe wid r : run_ok r → loop_next wid r ≠ Panic.
Proof.
  intros [[H0 H1] H2 H3]. unfold loop_next.
  destruct (rStopped r); [done|]. destruct (Z.ltb_spec (rI r) (rEnd r)); [|done].
  destruct (rBound r <=? rI r); [done|]. destruct (Z.ltb_spec (rI r) 0); [lia|].
  destruct (lookup_lt_is_Some_2 (rKeys r) (Z.to_nat (rI r))) as [k ->]; [lia|done].
Qed.

Lemma renewed_run_ok reply r : run_ok r → run_ok (renewed reply r).
Proof. intros [H1 H2 H3]. destruct reply as [l|e]; unfold renewed; [case_match|]; split; done. Qed.

Lemma fetched_run_ok wid got r k : run_ok r → loop_next wid r = Fetch k → run_ok (fetched got r).
Proof.
  intros [H1 H2 H3] Hn. unfold loop_next in Hn. split_guards. unfold fetched.
  destruct got; split; cbn; lia || done.
Qed.

Lemma renewed_turns wid reply r req :
  loop_next wid r = Renew req → turns (renewed reply r) < turns r.
Proof.
  intros Hn. unfold loop_next in Hn. unfold turns, renewed.
  destruct (rStopped r) eqn:E1; [done|]. destruct (rI r <? rEnd r) eqn:E2; [|done].
  destruct (rBound r <=? rI r) eqn:E3; [|split_guards]. bool_to_prop.
  destruct reply as [l|e]; cbn; [|lia]. destruct (lrBound l <=? rI r) eqn:E4; cbn; [lia|].
  rewrite E1, E4. case_match; lia.
Qed.

Lemma fetched_turns wid got r k :
  loop_next wid r = Fetch k → turns (fetched got r) < turns r.
Proof.
  intros Hn. unfold loop_next in Hn. unfold turns, fetched.
  destruct (rStopped r) eqn:E1; [done|]. destruct (rI r <? rEnd r) eqn:E2; [|done].
  destruct (rBound r <=? rI r) eqn:E3; [done|]. bool_to_prop.
  destruct got; cbn; rewrite E1; split_guards; lia.
Qed.

Section driven.
Context {W : Type} `{Host W}.

Lemma loop_ends fuel wid r (w : W) : run_ok r → turns r ≤ Z.of_nat fuel →
  ∃ r', (loop fuel wid r w).1 = Some r' ∧ run_ok r' ∧ rTask r' = rTask r ∧ rStart r' = rStart r ∧ rEnd r' = rEnd r.
Proof.
  revert r w. induction fuel as [|fuel IH]; intros r w Hr Ht; cbn.
  { unfold turns in Ht. destruct Hr. split_guards; lia. }
  pose proof (loop_next_safe wid r Hr) as Hs. destruct (loop_next wid r) as [|req|k|] eqn:Hn; [| | |done].
  - by exists r.
  - destruct (PostRenew _ _ _) as [reply w1].
    destruct (IH (renewed reply r) w1) as (r' & ? & ? & Hk & Hs' & He); [by apply renewed_run_ok| |].
    + pose proof (renewed_turns wid reply r req Hn). lia.
    + exists r'. rewrite Hk, Hs', He. unfold renewed. split_and!; try done; repeat case_match; done.
  - destruct (GetObject _ _) as [got w1].
    destruct (IH (fetched got r) w1) as (r' & ? & ? & Hk & Hs' & He); [by eapply fetched_run_ok| |].
    + pose proof (fetched_turns wid got r k Hn). lia.
    + exists r'. rewrite Hk, Hs', He. unfold fetched. split_and!; try done; repeat case_match; done.
Qed.

Lemma turns_fuel r : turns r ≤ Z.of_nat (loop_fuel r).
Proof. unfold turns, loop_fuel. split_guards; lia. Qed.

(** C32: whatever the coordinator and the store answer, a task's run comes to an
    end without an index out of range: it reports an outcome. *)
Theorem run_always_reports wid a (w : W) : 0 ≤ aRangeStart a → ∃ o, (RunTask wid a w).1 = Some o.
Proof.
  intros Ha. unfold RunTask, runAlgorithm. destruct (ListPrefix _ _) as [[keys|e] w1].
  - destruct (loop_ends (loop_fuel (loop_start a keys)) wid (loop_start a keys) w1) as (r' & Hl & _);
      [by apply loop_start_ok|apply turns_fuel|].
    destruct (loop _ _ _ _) as [o w2]. cbn in Hl. subst o. destruct (stage_result r' w2) as [o w3].
    destruct (PostResult _ _ _) as [x w4]. by exists x.
  - destruct (PostResult _ _ _) as [x w4]. by exists x.
Qed.

(** *** A range that is never cut short *)

(** The coordinator answers every renewal with a bound past the frontier. *)
Definition generous : Prop :=
  ∀ id req (w : W), ∃ l, (PostRenew id req w).1 = Ok l ∧ rlFrontier req < lrBound l.

Lemma loop_reaches_end fuel wid r (w : W) r' : generous → rStopped r = false → run_ok r →
  (loop fuel wid r w).1 = Some r' → rI r' = Z.max (rI r) (rEnd r) ∧ rStart r' = rStart r ∧ rTask r' = rTask r.
Proof.
  intros Hg. revert r w. induction fuel as [|fuel IH]; intros r w Hst Hr Hl; cbn in Hl; [done|].
  destruct (loop_next wid r) as [|req|k|] eqn:Hn; simplify_eq/=.
  - unfold loop_next in Hn. rewrite Hst in Hn. split_guards. split; [lia|done].
  - destruct (Hg (aTaskID (rTask r)) req w) as (l & Hl1 & Hb).
    destruct (PostRenew _ _ _) as [reply w1]. cbn in Hl1. subst reply.
    assert (Hf : rlFrontier req = rI r) by (unfold loop_next in Hn; split_guards; done).
    assert (Hc : renewed (Ok l) r = r <| rGen := lrGeneration l |> <| rBound := lrBound l |>).
    { unfold renewed. cbn. by rewrite (proj2 (Z.leb_gt _ _)) by lia. }
    destruct (IH (renewed (Ok l) r) w1) as (E1 & E2 & E3); 
      [by rewrite Hc|by apply renewed_run_ok|done|]. rewrite Hc in *. done.
  - destruct (GetObject _ _) as [got w1].
    assert (Hlt : rI r < rEnd r) by (unfold loop_next in Hn; split_guards; done).
    destruct (IH (fetched got r) w1) as (E1 & E2 & E3); [by destruct got|by eapply fetched_run_ok|done|].
    destruct got; cbn in *; split_and!; (lia || done).
Qed.

(** Under a lease that is always extended, a successful run has walked its
    whole range, reports its length, and has staged the row under the task's
    staging key. *)
Theorem run_covers_range wid a (w w1 w' : W) keys o :
  generous → 0 ≤ aRangeStart a ≤ rEnd (loop_start a keys) →
  ListPrefix (aDataset a +:+ "/" +:+ aShard a +:+ "/") w = (Ok keys, w1) →
  runAlgorithm wid a w = (Some (Ok o), w') →
  oProcessed o = rEnd (loop_start a keys) - aRangeStart a ∧
  oKey o = StagingResultKey (aJobID a) (aTaskID a) ∧
  ∃ body w2, WriteResultsParquet (MkRow (aTaskID a) (aShard a)
      (FinalResultKey (aJobID a) (aShard a) (MkRange (aRangeStart a) (aRangeEnd a) (aSplit a)))
      (oProcessed o) (oBytes o)) = Ok body ∧ PutObject (oKey o) body w2 = (Ok tt, w').
Proof.
  intros Hg [Ha He] Hk Hr. unfold runAlgorithm in Hr. rewrite Hk in Hr.
  destruct (loop _ _ _ _) as [[r|] w2] eqn:Hl; [|done].
  destruct (loop_reaches_end (loop_fuel (loop_start a keys)) wid (loop_start a keys) w1 r) as (E1 & E2 & E3);
    [done|done|by apply loop_start_ok|by rewrite Hl|].
  assert (Hi : rI (loop_start a keys) = aRangeStart a) by done. rewrite Hi in E1.
  change (rStart (loop_start a keys)) with (aRangeStart a) in E2. change (rTask (loop_start a keys)) with a in E3.
  unfold stage_result in Hr. rewrite E1, E2, E3, Z.max_r in Hr by done.
  destruct (WriteResultsParquet _) as [body|e] eqn:Hw; [|done].
  destruct (PutObject _ _ _) as [[[]|e] w3] eqn:Hp; [|done]. simplify_eq/=. split_and!; try done. by exists body, w2.
Qed.
End driven.

(** ** The pool *)

Inductive pool_reachable (w0 : Worker) : Worker → Prop :=
| pool_start : pool_reachable w0 w0
| pool_move w w' : pool_reachable w0 w → worker_step w w' → pool_reachable w0 w'.

Lemma length_remove_at {A} i (l : list A) x : l !! i = Some x → S (length (remove_at i l)) = length l.
Proof.
  intros Hi. apply lookup_lt_Some in Hi. unfold remove_at. rewrite length_app, length_take, length_drop. lia.
Qed.

Lemma tick_fields resp w :
  wConcurrency (poll_tick resp w) = wConcurrency w ∧ activeTasks (poll_tick resp w) = activeTasks w ∧
  sem (poll_tick resp w) = sem w ∧ executing (poll_tick resp w) = executing w.
Proof. unfold poll_tick, poll. repeat case_match; done. Qed.

Lemma step_pool w w' : worker_step w w' →
  wConcurrency w' = wConcurrency w ∧ activeTasks w' = activeTasks w ∧
  (sem w = Z.of_nat (length (executing w)) ∧ sem w ≤ wConcurrency w →
   sem w' = Z.of_nat (length (executing w')) ∧ sem w' ≤ wConcurrency w').
Proof.
  intros [resp u|i u u' Ha|i u u' Hf].
  - destruct (tick_fields resp u) as (E1 & E2 & E3 & E4). by rewrite E1, E2, E3, E4.
  - unfold acquire in Ha. destruct (queued u !! i) as [a|]; cbn in Ha; [|done]. split_guards. cbn.
    rewrite length_app. cbn. split_and!; try done; lia.
  - unfold finish in Hf. destruct (executing u !! i) as [a|] eqn:E; cbn in Hf; [|done]. simplify_eq/=.
    pose proof (length_remove_at i _ a E). split_and!; try done; lia.
Qed.

Lemma pool_inv id uuid n w : 0 ≤ n → pool_reachable (New id uuid n) w →
  wConcurrency w = n ∧ activeTasks w = ∅ ∧ sem w = Z.of_nat (length (executing w)) ∧ sem w ≤ n.
Proof.
  intros Hn. induction 1 as [|w w' _ (E1 & E2 & E3) Hs]; [done|].
  destruct (step_pool w w' Hs) as (F1 & F2 & F3). rewrite F1, F2, E1, E2 in *. split_and!; try done; apply F3; done.
Qed.

(** A worker never executes more tasks at a time than it was configured
    for. *)
Theorem executes_at_most_concurrency id uuid n w : 0 ≤ n → pool_reachable (New id uuid n) w →
  Z.of_nat (length (executing w)) ≤ n.
Proof. intros Hn Hr. destruct (pool_inv id uuid n w Hn Hr) as (_ & _ & E & ?). lia. Qed.

Definition demo_assignment : TaskAssignment := MkAssignment "t1" "job" "aa" "ds" "dense" ∅ 0 (-1) 1 0 false.
Definition offer : option PollResponse := Some (MkPollResponse (Some demo_assignment) true).

Lemma executes_at_most_concurrency_witness :
  ∃ w, executing w = [demo_assignment] ∧ Z.of_nat (length (executing w)) ≤ 1.
Proof.
  pose (w1 := poll_tick offer (New "w1" "u" 1)).
  assert (∃ w2, acquire 0 w1 = Some w2 ∧ executing w2 = [demo_assignment]) as (w2 & Ha & He) by (by eexists).
  exists w2. split; [done|]. apply (executes_at_most_concurrency "w1" "u" 1); [lia|].
  eapply pool_move; [eapply pool_move; [apply pool_start|apply (wk_tick offer)]|]. by eapply wk_acquire.
Defined.

(** The tick's guard never holds a worker back: no code adds to
    [activeTasks], so that a busy worker goes on leasing tasks that wait for a
    slot, without bound. *)
Theorem busy_worker_keeps_polling id uuid n k : 0 < n →
  ∃ w, pool_reachable (New id uuid n) w ∧ polls w = true ∧ length (queued w) = k.
Proof.
  intros Hn.
  assert (∃ w, pool_reachable (New id uuid n) w ∧ length (queued w) = k) as (w & Hw & Hk).
  { induction k as [|k (w & Hw & Hk)]; [exists (New id uuid n); split; [constructor|done]|].
    exists (poll_tick offer w). split; [by eapply pool_move; [|apply wk_tick]|].
    destruct (pool_inv id uuid n w ltac:(lia) Hw) as (E1 & E2 & _).
    unfold poll_tick, polls, ActiveTaskCount. rewrite E1, E2, map_size_empty.
    destruct (Z.ltb_spec (Z.of_nat 0) n); [|lia]. cbn. rewrite length_app, Hk. cbn. lia. }
  exists w. split_and!; try done. destruct (pool_inv id uuid n w ltac:(lia) Hw) as (E1 & E2 & _).
  unfold polls, ActiveTaskCount. rewrite E1, E2, map_size_empty. by apply Z.ltb_lt.
Qed.

Lemma busy_worker_keeps_polling_witness :
  ∃ w, pool_reachable (New "w1" "u" 2) w ∧ polls w = true ∧ length (queued w) = 7%nat.
Proof. apply (busy_worker_keeps_polling "w1" "u" 2 7). lia. Defined.

(** ** A run on a small shard *)

(** Three objects of ten bytes; the world is what was reported. *)
Definition demo_host (renew : RenewLeaseRequest → result LeaseRenewal) : Host (list ResultRequest) := {|
  ListPrefix _ w := (Ok ["ds/aa/0"; "ds/aa/1"; "ds/aa/2"], w);
  GetObject _ w := (Ok 10, w);
  PutObject _ _ w := (Ok tt, w);
  PostStart _ _ w := w;
  PostRenew _ req w := (renew req, w);
  PostResult _ req w := (Ok tt, w ++ [req]);
  WriteResultsParquet _ := Ok [];
  Elapsed _ := 7 |}.

Definition extend (req : RenewLeaseRequest) : result LeaseRenewal :=
  Ok (MkRenewal (rlGeneration req) (rlFrontier req + 1) false).

Lemma run_always_reports_witness :
  ∃ o, (RunTask (H := demo_host extend) "w1" demo_assignment []).1 = Some o.
Proof. apply (run_always_reports (H := demo_host extend)). vm_compute. done. Defined.

Lemma run_covers_range_witness :
  ∃ o w', runAlgorithm (H := demo_host extend) "w1" demo_assignment [] = (Some (Ok o), w') ∧ oProcessed o = 3 - 0.
Proof.
  eexists _, _. split; [vm_compute; reflexivity|].
  eapply (run_covers_range (H := demo_host extend) "w1" demo_assignment [] [] [] ["ds/aa/0"; "ds/aa/1"; "ds/aa/2"]).
  - intros id req w. eexists. split; [reflexivity|]. cbn. lia.
  - vm_compute. split; congruence.
  - vm_compute. reflexivity.
  - vm_compute. reflexivity.
Defined.

(** A worker whose renewal fails stops in the middle of its range and
    reports success. *)
Theorem failed_renewal_reports_success :
  ∃ req, RunTask (H := demo_host (λ _, Err "connection refused")) "w1" demo_assignment [] = (Some (Ok tt), [req]) ∧
    rrError req = EmptyString ∧ rrImagesProcessed req = 1 ∧ rEnd (loop_start demo_assignment ["ds/aa/0"; "ds/aa/1"; "ds/aa/2"]) = 3.
Proof. eexists. split; [vm_compute; reflexivity|]. done. Qed.
