(* ===== verification/Fleet.v ===== *)
(** * Workers under leases

    The scheduler and the item loops of its workers, run together: the
    scheduler grants, extends and splits leases in any order while every loop
    advances on its own.  What is proved is the guarantee the lease protocol is
    there for: no item of a shard is read twice. *)
From S2P Require Import Prelude GoLib Storage Ring Job Keys Scheduler SchedInv Tiling SchedSteps SchedThms Worker.
Open Scope Z_scope.

(** ** What the scheduler leaves alone *)

(** Calls that neither renew a lease nor send a task back. *)
Definition retains (o : op) : bool :=
  match o with
  | OpRenew _ _ | OpRebalance _ _ _ => false
  | OpFinish _ _ req => bool_decide (rrError req = EmptyString)
  | _ => true
  end.

(** A task that is not waiting keeps its lease. *)
Definition holds (t t' : Task) : Prop :=
  tStatus t ≠ TaskPending →
  tStatus t' ≠ TaskPending ∧ tGranted t' = tGranted t ∧ tRangeStart t' = tRangeStart t ∧
  tJobID t' = tJobID t ∧ tShard t' = tShard t.

#[export] Instance holds_preorder : PreOrder holds.
Proof.
  split; [by intros t H|]. intros t1 t2 t3 H12 H23 H1.
  destruct (H12 H1) as (H2 & ? & ? & ? & ?). destruct (H23 H2) as (? & ? & ? & ? & ?). split_and!; congruence.
Qed.

Lemma evolves_holds (R : relation Task) s s' :
  (∀ t t', R t t' → holds t t') → evolves R s s' → evolves holds s s'.
Proof. apply evolves_mono. Qed.

Lemma grant_holds t t' : grant_step t t' → holds t t'.
Proof. by intros [now w chunk u Hst|now chunk u Hst|split u Hst] Hp; [congruence..|]. Qed.

Lemma start_holds t t' : start_step t t' → holds t t'.
Proof. by intros [now u Hl] Hp. Qed.

Lemma finish_holds now id req s :
  rrError req = EmptyString → evolves holds s (report_finish now id req s).2.
Proof.
  intros He. unfold report_finish. destruct (tasks s !! id) as [t|] eqn:Ht; [|reflexivity].
  case_bool_decide; [reflexivity|]. rewrite bool_decide_eq_false_2 by auto. cbn [snd]. evolve_peel.
  eapply evolves_put; [done|]. by intros Hp.
Qed.

Lemma retains_holds {R} `{ShardOwner R} (r : R) o s :
  sched_ok s → valid_op o s → retains o = true → evolves holds s (run_op r o s).
Proof.
  intros Hs Hv Hr. destruct o; simpl in *; try done.
  - by apply evolves_Submit, Hv.
  - eapply evolves_holds; [apply grant_holds|]. apply evolves_PollTasks; [done|apply Hv].
  - eapply evolves_holds; [apply start_holds|]. by apply evolves_StartTask.
  - apply finish_holds. by apply bool_decide_eq_true in Hr.
  - eapply evolves_holds; [apply grant_holds|]. by apply evolves_DrainPending.
  - unfold SetLeaseChunk. case_match; by apply evolves_same.
  - by apply evolves_same.
  - by apply evolves_same.
Qed.

Lemma evolves_holds_lookup s s' id t : evolves holds s s' → tasks s !! id = Some t → tStatus t ≠ TaskPending →
  ∃ t', tasks s' !! id = Some t' ∧ holds t t' ∧ tStatus t' ≠ TaskPending.
Proof.
  intros He Ht Hp. destruct (He id t Ht) as (t' & Ht' & Hr). exists t'.
  assert (holds t t') as Hh by (clear -Hr; induction Hr; [reflexivity|by etrans]).
  split_and!; [done..|]. by apply Hh.
Qed.

(** What a successful poll hands out: a lease that nobody held. *)
Lemma poll_assigned {R} `{ShardOwner R} (r : R) now order newID w s a s' :
  sched_ok s → tasks s !! newID = None → PollTasks r now order newID w s = (Ok (Some a), s') →
  (∀ t, tasks s !! aTaskID a = Some t → tStatus t = TaskPending) ∧
  ∃ t, tasks s' !! aTaskID a = Some t ∧ tStatus t ≠ TaskPending ∧ aBound a = tGranted t ∧
    aRangeStart a = tRangeStart t ∧ aJobID a = tJobID t ∧ aShard a = tShard t.
Proof.
  intros Hs Hnew Hp. destruct (PollTasks_outcome r now order newID w s Hs) as (a' & Ha & Hout).
  rewrite Hp in Ha, Hout. cbn [fst snd] in *. injection Ha as <-.
  inversion Hout as [k tid t j _ Hq Ht Hst Hj E1 E2|vid t j split _ Hin Ht Hst _ Hsp Hbt _ Hj E1 E2|]; subst.
  - rewrite tasks_persist. cbn [aTaskID assignment_of]. rewrite assigned_id, (ok_task_id _ Hs tid t Ht). split.
    + intros u Hu. congruence.
    + eexists. split; [by cbn; rewrite lookup_insert_eq|]. by rewrite assigned_status.
  - rewrite tasks_persist, tasks_bump. cbn [aTaskID assignment_of]. rewrite assigned_id. cbn [tID stolen_task].
    split; [intros u Hu; congruence|]. eexists. split; [by cbn; rewrite lookup_insert_eq|]. by rewrite assigned_status.
Qed.

(** ** The fleet *)

Record Read := MkRead { rdTask : string; rdJob : string; rdShard : string; rdItem : Z }.

(** [fRuns]: the item loop of each task that a worker took; [fReads]: every
    object read, in order. *)
Record Fleet := MkFleet { fSched : Scheduler; fRuns : gmap string Run; fReads : list Read }.
#[export] Instance eta_Fleet : Eta Fleet := λ d, MkFleet (fSched d) (fRuns d) (fReads d).

Section fleet.
Context {R : Type} `{ShardOwner R}.
(** What listing a shard of a dataset gives: the same keys every time. *)
Context (items : string → string → list string).

Inductive fleet_step : Fleet → Fleet → Prop :=
| fl_call (r : R) o d :
    valid_op o (fSched d) → retains o = true →
    fleet_step d (d <| fSched := run_op r o (fSched d) |>)
| fl_take (r : R) now order newID w a s' d :
    valid_op (OpPoll now order newID w) (fSched d) →
    PollTasks r now order newID w (fSched d) = (Ok (Some a), s') →
    fleet_step d (d <| fSched := s' |>
      <| fRuns := <[aTaskID a := loop_start a (items (aDataset a) (aShard a))]> (fRuns d) |>)
| fl_renew (r : R) id wid x req reply s' d :
    fRuns d !! id = Some x → loop_next wid x = Renew req → RenewLease id req (fSched d) = (reply, s') →
    fleet_step d (d <| fSched := s' |> <| fRuns := <[id := renewed reply x]> (fRuns d) |>)
| fl_reply_lost (r : R) id wid x req reply s' e d :
    fRuns d !! id = Some x → loop_next wid x = Renew req → RenewLease id req (fSched d) = (reply, s') →
    fleet_step d (d <| fSched := s' |> <| fRuns := <[id := renewed (Err e) x]> (fRuns d) |>)
| fl_unreachable id wid x req e d :
    fRuns d !! id = Some x → loop_next wid x = Renew req →
    fleet_step d (d <| fRuns := <[id := renewed (Err e) x]> (fRuns d) |>)
| fl_read id wid x k got d :
    fRuns d !! id = Some x → loop_next wid x = Fetch k →
    fleet_step d (d <| fRuns := <[id := fetched got x]> (fRuns d) |>
      <| fReads := fReads d ++ [MkRead id (aJobID (rTask x)) (aShard (rTask x)) (rI x)] |>).

Inductive fleet_reachable (mr : Z) : Fleet → Prop :=
| fleet_new : fleet_reachable mr (MkFleet (Scheduler.New mr) ∅ [])
| fleet_move d d' : fleet_reachable mr d → fleet_step d d' → fleet_reachable mr d'.

(** A loop never knows more than the scheduler granted, and while it runs it
    knows all of it. *)
Record tied (x : Run) (t : Task) : Prop := {
  td_taken : tStatus t ≠ TaskPending;
  td_job : aJobID (rTask x) = tJobID t;
  td_shard : aShard (rTask x) = tShard t;
  td_start : rStart x = tRangeStart t;
  td_at : rStart x ≤ rI x ≤ rBound x;
  td_bound : rBound x ≤ tGranted t;
  td_live : rStopped x = false → rBound x = tGranted t;
  td_total : rTotal x ≤ items_max ∧ rEnd x ≤ rTotal x }.

Record fleet_ok (mr : Z) (d : Fleet) : Prop := {
  fo_reach : reachable (R:=R) mr (fSched d);
  fo_runs : ∀ id x, fRuns d !! id = Some x → ∃ t, tasks (fSched d) !! id = Some t ∧ tied x t;
  fo_reads : ∀ e, e ∈ fReads d → ∃ x, fRuns d !! rdTask e = Some x ∧
    rdJob e = aJobID (rTask x) ∧ rdShard e = aShard (rTask x) ∧ rStart x ≤ rdItem e < rI x;
  fo_once : NoDup ((λ e, (rdTask e, rdItem e)) <$> fReads d) }.

Lemma tied_holds x t t' : tied x t → holds t t' → tied x t'.
Proof.
  intros [? ? ? ? ? ? ? ?] Hh. destruct Hh as (? & ? & ? & ? & ?); [done|]. split; try congruence; try done.
  - intros Hs. rewrite (td_live0 Hs). congruence.
Qed.

(** A call that leaves the loops alone keeps them tied. *)
Lemma runs_evolve s s' (m : gmap string Run) : evolves holds s s' →
  (∀ id x, m !! id = Some x → ∃ t, tasks s !! id = Some t ∧ tied x t) →
  ∀ id x, m !! id = Some x → ∃ t, tasks s' !! id = Some t ∧ tied x t.
Proof.
  intros He Hm id x Hx. destruct (Hm id x Hx) as (t & Ht & Htd).
  destruct (evolves_holds_lookup s s' id t He Ht (td_taken _ _ Htd)) as (t' & Ht' & Hh & _).
  exists t'. split; [done|]. by eapply tied_holds.
Qed.

(** The reads survive a loop that only moves forward. *)
Lemma reads_keep (m : gmap string Run) (l : list Read) id x x' : m !! id = Some x →
  rTask x' = rTask x → rStart x' = rStart x → rI x ≤ rI x' →
  (∀ e, e ∈ l → ∃ y, m !! rdTask e = Some y ∧
     rdJob e = aJobID (rTask y) ∧ rdShard e = aShard (rTask y) ∧ rStart y ≤ rdItem e < rI y) →
  ∀ e, e ∈ l → ∃ y, <[id := x']> m !! rdTask e = Some y ∧
     rdJob e = aJobID (rTask y) ∧ rdShard e = aShard (rTask y) ∧ rStart y ≤ rdItem e < rI y.
Proof.
  intros Hx E1 E2 Hi Hl e He. destruct (Hl e He) as (y & Hy & ? & ? & ?). destruct (decide (rdTask e = id)) as [E|Hne].
  - subst id. exists x'. rewrite lookup_insert_eq. rewrite Hx in Hy. injection Hy as <-. rewrite E1, E2. split_and!; try done; lia.
  - exists y. by rewrite lookup_insert_ne.
Qed.

(** The worker's own renewals are honest: it asks only below the size of the
    shard, past which nothing was granted. *)
Lemma renew_request wid x req t : tied x t → lease_ok t → loop_next wid x = Renew req →
  rStopped x = false ∧ rI x = tGranted t ∧ renew_honest req t.
Proof.
  intros [? ? ? ? [? ?] ? Hl [? ?]] Hlease Hn. unfold loop_next in Hn.
  destruct (rStopped x) eqn:Es; [done|]. specialize (Hl eq_refl).
  destruct (Z.ltb_spec (rI x) (rEnd x)); [|done]. destruct (Z.leb_spec (rBound x) (rI x)); [|split_guards].
  injection Hn as <-. split_and!; [done|lia|]. unfold renew_honest. cbn. lia.
Qed.

Lemma tied_stop x t e : tied x t → tied (renewed (Err e) x) t.
Proof. intros []. by split. Qed.

(** A renewal ties the loop to the extended lease, whether the reply arrives or
    not, and touches no other task. *)
Lemma renewal_tied wid id x req t s reply s' :
  sched_ok s → tasks s !! id = Some t → tied x t → loop_next wid x = Renew req →
  RenewLease id req s = (reply, s') →
  (∀ id', id' ≠ id → tasks s' !! id' = tasks s !! id') ∧
  ∃ t', tasks s' !! id = Some t' ∧ tied (renewed reply x) t' ∧ ∀ e, tied (renewed (Err e) x) t'.
Proof.
  intros Hs Ht Htd Hn Hr. destruct (renew_request wid x req t Htd (ok_lease _ Hs id t Ht) Hn) as (Hst & Hi & _).
  unfold RenewLease in Hr. rewrite Ht in Hr. injection Hr as <- <-. rewrite tasks_persist. split.
  { intros id' Hne. unfold put_task. cbn. by rewrite lookup_insert_ne. }
  exists (renew_task (leaseChunk s) req t). split; [unfold put_task; cbn; by rewrite lookup_insert_eq|].
  destruct (renew_keeps (leaseChunk s) req t) as (e & f & g & E & Hg).
  destruct Htd. rewrite E. split; [|intros ?; split; cbn; try done; lia].
  unfold renewed. cbn. destruct (Z.leb_spec g (rI x)); split; cbn; try done; lia.
Qed.

#[local] Arguments fetched : simpl never.
#[local] Arguments renewed : simpl never.

(** One loop moves on, with its task. *)
Lemma replace_run mr d s' id x x' t' :
  fleet_ok mr d → reachable (R:=R) mr s' → fRuns d !! id = Some x →
  (∀ id', id' ≠ id → tasks s' !! id' = tasks (fSched d) !! id') → tasks s' !! id = Some t' →
  tied x' t' → rTask x' = rTask x → rStart x' = rStart x → rI x ≤ rI x' →
  fleet_ok mr (d <| fSched := s' |> <| fRuns := <[id := x']> (fRuns d) |>).
Proof.
  intros [Hr Hruns Hreads Honce] Hr' Hx Hoth Ht' Htd E1 E2 E3. split; cbn; try done.
  - intros id' y Hy. lookup_cases Hy; [by exists t'|]. rewrite Hoth by done. by apply Hruns.
  - by eapply reads_keep.
Qed.

Lemma renewed_fields reply x :
  rTask (renewed reply x) = rTask x ∧ rStart (renewed reply x) = rStart x ∧ rI (renewed reply x) = rI x.
Proof. unfold renewed. by repeat case_match. Qed.

Lemma renew_step_ok mr (r : R) id wid x req reply s' reply' d :
  fleet_ok mr d → fRuns d !! id = Some x → loop_next wid x = Renew req →
  RenewLease id req (fSched d) = (reply, s') → reply' = reply ∨ (∃ e, reply' = Err e) →
  fleet_ok mr (d <| fSched := s' |> <| fRuns := <[id := renewed reply' x]> (fRuns d) |>).
Proof.
  intros Hok Hx Hn Hre Hrep. pose proof Hok as [Hr Hruns _ _]. pose proof (reachable_ok mr _ Hr) as Hs.
  destruct (Hruns id x Hx) as (t & Ht & Htd).
  destruct (renewal_tied wid id x req t _ reply s' Hs Ht Htd Hn Hre) as (Hoth & t' & Ht' & Htd' & Herr).
  destruct (renew_request wid x req t Htd (ok_lease _ Hs id t Ht) Hn) as (_ & _ & Hhon).
  destruct (renewed_fields reply' x) as (E1 & E2 & E3).
  eapply replace_run; try done; [| |by rewrite E3].
  - replace s' with (run_op r (OpRenew id req) (fSched d)); [|by cbn; rewrite Hre].
    apply reach_op; [done|]. intros u Hu. by simplify_eq.
  - destruct Hrep as [->|[e ->]]; [done|apply Herr].
Qed.

Lemma fetched_fields got x :
  rTask (fetched got x) = rTask x ∧ rStart (fetched got x) = rStart x ∧ rI (fetched got x) = rI x + 1.
Proof. unfold fetched. by destruct got. Qed.

Lemma read_step_ok mr id wid x k got d :
  fleet_ok mr d → fRuns d !! id = Some x → loop_next wid x = Fetch k →
  fleet_ok mr (d <| fRuns := <[id := fetched got x]> (fRuns d) |>
    <| fReads := fReads d ++ [MkRead id (aJobID (rTask x)) (aShard (rTask x)) (rI x)] |>).
Proof.
  intros Hok Hx Hn. pose proof Hok as [Hr Hruns Hreads Honce]. destruct (Hruns id x Hx) as (t & Ht & Htd).
  destruct (fetched_fields got x) as (E1 & E2 & E3).
  assert (Hb : rI x < rBound x) by (unfold loop_next in Hn; split_guards; lia).
  destruct (replace_run mr d (fSched d) id x (fetched got x) t) as [_ Hruns' Hreads' _]; try done; [|lia|].
  { clear -Htd Hb. unfold fetched. destruct Htd, got; split; cbn; try done; lia. }
  split; cbn in *; try done.
  - intros e He. apply elem_of_app in He as [He| ->%list_elem_of_singleton]; [by apply Hreads'|]. cbn.
    exists (fetched got x). rewrite lookup_insert_eq, E1, E2, E3. destruct Htd. split_and!; try done; lia.
  - rewrite fmap_app. apply NoDup_app. split_and!; [done| |apply NoDup_singleton].
    intros p [e [-> He]]%list_elem_of_fmap Hin. apply list_elem_of_singleton in Hin. cbn in Hin. injection Hin as E F.
    destruct (Hreads e He) as (y & Hy & _ & _ & ?). rewrite E, Hx in Hy. injection Hy as <-. lia.
Qed.

Lemma fleet_step_ok mr d d' : (∀ ds sh, Z.of_nat (length (items ds sh)) ≤ items_max) →
  fleet_ok mr d → fleet_step d d' → fleet_ok mr d'.
Proof.
  intros Hsz [Hr Hruns Hreads Honce] Hstep. pose proof (reachable_ok mr _ Hr) as Hs.
  destruct Hstep as [r o d Hv Hre|r now order newID w a s' d Hv Hp|r id wid x req reply s' d Hx Hn Hre
    |r id wid x req reply s' e d Hx Hn Hre|id wid x req e d Hx Hn|id wid x k got d Hx Hn]; cbn in *.
  - split; cbn; try done; [by apply reach_op|]. eapply runs_evolve; [|done]. by apply retains_holds.
  - destruct Hv as [Hnew Hord]. destruct (poll_assigned r now order newID w _ a s' Hs Hnew Hp)
      as (Hfree & t & Ht & Hst & Eb & Es & Ej & Eh).
    assert (Ho : run_op r (OpPoll now order newID w) (fSched d) = s') by (cbn; by rewrite Hp).
    assert (Hr' : reachable (R:=R) mr s') by (rewrite <- Ho; by apply reach_op).
    assert (Hev : evolves holds (fSched d) s') by (rewrite <- Ho; by apply retains_holds).
    assert (Hl : lease_ok t) by (eapply ok_lease; [by eapply reachable_ok|done]). clear Ho Hp.
    assert (Hnot : fRuns d !! aTaskID a = None).
    { destruct (fRuns d !! aTaskID a) as [x|] eqn:Hx; [|done].
      destruct (Hruns _ x Hx) as (u & Hu & [? ? ? ? ? ? ? ?]). by apply Hfree in Hu. }
    split; cbn; try done.
    + intros id x Hx. lookup_cases Hx; [|by eapply runs_evolve].
      exists t. split; [done|]. destruct Hl.
      split; cbn; try done; try lia. split; [apply Hsz|]. split_guards; lia.
    + intros e He. destruct (Hreads e He) as (x & Hx & ?). exists x. split; [|done].
      rewrite lookup_insert_ne; [done|congruence].
  - eapply renew_step_ok; eauto. by split.
  - eapply renew_step_ok; eauto. by split.
  - destruct (Hruns id x Hx) as (t & Ht & Htd).
    replace d with (d <| fSched := fSched d |>) at 1 by by destruct d.
    destruct (renewed_fields (Err e) x) as (E1 & E2 & E3). eapply replace_run; try done. by apply tied_stop.
  - eapply read_step_ok; [by split|done..].
Qed.

Lemma fleet_reachable_ok mr d : (∀ ds sh, Z.of_nat (length (items ds sh)) ≤ items_max) →
  fleet_reachable mr d → fleet_ok mr d.
Proof.
  intros Hsz. induction 1 as [|d d' _ IH Hs]; [|by eapply fleet_step_ok].
  split; cbn; [constructor|done|by intros e He%elem_of_nil|constructor].
Qed.

(** C6: no item of a shard is read twice.  Whatever the workers and the
    scheduler do, in whatever order, as long as no task is sent back, every
    object read is the only read of that item of that shard in that job: the
    leases are disjoint, and no loop reads past the bound it was told. *)
Theorem no_item_read_twice mr d : (∀ ds sh, Z.of_nat (length (items ds sh)) ≤ items_max) →
  fleet_reachable mr d → NoDup ((λ e, (rdJob e, rdShard e, rdItem e)) <$> fReads d).
Proof.
  intros Hsz Hd. destruct (fleet_reachable_ok mr d Hsz Hd) as [Hr Hruns Hreads Honce].
  apply NoDup_fmap_2_strong; [|by eapply NoDup_fmap_1]. intros e e' He He' [= Ej Esh Ei].
  destruct (Hreads e He) as (x & Hx & Hj & Hsh & Hi). destruct (Hreads e' He') as (x' & Hx' & Hj' & Hsh' & Hi').
  destruct (decide (rdTask e = rdTask e')) as [E|Hne].
  - destruct e, e'. cbn in *. congruence.
  - exfalso. destruct (Hruns _ x Hx) as (t & Ht & []), (Hruns _ x' Hx') as (t' & Ht' & []).
    apply (granted_apart mr _ _ t _ t' (rdItem e) Hr Ht Ht' Hne); [congruence|congruence|lia|lia].
Qed.
End fleet.

(** ** A run: a job, a worker, two objects read *)

Definition demo_items (ds sh : string) : list string := ["ds/aa/0"; "ds/aa/1"; "ds/aa/2"].
Definition demo_poll : result (option TaskAssignment) * Scheduler :=
  PollTasks demo_ring 3 (task_keys (demo 2 (Scheduler.New 2))) "x" "w1" (demo 2 (Scheduler.New 2)).
Definition demo_lease : TaskAssignment := MkAssignment "t1" "job" "aa" "ds" "dense" ∅ 0 (-1) 1000 0 false.
Definition demo_taken : Fleet :=
  MkFleet demo_poll.2 (<["t1" := loop_start demo_lease (demo_items "ds" "aa")]> ∅) [].
Definition demo_read (d : Fleet) : Fleet :=
  match fRuns d !! "t1" with
  | Some x => d <| fRuns := <["t1" := fetched (Ok 10) x]> (fRuns d) |>
                <| fReads := fReads d ++ [MkRead "t1" (aJobID (rTask x)) (aShard (rTask x)) (rI x)] |>
  | None => d
  end.

Lemma demo_taken_reachable : fleet_reachable (R := Ring) demo_items 2 demo_taken.
Proof.
  assert (Hd : ∀ n, (n ≤ 2)%nat → fleet_reachable (R := Ring) demo_items 2 (MkFleet (demo n (Scheduler.New 2)) ∅ [])).
  { induction n as [|n IH]; intros Hn; [constructor|].
    destruct (lookup_lt_is_Some_2 demo_ops n) as [o Ho]; [simpl; lia|].
    rewrite (demo_S n (Scheduler.New 2) o Ho).
    apply (fleet_move demo_items 2 (MkFleet (demo n (Scheduler.New 2)) ∅ [])); [apply IH; lia|].
    apply (fl_call demo_items demo_ring (o (demo n (Scheduler.New 2))) (MkFleet (demo n (Scheduler.New 2)) ∅ [])).
    - by apply (demo_valid n (Scheduler.New 2) (or_introl eq_refl) ltac:(lia)).
    - destruct n as [|[|n]]; [..|lia]; cbn in Ho; injection Ho as <-; done. }
  eapply fleet_move; [apply (Hd 2%nat); lia|].
  apply (fl_take demo_items demo_ring 3 (task_keys (demo 2 (Scheduler.New 2))) "x" "w1" demo_lease demo_poll.2
           (MkFleet (demo 2 (Scheduler.New 2)) ∅ [])).
  - apply (demo_valid 2 (Scheduler.New 2) (or_introl eq_refl) ltac:(lia) (λ s, OpPoll 3 (task_keys s) "x" "w1") eq_refl).
  - change (demo_poll = (Ok (Some demo_lease), demo_poll.2)).
    assert (demo_poll.1 = Ok (Some demo_lease)) as <- by (vm_compute; reflexivity). by destruct demo_poll.
Qed.

Lemma no_item_read_twice_witness :
  fReads (demo_read (demo_read demo_taken)) = [MkRead "t1" "job" "aa" 0; MkRead "t1" "job" "aa" 1] ∧
  NoDup ((λ e, (rdJob e, rdShard e, rdItem e)) <$> fReads (demo_read (demo_read demo_taken))).
Proof.
  split; [vm_compute; reflexivity|].
  apply (no_item_read_twice (R := Ring) demo_items 2); [intros ds sh; vm_compute; discriminate|].
  eapply fleet_move; [eapply fleet_move; [apply demo_taken_reachable|]|].
  - apply (fl_read (R := Ring) demo_items "t1" "w1" (loop_start demo_lease (demo_items "ds" "aa")) "ds/aa/0" (Ok 10) demo_taken);
      vm_compute; reflexivity.
  - apply (fl_read (R := Ring) demo_items "t1" "w1" (fetched (Ok 10) (loop_start demo_lease (demo_items "ds" "aa")))
      "ds/aa/1" (Ok 10) (demo_read demo_taken)); vm_compute; reflexivity.
Defined.
