(* ===== verification/Ray.v ===== *)
(** * The client of a Ray cluster (internal/ray)

    cluster.go and submit.go: health check, submission, status and the wait for
    a job's end.  The dashboard is a world with one operation; the JSON decoder
    is a parameter.  What a wait's [select] picks is a list. *)
From S2P Require Import Prelude GoLib.
Open Scope Z_scope.

Record Client := MkClient { dashboardURL : string }.
Definition NewClient (dashboardURL : string) : Client := MkClient dashboardURL.

Record ClusterInfo := MkClusterInfo { NodeCount : Z; CPUCount : Z; GPUCount : Z; RAMBytes : Z; RayVersion : string; PythonVersion : string }.

(** A status is whatever string the dashboard says. *)
Definition JobStatusPending : string := "PENDING".
Definition JobStatusRunning : string := "RUNNING".
Definition JobStatusSucceeded : string := "SUCCEEDED".
Definition JobStatusFailed : string := "FAILED".
Definition JobStatusStopped : string := "STOPPED".

Record SubmitRequest := MkSubmit { Entrypoint : string; RuntimeEnvJSON : string; SubmitMetadata : gmap string string }.
Record JobInfo := MkJobInfo { SubmissionID : string; Status : string; Message : string; StartTime : option Z; EndTime : option Z }.

(** ** Requests *)

Record HttpRequest := MkRequest { hqMethod : string; hqURL : string; hqJSON : bool; hqBody : list byte }.
Record HttpResponse := MkResponse { hrCode : Z; hrBody : list byte }.

(** The dashboard and the network before it. *)
Class Dashboard (W : Type) := Do : HttpRequest → W → result HttpResponse * W.

(** The JSON package; [show_error] is how an error's body is printed. *)
Class RayCodec := {
  marshal_submit : SubmitRequest → result (list byte);
  decode_cluster : list byte → result ClusterInfo;
  decode_submitted : list byte → result string;
  decode_job : list byte → result JobInfo;
  show_error : list byte → string }.

Section client.
Context {W : Type} `{Dashboard W, RayCodec}.

Definition HealthCheck (c : Client) (w : W) : result ClusterInfo * W :=
  let '(r, w) := Do (MkRequest "GET" (dashboardURL c +:+ "/api/cluster_info") false []) w in
  (match r with
   | Err e => Err ("ray cluster unreachable: " +:+ e)
   | Ok resp =>
       if 400 <=? hrCode resp then Err ("ray dashboard " +:+ fmt_d (hrCode resp))
       else match decode_cluster (hrBody resp) with Err e => Err ("decode cluster_info: " +:+ e) | Ok i => Ok i end
   end, w).

Definition SubmitJob (c : Client) (req : SubmitRequest) (w : W) : result string * W :=
  match marshal_submit req with
  | Err e => (Err ("marshal submit request: " +:+ e), w)
  | Ok body =>
      let '(r, w) := Do (MkRequest "POST" (dashboardURL c +:+ "/api/jobs/") true body) w in
      (match r with
       | Err e => Err ("submit ray job: " +:+ e)
       | Ok resp =>
           if 400 <=? hrCode resp then Err ("ray submit " +:+ fmt_d (hrCode resp) +:+ ": " +:+ show_error (hrBody resp))
           else match decode_submitted (hrBody resp) with Err e => Err ("decode submit response: " +:+ e) | Ok id => Ok id end
       end, w)
  end.

Definition GetJob (c : Client) (submissionID : string) (w : W) : result JobInfo * W :=
  let '(r, w) := Do (MkRequest "GET" (dashboardURL c +:+ "/api/jobs/" +:+ submissionID) false []) w in
  (match r with
   | Err e => Err ("get ray job: " +:+ e)
   | Ok resp =>
       if 400 <=? hrCode resp then Err ("ray get job " +:+ fmt_d (hrCode resp))
       else match decode_job (hrBody resp) with Err e => Err ("decode job info: " +:+ e) | Ok i => Ok i end
   end, w).

(** ** Waiting *)

Definition terminal (status : string) : bool :=
  bool_decide (status = JobStatusSucceeded) || bool_decide (status = JobStatusFailed) || bool_decide (status = JobStatusStopped).

(** What the [select] of the wait picks each time round. *)
Inductive wake := Tick | Cancelled (err : string).

(** [None]: the wait is not over. *)
Fixpoint WaitForJob (c : Client) (submissionID : string) (wakes : list wake) (w : W) : option (result JobInfo) * W :=
  match wakes with
  | [] => (None, w)
  | Cancelled e :: _ => (Some (Err e), w)
  | Tick :: wakes =>
      let '(r, w) := GetJob c submissionID w in
      match r with
      | Err e => (Some (Err e), w)
      | Ok info => if terminal (Status info) then (Some (Ok info), w) else WaitForJob c submissionID wakes w
      end
  end.

(** Everything there is to see: each poll's answer and the world after it. *)
Fixpoint observe (c : Client) (submissionID : string) (wakes : list wake) (w : W) : list (result JobInfo * W) :=
  match wakes with
  | [] => []
  | Cancelled e :: wakes => (Err e, w) :: observe c submissionID wakes w
  | Tick :: wakes => let o := GetJob c submissionID w in o :: observe c submissionID wakes o.2
  end.

Definition decisive (r : result JobInfo) : bool := match r with Err _ => true | Ok i => terminal (Status i) end.

(** A wait ends at the first poll that fails or shows a job that succeeded,
    failed or was stopped, or at the cancellation if that comes first, with that
    answer and with nothing asked after it; while there is none it goes on.  So
    it always ends once it is cancelled, and one failed poll ends it although
    the job runs on. *)
Theorem wait_ends_at_first_answer c id wakes w :
  (WaitForJob c id wakes w).1 = fst <$> find (λ o, decisive o.1) (observe c id wakes w) ∧
  (∀ o, find (λ o, decisive o.1) (observe c id wakes w) = Some o → (WaitForJob c id wakes w).2 = o.2) ∧
  (∀ e, Cancelled e ∈ wakes → is_Some (WaitForJob c id wakes w).1) ∧
  (∀ e rest, (GetJob c id w).1 = Err e → (WaitForJob c id (Tick :: rest) w).1 = Some (Err e)).
Proof.
  split_and!.
  - revert w. induction wakes as [|[|e] wakes IH]; intros w; cbn; [done| |done].
    destruct (GetJob c id w) as [[i|e] w1]; cbn; [|done]. destruct (terminal _); [done|apply IH].
  - revert w. induction wakes as [|[|e] wakes IH]; intros w o; cbn; [done| |by intros [= <-]].
    destruct (GetJob c id w) as [[i|e] w1]; cbn; [|by intros [= <-]]. destruct (terminal _); [by intros [= <-]|apply IH].
  - intros e. revert w. induction wakes as [|[|e'] wakes IH]; intros w Hc; cbn; [by apply elem_of_nil in Hc| |by eexists].
    destruct (GetJob c id w) as [[i|?] w1]; [|by eexists]. destruct (terminal _); [by eexists|]. apply IH.
    by apply elem_of_cons in Hc as [?|?].
  - intros e rest Hg. cbn. destruct (GetJob c id w) as [? w1]. cbn in Hg. by subst.
Qed.
End client.

(** ** Examples *)

(** A dashboard that answers with what it has been given, in turn. *)
#[local] Instance script : Dashboard (list (result HttpResponse)) := λ _ w,
  match w with [] => (Err "connection refused", []) | r :: w => (r, w) end.
#[local] Instance raw_codec : RayCodec := {|
  marshal_submit r := Ok (bytes_of_string (Entrypoint r));
  decode_cluster _ := Err "EOF";
  decode_submitted b := Ok (string_of_bytes b);
  decode_job b := Ok (MkJobInfo "sub-123" (string_of_bytes b) "" None None);
  show_error := string_of_bytes |}.
Definition says (s : string) : result HttpResponse := Ok (MkResponse 200 (bytes_of_string s)).

Example wait_check : let c := NewClient "http://ray:8265" in
  WaitForJob c "sub-123" [Tick; Tick; Tick; Tick] [says "PENDING"; says "RUNNING"; says "SUCCEEDED"; says "RUNNING"] =
    (Some (Ok (MkJobInfo "sub-123" JobStatusSucceeded "" None None)), [says "RUNNING"]) ∧
  (WaitForJob c "sub-123" [Tick; Tick; Tick] [says "RUNNING"; Ok (MkResponse 503 []); says "SUCCEEDED"]).1 = Some (Err "ray get job 503") ∧
  (WaitForJob c "sub-123" [Tick; Cancelled "context deadline exceeded"] [says "RUNNING"; says "SUCCEEDED"]).1 = Some (Err "context deadline exceeded") ∧
  (WaitForJob c "sub-123" [Tick; Tick] [says "PENDING"; says "RUNNING"]).1 = None ∧
  (SubmitJob c (MkSubmit "python main.py" "" ∅) [says "sub-123"]).1 = Ok "sub-123" ∧
  (SubmitJob c (MkSubmit "python main.py" "" ∅) [Ok (MkResponse 500 (bytes_of_string "map[]"))]).1 = Err "ray submit 500: map[]".
Proof. by vm_compute. Qed.

(** Every status but three is waited out; of the five the client names these
    are the last three. *)
Example terminal_check : map terminal [JobStatusPending; JobStatusRunning; JobStatusSucceeded; JobStatusFailed; JobStatusStopped] = [false; false; true; true; true].
Proof. by vm_compute. Qed.
