(* ===== verification/Formats.v ===== *)
(** * Output containers (formats/tfrecord.go, formats/webdataset.go)

    TFRecord frames with their two masked checksums, and the WebDataset shard
    writer over a tar archive. *)
From S2P Require Import Prelude GoLib.
Open Scope Z_scope.

(** An [io.Writer]: what it took so far.  A call may fail after some bytes. *)
Definition io_outcome : Type := option (nat * string).
Definition write_bytes (o : io_outcome) (l out : list byte) : result unit * list byte :=
  match o with
  | None => (Ok tt, out ++ l)
  | Some (k, e) => (Err e, out ++ take k l)
  end.

Module TFRecord.

(** [binary.LittleEndian]. *)
Definition le_bytes (n : nat) (v : Z) : list byte := rev (be_bytes n v).
Definition le_val (l : list byte) : Z := be_val (rev l).

(** [hash/crc32] with the Castagnoli table. *)
Fixpoint shift_bits (n : nat) (c : Z) : Z :=
  match n with
  | O => c
  | S n' => shift_bits n' (if Z.odd c then Z.lxor (Z.shiftr c 1) 0x82f63b78 else Z.shiftr c 1)
  end.
Definition crc_step (crc : Z) (b : byte) : Z :=
  Z.lxor (shift_bits 8 (Z.land (Z.lxor crc (byte_val b)) 255)) (Z.shiftr crc 8).
Definition crc32c (data : list byte) : Z := Z.lxor (foldl crc_step 0xffffffff data) 0xffffffff.

Example crc32c_check : crc32c (bytes_of_string "123456789") = 0xe3069283.
Proof. vm_compute. reflexivity. Qed.

Definition maskCRC (crc : Z) : Z :=
  (Z.lor (Z.shiftr crc 15) (Sha256.w32 (Z.shiftl crc 17)) + 0xa282ead8) mod 2 ^ 32.

Record TFRecordWriter := MkWriter { twOut : list byte; twCount : Z }.
Definition NewTFRecordWriter : TFRecordWriter := MkWriter [] 0.

Definition frame_header (payload : list byte) : list byte :=
  let len := le_bytes 8 (Z.of_nat (length payload)) in
  len ++ le_bytes 4 (maskCRC (crc32c len)).
Definition frame_footer (payload : list byte) : list byte := le_bytes 4 (maskCRC (crc32c payload)).

(** [Write]; the three outcomes are those of the three writes. *)
Definition Write (o1 o2 o3 : io_outcome) (payload : list byte) (t : TFRecordWriter)
    : result unit * TFRecordWriter :=
  match write_bytes o1 (frame_header payload) (twOut t) with
  | (Err e, out) => (Err ("tfrecord: write header: " +:+ e), MkWriter out (twCount t))
  | (Ok _, out) =>
      match write_bytes o2 payload out with
      | (Err e, out) => (Err ("tfrecord: write payload: " +:+ e), MkWriter out (twCount t))
      | (Ok _, out) =>
          match write_bytes o3 (frame_footer payload) out with
          | (Err e, out) => (Err ("tfrecord: write data crc: " +:+ e), MkWriter out (twCount t))
          | (Ok _, out) => (Ok tt, MkWriter out (wrap64 (twCount t + 1)))
          end
      end
  end.

(** What a read answers: a record and the rest of the stream, a clean end, or
    an error. *)
Inductive read_result := Record_ (payload rest : list byte) | EndOfStream | Bad (e : string).

(** [io.ReadFull] into a buffer of [n] bytes, over a stream that ends.  A buffer
    too large to allocate is not modelled apart. *)
Definition ReadFull (n : nat) (s : list byte) : result (list byte * list byte) :=
  if (length s <? n)%nat then Err (if (length s =? 0)%nat then "EOF" else "unexpected EOF")
  else Ok (take n s, drop n s).

Definition Read (s : list byte) : read_result :=
  match ReadFull 12 s with
  | Err e => if bool_decide (e = "EOF"%string) then EndOfStream else Bad ("tfrecord: read header: " +:+ e)
  | Ok (hdr, s) =>
      if negb (maskCRC (crc32c (take 8 hdr)) =? le_val (drop 8 hdr)) then Bad "tfrecord: length crc mismatch"
      else
        let len := le_val (take 8 hdr) in
        match ReadFull (Z.to_nat len) s with
        | Err e => Bad ("tfrecord: read payload (" +:+ fmt_d len +:+ " bytes): " +:+ e)
        | Ok (payload, s) =>
            match ReadFull 4 s with
            | Err e => Bad ("tfrecord: read data crc: " +:+ e)
            | Ok (foot, s) =>
                if negb (maskCRC (crc32c payload) =? le_val foot) then Bad "tfrecord: data crc mismatch"
                else Record_ payload s
            end
        end
  end.

(** ** Round trip *)

Lemma length_le_bytes n v : length (le_bytes n v) = n.
Proof. unfold le_bytes. by rewrite length_rev, length_be_bytes. Qed.

Lemma le_val_le_bytes n v : 0 ≤ v < 256 ^ Z.of_nat n → le_val (le_bytes n v) = v.
Proof.
  intros Hv. unfold le_val, le_bytes. rewrite rev_involutive, be_val_be_bytes by lia. apply Z.mod_small. lia.
Qed.

Lemma maskCRC_range crc : 0 ≤ maskCRC crc < 256 ^ Z.of_nat 4.
Proof. unfold maskCRC. apply Z.mod_pos_bound. lia. Qed.

Definition frame (payload : list byte) : list byte := frame_header payload ++ payload ++ frame_footer payload.

Lemma length_header p : length (frame_header p) = 12%nat.
Proof. unfold frame_header. by rewrite length_app, !length_le_bytes. Qed.

Lemma length_footer p : length (frame_footer p) = 4%nat.
Proof. apply length_le_bytes. Qed.

(** What fits a frame: the length is written in eight bytes. *)
Definition fits (p : list byte) : Prop := Z.of_nat (length p) < 2 ^ 64.

Lemma header_length p : fits p → le_val (take 8 (frame_header p)) = Z.of_nat (length p).
Proof.
  intros Hp. unfold frame_header. rewrite take_app_length' by (by rewrite length_le_bytes).
  apply le_val_le_bytes. unfold fits in Hp. lia.
Qed.

Lemma header_crc p : (maskCRC (crc32c (take 8 (frame_header p))) =? le_val (drop 8 (frame_header p))) = true.
Proof.
  unfold frame_header. rewrite take_app_length', drop_app_length' by (by rewrite length_le_bytes).
  rewrite le_val_le_bytes by apply maskCRC_range. apply Z.eqb_refl.
Qed.

Lemma ReadFull_app n l s : length l = n → ReadFull n (l ++ s) = Ok (l, s).
Proof.
  intros <-. unfold ReadFull. rewrite length_app, (proj2 (Nat.ltb_ge _ _)) by lia.
  by rewrite take_app_length, drop_app_length.
Qed.

Lemma Read_frame p rest : fits p → Read (frame p ++ rest) = Record_ p rest.
Proof.
  intros Hp. unfold Read, frame. rewrite <- app_assoc, ReadFull_app by apply length_header.
  rewrite header_crc. cbn [negb]. rewrite header_length by done. rewrite <- app_assoc, ReadFull_app by lia.
  rewrite ReadFull_app by apply length_footer.
  unfold frame_footer. rewrite le_val_le_bytes by apply maskCRC_range. by rewrite Z.eqb_refl.
Qed.

Lemma Write_ok p t : (Write None None None p t).2 = MkWriter (twOut t ++ frame p) (wrap64 (twCount t + 1)).
Proof. unfold Write, frame. cbn. by rewrite <- !app_assoc. Qed.

(** Reading record after record. *)
Fixpoint read_all (fuel : nat) (s : list byte) : list (list byte) * read_result :=
  match fuel with
  | O => ([], Bad "out of fuel")
  | S fuel => match Read s with
              | Record_ p rest => let '(ps, r) := read_all fuel rest in (p :: ps, r)
              | r => ([], r)
              end
  end.

Definition write_all (ps : list (list byte)) : TFRecordWriter :=
  foldl (λ t p, (Write None None None p t).2) NewTFRecordWriter ps.

Lemma write_all_out ps t : twOut (foldl (λ t p, (Write None None None p t).2) t ps) = twOut t ++ concat (frame <$> ps).
Proof.
  revert t. induction ps as [|p ps IH]; intros t; cbn [foldl]; [by rewrite app_nil_r|].
  rewrite IH, Write_ok. cbn [twOut fmap list_fmap concat]. by rewrite <- app_assoc.
Qed.

(** Round trip: what [Write] put in a file, record after record, [Read]
    gives back, then a clean end of stream. *)
Theorem tfrecord_roundtrip ps : Forall fits ps →
  read_all (S (length ps)) (twOut (write_all ps)) = (ps, EndOfStream).
Proof.
  intros Hps. unfold write_all. rewrite write_all_out. cbn [twOut NewTFRecordWriter app].
  induction Hps as [|p ps Hp Hps IH]; [done|]. cbn [fmap list_fmap concat length read_all].
  rewrite Read_frame by done. cbn [read_all] in IH. by rewrite IH.
Qed.

Lemma tfrecord_roundtrip_witness :
  read_all 3 (twOut (write_all [[Byte.x01; Byte.x02]; []])) = ([[Byte.x01; Byte.x02]; []], EndOfStream).
Proof. apply (tfrecord_roundtrip [[Byte.x01; Byte.x02]; []]). repeat constructor. Defined.

(** *** Torn frames *)

Lemma Read_short k p : fits p → (0 < k < length (frame p))%nat → ∃ e, Read (take k (frame p)) = Bad e.
Proof.
  intros Hp Hk. unfold frame in *. rewrite !length_app, length_header, length_footer in Hk.
  assert (Hl : length (take k (frame_header p ++ p ++ frame_footer p)) = k).
  { rewrite length_take, !length_app, length_header, length_footer. lia. }
  unfold Read. destruct (decide (k < 12)%nat) as [H12|H12].
  { unfold ReadFull. rewrite Hl, (proj2 (Nat.ltb_lt _ _)), (proj2 (Nat.eqb_neq _ _)) by lia. by eexists. }
  assert (Hsplit : take k (frame_header p ++ p ++ frame_footer p) = frame_header p ++ take (k - 12) (p ++ frame_footer p)).
  { rewrite take_app, length_header. by rewrite take_ge by (rewrite length_header; lia). }
  rewrite Hsplit, ReadFull_app by apply length_header. rewrite header_crc, header_length by done.
  cbn [negb]. rewrite Nat2Z.id. set (j := (k - 12)%nat).
  destruct (decide (j < length p)%nat) as [Hj|Hj].
  - unfold ReadFull. rewrite length_take, length_app, length_footer, (proj2 (Nat.ltb_lt _ _)) by lia. by eexists.
  - assert (Hs2 : take j (p ++ frame_footer p) = p ++ take (j - length p) (frame_footer p)).
    { rewrite take_app. by rewrite take_ge by lia. }
    rewrite Hs2, ReadFull_app by done. unfold ReadFull.
    rewrite length_take, length_footer, (proj2 (Nat.ltb_lt _ _)) by lia. by eexists.
Qed.

(** C38: a frame cut anywhere is reported: after any number of whole records, a
    file torn inside a frame reads as those records and then an error, never
    as a clean end or a shorter record. *)
Theorem torn_tfrecord_is_reported ps p k : Forall fits (ps ++ [p]) → (0 < k < length (frame p))%nat →
  ∃ e, read_all (S (length ps)) (twOut (write_all ps) ++ take k (frame p)) = (ps, Bad e).
Proof.
  intros Hps Hk. apply Forall_app in Hps as [Hps Hp]. apply Forall_cons in Hp as [Hp _].
  destruct (Read_short k p Hp Hk) as [e He]. exists e.
  unfold write_all. rewrite write_all_out. cbn [twOut NewTFRecordWriter app].
  induction Hps as [|q ps Hq Hps IH]; [cbn [fmap list_fmap concat length app read_all]; by rewrite He|].
  cbn [fmap list_fmap concat length]. cbn [read_all]. rewrite <- app_assoc, Read_frame by done.
  cbn [read_all] in IH. by rewrite IH.
Qed.

Lemma torn_tfrecord_is_reported_witness :
  ∃ e, read_all 2 (twOut (write_all [[Byte.x01]]) ++ take 13 (frame [Byte.x02])) = ([[Byte.x01]], Bad e).
Proof.
  apply (torn_tfrecord_is_reported [[Byte.x01]] [Byte.x02] 13); [repeat constructor|].
  unfold frame. rewrite !length_app, length_header, length_footer. simpl. lia.
Defined.
End TFRecord.

Module WebDataset.

Record Component := MkComponent { Ext : string; Data : list byte }.

(** [swEntries]: the members of the archive, in order. *)
Record ShardWriter := MkShard { swEntries : list (string * list byte); swSamples : Z; seen : gset string }.
Definition NewShardWriter : ShardWriter := MkShard [] 0 ∅.

Definition by_ext (c d : Component) : Prop := str_le (Ext c) (Ext d).
#[export] Instance by_ext_dec : RelDecision by_ext := λ c d, decide (str_le (Ext c) (Ext d)).

(** [sort.Slice] by extension; the order of equal extensions, which it leaves
    open, is that of the arguments. *)
Definition sorted (comps : list Component) : list Component := merge_sort by_ext comps.

(** How the archive fails on a member: at its header, or after some of its
    bytes. *)
Inductive tar_error := HeaderFails (e : string) | WriteFails (k : nat) (e : string).

(** The loop over the components; [outs] are the archive's answers, none an
    error by default. *)
Fixpoint write_components (key : string) (comps : list Component) (outs : list (option tar_error))
    (entries : list (string * list byte)) : result unit * list (string * list byte) :=
  match comps with
  | [] => (Ok tt, entries)
  | c :: comps =>
      if bool_decide (Ext c = EmptyString)
      then (Err ("webdataset: sample " +:+ fmt_q key +:+ " has a component with no extension"), entries)
      else
        let name := key +:+ "." +:+ Ext c in
        match outs with
        | Some (HeaderFails e) :: _ => (Err ("webdataset: header " +:+ name +:+ ": " +:+ e), entries)
        | Some (WriteFails k e) :: _ =>
            (Err ("webdataset: write " +:+ name +:+ ": " +:+ e), entries ++ [(name, take k (Data c))])
        | outs => write_components key comps (tail outs) (entries ++ [(name, Data c)])
        end
  end.

Definition WriteSample (key : string) (comps : list Component) (outs : list (option tar_error)) (s : ShardWriter)
    : result unit * ShardWriter :=
  if bool_decide (key = EmptyString) then (Err "webdataset: empty sample key", s)
  else if bool_decide (comps = []) then (Err ("webdataset: sample " +:+ fmt_q key +:+ " has no components"), s)
  else if bool_decide (key ∈ seen s) then (Err ("webdataset: duplicate sample key " +:+ fmt_q key), s)
  else
    match write_components key (sorted comps) outs (swEntries s) with
    | (Err e, entries) => (Err e, MkShard entries (swSamples s) (seen s))
    | (Ok _, entries) => (Ok tt, MkShard entries (swSamples s + 1) ({[key]} ∪ seen s))
    end.

Definition member (key : string) (c : Component) : string * list byte := (key +:+ "." +:+ Ext c, Data c).

Lemma write_components_ok key comps entries :
  Forall (λ c, Ext c ≠ EmptyString) comps →
  write_components key comps [] entries = (Ok tt, entries ++ (member key <$> comps)).
Proof.
  intros Hc. revert entries. induction Hc as [|c comps Hc _ IH]; intros entries; cbn; [by rewrite app_nil_r|].
  rewrite bool_decide_eq_false_2 by done. rewrite IH. unfold member at 2. by rewrite <- app_assoc.
Qed.

Lemma sorted_perm comps : sorted comps ≡ₚ comps.
Proof. apply merge_sort_Permutation. Qed.

Lemma sorted_sorted comps : StronglySorted by_ext (sorted comps).
Proof. apply StronglySorted_merge_sort; intros ?*; unfold by_ext; [apply str_le_trans|apply str_le_total]. Qed.

Lemma empty_first a : str_le a EmptyString → a = EmptyString.
Proof. by destruct a. Qed.

(** A sample is written whole or not at all: unless the archive itself
    fails, a call either adds all components, contiguous and in the order of
    their extensions, and counts the sample, or returns an error and leaves
    the shard as it was -- a component without extension is found before
    anything is written, because it sorts first. *)
Theorem sample_all_or_nothing key comps s :
  (∃ ms, WriteSample key comps [] s = (Ok tt, MkShard (swEntries s ++ (member key <$> ms)) (swSamples s + 1) ({[key]} ∪ seen s)) ∧
     ms ≡ₚ comps ∧ StronglySorted by_ext ms ∧ key ∉ seen s ∧ Forall (λ c, Ext c ≠ EmptyString) comps) ∨
  (∃ e, WriteSample key comps [] s = (Err e, s)).
Proof.
  unfold WriteSample. case_bool_decide as Hk; [right; by eexists|].
  case_bool_decide as Hc; [right; by eexists|]. case_bool_decide as Hd; [right; by eexists|].
  pose proof (sorted_perm comps) as Hp. pose proof (sorted_sorted comps) as Hs.
  destruct (decide (Forall (λ c, Ext c ≠ EmptyString) (sorted comps))) as [Hall|Hno].
  - left. exists (sorted comps). rewrite write_components_ok by done. split_and!; try done. by rewrite <- Hp.
  - right. destruct (sorted comps) as [|c ms] eqn:E; [by destruct Hno|].
    assert (Hc0 : Ext c = EmptyString).
    { destruct (decide (Ext c = EmptyString)) as [|Hne]; [done|]. exfalso. apply Hno.
      apply StronglySorted_inv in Hs as [_ Hs]. constructor; [done|].
      eapply Forall_impl; [exact Hs|]. intros d Hd' Hz. unfold by_ext in Hd'. rewrite Hz in Hd'.
      by apply empty_first in Hd'. }
    cbn. rewrite bool_decide_eq_true_2 by done. eexists. by destruct s.
Qed.

(** Identical inputs give identical shards: the order in which a sample's
    components are passed does not matter. *)
Theorem sample_order_irrelevant key comps comps' outs s :
  NoDup (Ext <$> comps) → comps ≡ₚ comps' → WriteSample key comps outs s = WriteSample key comps' outs s.
Proof.
  intros Hnd Hp. unfold WriteSample.
  assert (E : sorted comps = sorted comps').
  { assert (Hanti : ∀ c d, c ∈ comps → d ∈ comps → Ext c = Ext d → c = d).
    { intros c d [i Hi]%list_elem_of_lookup [j Hj]%list_elem_of_lookup He.
      assert (i = j) as -> by (eapply (NoDup_lookup (Ext <$> comps)); [done|rewrite list_lookup_fmap; by rewrite Hi|
        rewrite list_lookup_fmap, Hj; cbn; by rewrite He]). congruence. }
    assert (Hkey : Ext <$> sorted comps = Ext <$> sorted comps').
    { apply (StronglySorted_unique str_le).
      - pose proof (sorted_sorted comps) as Hs. induction Hs; constructor; [done|]. by apply Forall_fmap.
      - pose proof (sorted_sorted comps') as Hs. induction Hs; constructor; [done|]. by apply Forall_fmap.
      - by rewrite !sorted_perm, Hp. }
    apply list_eq. intros i.
    pose proof (f_equal (λ l, l !! i) Hkey) as Hi. cbn in Hi. rewrite !list_lookup_fmap in Hi.
    destruct (sorted comps !! i) as [c|] eqn:Ec, (sorted comps' !! i) as [d|] eqn:Ed; cbn in Hi; simplify_eq; [|done].
    f_equal. apply Hanti; [..|done].
    - rewrite <- (sorted_perm comps). by eapply list_elem_of_lookup_2.
    - rewrite Hp, <- (sorted_perm comps'). by eapply list_elem_of_lookup_2. }
  rewrite E. assert (comps = [] ↔ comps' = []) as Hn.
  { split; intros ->; [by apply Permutation_nil_l in Hp|by apply Permutation_nil_r in Hp]. }
  repeat case_bool_decide; tauto || done.
Qed.

Lemma sample_order_irrelevant_witness :
  WriteSample "img1" [MkComponent "jpg" [Byte.x01]; MkComponent "cls" []] [] NewShardWriter =
  WriteSample "img1" [MkComponent "cls" []; MkComponent "jpg" [Byte.x01]] [] NewShardWriter.
Proof.
  apply sample_order_irrelevant; [|constructor].
  apply NoDup_cons. split; [|apply NoDup_singleton]. cbn. intros H%list_elem_of_singleton. done.
Defined.

(** Two samples with different keys can produce members of the same name:
    a dot in a key is not told from the one before the extension. *)
Theorem distinct_samples_collide :
  ∃ s, (WriteSample "a.b" [MkComponent "c" [Byte.x02]] [] (WriteSample "a" [MkComponent "b.c" [Byte.x01]] [] NewShardWriter).2)
       = (Ok tt, s) ∧ swEntries s = [("a.b.c", [Byte.x01]); ("a.b.c", [Byte.x02])].
Proof. eexists. split; [vm_compute; reflexivity|]. done. Qed.
End WebDataset.
