(* ===== verification/Encoding.v ===== *)
(** * Go's encoding/base64

    [RawURLEncoding], which the tokens use, and [StdEncoding], with its padding,
    which carries task descriptions and images. *)
From Stdlib Require Strings.String Strings.Ascii.
From S2P Require Import Prelude GoLib.
Open Scope Z_scope.

(** ** [base64.RawURLEncoding] *)

Module Base64.

Definition alphabet : list Ascii.ascii :=
  String.list_ascii_of_string "ABCDEFGHIJKLMNOPQRSTUVWXYZabcdefghijklmnopqrstuvwxyz0123456789-_".

Definition digit (v : Z) : Ascii.ascii := nth (Z.to_nat v) alphabet Ascii.zero.

Fixpoint index (c : Ascii.ascii) (l : list Ascii.ascii) (k : Z) : option Z :=
  match l with
  | [] => None
  | d :: l => if Ascii.eqb c d then Some k else index c l (k + 1)
  end.
Definition value (c : Ascii.ascii) : option Z := index c alphabet 0.

(** Three bytes are four digits; one or two left over are two or three. *)
Fixpoint encode (l : list byte) : string :=
  match l with
  | b1 :: b2 :: b3 :: l =>
      let v := byte_val b1 * 2 ^ 16 + byte_val b2 * 2 ^ 8 + byte_val b3 in
      String (digit (v / 2 ^ 18)) (String (digit (v / 2 ^ 12 mod 64))
        (String (digit (v / 2 ^ 6 mod 64)) (String (digit (v mod 64)) (encode l))))
  | [b1; b2] =>
      let v := byte_val b1 * 2 ^ 16 + byte_val b2 * 2 ^ 8 in
      String (digit (v / 2 ^ 18)) (String (digit (v / 2 ^ 12 mod 64)) (String (digit (v / 2 ^ 6 mod 64)) EmptyString))
  | [b1] =>
      let v := byte_val b1 * 2 ^ 16 in
      String (digit (v / 2 ^ 18)) (String (digit (v / 2 ^ 12 mod 64)) EmptyString)
  | [] => EmptyString
  end.

Definition lf : Ascii.ascii := Ascii.ascii_of_N 10.
Definition cr : Ascii.ascii := Ascii.ascii_of_N 13.
Definition dot : Ascii.ascii := Ascii.ascii_of_N 46.

(** The decoder skips line breaks wherever they stand. *)
Fixpoint skip_breaks (s : string) : string :=
  match s with
  | EmptyString => EmptyString
  | String c s => if Ascii.eqb c lf || Ascii.eqb c cr then skip_breaks s else String c (skip_breaks s)
  end.

(** Spare bits of the last digit are ignored, as the non-strict decoder does. *)
Fixpoint decode_quanta (s : string) : option (list byte) :=
  match s with
  | EmptyString => Some []
  | String c1 (String c2 (String c3 (String c4 s))) =>
      v1 ← value c1; v2 ← value c2; v3 ← value c3; v4 ← value c4;
      let v := v1 * 2 ^ 18 + v2 * 2 ^ 12 + v3 * 2 ^ 6 + v4 in
      l ← decode_quanta s;
      Some (byte_of (v / 2 ^ 16) :: byte_of (v / 2 ^ 8) :: byte_of v :: l)
  | String c1 (String c2 (String c3 EmptyString)) =>
      v1 ← value c1; v2 ← value c2; v3 ← value c3;
      let v := v1 * 2 ^ 18 + v2 * 2 ^ 12 + v3 * 2 ^ 6 in
      Some [byte_of (v / 2 ^ 16); byte_of (v / 2 ^ 8)]
  | String c1 (String c2 EmptyString) =>
      v1 ← value c1; v2 ← value c2;
      let v := v1 * 2 ^ 18 + v2 * 2 ^ 12 in Some [byte_of (v / 2 ^ 16)]
  | String _ EmptyString => None
  end.
Definition decode (s : string) : option (list byte) := decode_quanta (skip_breaks s).

Example encode_check : encode (bytes_of_string "any carnal pleas") = "YW55IGNhcm5hbCBwbGVhcw"%string.
Proof. vm_compute. reflexivity. Qed.
Example decode_check : decode "YW55IGNhcm5hbCBwbGVhcw" = Some (bytes_of_string "any carnal pleas").
Proof. vm_compute. reflexivity. Qed.

Lemma digit_ok v : 0 ≤ v < 64 →
  value (digit v) = Some v ∧ Ascii.eqb (digit v) lf = false ∧ Ascii.eqb (digit v) cr = false ∧
  Ascii.eqb (digit v) dot = false.
Proof.
  intros Hv.
  assert (Hall : forallb (λ n, bool_decide (value (digit (Z.of_nat n)) = Some (Z.of_nat n)) &&
    negb (Ascii.eqb (digit (Z.of_nat n)) lf) && negb (Ascii.eqb (digit (Z.of_nat n)) cr) &&
    negb (Ascii.eqb (digit (Z.of_nat n)) dot)) (seq 0 64) = true) by (vm_compute; reflexivity).
  rewrite forallb_forall in Hall. specialize (Hall (Z.to_nat v)). rewrite Z2Nat.id in Hall by lia.
  specialize (Hall ltac:(apply in_seq; lia)). by bool_to_prop.
Qed.

Lemma value_digit v : 0 ≤ v < 64 → value (digit v) = Some v.
Proof. apply digit_ok. Qed.

(** What a byte list of length at most three encodes to, digit by digit. *)
Lemma digits_range b1 b2 b3 (v := byte_val b1 * 2 ^ 16 + byte_val b2 * 2 ^ 8 + byte_val b3) :
  0 ≤ v < 2 ^ 24 ∧ 0 ≤ v / 2 ^ 18 < 64 ∧ 0 ≤ v / 2 ^ 12 mod 64 < 64 ∧ 0 ≤ v / 2 ^ 6 mod 64 < 64 ∧ 0 ≤ v mod 64 < 64 ∧
  v / 2 ^ 18 * 2 ^ 18 + v / 2 ^ 12 mod 64 * 2 ^ 12 + v / 2 ^ 6 mod 64 * 2 ^ 6 + v mod 64 = v ∧
  (v / 2 ^ 16) mod 256 = byte_val b1 ∧ (v / 2 ^ 8) mod 256 = byte_val b2 ∧ v mod 256 = byte_val b3.
Proof.
  pose proof (byte_val_range b1). pose proof (byte_val_range b2). pose proof (byte_val_range b3).
  subst v. split_and!; try lia; Z.to_euclidean_division_equations; lia.
Qed.

Lemma byte_of_mod z b : z mod 256 = byte_val b → byte_of z = b.
Proof. intros Hz. rewrite <- (byte_of_val (byte_of z)), byte_val_of, Hz. apply byte_of_val. Qed.

(** The encoding of [l] holds no line break and no dot. *)
Fixpoint plain (s : string) : bool :=
  match s with
  | EmptyString => true
  | String c s => negb (Ascii.eqb c lf) && negb (Ascii.eqb c cr) && negb (Ascii.eqb c dot) && plain s
  end.

Lemma plain_skip s : plain s = true → skip_breaks s = s.
Proof.
  induction s as [|c s IH]; cbn [plain skip_breaks]; [done|].
  destruct (Ascii.eqb c lf), (Ascii.eqb c cr), (Ascii.eqb c dot); try done. cbn [negb andb orb]. intros Hs.
  by rewrite IH.
Qed.

Lemma plain_digit v s : 0 ≤ v < 64 → plain (String (digit v) s) = plain s.
Proof. intros Hv. destruct (digit_ok v Hv) as (_ & E1 & E2 & E3). cbn [plain]. by rewrite E1, E2, E3. Qed.

Lemma list_ind3 (P : list byte → Prop) :
  P [] → (∀ b, P [b]) → (∀ b1 b2, P [b1; b2]) → (∀ b1 b2 b3 l, P l → P (b1 :: b2 :: b3 :: l)) → ∀ l, P l.
Proof.
  intros H0 H1 H2 H3 l. remember (length l) as n eqn:Hn. revert l Hn.
  induction n as [n IH] using lt_wf_ind. intros [|b1 [|b2 [|b3 l]]] ->; auto.
  apply H3, (IH (length l)); [cbn; lia|done].
Qed.

(** Three byte values, with zeros for those that are missing. *)
Lemma byte_zero : byte_val Byte.x00 = 0.
Proof. done. Qed.

Lemma encode_plain l : plain (encode l) = true.
Proof.
  induction l as [|b1|b1 b2|b1 b2 b3 l IH] using list_ind3; [done|..]; cbn [encode].
  - pose proof (digits_range b1 Byte.x00 Byte.x00) as Hd. cbv zeta in Hd. rewrite byte_zero in Hd.
    rewrite !Z.mul_0_l, !Z.add_0_r in Hd. destruct Hd as (? & ? & ? & _). by rewrite !plain_digit.
  - pose proof (digits_range b1 b2 Byte.x00) as Hd. cbv zeta in Hd. rewrite byte_zero in Hd.
    rewrite !Z.add_0_r in Hd. destruct Hd as (? & ? & ? & ? & _). by rewrite !plain_digit.
  - destruct (digits_range b1 b2 b3) as (? & ? & ? & ? & ? & _). by rewrite !plain_digit.
Qed.

Lemma decode_encode l : decode (encode l) = Some l.
Proof.
  unfold decode. rewrite plain_skip by apply encode_plain.
  induction l as [|b1|b1 b2|b1 b2 b3 l IH] using list_ind3; [done|..]; cbn [encode decode_quanta].
  - pose proof (digits_range b1 Byte.x00 Byte.x00) as Hd. cbv zeta in Hd. rewrite byte_zero in Hd.
    rewrite !Z.mul_0_l, !Z.add_0_r in Hd. set (v := byte_val b1 * 2 ^ 16) in *.
    destruct Hd as (? & R1 & R2 & R3 & R4 & Hv & M1 & M2 & M3).
    rewrite !value_digit by done. cbn [mbind option_bind]. do 2 f_equal. apply byte_of_mod.
    rewrite <- M1. f_equal. clear -Hv M2 M3. Z.to_euclidean_division_equations; lia.
  - pose proof (digits_range b1 b2 Byte.x00) as Hd. cbv zeta in Hd. rewrite byte_zero in Hd.
    rewrite !Z.add_0_r in Hd. set (v := byte_val b1 * 2 ^ 16 + byte_val b2 * 2 ^ 8) in *.
    destruct Hd as (? & R1 & R2 & R3 & R4 & Hv & M1 & M2 & M3).
    rewrite !value_digit by done. cbn [mbind option_bind]. do 2 f_equal; [|f_equal]; apply byte_of_mod.
    + rewrite <- M1. f_equal. clear -Hv M3. Z.to_euclidean_division_equations; lia.
    + rewrite <- M2. f_equal. clear -Hv M3. Z.to_euclidean_division_equations; lia.
  - pose proof (digits_range b1 b2 b3) as Hd. cbv zeta in Hd.
    set (v := byte_val b1 * 2 ^ 16 + byte_val b2 * 2 ^ 8 + byte_val b3) in *.
    destruct Hd as (? & R1 & R2 & R3 & R4 & Hv & M1 & M2 & M3).
    rewrite !value_digit by done. cbn [mbind option_bind]. rewrite IH, Hv. cbn [mbind option_bind].
    by rewrite (byte_of_mod _ _ M1), (byte_of_mod _ _ M2), (byte_of_mod _ _ M3).
Qed.
End Base64.

(** ** [base64.StdEncoding] *)

Module StdEncoding.
Import Base64.

Definition minus : Ascii.ascii := Ascii.ascii_of_N 45.
Definition underscore : Ascii.ascii := Ascii.ascii_of_N 95.
Definition plus : Ascii.ascii := Ascii.ascii_of_N 43.
Definition pad : Ascii.ascii := Ascii.ascii_of_N 61.

(** The two alphabets differ in their last two digits. *)
Definition to_std (c : Ascii.ascii) : Ascii.ascii :=
  if Ascii.eqb c minus then plus else if Ascii.eqb c underscore then slash else c.
Definition of_std (c : Ascii.ascii) : Ascii.ascii :=
  if Ascii.eqb c plus then minus else if Ascii.eqb c slash then underscore
  else if Ascii.eqb c minus || Ascii.eqb c underscore then pad else c.

Fixpoint map_string (f : Ascii.ascii → Ascii.ascii) (s : string) : string :=
  match s with EmptyString => EmptyString | String c s => String (f c) (map_string f s) end.

Definition padding (n : nat) : string :=
  match (n mod 3)%nat with 1%nat => String pad (String pad EmptyString) | 2%nat => String pad EmptyString | _ => EmptyString end.

Definition EncodeToString (l : list byte) : string := map_string to_std (encode l) +:+ padding (length l).

(** Up to two trailing pads. *)
Fixpoint unpad (s : string) : string :=
  match s with
  | String c EmptyString => if Ascii.eqb c pad then EmptyString else s
  | String c (String d EmptyString) =>
      if Ascii.eqb d pad then if Ascii.eqb c pad then EmptyString else String c EmptyString else s
  | String c s => String c (unpad s)
  | EmptyString => EmptyString
  end.

(** A padded text has whole groups of four; a pad elsewhere is no digit. *)
Definition DecodeString (s : string) : option (list byte) :=
  let s := skip_breaks s in
  if (String.length s mod 4 =? 0)%nat then decode_quanta (map_string of_std (unpad s)) else None.

Example std_check : EncodeToString (bytes_of_string "any carnal pleas>?") = "YW55IGNhcm5hbCBwbGVhcz4/"%string ∧
  EncodeToString (bytes_of_string "any carnal pleas") = "YW55IGNhcm5hbCBwbGVhcw=="%string ∧
  DecodeString "YW55IGNhcm5hbCBwbGVhcw==" = Some (bytes_of_string "any carnal pleas") ∧ DecodeString "YW55IGNhcm5hbCBwbGVhcw=" = None.
Proof. vm_compute. done. Qed.

Lemma map_string_length f s : String.length (map_string f s) = String.length s.
Proof. induction s as [|c s IH]; cbn; [done|]. by rewrite IH. Qed.

Lemma digit_std v : 0 ≤ v < 64 → of_std (to_std (digit v)) = digit v ∧ Ascii.eqb (to_std (digit v)) pad = false ∧
  Ascii.eqb (to_std (digit v)) lf = false ∧ Ascii.eqb (to_std (digit v)) cr = false.
Proof.
  intros Hv.
  assert (Hall : forallb (λ n, let d := digit (Z.of_nat n) in Ascii.eqb (of_std (to_std d)) d && negb (Ascii.eqb (to_std d) pad) &&
    negb (Ascii.eqb (to_std d) lf) && negb (Ascii.eqb (to_std d) cr)) (seq 0 64) = true) by (vm_compute; reflexivity).
  rewrite forallb_forall in Hall. specialize (Hall (Z.to_nat v) ltac:(apply in_seq; lia)). rewrite Z2Nat.id in Hall by lia.
  cbv zeta in Hall. rewrite !andb_true_iff, !negb_true_iff, Ascii.eqb_eq in Hall. tauto.
Qed.

(** A text of digits. *)
Inductive digits : string → Prop :=
| digits_nil : digits EmptyString
| digits_cons v s : 0 ≤ v < 64 → digits s → digits (String (digit v) s).

Lemma encode_digits l : digits (encode l).
Proof.
  induction l as [|b1|b1 b2|b1 b2 b3 l IH] using list_ind3; [constructor|..]; cbn [encode].
  - pose proof (digits_range b1 Byte.x00 Byte.x00) as Hd. cbv zeta in Hd. rewrite byte_zero in Hd.
    rewrite !Z.mul_0_l, !Z.add_0_r in Hd. destruct Hd as (? & ? & ? & _). do 2 (apply digits_cons; [done|]). apply digits_nil.
  - pose proof (digits_range b1 b2 Byte.x00) as Hd. cbv zeta in Hd. rewrite byte_zero in Hd.
    rewrite !Z.add_0_r in Hd. destruct Hd as (? & ? & ? & ? & _). do 3 (apply digits_cons; [done|]). apply digits_nil.
  - destruct (digits_range b1 b2 b3) as (? & ? & ? & ? & ? & _). do 4 (apply digits_cons; [done|]). done.
Qed.

Lemma encode_length l : (String.length (map_string to_std (encode l) +:+ padding (length l)) mod 4 = 0)%nat.
Proof.
  induction l as [|b1|b1 b2|b1 b2 b3 l IH] using list_ind3; [done..|]. cbn [encode map_string].
  assert (padding (length (b1 :: b2 :: b3 :: l)) = padding (length l)) as ->.
  { unfold padding. cbn [length]. replace (S (S (S (length l)))) with (length l + 1 * 3)%nat by lia. by rewrite Nat.Div0.mod_add. }
  rewrite !string_app_cons. cbn [String.length]. set (n := String.length _) in *. replace (S (S (S (S n)))) with (n + 1 * 4)%nat by lia. by rewrite Nat.Div0.mod_add.
Qed.

Lemma skip_digits s p : digits s → skip_breaks p = p → skip_breaks (map_string to_std s +:+ p) = map_string to_std s +:+ p.
Proof.
  intros Hs Hp. induction Hs as [|v s Hv Hs IH]; [done|]. cbn [map_string]. rewrite string_app_cons. cbn [skip_breaks].
  destruct (digit_std v Hv) as (_ & _ & -> & ->). cbn [orb]. by rewrite IH.
Qed.

Lemma of_to_std s : digits s → map_string of_std (map_string to_std s) = s.
Proof. induction 1 as [|v s Hv Hs IH]; cbn [map_string]; [done|]. by rewrite (proj1 (digit_std v Hv)), IH. Qed.

Lemma unpad_digits s n : digits s → unpad (map_string to_std s +:+ padding n) = map_string to_std s.
Proof.
  intros Hs. assert (Hp : padding n = EmptyString ∨ padding n = String pad EmptyString ∨ padding n = String pad (String pad EmptyString)).
  { unfold padding. destruct (n mod 3)%nat as [|[|[|]]]; [by left|by right; right|by right; left|by left]. }
  destruct Hs as [|v s Hv Hs]; [by destruct Hp as [->|[->| ->]]|]. revert v Hv.
  induction Hs as [|w s Hw Hs IH]; intros v Hv; destruct (digit_std v Hv) as (_ & Hv' & _); cbn [map_string]; rewrite ?string_app_cons.
  - rewrite string_app_nil. destruct Hp as [->|[->| ->]]; cbn [unpad]; change (Ascii.eqb pad pad) with true; cbn [unpad]; rewrite ?Hv'; done.
  - specialize (IH w Hw). cbn [map_string] in IH. rewrite string_app_cons in IH. destruct (digit_std w Hw) as (_ & Hw' & _).
    destruct (map_string to_std s +:+ padding n) as [|c t] eqn:E.
    + cbn [unpad] in *. rewrite Hw' in *. by rewrite IH.
    + change (unpad (String (to_std (digit v)) (String (to_std (digit w)) (String c t)))) with
        (String (to_std (digit v)) (unpad (String (to_std (digit w)) (String c t)))). by rewrite IH.
Qed.

Lemma DecodeString_EncodeToString l : DecodeString (EncodeToString l) = Some l.
Proof.
  pose proof (encode_digits l) as Hd. unfold DecodeString, EncodeToString.
  rewrite skip_digits; [|done|by unfold padding; destruct (length l mod 3)%nat as [|[|[]]]].
  rewrite encode_length. cbn [Nat.eqb]. rewrite unpad_digits, of_to_std by done.
  pose proof (decode_encode l) as E. unfold decode in E. by rewrite plain_skip in E by apply encode_plain.
Qed.
End StdEncoding.
