(* ===== verification/Auth.v ===== *)
(** * Authentication and authorization (auth/jwt.go, auth/rbac.go)

    HS256 tokens -- base64url, HMAC-SHA256, the checks of [Parse] in their
    order -- and the role policy.  JSON is a parameter. *)
From S2P Require Import Prelude GoLib Encoding.
From stdpp Require Import gmap.
Open Scope Z_scope.

(** ** Tokens *)

Module Jwt.

(** [crypto/hmac] over SHA-256. *)
Definition mac (secret : list byte) (input : string) : list byte :=
  let k := if (64 <? length secret)%nat then Sha256.sum256 secret else secret in
  let k := k ++ replicate (64 - length k) Byte.x00 in
  let pad x := map (λ b, byte_of (Z.lxor (byte_val b) x)) k in
  Sha256.sum256 (pad 0x5c ++ Sha256.sum256 (pad 0x36 ++ bytes_of_string input)).

Example mac_check :
  hex_encode (mac (bytes_of_string "key") "The quick brown fox jumps over the lazy dog")
  = "f7bc83f430538424b13298e6aa6fb143ef4d59a14946175997479dbc2d1a3cd8"%string.
Proof. vm_compute. reflexivity. Qed.

Record Claims := MkClaims {
  Subject : string; Issuer : string; Tenant : string; Roles : list string;
  IssuedAt : Z; NotBefore : Z; ExpiresAt : Z }.
Record header := MkHeader { Alg : string; Typ : string }.

(** [encoding/json] on the two records. *)
Class TokenCodec := {
  marshalHeader : header → list byte;
  unmarshalHeader : list byte → result header;
  marshalClaims : Claims → list byte;
  unmarshalClaims : list byte → result Claims;
  header_roundtrip h : unmarshalHeader (marshalHeader h) = Ok h;
  claims_roundtrip c : unmarshalClaims (marshalClaims c) = Ok c }.

(** [leeway] is in nanoseconds. *)
Record Verifier := MkVerifier { secret : list byte; leeway : Z }.
Definition NewVerifier : list byte → Z → Verifier := MkVerifier.

(** [strings.Split(s, ".")]. *)
Fixpoint split_dots (s : string) : list string :=
  match s with
  | EmptyString => [EmptyString]
  | String c s =>
      if Ascii.eqb c Base64.dot then EmptyString :: split_dots s
      else match split_dots s with p :: ps => String c p :: ps | [] => [String c EmptyString] end
  end.

(** [int64(v.leeway.Seconds())]: whole seconds, for any leeway below 50 days
    (beyond that the float64 in between can round up). *)
Definition skew (v : Verifier) : Z := Z.quot (leeway v) 1000000000.

Section codec.
Context `{TokenCodec}.

Definition Sign (v : Verifier) (c : Claims) : string :=
  let hb := marshalHeader (MkHeader "HS256" "JWT") in
  let signingInput := Base64.encode hb +:+ "." +:+ Base64.encode (marshalClaims c) in
  signingInput +:+ "." +:+ Base64.encode (mac (secret v) signingInput).

Definition segment (what s : string) : result (list byte) :=
  match Base64.decode s with
  | Some b => Ok b
  | None => Err ("auth: decode " +:+ what +:+ ": illegal base64 data")
  end.

Definition wrap_error {A} (msg : string) (r : result A) : result A :=
  match r with Err e => Err (msg +:+ e) | r => r end.

Definition check_times (v : Verifier) (now : Z) (c : Claims) : result Claims :=
  if negb (ExpiresAt c =? 0) && (now >? wrap64 (ExpiresAt c + skew v))
  then Err ("auth: token expired at " +:+ fmt_d (ExpiresAt c) +:+ " (now " +:+ fmt_d now +:+ ")")
  else if negb (NotBefore c =? 0) && (now <? wrap64 (NotBefore c - skew v))
  then Err ("auth: token not valid before " +:+ fmt_d (NotBefore c) +:+ " (now " +:+ fmt_d now +:+ ")")
  else Ok c.

(** [now] is the clock in seconds. *)
Definition Parse (v : Verifier) (now : Z) (token : string) : result Claims :=
  match split_dots token with
  | [p0; p1; p2] =>
      try hb ← segment "header" p0;
      try h ← wrap_error "auth: parse header: " (unmarshalHeader hb);
      if negb (String.eqb (Alg h) "HS256")
      then Err ("auth: unsupported alg " +:+ fmt_q (Alg h) +:+ ", only HS256 accepted")
      else
        let expected := mac (secret v) (p0 +:+ "." +:+ p1) in
        try got ← segment "signature" p2;
        if bool_decide (expected ≠ got) then Err "auth: signature mismatch"
        else
          try pb ← segment "claims" p1;
          try c ← wrap_error "auth: parse claims: " (unmarshalClaims pb);
          check_times v now c
  | parts => Err ("auth: token has " +:+ fmt_d (Z.of_nat (length parts)) +:+ " segments, want 3")
  end.

(** *** Round trip *)

Lemma split_plain s : Base64.plain s = true → split_dots s = [s].
Proof.
  induction s as [|c s IH]; [done|]. cbn [Base64.plain split_dots].
  destruct (Ascii.eqb c Base64.dot); [by rewrite andb_false_r|]. intros Hs. rewrite IH; [done|].
  by apply andb_true_iff in Hs as [_ ?].
Qed.

Lemma split_cons a s : Base64.plain a = true → split_dots (a +:+ "." +:+ s) = a :: split_dots s.
Proof.
  induction a as [|c a IH]; [done|]. rewrite string_app_cons. cbn [Base64.plain split_dots].
  destruct (Ascii.eqb c Base64.dot); [by rewrite andb_false_r|]. intros Hs. rewrite IH; [done|].
  by apply andb_true_iff in Hs as [_ ?].
Qed.

Lemma Sign_parts v c :
  let p0 := Base64.encode (marshalHeader (MkHeader "HS256" "JWT")) in
  let p1 := Base64.encode (marshalClaims c) in
  split_dots (Sign v c) = [p0; p1; Base64.encode (mac (secret v) (p0 +:+ "." +:+ p1))].
Proof.
  cbn zeta. unfold Sign. set (p0 := Base64.encode (marshalHeader _)). set (p1 := Base64.encode (marshalClaims c)).
  set (p2 := Base64.encode (mac _ _)).
  assert (E : (p0 +:+ "." +:+ p1) +:+ "." +:+ p2 = p0 +:+ "." +:+ p1 +:+ "." +:+ p2).
  { by rewrite !string_app_assoc. }
  rewrite E, split_cons, split_cons, split_plain by apply Base64.encode_plain. done.
Qed.

(** Round trip: a token minted by [Sign] is accepted by a verifier with the
    same secret, with the claims it was minted for, throughout its validity;
    before and after it is rejected. *)
Theorem sign_parse v v' c now : secret v' = secret v → Parse v' now (Sign v c) = check_times v' now c.
Proof.
  intros Hs. unfold Parse. rewrite Sign_parts. unfold segment. rewrite !Base64.decode_encode. cbn [result_bind].
  rewrite header_roundtrip. cbn [wrap_error result_bind Alg]. rewrite String.eqb_refl. cbn [negb].
  rewrite Hs, bool_decide_eq_false_2 by auto. by rewrite claims_roundtrip.
Qed.

End codec.

(** A codec, to mint a token with. *)
Definition demo_codec : TokenCodec.
Proof.
  refine {|
    marshalHeader h := pos_bytes (encode (Alg h, Typ h));
    unmarshalHeader l := match bytes_pos l ≫= decode with
      | Some (a, t) => Ok (MkHeader a t) | None => Err "unexpected end of JSON input" end;
    marshalClaims c := pos_bytes (encode (Subject c, Issuer c, Tenant c, Roles c, IssuedAt c, NotBefore c, ExpiresAt c));
    unmarshalClaims l := match bytes_pos l ≫= decode with
      | Some (s, i, t, r, a, n, e) => Ok (MkClaims s i t r a n e) | None => Err "unexpected end of JSON input" end |}.
  - intros [a t]. rewrite bytes_pos_bytes. simpl. by rewrite decode_encode.
  - intros [s i t r a n e]. rewrite bytes_pos_bytes. simpl. by rewrite decode_encode.
Defined.

Definition demo_claims : Claims := MkClaims "alice" "idp" "lab" ["viewer"] 100 100 200.
Definition demo_verifier : Verifier := NewVerifier (bytes_of_string "secret") 5000000000.

Lemma sign_parse_witness :
  check_times demo_verifier 205 demo_claims = Ok demo_claims ∧
  Parse (H := demo_codec) demo_verifier 205 (Sign (H := demo_codec) demo_verifier demo_claims)
    = check_times demo_verifier 205 demo_claims.
Proof. split; [vm_compute; reflexivity|]. apply (sign_parse (H := demo_codec)). reflexivity. Defined.
End Jwt.

(** ** Roles *)

Module Rbac.

Notation Permission := string (only parsing).
Definition PermJobSubmit : Permission := "job:submit".
Definition PermJobRead : Permission := "job:read".
Definition PermJobCancel : Permission := "job:cancel".
Definition PermAlgoRegister : Permission := "algorithm:register".
Definition PermQuotaAdmin : Permission := "quota:admin".
Definition PermTaskLease : Permission := "task:lease".
Definition PermTaskReport : Permission := "task:report".
Definition wildcard : Permission := "*".

(** The permissions set to [true] for each role. *)
Notation Policy := (gmap string (gset string)) (only parsing).
Definition NewPolicy : Policy := ∅.

Definition Grant (role : string) (perms : list Permission) (p : Policy) : Policy :=
  <[role := foldl (λ set perm, {[perm]} ∪ set) (default ∅ (p !! role)) perms]> p.

Fixpoint Allow (p : Policy) (roles : list string) (perm : Permission) : bool :=
  match roles with
  | [] => false
  | role :: roles =>
      match p !! role with
      | None => Allow p roles perm
      | Some set => if bool_decide (wildcard ∈ set) || bool_decide (perm ∈ set) then true else Allow p roles perm
      end
  end.

(** [None] is the nil pointer of an unauthenticated caller. *)
Definition Authorize (p : Policy) (c : option Jwt.Claims) (perm : Permission) : bool :=
  match c with None => false | Some c => Allow p (Jwt.Roles c) perm end.

Definition DefaultPolicy : Policy :=
  Grant "worker" [PermTaskLease; PermTaskReport; PermJobRead]
    (Grant "viewer" [PermJobRead]
      (Grant "operator" [PermJobSubmit; PermJobRead; PermJobCancel; PermAlgoRegister]
        (Grant "admin" [wildcard] NewPolicy))).

(** What a role may do: the abstract policy, a relation. *)
Definition grants (p : Policy) (role : string) (perm : Permission) : Prop :=
  ∃ set, p !! role = Some set ∧ (wildcard ∈ set ∨ perm ∈ set).

Lemma Allow_spec p roles perm : Allow p roles perm = true ↔ ∃ role, role ∈ roles ∧ grants p role perm.
Proof.
  induction roles as [|role roles IH]; cbn [Allow].
  - split; [done|]. intros (role & H & _). by apply elem_of_nil in H.
  - unfold grants. setoid_rewrite elem_of_cons. destruct (p !! role) as [set|] eqn:Er.
    + destruct (bool_decide (wildcard ∈ set) || bool_decide (perm ∈ set)) eqn:Ep.
      * split; [|done]. intros _. exists role. split; [by left|]. exists set. split; [done|].
        apply orb_true_iff in Ep as [Ep%bool_decide_eq_true|Ep%bool_decide_eq_true]; auto.
      * apply orb_false_iff in Ep as [E1%bool_decide_eq_false E2%bool_decide_eq_false]. rewrite IH. split.
        -- intros (r & ? & ?). exists r. auto.
        -- intros (r & [->|?] & ?); [naive_solver|]. by exists r.
    + rewrite IH. split; [intros (r & ? & ?); exists r; auto|].
      intros (r & [->|?] & ?); [naive_solver|]. by exists r.
Qed.

Lemma foldl_grant (perms : list Permission) (set : gset Permission) (x : Permission) :
  x ∈ foldl (λ set perm, {[perm]} ∪ set) set perms ↔ x ∈ perms ∨ x ∈ set.
Proof. revert set. induction perms as [|perm perms IH]; intros set; cbn [foldl]; [set_solver|]. rewrite IH. set_solver. Qed.

Lemma Grant_spec role perms p r perm :
  grants (Grant role perms p) r perm ↔
  (r = role ∧ (wildcard ∈ perms ∨ perm ∈ perms)) ∨ grants p r perm.
Proof.
  unfold grants, Grant. destruct (decide (r = role)) as [->|Hne].
  - rewrite lookup_insert_eq. destruct (p !! role) as [set|] eqn:E; cbn [default].
    + split; [intros (s & [= <-] & Hs); rewrite !foldl_grant in Hs; naive_solver|].
      intros [[_ Hs]|(s & [= <-] & Hs)]; (eexists; split; [done|]; rewrite !foldl_grant; tauto).
    + split; [intros (s & [= <-] & Hs); rewrite !foldl_grant in Hs; set_solver|].
      intros [[_ Hs]|(s & ? & Hs)]; [|done]. eexists. split; [done|]. rewrite !foldl_grant. tauto.
  - rewrite lookup_insert_ne by congruence. naive_solver.
Qed.

(** Granting adds exactly what it says: after [Grant role perms] a caller
    may do what it could before, and, if it has the role, what [perms] lists
    (everything, if that is the wildcard) -- nothing is taken away, and no
    other role gains anything. *)
Theorem grant_adds_exactly role perms p roles perm :
  Allow (Grant role perms p) roles perm = true ↔
  Allow p roles perm = true ∨ (role ∈ roles ∧ (wildcard ∈ perms ∨ perm ∈ perms)).
Proof.
  rewrite !Allow_spec. setoid_rewrite Grant_spec. split.
  - intros (r & Hr & [[-> Hp]|Hg]); [by right|left; by exists r].
  - intros [(r & Hr & Hg)|[Hr Hp]]; [exists r; auto|exists role; auto].
Qed.

(** The baseline roles: an admin may do everything; otherwise a permission
    needs one of the roles that list it.  No human role but admin can lease or
    report tasks, and no worker can submit, cancel or register. *)
Theorem default_policy_table c perm :
  Authorize DefaultPolicy (Some c) perm = true ↔
  "admin" ∈ Jwt.Roles c ∨
  ("operator" ∈ Jwt.Roles c ∧ perm ∈ [PermJobSubmit; PermJobRead; PermJobCancel; PermAlgoRegister]) ∨
  ("viewer" ∈ Jwt.Roles c ∧ perm = PermJobRead) ∨
  ("worker" ∈ Jwt.Roles c ∧ perm ∈ [PermTaskLease; PermTaskReport; PermJobRead]).
Proof.
  unfold Authorize, DefaultPolicy. rewrite Allow_spec. split.
  - intros (r & Hr & Hg). rewrite !Grant_spec in Hg.
    destruct Hg as [[-> Hp]|[[-> Hp]|[[-> Hp]|[[-> _]|(s & Hs & _)]]]]; [..|done].
    + right; right; right. split; [done|]. destruct Hp as [Hp|Hp]; [exfalso; clear -Hp; set_unfold; naive_solver|done].
    + right; right; left. split; [done|]. destruct Hp as [Hp|Hp]; [exfalso; clear -Hp; set_unfold; naive_solver|].
      by apply list_elem_of_singleton in Hp.
    + right; left. split; [done|]. destruct Hp as [Hp|Hp]; [exfalso; clear -Hp; set_unfold; naive_solver|done].
    + by left.
  - intros [Hr|[[Hr Hp]|[[Hr ->]|[Hr Hp]]]]; [exists "admin"|exists "operator"|exists "viewer"|exists "worker"];
      (split; [done|]); rewrite !Grant_spec.
    + do 3 right. left. split; [done|]. left. by left.
    + do 2 right. left. auto.
    + right. left. split; [done|]. right. by left.
    + left. auto.
Qed.
End Rbac.
