(* ===== verification/Consensus.v ===== *)
(** * Replicated state machines (internal/consensus)

    [fsm.go], [commit_fsm.go]: the key-value and commit-ledger machines Raft
    drives.  [node.go]: how a node applies committed entries.
    [transport.go]: the in-process network.

    Raft itself is etcd's library.  What this code relies on is that committed
    entries reach [applyCommitted] in log order on every node, so a replica is
    the fold of a log; the protobuf wire form of a command is a parameter with
    its round trip as hypothesis. *)
From S2P Require Import Prelude GoLib.
Open Scope Z_scope.

(** ** The FSM interface *)

(** [Apply] of a committed entry: an error, or the new state. *)
Class FSM (F : Type) := Apply : list byte → F → result F.

(** ** KVStore (fsm.go) *)

Record KVStore := MkKV { kvData : gmap string string; kvApplied : Z }.
#[export] Instance eta_KVStore : Eta KVStore := λ k, MkKV (kvData k) (kvApplied k).

Definition NewKVStore : KVStore := MkKV ∅ 0.

(** [strings.Cut(s, "=")]: around the first occurrence. *)
Fixpoint Cut (sep : Ascii.ascii) (s : string) : option (string * string) :=
  match s with
  | EmptyString => None
  | String c s' =>
      if Ascii.eqb c sep then Some (EmptyString, s')
      else match Cut sep s' with
           | Some (a, b) => Some (String c a, b)
           | None => None
           end
  end.

Definition eq_sign : Ascii.ascii := Ascii.ascii_of_N 61.

Definition kv_apply (data : list byte) (k : KVStore) : result KVStore :=
  match Cut eq_sign (string_of_bytes data) with
  | None => Err ("consensus: malformed command " +:+ fmt_q (string_of_bytes data) +:+ ", want key=value")
  | Some (key, val) => Ok (k <| kvData := <[key := val]> (kvData k) |> <| kvApplied := kvApplied k + 1 |>)
  end.
#[export] Instance kv_fsm : FSM KVStore := kv_apply.

Definition kv_Get (key : string) (k : KVStore) : option string := kvData k !! key.
Definition kv_Len (k : KVStore) : nat := size (kvData k).
Definition Command (key value : string) : list byte := bytes_of_string (key +:+ String eq_sign value).

(** ** CommitFSM (commit_fsm.go) *)

Record CommitCommand := MkCommand { ccTaskID : string; ccJobID : string; ccGeneration : Z; ccFinalKey : string }.

#[export] Instance CommitCommand_eq_dec : EqDecision CommitCommand.
Proof. solve_decision. Defined.

(** The protobuf codec: [None] when [proto.Unmarshal] fails. *)
Class CommandCodec := {
  Encode : CommitCommand → list byte;
  unmarshal : list byte → option CommitCommand;
  unmarshal_encode : ∀ c, unmarshal (Encode c) = Some c;
}.

Notation CommitFSM := (gmap string CommitCommand).
Definition NewCommitFSM : CommitFSM := ∅.

Section commit.
Context `{CommandCodec}.

Definition DecodeCommitCommand (data : list byte) : result CommitCommand :=
  match unmarshal data with
  | None => Err "consensus: decode commit command"
  | Some pb =>
      if bool_decide (ccTaskID pb = EmptyString)
      then Err "consensus: commit command missing task_id"
      else Ok pb
  end.

(** The locked part of [Apply]. *)
Definition commit_record (cmd : CommitCommand) (f : CommitFSM) : CommitFSM :=
  match f !! ccTaskID cmd with
  | Some cur => if ccGeneration cmd <=? ccGeneration cur then f else <[ccTaskID cmd := cmd]> f
  | None => <[ccTaskID cmd := cmd]> f
  end.

Definition commit_apply (data : list byte) (f : CommitFSM) : result CommitFSM :=
  try cmd ← DecodeCommitCommand data;
  Ok (commit_record cmd f).

#[export] Instance commit_fsm : FSM CommitFSM := commit_apply.
End commit.

Definition Committed (taskID : string) (f : CommitFSM) : option CommitCommand := f !! taskID.
Definition commit_Len (f : CommitFSM) : nat := size f.

(** ** Applying the log (node.go) *)

Inductive EntryType := EntryNormal | EntryConfChange | EntryConfChangeV2.
Record Entry := MkEntry { entType : EntryType; entData : list byte; entIndex : Z }.

(** The FSM of a node and the highest index it applied. *)
Record NodeState (F : Type) := MkNode { nFsm : F; nApplied : Z }.
Arguments MkNode {F} _ _.
Arguments nFsm {F} _.
Arguments nApplied {F} _.

(** [applyCommitted]: an error of [Apply] is logged; a configuration change
    goes to the Raft library and leaves the FSM alone. *)
Definition applyCommitted {F} `{FSM F} (n : NodeState F) (ent : Entry) : NodeState F :=
  let fsm :=
    match entType ent with
    | EntryNormal =>
        if (0 <? length (entData ent))%nat
        then match Apply (entData ent) (nFsm n) with Ok f => f | Err _ => nFsm n end
        else nFsm n
    | _ => nFsm n
    end in
  MkNode fsm (if entIndex ent >? nApplied n then entIndex ent else nApplied n).

Definition apply_log {F} `{FSM F} (n : NodeState F) (log : list Entry) : NodeState F :=
  foldl applyCommitted n log.

Lemma apply_log_app {F} `{FSM F} (n : NodeState F) l1 l2 :
  apply_log n (l1 ++ l2) = apply_log (apply_log n l1) l2.
Proof. unfold apply_log. by rewrite foldl_app. Qed.

(** ** Inbound messages (node.go, transport.go) *)

Definition recv_cap : nat := 1024.

(** [receive]: a full buffer drops the message. *)
Definition receive {M} (q : list M) (m : M) : list M :=
  if (length q <? recv_cap)%nat then q ++ [m] else q.

Record Network (M : Type) := MkNet { netNodes : gmap Z (list M); netDown : gmap Z bool }.
Arguments MkNet {M} _ _.
Arguments netNodes {M} _.
Arguments netDown {M} _.

Definition NewInmemNetwork {M} : Network M := MkNet ∅ ∅.
Definition net_add {M} (id : Z) (nw : Network M) : Network M :=
  MkNet (<[id := []]> (netNodes nw)) (netDown nw).
Definition SetDown {M} (id : Z) (down : bool) (nw : Network M) : Network M :=
  MkNet (netNodes nw) (<[id := down]> (netDown nw)).

(** Reading a missing key of a Go [map[uint64]bool] gives [false]. *)
Definition is_down {M} (nw : Network M) (id : Z) : bool := default false (netDown nw !! id).

Definition route_one {M} (nw : Network M) (msg : option Z * M) : Network M :=
  match msg with
  | (None, _) => nw
  | (Some to, m) =>
      if is_down nw to then nw
      else match netNodes nw !! to with
           | Some q => MkNet (<[to := receive q m]> (netNodes nw)) (netDown nw)
           | None => nw
           end
  end.

(** [route]: messages with their destination. *)
Definition route {M} (from : Z) (msgs : list (option Z * M)) (nw : Network M) : Network M :=
  if is_down nw from then nw else foldl route_one nw msgs.

(** ** Convergence of the commit ledger *)

Section convergence.
Context `{CommandCodec}.

(** The commands a log carries, in order; entries the machine rejects or
    skips carry none. *)
Definition entry_command (ent : Entry) : option CommitCommand :=
  match entType ent, entData ent with
  | EntryNormal, (_ :: _) as d => match DecodeCommitCommand d with Ok c => Some c | Err _ => None end
  | _, _ => None
  end.
Definition commands (log : list Entry) : list CommitCommand := omap entry_command log.

Lemma applyCommitted_command (n : NodeState CommitFSM) ent :
  nFsm (applyCommitted n ent) =
    match entry_command ent with Some c => commit_record c (nFsm n) | None => nFsm n end.
Proof.
  unfold applyCommitted, entry_command. destruct (entType ent); simpl; try done.
  destruct (entData ent) as [|b d]; [done|]. simpl.
  unfold Apply, commit_fsm, commit_apply. by destruct (DecodeCommitCommand (b :: d)).
Qed.

Lemma apply_log_commands (n : NodeState CommitFSM) log :
  nFsm (apply_log n log) = foldl (λ f c, commit_record c f) (nFsm n) (commands log).
Proof.
  revert n. induction log as [|ent log IH]; intros n; [done|]. simpl.
  fold (apply_log (applyCommitted n ent) log). rewrite IH, applyCommitted_command.
  by destruct (entry_command ent).
Qed.

(** [f] holds, for each task, a command of [l] of the highest generation
    proposed for it. *)
Definition holds_winners (f : CommitFSM) (l : list CommitCommand) : Prop :=
  ∀ task,
    match f !! task with
    | Some c => c ∈ l ∧ ccTaskID c = task ∧ ∀ c', c' ∈ l → ccTaskID c' = task → ccGeneration c' ≤ ccGeneration c
    | None => ∀ c', c' ∈ l → ccTaskID c' ≠ task
    end.

Lemma commit_record_winners f l c :
  holds_winners f l → holds_winners (commit_record c f) (l ++ [c]).
Proof.
  intros Hf task. pose proof (Hf (ccTaskID c)) as Hc. specialize (Hf task). unfold commit_record.
  assert (task ≠ ccTaskID c → match f !! task with
    | Some c0 => c0 ∈ l ++ [c] ∧ ccTaskID c0 = task ∧
        ∀ c', c' ∈ l ++ [c] → ccTaskID c' = task → ccGeneration c' ≤ ccGeneration c0
    | None => ∀ c', c' ∈ l ++ [c] → ccTaskID c' ≠ task end) as Hother.
  { intros Hne. destruct (f !! task) as [c0|].
    - destruct Hf as (Hin & Hid & Hmax). split_and!; [set_solver|done|].
      intros c' [?| ->%list_elem_of_singleton]%elem_of_app Hid'; [by apply Hmax|congruence].
    - intros c' [?| ->%list_elem_of_singleton]%elem_of_app; [by apply Hf|congruence]. }
  destruct (f !! ccTaskID c) as [cur|] eqn:Hcur.
  - destruct Hc as (Hin & Hid & Hmax). destruct (Z.leb_spec (ccGeneration c) (ccGeneration cur)).
    + destruct (decide (task = ccTaskID c)) as [->|Hne]; [|by apply Hother].
      rewrite Hcur. split_and!; [set_solver|done|].
      intros c' [?| ->%list_elem_of_singleton]%elem_of_app Hid'; [by apply Hmax|done].
    + rewrite lookup_insert. case_decide as E; [subst task|apply Hother; congruence].
      split_and!; [set_solver|done|].
      intros c' [Hin'| ->%list_elem_of_singleton]%elem_of_app Hid'; [|done].
      specialize (Hmax c' Hin' Hid'). lia.
  - rewrite lookup_insert. case_decide as E; [subst task|apply Hother; congruence].
    split_and!; [set_solver|done|].
    intros c' [Hin'| ->%list_elem_of_singleton]%elem_of_app Hid'; [by apply Hc in Hid'|done].
Qed.

Lemma log_winners log : holds_winners (nFsm (apply_log (MkNode NewCommitFSM 0) log)) (commands log).
Proof.
  rewrite apply_log_commands. simpl.
  apply (foldl_ind holds_winners (λ f c, commit_record c f)).
  - intros task. unfold NewCommitFSM. rewrite lookup_empty. intros c' Hc'. set_solver.
  - intros f pre c Hf _. by apply commit_record_winners.
Qed.

Lemma commit_record_fenced f c task cur :
  f !! task = Some cur →
  ∃ cur', commit_record c f !! task = Some cur' ∧ (cur' = cur ∨ ccGeneration cur < ccGeneration cur').
Proof.
  intros Hcur. unfold commit_record. destruct (decide (ccTaskID c = task)) as [<-|Hne].
  - rewrite Hcur. destruct (Z.leb_spec (ccGeneration c) (ccGeneration cur)); [by eauto|].
    exists c. rewrite lookup_insert_eq. auto.
  - exists cur. split; [|by left].
    repeat case_match; rewrite ?lookup_insert_ne by done; done.
Qed.

Lemma commands_fenced l f task cur :
  f !! task = Some cur →
  ∃ cur', foldl (λ f c, commit_record c f) f l !! task = Some cur' ∧
    (cur' = cur ∨ ccGeneration cur < ccGeneration cur').
Proof.
  revert f cur. induction l as [|c l IH]; intros f cur Hcur; [by eauto|]. simpl.
  destruct (commit_record_fenced f c task cur Hcur) as (cur1 & H1 & Hor).
  destruct (IH _ _ H1) as (cur2 & H2 & Hor2). exists cur2. split; [done|].
  destruct Hor as [->|?], Hor2 as [->|?]; auto; right; lia.
Qed.

Lemma commit_record_id f c : ccTaskID c ≠ "" → (∀ k c, f !! k = Some c → ccTaskID c = k) →
  ∀ k c', commit_record c f !! k = Some c' → ccTaskID c' = k.
Proof.
  intros Hc Hf k c'. unfold commit_record. repeat case_match; try (by apply Hf);
    rewrite lookup_insert; case_decide; intros; simplify_eq; auto.
Qed.
End convergence.

(** A log that carries the given commands. *)
Definition log_of `{CommandCodec} (cs : list CommitCommand) : list Entry :=
  imap (λ i c, MkEntry EntryNormal (Encode c) (Z.of_nat i)) cs.

(** ** A codec for concrete runs

    A byte per bit of the command's position in an enumeration of all
    commands; it stands in for protobuf where an example needs a codec. *)

#[export, refine] Instance CommitCommand_countable : Countable CommitCommand :=
  inj_countable' (λ c, (ccTaskID c, ccJobID c, ccGeneration c, ccFinalKey c))
    (λ '(t, j, g, f), MkCommand t j g f) _.
Proof. by intros []. Defined.

Definition enum_codec : CommandCodec.
Proof.
  refine {| Encode c := pos_bytes (encode c); unmarshal l := bytes_pos l ≫= decode |}.
  intros c. rewrite bytes_pos_bytes. simpl. apply decode_encode.
Defined.

(** C10: replicas agree whatever order, and however often, commit commands
    reach them: two logs that carry the same commands hold, for every task,
    winners of the same generation, and the same winners when no two
    commands of one task share a generation. *)
Theorem ledger_converges `{CommandCodec} log1 log2 :
  (∀ c, c ∈ commands log1 ↔ c ∈ commands log2) →
  let f1 := nFsm (apply_log (MkNode NewCommitFSM 0) log1) in
  let f2 := nFsm (apply_log (MkNode NewCommitFSM 0) log2) in
  (∀ task, (ccGeneration <$> f1 !! task) = (ccGeneration <$> f2 !! task)) ∧
  ((∀ c c', c ∈ commands log1 → c' ∈ commands log1 → ccTaskID c = ccTaskID c' →
      ccGeneration c = ccGeneration c' → c = c') → f1 = f2).
Proof.
  intros Heq f1 f2.
  pose proof (log_winners log1) as H1. pose proof (log_winners log2) as H2. fold f1 in H1. fold f2 in H2.
  assert (∀ task, match f1 !! task, f2 !! task with
    | Some c1, Some c2 => ccGeneration c1 = ccGeneration c2 ∧ ccTaskID c1 = task ∧ ccTaskID c2 = task ∧
        c1 ∈ commands log1 ∧ c2 ∈ commands log1
    | None, None => True | _, _ => False end) as Hag.
  { intros task. specialize (H1 task). specialize (H2 task).
    destruct (f1 !! task) as [c1|], (f2 !! task) as [c2|]; [| | |done].
    - destruct H1 as (Hi1 & Hd1 & Hm1), H2 as (Hi2 & Hd2 & Hm2). split_and!; try done; [|by apply Heq].
      specialize (Hm1 c2 (proj2 (Heq c2) Hi2) Hd2). specialize (Hm2 c1 (proj1 (Heq c1) Hi1) Hd1). lia.
    - destruct H1 as (Hi1 & Hd1 & _). by apply Heq, H2 in Hi1.
    - destruct H2 as (Hi2 & Hd2 & _). by apply Heq, H1 in Hi2. }
  split.
  - intros task. specialize (Hag task). destruct (f1 !! task), (f2 !! task); try done. simpl. f_equal. apply Hag.
  - intros Huniq. apply map_eq. intros task. specialize (Hag task).
    destruct (f1 !! task) as [c1|], (f2 !! task) as [c2|]; try done.
    destruct Hag as (Hg & Hd1 & Hd2 & Hi1 & Hi2). f_equal. apply Huniq; congruence.
Qed.

Definition demo_cmds : list CommitCommand :=
  [MkCommand "t1" "j" 1 "k1"; MkCommand "t2" "j" 0 "k2"; MkCommand "t1" "j" 2 "k3"].

Lemma ledger_converges_witness :
  let f log := nFsm (apply_log (H := @commit_fsm enum_codec) (MkNode NewCommitFSM 0) (log_of (H := enum_codec) log)) in
  f demo_cmds = f (rev demo_cmds ++ demo_cmds) ∧ (ccGeneration <$> f demo_cmds !! "t1") = Some 2.
Proof.
  split; [|vm_compute; reflexivity].
  apply (proj2 (@ledger_converges enum_codec (log_of (H := enum_codec) demo_cmds)
    (log_of (H := enum_codec) (rev demo_cmds ++ demo_cmds))
    ltac:(intros c;
      assert (commands (H := enum_codec) (log_of (H := enum_codec) demo_cmds) = demo_cmds) as -> by (by vm_compute);
      assert (commands (H := enum_codec) (log_of (H := enum_codec) (rev demo_cmds ++ demo_cmds))
        = rev demo_cmds ++ demo_cmds) as -> by (by vm_compute);
      rewrite !list_elem_of_In, in_app_iff, <- in_rev; tauto))).
  assert (commands (H := enum_codec) (log_of (H := enum_codec) demo_cmds) = demo_cmds) as -> by (by vm_compute).
  intros c c' Hc Hc' E1 E2. unfold demo_cmds in *. rewrite !elem_of_cons in Hc, Hc'.
  destruct Hc as [->|[->|[->|[]%elem_of_nil]]], Hc' as [->|[->|[->|[]%elem_of_nil]]]; done.
Defined.

(** A record is fenced: however the log goes on, the record of a task is
    kept or replaced by one of a strictly higher generation. *)
Theorem ledger_fenced `{CommandCodec} log ext task cur :
  nFsm (apply_log (MkNode NewCommitFSM 0) log) !! task = Some cur →
  ∃ cur', nFsm (apply_log (MkNode NewCommitFSM 0) (log ++ ext)) !! task = Some cur' ∧
    (cur' = cur ∨ ccGeneration cur < ccGeneration cur').
Proof.
  intros Hcur. unfold apply_log. rewrite foldl_app. fold (apply_log (MkNode NewCommitFSM 0) log).
  fold (apply_log (apply_log (MkNode NewCommitFSM 0) log) ext).
  rewrite (apply_log_commands _ ext). by apply commands_fenced.
Qed.

Lemma ledger_fenced_witness :
  ∃ cur', nFsm (apply_log (H := @commit_fsm enum_codec) (MkNode NewCommitFSM 0)
            (log_of (H := enum_codec) demo_cmds ++ log_of (H := enum_codec) (rev demo_cmds))) !! "t2" = Some cur' ∧
    (cur' = MkCommand "t2" "j" 0 "k2" ∨ 0 < ccGeneration cur').
Proof.
  apply (@ledger_fenced enum_codec (log_of (H := enum_codec) demo_cmds) _ "t2" (MkCommand "t2" "j" 0 "k2")).
  by vm_compute.
Defined.

(** ** The key-value machine *)

Lemma Cut_app sep a b : no_char sep a = true → Cut sep (a +:+ String sep b) = Some (a, b).
Proof.
  induction a as [|c a IH]; intros Ha.
  - simpl. by rewrite Ascii.eqb_refl.
  - simpl in Ha. apply andb_true_iff in Ha as [Hc Ha]. apply negb_true_iff in Hc.
    change (Cut sep (String c (a +:+ String sep b)) = Some (String c a, b)). simpl. by rewrite Hc, IH.
Qed.

(** Round trip of the reference machine: applying [Command key value]
    sets [key] to [value] and nothing else, for every key without an equals
    sign and any value. *)
Theorem kv_command_roundtrip key value k :
  no_char eq_sign key = true →
  ∃ k', kv_apply (Command key value) k = Ok k' ∧ kv_Get key k' = Some value ∧
    kvApplied k' = kvApplied k + 1 ∧ ∀ key', key' ≠ key → kv_Get key' k' = kv_Get key' k.
Proof.
  intros Hkey. unfold kv_apply, Command. rewrite string_of_bytes_of_string, Cut_app by done.
  eexists. split; [done|]. unfold kv_Get. simpl.
  split_and!; [by rewrite lookup_insert_eq|done|]. intros key' Hne. by rewrite lookup_insert_ne.
Qed.

Lemma kv_command_roundtrip_witness :
  ∃ k', kv_apply (Command "a" "b=c") NewKVStore = Ok k' ∧ kv_Get "a" k' = Some "b=c".
Proof.
  destruct (kv_command_roundtrip "a" "b=c" NewKVStore eq_refl) as (k' & H1 & H2 & _). by exists k'.
Defined.
