(* ===== verification/RaftNode.v ===== *)
(** * Raft between processes (consensus/node.go, consensus/raftgrpc)

    The gRPC transport with its queue and sender per peer, the server that hands
    a message to its node, and the loop of a node.  Raft itself, its memory
    storage and the protobuf codec are libraries, and parameters here.  The wire
    joins the processes: every ordered pair of nodes is a lossy channel of its
    own. *)
From S2P Require Import Prelude GoLib Consensus.
Open Scope Z_scope.

(** [raftpb.Message]: its destination, if it has one, and its bytes. *)
Class Message (M : Type) := {
  To : M → option Z;
  Marshal : M → result (list byte);
  Unmarshal : list byte → result M }.

Definition codec_law {M} `{Message M} : Prop := ∀ m b, Marshal m = Ok b → Unmarshal b = Ok m.

(** ** The transport (raftgrpc/transport.go) *)

Definition peerQueue : nat := 1024.

(** Whether the sender has a client is [pcClient]. *)
Record peerConn := MkPeer { pcID : Z; pcAddr : string; pcCh : list (list byte); pcClient : bool }.
#[export] Instance eta_peerConn : Eta peerConn := λ p, MkPeer (pcID p) (pcAddr p) (pcCh p) (pcClient p).
Record Transport := MkTransport { trFrom : Z; trPeers : gmap Z peerConn; trStop : bool }.
#[export] Instance eta_Transport : Eta Transport := λ t, MkTransport (trFrom t) (trPeers t) (trStop t).

Definition NewTransport (from : Z) (peers : gmap Z string) : Transport :=
  MkTransport from (map_imap (λ id addr, if bool_decide (id = from) then None else Some (MkPeer id addr [] false)) peers) false.

(** The [select] of [Send]: a full queue drops. *)
Definition enqueue (data : list byte) (pc : peerConn) : peerConn :=
  if (length (pcCh pc) <? peerQueue)%nat then pc <| pcCh := pcCh pc ++ [data] |> else pc.

Definition Send_one {M} `{Message M} (t : Transport) (m : M) : Transport :=
  match To m with
  | None => t
  | Some to =>
      match trPeers t !! to with
      | None => t
      | Some pc => match Marshal m with Err _ => t | Ok data => t <| trPeers := <[to := enqueue data pc]> (trPeers t) |> end
      end
  end.
Definition Send {M} `{Message M} (msgs : list M) (t : Transport) : Transport := foldl Send_one t msgs.

Definition Close (t : Transport) : Transport := t <| trStop := true |>.

(** One message of [sendLoop]; it waits on an empty queue. [dial] is what
    [grpc.NewClient] would say, [call] the server's [Step]. *)
Definition sendLoop {N} (dial : result unit) (call : string → list byte → N → result unit * N) (pc : peerConn) (nw : N) : option (peerConn * N) :=
  match pcCh pc with
  | [] => None
  | data :: rest =>
      let pc := pc <| pcCh := rest |> in
      match (if pcClient pc then Ok tt else dial) with
      | Err _ => Some (pc, nw)
      | Ok _ =>
          let pc := pc <| pcClient := true |> in
          let '(r, nw) := call (pcAddr pc) data nw in
          Some (match r with Err _ => pc <| pcClient := false |> | Ok _ => pc end, nw)
      end
  end.

(** ** The server (raftgrpc/server.go) *)

(** [Step], on the [recvc] of its node. *)
Definition Server_Step {M} `{Message M} (data : list byte) (recvc : list M) : result unit * list M :=
  match Unmarshal data with
  | Err e => (Err e, recvc)
  | Ok m => (Ok tt, receive recvc m)
  end.

(** ** The wire *)

Section wire.
Context {M : Type} `{Message M}.

(** The transports, the running nodes' [recvc], and the calls given up by their
    callers that still may arrive.  [wSent] and [wGot] are what was passed to
    [Send] and what entered a [recvc] so far, as (from, to, message). *)
Record Wire := MkWire {
  wTransports : gmap Z Transport; wNodes : gmap Z (list M); wLate : list (Z * Z * list byte);
  wSent : list (Z * Z * M); wGot : list (Z * Z * M) }.
#[export] Instance eta_Wire : Eta Wire := λ w, MkWire (wTransports w) (wNodes w) (wLate w) (wSent w) (wGot w).

(** What becomes of a call: its answer comes; it arrives but its answer is lost;
    it never arrives; or its caller gives it up and it arrives later, if ever. *)
Inductive outcome := Answered | AnswerLost | Unreached | Late.

(** What happens on the wire; the error of [dial] is an argument of a turn. *)
Inductive action :=
| ASend (i : Z) (msgs : list M)
| ATurn (i p : Z) (dial : result unit) (o : outcome)
| ALate (k : nat)
| ATake (p : Z)
| ADown (p : Z) | AUp (p : Z)
| AClose (i : Z).

Context (resolve : string → option Z).

(** A call that reaches node [q]; what enters its [recvc] is noted. *)
Definition deliver (i q : Z) (data : list byte) (w : Wire) : result unit * Wire :=
  match wNodes w !! q with
  | None => (Err "unavailable", w)
  | Some box =>
      let '(r, box') := Server_Step data box in
      let w := w <| wNodes := <[q := box']> (wNodes w) |> in
      (r, match Unmarshal data with
          | Ok m => if (length box <? recv_cap)%nat then w <| wGot := wGot w ++ [(i, q, m)] |> else w
          | Err _ => w
          end)
  end.

Definition call (i : Z) (o : outcome) (addr : string) (data : list byte) (w : Wire) : result unit * Wire :=
  match resolve addr with
  | None => (Err "unavailable", w)
  | Some q =>
      match o with
      | Answered => deliver i q data w
      | AnswerLost => (Err "deadline exceeded", (deliver i q data w).2)
      | Unreached => (Err "unavailable", w)
      | Late => (Err "deadline exceeded", w <| wLate := wLate w ++ [(i, q, data)] |>)
      end
  end.

Definition addressed (i : Z) (m : M) : option (Z * Z * M) := (λ to, (i, to, m)) <$> To m.

(** An action that is not possible changes nothing. *)
Definition act (a : action) (w : Wire) : Wire :=
  match a with
  | ASend i msgs =>
      match wTransports w !! i with
      | None => w
      | Some t => w <| wTransports := <[i := Send msgs t]> (wTransports w) |> <| wSent := wSent w ++ omap (addressed i) msgs |>
      end
  | ATurn i p dial o =>
      match wTransports w !! i with
      | None => w
      | Some t =>
          if trStop t then w else
          match trPeers t !! p with
          | None => w
          | Some pc =>
              match sendLoop dial (call i o) pc w with
              | None => w
              | Some (pc, w) => w <| wTransports := <[i := t <| trPeers := <[p := pc]> (trPeers t) |>]> (wTransports w) |>
              end
          end
      end
  | ALate k =>
      match wLate w !! k with
      | None => w
      | Some (i, q, data) => (deliver i q data (w <| wLate := delete k (wLate w) |>)).2
      end
  | ATake p => w <| wNodes := alter tail p (wNodes w) |>
  | ADown p => w <| wNodes := delete p (wNodes w) |>
  | AUp p => w <| wNodes := <[p := []]> (wNodes w) |>
  | AClose i => w <| wTransports := alter Close i (wTransports w) |>
  end.

Definition run (l : list action) (w : Wire) : Wire := foldl (λ w a, act a w) w l.

(** Every process of [addrs] has started. *)
Definition started (addrs : gmap Z string) : Wire :=
  MkWire (map_imap (λ i _, Some (NewTransport i addrs)) addrs) ((λ _, []) <$> addrs) [] [] [].

(** ** The channel from [i] to [p] *)

Record channel := MkChannel { cSent : list M; cQueue : list M; cLate : list M; cGot : list M }.

(** Without [late], no call arrives after its caller gave it up. *)
Inductive chan_step (late : bool) : channel → channel → Prop :=
| ch_put m s q l g : (length q < peerQueue)%nat → chan_step late (MkChannel s q l g) (MkChannel (s ++ [m]) (q ++ [m]) l g)
| ch_drop m s q l g : chan_step late (MkChannel s q l g) (MkChannel (s ++ [m]) q l g)
| ch_pass m s q l g : chan_step late (MkChannel s (m :: q) l g) (MkChannel s q l (g ++ [m]))
| ch_lose m s q l g : chan_step late (MkChannel s (m :: q) l g) (MkChannel s q l g)
| ch_delay m s q l g : late = true → chan_step late (MkChannel s (m :: q) l g) (MkChannel s q (l ++ [m]) g)
| ch_arrive k m s q l g : l !! k = Some m → chan_step late (MkChannel s q l g) (MkChannel s q (delete k l) (g ++ [m]))
| ch_forget k s q l g : chan_step late (MkChannel s q l g) (MkChannel s q (delete k l) g).

Definition on_pair (i p : Z) (x : Z * Z * M) : option M := let '(i', p', m) := x in if bool_decide (i' = i ∧ p' = p) then Some m else None.
Definition decoded (data : list byte) : option M := match Unmarshal data with Ok m => Some m | Err _ => None end.
Definition late_on (i p : Z) (x : Z * Z * list byte) : option M := let '(i', p', d) := x in if bool_decide (i' = i ∧ p' = p) then decoded d else None.

Definition queue_of (i p : Z) (w : Wire) : list (list byte) := from_option pcCh [] (wTransports w !! i ≫= λ t, trPeers t !! p).

Definition channel_of (i p : Z) (w : Wire) : channel :=
  MkChannel (omap (on_pair i p) (wSent w)) (omap decoded (queue_of i p w)) (omap (late_on i p) (wLate w)) (omap (on_pair i p) (wGot w)).

(** ** Every pair has a channel of its own *)

Lemma deliver_frame i q data w : let w' := (deliver i q data w).2 in
  wTransports w' = wTransports w ∧ wLate w' = wLate w ∧ wSent w' = wSent w ∧
  (wGot w' = wGot w ∨ ∃ m, decoded data = Some m ∧ wGot w' = wGot w ++ [(i, q, m)]).
Proof.
  unfold deliver, Server_Step, decoded. destruct (wNodes w !! q) as [box|]; [|cbn; auto].
  destruct (Unmarshal data) as [m|e]; cbn; [|auto]. case_match; cbn; split_and!; eauto.
Qed.

(** What a call makes of the message it carries. *)
Lemma call_frame i o addr data w q : resolve addr = Some q → let w' := (call i o addr data w).2 in
  wTransports w' = wTransports w ∧ wSent w' = wSent w ∧
  ((wLate w' = wLate w ∧ (wGot w' = wGot w ∨ ∃ m, decoded data = Some m ∧ wGot w' = wGot w ++ [(i, q, m)])) ∨
   (o = Late ∧ wLate w' = wLate w ++ [(i, q, data)] ∧ wGot w' = wGot w)).
Proof.
  intros Hr. unfold call. rewrite Hr. destruct (deliver_frame i q data w) as (F1 & F2 & F3 & F4).
  destruct o; cbn; (split; [done|split; [done|]]); first [by left; auto|by right].
Qed.

Lemma on_pair_same i p m : on_pair i p (i, p, m) = Some m.
Proof. unfold on_pair. by rewrite bool_decide_true. Qed.
Lemma on_pair_other i p i' p' m : (i', p') ≠ (i, p) → on_pair i p (i', p', m) = None.
Proof. intros Hne. unfold on_pair. rewrite bool_decide_false; [done|]. intros [-> ->]. done. Qed.
Lemma late_on_same i p d : late_on i p (i, p, d) = decoded d.
Proof. unfold late_on. by rewrite bool_decide_true. Qed.
Lemma late_on_other i p i' p' d : (i', p') ≠ (i, p) → late_on i p (i', p', d) = None.
Proof. intros Hne. unfold late_on. rewrite bool_decide_false; [done|]. intros [-> ->]. done. Qed.

(** Taking an element away takes away at most its image. *)
Lemma omap_delete {A B} (f : A → option B) (l : list A) k x : l !! k = Some x →
  match f x with
  | None => omap f (delete k l) = omap f l
  | Some y => ∃ k', omap f l !! k' = Some y ∧ omap f (delete k l) = delete k' (omap f l)
  end.
Proof.
  revert k. induction l as [|a l IH]; intros [|k] Hk; [done..| |].
  - cbn in Hk. injection Hk as ->. cbn. destruct (f x); [|done]. by exists 0%nat.
  - cbn in Hk. specialize (IH k Hk). change (delete (S k) (a :: l)) with (a :: delete k l).
    assert (Hc : ∀ l, omap f (a :: l) = match f a with Some b => b :: omap f l | None => omap f l end) by done. rewrite !Hc. clear Hc. destruct (f x) as [y|].
    + destruct IH as (k' & H1 & H2). rewrite H2. destruct (f a); [by exists (S k')|by exists k'].
    + by rewrite IH.
Qed.

(** Every sender's address is that of its peer. *)
Definition well_addressed (w : Wire) : Prop :=
  ∀ i t p pc, wTransports w !! i = Some t → trPeers t !! p = Some pc → resolve (pcAddr pc) = Some p.

Lemma Send_one_peer t (m : M) p :
  trPeers (Send_one t m) !! p = trPeers t !! p ∨
  ∃ pc data, To m = Some p ∧ Marshal m = Ok data ∧ trPeers t !! p = Some pc ∧ trPeers (Send_one t m) !! p = Some (enqueue data pc).
Proof.
  unfold Send_one. destruct (To m) as [to|]; [|by left]. destruct (trPeers t !! to) as [pc|] eqn:Hpc; [|by left].
  destruct (Marshal m) as [data|e] eqn:Hd; [|by left]. cbn. destruct (decide (to = p)) as [->|Hne].
  - right. exists pc, data. by rewrite lookup_insert_eq.
  - left. by rewrite lookup_insert_ne.
Qed.

Lemma enqueue_addr data pc : pcAddr (enqueue data pc) = pcAddr pc.
Proof. unfold enqueue. by case_match. Qed.

Lemma Send_addr msgs t p pc : trPeers (Send msgs t) !! p = Some pc → ∃ pc0, trPeers t !! p = Some pc0 ∧ pcAddr pc0 = pcAddr pc.
Proof.
  unfold Send. revert t. induction msgs as [|m msgs IH]; intros t Hp; [by eexists|]. cbn in Hp. destruct (IH _ Hp) as (pc1 & H1 & E1).
  destruct (Send_one_peer t m p) as [E|(pc0 & data & _ & _ & H0 & E)]; rewrite E in H1; [by eexists|].
  injection H1 as <-. exists pc0. by rewrite <- E1, enqueue_addr.
Qed.

Lemma sendLoop_addr {N} dial (c : string → list byte → N → result unit * N) pc nw pc' nw' : sendLoop dial c pc nw = Some (pc', nw') → pcAddr pc' = pcAddr pc.
Proof. unfold sendLoop. intros Hs. repeat case_match; by simplify_eq/=. Qed.

(** The turns of a sender: what it takes, and what a call makes of it. *)
Lemma sendLoop_cases {N} dial (c : string → list byte → N → result unit * N) pc nw pc' nw' : sendLoop dial c pc nw = Some (pc', nw') →
  ∃ data, pcCh pc = data :: pcCh pc' ∧ (nw' = nw ∨ nw' = (c (pcAddr pc) data nw).2).
Proof.
  unfold sendLoop. destruct (pcCh pc) as [|data rest]; [done|]. cbn. intros Hs. exists data.
  destruct (if pcClient pc then _ else _); [|simplify_eq/=; auto]. destruct (c (pcAddr pc) data nw) as [r nw1]. injection Hs as <- <-. destruct r; cbn; auto.
Qed.

(** The channel of a pair after an action's sends. *)
Lemma channel_send b i p w t msgs : codec_law → wTransports w !! i = Some t →
  let w' := w <| wTransports := <[i := Send msgs t]> (wTransports w) |> <| wSent := wSent w ++ omap (addressed i) msgs |> in
  rtc (chan_step b) (channel_of i p w) (channel_of i p w').
Proof.
  intros Hlaw. revert w t. induction msgs as [|m msgs IH]; intros w t Ht w'.
  { subst w'. cbn. unfold channel_of, queue_of. cbn. rewrite lookup_insert_eq, Ht, app_nil_r. done. }
  set (w1 := w <| wTransports := <[i := Send_one t m]> (wTransports w) |> <| wSent := wSent w ++ omap (addressed i) [m] |>).
  assert (E : w' = w1 <| wTransports := <[i := Send msgs (Send_one t m)]> (wTransports w1) |> <| wSent := wSent w1 ++ omap (addressed i) msgs |>).
  { subst w' w1. cbn -[omap Send]. rewrite insert_insert_eq, <- app_assoc.
    assert (omap (addressed i) (m :: msgs) = omap (addressed i) [m] ++ omap (addressed i) msgs) as -> by (cbn; by destruct (addressed i m)). done. }
  rewrite E. etrans; [|apply IH; unfold w1; cbn; by rewrite lookup_insert_eq].
  clear E IH w'. unfold channel_of, queue_of, w1. cbn. rewrite lookup_insert_eq, Ht. cbn. rewrite omap_app.
  destruct (Send_one_peer t m p) as [->|(pc & data & Hto & Hd & Hpc & ->)].
  - unfold addressed. destruct (To m) as [to|]; cbn; [|by rewrite app_nil_r]. destruct (decide (to = p)) as [->|Hne].
    + rewrite bool_decide_true by done. apply rtc_once, ch_drop.
    + rewrite bool_decide_false by tauto. by rewrite app_nil_r.
  - unfold addressed. rewrite Hto, Hpc. cbn. rewrite bool_decide_true by done. apply rtc_once. unfold enqueue.
    destruct (Nat.ltb_spec (length (pcCh pc)) peerQueue) as [Hlt|]; cbn; [|apply ch_drop].
    assert (Hdec : decoded data = Some m) by (unfold decoded; by rewrite (Hlaw m data Hd)).
    rewrite omap_app. cbn. rewrite Hdec. apply ch_put.
    pose proof (length_omap_le decoded (pcCh pc)). lia.
Qed.

(** A message taken from the pair's queue, and where it went. *)
Lemma channel_call b i p s q d data l g l' g' :
  ((l' = l ∧ (g' = g ∨ ∃ m, decoded data = Some m ∧ g' = g ++ [(i, p, m)])) ∨ (b = true ∧ l' = l ++ [(i, p, data)] ∧ g' = g)) → q = data :: d →
  rtc (chan_step b) (MkChannel s (omap decoded q) (omap (late_on i p) l) (omap (on_pair i p) g))
    (MkChannel s (omap decoded d) (omap (late_on i p) l') (omap (on_pair i p) g')).
Proof.
  intros Hc ->. change (omap decoded (data :: d)) with (match decoded data with Some m => m :: omap decoded d | None => omap decoded d end).
  destruct Hc as [[-> [->|(m & Hm & ->)]]|(Hb & -> & ->)].
  - destruct (decoded data); [apply rtc_once, ch_lose|done].
  - rewrite Hm, omap_app. cbn. rewrite bool_decide_true by done. apply rtc_once, ch_pass.
  - rewrite omap_app. cbn. rewrite bool_decide_true by done. destruct (decoded data); [by apply rtc_once, ch_delay|by rewrite app_nil_r].
Qed.

Lemma other_got i p i' p' m g : (i', p') ≠ (i, p) → omap (on_pair i p) (g ++ [(i', p', m)]) = omap (on_pair i p) g.
Proof. intros Hne. rewrite omap_app. cbn -[on_pair]. by rewrite (on_pair_other _ _ _ _ _ Hne), app_nil_r. Qed.
Lemma other_late i p i' p' d l : (i', p') ≠ (i, p) → omap (late_on i p) (l ++ [(i', p', d)]) = omap (late_on i p) l.
Proof. intros Hne. rewrite omap_app. cbn -[late_on]. by rewrite (late_on_other _ _ _ _ _ Hne), app_nil_r. Qed.

Lemma channel_turn b i p i' p' dial o w : well_addressed w → (o = Late → b = true) → rtc (chan_step b) (channel_of i p w) (channel_of i p (act (ATurn i' p' dial o) w)).
Proof.
  intros Hwa Hb. cbn [act]. destruct (wTransports w !! i') as [t|] eqn:Ht; [|done]. destruct (trStop t); [done|].
  destruct (trPeers t !! p') as [pc|] eqn:Hpc; [|done]. destruct (sendLoop dial (call i' o) pc w) as [[pc' w']|] eqn:Hs; [|done].
  destruct (sendLoop_cases _ _ _ _ _ _ Hs) as (data & Hq & Hw').
  assert (Hf : wTransports w' = wTransports w ∧ wSent w' = wSent w ∧
    ((wLate w' = wLate w ∧ (wGot w' = wGot w ∨ ∃ m, decoded data = Some m ∧ wGot w' = wGot w ++ [(i', p', m)])) ∨
     (b = true ∧ wLate w' = wLate w ++ [(i', p', data)] ∧ wGot w' = wGot w))).
  { destruct Hw' as [->| ->]; [split_and!; auto|]. destruct (call_frame i' o (pcAddr pc) data w p' (Hwa _ _ _ _ Ht Hpc)) as (F1 & F2 & F3). tauto. }
  clear Hw' Hs. destruct Hf as (F1 & F2 & F3). unfold channel_of, queue_of. cbn. rewrite F1, F2.
  destruct (decide ((i', p') = (i, p))) as [[= -> ->]|Hne].
  - rewrite lookup_insert_eq, Ht. cbn. rewrite lookup_insert_eq, Hpc. cbn. by apply (channel_call b i p _ _ _ data).
  - assert (Hqs : (<[i':=t <| trPeers := <[p':=pc']> (trPeers t) |>]> (wTransports w) !! i ≫= λ t, trPeers t !! p) = (wTransports w !! i ≫= λ t, trPeers t !! p)).
    { destruct (decide (i' = i)) as [->|Hi]; [rewrite lookup_insert_eq, Ht|by rewrite lookup_insert_ne]. cbn. rewrite lookup_insert_ne; congruence. }
    rewrite Hqs. clear Hqs. destruct F3 as [[-> [->|(m & _ & ->)]]|(_ & -> & ->)]; rewrite ?(other_got _ _ _ _ _ _ Hne), ?(other_late _ _ _ _ _ _ Hne); done.
Qed.

Lemma channel_late b i p k w : rtc (chan_step b) (channel_of i p w) (channel_of i p (act (ALate k) w)).
Proof.
  cbn [act]. destruct (wLate w !! k) as [[[i' p'] data]|] eqn:Hk; [|done].
  destruct (deliver_frame i' p' data (w <| wLate := delete k (wLate w) |>)) as (F1 & F2 & F3 & F4).
  unfold channel_of, queue_of. rewrite F1, F2, F3. cbn in *. clear F1 F2 F3.
  pose proof (omap_delete (late_on i p) _ _ _ Hk) as Hd. destruct (decide ((i', p') = (i, p))) as [[= -> ->]|Hne].
  - rewrite late_on_same in Hd. destruct (decoded data) as [m|].
    + destruct Hd as (k' & H1 & ->). destruct F4 as [->|(m' & [= <-] & ->)]; [apply rtc_once, ch_forget|].
      rewrite omap_app. cbn. rewrite bool_decide_true by done. by apply rtc_once, ch_arrive.
    + rewrite Hd. by destruct F4 as [->|(m' & ? & _)].
  - rewrite (late_on_other _ _ _ _ _ Hne) in Hd. rewrite Hd. destruct F4 as [->|(m & _ & ->)]; [done|]. by rewrite (other_got _ _ _ _ _ _ Hne).
Qed.

Lemma act_addressed a w : well_addressed w → well_addressed (act a w).
Proof.
  intros Hw. destruct a as [i' msgs|i' p' dial o|k|p'|p'|p'|i']; cbn [act]; try exact Hw.
  - destruct (wTransports w !! i') as [t'|] eqn:Ht'; [|exact Hw]. intros i t p pc. cbn. destruct (decide (i' = i)) as [->|]; [|rewrite lookup_insert_ne by done; apply Hw].
    rewrite lookup_insert_eq. intros [= <-] Hpc. destruct (Send_addr _ _ _ _ Hpc) as (pc0 & H1 & <-). by eapply Hw.
  - destruct (wTransports w !! i') as [t'|] eqn:Ht'; [|exact Hw]. destruct (trStop t'); [exact Hw|].
    destruct (trPeers t' !! p') as [pc'|] eqn:Hpc'; [|exact Hw]. destruct (sendLoop dial _ pc' w) as [[pc1 w1]|] eqn:Hs; [|exact Hw]. intros i t p pc. cbn.
    assert (wTransports w1 = wTransports w) as ->.
    { destruct (sendLoop_cases _ _ _ _ _ _ Hs) as (data & _ & [->| ->]); [done|].
      by destruct (call_frame i' o (pcAddr pc') data w p' (Hw _ _ _ _ Ht' Hpc')) as (-> & _). }
    destruct (decide (i' = i)) as [->|]; [|rewrite lookup_insert_ne by done; apply Hw]. rewrite lookup_insert_eq. intros [= <-]. cbn.
    destruct (decide (p' = p)) as [->|]; [|rewrite lookup_insert_ne by done; by apply (Hw i _ _ _ Ht')]. rewrite lookup_insert_eq. intros [= <-].
    rewrite (sendLoop_addr _ _ _ _ _ _ Hs). by eapply Hw.
  - destruct (wLate w !! k) as [[[i' p'] data]|]; [|exact Hw]. intros i t p pc.
    destruct (deliver_frame i' p' data (w <| wLate := delete k (wLate w) |>)) as (-> & _). apply Hw.
  - intros i t p pc. cbn. destruct (decide (i' = i)) as [->|]; [|rewrite lookup_alter_ne by done; apply Hw]. rewrite lookup_alter_eq.
    destruct (wTransports w !! i) as [t'|] eqn:Ht'; [|done]. intros [= <-]. by apply (Hw _ _ _ _ Ht').
Qed.

Definition is_late (a : action) : bool := match a with ATurn _ _ _ Late => true | _ => false end.

Lemma channel_act b i p a w : codec_law → well_addressed w → (is_late a = true → b = true) → rtc (chan_step b) (channel_of i p w) (channel_of i p (act a w)).
Proof.
  intros Hlaw Hw Hb. destruct a as [i' msgs|i' p' dial o|k|p'|p'|p'|i'].
  - cbn [act]. destruct (wTransports w !! i') as [t|] eqn:Ht; [|done]. destruct (decide (i' = i)) as [->|Hne]; [by apply channel_send|].
    unfold channel_of, queue_of. cbn -[on_pair]. rewrite lookup_insert_ne, omap_app by done.
    assert (omap (on_pair i p) (omap (addressed i') msgs) = []) as ->; [|by rewrite app_nil_r].
    clear Hb. induction msgs as [|m msgs IH]; [done|]. cbn. unfold addressed at 1. destruct (To m) as [to|]; cbn; [|exact IH].
    rewrite bool_decide_false by tauto. exact IH.
  - apply channel_turn; [done|]. intros ->. by apply Hb.
  - apply channel_late.
  - done.
  - done.
  - done.
  - cbn [act]. unfold channel_of, queue_of. cbn. destruct (decide (i' = i)) as [->|Hne]; [rewrite lookup_alter_eq|by rewrite lookup_alter_ne].
    by destruct (wTransports w !! i).
Qed.

Lemma started_addressed addrs : (∀ i addr, addrs !! i = Some addr → resolve addr = Some i) → well_addressed (started addrs).
Proof.
  intros Hr i t p pc. unfold started. cbn. rewrite map_lookup_imap. destruct (addrs !! i); [|done]. cbn. intros [= <-]. cbn.
  rewrite map_lookup_imap. destruct (addrs !! p) as [addr|] eqn:Ha; [|done]. cbn. case_bool_decide; [done|]. intros [= <-]. by apply Hr.
Qed.

Lemma started_channel addrs i p : channel_of i p (started addrs) = MkChannel [] [] [] [].
Proof.
  unfold channel_of, queue_of. cbn. rewrite map_lookup_imap. destruct (addrs !! i); [|done]. cbn. rewrite map_lookup_imap.
  destruct (addrs !! p); [|done]. cbn. by case_bool_decide.
Qed.

Lemma channel_run b i p l w : codec_law → well_addressed w → (existsb is_late l = true → b = true) → rtc (chan_step b) (channel_of i p w) (channel_of i p (run l w)).
Proof.
  intros Hlaw. revert w. induction l as [|a l IH]; intros w Hw Hb; [done|]. cbn in Hb. etrans.
  - apply (channel_act b i p a w Hlaw Hw). intros Ha. apply Hb. by rewrite Ha.
  - apply IH; [by apply act_addressed|]. intros Hl. apply Hb. by rewrite Hl, orb_true_r.
Qed.

(** *** What a channel promises *)

Lemma rtc_keeps {A} (R : A → A → Prop) (P : A → Prop) x y : (∀ x y, R x y → P x → P y) → rtc R x y → P x → P y.
Proof. intros HR Hr. induction Hr; eauto. Qed.

Definition chan_once (x : channel) : Prop := cGot x ++ cQueue x ++ cLate x ⊆+ cSent x.
Definition chan_fifo (x : channel) : Prop := cLate x = [] ∧ (cGot x ++ cQueue x) `sublist_of` cSent x.

Lemma chan_once_step b x y : chan_step b x y → chan_once x → chan_once y.
Proof.
  unfold chan_once. intros [m s q l g Hq|m s q l g|m s q l g|m s q l g|m s q l g Hb|k m s q l g Hk|k s q l g]; cbn; intros Hx.
  - assert (g ++ (q ++ [m]) ++ l ≡ₚ (g ++ q ++ l) ++ [m]) as -> by solve_Permutation. by apply submseteq_app.
  - by apply submseteq_inserts_r.
  - by assert ((g ++ [m]) ++ q ++ l ≡ₚ g ++ (m :: q) ++ l) as -> by solve_Permutation.
  - etrans; [|exact Hx]. apply submseteq_skips_l. cbn. by apply submseteq_cons.
  - by assert (g ++ q ++ l ++ [m] ≡ₚ g ++ (m :: q) ++ l) as -> by solve_Permutation.
  - assert ((g ++ [m]) ++ q ++ delete k l ≡ₚ g ++ q ++ l) as ->; [|done].
    rewrite (delete_Permutation l k m Hk) at 2. solve_Permutation.
  - etrans; [|exact Hx]. apply submseteq_skips_l, submseteq_skips_l. by apply sublist_submseteq, sublist_delete.
Qed.

Lemma chan_fifo_step x y : chan_step false x y → chan_fifo x → chan_fifo y.
Proof.
  unfold chan_fifo. intros [m s q l g Hq|m s q l g|m s q l g|m s q l g|m s q l g Hb|k m s q l g Hk|k s q l g]; cbn; intros [-> Hx]; try done.
  - split; [done|]. rewrite app_assoc. by apply sublist_app.
  - split; [done|]. by apply sublist_inserts_r.
  - by rewrite <- app_assoc.
  - split; [done|]. etrans; [|exact Hx]. apply sublist_app; [done|]. by apply sublist_cons.
Qed.

Lemma chan_bound_step b x y : chan_step b x y → (length (cQueue x) ≤ peerQueue)%nat → (length (cQueue y) ≤ peerQueue)%nat.
Proof. intros [m s q l g Hq|m s q l g|m s q l g|m s q l g|m s q l g Hb|k m s q l g Hk|k s q l g]; cbn; rewrite ?length_app; cbn; lia. Qed.

(** However many processes send, whatever becomes of their calls, and
    whichever nodes stop and start, the transports act as a separate lossy
    channel for every ordered pair of nodes. *)
Theorem pairs_are_channels addrs l i p : codec_law → (∀ i addr, addrs !! i = Some addr → resolve addr = Some i) →
  rtc (chan_step (existsb is_late l)) (MkChannel [] [] [] []) (channel_of i p (run l (started addrs))).
Proof. intros Hlaw Hr. rewrite <- (started_channel addrs i p). by apply channel_run; [|apply started_addressed|]. Qed.

(** C28: A node gets from another only messages that one sent to it, none more
    often than it was sent; unless a call arrives after its caller gave it up,
    they also come in the order sent. Nothing more than 1024 waits for a
    peer. *)
Theorem delivered_at_most_once addrs l i p (x := channel_of i p (run l (started addrs))) :
  codec_law → (∀ i addr, addrs !! i = Some addr → resolve addr = Some i) →
  cGot x ⊆+ cSent x ∧ (existsb is_late l = false → cGot x `sublist_of` cSent x) ∧ (length (cQueue x) ≤ peerQueue)%nat.
Proof.
  intros Hlaw Hr. assert (Hrun : rtc (chan_step (existsb is_late l)) (MkChannel [] [] [] []) x).
  { subst x. rewrite <- (started_channel addrs i p). by apply channel_run; [|apply started_addressed|]. }
  split_and!.
  - assert (Hx : chan_once x) by (apply (rtc_keeps _ _ _ _ (chan_once_step _) Hrun); constructor).
    etrans; [|exact Hx]. by apply submseteq_inserts_r.
  - intros Hl. rewrite Hl in Hrun.
    assert (Hx : chan_fifo x) by (apply (rtc_keeps _ _ _ _ chan_fifo_step Hrun); split; [done|constructor]).
    etrans; [|exact (proj2 Hx)]. by apply sublist_inserts_r.
  - apply (rtc_keeps _ _ _ _ (chan_bound_step _) Hrun). cbn. lia.
Qed.

(** *** A healthy peer *)

Definition for_peer (p : Z) (msgs : list M) : list M := filter (λ m, To m = Some p) msgs.

Lemma Send_stop msgs (t : Transport) : trStop (Send msgs t) = trStop t.
Proof.
  unfold Send. revert t. induction msgs as [|m msgs IH]; intros t; [done|]. cbn. rewrite IH. unfold Send_one. by repeat case_match.
Qed.

(** With room in the queue every message to the peer is queued, in order. *)
Lemma Send_queues p msgs t pc : (∀ m, m ∈ msgs → is_ok (Marshal m) = true) → codec_law → trPeers t !! p = Some pc →
  (length (pcCh pc) + length (for_peer p msgs) ≤ peerQueue)%nat →
  ∃ pc', trPeers (Send msgs t) !! p = Some pc' ∧ pcAddr pc' = pcAddr pc ∧ length (pcCh pc') = (length (pcCh pc) + length (for_peer p msgs))%nat ∧
    omap decoded (pcCh pc') = omap decoded (pcCh pc) ++ for_peer p msgs.
Proof.
  intros Hm Hlaw. unfold Send. revert t pc. induction msgs as [|m msgs IH]; intros t pc Hpc Hroom.
  { exists pc. split_and!; [done|done|by rewrite Nat.add_0_r|by rewrite app_nil_r]. }
  assert (Hms : ∀ m, m ∈ msgs → is_ok (Marshal m) = true) by (intros; apply Hm; by right). cbn [foldl].
  unfold for_peer in *. rewrite filter_cons in *. destruct (decide (To m = Some p)) as [Hto|Hto]; cbn [length] in *.
  - assert (∃ data, Marshal m = Ok data) as [data HM] by (pose proof (Hm m ltac:(by left)) as Hk; destruct (Marshal m); [by eexists|done]).
    assert (Hdec : decoded data = Some m) by (unfold decoded; by rewrite (Hlaw m data HM)).
    destruct (IH Hms (Send_one t m) (enqueue data pc)) as (pc' & H1 & H2 & H3 & H4).
    + unfold Send_one. rewrite Hto, Hpc, HM. cbn. by rewrite lookup_insert_eq.
    + unfold enqueue. destruct (Nat.ltb_spec (length (pcCh pc)) peerQueue); [|lia]. cbn. rewrite length_app. cbn. lia.
    + exists pc'. rewrite enqueue_addr in H2. unfold enqueue in H3, H4. destruct (Nat.ltb_spec (length (pcCh pc)) peerQueue); [|lia].
      cbn -[omap] in H3, H4. rewrite length_app in H3. cbn in H3. rewrite omap_app in H4. cbn -[omap] in H4.
      split_and!; [done|done|lia|]. rewrite H4, <- app_assoc. f_equal. cbn. by rewrite Hdec.
  - apply IH; [done| |done]. unfold Send_one. destruct (To m) as [to|]; [|done]. destruct (trPeers t !! to); [|done]. destruct (Marshal m); [|done].
    cbn. rewrite lookup_insert_ne; [done|congruence].
Qed.

Lemma turns_deliver i p q w t pc box : wTransports w !! i = Some t → trStop t = false → trPeers t !! p = Some pc → pcCh pc = q →
  resolve (pcAddr pc) = Some p → wNodes w !! p = Some box → (length box + length q ≤ recv_cap)%nat →
  let w' := run (repeat (ATurn i p (Ok tt) Answered) (length q)) w in
  wNodes w' !! p = Some (box ++ omap decoded q) ∧ queue_of i p w' = [].
Proof.
  revert w t pc box. induction q as [|data q IH]; intros w t pc box Ht Hstop Hpc Hq Hr Hbox Hroom.
  { cbn. unfold queue_of. rewrite Ht. cbn. rewrite Hpc. cbn. by rewrite app_nil_r. }
  cbn [length repeat]. set (w1 := act (ATurn i p (Ok tt) Answered) w).
  assert (H1 : ∃ pc1, wTransports w1 !! i = Some (t <| trPeers := <[p := pc1]> (trPeers t) |>) ∧ pcCh pc1 = q ∧ pcAddr pc1 = pcAddr pc ∧
    wNodes w1 !! p = Some (box ++ omap decoded [data])).
  { unfold w1. cbn [act]. rewrite Ht, Hstop, Hpc. unfold sendLoop. rewrite Hq.
    assert (∀ b : bool, (if b then Ok tt else Ok tt : result unit) = Ok tt) as -> by (by intros []).
    cbn -[omap]. unfold call. rewrite Hr. unfold deliver, Server_Step. rewrite Hbox. unfold receive, decoded. cbn [length] in Hroom.
    destruct (Nat.ltb_spec (length box) recv_cap); [|lia].
    destruct (Unmarshal data) as [m|e] eqn:Hu; cbn; rewrite !lookup_insert_eq, Hu; (eexists; split; [reflexivity|]); cbn; rewrite ?app_nil_r; done. }
  destruct H1 as (pc1 & H1 & H2 & H3 & H4). cbn [length] in Hroom.
  destruct (IH w1 _ pc1 (box ++ omap decoded [data]) H1) as [H5 H6]; [done|cbn; by rewrite lookup_insert_eq|done|by rewrite H3|done| |].
  - rewrite length_app. pose proof (length_omap_le decoded [data]). cbn [length] in *. lia.
  - split; [|exact H6]. etrans; [exact H5|]. rewrite <- app_assoc. f_equal. f_equal. by rewrite <- omap_app.
Qed.

(** Messages for a peer that answers all get there. As many turns of its
    sender as messages wait empty the queue into the peer's [recvc], in order,
    what waited before and then what was just sent, as long as both have
    room. *)
Theorem healthy_peer_gets_everything i p msgs w t pc box : codec_law → (∀ m, m ∈ msgs → is_ok (Marshal m) = true) →
  wTransports w !! i = Some t → trStop t = false → trPeers t !! p = Some pc → resolve (pcAddr pc) = Some p → wNodes w !! p = Some box →
  let n := (length (pcCh pc) + length (for_peer p msgs))%nat in (n ≤ peerQueue)%nat → (length box + n ≤ recv_cap)%nat →
  let w' := run (ASend i msgs :: repeat (ATurn i p (Ok tt) Answered) n) w in
  queue_of i p w' = [] ∧ wNodes w' !! p = Some (box ++ omap decoded (pcCh pc) ++ for_peer p msgs).
Proof.
  intros Hlaw Hm Ht Hstop Hpc Hr Hbox n Hq Hroom w'. destruct (Send_queues p msgs t pc Hm Hlaw Hpc Hq) as (pc' & H1 & H2 & H3 & H4).
  set (w1 := act (ASend i msgs) w). assert (E : w' = run (repeat (ATurn i p (Ok tt) Answered) (length (pcCh pc'))) w1).
  { unfold w'. rewrite H3. reflexivity. }
  rewrite E, <- H4. unfold w1. cbn [act]. rewrite Ht. apply and_comm.
  eapply (turns_deliver i p (pcCh pc') _ (Send msgs t) pc' box); [cbn; by rewrite lookup_insert_eq|by rewrite Send_stop|done|done|by rewrite H2|done|lia].
Qed.
End wire.

(** ** A node (consensus/node.go) *)

Record RaftConfig := MkRaftConfig {
  rcID : Z; rcElectionTick : Z; rcHeartbeatTick : Z; rcMaxSizePerMsg : Z; rcMaxInflightMsgs : Z; rcPreVote : bool; rcCheckQuorum : bool }.

Record Ready (M HS SN : Type) := MkReady {
  rdHardState : HS; rdEntries : list Entry; rdSnapshot : SN; rdMessages : list M; rdCommittedEntries : list Entry }.
Arguments MkReady {M HS SN} _ _ _ _ _.
Arguments rdHardState {M HS SN} _.
Arguments rdEntries {M HS SN} _.
Arguments rdSnapshot {M HS SN} _.
Arguments rdMessages {M HS SN} _.
Arguments rdCommittedEntries {M HS SN} _.

(** The library: [L] is its node and the [MemoryStorage] they share; [CC] what a
    configuration change decodes to. *)
Class Raft (L M HS SN CC : Type) := {
  StartNode : RaftConfig → list Z → L;
  Tick : L → L; Step : M → L → L; Propose : list byte → L → result unit * L;
  NextReady : L → option (Ready M HS SN); Advance : L → L; StopRaft : L → L;
  IsEmptyHardState : HS → bool; IsEmptySnap : SN → bool;
  SetHardState : HS → L → L; Append : list Entry → L → L; ApplySnapshot : SN → L → L;
  unmarshalConfChange : EntryType → list byte → option CC; ApplyConfChange : CC → L → L }.

(** A transport takes messages ([Transport] of transport.go). *)
Class Sends (T M : Type) := transport_send : list M → T → T.
#[export] Instance grpc_sends {M} `{Message M} : Sends Transport M := Send.
Definition inmem_sends {M} `{Message M} (from : Z) : Sends (Network M) M := λ msgs nw, route from ((λ m, (To m, m)) <$> msgs) nw.

Section node.
Context {L M HS SN CC F T : Type} `{Raft L M HS SN CC, FSM F, Sends T M}.

Record Config := MkConfig {
  cfgID : Z; cfgPeers : list Z; cfgFSM : option F; cfgTickInterval : Z; cfgElectionTicks : Z; cfgHeartbeatTicks : Z }.
Record Node := MkRaftNode { ndID : Z; ndRaft : L; ndState : Consensus.NodeState F; ndInterval : Z; ndRecvc : list M; ndStopped : bool }.
#[export] Instance eta_Node : Eta Node := λ n, MkRaftNode (ndID n) (ndRaft n) (ndState n) (ndInterval n) (ndRecvc n) (ndStopped n).

Definition or_default (v d : Z) : Z := if v <=? 0 then d else v.

(** A node of the in-process network is also put there ([net_add]). *)
Definition Start (cfg : Config) : result Node :=
  if cfgID cfg =? 0 then Err "consensus: node id must be non-zero"
  else match cfgFSM cfg with
  | None => Err "consensus: FSM is required"
  | Some fsm =>
      let rc := MkRaftConfig (cfgID cfg) (or_default (cfgElectionTicks cfg) 10) (or_default (cfgHeartbeatTicks cfg) 1) 1048576 256 true true in
      Ok (MkRaftNode (cfgID cfg) (StartNode rc (cfgPeers cfg)) (MkNode fsm 0) (or_default (cfgTickInterval cfg) 100000000) [] false)
  end.

(** [applyCommitted]; a configuration change goes to the library. *)
Definition applyEntry (n : Node) (ent : Entry) : Node :=
  let lib := match entType ent with
    | EntryNormal => ndRaft n
    | ty => match unmarshalConfChange ty (entData ent) with Some cc => ApplyConfChange cc (ndRaft n) | None => ndRaft n end
    end in
  n <| ndRaft := lib |> <| ndState := applyCommitted (ndState n) ent |>.

(** The case of a [Ready]. *)
Definition handleReady (rd : Ready M HS SN) (n : Node) (t : T) : Node * T :=
  let n := if IsEmptyHardState (rdHardState rd) then n else n <| ndRaft := SetHardState (rdHardState rd) (ndRaft n) |> in
  let n := if (0 <? length (rdEntries rd))%nat then n <| ndRaft := Append (rdEntries rd) (ndRaft n) |> else n in
  let n := if IsEmptySnap (rdSnapshot rd) then n else n <| ndRaft := ApplySnapshot (rdSnapshot rd) (ndRaft n) |> in
  let t := transport_send (rdMessages rd) t in
  let n := foldl applyEntry n (rdCommittedEntries rd) in
  (n <| ndRaft := Advance (ndRaft n) |>, t).

(** What [run]'s [select] picks, and what other goroutines do to the node. *)
Inductive event := WTick | WRecv | WReady | WStop | EReceive (m : M) | EPropose (data : list byte).

(** A case that is not ready is not picked; the third part is what was handed
    out to be applied. *)
Definition turn (e : event) (n : Node) (t : T) : Node * T * list Entry :=
  match e with
  | EReceive m => (n <| ndRecvc := receive (ndRecvc n) m |>, t, [])
  | EPropose data => (n <| ndRaft := (Propose data (ndRaft n)).2 |>, t, [])
  | _ =>
      if ndStopped n then (n, t, []) else
      match e with
      | WTick => (n <| ndRaft := Tick (ndRaft n) |>, t, [])
      | WRecv => match ndRecvc n with [] => (n, t, []) | m :: q => (n <| ndRecvc := q |> <| ndRaft := Step m (ndRaft n) |>, t, []) end
      | WReady => match NextReady (ndRaft n) with None => (n, t, []) | Some rd => (handleReady rd n t, rdCommittedEntries rd) end
      | _ => (n <| ndRaft := StopRaft (ndRaft n) |> <| ndStopped := true |>, t, [])
      end
  end.

Fixpoint live (es : list event) (n : Node) (t : T) : Node * T * list Entry :=
  match es with
  | [] => (n, t, [])
  | e :: es => let '(n, t, out) := turn e n t in let '(n, t, out') := live es n t in (n, t, out ++ out')
  end.

Lemma applyEntries_state n es : ndState (foldl applyEntry n es) = apply_log (ndState n) es.
Proof. revert n. induction es as [|e es IH]; intros n; [done|]. cbn. by rewrite IH. Qed.

Lemma turn_state e n t : ndState (turn e n t).1.1 = apply_log (ndState n) (turn e n t).2.
Proof.
  destruct e; cbn; try done; destruct (ndStopped n); cbn; try done.
  - by destruct (ndRecvc n).
  - destruct (NextReady (ndRaft n)) as [rd|]; [|done]. cbn. rewrite applyEntries_state. by repeat case_match.
Qed.

Lemma live_state es n t : ndState (live es n t).1.1 = apply_log (ndState n) (live es n t).2.
Proof.
  revert n t. induction es as [|e es IH]; intros n t; [done|]. cbn [live]. pose proof (turn_state e n t) as He.
  destruct (turn e n t) as [[n1 t1] out]. pose proof (IH n1 t1) as Hl. destruct (live es n1 t1) as [[n2 t2] out']. cbn [fst snd] in *.
  by rewrite Hl, He, apply_log_app.
Qed.

(** A log counts its entries upwards from one. *)
Definition indexed (log : list Entry) : Prop := ∀ k e, log !! k = Some e → entIndex e = Z.of_nat (S k).

Lemma applied_index (n : Consensus.NodeState F) log : indexed log → nApplied n = 0 → nApplied (apply_log n log) = Z.of_nat (length log).
Proof.
  induction log as [|e log IH] using rev_ind; intros Hl Hn; [done|]. rewrite apply_log_app. change (apply_log (apply_log n log) [e]) with (applyCommitted (apply_log n log) e).
  unfold applyCommitted. cbn [nApplied].
  rewrite IH; [| |done].
  - rewrite (Hl (length log) e) by (rewrite lookup_app_r, Nat.sub_diag; done). rewrite length_app. cbn. destruct (Z.gtb_spec (Z.of_nat (S (length log))) (Z.of_nat (length log))); lia.
  - intros k e' Hk. apply Hl. rewrite lookup_app_l; [done|]. by eapply lookup_lt_Some.
Qed.

Lemma indexed_prefix l log : l `prefix_of` log → indexed log → indexed l.
Proof. intros [r ->] Hl k e Hk. apply Hl. rewrite lookup_app_l; [done|]. by eapply lookup_lt_Some. Qed.

Lemma Start_fsm cfg n : Start cfg = Ok n → ∃ f, cfgFSM cfg = Some f ∧ ndState n = MkNode f 0.
Proof. unfold Start. destruct (_ =? _); [done|]. destruct (cfgFSM cfg) as [f|]; [|done]. intros [= <-]. by exists f. Qed.

Lemma one_log cfg1 cfg2 n1 n2 t1 t2 es1 es2 log (r1 := live es1 n1 t1) (r2 := live es2 n2 t2) :
  Start cfg1 = Ok n1 → Start cfg2 = Ok n2 → cfgFSM cfg1 = cfgFSM cfg2 → indexed log → r1.2 `prefix_of` log → r2.2 `prefix_of` log →
  nApplied (ndState r1.1.1) ≤ nApplied (ndState r2.1.1) → ∃ rest, r2.2 = r1.2 ++ rest ∧ ndState r2.1.1 = apply_log (ndState r1.1.1) rest.
Proof.
  intros S1 S2 Hf Hlog P1 P2. destruct (Start_fsm _ _ S1) as (f & F1 & E1), (Start_fsm _ _ S2) as (f' & F2 & E2).
  rewrite Hf, F2 in F1. injection F1 as ->. unfold r1, r2. rewrite !live_state, E1, E2.
  rewrite !applied_index by (done || by eapply indexed_prefix). intros Hle.
  destruct (prefix_weak_total _ _ _ P1 P2) as [[rest Hr]|[rest Hr]]; fold r1 in Hr; fold r2 in Hr.
  - exists rest. unfold r1, r2 in *. rewrite Hr. split; [done|]. apply apply_log_app.
  - exists []. unfold r1, r2 in *. rewrite Hr, length_app in Hle. assert (rest = []) as -> by (apply length_zero_iff_nil; lia).
    by rewrite Hr, !app_nil_r.
Qed.

(** The nodes of a cluster apply one log. Whatever each of them ticked,
    received, proposed and was sent, and whenever it stopped, as long as Raft
    hands out prefixes of one log: of two nodes, the machine of the one that has
    applied more is the other's after the entries between; nodes that applied
    the same index have the same machine. *)
Theorem nodes_apply_one_log cfg1 cfg2 n1 n2 t1 t2 es1 es2 log (r1 := live es1 n1 t1) (r2 := live es2 n2 t2) :
  Start cfg1 = Ok n1 → Start cfg2 = Ok n2 → cfgFSM cfg1 = cfgFSM cfg2 → indexed log → r1.2 `prefix_of` log → r2.2 `prefix_of` log →
  (nApplied (ndState r1.1.1) ≤ nApplied (ndState r2.1.1) → ∃ rest, ndState r2.1.1 = apply_log (ndState r1.1.1) rest) ∧
  (nApplied (ndState r1.1.1) = nApplied (ndState r2.1.1) → nFsm (ndState r1.1.1) = nFsm (ndState r2.1.1)).
Proof.
  intros S1 S2 Hf Hlog P1 P2. split.
  - intros Hle. destruct (one_log cfg1 cfg2 n1 n2 t1 t2 es1 es2 log S1 S2 Hf Hlog P1 P2 Hle) as (rest & _ & Hr). by exists rest.
  - intros He. destruct (one_log cfg1 cfg2 n1 n2 t1 t2 es1 es2 log S1 S2 Hf Hlog P1 P2) as (rest & Ho & Hr); [fold r1 r2; lia|].
    fold r1 r2 in Ho, Hr. assert (Hd : rest = []); [|rewrite Hr, Hd; done].
    destruct (Start_fsm _ _ S1) as (f & _ & E1), (Start_fsm _ _ S2) as (f' & _ & E2).
    unfold r1, r2 in *. rewrite !live_state, E1, E2, !applied_index in He by (done || by eapply indexed_prefix).
    rewrite Ho, length_app in He. apply length_zero_iff_nil. lia.
Qed.
End node.

(** ** Examples *)

#[local] Instance demo_message : Message (option Z * string) := {|
  To := fst; Marshal m := Ok (pos_bytes (encode m));
  Unmarshal b := match bytes_pos b ≫= decode with Some m => Ok m | None => Err "proto: cannot parse invalid wire-format data" end |}.

Lemma demo_codec_law : codec_law (M := option Z * string).
Proof. intros m b [= <-]. cbn -[encode decode]. by rewrite bytes_pos_bytes; cbn -[encode decode]; rewrite decode_encode. Qed.

Definition two_addrs : gmap Z string := {[1 := "a:1"; 2 := "b:1"]}.
Definition two_hosts (addr : string) : option Z := if String.eqb addr "a:1" then Some 1 else if String.eqb addr "b:1" then Some 2 else None.
Definition late_run : list (action (M := option Z * string)) :=
  [ASend 1 [(Some 2, "x"); (Some 2, "y"); (None, "z"); (Some 3, "u")]; ATurn 1 2 (Ok tt) Late; ATurn 1 2 (Ok tt) Answered; ALate 0].
Definition late_channel : channel := channel_of 1 2 (run two_hosts late_run (started two_addrs)).

Lemma two_hosts_addrs i addr : two_addrs !! i = Some addr → two_hosts addr = Some i.
Proof.
  unfold two_addrs. rewrite lookup_insert. case_decide as E; [intros [= <-]; by subst|]. rewrite lookup_singleton. case_decide; [|done]. intros [= <-]. by subst.
Qed.

(** A call given up by its caller overtakes nothing, it is overtaken. *)
Lemma delivered_at_most_once_witness : snd <$> cGot late_channel = ["y"; "x"] ∧ cGot late_channel ⊆+ cSent late_channel.
Proof.
  split; [vm_compute; reflexivity|]. exact (proj1 (delivered_at_most_once two_hosts two_addrs late_run 1 2 demo_codec_law two_hosts_addrs)).
Defined.

Lemma pairs_are_channels_witness : rtc (chan_step true) (MkChannel [] [] [] []) late_channel.
Proof. exact (pairs_are_channels two_hosts two_addrs late_run 1 2 demo_codec_law two_hosts_addrs). Defined.

Lemma healthy_peer_gets_everything_witness :
  wNodes (run two_hosts [ASend 1 [(Some 2, "x"); (Some 1, "v"); (Some 2, "y")]; ATurn 1 2 (Ok tt) Answered; ATurn 1 2 (Ok tt) Answered] (started two_addrs)) !! 2
  = Some [(Some 2, "x"); (Some 2, "y")].
Proof.
  exact (proj2 (healthy_peer_gets_everything two_hosts 1 2 [(Some 2, "x"); (Some 1, "v"); (Some 2, "y")] (started two_addrs)
    (NewTransport 1 two_addrs) (MkPeer 2 "b:1" [] false) [] demo_codec_law (λ _ _, eq_refl) eq_refl eq_refl eq_refl eq_refl eq_refl
    ltac:(apply Nat.leb_le; reflexivity) ltac:(apply Nat.leb_le; reflexivity))).
Defined.

(** A library that hands out the Readys it is given. *)
#[local] Instance scripted : Raft (list (Ready (option Z * string) unit unit)) (option Z * string) unit unit unit := {|
  StartNode _ _ := [MkReady tt [] tt [] [MkEntry EntryNormal (Command "k" "v") 1]; MkReady tt [] tt [] [MkEntry EntryNormal (Command "k" "w") 2]];
  Tick l := l; Step _ l := l; Propose _ l := (Ok tt, l); NextReady := head; Advance := tail; StopRaft l := l;
  IsEmptyHardState _ := true; IsEmptySnap _ := true; SetHardState _ l := l; Append _ l := l; ApplySnapshot _ l := l;
  unmarshalConfChange _ _ := None; ApplyConfChange _ l := l |}.
Definition node_cfg (id : Z) : Config := MkConfig id [1; 2] (Some NewKVStore) 0 0 0.
Definition kv_log : list Entry := [MkEntry EntryNormal (Command "k" "v") 1; MkEntry EntryNormal (Command "k" "w") 2].
Definition kv_node (id : Z) : Node (L := list (Ready (option Z * string) unit unit)) (M := option Z * string) (F := KVStore) := MkRaftNode id (StartNode (MkRaftConfig id 10 1 1048576 256 true true) [1; 2]) (MkNode NewKVStore 0) 100000000 [] false.

Lemma nodes_apply_one_log_witness :
  let r1 := live [WTick; WReady] (kv_node 1) (NewTransport 1 two_addrs) in
  let r2 := live [WReady; WStop; WReady] (kv_node 2) (NewTransport 2 two_addrs) in
  nFsm (ndState r1.1.1) = nFsm (ndState r2.1.1) ∧ kv_Get "k" (nFsm (ndState r2.1.1)) = Some "v".
Proof.
  split; [|vm_compute; reflexivity].
  refine (proj2 (nodes_apply_one_log (node_cfg 1) (node_cfg 2) (kv_node 1) (kv_node 2)
    (NewTransport 1 two_addrs) (NewTransport 2 two_addrs) [WTick; WReady] [WReady; WStop; WReady] kv_log eq_refl eq_refl eq_refl _ _ _) _); [|by eexists|by eexists|reflexivity].
  intros [|[|k]] e Hk; [by injection Hk as <-..|done].
Defined.
