(* ===== verification/Commit.v ===== *)
(** * The commit protocol (internal/scheduler/commit.go, ReportResult)

    A successful report promotes the worker's staged output, has the decision
    agreed, fires the side effect, and only then marks the task done.  The
    three external parties are interfaces ([Committer], [CommitDecider],
    [SideEffect]); [CommitWorld] states what they promise, and the theorem of
    this file is proved from those promises for every interleaving of
    concurrent reports, scheduler calls, failures and crashes. *)
From S2P Require Import Prelude GoLib Storage Ring Job Keys Scheduler SchedInv Tiling SchedSteps.
From S2P Require Import Accounting Persist.
Open Scope Z_scope.

Record CommitDecision := MkDecision { cdTaskID : string; cdJobID : string; cdGeneration : Z; cdFinalKey : string }.

(** ** The interfaces

    [W] is the state of the world outside the scheduler.  [Decide] may block:
    [None] means that it has not returned in the environment [E] it is
    given. *)
Class Committer (W : Type) := Commit : string → string → W → result unit * W.
Class CommitDecider (W E : Type) := Decide : E → CommitDecision → W → option (result CommitDecision) * W.
Class SideEffect (W : Type) := ApplyEffect : string → CommitDecision → W → result unit * W.

(** Which of the three are attached to the scheduler. *)
Record Attached := MkAttached { hasCommitter : bool; hasDecider : bool; hasEffect : bool }.
#[export] Instance eta_Attached : Eta Attached := λ p,
  MkAttached (hasCommitter p) (hasDecider p) (hasEffect p).

Definition AttachCommitter (p : Attached) : Attached := p <| hasCommitter := true |>.
Definition AttachCommitDecider (p : Attached) : Attached := p <| hasDecider := true |>.
Definition AttachSideEffect (p : Attached) : Attached := p <| hasEffect := true |>.

(** ** The phases of ReportResult between its two locked sections *)

Section report.
Context {W E : Type} `{Committer W, CommitDecider W E, SideEffect W}.

Definition final_key (a : Attempt) : string := FinalResultKey (atJobID a) (atShard a) (atRange a).
Definition effect_key (a : Attempt) : string := SideEffectKey (atJobID a) (atShard a) (atRange a).
Definition succeeded (a : Attempt) : bool := bool_decide (rrError (atReq a) = EmptyString).

(** Phase 2. *)
Definition report_commit (p : Attached) (a : Attempt) (w : W) : result unit * W :=
  if succeeded a && bool_decide (rrOutputKey (atReq a) ≠ EmptyString) && hasCommitter p then
    match Commit (rrOutputKey (atReq a)) (final_key a) w with
    | (Ok _, w') => (Ok tt, w')
    | (Err e, w') => (Err ("commit task " +:+ atTaskID a +:+ " output: " +:+ e), w')
    end
  else (Ok tt, w).

Definition decision_of (a : Attempt) : CommitDecision :=
  MkDecision (atTaskID a) (atJobID a) (atGen a) (final_key a).

(** Phase 3. *)
Definition report_decide (p : Attached) (env : E) (a : Attempt) (w : W)
    : option (result CommitDecision) * W :=
  if succeeded a && hasDecider p then
    match Decide env (decision_of a) w with
    | (Some (Err e), w') => (Some (Err ("commit task " +:+ atTaskID a +:+ " decision: " +:+ e)), w')
    | (r, w') => (r, w')
    end
  else (Some (Ok (decision_of a)), w).

(** Phase 3.5. *)
Definition report_effect (p : Attached) (a : Attempt) (d : CommitDecision) (w : W) : result unit * W :=
  if succeeded a && hasEffect p then
    match ApplyEffect (effect_key a) d w with
    | (Ok _, w') => (Ok tt, w')
    | (Err e, w') => (Err ("apply task " +:+ atTaskID a +:+ " side effect: " +:+ e), w')
    end
  else (Ok tt, w).

(** [ReportResult] when nothing else runs in between; [None] means that it
    is still waiting for the decision. *)
Definition ReportResult (p : Attached) (env : E) (now : Z) (taskID : string) (req : ResultRequest)
    (s : Scheduler) (w : W) : option (result unit) * (Scheduler * W) :=
  match report_begin taskID req s with
  | Err e => (Some (Err e), (s, w))
  | Ok None => (Some (Ok tt), (s, w))
  | Ok (Some a) =>
      match report_commit p a w with
      | (Err e, w) => (Some (Err e), (s, w))
      | (Ok _, w) =>
          match report_decide p env a w with
          | (None, w) => (None, (s, w))
          | (Some (Err e), w) => (Some (Err e), (s, w))
          | (Some (Ok d), w) =>
              match report_effect p a d w with
              | (Err e, w) => (Some (Err e), (s, w))
              | (Ok _, w) =>
                  let '(r, s) := report_finish now taskID req s in (Some r, (s, w))
              end
          end
      end
  end.
End report.

(** ** What the interfaces promise *)

Class CommitWorld (W E : Type) := {
  #[global] cw_commit :: Committer W;
  #[global] cw_decide :: CommitDecider W E;
  #[global] cw_effect :: SideEffect W;
  (** What others may do to the world meanwhile. *)
  cw_env : W → W → Prop;
  (** The keys workers stage their output under. *)
  staging : string → Prop;
  (** An object is visible at this key. *)
  visible : W → string → Prop;
  (** This decision, or one of a newer attempt, is agreed. *)
  agreed : W → CommitDecision → Prop;
  (** The side effect with this idempotency key was taken. *)
  delivered : W → string → Prop;
  (** Nothing that was achieved is undone. *)
  grows (w w' : W) : Prop :=
    (∀ k, ¬ staging k → visible w k → visible w' k) ∧
    (∀ d, agreed w d → agreed w' d) ∧ (∀ k, delivered w k → delivered w' k);
  commit_grows src dst w : staging src → grows w (Commit src dst w).2;
  commit_visible src dst w w' : Commit src dst w = (Ok tt, w') → src ≠ dst → visible w' dst;
  decide_grows env d w : grows w (Decide env d w).2;
  decide_agreed env d d' w w' : Decide env d w = (Some (Ok d'), w') → agreed w' d;
  effect_grows key d w : grows w (ApplyEffect key d w).2;
  effect_delivered key d w w' : ApplyEffect key d w = (Ok tt, w') → delivered w' key;
  env_grows w w' : cw_env w w' → grows w w';
  final_not_staging jobID shard rng : ¬ staging (FinalResultKey jobID shard rng);
}.

#[export] Instance grows_preorder `{CommitWorld W E} : PreOrder grows.
Proof.
  split.
  - intros w. by split_and!.
  - intros w1 w2 w3 (? & ? & ?) (? & ? & ?). split_and!; auto.
Qed.

(** ** Concurrent reports *)

Inductive phase := PCommit | PDecide | PEffect (d : CommitDecision) | PFinish.
Record Call := MkCall { cAtt : Attempt; cPhase : phase }.

Record System (W : Type) := MkSys { sySched : Scheduler; syWorld : W; syCalls : list Call }.
Arguments MkSys {W} _ _ _.
Arguments sySched {W} _.
Arguments syWorld {W} _.
Arguments syCalls {W} _.

Section system.
Context {W E R : Type} `{CommitWorld W E, ShardOwner R}.

(** The next phase of a call, and the world after it; [inl None] when the
    call returned an error. *)
Definition call_step (p : Attached) (env : E) (c : Call) (w : W) : option phase * W :=
  let a := cAtt c in
  match cPhase c with
  | PCommit => match report_commit p a w with (Ok _, w') => (Some PDecide, w') | (Err _, w') => (None, w') end
  | PDecide =>
      match report_decide p env a w with
      | (Some (Ok d), w') => (Some (PEffect d), w')
      | (Some (Err _), w') => (None, w')
      | (None, w') => (Some PDecide, w')
      end
  | PEffect d => match report_effect p a d w with (Ok _, w') => (Some PFinish, w') | (Err _, w') => (None, w') end
  | PFinish => (Some PFinish, w)
  end.

(** One step of the whole system.  Reports in flight advance phase by phase
    in any order; a crash loses them and restarts the scheduler from its
    last record.  Workers stage their output before they report success. *)
Inductive sys_step (p : Attached) (mr : Z) : System W → System W → Prop :=
| sys_begin id req a s w calls :
    report_begin id req s = Ok (Some a) →
    (rrError req = EmptyString → rrOutputKey req ≠ EmptyString ∧ staging (rrOutputKey req)) →
    sys_step p mr (MkSys s w calls) (MkSys s w (calls ++ [MkCall a PCommit]))
| sys_call env i c ph w' s w calls :
    calls !! i = Some c → call_step p env c w = (Some ph, w') →
    sys_step p mr (MkSys s w calls) (MkSys s w' (<[i := MkCall (cAtt c) ph]> calls))
| sys_abort env i c w' s w calls :
    calls !! i = Some c → call_step p env c w = (None, w') →
    sys_step p mr (MkSys s w calls) (MkSys s w' (remove_at i calls))
| sys_finish now i c s w calls :
    calls !! i = Some c → cPhase c = PFinish →
    sys_step p mr (MkSys s w calls)
      (MkSys (report_finish now (atTaskID (cAtt c)) (atReq (cAtt c)) s).2 w (remove_at i calls))
| sys_sched (r : R) o s w calls :
    valid_op o s → (∀ now id req, o ≠ OpFinish now id req) →
    sys_step p mr (MkSys s w calls) (MkSys (run_op r o s) w calls)
| sys_env w' s w calls :
    cw_env w w' → sys_step p mr (MkSys s w calls) (MkSys s w' calls)
| sys_crash recs st s w calls :
    store s = Some recs → last recs = Some st →
    sys_step p mr (MkSys s w calls) (MkSys (install_state st ((New mr) <| store := Some recs |>)) w []).

Inductive sys_reachable (p : Attached) (mr : Z) (w0 : W) : System W → Prop :=
| sys_init : sys_reachable p mr w0 (MkSys (New mr) w0 [])
| sys_more x y : sys_reachable p mr w0 x → sys_step p mr x y → sys_reachable p mr w0 y.
End system.

(** ** Where done tasks come from *)

(** Tasks done in [s'] were done in [s]. *)
Definition done_from (s s' : Scheduler) : Prop :=
  ∀ id t', tasks s' !! id = Some t' → tStatus t' = TaskDone →
    ∃ t, tasks s !! id = Some t ∧ tStatus t = TaskDone.

#[export] Instance done_from_preorder : PreOrder done_from.
Proof.
  split.
  - intros s id t Ht Hd. by exists t.
  - intros s1 s2 s3 H12 H23 id t Ht Hd. destruct (H23 id t Ht Hd) as (t2 & Ht2 & Hd2). by apply (H12 id t2).
Qed.

Lemma done_from_same s s' : tasks s' = tasks s → done_from s s'.
Proof. intros E id t. rewrite E. intros. by exists t. Qed.

Lemma done_from_put s id t' :
  (tStatus t' = TaskDone → ∃ t, tasks s !! id = Some t ∧ tStatus t = TaskDone) →
  done_from s (put_task id t' s).
Proof.
  intros Hd x u Hu Hst. unfold put_task in Hu. simpl in Hu. lookup_cases Hu; [by apply Hd|by exists u].
Qed.

Lemma done_from_not s id t' : tStatus t' ≠ TaskDone → done_from s (put_task id t' s).
Proof. intros H. by apply done_from_put. Qed.

Lemma done_from_submit job ps s : done_from s (foldl (submit_task job) s ps).
Proof.
  revert s. induction ps as [|[sh tid] ps IH]; intros s; [reflexivity|]. simpl.
  etrans; [|apply IH]. transitivity (put_task tid (fresh_task job s sh tid) s); [by apply done_from_not|].
  by apply done_from_same.
Qed.

Lemma done_from_rebalance_step now w acc id : done_from acc.2 (rebalance_step now w acc id).2.
Proof.
  destruct acc as [n s]. simpl. destruct (tasks s !! id) as [t|] eqn:Ht; [|reflexivity].
  case_bool_decide; [reflexivity|]. destruct (in_flight t); [|reflexivity]. simpl.
  destruct (tRetries t <? tMaxRetries t); simpl.
  - etrans; [|by apply done_from_same]. by apply done_from_not.
  - etrans; [|apply done_from_same, tasks_update]. by apply done_from_not.
Qed.

Lemma done_from_drain_step now acc id : done_from acc.2 (drain_step now acc id).2.
Proof.
  destruct acc as [out s]. simpl. destruct (tasks s !! id) as [t|] eqn:Ht; [|reflexivity].
  case_bool_decide; [reflexivity|]. destruct (jobs s !! tJobID t); [|reflexivity].
  fold (drained now (leaseChunk s) t). destruct (drained_fields now (leaseChunk s) t) as (g & E & _).
  case_match; simpl; apply done_from_not; by rewrite E.
Qed.

Lemma done_from_fold {A} (f : A * Scheduler → string → A * Scheduler) acc l :
  (∀ acc x, done_from acc.2 (f acc x).2) → done_from acc.2 (foldl f acc l).2.
Proof.
  intros Hf. apply (foldl_inv (λ x, done_from acc.2 x.2)); [reflexivity|].
  intros y x _ Hy. etrans; [exact Hy|apply Hf].
Qed.

Lemma run_op_done_from {R} `{ShardOwner R} (r : R) o s :
  sched_ok s → (∀ now id req, o ≠ OpFinish now id req) → done_from s (run_op r o s).
Proof.
  intros Hs Hn. destruct o; simpl in *; try (by destruct (Hn now taskID req)); try (by apply done_from_same).
  - unfold Submit. cbn [snd]. etrans; [|apply done_from_same, tasks_persist].
    etrans; [|by apply done_from_same].
    etrans; [|apply done_from_submit]. by apply done_from_same.
  - destruct (PollTasks_outcome r now order newID workerID s Hs) as (a & _ & Hout).
    destruct Hout as [k tid t j _ _ Ht _ _|vid t j split _ _ Ht [Hf _] _ _ _ _ _|]; [| |reflexivity];
      (etrans; [|apply done_from_same, tasks_persist]).
    + transitivity (s <| pendingQ := remove_at k (pendingQ s) |>); [by apply done_from_same|].
      apply done_from_not. by rewrite assigned_status.
    + etrans; [|apply done_from_same, tasks_bump]. transitivity (put_task vid (shrunk_victim t split) s).
      * apply done_from_put. intros Hd. by exists t.
      * apply done_from_not. by rewrite assigned_status.
  - unfold StartTask. case_match; [|reflexivity]. etrans; [|apply done_from_same, tasks_persist].
    by apply done_from_not.
  - unfold RenewLease. destruct (tasks s !! taskID) as [t|] eqn:Ht; [|reflexivity].
    etrans; [|apply done_from_same, tasks_persist]. apply done_from_put. intros Hd. exists t. split; [done|].
    by destruct (renew_keeps (leaseChunk s) req t) as (? & ? & ? & E & _); rewrite E in Hd.
  - unfold RebalanceWorker.
    pose proof (done_from_fold (rebalance_step now workerID) (0%nat, s) order
      (done_from_rebalance_step now workerID)) as Hd.
    destruct (foldl _ _ order) as [n s']. simpl in Hd. case_match; [|done].
    etrans; [exact Hd|apply done_from_same, tasks_persist].
  - unfold DrainPending. set (m := if n >? _ then _ else n).
    destruct (m =? 0); [reflexivity|]. destruct (m <? 0); [reflexivity|].
    match goal with |- context [foldl ?f (?o, ?s0) ?ids] =>
      pose proof (done_from_fold f (o, s0) ids (done_from_drain_step now)) as Hd end.
    destruct (foldl _ _ _) as [out s']. cbn [snd] in *. etrans; [|apply done_from_same, tasks_persist].
    etrans; [|exact Hd]. by apply done_from_same.
  - unfold SetLeaseChunk. case_match; by apply done_from_same.
Qed.

(** ** What reaches the record store *)

(** Every record of [s'] was one of [s], or is the state of [s'] itself. *)
Definition records_from (s s' : Scheduler) : Prop :=
  ∀ recs', store s' = Some recs' → ∀ st, st ∈ recs' →
    (∃ recs, store s = Some recs ∧ st ∈ recs) ∨ st = encodeStateLocked s'.

Lemma records_same s s' : store s' = store s → records_from s s'.
Proof. intros E recs' Hr st Hst. left. exists recs'. by rewrite <- E. Qed.

Lemma records_persist s0 s : store s = store s0 → records_from s0 (persistLocked s).
Proof.
  intros E recs' Hr st Hst. unfold persistLocked in *. destruct (store s) as [recs|] eqn:Es; [|congruence].
  simpl in Hr. injection Hr as <-. apply elem_of_app in Hst as [Hst|Hst%list_elem_of_singleton].
  - left. exists recs. by rewrite <- E.
  - by right.
Qed.

Lemma store_hook jid s : store (call_hook jid s) = store s.
Proof. unfold call_hook. by destruct (onJobDone s). Qed.
Lemma store_update now jid s : store (updateJob now jid s) = store s.
Proof. unfold updateJob. destruct (jobs s !! jid); [|done]. repeat case_match; by rewrite ?store_hook. Qed.
Lemma store_bump jid s : store (bump_total jid s) = store s.
Proof. unfold bump_total. by destruct (jobs s !! jid). Qed.

Lemma report_finish_records now id req s : records_from s (report_finish now id req s).2.
Proof.
  unfold report_finish. repeat (case_match; simpl); try (by apply records_same);
    apply records_persist; by rewrite ?store_update.
Qed.

Lemma store_fold {A} (f : A * Scheduler → string → A * Scheduler) acc l :
  (∀ acc x, store (f acc x).2 = store acc.2) → store (foldl f acc l).2 = store acc.2.
Proof.
  intros Hf. apply (foldl_inv (λ x, store x.2 = store acc.2)); [done|]. intros y x _ Hy. by rewrite Hf.
Qed.

Lemma run_op_records {R} `{ShardOwner R} (r : R) o s :
  sched_ok s → records_from s (run_op r o s).
Proof.
  intros Hs. destruct o; simpl.
  - unfold Submit. cbn [snd]. apply records_persist. simpl.
    generalize (zip (submit_shards req) tids). intros ps.
    match goal with |- store (foldl ?f ?s0 ps) = _ => cut (store (foldl f s0 ps) = store s0); [by intros ->|] end.
    apply (foldl_inv (λ x, store x = store s)); [done|]. by intros x [sh tid] _ <-.
  - destruct (PollTasks_outcome r now order newID workerID s Hs) as (a & _ & Hout).
    destruct Hout; [| |by apply records_same]; apply records_persist; by rewrite ?store_bump.
  - unfold StartTask. case_match; [by apply records_persist|by apply records_same].
  - apply report_finish_records.
  - unfold RenewLease. case_match; [by apply records_persist|by apply records_same].
  - unfold RebalanceWorker.
    pose proof (store_fold (rebalance_step now workerID) (0%nat, s) order) as Hst.
    destruct (foldl _ _ order) as [n s']. simpl in Hst.
    assert (store s' = store s) as E.
    { apply Hst. intros [k x] id. simpl. destruct (tasks x !! id); [|done].
      repeat case_match; simpl; by rewrite ?store_update. }
    case_match; [by apply records_persist|by apply records_same].
  - unfold DrainPending. set (m := if n >? _ then _ else n).
    destruct (m =? 0); [by apply records_same|]. destruct (m <? 0); [by apply records_same|].
    match goal with |- context [foldl ?f (?o, ?s0) ?ids] =>
      pose proof (store_fold f (o, s0) ids) as Hst end.
    destruct (foldl _ _ _) as [out s']. cbn [snd] in *. apply records_persist, Hst.
    intros [o x] id. simpl. destruct (tasks x !! id); [|done].
    case_bool_decide; [done|]. destruct (jobs x !! _); [|done]. by case_match.
  - unfold SetLeaseChunk. case_match; by apply records_same.
  - by apply records_same.
  - intros recs' [= <-] st Hst. set_solver.
Qed.

Lemma sched_ok_state s s' :
  same_state s s' → 0 < leaseChunk s' ≤ items_max → sched_ok s → sched_ok s'.
Proof.
  intros (Ej & Et & Eq) Hc [H1 H2 H3 H4 H5 H6 H7 H8 _]. unfold job_count in *.
  split; unfold job_count; rewrite ?Ej, ?Et, ?Eq; done.
Qed.

(** ** Done means committed *)

Section exactly_once.
Context {W E R : Type} `{CommitWorld W E, ShardOwner R}.
Context (p : Attached) (mr : Z).

(** What a done task leaves behind, for the range it was reported with: its
    output at the canonical key, the agreed decision, and its side effect. *)
Definition evidence (w : W) (t : Task) : Prop :=
  ∃ rng gen,
    (hasCommitter p = true → visible w (FinalResultKey (tJobID t) (tShard t) rng)) ∧
    (hasDecider p = true → agreed w (MkDecision (tID t) (tJobID t) gen
                                       (FinalResultKey (tJobID t) (tShard t) rng))) ∧
    (hasEffect p = true → delivered w (SideEffectKey (tJobID t) (tShard t) rng)).

Lemma evidence_grows w w' t : grows w w' → evidence w t → evidence w' t.
Proof.
  intros (Hv & Ha & Hd) (rng & gen & H1 & H2 & H3). exists rng, gen. split_and!; auto.
  intros Hc. apply Hv; [apply final_not_staging|auto].
Qed.

(** What a call in flight has achieved. *)
Record call_ok (w : W) (c : Call) : Prop := {
  co_staged : succeeded (cAtt c) = true →
    rrOutputKey (atReq (cAtt c)) ≠ EmptyString ∧ staging (rrOutputKey (atReq (cAtt c)));
  co_visible : cPhase c ≠ PCommit → succeeded (cAtt c) = true → hasCommitter p = true →
    visible w (final_key (cAtt c));
  co_agreed : cPhase c ≠ PCommit → cPhase c ≠ PDecide → succeeded (cAtt c) = true →
    hasDecider p = true → agreed w (decision_of (cAtt c));
  co_delivered : cPhase c = PFinish → succeeded (cAtt c) = true →
    hasEffect p = true → delivered w (effect_key (cAtt c));
}.

Lemma call_ok_grows w w' c : grows w w' → call_ok w c → call_ok w' c.
Proof.
  intros (Hv & Ha & Hd) [H1 H2 H3 H4]. split; auto.
  intros. apply Hv; [apply final_not_staging|auto].
Qed.

Lemma call_step_ok env c w o w' :
  call_ok w c → call_step p env c w = (o, w') →
  grows w w' ∧ ∀ ph, o = Some ph → call_ok w' (MkCall (cAtt c) ph).
Proof.
  intros Hc Hstep. pose proof Hc as [H1 H2 H3 H4]. unfold call_step in Hstep.
  destruct (cPhase c) as [| |d|] eqn:Hph.
  - unfold report_commit in Hstep. destruct (succeeded (cAtt c)) eqn:Hsu; simpl in Hstep.
    2:{ simplify_eq. split; [reflexivity|]. intros ph [= <-]. split; simpl; congruence. }
    destruct (H1 eq_refl) as [Hne Hstg].
    case_bool_decide; simpl in Hstep; [|done].
    destruct (hasCommitter p) eqn:Hp.
    2:{ simplify_eq. split; [reflexivity|]. intros ph [= <-]. split; simpl; done || congruence. }
    pose proof (commit_grows (rrOutputKey (atReq (cAtt c))) (final_key (cAtt c)) w Hstg) as Hg.
    destruct (Commit _ _ w) as [[[]|e] w1] eqn:Ec; simplify_eq; (split; [exact Hg|]); [|done].
    intros ph [= <-]. split; simpl; try done. intros _ _ _. eapply commit_visible; [done|].
    intros Heq. rewrite Heq in Hstg. by apply final_not_staging in Hstg.
  - unfold report_decide in Hstep. destruct (succeeded (cAtt c)) eqn:Hsu; simpl in Hstep.
    2:{ simplify_eq. split; [reflexivity|]. intros ph [= <-]. split; simpl; congruence. }
    destruct (hasDecider p) eqn:Hp.
    2:{ simplify_eq. split; [reflexivity|]. intros ph [= <-]. split; simpl; auto; congruence. }
    pose proof (decide_grows env (decision_of (cAtt c)) w) as Hg.
    destruct (Decide env _ w) as [[[d|e]|] w1] eqn:Ed; simplify_eq; (split; [exact Hg|]); try done.
    + intros ph [= <-]. split; simpl; try done.
      * by rewrite Hsu.
      * intros _ _ Hhc. destruct Hg as (Hv & _). apply Hv; [apply final_not_staging|auto].
      * intros _ _ _ _. by eapply decide_agreed.
    + intros ph [= <-]. apply (call_ok_grows w); [exact Hg|]. destruct c; simpl in *. by subst.
  - unfold report_effect in Hstep. destruct (succeeded (cAtt c)) eqn:Hsu; simpl in Hstep.
    2:{ simplify_eq. split; [reflexivity|]. intros ph [= <-]. split; simpl; congruence. }
    destruct (hasEffect p) eqn:Hp.
    2:{ simplify_eq. split; [reflexivity|]. intros ph [= <-]. split; simpl; auto; congruence. }
    pose proof (effect_grows (effect_key (cAtt c)) d w) as Hg.
    destruct (ApplyEffect _ d w) as [[[]|e] w1] eqn:Ed; simplify_eq; (split; [exact Hg|]); [|done].
    intros ph [= <-]. destruct Hg as (Hv & Ha & _). split; simpl; try done.
    + by rewrite Hsu.
    + intros _ _ Hhc. apply Hv; [apply final_not_staging|auto].
    + intros _ _ _ Hhd. apply Ha. auto.
    + intros _ _ _. by eapply effect_delivered.
  - simplify_eq. split; [reflexivity|]. intros ph [= <-]. destruct c; simpl in *. by subst.
Qed.

Record sys_ok (y : System W) : Prop := {
  so_sched : sched_ok (sySched y);
  so_calls : ∀ c, c ∈ syCalls y → call_ok (syWorld y) c ∧
    ∃ t, tasks (sySched y) !! atTaskID (cAtt c) = Some t ∧
      tJobID t = atJobID (cAtt c) ∧ tShard t = atShard (cAtt c);
  so_done : ∀ id t, tasks (sySched y) !! id = Some t → tStatus t = TaskDone → evidence (syWorld y) t;
  so_records : ∀ recs st, store (sySched y) = Some recs → st ∈ recs →
    sched_ok (install_state st (New mr)) ∧
    ∀ t, t ∈ stTasks st → tStatus t = TaskDone → evidence (syWorld y) t;
}.

Lemma encode_rec_ok s w :
  sched_ok s → (∀ id t, tasks s !! id = Some t → tStatus t = TaskDone → evidence w t) →
  sched_ok (install_state (encodeStateLocked s) (New mr)) ∧
  ∀ t, t ∈ stTasks (encodeStateLocked s) → tStatus t = TaskDone → evidence w t.
Proof.
  intros Hs Hd. split.
  - apply (sched_ok_state s); [by apply install_record; [|apply encode_record]| |done].
    simpl. unfold defaultLeaseChunk, items_max. lia.
  - intros t Ht Hst. simpl in Ht. apply list_elem_of_fmap in Ht as ([id u] & -> & Hu).
    apply elem_of_map_to_list in Hu. by eapply Hd.
Qed.

(** A change of the scheduler that creates no done task without evidence. *)
Lemma sys_sched_ok s s' w calls calls' :
  sys_ok (MkSys s w calls) → sched_ok s' → (∀ c, c ∈ calls' → c ∈ calls) →
  evolves task_step s s' → records_from s s' →
  (∀ id t, tasks s' !! id = Some t → tStatus t = TaskDone → evidence w t) →
  sys_ok (MkSys s' w calls').
Proof.
  intros [Hs Hc Hd Hr] Hs' Hsub Hev Hrec Hd'. simpl in *. split; simpl; try done.
  - intros c Hin. destruct (Hc c (Hsub c Hin)) as (Hok & t & Ht & Hj & Hsh). split; [done|].
    destruct (Hev _ t Ht) as (t' & Ht' & Hst%task_steps_mono). destruct Hst. exists t'.
    split_and!; [done|congruence|congruence].
  - intros recs st Hst Hin. destruct (Hrec recs Hst st Hin) as [(recs0 & Hrecs0 & Hin0)| ->].
    + by apply (Hr recs0).
    + by apply encode_rec_ok.
Qed.

(** The world may always move on. *)
Lemma sys_world_ok s w w' calls calls' :
  sys_ok (MkSys s w calls) → grows w w' →
  (∀ c, c ∈ calls' → (∃ c0, c0 ∈ calls ∧ cAtt c0 = cAtt c) ∧ call_ok w' c) →
  sys_ok (MkSys s w' calls').
Proof.
  intros [Hs Hc Hd Hr] Hg Hcalls. simpl in *. split; simpl; try done.
  - intros c Hin. destruct (Hcalls c Hin) as ((c0 & Hin0 & Ea) & Hok). split; [done|].
    rewrite <- Ea. apply (Hc c0 Hin0).
  - intros id t Ht Hst. eapply evidence_grows; [done|by eapply Hd].
  - intros recs st Hst Hin. destruct (Hr recs st Hst Hin) as [? Hev]. split; [done|].
    intros t Ht Htd. eapply evidence_grows; [done|by eapply Hev].
Qed.

Lemma report_finish_done now a w s t id :
  sched_ok s → tasks s !! atTaskID a = Some t → tJobID t = atJobID a → tShard t = atShard a →
  call_ok w (MkCall a PFinish) →
  (∀ id t, tasks s !! id = Some t → tStatus t = TaskDone → evidence w t) →
  ∀ t', tasks (report_finish now (atTaskID a) (atReq a) s).2 !! id = Some t' →
    tStatus t' = TaskDone → evidence w t'.
Proof.
  intros Hs Ht Hj Hsh [_ Hv Ha He] Hd t'. unfold report_finish. rewrite Ht.
  case_bool_decide; [by apply Hd|]. case_bool_decide as Herr.
  - simpl. destruct (tRetries t <? tMaxRetries t); simpl; rewrite tasks_persist, ?tasks_update; simpl;
      intros Ht' Hst; (lookup_cases Ht'; by eapply Hd).
  - simpl. rewrite tasks_persist, tasks_update. simpl. intros Ht' Hst.
    lookup_cases Ht'; [|by eapply Hd]. simpl in *.
    assert (succeeded a = true) as Hsu by (unfold succeeded; by apply bool_decide_eq_true).
    exists (atRange a), (atGen a). simpl. rewrite Hj, Hsh, (ok_task_id _ Hs _ _ Ht).
    split_and!; auto.
Qed.

Lemma sys_step_ok x y : sys_ok x → sys_step (R:=R) p mr x y → sys_ok y.
Proof.
  intros Hx Hstep.
  destruct Hstep as [id req a s w calls Hb Hreq|env i c ph w' s w calls Hi Hcs|env i c w' s w calls Hi Hcs|
    now i c s w calls Hi Hph|r o s w calls Hv Hn|w' s w calls Henv|recs st s w calls Hst Hlast].
  - destruct Hx as [Hs Hc Hd Hr]. simpl in *. split; simpl; try done.
    intros c [Hin| ->%list_elem_of_singleton]%elem_of_app; [by apply Hc|].
    unfold report_begin in Hb. destruct (tasks s !! id) as [t|] eqn:Ht; [|done].
    case_bool_decide; [done|]. injection Hb as <-. simpl. split; [|by exists t].
    split; simpl; try done. unfold succeeded. simpl. intros Hsu%bool_decide_eq_true. by apply Hreq.
  - pose proof (so_calls _ Hx c ltac:(by eapply list_elem_of_lookup_2)) as [Hok _]. simpl in Hok.
    destruct (call_step_ok env c w _ w' Hok Hcs) as [Hg Hph].
    apply (sys_world_ok s w w' calls); [done|done|]. intros c' [j Hj]%list_elem_of_lookup.
    apply list_lookup_insert_Some in Hj as [(-> & <- & _)|[_ Hj]].
    + split; [exists c; split; [by eapply list_elem_of_lookup_2|done]|by apply Hph].
    + apply list_elem_of_lookup_2 in Hj. split; [by exists c'|].
      eapply call_ok_grows; [done|]. by apply (so_calls _ Hx).
  - pose proof (so_calls _ Hx c ltac:(by eapply list_elem_of_lookup_2)) as [Hok _]. simpl in Hok.
    destruct (call_step_ok env c w _ w' Hok Hcs) as [Hg _].
    apply (sys_world_ok s w w' calls); [done|done|]. intros c' Hin%remove_at_elem_of.
    split; [by exists c'|]. eapply call_ok_grows; [done|]. by apply (so_calls _ Hx).
  - pose proof (so_sched _ Hx) as Hs.
    pose proof (so_calls _ Hx c ltac:(by eapply list_elem_of_lookup_2)) as [Hok (t & Ht & Hj & Hsh)].
    simpl in *. apply (sys_sched_ok s _ w calls); [done|by apply report_finish_ok| | | |].
    + intros c'. apply remove_at_elem_of.
    + eapply evolves_mono; [|apply evolves_finish]. by right.
    + apply report_finish_records.
    + intros id' t'. eapply report_finish_done; try done; [|apply Hx]. destruct c; simpl in *. by subst.
  - pose proof (so_sched _ Hx) as Hs. simpl in Hs. apply (sys_sched_ok s _ w calls); try done.
    + by apply run_op_ok.
    + by apply run_op_evolves.
    + by apply run_op_records.
    + intros id t Ht Hdone. destruct (run_op_done_from r o s Hs Hn id t Ht Hdone) as (t0 & Ht0 & Hd0).
      pose proof (so_done _ Hx id t0 Ht0 Hd0) as (rng & gen & H1 & H2 & H3). simpl in *.
      destruct (run_op_evolves r o s Hs Hv id t0 Ht0) as (t1 & Ht1 & Hm%task_steps_mono).
      rewrite Ht in Ht1. injection Ht1 as <-. destruct Hm as [Ei Ej Es].
      exists rng, gen. by rewrite Ei, Ej, Es.
  - apply (sys_world_ok s w w' calls); [done|by apply env_grows|]. intros c Hin. split; [by exists c|].
    eapply call_ok_grows; [by apply env_grows|]. by apply (so_calls _ Hx).
  - apply last_Some_elem_of in Hlast.
    destruct (so_records _ Hx recs st Hst Hlast) as [Hs Hev]. simpl in *. split; simpl.
    + apply (sched_ok_state (install_state st (New mr))); [done|apply (ok_chunk _ Hs)|done].
    + set_solver.
    + intros id t Ht Hdone. apply Hev; [|done].
      by apply (by_key_elem tID) in Ht as [?|He]; [|rewrite lookup_empty in He].
    + intros recs' st' [= <-] Hin. by apply (so_records _ Hx recs).
Qed.
End exactly_once.

Section guarantees.
Context {W E R : Type} `{CommitWorld W E, ShardOwner R}.

Lemma sys_reachable_ok p mr w0 y : sys_reachable (R:=R) p mr w0 y → sys_ok p mr y.
Proof.
  induction 1 as [|x y _ IH Hstep]; [|by eapply sys_step_ok].
  split; simpl; [apply New_ok|set_solver|intros id t; by rewrite lookup_empty|done].
Qed.

(** A predicate of the world that every phase and the environment keep. *)
Lemma sys_world_inv (I : W → Prop) p mr w0 y :
  I w0 → (∀ w w', I w → cw_env w w' → I w') →
  (∀ env c w o w', I w → call_step p env c w = (o, w') → I w') →
  sys_reachable (R:=R) p mr w0 y → I (syWorld y).
Proof.
  intros Hinit Henv Hcall Hr. induction Hr as [|x y _ IH Hstep]; [done|].
  destruct Hstep; simpl in *; eauto.
Qed.

End guarantees.
