(* ===== verification/K8s.v ===== *)
(** * The Kubernetes operator (k8s/, cmd/operator/, the single-task mode of cmd/worker/)

    The operator drains pending tasks from the coordinator, creates one
    Kubernetes Job per task, and reports the Jobs that end.  The API server is
    an interface: an HTTP request is answered or fails.  JSON documents are the
    values they stand for; the encoder of task descriptions is a parameter. *)
From Stdlib Require Strings.String Strings.Ascii.
From S2P Require Import Prelude GoLib Encoding Ring Membership Job Keys Scheduler SchedInv Tiling Commit Worker.
Open Scope Z_scope.

(** ** Jobs (job_factory.go) *)

Record jobMeta := MkMeta { mtName : string; mtNamespace : string; mtLabels : gmap string string }.
Record envVar := MkEnv { evName : string; evValue : string }.
Record resourceList := MkRes { rlCPU : string; rlMemory : string; rlGPU : string }.
Record resources := MkResources { Requests : resourceList; Limits : resourceList }.
Record container := MkContainer { cnName : string; cnImage : string; cnCommand : list string; cnEnv : list envVar; cnResources : resources }.
Record preferredSchedulingTerm := MkTerm { ptWeight : Z; ptMatch : list (string * string * list string) }.
Definition affinity : Type := list preferredSchedulingTerm.
Record podSpec := MkPodSpec { RestartPolicy : string; Containers : list container; Affinity : option affinity }.
Record podTemplateSpec := MkTemplate { tpMetadata : jobMeta; tpSpec : podSpec }.
Record batchJobSpec := MkJobSpec { BackoffLimit : Z; Template : podTemplateSpec }.
Record batchJob := MkBatchJob { APIVersion : string; Kind : string; bjMetadata : jobMeta; bjSpec : batchJobSpec }.

(** [strings.ReplaceAll(s, "_", "-")] then [strings.ToLower], on ASCII. *)
Definition dash (c : Ascii.ascii) : Ascii.ascii :=
  if Ascii.eqb c (Ascii.ascii_of_N 95) then Ascii.ascii_of_N 45 else c.
Definition lower (c : Ascii.ascii) : Ascii.ascii :=
  let n := Ascii.N_of_ascii c in if (65 <=? n)%N && (n <=? 90)%N then Ascii.ascii_of_N (n + 32) else c.

(** [JobName]; [None] is the panic of slicing fewer than eight bytes. *)
Definition JobName (taskID : string) : option string :=
  let safe := StdEncoding.map_string lower (StdEncoding.map_string dash taskID) in
  let safe := if (55 <? String.length safe)%nat then String.substring 0 55 safe else safe in
  if (String.length safe <? 8)%nat then None else Some ("petabyte-task-" +:+ String.substring 0 8 safe).

(** The nodes that cache the shard. *)
Definition prefers (shard : string) (n : NodeInfo) : bool :=
  bool_decide (NodeName n ≠ "") && bool_decide (shard ∈ CachedShards (Metrics n)).
Definition buildAffinity (shard : string) (nodes : list NodeInfo) : option affinity :=
  match map NodeName (List.filter (prefers shard) nodes) with
  | [] => None
  | preferred => Some [MkTerm 100 [("kubernetes.io/hostname", "In", preferred)]]
  end.

Definition setting (a : TaskAssignment) (key default : string) : string :=
  match aConfig a !! key with Some v => v | None => default end.

Section build.
Context (marshal : TaskAssignment → result (list byte)).

(** [BuildJob]; [None] is a panic. *)
Definition BuildJob (a : TaskAssignment) (image coordinatorURL : string) (nodes : list NodeInfo) : option (result batchJob) :=
  match marshal a with
  | Err e => Some (Err ("marshal task: " +:+ e))
  | Ok taskJSON =>
      let encoded := StdEncoding.EncodeToString taskJSON in
      let res := MkRes (setting a "cpu" "1") (setting a "memory" "2Gi") (setting a "gpu" "") in
      let labels : gmap string string := <["app" := "petabyte-worker"]> (<["task-id" := aTaskID a]>
        (<["job-id" := aJobID a]> {["shard" := aShard a]})) in
      name ← JobName (aTaskID a);
      Some (Ok (MkBatchJob "batch/v1" "Job" (MkMeta name "" labels)
        (MkJobSpec 0 (MkTemplate (MkMeta "" "" labels)
          (MkPodSpec "Never"
             [MkContainer "worker" image ["/worker"; "-single-task"]
                [MkEnv "PETABYTE_TASK_JSON" encoded; MkEnv "PETABYTE_COORDINATOR_URL" coordinatorURL]
                (MkResources res res)]
             (buildAffinity (aShard a) nodes))))))
  end.
End build.

(** The environment a Job's worker starts with, and its single-task mode. *)
Definition pod_env (j : batchJob) (name : string) : string :=
  match List.find (λ e, bool_decide (evName e = name)) (concat (map cnEnv (Containers (tpSpec (Template (bjSpec j)))))) with
  | Some e => evValue e
  | None => ""
  end.

Definition single_task (unmarshal : list byte → result TaskAssignment) (getenv : string → string) : result TaskAssignment :=
  let encoded := getenv "PETABYTE_TASK_JSON" in
  if bool_decide (encoded = "") then Err "PETABYTE_TASK_JSON not set in single-task mode"
  else match StdEncoding.DecodeString encoded with
  | None => Err "decode PETABYTE_TASK_JSON: illegal base64 data"
  | Some raw => match unmarshal raw with Err e => Err ("unmarshal task assignment: " +:+ e) | Ok a => Ok a end
  end.

(** ** The client (client.go) *)

Record Client := MkClient { apiserver : string; token : string; namespace : string }.

Definition inClusterTokenPath : string := "/var/run/secrets/kubernetes.io/serviceaccount/token".
Definition inClusterCAPath : string := "/var/run/secrets/kubernetes.io/serviceaccount/ca.crt".

(** Names of the first three, server, and the users' tokens. *)
Record kubeconfig := MkKubeconfig {
  Clusters : list (string * string); Users : list (string * string);
  Contexts : list (string * (string * string)); CurrentContext : string }.

Definition find_named {A} (name : string) (l : list (string * A)) : option A :=
  snd <$> List.find (λ e, bool_decide (fst e = name)) l.

(** Files, the environment, and the YAML and PEM parsers. *)
Record Machine := MkMachine {
  stat_ok : string → bool; readFile : string → result string; getenv : string → string;
  parse_yaml : string → result kubeconfig; pem_ok : string → bool }.

Definition fromInCluster (m : Machine) (ns : string) : result Client :=
  match readFile m inClusterTokenPath with
  | Err e => Err ("read service account token: " +:+ e)
  | Ok tok =>
      match readFile m inClusterCAPath with
      | Err e => Err ("read cluster CA: " +:+ e)
      | Ok ca =>
          if negb (pem_ok m ca) then Err "parse cluster CA cert"
          else
            let host := getenv m "KUBERNETES_SERVICE_HOST" in
            let port := getenv m "KUBERNETES_SERVICE_PORT" in
            if bool_decide (host = "") || bool_decide (port = "") then Err "KUBERNETES_SERVICE_HOST/PORT not set"
            else Ok (MkClient ("https://" +:+ host +:+ ":" +:+ port) tok ns)
      end
  end.

Definition fromEnv (m : Machine) (ns : string) : result Client :=
  let server := getenv m "KUBE_APISERVER" in
  if bool_decide (server = "") then Err "not in-cluster and KUBE_APISERVER not set"
  else Ok (MkClient server (getenv m "KUBE_TOKEN") ns).

Definition or_blank (o : option string) : string := match o with Some s => s | None => "" end.

Definition fromKubeconfig (m : Machine) (ns path : string) : result Client :=
  match readFile m path with
  | Err e => Err ("read kubeconfig: " +:+ e)
  | Ok data =>
      match parse_yaml m data with
      | Err e => Err ("parse kubeconfig: " +:+ e)
      | Ok kc =>
          let '(clusterName, userName) :=
            match find_named (CurrentContext kc) (Contexts kc) with Some p => p | None => ("", "")%string end in
          let server := or_blank (find_named clusterName (Clusters kc)) in
          let tok := or_blank (find_named userName (Users kc)) in
          if bool_decide (server = "") then Err ("kubeconfig: no server found for context " +:+ fmt_q (CurrentContext kc))
          else Ok (MkClient server tok ns)
      end
  end.

Definition NewClient (m : Machine) (ns kubeconfigPath : string) : result Client :=
  if bool_decide (kubeconfigPath ≠ "") then fromKubeconfig m ns kubeconfigPath
  else if stat_ok m inClusterTokenPath then fromInCluster m ns
  else fromEnv m ns.

(** ** Requests to the API server *)

Inductive body := NoBody | JobBody (j : batchJob) | DeleteBody (propagationPolicy : string).
Record HttpRequest := MkHttpRequest { hqMethod : string; hqURL : string; hqAuth : option string; hqBody : body }.

Record jobStatus := MkJobStatus { stSucceeded : Z; stFailed : Z; stActive : Z; stConditions : list (string * string) }.
Record jobItem := MkJobItem { jiName : string; jiLabels : gmap string string; jiStatus : jobStatus }.
(** The status code, the [message] of an error body, and a body decoded as a
    job list. *)
Record HttpResponse := MkHttpResponse { hrCode : Z; hrMessage : string; hrJobs : result (list jobItem) }.

Class APIServer (W : Type) := Do : HttpRequest → W → result HttpResponse * W.

Definition newRequest (c : Client) (method path : string) (b : body) : HttpRequest :=
  MkHttpRequest method (apiserver c +:+ path) (if bool_decide (token c = "") then None else Some ("Bearer " +:+ token c)) b.

Definition jobs_path (c : Client) : string := "/apis/batch/v1/namespaces/" +:+ namespace c +:+ "/jobs".

(** ** Results (watcher.go) *)

Inductive JobPhase := JobSucceeded | JobFailed.
#[export] Instance JobPhase_eq_dec : EqDecision JobPhase.
Proof. solve_decision. Defined.
Record JobResult := MkJobResult { jrTaskID : string; jrJobName : string; jrPhase : JobPhase; jrError : string }.

Definition resolvePhase (s : jobStatus) : option (JobPhase * string) :=
  if stSucceeded s >? 0 then Some (JobSucceeded, ""%string)
  else if stFailed s >? 0 then
    if bool_decide (("Failed", "True")%string ∈ stConditions s) then Some (JobFailed, "job backoff limit reached"%string)
    else Some (JobFailed, "job failed"%string)
  else None.

(** What [poll] sends for an item, if it sends anything. *)
Definition item_result (i : jobItem) : option JobResult :=
  match resolvePhase (jiStatus i) with
  | None => None
  | Some (phase, err) =>
      match jiLabels i !! "task-id"%string with
      | None => None
      | Some taskID => if bool_decide (taskID = "") then None else Some (MkJobResult taskID (jiName i) phase err)
      end
  end.

Section client.
Context {W : Type} `{APIServer W}.

Definition CreateJob (c : Client) (job : batchJob) (w : W) : result unit * W :=
  let '(r, w) := Do (newRequest c "POST" (jobs_path c) (JobBody job)) w in
  (match r with
   | Err e => Err ("create job: " +:+ e)
   | Ok resp => if 400 <=? hrCode resp then Err ("k8s " +:+ fmt_d (hrCode resp) +:+ ": " +:+ hrMessage resp) else Ok tt
   end, w).

Definition listWorkerJobs (c : Client) (w : W) : result (list jobItem) * W :=
  let '(r, w) := Do (newRequest c "GET" (jobs_path c +:+ "?labelSelector=app%3Dpetabyte-worker") NoBody) w in
  (match r with
   | Err e => Err e
   | Ok resp =>
       if 400 <=? hrCode resp then Err ("k8s list jobs: status " +:+ fmt_d (hrCode resp))
       else match hrJobs resp with Err e => Err ("decode job list: " +:+ e) | Ok l => Ok l end
   end, w).

(** Any answer counts: its status is not looked at. *)
Definition deleteJob (c : Client) (name : string) (w : W) : result unit * W :=
  let '(r, w) := Do (newRequest c "DELETE" (jobs_path c +:+ "/" +:+ name) (DeleteBody "Foreground")) w in
  (match r with Err e => Err e | Ok _ => Ok tt end, w).

(** The results sent, and the world after the deletions. *)
Definition poll_item (c : Client) (acc : list JobResult * W) (i : jobItem) : list JobResult * W :=
  let '(sent, w) := acc in
  match item_result i with
  | None => acc
  | Some r => (sent ++ [r], (deleteJob c (jiName i) w).2)
  end.
Definition poll (c : Client) (w : W) : list JobResult * W :=
  let '(r, w) := listWorkerJobs c w in
  match r with
  | Err _ => ([], w)
  | Ok items => foldl (poll_item c) ([], w) items
  end.

(** ** The operator (cmd/operator/main.go) *)

Record OperatorConfig := MkOperatorConfig { ocCoordinatorURL : string; ocWorkerImage : string; ocMaxJobsPerCycle : Z }.

Definition activeNodes (nodes : list NodeInfo) : list NodeInfo := List.filter (λ n, bool_decide (State n = NodeActive)) nodes.

(** One assignment of [cycle]; [None] is a panic. *)
Definition cycle_one (marshal : TaskAssignment → result (list byte)) (cfg : OperatorConfig) (c : Client) (nodes : list NodeInfo)
    (a : TaskAssignment) (w : W) : option (result unit) * W :=
  match BuildJob marshal a (ocWorkerImage cfg) (ocCoordinatorURL cfg) nodes with
  | None => (None, w)
  | Some (Err e) => (Some (Err e), w)
  | Some (Ok job) => let '(r, w) := CreateJob c job w in (Some r, w)
  end.

(** The loop of [cycle]: what is logged for each assignment. *)
Fixpoint cycle_loop (marshal : TaskAssignment → result (list byte)) (cfg : OperatorConfig) (c : Client) (nodes : list NodeInfo)
    (l : list TaskAssignment) (w : W) : option (list (string * result unit)) * W :=
  match l with
  | [] => (Some [], w)
  | a :: l =>
      match cycle_one marshal cfg c nodes a w with
      | (None, w) => (None, w)
      | (Some r, w) => let '(logs, w) := cycle_loop marshal cfg c nodes l w in ((λ logs, (aTaskID a, r) :: logs) <$> logs, w)
      end
  end.

(** [drained] and [nodes] are the coordinator's answers. *)
Definition cycle (marshal : TaskAssignment → result (list byte)) (cfg : OperatorConfig) (c : Client)
    (drained : result (list TaskAssignment)) (nodes : result (list NodeInfo)) (w : W) : option (result (list (string * result unit))) * W :=
  match drained with
  | Err e => (Some (Err ("drain pending: " +:+ e)), w)
  | Ok [] => (Some (Ok []), w)
  | Ok l =>
      let ns := match nodes with Ok ns => activeNodes ns | Err _ => [] end in
      let '(logs, w) := cycle_loop marshal cfg c ns l w in (Ok <$> logs, w)
  end.
End client.

(** The request [reportResults] posts for a finished Job. *)
Definition operator_request (r : JobResult) : ResultRequest :=
  let errMsg := match jrPhase r with
    | JobFailed => if bool_decide (jrError r = "") then "k8s job failed"%string else jrError r
    | JobSucceeded => ""%string
    end in
  MkResult "k8s-operator" 0 0 "" 0 errMsg.

(** ** Names *)

Lemma substring_append n : ∀ a, (n ≤ String.length a)%nat → String.length (String.substring 0 n a) = n.
Proof. induction n as [|n IH]; intros [|x a] Hn; cbn in *; try lia. by rewrite IH by lia. Qed.

Lemma substring_map f : ∀ n m a, String.substring n m (StdEncoding.map_string f a) = StdEncoding.map_string f (String.substring n m a).
Proof.
  intros n m a. revert n m. induction a as [|x a IH]; intros [|n] [|m]; cbn; try done; [|apply IH..]. by rewrite IH.
Qed.

Lemma substring_twice n m : ∀ a, (n ≤ m)%nat → String.substring 0 n (String.substring 0 m a) = String.substring 0 n a.
Proof.
  revert m. induction n as [|n IH]; intros m a Hn; [by destruct (String.substring 0 m a), a|].
  destruct m as [|m]; [lia|]. destruct a as [|x a]; cbn; [done|]. by rewrite IH by lia.
Qed.

(** The first eight characters decide. *)
Lemma JobName_prefix id : JobName id =
  if (String.length id <? 8)%nat then None
  else Some ("petabyte-task-" +:+ StdEncoding.map_string lower (StdEncoding.map_string dash (String.substring 0 8 id))).
Proof.
  unfold JobName. rewrite <- !substring_map. set (safe := StdEncoding.map_string lower _).
  assert (String.length safe = String.length id) as HL by (unfold safe; by rewrite !StdEncoding.map_string_length).
  destruct (Nat.ltb_spec 55 (String.length safe)).
  - rewrite substring_append, substring_twice by lia. change (55 <? 8)%nat with false. by destruct (Nat.ltb_spec (String.length id) 8); [lia|].
  - by rewrite HL.
Qed.

(** A character a task id may hold, and one a Kubernetes name may hold. *)
Definition id_char (c : Ascii.ascii) : bool :=
  let n := Ascii.N_of_ascii c in
  ((48 <=? n) && (n <=? 57) || (65 <=? n) && (n <=? 90) || (97 <=? n) && (n <=? 122) || (n =? 45) || (n =? 95))%N.
Definition name_char (c : Ascii.ascii) : bool :=
  let n := Ascii.N_of_ascii c in ((48 <=? n) && (n <=? 57) || (97 <=? n) && (n <=? 122) || (n =? 45))%N.
Fixpoint all_chars (p : Ascii.ascii → bool) (s : string) : bool :=
  match s with EmptyString => true | String c s => p c && all_chars p s end.

Lemma id_char_name c : id_char c = true → name_char (lower (dash c)) = true.
Proof. destruct c as [[] [] [] [] [] [] [] []]; vm_compute; done. Qed.

Lemma all_chars_app p a b : all_chars p (a +:+ b) = all_chars p a && all_chars p b.
Proof. induction a as [|c a IH]; [done|]. rewrite string_app_cons. cbn. by rewrite IH, andb_assoc. Qed.

Lemma all_chars_prefix p n : ∀ s, all_chars p s = true → all_chars p (String.substring 0 n s) = true.
Proof. induction n as [|n IH]; intros [|c s]; cbn; try done. rewrite !andb_true_iff. intros [-> Hs]. split; [done|by apply IH]. Qed.

Lemma all_chars_names s : all_chars id_char s = true → all_chars name_char (StdEncoding.map_string lower (StdEncoding.map_string dash s)) = true.
Proof. induction s as [|c s IH]; cbn; [done|]. rewrite !andb_true_iff. intros [Hc Hs]. split; [by apply id_char_name|by apply IH]. Qed.

(** The Job's name: 22 characters that Kubernetes accepts, for every task id
    of at least eight letters, digits, hyphens and underscores; a shorter id is a
    panic.  It is made of the id's first eight characters alone, so two tasks
    that agree on those have the same Job name. *)
Theorem job_name_form id : all_chars id_char id = true →
  match JobName id with
  | None => (String.length id < 8)%nat
  | Some n => (8 ≤ String.length id)%nat ∧ String.length n = 22%nat ∧ all_chars name_char n = true ∧
      ∀ id', (8 ≤ String.length id')%nat → String.substring 0 8 id' = String.substring 0 8 id → JobName id' = Some n
  end.
Proof.
  intros Hid. rewrite JobName_prefix. destruct (Nat.ltb_spec (String.length id) 8) as [Hs|Hl]; [done|]. split_and!; [done|..].
  - change "petabyte-task-"%string with (String.append "petabyte-task-" ""). cbn [String.append]. rewrite !string_app_cons, string_app_nil.
    cbn [String.length]. by rewrite !StdEncoding.map_string_length, substring_append by done.
  - rewrite all_chars_app. apply andb_true_iff. split; [by vm_compute|]. by apply all_chars_names, all_chars_prefix.
  - intros id' Hl' E. rewrite JobName_prefix, E. by destruct (Nat.ltb_spec (String.length id') 8); [lia|].
Qed.

Lemma job_name_form_witness :
  JobName "550e8400_29b41d4" = Some "petabyte-task-550e8400"%string ∧ JobName "550e8400-zzz" = Some "petabyte-task-550e8400"%string.
Proof.
  pose proof (job_name_form "550e8400_29b41d4" ltac:(vm_compute; done)) as H. assert (E : JobName "550e8400_29b41d4" = Some "petabyte-task-550e8400"%string) by (by vm_compute).
  rewrite E in H. destruct H as (_ & _ & _ & H). split; [done|]. apply H; vm_compute; [lia|done].
Defined.

(** A Job's pod receives the assignment it was made for: decoding what its
    environment holds gives back the task, when the JSON package reads what it
    wrote; and it reports to the coordinator's address. *)
Theorem pod_receives_assignment marshal unmarshal a image url nodes j raw :
  marshal a = Ok raw → raw ≠ [] → unmarshal raw = Ok a → BuildJob marshal a image url nodes = Some (Ok j) →
  single_task unmarshal (pod_env j) = Ok a ∧ pod_env j "PETABYTE_COORDINATOR_URL" = url ∧
  (mtLabels (bjMetadata j)) !! "task-id"%string = Some (aTaskID a).
Proof.
  intros Hm Hraw Hu Hj. unfold BuildJob in Hj. rewrite Hm in Hj. destruct (JobName (aTaskID a)) as [n|]; [|done]. injection Hj as <-.
  split_and!; [|done|done].
  unfold single_task. match goal with |- context [pod_env ?j "PETABYTE_TASK_JSON"] => change (pod_env j "PETABYTE_TASK_JSON") with (StdEncoding.EncodeToString raw) end.
  cbv zeta. pose proof (StdEncoding.DecodeString_EncodeToString raw) as E. rewrite bool_decide_false, E, Hu; [done|].
  intros E0. rewrite E0 in E. by injection E as <-.
Qed.

Definition demo_task : TaskAssignment := MkAssignment "550e8400-e29b" "job-1" "a3" "train" "resnet" {["memory" := "8Gi"%string]} 0 (-1) 1000 0 false.
Definition demo_json : list byte := bytes_of_string "{task_id: 550e8400-e29b}".
Definition demo_marshal (a : TaskAssignment) : result (list byte) := Ok demo_json.
Definition demo_unmarshal (b : list byte) : result TaskAssignment := if bool_decide (b = demo_json) then Ok demo_task else Err "invalid character".
Definition demo_job : option (result batchJob) := BuildJob demo_marshal demo_task "petabyte-worker:v1" "http://coordinator:8090" [].

Lemma pod_receives_assignment_witness : ∃ j, demo_job = Some (Ok j) ∧ single_task demo_unmarshal (pod_env j) = Ok demo_task.
Proof.
  eexists. split; [reflexivity|].
  apply (pod_receives_assignment demo_marshal demo_unmarshal demo_task "petabyte-worker:v1" "http://coordinator:8090" [] _ demo_json); [done|done| |done].
  unfold demo_unmarshal. by rewrite bool_decide_true.
Defined.

(** ** The watcher *)

Section watcher.
Context {W : Type} `{APIServer W}.

Lemma poll_items_spec c items sent w :
  foldl (poll_item c) (sent, w) items =
    (sent ++ omap item_result items, foldl (λ w r, (deleteJob c (jrJobName r) w).2) w (omap item_result items)).
Proof.
  revert sent w. induction items as [|i items IH]; intros sent w; cbn; [by rewrite app_nil_r|].
  destruct (item_result i) as [r|] eqn:E; [|apply IH]. rewrite IH, <- app_assoc. cbn. f_equal. 
  assert (jrJobName r = jiName i) as ->; [|done]. unfold item_result in E. destruct (resolvePhase _) as [[ph e]|]; [|done].
  destruct (jiLabels i !! _); [|done]. case_bool_decide; [done|]. by injection E as <-.
Qed.

(** A poll reports exactly the listed Jobs that ended and name a task, in the
    list's order, a success when some pod succeeded and a failure with its cause
    otherwise, and asks for the deletion of each, in that order.  A list that
    fails reports nothing and deletes nothing. *)
Theorem poll_reports_finished c w (r := listWorkerJobs c w) :
  match r.1 with
  | Err _ => poll c w = ([], r.2)
  | Ok items => poll c w = (omap item_result items, foldl (λ w x, (deleteJob c (jrJobName x) w).2) r.2 (omap item_result items)) ∧
      ∀ x, x ∈ omap item_result items ↔ ∃ i, i ∈ items ∧ jiName i = jrJobName x ∧ jiLabels i !! "task-id"%string = Some (jrTaskID x) ∧
        jrTaskID x ≠ ""%string ∧
        (0 < stSucceeded (jiStatus i) ∧ jrPhase x = JobSucceeded ∧ jrError x = ""%string ∨
         stSucceeded (jiStatus i) ≤ 0 ∧ 0 < stFailed (jiStatus i) ∧ jrPhase x = JobFailed ∧
           jrError x = if bool_decide (("Failed", "True")%string ∈ stConditions (jiStatus i)) then "job backoff limit reached"%string else "job failed"%string)
  end.
Proof.
  subst r. unfold poll. destruct (listWorkerJobs c w) as [[items|e] w1]; cbn [fst snd]; [|done]. split; [by rewrite poll_items_spec|].
  intros x. rewrite list_elem_of_omap. apply exist_proper. intros i. apply and_iff_compat_l. unfold item_result, resolvePhase. rewrite !Z.gtb_ltb.
  destruct (Z.ltb_spec 0 (stSucceeded (jiStatus i))).
  - destruct (jiLabels i !! "task-id"%string) as [t|]; [|naive_solver]. case_bool_decide; [naive_solver|]. split; [intros [= <-]; cbn; naive_solver|].
    destruct x. cbn. intros (<- & [= <-] & _ & [(_ & -> & ->)|(? & _)]); [done|lia].
  - destruct (Z.ltb_spec 0 (stFailed (jiStatus i))); [|split; [done|]; intros (_ & _ & _ & [(? & _)|(_ & ? & _)]); lia].
    set (err := if bool_decide _ then "job backoff limit reached"%string else "job failed"%string).
    assert ((if bool_decide (("Failed", "True")%string ∈ stConditions (jiStatus i)) then Some (JobFailed, "job backoff limit reached"%string) else Some (JobFailed, "job failed"%string)) = Some (JobFailed, err)) as ->
      by (unfold err; by case_bool_decide).
    destruct (jiLabels i !! "task-id"%string) as [t|]; [|naive_solver]. case_bool_decide; [naive_solver|]. split; [intros [= <-]; cbn; naive_solver|].
    destruct x. cbn. intros (<- & [= <-] & _ & [(? & _)|(_ & _ & -> & ->)]); [lia|done].
Qed.

(** A deletion that the API server refuses is taken for done, and the next
    poll reports the same Job again: a failed task is charged another failure
    every interval though nothing ran. *)
Theorem refused_delete_repeats c w items resp code :
  (∀ req w, hqMethod req = "GET"%string → Do req w = (Ok resp, w)) → hrCode resp = 200 → hrJobs resp = Ok items →
  (∀ req w, hqMethod req = "DELETE"%string → Do req w = (Ok (MkHttpResponse code "forbidden" (Err "")), w)) →
  (∀ name, deleteJob c name w = (Ok tt, w)) ∧ poll c w = (omap item_result items, w) ∧ poll c (poll c w).2 = poll c w.
Proof.
  intros Hget Hcode Hjobs Hdel. assert (HD : ∀ name w, deleteJob c name w = (Ok tt, w)) by (intros name w'; unfold deleteJob; by rewrite Hdel).
  assert (HP : poll c w = (omap item_result items, w)).
  { unfold poll, listWorkerJobs. rewrite Hget by done. rewrite Hcode, Hjobs. change (400 <=? 200) with false. cbv iota. rewrite poll_items_spec. cbn [app].
    f_equal. induction (omap item_result items) as [|r l IH]; [done|]. cbn. by rewrite HD. }
  split_and!; [done..|]. by rewrite HP.
Qed.
End watcher.

(** A server with one failed Job whose deletion is forbidden. *)
Definition forbidding : APIServer unit := λ req w,
  (Ok (if bool_decide (hqMethod req = "GET"%string)
       then MkHttpResponse 200 "" (Ok [MkJobItem "petabyte-task-550e8400" {["task-id" := "550e8400-e29b"%string]} (MkJobStatus 0 1 0 [])])
       else MkHttpResponse 403 "forbidden" (Err "")), w).

Lemma refused_delete_repeats_witness :
  (poll (H := forbidding) (MkClient "" "" "petabyte") tt).1 = [MkJobResult "550e8400-e29b" "petabyte-task-550e8400" JobFailed "job failed"].
Proof.
  rewrite (proj1 (proj2 (refused_delete_repeats (H := forbidding) (MkClient "" "" "petabyte") tt
    [MkJobItem "petabyte-task-550e8400" {["task-id" := "550e8400-e29b"%string]} (MkJobStatus 0 1 0 [])]
    (MkHttpResponse 200 "" (Ok [MkJobItem "petabyte-task-550e8400" {["task-id" := "550e8400-e29b"%string]} (MkJobStatus 0 1 0 [])])) 403
    ltac:(intros req []; unfold Do, forbidding; intros ->; reflexivity) eq_refl eq_refl ltac:(intros req []; unfold Do, forbidding; intros ->; reflexivity)))).
  vm_compute. reflexivity.
Defined.

(** ** The operator and the scheduler *)

(** What draining leaves of a task: handed out, to nobody. *)
Lemma drain_keeps now ids : ∀ out s id t, tasks s !! id = Some t → tStatus t ≠ TaskPending →
  tasks (foldl (drain_step now) (out, s) ids).2 !! id = Some t.
Proof.
  induction ids as [|x ids IH]; intros out s id t Ht Hst; [done|]. cbn [foldl].
  unfold drain_step at 2. destruct (tasks s !! x) as [u|] eqn:Hu; [|by apply IH].
  case_bool_decide as Hp; [by apply IH|]. destruct (jobs s !! tJobID u) as [j|]; [|by apply IH].
  case_match; (apply IH; [|done]); unfold put_task; cbn; (rewrite lookup_insert_ne; [done|]); congruence.
Qed.

Lemma drain_marks now ids : ∀ out s, (∀ id t, tasks s !! id = Some t → tID t = id) →
  ∀ a, a ∈ (foldl (drain_step now) (out, s) ids).1 → a ∈ out ∨
  ∃ t, tasks s !! aTaskID a = Some t ∧ tStatus t = TaskPending ∧
       tasks (foldl (drain_step now) (out, s) ids).2 !! aTaskID a = Some (drained now (leaseChunk s) t).
Proof.
  induction ids as [|x ids IH]; intros out s Hid a Ha; [by left|]. cbn [foldl] in *.
  unfold drain_step in Ha at 2. unfold drain_step at 2. destruct (tasks s !! x) as [u|] eqn:Hu; [|by apply IH].
  case_bool_decide as Hp; [by apply IH|]. destruct (jobs s !! tJobID u) as [j|] eqn:Hj; [|by apply IH].
  fold (drained now (leaseChunk s) u) in *. set (s1 := put_task x _ s) in *.
  destruct (drained_fields now (leaseChunk s) u) as (g & Eg & _).
  assert (Hid1 : ∀ id t, tasks s1 !! id = Some t → tID t = id).
  { intros id t. unfold s1, put_task. cbn. rewrite lookup_insert. case_decide as Hx; [|by apply Hid]. intros [= <-]. rewrite Eg. cbn. subst. by apply Hid. }
  assert (Hold : ∀ t, tasks s1 !! aTaskID a = Some t → tStatus t = TaskPending → tasks s !! aTaskID a = Some t).
  { intros t. unfold s1, put_task. cbn. rewrite lookup_insert. case_decide; [|done]. intros [= <-]. by rewrite Eg. }
  assert (HA : assignmentFor s1 (drained now (leaseChunk s) u) = Some (MkAssignment (tID u) (tJobID u) (tShard u) (jDataset j) (jAlgorithm j) (jConfig j)
    (tRangeStart u) (tRangeEnd u) g (tGeneration u) (tSplit u))) by (unfold assignmentFor; rewrite Eg; cbn; by rewrite Hj).
  rewrite HA in *. destruct (IH _ s1 Hid1 a Ha) as [Ho|(t & Ht & Hst & Hf)].
  - apply elem_of_app in Ho as [Ho|Ho%list_elem_of_singleton]; [by left|]. right. subst a. cbn [aTaskID] in *. rewrite (Hid x u Hu). exists u.
    split_and!; [done|done|]. apply drain_keeps; [unfold s1, put_task; cbn; by rewrite lookup_insert_eq|by rewrite Eg].
  - right. exists t. split_and!; [by apply Hold|done|]. by rewrite Hf.
Qed.

Lemma rebalance_others now worker order : ∀ acc id t, tasks acc.2 !! id = Some t → tWorkerID t ≠ worker →
  tasks (foldl (rebalance_step now worker) acc order).2 !! id = Some t.
Proof.
  induction order as [|x order IH]; intros [n s] id t Ht Hw; [done|]. cbn [foldl]. apply IH; [|done]. cbn [snd] in Ht.
  unfold rebalance_step. destruct (tasks s !! x) as [u|] eqn:Hu; [|done]. case_bool_decide as Hx; [done|].
  destruct (in_flight u); cbn [negb]; [|done]. assert (x ≠ id) by congruence.
  case_match; cbn [snd]; rewrite ?tasks_update; unfold put_task; cbn; by rewrite lookup_insert_ne.
Qed.

Lemma cycle_ids {W} `{APIServer W} marshal cfg c nodes l : ∀ (w w' : W) logs,
  cycle_loop marshal cfg c nodes l w = (Some logs, w') → map fst logs = map aTaskID l.
Proof.
  induction l as [|a l IH]; intros w w' logs; cbn [cycle_loop]; [intros [= <- <-]; done|].
  destruct (cycle_one _ _ _ _ _ _) as [[r|] w1]; [|done]. destruct (cycle_loop _ _ _ _ l w1) as [[logs'|] w2] eqn:E; [|done].
  cbn. intros [= <- <-]. cbn. f_equal. by eapply IH.
Qed.

(** What draining hands out is assigned to nobody, and no worker's failure puts it
    back in the queue. *)
Lemma drained_is_unowned now n s s' l a : sched_ok s → DrainPending now n s = (Ok l, s') → a ∈ l →
  ∃ t t', tasks s !! aTaskID a = Some t ∧ tStatus t = TaskPending ∧ tasks s' !! aTaskID a = Some t' ∧ tStatus t' = TaskAssigned ∧ tWorkerID t' = tWorkerID t ∧
    ∀ now order worker, worker ≠ tWorkerID t → tasks (RebalanceWorker now order worker s') !! aTaskID a = Some t'.
Proof.
  intros Hs HD Ha. unfold DrainPending in HD. set (m := if _ >? _ then _ else n) in HD.
  destruct (m =? 0); [injection HD as <- <-; by apply elem_of_nil in Ha|]. destruct (m <? 0); [done|].
  set (s0 := s <| pendingQ := drop (Z.to_nat m) (pendingQ s) |>) in HD.
  destruct (foldl (drain_step now) ([], s0) (take (Z.to_nat m) (pendingQ s))) as [out s1] eqn:Ef. injection HD as <- <-.
  pose proof (drain_marks now (take (Z.to_nat m) (pendingQ s)) [] s0 (ok_task_id _ Hs) a) as HM. rewrite Ef in HM. cbn [fst snd] in HM.
  destruct (HM Ha) as [Hn|(t & Ht & Hst & Ht')]; [by apply elem_of_nil in Hn|].
  destruct (drained_fields now (leaseChunk s0) t) as (g & Eg & _). exists t, (drained now (leaseChunk s0) t). rewrite tasks_persist. split_and!; [done..|by rewrite Eg|by rewrite Eg|].
  intros now' order worker Hw. unfold RebalanceWorker. pose proof (rebalance_others now' worker order (0%nat, persistLocked s1) (aTaskID a) _
    ltac:(cbn [snd]; rewrite tasks_persist; exact Ht')) as HR. destruct (foldl _ _ order) as [k s2]. cbn [snd] in HR.
  case_match; rewrite ?tasks_persist; apply HR; rewrite Eg; cbn; congruence.
Qed.

(** A drained task for which no Job was made is stranded: the operator only
    logs the error, the task stays assigned without a worker, and no worker's
    failure ever puts it back in the queue. *)
Theorem failed_create_strands_task {W} `{APIServer W} now n s s' l marshal cfg c nodes (w w' : W) logs id e :
  sched_ok s → DrainPending now n s = (Ok l, s') → cycle marshal cfg c (Ok l) nodes w = (Some (Ok logs), w') → (id, Err e) ∈ logs →
  ∃ t t', tasks s !! id = Some t ∧ tStatus t = TaskPending ∧ tasks s' !! id = Some t' ∧ tStatus t' = TaskAssigned ∧ tWorkerID t' = tWorkerID t ∧
    ∀ now order worker, worker ≠ tWorkerID t → tasks (RebalanceWorker now order worker s') !! id = Some t'.
Proof.
  intros Hs HD HC Hlog. assert (Hid : id ∈ map aTaskID l).
  { unfold cycle in HC. destruct l as [|a l]; [injection HC as <- <-; by apply elem_of_nil in Hlog|].
    destruct (cycle_loop _ _ _ _ (a :: l) w) as [[logs'|] w1] eqn:E; [|done]. injection HC as -> ->.
    rewrite <- (cycle_ids _ _ _ _ _ _ _ _ E). by apply (list_elem_of_fmap_2 fst _ (id, Err e)). }
  apply list_elem_of_fmap in Hid as (a & -> & Ha). by apply (drained_is_unowned now n s s' l).
Qed.

(** An API server that keeps the names of Jobs and refuses one that is taken. *)
Definition naming : APIServer (list string) := λ req w,
  match hqBody req with
  | JobBody j => let n := mtName (bjMetadata j) in
      if bool_decide (n ∈ w) then (Ok (MkHttpResponse 409 "already exists" (Err "")), w)
      else (Ok (MkHttpResponse 201 "" (Err "")), n :: w)
  | _ => (Ok (MkHttpResponse 200 "" (Ok [])), w)
  end.

(** Two tasks of one job whose ids agree in their first eight characters. *)
Definition twins_submit : op := OpSubmit 1 2 "job" ["550e8400-a"; "550e8400-b"] (MkSubmit "ds" "dense" ∅ ["aa"; "bb"] 5).
Definition twins : Scheduler := run_op (NewRing 1) twins_submit (Scheduler.New 2).
Definition demo_cfg : OperatorConfig := MkOperatorConfig "http://coordinator:8090" "petabyte-worker:v1" 10.
Definition twins_drained : list TaskAssignment := match (DrainPending 3 10 twins).1 with Ok l => l | Err _ => [] end.

Lemma twins_valid : valid_op twins_submit (Scheduler.New 2).
Proof.
  simpl. unfold submit_fresh. split_and!; first [done|apply (bool_decide_unpack _); by vm_compute|idtac].
Qed.

Lemma failed_create_strands_task_witness :
  map (λ r, (fst r, is_ok (snd r))) (match (cycle (H := naming) demo_marshal demo_cfg (MkClient "" "" "petabyte") (Ok twins_drained) (Ok []) []).1 with
    Some (Ok logs) => logs | _ => [] end) = [("550e8400-a", true); ("550e8400-b", false)]%string ∧
  ∃ t', tasks (DrainPending 3 10 twins).2 !! "550e8400-b"%string = Some t' ∧ tStatus t' = TaskAssigned ∧ tWorkerID t' = EmptyString ∧
    tasks (RebalanceWorker 9 ["550e8400-a"; "550e8400-b"] "w1" (DrainPending 3 10 twins).2) !! "550e8400-b"%string = Some t'.
Proof.
  split; [vm_compute; reflexivity|].
  destruct (failed_create_strands_task (H := naming) 3 10 twins (DrainPending 3 10 twins).2 twins_drained demo_marshal demo_cfg
    (MkClient "" "" "petabyte") (Ok []) [] ["petabyte-task-550e8400"%string]
    [("550e8400-a", Ok tt); ("550e8400-b", Err "k8s 409: already exists")]%string "550e8400-b" "k8s 409: already exists") as (t & t' & Ht & _ & Ht' & Hst & Hw & HR).
  - apply (run_op_ok (NewRing 1) twins_submit); [apply New_ok|apply twins_valid].
  - vm_compute. reflexivity.
  - vm_compute. reflexivity.
  - right. by left.
  - exists t'. vm_compute in Ht. injection Ht as <-. cbn in Hw. split_and!; [done..|]. by apply HR.
Defined.

(** C36: A task that fails in a pod is marked done. The single-task mode reports
    the failure and returns no error when the report is accepted, so the pod
    exits with zero and its Job succeeds; for a Job that succeeded the operator
    reports the task done, with no output to promote; and unless the committing
    itself fails, the scheduler closes the task, requeued meanwhile or not. *)
Theorem failed_pod_is_marked_done {V W E} `{Host V} `{Committer W, CommitDecider W E, SideEffect W}
    wid a (v v1 v2 : V) e i p env now s s' (w w' : W) :
  runAlgorithm wid a (PostStart (aTaskID a) wid v) = (Some (Err e), v1) →
  PostResult (aTaskID a) (result_request wid (Err e) (Elapsed v1)) v1 = (Ok tt, v2) →
  jiLabels i !! "task-id"%string = Some (aTaskID a) → aTaskID a ≠ ""%string → 0 < stSucceeded (jiStatus i) →
  RunTask wid a v = (Some (Ok tt), v2) ∧
  ∃ x, item_result i = Some x ∧ jrTaskID x = aTaskID a ∧
    (∀ att, atReq att = operator_request x → report_commit p att w = (Ok tt, w)) ∧
    (ReportResult p env now (aTaskID a) (operator_request x) s w = (Some (Ok tt), (s', w')) →
       ∃ t', tasks s' !! aTaskID a = Some t' ∧ tStatus t' = TaskDone).
Proof.
  intros HR HP Hl Hid Hst. split; [unfold RunTask; by rewrite HR, HP|].
  exists (MkJobResult (aTaskID a) (jiName i) JobSucceeded ""). split_and!; [|done|..].
  - unfold item_result, resolvePhase. rewrite Z.gtb_ltb. destruct (Z.ltb_spec 0 (stSucceeded (jiStatus i))); [|lia]. rewrite Hl. by rewrite bool_decide_false.
  - intros att Ha. unfold report_commit. rewrite Ha. cbn. by rewrite andb_false_r.
  - unfold ReportResult. destruct (report_begin _ _ s) as [[att|]|] eqn:Eb; [|intros [= <- <-]|done].
    2: { unfold report_begin in Eb. destruct (tasks s !! aTaskID a) as [t|]; [|done]. case_bool_decide; [|done]. by exists t. }
    destruct (report_commit p att w) as [[[]|] w1]; [|done]. destruct (report_decide p env att w1) as [[[d|]|] w2]; [|done..].
    destruct (report_effect p att d w2) as [[[]|] w3]; [|done].
    unfold report_finish. destruct (tasks s !! aTaskID a) as [t|] eqn:Ht; [|done]. case_bool_decide as Hd; [intros [= <- <-]; by exists t|].
    rewrite bool_decide_false by (cbn; intros Hn; by apply Hn). intros [= <- <-]. rewrite tasks_persist, tasks_update. unfold put_task. cbn.
    rewrite lookup_insert_eq. by eexists.
Qed.

(** A pod that cannot list its shard. *)
Definition broken_host : Host (list ResultRequest) := {|
  ListPrefix _ w := (Err "connection refused", w); GetObject _ w := (Ok 10, w); PutObject _ _ w := (Ok tt, w);
  PostStart _ _ w := w; PostRenew _ req w := (Err "", w); PostResult _ req w := (Ok tt, w ++ [req]);
  WriteResultsParquet _ := Ok []; Elapsed _ := 7 |}.
#[local] Instance no_commit : Committer unit := λ _ _ w, (Ok tt, w).
#[local] Instance no_decide : CommitDecider unit unit := λ _ d w, (Some (Ok d), w).
#[local] Instance no_effect : SideEffect unit := λ _ _ w, (Ok tt, w).
Definition twin_task : TaskAssignment := nth 0 twins_drained demo_task.
Definition pod_report : ResultRequest := result_request "w1" (Err "list shard aa: connection refused") 7.
(** The pod's report has put the task back. *)
Definition requeued : Scheduler := (report_finish 8 (aTaskID twin_task) pod_report (DrainPending 3 10 twins).2).2.

Lemma failed_pod_is_marked_done_witness :
  ∃ t', tasks (ReportResult (MkAttached true true true) tt 9 (aTaskID twin_task) (MkResult "k8s-operator" 0 0 "" 0 "") requeued tt).2.1 !! aTaskID twin_task = Some t' ∧ tStatus t' = TaskDone.
Proof.
  destruct (failed_pod_is_marked_done (H := broken_host) "w1" twin_task [] [] [pod_report] "list shard aa: connection refused"
    (MkJobItem "petabyte-task-550e8400" {["task-id" := aTaskID twin_task]} (MkJobStatus 1 0 0 [])) (MkAttached true true true) tt 9 requeued
    (ReportResult (MkAttached true true true) tt 9 (aTaskID twin_task) (MkResult "k8s-operator" 0 0 "" 0 "") requeued tt).2.1 tt tt)
    as (_ & x & Hx & _ & _ & HF); [vm_compute; reflexivity|vm_compute; reflexivity|vm_compute; reflexivity|done|done|].
  apply HF. vm_compute in Hx. injection Hx as <-. vm_compute. reflexivity.
Defined.
