(* ===== verification/Float64.v ===== *)
(** * Go's float64

    The binary64 operations are those of the Standard Library's [SpecFloat].
    On whole numbers below 2^53 they are exact, which is what the callers rely
    on: [of_nat] is a homomorphism there for addition, subtraction,
    multiplication and comparison. *)
From S2P Require Import Prelude.
From Stdlib Require Import SpecFloat.
Open Scope Z_scope.

Notation float64 := spec_float.
Definition fadd : float64 → float64 → float64 := SFadd 53 1024.
Definition fsub : float64 → float64 → float64 := SFsub 53 1024.
Definition fmul : float64 → float64 → float64 := SFmul 53 1024.
Definition fdiv : float64 → float64 → float64 := SFdiv 53 1024.
Definition fltb : float64 → float64 → bool := SFltb.
Definition fleb : float64 → float64 → bool := SFleb.

(** [float64(n)]. *)
Definition of_Z (n : Z) : float64 := binary_normalize 53 1024 n 0 false.
(** A literal [n / 10^k], correctly rounded: both are exact for the literals
    of the source. *)
Definition decimal (n k : Z) : float64 := fdiv (of_Z n) (of_Z (10 ^ k)).

(** [math.Min] and the builtin [max]. *)
Definition is_nan (x : float64) : bool := match x with S754_nan => true | _ => false end.
Definition neg_inf (x : float64) : bool := match x with S754_infinity true => true | _ => false end.
Definition fmin (x y : float64) : float64 :=
  if neg_inf x || neg_inf y then S754_infinity true
  else if is_nan x || is_nan y then S754_nan
  else match x, y with
       | S754_zero sx, S754_zero _ => if sx then x else y
       | _, _ => if fltb x y then x else y
       end.
Definition fmax (x y : float64) : float64 :=
  if is_nan x || is_nan y then S754_nan
  else match x, y with
       | S754_zero sx, S754_zero _ => if sx then y else x
       | _, _ => if fltb x y then y else x
       end.

(** [time.Duration.Seconds], of a Duration in nanoseconds. *)
Definition Second : Z := 1000000000.
Definition Seconds (d : Z) : float64 := fadd (of_Z (Z.quot d Second)) (fdiv (of_Z (Z.rem d Second)) (of_Z Second)).

(** ** Whole numbers *)

Local Notation digits v := (Zpos (digits2_pos v)).

(** The canonical binary64 of a whole number of at most 53 bits. *)
Definition whole (v : positive) : float64 := S754_finite false (Z.to_pos (Zpos v * 2 ^ (53 - digits v))) (digits v - 53).

Lemma digits_spec v : 2 ^ (digits v - 1) ≤ Zpos v < 2 ^ digits v.
Proof.
  induction v as [v IH|v IH|]; cbn [digits2_pos]; [| |done]; rewrite Pos2Z.inj_succ;
    replace (Z.succ (digits v) - 1) with (Z.succ (digits v - 1)) by lia;
    rewrite !Z.pow_succ_r by lia; lia.
Qed.

Lemma digits_unique v d : 2 ^ (d - 1) ≤ Zpos v < 2 ^ d → digits v = d.
Proof.
  intros [Hl Hu]. pose proof (digits_spec v) as [Hl' Hu']. pose proof (Pos2Z.is_pos (digits2_pos v)).
  assert (0 < d). { destruct (Z.leb_spec d 0); [|done]. destruct (Z.eq_dec d 0) as [->|]; [cbn in Hu; lia|]. rewrite (Z.pow_neg_r 2 d) in Hu; lia. }
  destruct (Z.lt_trichotomy (digits v) d) as [H1|[->|H1]]; [|done|]; exfalso.
  - assert (2 ^ digits v ≤ 2 ^ (d - 1)) by (apply Z.pow_le_mono_r; lia). lia.
  - assert (2 ^ d ≤ 2 ^ (digits v - 1)) by (apply Z.pow_le_mono_r; lia). lia.
Qed.

Lemma digits_shift v w k : 0 ≤ k → Zpos w = Zpos v * 2 ^ k → digits w = digits v + k.
Proof.
  intros Hk E. apply digits_unique. pose proof (digits_spec v). pose proof (Pos2Z.is_pos (digits2_pos v)).
  rewrite E. replace (digits v + k - 1) with (digits v - 1 + k) by lia. rewrite !Z.pow_add_r by lia.
  assert (0 < 2 ^ k) by (apply Z.pow_pos_nonneg; lia). nia.
Qed.

Lemma iter_xO m d : Zpos (Pos.iter xO m d) = Zpos m * 2 ^ Zpos d.
Proof.
  induction d as [|d IH] using Pos.peano_ind; [cbn; lia|]. rewrite Pos.iter_succ, Pos2Z.inj_succ, Z.pow_succ_r by lia.
  rewrite Pos2Z.inj_xO, IH. lia.
Qed.

Lemma iter_pos_iter {A} (f : A → A) n x : iter_pos f n x = Pos.iter f x n.
Proof. revert x. induction n as [n IH|n IH|]; intros x; cbn; rewrite ?IH, ?Pos.iter_swap; done. Qed.

Lemma shr_exact n m : iter_pos shr_1 n {| shr_m := m * 2 ^ Zpos n; shr_r := false; shr_s := false |} =
  {| shr_m := m; shr_r := false; shr_s := false |}.
Proof.
  induction n as [|n IH] using Pos.peano_ind.
  - rewrite Z.mul_comm. by destruct m.
  - rewrite iter_pos_iter, Pos.iter_succ_r, <- iter_pos_iter, Pos2Z.inj_succ, Z.pow_succ_r by lia. replace (m * (2 * 2 ^ Z.pos n)) with (2 * (m * 2 ^ Z.pos n)) by lia.
    destruct (m * 2 ^ Z.pos n) eqn:E; cbn; apply IH.
Qed.

Lemma whole_mantissa v : digits v ≤ 53 → ∃ w, Zpos w = Zpos v * 2 ^ (53 - digits v) ∧ digits w = 53 ∧
  whole v = S754_finite false w (digits v - 53).
Proof.
  intros Hd. assert (0 < 2 ^ (53 - digits v)) by (apply Z.pow_pos_nonneg; lia).
  exists (Z.to_pos (Zpos v * 2 ^ (53 - digits v))). rewrite Z2Pos.id by lia. split_and!; [done| |done].
  rewrite (digits_shift v _ (53 - digits v)); [lia|lia|]. rewrite Z2Pos.id; lia.
Qed.

Lemma fexp_digits d : 1 ≤ d ≤ 53 → fexp 53 1024 d = d - 53.
Proof. unfold fexp, emin. lia. Qed.

Lemma shr_zero mrs e : shr mrs e 0 = (mrs, e).
Proof. done. Qed.

(** Rounding a whole number of at most 53 bits, however its mantissa is
    scaled, gives its canonical form. *)
Lemma round_aux_whole v n mz : digits v ≤ 53 → 0 ≤ n → Zpos mz = Zpos v * 2 ^ (53 - digits v) * 2 ^ n →
  binary_round_aux 53 1024 false (Zpos mz) (digits v - 53 - n) loc_Exact = whole v.
Proof.
  intros Hd Hn Hm. destruct (whole_mantissa v Hd) as (w & Hw & Hdw & ->). pose proof (Pos2Z.is_pos (digits2_pos v)).
  assert (Hdm : digits mz = 53 + n) by (rewrite (digits_shift w mz n); [lia|done|by rewrite Hm, Hw]).
  assert (Hs : shr_fexp 53 1024 (Zpos mz) (digits v - 53 - n) loc_Exact = ({| shr_m := Zpos w; shr_r := false; shr_s := false |}, digits v - 53)).
  { unfold shr_fexp. cbn [Zdigits2 shr_record_of_loc]. rewrite Hdm. replace (53 + n + (digits v - 53 - n)) with (digits v) by lia.
    rewrite fexp_digits by lia. replace (digits v - 53 - (digits v - 53 - n)) with n by lia. rewrite Hm, <- Hw.
    destruct n as [|n|n]; [|cbn [shr]; rewrite shr_exact; f_equal; lia|lia].
    rewrite shr_zero. f_equal; [|lia]. by rewrite Z.mul_1_r. }
  unfold binary_round_aux. rewrite Hs. cbn [round_nearest_even shr_m loc_of_shr_record].
  unfold shr_fexp. cbn [Zdigits2 shr_record_of_loc]. rewrite Hdw. replace (53 + (digits v - 53)) with (digits v) by lia.
  rewrite fexp_digits, Z.sub_diag, shr_zero by lia. cbn [shr_m]. by destruct (Z.leb_spec (digits v - 53) (1024 - 53)); [|lia].
Qed.

Lemma round_whole v k m : digits v ≤ 53 → 0 ≤ k → Zpos m = Zpos v * 2 ^ k → binary_round 53 1024 false m (- k) = whole v.
Proof.
  intros Hd Hk Hm. pose proof (Pos2Z.is_pos (digits2_pos v)). unfold binary_round.
  rewrite (digits_shift v m k) by done. replace (digits v + k + - k) with (digits v) by lia. rewrite fexp_digits by lia. unfold shl_align.
  destruct (Z.leb_spec 0 (digits v - 53 - - k)) as [Hle|Hlt].
  - replace (match digits v - 53 - - k with Zneg d => (Pos.iter xO m d, digits v - 53) | _ => (m, - k) end) with (m, - k) by (destruct (digits v - 53 - - k); lia || done).
    replace (- k) with (digits v - 53 - (digits v - 53 + k)) by lia. apply round_aux_whole; [done|lia|].
    rewrite Hm, <- Z.mul_assoc, <- Z.pow_add_r by lia. do 2 f_equal. lia.
  - destruct (digits v - 53 - - k) as [|d|d] eqn:E; [lia|lia|]. replace (digits v - 53) with (digits v - 53 - 0) at 1 by lia.
    apply round_aux_whole; [done|lia|]. rewrite iter_xO, Hm, Z.mul_1_r, <- Z.mul_assoc, <- Z.pow_add_r by lia. do 2 f_equal. lia.
Qed.

(** ** Exactness *)

Lemma digits_53 v : Zpos v < 2 ^ 53 → 1 ≤ digits v ≤ 53.
Proof.
  intros Hv. pose proof (digits_spec v) as [Hl _]. split; [lia|]. destruct (Z.leb_spec (digits v) 53); [done|].
  assert (2 ^ 53 ≤ 2 ^ (digits v - 1)) by (apply Z.pow_le_mono_r; lia). lia.
Qed.

Lemma of_Z_pos v : Zpos v < 2 ^ 53 → of_Z (Zpos v) = whole v.
Proof. intros Hv%digits_53. unfold of_Z, binary_normalize. apply (round_whole v 0); [lia|done|lia]. Qed.

(** Aligning two whole numbers to the lower of their exponents. *)
Lemma aligned v (k : Z) : digits v ≤ 53 → - k ≤ digits v - 53 →
  ∀ w, Zpos w = Zpos v * 2 ^ (53 - digits v) → Zpos (fst (shl_align w (digits v - 53) (- k))) = Zpos v * 2 ^ k.
Proof.
  intros Hd Hk w Hw. unfold shl_align. destruct (- k - (digits v - 53)) as [|d|d] eqn:E; [|lia|]; cbn [fst]; rewrite ?iter_xO, Hw.
  - do 2 f_equal. lia.
  - rewrite <- Z.mul_assoc, <- Z.pow_add_r by lia. do 2 f_equal. lia.
Qed.

Lemma normalize_whole n k : 0 ≤ n < 2 ^ 53 → 0 ≤ k → binary_normalize 53 1024 (n * 2 ^ k) (- k) false = of_Z n.
Proof.
  intros Hn Hk. assert (0 < 2 ^ k) by (apply Z.pow_pos_nonneg; lia). destruct n as [|v|v]; [done| |lia].
  rewrite of_Z_pos by lia. destruct (Zpos v * 2 ^ k) as [|m|m] eqn:E; [lia| |lia]. cbn. apply round_whole; [|done|done].
  apply digits_53. lia.
Qed.

Ltac two_wholes a b :=
  let v := fresh "v" in let u := fresh "u" in
  destruct a as [|v|v]; destruct b as [|u|u]; try lia; rewrite ?of_Z_pos by lia;
  try (let H := fresh "Hv" in assert (H : 1 ≤ digits v ≤ 53) by (apply digits_53; lia);
       let w := fresh "w" in let Hw := fresh "Hw" in let Hd := fresh "Hdw" in destruct (whole_mantissa v) as (w & Hw & Hd & ->); [lia|]);
  try (let H := fresh "Hu" in assert (H : 1 ≤ digits u ≤ 53) by (apply digits_53; lia);
       let w := fresh "w" in let Hw := fresh "Hw" in let Hd := fresh "Hdw" in destruct (whole_mantissa u) as (w & Hw & Hd & ->); [lia|]).

Lemma fadd_exact a b : 0 ≤ a → 0 ≤ b → a + b < 2 ^ 53 → fadd (of_Z a) (of_Z b) = of_Z (a + b).
Proof.
  intros Ha Hb Hab. destruct (Z.eq_dec a 0) as [->|Ha0]; [|destruct (Z.eq_dec b 0) as [->|Hb0]].
  - destruct (Z.eq_dec b 0) as [->|]; [done|]. rewrite Z.add_0_l. destruct b as [|v|]; [done| |lia]. rewrite of_Z_pos by lia. done.
  - rewrite Z.add_0_r. destruct a as [|v|]; [done| |lia]. rewrite of_Z_pos by lia. done.
  - rewrite <- (normalize_whole (a + b) (53 - Z.min (digits (Z.to_pos a)) (digits (Z.to_pos b)))) by (try lia; pose proof (digits_53 (Z.to_pos a)); lia).
    two_wholes a b. cbn [Z.to_pos]. unfold fadd, SFadd. cbv zeta. rewrite Z.sub_min_distr_r.
    replace (Z.min (digits v) (digits u) - 53) with (- (53 - Z.min (digits v) (digits u))) by lia. cbn [cond_Zopp].
    rewrite !(aligned _ (53 - Z.min (digits v) (digits u))) by (done || lia). f_equal. lia.
Qed.

Lemma fsub_exact a b : 0 ≤ b ≤ a → a < 2 ^ 53 → fsub (of_Z a) (of_Z b) = of_Z (a - b).
Proof.
  intros Hab Ha. destruct (Z.eq_dec b 0) as [->|Hb0].
  - rewrite Z.sub_0_r. destruct a as [|v|]; [done| |lia]. rewrite of_Z_pos by lia. done.
  - rewrite <- (normalize_whole (a - b) (53 - Z.min (digits (Z.to_pos a)) (digits (Z.to_pos b)))) by (try lia; pose proof (digits_53 (Z.to_pos a)); lia).
    two_wholes a b. cbn [Z.to_pos]. unfold fsub, SFsub. cbv zeta. rewrite Z.sub_min_distr_r.
    replace (Z.min (digits v) (digits u) - 53) with (- (53 - Z.min (digits v) (digits u))) by lia. cbn [cond_Zopp].
    rewrite !(aligned _ (53 - Z.min (digits v) (digits u))) by (done || lia). f_equal. lia.
Qed.

Lemma fmul_exact a b : 0 ≤ a → 0 ≤ b → a < 2 ^ 53 → b < 2 ^ 53 → a * b < 2 ^ 53 → fmul (of_Z a) (of_Z b) = of_Z (a * b).
Proof.
  intros Ha Hb Ha' Hb' Hab. destruct (Z.eq_dec a 0) as [->|Ha0]; [|destruct (Z.eq_dec b 0) as [->|Hb0]].
  - destruct b as [|v|]; [done| |lia]. rewrite of_Z_pos by lia. done.
  - rewrite Z.mul_0_r. destruct a as [|v|]; [done| |lia]. rewrite of_Z_pos by lia. done.
  - two_wholes a b. unfold fmul, SFmul. cbn [xorb].
    change (Zpos v * Zpos u) with (Zpos (v * u)) in *. rewrite of_Z_pos by done.
    pose proof (digits_53 (v * u) Hab) as Hd. pose proof (digits_spec v) as [Hv1 Hv2]. pose proof (digits_spec u) as [Hu1 Hu2].
    pose proof (digits_spec (v * u)) as [Hd1 Hd2].
    assert (Hle : digits v + digits u - 1 ≤ digits (v * u)).
    { destruct (Z.leb_spec (digits v + digits u - 1) (digits (v * u))); [lia|].
      assert (2 ^ digits (v * u) ≤ 2 ^ (digits v - 1 + (digits u - 1))) by (apply Z.pow_le_mono_r; lia). rewrite Z.pow_add_r in H0 by lia. nia. }
    replace (digits v - 53 + (digits u - 53)) with (digits (v * u) - 53 - (53 + digits (v * u) - digits v - digits u)) by lia.
    apply round_aux_whole; [lia|lia|]. rewrite Pos2Z.inj_mul, Hw, Hw0, Pos2Z.inj_mul.
    set (n := 53 + digits (v * u) - digits v - digits u).
    assert (E : 2 ^ (53 - digits v) * 2 ^ (53 - digits u) = 2 ^ (53 - digits (v * u)) * 2 ^ n).
    { unfold n. rewrite <- !Z.pow_add_r by lia. f_equal. lia. }
    transitivity (Z.pos v * Z.pos u * (2 ^ (53 - digits v) * 2 ^ (53 - digits u))); [lia|]. rewrite E. lia.
Qed.

Lemma fcompare_exact a b : 0 ≤ a < 2 ^ 53 → 0 ≤ b < 2 ^ 53 → SFcompare (of_Z a) (of_Z b) = Some (a ?= b).
Proof.
  intros Ha Hb. two_wholes a b; try done. unfold SFcompare. f_equal.
  pose proof (digits_spec v) as [Hv1 Hv2]. pose proof (digits_spec u) as [Hu1 Hu2]. symmetry.
  destruct (Z.compare_spec (digits v - 53) (digits u - 53)) as [E|Hlt|Hgt].
  - change (Pos.compare_cont Eq w w0) with (Zpos w ?= Zpos w0). rewrite Hw, Hw0. assert (digits v = digits u) as -> by lia.
    assert (0 < 2 ^ (53 - digits u)) by (apply Z.pow_pos_nonneg; lia). apply Zmult_compare_compat_r. lia.
  - apply Z.compare_lt_iff. assert (2 ^ digits v ≤ 2 ^ (digits u - 1)) by (apply Z.pow_le_mono_r; lia). lia.
  - apply Z.compare_gt_iff. assert (2 ^ digits u ≤ 2 ^ (digits v - 1)) by (apply Z.pow_le_mono_r; lia). lia.
Qed.

Lemma fltb_exact a b : 0 ≤ a < 2 ^ 53 → 0 ≤ b < 2 ^ 53 → fltb (of_Z a) (of_Z b) = (a <? b).
Proof. intros Ha Hb. unfold fltb, SFltb. rewrite fcompare_exact by done. done. Qed.

Lemma fleb_exact a b : 0 ≤ a < 2 ^ 53 → 0 ≤ b < 2 ^ 53 → fleb (of_Z a) (of_Z b) = (a <=? b).
Proof. intros Ha Hb. unfold fleb, SFleb. rewrite fcompare_exact by done. unfold Z.leb. by destruct (a ?= b). Qed.

Lemma of_Z_cases a : 0 ≤ a < 2 ^ 53 → a = 0 ∧ of_Z a = S754_zero false ∨ 0 < a ∧ ∃ m e, of_Z a = S754_finite false m e.
Proof.
  intros Ha. destruct a as [|v|]; [by left| |lia]. right. split; [done|]. rewrite of_Z_pos by lia. by eexists _, _.
Qed.

Lemma fmin_exact a b : 0 ≤ a < 2 ^ 53 → 0 ≤ b < 2 ^ 53 → fmin (of_Z a) (of_Z b) = of_Z (Z.min a b).
Proof.
  intros Ha Hb. unfold fmin. pose proof (fltb_exact a b Ha Hb) as Hl.
  destruct (of_Z_cases a Ha) as [[-> Ea]|[? (m & e & Ea)]], (of_Z_cases b Hb) as [[-> Eb]|[? (m' & e' & Eb)]];
    rewrite ?Ea, ?Eb in *; cbn [neg_inf is_nan orb]; rewrite ?Hl.
  - done.
  - rewrite Z.min_l by lia. destruct (Z.ltb_spec 0 b); [done|lia].
  - rewrite Z.min_r by lia. destruct (Z.ltb_spec a 0); [lia|done].
  - destruct (Z.ltb_spec a b); [by rewrite Z.min_l, Ea by lia|by rewrite Z.min_r, Eb by lia].
Qed.

Lemma fmax_exact a b : 0 ≤ a < 2 ^ 53 → 0 ≤ b < 2 ^ 53 → fmax (of_Z a) (of_Z b) = of_Z (Z.max a b).
Proof.
  intros Ha Hb. unfold fmax. pose proof (fltb_exact a b Ha Hb) as Hl.
  destruct (of_Z_cases a Ha) as [[-> Ea]|[? (m & e & Ea)]], (of_Z_cases b Hb) as [[-> Eb]|[? (m' & e' & Eb)]];
    rewrite ?Ea, ?Eb in *; cbn [is_nan orb]; rewrite ?Hl.
  - done.
  - rewrite Z.max_r by lia. destruct (Z.ltb_spec 0 b); [done|lia].
  - rewrite Z.max_l by lia. destruct (Z.ltb_spec a 0); [lia|done].
  - destruct (Z.ltb_spec a b); [by rewrite Z.max_r, Eb by lia|by rewrite Z.max_l, Ea by lia].
Qed.

Lemma of_Z_inj a b : 0 ≤ a < 2 ^ 53 → 0 ≤ b < 2 ^ 53 → of_Z a = of_Z b → a = b.
Proof.
  intros Ha Hb E. apply Z.compare_eq_iff. pose proof (fcompare_exact a b Ha Hb) as H1. pose proof (fcompare_exact b b Hb Hb) as H2.
  rewrite E, H2 in H1. injection H1 as H1. by rewrite <- H1, Z.compare_refl.
Qed.

Lemma Seconds_whole k : 0 ≤ k < 2 ^ 53 → Seconds (k * Second) = of_Z k.
Proof.
  intros Hk. unfold Seconds. rewrite Z.quot_mul, Z.rem_mul by done. change (fdiv (of_Z 0) (of_Z Second)) with (of_Z 0).
  rewrite fadd_exact, Z.add_0_r by lia. done.
Qed.

(** ** The order

    The same in every precision. *)

(** Floats in their order, lexicographically: sign class, exponent, mantissa. *)
Definition float_key (x : float64) : Z * Z * Z :=
  match x with
  | S754_nan | S754_zero _ => (0, 0, 0)
  | S754_infinity true => (-2, 0, 0) | S754_infinity false => (2, 0, 0)
  | S754_finite true m e => (-1, - e, - Zpos m) | S754_finite false m e => (1, e, Zpos m)
  end.
Definition klt (a b : Z * Z * Z) : Prop :=
  a.1.1 < b.1.1 ∨ a.1.1 = b.1.1 ∧ (a.1.2 < b.1.2 ∨ a.1.2 = b.1.2 ∧ a.2 < b.2).

Lemma SFcompare_key x y : is_nan x = false → is_nan y = false →
  match SFcompare x y with
  | Some Lt => klt (float_key x) (float_key y) | Some Eq => float_key x = float_key y | Some Gt => klt (float_key y) (float_key x) | None => False end.
Proof.
  unfold klt. destruct x as [s|s| |s m e], y as [s'|s'| |s' m' e']; try done; intros _ _; destruct s; try destruct s'; cbn; try done; try lia.
  all: destruct (Z.compare_spec e e'); cbn; [|lia..]; fold (Pos.compare m m'); destruct (Pos.compare_spec m m'); cbn; try lia; by subst.
Qed.

(** [sort.Float64s]: NaN comes first. *)
Definition sort_less (x y : float64) : bool := fltb x y || is_nan x && negb (is_nan y).
Definition sorts_le (x y : float64) : Prop := sort_less y x = false.
#[export] Instance sorts_le_dec x y : Decision (sorts_le x y).
Proof. unfold sorts_le. apply _. Defined.

Definition sort_key (x : float64) : Z * Z * Z := if is_nan x then (-3, 0, 0) else float_key x.

Lemma float_key_low x : - 3 < (float_key x).1.1.
Proof. by destruct x as [|[]| |[]]. Qed.

Lemma sorts_le_key x y : sorts_le x y ↔ ¬ klt (sort_key y) (sort_key x).
Proof.
  unfold sorts_le, sort_less, sort_key. pose proof (float_key_low x). pose proof (float_key_low y).
  destruct (is_nan x) eqn:Ex, (is_nan y) eqn:Ey; cbn [negb andb].
  - destruct x, y; try done. cbn. unfold klt. cbn. split; [lia|done].
  - rewrite orb_false_r. destruct x; try done. unfold fltb, SFltb. destruct y as [|[]| |[]]; cbn; unfold klt; cbn; (split; [intros _; lia|done]).
  - split; [by rewrite orb_true_r|]. intros Hk. destruct Hk. left. cbn. lia.
  - rewrite orb_false_r. unfold fltb, SFltb. pose proof (SFcompare_key y x Ey Ex) as HK. destruct (SFcompare y x) as [[]|]; [| | |done].
    + rewrite HK. unfold klt. split; [lia|done].
    + split; [done|]. intros Hn. by destruct Hn.
    + split; [|done]. intros _. unfold klt in *. lia.
Qed.

#[export] Instance sorts_le_total : Total sorts_le.
Proof. intros x y. rewrite !sorts_le_key. unfold klt. lia. Qed.
#[export] Instance sorts_le_trans : Transitive sorts_le.
Proof. intros x y z. rewrite !sorts_le_key. unfold klt. lia. Qed.

Definition Float64s (l : list float64) : list float64 := merge_sort sorts_le l.
