(* ===== verification/PhiAccrual.v ===== *)
(** * The adaptive failure detector (cluster/phi_accrual.go)

    A sliding window of heartbeat intervals with running sums in float64, and
    the suspicion level computed from its mean and deviation.  [math.Exp] and
    [math.Log10] are arguments; times are nanoseconds. *)
From Stdlib Require Import SpecFloat.
From S2P Require Import Prelude GoLib Float64.
Open Scope Z_scope.

(** ** The window *)

Record intervalWindow := MkWindow {
  wvalues : list float64; wcap : nat; widx : nat; wfilled : bool; wsum : float64; wsumSq : float64 }.

Definition fzero : float64 := S754_zero false.
Definition newIntervalWindow (capacity : nat) : intervalWindow := MkWindow (replicate capacity fzero) capacity 0 false fzero fzero.

(** [None] is an index out of range. *)
Definition push (w : intervalWindow) (v : float64) : option intervalWindow :=
  old ← wvalues w !! widx w;
  let '(s, q) := if wfilled w then (fsub (wsum w) old, fsub (wsumSq w) (fmul old old)) else (wsum w, wsumSq w) in
  let i := S (widx w) in
  let '(i, full) := if (i =? wcap w)%nat then (0%nat, true) else (i, wfilled w) in
  Some (MkWindow (<[widx w := v]> (wvalues w)) (wcap w) i full (fadd s v) (fadd q (fmul v v))).

Definition len (w : intervalWindow) : nat := if wfilled w then wcap w else widx w.

Definition mean (w : intervalWindow) : float64 :=
  if (len w =? 0)%nat then fzero else fdiv (wsum w) (of_Z (Z.of_nat (len w))).

Definition stdDev (w : intervalWindow) : float64 :=
  if (len w =? 0)%nat then fzero
  else
    let n := of_Z (Z.of_nat (len w)) in
    let mean := fdiv (wsum w) n in
    let variance := fsub (fdiv (wsumSq w) n) (fmul mean mean) in
    SFsqrt 53 1024 (if fltb variance fzero then fzero else variance).

(** ** The detector *)

Record PhiAccrual := MkPhi { pWindow : intervalWindow; pMinStdDev : float64; pFirst : float64; pLast : option Z }.

Definition NewPhiAccrual (windowSize minStdDev firstInterval : Z) : PhiAccrual :=
  let windowSize := if windowSize <=? 0 then 100 else windowSize in
  let minStdDev := if minStdDev <=? 0 then 100000000 else minStdDev in
  let firstInterval := if firstInterval <=? 0 then Second else firstInterval in
  MkPhi (newIntervalWindow (Z.to_nat windowSize)) (of_Z minStdDev) (of_Z firstInterval) None.

(** [None] is a panic. *)
Definition Heartbeat (now : Z) (p : PhiAccrual) : option PhiAccrual :=
  match pLast p with
  | None =>
      w ← push (pWindow p) (pFirst p); w ← push w (pFirst p);
      Some (MkPhi w (pMinStdDev p) (pFirst p) (Some now))
  | Some last =>
      let interval := of_Z (now - last) in
      w ← (if fltb fzero interval then push (pWindow p) interval else Some (pWindow p));
      Some (MkPhi w (pMinStdDev p) (pFirst p) (Some now))
  end.

Section phi.
Context (exp log10 : float64 → float64).

(** [-x] on floats. *)
Definition fneg : float64 → float64 := SFopp.
Definition one : float64 := of_Z 1.

Definition phi (elapsed mean stdDev : float64) : float64 :=
  let y := fdiv (fsub elapsed mean) stdDev in
  let e := exp (fmul (fneg y) (fadd (decimal 15976 4) (fmul (fmul (decimal 70566 6) y) y))) in
  if fltb mean elapsed then fneg (log10 (fdiv e (fadd one e)))
  else fneg (log10 (fsub one (fdiv one (fadd one e)))).

Definition Phi (now : Z) (p : PhiAccrual) : float64 :=
  match pLast p with
  | None => fzero
  | Some last => phi (of_Z (now - last)) (mean (pWindow p)) (fmax (stdDev (pWindow p)) (pMinStdDev p))
  end.

Definition Available (now : Z) (threshold : float64) (p : PhiAccrual) : bool := fltb (Phi now p) threshold.
End phi.

(** ** The window is the last samples *)

Definition total (l : list Z) : Z := foldr Z.add 0 l.
(** The last [c] of [l]. *)
Definition recent (c : nat) (l : list Z) : list Z := drop (length l - c) l.

Lemma total_app a b : total (a ++ b) = total a + total b.
Proof. induction a as [|x a IH]; cbn; [done|]. unfold total in *. lia. Qed.

Lemma total_bounds m l : 0 ≤ m → Forall (λ x, 0 ≤ x ≤ m) l → 0 ≤ total l ≤ Z.of_nat (length l) * m.
Proof. intros Hm. induction 1 as [|x l Hx Hl IH]; cbn [total foldr length]; [lia|]. fold (total l). lia. Qed.

Record window_of (c : nat) (l : list Z) (w : intervalWindow) : Prop := {
  wo_cap : wcap w = c; wo_len : length (wvalues w) = c;
  wo_idx : widx w = (length l mod c)%nat; wo_filled : wfilled w = (c <=? length l)%nat;
  wo_values k x : (length l < k + c + 1)%nat → l !! k = Some x → wvalues w !! (k mod c)%nat = Some (of_Z x);
  wo_sum : wsum w = of_Z (total (recent c l)) }.

Lemma window_new c : (0 < c)%nat → window_of c [] (newIntervalWindow c).
Proof.
  intros Hc. split; cbn [wcap wvalues widx wfilled wsum newIntervalWindow length].
  - done.
  - by rewrite length_replicate.
  - by rewrite Nat.Div0.mod_0_l.
  - symmetry. apply Nat.leb_gt. lia.
  - intros k x _ Hx. by rewrite lookup_nil in Hx.
  - done.
Qed.

Lemma recent_snoc c l v : (0 < c)%nat → total (recent c (l ++ [v])) =
  total (recent c l) + v - (if (c <=? length l)%nat then nth (length l - c) l 0 else 0).
Proof.
  intros Hc. unfold recent. rewrite length_app. cbn [length]. rewrite drop_app_le by lia. rewrite total_app. cbn [total foldr].
  destruct (Nat.leb_spec c (length l)).
  - destruct (lookup_lt_is_Some_2 l (length l - c)) as [x Hx]; [lia|].
    replace (length l + 1 - c)%nat with (S (length l - c)) by lia. rewrite (drop_S l x (length l - c) Hx), (nth_lookup_Some _ _ _ _ Hx). cbn. fold (total (drop (S (length l - c)) l)). lia.
  - replace (length l + 1 - c)%nat with (length l - c)%nat by lia. lia.
Qed.

Lemma push_window c m l w v : (0 < c)%nat → 0 ≤ m → Z.of_nat c * m < 2 ^ 53 → Forall (λ x, 0 ≤ x ≤ m) (l ++ [v]) → window_of c l w →
  ∃ w', push w (of_Z v) = Some w' ∧ window_of c (l ++ [v]) w'.
Proof.
  intros Hc Hm Hcm HF W. pose proof HF as [HFl HFv]%Forall_app. rewrite Forall_singleton in HFv.
  pose proof (Nat.mod_upper_bound (length l) c ltac:(lia)) as Hmod. unfold push. rewrite (wo_idx _ _ _ W).
  destruct (lookup_lt_is_Some_2 (wvalues w) (length l mod c)) as [old Hold]; [by rewrite (wo_len _ _ _ W)|]. rewrite Hold. cbn [mbind option_bind].
  assert (HS : fadd (if wfilled w then fsub (wsum w) old else wsum w) (of_Z v) = of_Z (total (recent c (l ++ [v])))).
  { rewrite (wo_filled _ _ _ W), (wo_sum _ _ _ W), recent_snoc by done.
    assert (Hbs : ∀ l', Forall (λ x, 0 ≤ x ≤ m) l' → 0 ≤ total (recent c l') ≤ Z.of_nat c * m).
    { intros l' HF'. pose proof (total_bounds m (recent c l') Hm ltac:(by apply Forall_drop)) as Hb. unfold recent in *. rewrite length_drop in Hb. nia. }
    pose proof (Hbs l HFl) as Hb. pose proof (Hbs _ HF) as Hb'. rewrite recent_snoc in Hb' by done.
    destruct (Nat.leb_spec c (length l)) as [Hle|Hlt].
    - destruct (lookup_lt_is_Some_2 l (length l - c)) as [x Hx]; [lia|]. rewrite (nth_lookup_Some _ _ _ _ Hx) in *.
      pose proof (wo_values _ _ _ W (length l - c) x ltac:(lia) Hx) as Hv.
      assert (Em : ((length l - c) mod c = length l mod c)%nat) by (replace (length l) with ((length l - c) + 1 * c)%nat at 2 by lia; by rewrite Nat.Div0.mod_add).
      rewrite Em, Hold in Hv. injection Hv as ->. pose proof (proj1 (Forall_lookup _ _) HFl _ _ Hx) as Hxb. cbn in Hxb.
      assert (x ≤ total (recent c l)). { unfold recent. rewrite (drop_S _ _ _ Hx). cbn. fold (total (drop (S (length l - c)) l)).
        pose proof (total_bounds m (drop (S (length l - c)) l) Hm ltac:(by apply Forall_drop)). lia. }
      rewrite fsub_exact, fadd_exact by lia. f_equal. lia.
    - rewrite fadd_exact by lia. f_equal. lia. }
  destruct (if wfilled w then _ else _) as [s q] eqn:Es in |- *.
  assert (s = if wfilled w then fsub (wsum w) old else wsum w) as -> by (by destruct (wfilled w); injection Es). clear Es.
  set (i := if (S (length l mod c) =? wcap w)%nat then _ else _).
  assert (Hi : i = ((length (l ++ [v]) mod c)%nat, (c <=? length (l ++ [v]))%nat)).
  { unfold i. rewrite (wo_cap _ _ _ W), (wo_filled _ _ _ W), length_app. cbn [length].
    pose proof (Nat.div_mod_eq (length l) c) as HD. set (d := (length l / c)%nat) in *. set (r := (length l mod c)%nat) in *.
    destruct (Nat.eqb_spec (S r) c) as [E|E].
    - assert (length l + 1 = (d + 1) * c)%nat as E' by nia. rewrite E'. rewrite Nat.Div0.mod_mul. f_equal. symmetry. apply Nat.leb_le. nia.
    - assert (((length l + 1) mod c = S r)%nat) as ->. { rewrite HD. replace (c * d + r + 1)%nat with (S r + d * c)%nat by lia. rewrite Nat.Div0.mod_add. apply Nat.mod_small. lia. }
      f_equal. destruct (Nat.leb_spec c (length l)), (Nat.leb_spec c (length l + 1)); try done; try lia. exfalso.
      assert (d = 0)%nat by (destruct d; [done|nia]). subst d. nia. }
  rewrite Hi. eexists. split; [done|]. split; cbn [wcap wvalues widx wfilled wsum]; [by apply (wo_cap _ _ _ W)|by rewrite length_insert; apply (wo_len _ _ _ W)|done|done| |done].
  intros k x Hk Hx. rewrite length_app in Hk. cbn in Hk. destruct (decide (k = length l)) as [->|Hne].
  - rewrite lookup_app_r, Nat.sub_diag in Hx by done. injection Hx as ->. rewrite list_lookup_insert_eq; [done|]. by rewrite (wo_len _ _ _ W).
  - apply lookup_lt_Some in Hx as Hlt. rewrite length_app in Hlt. cbn in Hlt. rewrite lookup_app_l in Hx by lia.
    rewrite list_lookup_insert_ne by (intros E; by apply (mod_apart c k (length l)); [lia|]). apply (wo_values _ _ _ W); [lia|done].
Qed.

(** ** Heartbeats *)

Lemma of_Z_nonpos x : x ≤ 0 → fltb fzero (of_Z x) = false.
Proof.
  intros Hx. destruct x as [|p|p]; [done|lia|]. unfold of_Z, binary_normalize, binary_round.
  unfold binary_round_aux. repeat (case_match; try done).
Qed.

Lemma len_window c l w : (0 < c)%nat → window_of c l w → len w = (c `min` length l)%nat.
Proof.
  intros Hc W. unfold len. rewrite (wo_filled _ _ _ W), (wo_cap _ _ _ W), (wo_idx _ _ _ W). destruct (Nat.leb_spec c (length l)); [lia|].
  rewrite Nat.mod_small by lia. lia.
Qed.

Fixpoint gaps (last : Z) (times : list Z) : list Z :=
  match times with [] => [] | t :: ts => (if 0 <? t - last then [t - last] else []) ++ gaps t ts end.

Fixpoint heartbeats (times : list Z) (p : PhiAccrual) : option PhiAccrual :=
  match times with [] => Some p | t :: ts => p ← Heartbeat t p; heartbeats ts p end.

Lemma heartbeats_window c m ts : ∀ l last p, (0 < c)%nat → 0 ≤ m → Z.of_nat c * m < 2 ^ 53 →
  Forall (λ x, 0 ≤ x ≤ m) (l ++ gaps last ts) → window_of c l (pWindow p) → pLast p = Some last →
  ∃ p', heartbeats ts p = Some p' ∧ window_of c (l ++ gaps last ts) (pWindow p') ∧ pLast p' = Some (List.last ts last).
Proof.
  induction ts as [|t ts IH]; intros l last p Hc Hm Hcm HF W HL; cbn [gaps heartbeats] in *.
  - exists p. by rewrite app_nil_r.
  - unfold Heartbeat. rewrite HL. assert (Hlast : List.last (t :: ts) last = List.last ts t) by (clear; destruct ts as [|u ts]; [done|]; revert t u; induction ts as [|v ts IH]; intros t u; [done|]; by apply (IH t v)).
    destruct (Z.ltb_spec 0 (t - last)) as [Hg|Hg].
    + rewrite app_assoc in HF. pose proof HF as [HF1 _]%Forall_app. pose proof HF1 as [_ Hv]%Forall_app. rewrite Forall_singleton in Hv.
      assert (t - last < 2 ^ 53) by nia.
      assert (fltb fzero (of_Z (t - last)) = true) as -> by (change fzero with (of_Z 0); rewrite fltb_exact by lia; by apply Z.ltb_lt).
      destruct (push_window c m l (pWindow p) (t - last) Hc Hm Hcm HF1 W) as (w' & -> & W'). cbn [mbind option_bind].
      destruct (IH (l ++ [t - last]) t (MkPhi w' (pMinStdDev p) (pFirst p) (Some t))) as (p' & E & Hw & Hl); try done.
      exists p'. rewrite Hlast. rewrite app_assoc. done.
    + rewrite of_Z_nonpos by lia. cbn [mbind option_bind app] in *.
      destruct (IH l t (MkPhi (pWindow p) (pMinStdDev p) (pFirst p) (Some t))) as (p' & E & Hw & Hl); try done. exists p'. by rewrite Hlast.
Qed.

(** C12: the detector's mean is the exact average of its last [windowSize]
    samples, seeded twice with the assumed cadence, however long it has run: the
    running sum in float64 does not drift while the samples of a window add up to
    less than 2^53 ns (104 days).  No heartbeat panics, and one that does not
    follow its predecessor in time is no sample. *)
Theorem mean_is_recent_average windowSize minStdDev first t ts m (c := Z.to_nat windowSize) (samples := first :: first :: gaps t ts) :
  0 < windowSize → 0 < first → windowSize * m < 2 ^ 53 → Forall (λ x, 0 ≤ x ≤ m) samples →
  ∃ p, heartbeats (t :: ts) (NewPhiAccrual windowSize minStdDev first) = Some p ∧
    len (pWindow p) = (c `min` length samples)%nat ∧
    mean (pWindow p) = fdiv (of_Z (total (recent c samples))) (of_Z (Z.of_nat (c `min` length samples))) ∧
    pLast p = Some (List.last ts t).
Proof.
  intros Hws Hfirst Hm HF. assert (Hc : (0 < c)%nat) by (unfold c; lia). assert (Hm0 : 0 ≤ m) by (apply Forall_cons in HF as [? _]; lia).
  assert (Hcm : Z.of_nat c * m < 2 ^ 53) by (unfold c; by rewrite Z2Nat.id by lia).
  cbn [heartbeats]. unfold Heartbeat, NewPhiAccrual. cbn [pLast pFirst pWindow pMinStdDev].
  destruct (Z.leb_spec windowSize 0); [lia|]. destruct (Z.leb_spec first 0); [lia|]. fold c.
  unfold samples in HF. change (first :: first :: gaps t ts) with (([] ++ [first]) ++ [first] ++ gaps t ts) in HF.
  rewrite app_assoc in HF. pose proof HF as [HF2 _]%Forall_app. pose proof HF2 as [HF1 _]%Forall_app.
  destruct (push_window c m [] _ first Hc Hm0 Hcm HF1 (window_new c Hc)) as (w1 & E1 & W1). rewrite E1. cbn [mbind option_bind].
  destruct (push_window c m ([] ++ [first]) w1 first Hc Hm0 Hcm HF2 W1) as (w2 & E2 & W2). rewrite E2. cbn [mbind option_bind].
  destruct (heartbeats_window c m ts (([] ++ [first]) ++ [first]) t (MkPhi w2 (of_Z (if minStdDev <=? 0 then 100000000 else minStdDev)) (of_Z first) (Some t)) Hc Hm0 Hcm HF W2 eq_refl) as (p & E & W & HL).
  exists p. change ((([] ++ [first]) ++ [first]) ++ gaps t ts) with samples in W. split_and!; [done|by apply len_window| |done].
  unfold mean. rewrite (len_window c samples) by done. destruct (Nat.eqb_spec (c `min` length samples) 0); [unfold samples in *; cbn in *; lia|].
  by rewrite (wo_sum _ _ _ W).
Qed.

(** A window of three: seeded with a second, then beats half a second apart and
    one that comes late. *)
Lemma mean_is_recent_average_witness : ∃ p,
  heartbeats [7; 500000007; 1000000007; 3000000007] (NewPhiAccrual 3 0 1000000000) = Some p ∧ mean (pWindow p) = of_Z 1000000000.
Proof.
  destruct (mean_is_recent_average 3 0 1000000000 7 [500000007; 1000000007; 3000000007] 2000000000) as (p & E & _ & Hm & _);
    [lia|lia|lia|repeat constructor; lia|].
  exists p. split; [done|]. rewrite Hm. vm_compute. reflexivity.
Defined.

(** Before its first heartbeat a node has suspicion zero: it is available at
    every positive threshold, whenever it is asked. *)
Theorem unseen_is_available exp log10 ws msd first now threshold :
  Phi exp log10 now (NewPhiAccrual ws msd first) = fzero ∧
  Available exp log10 now threshold (NewPhiAccrual ws msd first) = fltb fzero threshold.
Proof. done. Qed.
