(* ===== verification/Vsearch.v ===== *)
(** * Vector similarity search (vsearch/)

    The exact top-k cosine search: normalised rows in one flat buffer, a bounded
    min-heap of [container/heap] (Heap.v) over the ranking.  float32 is the
    binary32 of the Standard Library's [SpecFloat], each operation rounded (Go
    leaves fused multiply-add to the platform; the model does not fuse). *)
From Stdlib Require Import SpecFloat.
From Stdlib Require Strings.String.
From S2P Require Import Prelude GoLib Encoding Float64 Heap.
Open Scope Z_scope.

(** ** float32 *)

Notation float32 := spec_float.
Definition add32 : float32 → float32 → float32 := SFadd 24 128.
Definition mul32 : float32 → float32 → float32 := SFmul 24 128.
(** [float64(x)] and [float32(x)]. *)
Definition to64 (x : float32) : float64 :=
  match x with S754_finite s m e => binary_round 53 1024 s m e | _ => x end.
Definition to32 (x : float64) : float32 :=
  match x with S754_finite s m e => binary_round 24 128 s m e | _ => x end.
Definition zero32 : float32 := S754_zero false.
Definition fsqrt : float64 → float64 := SFsqrt 53 1024.

Record Result := MkResult { rID : string; rScore : float32 }.

Record Embedding := MkEmbedding { eID : string; eDataset : string; eVector : list float32 }.

Record Index := MkIndex { dim : Z; ids : list string; data : list float32 }.

(** [less(a, b)]: [a] ranks below [b]. *)
Definition less (a b : Result) : bool :=
  if negb (SFeqb (rScore a) (rScore b)) then SFltb (rScore a) (rScore b)
  else String.ltb (rID b) (rID a).

Definition normalize (v : list float32) : result (list float32) :=
  let sum := foldl (λ s x, fadd s (fmul (to64 x) (to64 x))) (S754_zero false) v in
  let norm := fsqrt sum in
  if SFeqb norm (S754_zero false) then Err "zero-magnitude vector cannot be normalised"
  else let inv := to32 (fdiv (of_Z 1) norm) in Ok (map (λ x, mul32 x inv) v).

(** [dot]; [b] is as long as [a], else Go panics. *)
Definition dot (a b : list float32) : float32 := foldl (λ s p, add32 s (mul32 (fst p) (snd p))) zero32 (zip a b).

Definition fail_row (i : Z) (id what : string) : string := "vsearch: row " +:+ fmt_d i +:+ " (" +:+ fmt_q id +:+ ")" +:+ what.

(** The loop of [NewIndex] from row [i] on. *)
Fixpoint load_rows (d i : Z) (rows : list Embedding) (ix : Index) : result Index :=
  match rows with
  | [] => Ok ix
  | r :: rows =>
      if negb (Z.of_nat (length (eVector r)) =? d)
      then Err (fail_row i (eID r) (" has vector len " +:+ fmt_d (Z.of_nat (length (eVector r))) +:+ ", want dim " +:+ fmt_d d))
      else match normalize (eVector r) with
           | Err e => Err (fail_row i (eID r) (": " +:+ e))
           | Ok unit => load_rows d (i + 1) rows (MkIndex (dim ix) (ids ix ++ [eID r]) (data ix ++ unit))
           end
  end.

Definition NewIndex (d : Z) (rows : list Embedding) : result Index :=
  if d <=? 0 then Err ("vsearch: dim must be positive, got " +:+ fmt_d d)
  else load_rows d 0 rows (MkIndex d [] []).

Definition Len (ix : Index) : nat := length (ids ix).
Definition Dim (ix : Index) : Z := dim ix.

(** [ix.data[i*ix.dim:(i+1)*ix.dim]]. *)
Definition row (ix : Index) (i : nat) : list float32 :=
  let d := Z.to_nat (dim ix) in take d (drop (i * d) (data ix)).

Fixpoint lookup_loop (ix : Index) (id : string) (i : nat) (l : list string) : option (list float32) :=
  match l with
  | [] => None
  | got :: l => if bool_decide (got = id) then Some (row ix i) else lookup_loop ix id (S i) l
  end.
Definition Lookup (ix : Index) (id : string) : option (list float32) := lookup_loop ix id 0 (ids ix).

(** A turn of [Search]'s loop with a row that is not skipped. *)
Definition offer (k : Z) (h : list Result) (r : Result) : list Result :=
  if Z.of_nat (length h) <? k then Push less h r
  else match h with
       | [] => h
       | root :: _ => if less root r then Fix less (<[0%nat := r]> h) 0 else h
       end.

Fixpoint scan (ix : Index) (q : list float32) (k : Z) (skip : list string) (i : nat) (l : list string) (h : list Result) : list Result :=
  match l with
  | [] => h
  | id :: l =>
      if bool_decide (id ∈ skip) then scan ix q k skip (S i) l h
      else scan ix q k skip (S i) l (offer k h (MkResult id (dot q (row ix i))))
  end.

Definition Search (ix : Index) (query : list float32) (k : Z) (exclude : list string) : result (list Result) :=
  if negb (Z.of_nat (length query) =? dim ix)
  then Err ("vsearch: query has len " +:+ fmt_d (Z.of_nat (length query)) +:+ ", want dim " +:+ fmt_d (dim ix))
  else if k <=? 0 then Err ("vsearch: k must be positive, got " +:+ fmt_d k)
  else match normalize query with
       | Err e => Err ("vsearch: query: " +:+ e)
       | Ok q => let h := scan ix q k exclude 0 (ids ix) [] in Ok (drain less (length h) h [])
       end.

(** ** The ranking *)

Definition scored (r : Result) : Prop := is_nan (rScore r) = false.

Lemma ltb_le (a b : string) : String.ltb b a = false ↔ str_le a b.
Proof. unfold str_le, String.leb, String.ltb. rewrite String.compare_antisym. by destruct (String.compare a b). Qed.
Lemma ltb_asym (a b : string) : String.ltb a b = true → String.ltb b a = false.
Proof. unfold String.ltb. rewrite String.compare_antisym. by destruct (String.compare b a). Qed.

Lemma less_key a b : scored a → scored b →
  less a b = true ↔ klt (float_key (rScore a)) (float_key (rScore b)) ∨ float_key (rScore a) = float_key (rScore b) ∧ String.ltb (rID b) (rID a) = true.
Proof.
  intros Ha Hb. pose proof (SFcompare_key _ _ Ha Hb) as HK. unfold less, SFeqb, SFltb.
  destruct (SFcompare _ _) as [[]|]; cbn; [..|done].
  - split; [tauto|]. intros [H|[_ H]]; [|done]. rewrite HK in H. unfold klt in H. lia.
  - split; [tauto|done].
  - split; [done|]. intros [H|[H _]]; [|rewrite H in HK]; unfold klt in *; lia.
Qed.

Lemma rank_key a b : scored a → scored b →
  less b a = false ↔ klt (float_key (rScore a)) (float_key (rScore b)) ∨ float_key (rScore a) = float_key (rScore b) ∧ str_le (rID b) (rID a).
Proof.
  intros Ha Hb. rewrite <- not_true_iff_false, less_key, <- ltb_le, <- not_true_iff_false by done.
  assert (klt (float_key (rScore a)) (float_key (rScore b)) ∨ float_key (rScore a) = float_key (rScore b) ∨ klt (float_key (rScore b)) (float_key (rScore a))) as [H|[H|H]].
  { unfold klt. destruct (float_key (rScore a)) as [[a1 a2] a3], (float_key (rScore b)) as [[b1 b2] b3]. cbn.
    destruct (Z.lt_trichotomy a1 b1) as [|[->|]]; [lia| |lia]. destruct (Z.lt_trichotomy a2 b2) as [|[->|]]; [lia| |lia].
    destruct (Z.lt_trichotomy a3 b3) as [|[->|]]; [lia|by right; left|lia]. }
  - split; [by left|]. intros _ [H'|[H' _]]; [|rewrite H' in H]; unfold klt in *; lia.
  - rewrite H. split; [intros Hn; right; split; [done|]; tauto|]. intros [H'|[_ H']] [H''|[_ H'']]; try (unfold klt in *; lia); done.
  - split; [tauto|]. intros [H'|[H' _]]; [|rewrite H' in H]; unfold klt in *; lia.
Qed.

#[export] Instance less_ranking : Ranking less scored.
Proof.
  split.
  - intros a b. destruct (decide (scored a ∧ scored b)) as [[Ha Hb]|Hn].
    + rewrite less_key, rank_key by done. rewrite <- ltb_le. intros [H|[H I]]; [by left|right]. split; [done|by apply ltb_asym].
    + unfold less, SFeqb, SFltb, scored in *. destruct (rScore a) as [s|s| |s m e], (rScore b) as [s'|s'| |s' m' e']; cbn in *; try done; tauto.
  - intros x y z Hx Hy Hz. rewrite !rank_key by done. intros [H1|[H1 I1]] [H2|[H2 I2]].
    + left. unfold klt in *. lia.
    + left. by rewrite <- H2.
    + left. by rewrite H1.
    + right. split; [congruence|by trans (rID y)].
Qed.

(** ** What the scan keeps *)

(** The rows that are not excluded, in index order, with their scores. *)
Fixpoint candidates_from (ix : Index) (q : list float32) (skip : list string) (i : nat) (l : list string) : list Result :=
  match l with
  | [] => []
  | id :: l =>
      if bool_decide (id ∈ skip) then candidates_from ix q skip (S i) l
      else MkResult id (dot q (row ix i)) :: candidates_from ix q skip (S i) l
  end.
Definition candidates (ix : Index) (q : list float32) (skip : list string) : list Result :=
  candidates_from ix q skip 0 (ids ix).

Lemma scan_offers ix q k skip i l h : scan ix q k skip i l h = foldl (offer k) h (candidates_from ix q skip i l).
Proof. revert i h. induction l as [|id l IH]; intros i h; cbn; [done|]. case_bool_decide; cbn; apply IH. Qed.

(** [not below]: the order of the answer. *)
Definition ranks (x y : Result) : Prop := less x y = false.
#[export] Instance ranks_dec : RelDecision ranks := λ x y, decide (less x y = false).

Lemma ranks_refl x : ranks x x.
Proof. unfold ranks. destruct (less x x) eqn:E; [|done]. apply less_asym in E as E'. congruence. Qed.

Lemma ranks_trans x y z : scored x → scored y → scored z → ranks x y → ranks y z → ranks x z.
Proof. unfold ranks. intros Hx Hy Hz H1 H2. by apply (rank_trans z y x). Qed.

(** A turn keeps or drops one element; on a heap of scored results, one that
    ranks no higher than those kept. *)
Lemma offer_step k h r : (length h ≤ Z.to_nat k)%nat → 0 < k →
  ∃ out, r :: h ≡ₚ offer k h r ++ out ∧ length (offer k h r) = (Z.to_nat k `min` S (length h))%nat ∧
  (Forall scored h → heap less h → scored r → heap less (offer k h r) ∧ (∀ x y, x ∈ offer k h r → y ∈ out → ranks x y) ∧
     (length h = Z.to_nat k → ∀ x, x ∈ offer k h r → ∃ z, z ∈ h ∧ ranks x z)).
Proof.
  intros Hl Hk. unfold offer. destruct (Z.ltb_spec (Z.of_nat (length h)) k) as [Hlt|Hge].
  - exists []. rewrite app_nil_r, (Permutation_length (Push_Permutation less h r)). cbn [length]. split_and!; [by rewrite Push_Permutation|lia|].
    intros Hs Hh Hr. split_and!; [by apply (Push_heap less (ok := scored))| |lia]. intros x y _ Hy. by apply elem_of_nil in Hy.
  - destruct h as [|root t]; [cbn in *; lia|]. destruct (less root r) eqn:HL.
    + pose proof (Fix_Permutation less (<[0%nat:=r]> (root :: t)) 0) as HF. exists [root]. split_and!.
      * rewrite HF. cbn. by rewrite <- Permutation_cons_append, Permutation_swap.
      * rewrite (Permutation_length HF), length_insert. cbn in *. lia.
      * intros Hs Hh Hr. split; [by apply (Fix_root less (ok := scored) (root :: t))|].
        pose proof (heap_least less _ root Hs Hh eq_refl) as Hleast. rewrite Forall_forall in Hleast.
        assert (HR : ∀ x, x ∈ Fix less (<[0%nat:=r]> (root :: t)) 0 → ranks x root).
        { intros x Hx. rewrite HF in Hx. cbn in Hx. apply elem_of_cons in Hx as [->|Hx]; [by apply less_asym|]. apply Hleast. by right. }
        split; [intros x y Hx ->%list_elem_of_singleton; by apply HR|]. intros _ x Hx. exists root. split; [by left|by apply HR].
    + exists [r]. split_and!; [apply Permutation_cons_append|cbn in *; lia|]. intros Hs Hh Hr. split; [done|].
      pose proof (heap_least less _ root Hs Hh eq_refl) as Hleast. rewrite Forall_forall in Hs, Hleast. split.
      * intros x y Hx ->%list_elem_of_singleton. apply (ranks_trans x root r); [by apply Hs|apply Hs; by left|done|by apply Hleast|done].
      * intros _ x Hx. exists x. split; [done|apply ranks_refl].
Qed.

(** After the rows [seen] the heap holds [k] of them, and on comparable scores
    no other ranks higher than one it holds. *)
Lemma offers_topk k seen : 0 < k → let h := foldl (offer k) [] seen in
  ∃ rest, seen ≡ₚ h ++ rest ∧ length h = (Z.to_nat k `min` length seen)%nat ∧
  (Forall scored seen → heap less h ∧ ∀ x y, x ∈ h → y ∈ rest → ranks x y).
Proof.
  intros Hk. cbv zeta. induction seen as [|r seen (rest & HP & Hl & Ho)] using rev_ind.
  - exists []. split_and!; [done|cbn; lia|]. intros _. split; [intros c Hc; cbn in Hc; lia|]. intros x y Hx. by apply elem_of_nil in Hx.
  - rewrite foldl_snoc. set (h := foldl (offer k) [] seen) in *.
    destruct (offer_step k h r) as (out & HP' & Hl' & Ho'); [lia|done|]. exists (out ++ rest). split_and!.
    + rewrite <- Permutation_cons_append, HP, app_assoc, <- HP'. done.
    + rewrite Hl', Hl, length_app. cbn. lia.
    + intros [Hs Hr]%Forall_app. rewrite Forall_singleton in Hr. destruct (Ho Hs) as [Hh Hrest]. pose proof (Permutation_length HP) as HL. rewrite length_app in HL.
      pose proof Hs as Hs'. rewrite HP in Hs'. apply Forall_app in Hs' as [Hsh Hsr].
      destruct (Ho' Hsh Hh Hr) as (Hh' & Hout & Habove). split; [done|]. intros x y Hx [Hy|Hy]%elem_of_app; [by apply Hout|].
      assert (0 < length rest)%nat by (destruct rest; [by apply elem_of_nil in Hy|cbn; lia]).
      destruct (Habove ltac:(lia) x Hx) as (z & Hz & Hxz). rewrite Forall_forall in Hsh, Hsr.
      apply (ranks_trans x z y); [|by apply Hsh|by apply Hsr|done|by apply Hrest].
      assert (x ∈ r :: h) as [->|Hxh]%elem_of_cons by (rewrite HP'; apply elem_of_app; by left); [done|by apply Hsh].
Qed.

(** The answer: [k] of the candidates, in order; the rest do not rank higher. *)
Definition TopK (k : Z) (cands out : list Result) : Prop :=
  length out = (Z.to_nat k `min` length cands)%nat ∧ StronglySorted ranks out ∧
  ∃ rest, cands ≡ₚ out ++ rest ∧ ∀ x y, x ∈ out → y ∈ rest → ranks x y.

Lemma Search_answers ix query q k ex : Z.of_nat (length query) = dim ix → 0 < k → normalize query = Ok q →
  ∃ out rest, Search ix query k ex = Ok out ∧ candidates ix q ex ≡ₚ out ++ rest ∧
    length out = (Z.to_nat k `min` length (candidates ix q ex))%nat ∧
    (Forall scored (candidates ix q ex) → TopK k (candidates ix q ex) out).
Proof.
  intros Hd Hk Hq. unfold Search. rewrite (proj2 (Z.eqb_eq _ _) Hd), Hq. destruct (Z.leb_spec k 0); [lia|]. cbn [negb].
  rewrite scan_offers. fold (candidates ix q ex). destruct (offers_topk k (candidates ix q ex) Hk) as (rest & HP & Hl & Ho).
  set (h := foldl (offer k) [] (candidates ix q ex)) in *. pose proof (drain_Permutation less h []) as HD. rewrite app_nil_r in HD.
  pose proof (Permutation_length HD) as HL. set (out := drain less (length h) h []) in *. exists out, rest. split; [done|].
  assert (HP' : candidates ix q ex ≡ₚ out ++ rest) by by rewrite HP, HD. split_and!; [done|lia|].
  intros Hs. destruct (Ho Hs) as [Hh Hr]. split_and!; [lia| |exists rest; split; [done|]; intros x y Hx; apply Hr; by rewrite <- HD].
  apply (drain_sorted less (ok := scored)); [|done|constructor|intros x y Hx; by apply elem_of_nil in Hx].
  rewrite HP in Hs. by apply Forall_app in Hs as [? _].
Qed.

(** ** The index of a corpus *)

Lemma normalize_length v u : normalize v = Ok u → length u = length v.
Proof. unfold normalize. destruct (SFeqb _ _); [done|]. intros [= <-]. by rewrite length_map. Qed.

Lemma load_rows_spec d rows : ∀ i ix ix', load_rows d i rows ix = Ok ix' → dim ix' = dim ix ∧
  ∃ units, Forall2 (λ r u, normalize (eVector r) = Ok u ∧ Z.of_nat (length u) = d) rows units ∧
    ids ix' = ids ix ++ map eID rows ∧ data ix' = data ix ++ concat units.
Proof.
  induction rows as [|r rows IH]; intros i ix ix'; cbn [load_rows].
  - intros [= <-]. split; [done|]. exists []. by rewrite !app_nil_r.
  - destruct (Z.eqb_spec (Z.of_nat (length (eVector r))) d) as [Hd|]; cbn [negb]; [|done].
    destruct (normalize (eVector r)) as [u|] eqn:Hu; [|done]. intros (E & units & HF & Hi & Hdata)%IH. cbn [dim ids data] in *.
    split; [done|]. exists (u :: units). split_and!.
    + constructor; [|done]. by rewrite (normalize_length _ _ Hu).
    + rewrite Hi, <- app_assoc. done.
    + rewrite Hdata, <- app_assoc. done.
Qed.

Lemma row_concat (n : nat) (units : list (list float32)) j u : Forall (λ u, length u = n) units → units !! j = Some u →
  take n (drop (j * n) (concat units)) = u.
Proof.
  intros HF. revert j. induction HF as [|u' units Hu HF IH]; intros [|j] Hj; try done; cbn [concat Nat.mul].
  - injection Hj as ->. by rewrite drop_0, take_app_length'.
  - rewrite <- drop_drop, drop_app_length' by done. by apply IH.
Qed.

(** The row [r] as [Search] sees it: skipped, or scored. *)
Definition score_row (q : list float32) (ex : list string) (r : Embedding) : option Result :=
  if bool_decide (eID r ∈ ex) then None
  else match normalize (eVector r) with Ok u => Some (MkResult (eID r) (dot q u)) | Err _ => None end.
Definition scores (q : list float32) (ex : list string) (rows : list Embedding) : list Result := omap (score_row q ex) rows.

Record built (d : Z) (rows : list Embedding) (ix : Index) (units : list (list float32)) : Prop := {
  built_dim : dim ix = d; built_pos : 0 < d;
  built_ids : ids ix = map eID rows;
  built_units : Forall2 (λ r u, normalize (eVector r) = Ok u) rows units;
  built_row i u : units !! i = Some u → row ix i = u;
  built_len : Forall (λ u, Z.of_nat (length u) = d) units }.

Lemma NewIndex_built d rows ix : NewIndex d rows = Ok ix → ∃ units, built d rows ix units.
Proof.
  unfold NewIndex. destruct (Z.leb_spec d 0) as [|Hd]; [done|]. intros (E & units & HF & Hi & Hdata)%load_rows_spec. cbn in *.
  assert (HL : Forall (λ u, Z.of_nat (length u) = d) units) by (by eapply Forall2_Forall_r; [exact HF|]; apply Forall_true; intros ? ? [_ ?]).
  exists units. split; [done..|by eapply Forall2_impl; [exact HF|]; intros ? ? [? _]| |done].
  intros i u Hu. unfold row. rewrite E, Hdata. apply row_concat; [|done].
  eapply Forall_impl; [exact HL|]. cbn. intros; lia.
Qed.

Lemma candidates_scores d rows ix units q ex : built d rows ix units → candidates ix q ex = scores q ex rows.
Proof.
  intros B. unfold candidates, scores. rewrite (built_ids _ _ _ _ B). pose proof (built_units _ _ _ _ B) as HU.
  assert (HR : ∀ j u, units !! j = Some u → row ix (0 + j) = u) by apply (built_row _ _ _ _ B). revert HR. generalize 0%nat as i.
  clear B. induction HU as [|r u rows units Hu HF IH]; intros i HR; [done|]. cbn [map candidates_from omap list_omap].
  unfold score_row at 1. rewrite Hu, <- (IH (S i)); [|intros j v Hj; rewrite <- (HR (S j) v Hj); f_equal; lia].
  case_bool_decide; [done|]. by rewrite <- (HR 0%nat u eq_refl), Nat.add_0_r.
Qed.

Lemma Lookup_built d rows ix units id : built d rows ix units →
  Lookup ix id = r ← List.find (λ r, bool_decide (eID r = id)) rows; match normalize (eVector r) with Ok u => Some u | Err _ => None end.
Proof.
  intros B. unfold Lookup. rewrite (built_ids _ _ _ _ B). pose proof (built_units _ _ _ _ B) as HU.
  assert (HR : ∀ j u, units !! j = Some u → row ix (0 + j) = u) by apply (built_row _ _ _ _ B). revert HR. generalize 0%nat as i.
  clear B. induction HU as [|r u rows units Hu HF IH]; intros i HR; [done|]. cbn [map lookup_loop List.find].
  destruct (bool_decide (eID r = id)).
  - cbn. by rewrite Hu, <- (HR 0%nat u eq_refl), Nat.add_0_r.
  - apply IH. intros j v Hj. rewrite <- (HR (S j) v Hj). f_equal. lia.
Qed.

(** ** Queries (query.go) *)

Record EncodeRequest := MkEncodeRequest { erText : string; erImageB64 : string }.
Record Query := MkQuery { qID : string; qVector : list float32; qText : string; qImage : list byte; qK : Z }.

(** The interface [Encoder] is an argument; its implementation is [HTTPEncoder]
    below. *)
Section query.
Context (ix : Index).

Definition ResolveVector (q : Query) (enc : option (EncodeRequest → result (list float32))) : result (list float32 * list string) :=
  if bool_decide (qID q ≠ "") then
    match Lookup ix (qID q) with
    | None => Err ("vsearch: id " +:+ fmt_q (qID q) +:+ " not in index")
    | Some v => Ok (v, [qID q])
    end
  else match qVector q with
  | _ :: _ => Ok (qVector q, [])
  | [] =>
    if bool_decide (qText q ≠ "") then
      match enc with
      | None => Err "vsearch: text query needs an encoder, none configured"
      | Some encode => result_bind (λ v, Ok (v, [])) (encode (MkEncodeRequest (qText q) ""))
      end
    else match qImage q with
    | _ :: _ =>
        match enc with
        | None => Err "vsearch: image query needs an encoder, none configured"
        | Some encode => result_bind (λ v, Ok (v, [])) (encode (MkEncodeRequest "" (StdEncoding.EncodeToString (qImage q))))
        end
    | [] => Err "vsearch: empty query (set one of id/vector/text/image)"
    end
  end.

Definition Run (q : Query) (enc : option (EncodeRequest → result (list float32))) : result (list Result) :=
  let k := if qK q <=? 0 then 10 else qK q in
  result_bind (λ '(vec, exclude), Search ix vec k exclude) (ResolveVector q enc).
End query.

(** ** The encoder's client (encode.go) *)

(** What came back: the status code and line, the body, what its JSON holds as
    [vector]. *)
Record encode_reply := MkEncodeReply { epCode : Z; epStatus : string; epMessage : string; epVector : result (list float32) }.

Definition HTTPEncoder_Encode (url : string) (post : EncodeRequest → result encode_reply) (req : EncodeRequest) : result (list float32) :=
  if bool_decide (erText req = "") && bool_decide (erImageB64 req = "")
  then Err "vsearch: encode request has neither text nor image"
  else match post req with
  | Err e => Err ("vsearch: call encoder " +:+ url +:+ "/encode: " +:+ e)
  | Ok resp =>
      if negb (epCode resp =? 200)
      then Err ("vsearch: encoder " +:+ url +:+ "/encode returned " +:+ epStatus resp +:+ ": " +:+ epMessage resp)
      else match epVector resp with
      | Err e => Err ("vsearch: decode encoder response: " +:+ e)
      | Ok [] => Err "vsearch: encoder returned empty vector"
      | Ok v => Ok v
      end
  end.

(** ** Loading (load.go) *)

Definition s3_scheme : string := "s3://".

(** [os.ReadFile] and the object store are arguments; the store answers a Get
    with a body, which may fail to be read. *)
Definition loadBytes (readFile : string → result (list byte)) (store : option (string → result (result (list byte)))) (ref : string) : result (list byte) :=
  let forceObject := String.prefix s3_scheme ref in
  let key := if forceObject then String.substring 5 (String.length ref - 5) ref else ref in
  let from_store :=
    match store with
    | None => Err ("vsearch: index " +:+ fmt_q ref +:+ " needs object storage but none configured")
    | Some Get =>
        match Get key with
        | Err e => Err ("vsearch: get index " +:+ fmt_q key +:+ " from storage: " +:+ e)
        | Ok (Err e) => Err ("vsearch: read index " +:+ fmt_q key +:+ " from storage: " +:+ e)
        | Ok (Ok data) => Ok data
        end
    end in
  if forceObject then from_store
  else match readFile ref with
  | Ok data => Ok data
  | Err e => match store with None => Err ("vsearch: read index " +:+ fmt_q ref +:+ ": " +:+ e) | Some _ => from_store end
  end.

(** ** Properties *)

Lemma scores_elem q ex rows x : x ∈ scores q ex rows → rID x ∉ ex ∧ ∃ r, r ∈ rows ∧ eID r = rID x.
Proof.
  unfold scores. rewrite list_elem_of_omap. intros (r & Hr & E). unfold score_row in E.
  case_bool_decide as Hex; [done|]. destruct (normalize _); [|done]. injection E as <-. cbn. split; [done|]. by exists r.
Qed.

Lemma scores_NoDup q ex rows : NoDup (map eID rows) → NoDup (map rID (scores q ex rows)).
Proof.
  induction rows as [|r rows IH]; cbn; [constructor|]. intros [Hr Hrs]%NoDup_cons. unfold scores. cbn. fold (scores q ex rows).
  destruct (score_row q ex r) as [x|] eqn:E; [|by apply IH]. cbn. apply NoDup_cons. split; [|by apply IH].
  assert (rID x = eID r) as ->. { unfold score_row in E. case_bool_decide; [done|]. destruct (normalize _); [|done]. by injection E as <-. }
  intros (y & Ey & Hy)%list_elem_of_fmap. apply scores_elem in Hy as (_ & r' & Hr' & Er'). apply Hr. rewrite Ey, <- Er'. by apply list_elem_of_fmap_2.
Qed.

Lemma ranks_total x y : ranks x y ∨ ranks y x.
Proof. unfold ranks. destruct (less x y) eqn:E; [right; by apply less_asym|by left]. Qed.
#[export] Instance ranks_Total : Total ranks := ranks_total.

Lemma Sorted_scored l : Forall scored l → Sorted ranks l → StronglySorted ranks l.
Proof.
  intros Hs. induction 1 as [|x l Hl IH Hx]; [constructor|]. apply Forall_cons in Hs as [Hx' Hs]. specialize (IH Hs). constructor; [done|].
  destruct Hx as [|y l Hxy]; [constructor|]. apply Forall_cons in Hs as [Hy Hs]. inversion_clear IH as [|? ? _ HF]. constructor; [done|].
  rewrite Forall_forall in *. intros z Hz. apply (ranks_trans x y z); [done|done|by apply Hs|done|by apply HF].
Qed.

(** With distinct ids two results that rank equal are the same. *)
Lemma ranks_antisym l x y : NoDup (map rID l) → Forall scored l → x ∈ l → y ∈ l → ranks x y → ranks y x → x = y.
Proof.
  intros HN Hs Hx Hy H1 H2. rewrite Forall_forall in Hs. unfold ranks in *. rewrite rank_key in H1, H2 by auto.
  assert (E : rID x = rID y).
  { destruct H1 as [H1|[E1 I1]], H2 as [H2|[E2 I2]]; try (unfold klt in *; exfalso; try rewrite E1 in *; try rewrite E2 in *; lia). by apply (anti_symm str_le). }
  clear - HN Hx Hy E. induction l as [|z l IH]; [by apply elem_of_nil in Hx|]. cbn in HN. apply NoDup_cons in HN as [Hz HN].
  apply elem_of_cons in Hx as [->|Hx], Hy as [->|Hy]; [done| | |by apply IH].
  - destruct Hz. rewrite E. by apply list_elem_of_fmap_2.
  - destruct Hz. rewrite <- E. by apply list_elem_of_fmap_2.
Qed.

Lemma TopK_sort k cands out : NoDup (map rID cands) → Forall scored cands → TopK k cands out →
  out = take (Z.to_nat k) (merge_sort ranks cands).
Proof.
  intros HN Hs (Hl & Ho & rest & HP & Hr). pose proof Hs as Hs'. rewrite HP in Hs'. apply Forall_app in Hs' as [Hso Hsr].
  assert (E : out ++ merge_sort ranks rest = merge_sort ranks cands).
  { apply (StronglySorted_unique_strong ranks).
    - intros x y Hx Hy. apply (ranks_antisym cands); [done|done| |by rewrite merge_sort_Permutation in Hy].
      rewrite HP. rewrite elem_of_app, merge_sort_Permutation in Hx. by apply elem_of_app.
    - apply StronglySorted_app_2; [|done|].
      + intros x y Hx Hy. rewrite merge_sort_Permutation in Hy. by apply Hr.
      + apply Sorted_scored; [by rewrite merge_sort_Permutation|apply Sorted_merge_sort; apply _].
    - apply Sorted_scored; [by rewrite merge_sort_Permutation|apply Sorted_merge_sort; apply _].
    - by rewrite !merge_sort_Permutation, HP. }
  rewrite <- E. pose proof (Permutation_length HP) as HL. rewrite length_app in HL.
  destruct (decide (Z.to_nat k ≤ length cands)%nat) as [Hk|Hk].
  - rewrite take_app_length' by lia. done.
  - destruct rest; [|cbn in *; lia]. cbn. rewrite app_nil_r, take_ge by lia. done.
Qed.

(** C24: [Search] on the index of a corpus is the reference ranking: its bounded
    heap answers exactly the first [k] of all the scored rows that are not
    excluded, sorted by descending score and ascending id.  The ids are distinct
    and no score is NaN. *)
Theorem search_is_reference d rows ix query q k ex :
  NewIndex d rows = Ok ix → NoDup (map eID rows) → Z.of_nat (length query) = d → 0 < k → normalize query = Ok q →
  Forall scored (scores q ex rows) →
  Search ix query k ex = Ok (take (Z.to_nat k) (merge_sort ranks (scores q ex rows))).
Proof.
  intros (units & B)%NewIndex_built HN Hd Hk Hq Hs. pose proof (candidates_scores d rows ix units q ex B) as E.
  destruct (Search_answers ix query q k ex) as (out & rest & -> & _ & _ & HT); [by rewrite (built_dim _ _ _ _ B)|done|done|].
  f_equal. rewrite E in HT. apply TopK_sort; [by apply scores_NoDup|done|by apply HT].
Qed.

Definition f32 (n d : Z) : float32 := to32 (fdiv (of_Z n) (of_Z d)).
Definition demo_rows : list Embedding :=
  [MkEmbedding "a" "ds" [f32 1 1; f32 0 1]; MkEmbedding "b" "ds" [f32 1 1; f32 1 1];
   MkEmbedding "c" "ds" [f32 (-1) 1; f32 0 1]; MkEmbedding "d" "ds" [f32 3 1; f32 0 1]].
Definition or_empty {A} (r : result (list A)) : list A := match r with Ok l => l | Err _ => [] end.
Definition demo : Index := match NewIndex 2 demo_rows with Ok ix => ix | Err _ => MkIndex 0 [] [] end.

Lemma search_is_reference_witness :
  Search demo [f32 2 1; f32 0 1] 2 ["a"%string] =
    Ok (take 2 (merge_sort ranks (scores (or_empty (normalize [f32 2 1; f32 0 1])) ["a"%string] demo_rows))) ∧
  (rID <$> or_empty (Search demo [f32 2 1; f32 0 1] 2 ["a"%string])) = ["d"; "b"]%string.
Proof.
  split; [|vm_compute; reflexivity].
  apply (search_is_reference 2 demo_rows demo _ _ 2 _);
    [vm_compute; reflexivity|apply (bool_decide_unpack _); vm_compute; exact I|vm_compute; reflexivity|lia|vm_compute; reflexivity|].
  apply (bool_decide_unpack _). vm_compute. exact I.
Defined.

(** Whatever the scores, also NaN, an answered search returns rows of the
    corpus, none excluded, no row twice, and as many as asked for or as there
    are. *)
Theorem search_answers_rows d rows ix query k ex out :
  NewIndex d rows = Ok ix → Search ix query k ex = Ok out →
  ∃ q, normalize query = Ok q ∧ (∃ rest, scores q ex rows ≡ₚ out ++ rest) ∧
  length out = (Z.to_nat k `min` length (scores q ex rows))%nat ∧
  (∀ x, x ∈ out → rID x ∉ ex ∧ ∃ r, r ∈ rows ∧ eID r = rID x) ∧ (NoDup (map eID rows) → NoDup (map rID out)).
Proof.
  intros (units & B)%NewIndex_built HS. assert (Hq : ∃ q, normalize query = Ok q ∧ Z.of_nat (length query) = dim ix ∧ 0 < k).
  { unfold Search in HS. destruct (Z.eqb_spec (Z.of_nat (length query)) (dim ix)); cbn [negb] in HS; [|done].
    destruct (Z.leb_spec k 0); [done|]. destruct (normalize query) as [q|]; [|done]. by exists q. }
  destruct Hq as (q & Hq & Hd & Hk). destruct (Search_answers ix query q k ex Hd Hk Hq) as (out' & rest & HS' & HP & Hl & _).
  rewrite HS' in HS. injection HS as ->. rewrite (candidates_scores _ _ _ _ q ex B) in HP, Hl.
  exists q. split_and!; [done|by exists rest|done| |].
  - intros x Hx. apply (scores_elem q). rewrite HP. apply elem_of_app. by left.
  - intros HN. pose proof (scores_NoDup q ex rows HN) as H. rewrite HP, map_app in H. by apply NoDup_app in H as [? _].
Qed.

Lemma search_answers_rows_witness : ∃ q, normalize [f32 1 1; f32 0 1] = Ok q ∧
  length (or_empty (Search demo [f32 1 1; f32 0 1] 9 ["a"%string])) = (9 `min` length (scores q ["a"%string] demo_rows))%nat.
Proof.
  destruct (search_answers_rows 2 demo_rows demo [f32 1 1; f32 0 1] 9 ["a"%string] (or_empty (Search demo [f32 1 1; f32 0 1] 9 ["a"%string])))
    as (q & Hq & _ & Hl & _); [vm_compute; reflexivity..|]. exists q. by split.
Defined.

(** [Run] by id answers for the first row of that id, unit-normalised, and
    never with that id; an id that is not indexed is an error. *)
Theorem run_by_id d rows ix id k enc : NewIndex d rows = Ok ix → id ≠ ""%string →
  match List.find (λ r, bool_decide (eID r = id)) rows with
  | None => Run ix (MkQuery id [] "" [] k) enc = Err ("vsearch: id " +:+ fmt_q id +:+ " not in index")
  | Some r => ∃ u, normalize (eVector r) = Ok u ∧
      Run ix (MkQuery id [] "" [] k) enc = Search ix u (if k <=? 0 then 10 else k) [id] ∧
      ∀ out, Run ix (MkQuery id [] "" [] k) enc = Ok out → id ∉ map rID out
  end.
Proof.
  intros HN Hid. pose proof HN as (units & B)%NewIndex_built. pose proof (Lookup_built d rows ix units id B) as HL.
  unfold Run, ResolveVector. cbn [qID qK]. rewrite bool_decide_true by done.
  destruct (List.find _ rows) as [r|] eqn:Ef; cbn [mbind option_bind] in HL; rewrite HL; cbn [result_bind]; [|done].
  apply List.find_some in Ef as [Hr _]. apply list_elem_of_In, list_elem_of_lookup in Hr as [i Hi].
  destruct (Forall2_lookup_l _ _ _ _ _ (built_units _ _ _ _ B) Hi) as (u & _ & Hu). exists u. rewrite Hu. cbn [result_bind].
  split_and!; [done..|]. intros out HS. destruct (search_answers_rows d rows ix _ _ _ out HN HS) as (_ & _ & _ & _ & Hx & _).
  intros (x & E & Hx')%list_elem_of_fmap. destruct (Hx x Hx') as [Hn _]. apply Hn. rewrite <- E. by left.
Qed.

Lemma run_by_id_witness : ∃ u, normalize [f32 1 1; f32 1 1] = Ok u ∧ Run demo (MkQuery "b" [] "" [] 0) None = Search demo u 10 ["b"%string].
Proof.
  destruct (run_by_id 2 demo_rows demo "b" 0 None) as (u & Hu & E & _); [vm_compute; reflexivity|done|]. exists u. by split.
Defined.

(** A row or query whose length is positive but below 2^-128 is not
    rejected: the inverse of its length overflows float32, its unit vector holds
    an infinity and a NaN, and once such a row is the root of the heap no better
    row enters. *)
Theorem tiny_vector_blocks (tiny := S754_finite false 1 (-149)) :
  normalize [tiny; zero32] = Ok [S754_infinity false; S754_nan] ∧
  ∃ ix, NewIndex 2 [MkEmbedding "tiny" "ds" [tiny; zero32]; MkEmbedding "same" "ds" [f32 1 1; f32 0 1]] = Ok ix ∧
    map rID (or_empty (Search ix [f32 1 1; f32 0 1] 1 [])) = ["tiny"%string] ∧
    map rScore (or_empty (Search ix [f32 1 1; f32 0 1] 1 ["tiny"%string])) = [f32 1 1].
Proof. split; [by vm_compute|]. eexists. split; [by vm_compute|]. split; by vm_compute. Qed.

(** ** The endpoint (cmd/server/similar.go) *)

Record similarRequest := MkSimilarRequest { srK : Z; srID : string; srVector : list float32; srText : string; srImageB64 : string }.

(** A JSON encoder refuses a NaN or an infinity: nothing of the answer but its
    status is sent. *)
Inductive similar_body := SError (msg : string) | SResults (l : list Result) | SNothing.

Definition is_finite (x : float32) : bool := match x with S754_finite _ _ _ | S754_zero _ => true | _ => false end.
Definition encode_results (l : list Result) : similar_body :=
  if forallb (λ r, is_finite (rScore r)) l then SResults l else SNothing.

(** [once], [ix] and [loadErr]: what the first call of [load] left. *)
Definition SimilarState : Type := option (result Index).

Section similar.
Context (index_key : string) (enc : option (EncodeRequest → result (list float32))).

(** [load now]: [LoadIndex] would answer [now] under this request's context. *)
Definition load (st : SimilarState) (now : result Index) : SimilarState * result Index :=
  match st with None => (Some now, now) | Some r => (st, r) end.

(** [body] is the decoded request. *)
Definition similar (st : SimilarState) (method : string) (body : result similarRequest) (now : result Index) : SimilarState * (Z * similar_body) :=
  if bool_decide (index_key = "") then (st, (501, SError "vector search not configured (set server.search.index_key)"))
  else if negb (bool_decide (method = "POST")) then (st, (405, SError "POST required"))
  else match body with
  | Err e => (st, (400, SError e))
  | Ok req =>
      let '(st, index) := load st now in
      match index with
      | Err e => (st, (500, SError ("load index: " +:+ e)))
      | Ok index =>
          let raw := if bool_decide (srImageB64 req = "") then Some [] else StdEncoding.DecodeString (srImageB64 req) in
          match raw with
          | None => (st, (400, SError "image_b64: illegal base64 data"))
          | Some image =>
              match Run index (MkQuery (srID req) (srVector req) (srText req) image (srK req)) enc with
              | Err e => (st, (400, SError e))
              | Ok results => (st, (200, encode_results results))
              end
          end
      end
  end.
End similar.

(** The first load decides for good: when it fails, under a request whose
    caller has gone, say, every later search is refused though the index could
    be loaded now. *)
Theorem first_load_is_final key enc e req ix now (st := fst (similar key enc None "POST" (Ok req) (Err e))) :
  key ≠ ""%string →
  similar key enc st "POST" (Ok req) now = (st, (500, SError ("load index: " +:+ e))) ∧
  (∀ m b, fst (similar key enc (Some (Ok ix)) m b now) = Some (Ok ix)).
Proof.
  intros Hk. split.
  - subst st. unfold similar, load. by rewrite (bool_decide_false (key = ""%string)) by done.
  - intros m b. unfold similar, load. repeat (case_match; simplify_eq/=; try done).
Qed.

Lemma first_load_is_final_witness :
  snd (similar "corpus" None (fst (similar "corpus" None None "POST" (Ok (MkSimilarRequest 0 "a" [] "" "")) (Err "context canceled"))) "POST"
    (Ok (MkSimilarRequest 0 "a" [] "" "")) (Ok demo)) = (500, SError "load index: context canceled").
Proof. by rewrite (proj1 (first_load_is_final "corpus" None "context canceled" (MkSimilarRequest 0 "a" [] "" "") demo (Ok demo) ltac:(done))). Defined.

(** An image is handed to the encoder as it was sent: the request's base64 is
    decoded and encoded again to the same bytes' text. *)
Lemma image_roundtrip ix b enc k : b ≠ [] →
  ∃ raw, StdEncoding.DecodeString (StdEncoding.EncodeToString b) = Some raw ∧
  ResolveVector ix (MkQuery "" [] "" raw k) (Some enc) = result_bind (λ v, Ok (v, [])) (enc (MkEncodeRequest "" (StdEncoding.EncodeToString b))).
Proof. intros Hb. exists b. rewrite StdEncoding.DecodeString_EncodeToString. split; [done|]. by destruct b. Qed.
