(* ===== verification/Columns.v ===== *)
(** * Columnar files (formats/parquet.go, formats/arrow_reader.go, vsearch/embedding.go, LoadIndex)

    Rows to columns and back.  The Arrow library is an interface: it writes one
    record batch and reads record batches, cut where it likes; a column of
    fixed-size lists may come back as one of variable lists. *)
From Stdlib Require Import SpecFloat.
From S2P Require Import Prelude GoLib Float64 Vsearch Job Keys Worker.
Open Scope Z_scope.

(** ** Record batches *)

Inductive data_type := TString | TBinary | TInt32 | TInt64 | TFixedList (width : Z) | TList.
Inductive column :=
| CString (l : list string) | CBinary (l : list (list byte)) | CInt32 (l : list Z) | CInt64 (l : list Z)
| CFixedList (l : list (list float32)) | CList (l : list (list float32)).
Definition schema : Type := list (string * data_type).
Record batch := MkBatch { bSchema : schema; bRows : nat; bColumns : list column }.

(** How writing and reading a file end. *)
Inductive write_io := WDone (data : list byte) | WNoWriter (e : string) | WBatchFailed (e : string) | WNotClosed (e : string).
Inductive read_io := RNotParquet (e : string) | RNotArrow (e : string) | RNoTable (e : string) | RBatches (l : list batch) (err : option string).
Inductive ipc_io := INotStream (e : string) | IBatches (l : list batch) (err : option string).

Class ArrowLib := {
  parquet_write : schema → batch → write_io;
  parquet_read : list byte → read_io;
  ipc_write : batch → write_io;
  ipc_read : list byte → ipc_io }.

(** [r] is [c] from row [i] on for [n] rows. *)
Definition slice {A} (i n : nat) (l : list A) : list A := take n (drop i l).
Inductive column_slice (i n : nat) : column → column → Prop :=
| cs_string l : column_slice i n (CString l) (CString (slice i n l))
| cs_binary l : column_slice i n (CBinary l) (CBinary (slice i n l))
| cs_int32 l : column_slice i n (CInt32 l) (CInt32 (slice i n l))
| cs_int64 l : column_slice i n (CInt64 l) (CInt64 (slice i n l))
| cs_list l : column_slice i n (CList l) (CList (slice i n l))
| cs_fixed l : column_slice i n (CFixedList l) (CFixedList (slice i n l))
| cs_loosened l : column_slice i n (CFixedList l) (CList (slice i n l)).

(** The batches of [l] cover the rows of [b] from [i] on, in order. *)
Fixpoint covers (b : batch) (i : nat) (l : list batch) : Prop :=
  match l with
  | [] => i = bRows b
  | c :: l => (i + bRows c ≤ bRows b)%nat ∧ Forall2 (column_slice i (bRows c)) (bColumns b) (bColumns c) ∧ covers b (i + bRows c)%nat l
  end.

(** What is written is read back; the stream format keeps batches whole. *)
Class ArrowLaws `{ArrowLib} := {
  parquet_roundtrip sch b data : parquet_write sch b = WDone data → ∃ l, parquet_read data = RBatches l None ∧ covers b 0 l;
  ipc_roundtrip b data : ipc_write b = WDone data → ipc_read data = IBatches [b] None }.

(** The values of a column, as [Column(k).( *array.T)] gives them: [None] is the
    panic of a column that is missing or has another type. *)
Definition strings (c : option column) : option (list string) := match c with Some (CString l) => Some l | _ => None end.
Definition int64s (c : option column) : option (list Z) := match c with Some (CInt64 l) => Some l | _ => None end.

(** [for i := range int(rec.NumRows())]; an index past a column is a panic. *)
Definition each_row {A} (b : batch) (f : nat → option A) : option (list A) := mapM f (seq 0 (bRows b)).

(** ** Results (formats/parquet.go) *)

Section formats.
Context `{ArrowLib}.

Definition resultSchema : schema :=
  [("task_id", TString); ("shard", TString); ("output_key", TString); ("images_processed", TInt64); ("bytes_read", TInt64)]%string.

Definition results_batch (rows : list ResultRow) : batch :=
  MkBatch resultSchema (length rows)
    [CString (map rowTaskID rows); CString (map rowShard rows); CString (map rowOutputKey rows); CInt64 (map rowImages rows); CInt64 (map rowBytes rows)].

Definition written (pre : string) (w : write_io) : result (list byte) :=
  match w with
  | WDone data => Ok data
  | WNoWriter e => Err (pre +:+ ": new " +:+ (if bool_decide (pre = "vsearch") then "parquet " else "") +:+ "writer: " +:+ e)
  | WBatchFailed e => Err (pre +:+ ": write batch: " +:+ e)
  | WNotClosed e => Err (pre +:+ ": close" +:+ (if bool_decide (pre = "vsearch") then " parquet" else "") +:+ ": " +:+ e)
  end.

Definition WriteResultsParquet (rows : list ResultRow) : result (list byte) :=
  written "parquet" (parquet_write resultSchema (results_batch rows)).

Definition results_of (b : batch) : option (list ResultRow) :=
  task ← strings (bColumns b !! 0%nat); shard ← strings (bColumns b !! 1%nat); out ← strings (bColumns b !! 2%nat);
  img ← int64s (bColumns b !! 3%nat); br ← int64s (bColumns b !! 4%nat);
  each_row b (λ i, t ← task !! i; s ← shard !! i; o ← out !! i; n ← img !! i; k ← br !! i; Some (MkRow t s o n k)).

(** [None] is a panic. *)
Definition ReadResultsParquet (data : list byte) : option (result (list ResultRow)) :=
  match parquet_read data with
  | RNotParquet e => Some (Err ("parquet: open: " +:+ e))
  | RNotArrow e => Some (Err ("parquet: arrow reader: " +:+ e))
  | RNoTable e => Some (Err ("parquet: read table: " +:+ e))
  | RBatches l err =>
      rows ← mapM results_of l;
      Some (match err with Some e => Err ("parquet: iterate table: " +:+ e) | None => Ok (concat rows) end)
  end.

(** ** Image batches (formats/arrow_reader.go) *)

Record ImageRecord := MkImage { imKey : string; imWidth : Z; imHeight : Z; imLabel : string; imData : list byte }.

Definition imageBatchSchema : schema :=
  [("key", TString); ("width", TInt32); ("height", TInt32); ("label", TString); ("data", TBinary)]%string.

Definition BuildImageBatch (imgs : list ImageRecord) : batch :=
  MkBatch imageBatchSchema (length imgs)
    [CString (map imKey imgs); CInt32 (map imWidth imgs); CInt32 (map imHeight imgs); CString (map imLabel imgs); CBinary (map imData imgs)].

Definition EncodeIPC (b : batch) : result (list byte) :=
  match ipc_write b with
  | WDone data => Ok data
  | WNotClosed e => Err ("arrow: ipc close: " +:+ e)
  | WNoWriter e | WBatchFailed e => Err ("arrow: ipc write: " +:+ e)
  end.

Definition DecodeIPC (data : list byte) : result (list batch) :=
  match ipc_read data with
  | INotStream e => Err ("arrow: ipc reader: " +:+ e)
  | IBatches l None => Ok l
  | IBatches l (Some e) => if bool_decide (e = "EOF") then Ok l else Err ("arrow: ipc read: " +:+ e)
  end.

(** ** Embeddings (vsearch/embedding.go) *)

Definition embeddingSchema (dim : Z) : schema := [("id", TString); ("dataset", TString); ("vector", TFixedList dim)]%string.

Definition wrong_len (i dim : Z) (r : Embedding) : string :=
  fail_row i (eID r) (" has vector len " +:+ fmt_d (Z.of_nat (length (eVector r))) +:+ ", want dim " +:+ fmt_d dim).

(** The loop over the rows, up to the first vector of another length. *)
Fixpoint check_rows (dim i : Z) (rows : list Embedding) : result unit :=
  match rows with
  | [] => Ok tt
  | r :: rows => if negb (Z.of_nat (length (eVector r)) =? dim) then Err (wrong_len i dim r) else check_rows dim (i + 1) rows
  end.

Definition embeddings_batch (dim : Z) (rows : list Embedding) : batch :=
  MkBatch (embeddingSchema dim) (length rows) [CString (map eID rows); CString (map eDataset rows); CFixedList (map eVector rows)].

Definition WriteEmbeddingsParquet (dim : Z) (rows : list Embedding) : result (list byte) :=
  if dim <=? 0 then Err ("vsearch: dim must be positive, got " +:+ fmt_d dim)
  else match check_rows dim 0 rows with
  | Err e => Err e
  | Ok _ => written "vsearch" (parquet_write (embeddingSchema dim) (embeddings_batch dim rows))
  end.

(** [vecAt]: [None] is an index out of range. *)
Definition vecAt (c : column) (i : nat) : option (result (list float32)) :=
  match c with
  | CList l | CFixedList l => Ok <$> l !! i
  | _ => Some (Err "vsearch: vector column is not a float32 list")
  end.

(** A row of the reading loop; the state is [dim] and [rows]. *)
Definition read_row (id ds : list string) (vec : column) (acc : Z * list Embedding) (i : nat) : option (result (Z * list Embedding)) :=
  let '(dim, rows) := acc in
  v ← vecAt vec i;
  match v with
  | Err e => Some (Err e)
  | Ok v =>
      let n := Z.of_nat (length v) in
      let dim' := if dim =? 0 then n else dim in
      if negb (dim =? 0) && negb (n =? dim)
      then Some (Err ("vsearch: row has vector len " +:+ fmt_d n +:+ ", want dim " +:+ fmt_d dim +:+ " (ragged corpus)"))
      else x ← id !! i; d ← ds !! i; Some (Ok (dim', rows ++ [MkEmbedding x d v]))
  end.

Fixpoint read_rows (id ds : list string) (vec : column) (acc : Z * list Embedding) (l : list nat) : option (result (Z * list Embedding)) :=
  match l with
  | [] => Some (Ok acc)
  | i :: l => r ← read_row id ds vec acc i; match r with Err e => Some (Err e) | Ok acc => read_rows id ds vec acc l end
  end.

Fixpoint read_batches (acc : Z * list Embedding) (l : list batch) : option (result (Z * list Embedding)) :=
  match l with
  | [] => Some (Ok acc)
  | b :: l =>
      id ← strings (bColumns b !! 0%nat); ds ← strings (bColumns b !! 1%nat); vec ← bColumns b !! 2%nat;
      r ← read_rows id ds vec acc (seq 0 (bRows b));
      match r with Err e => Some (Err e) | Ok acc => read_batches acc l end
  end.

Definition ReadEmbeddingsParquet (data : list byte) : option (result (Z * list Embedding)) :=
  match parquet_read data with
  | RNotParquet e => Some (Err ("vsearch: open parquet: " +:+ e))
  | RNotArrow e => Some (Err ("vsearch: arrow reader: " +:+ e))
  | RNoTable e => Some (Err ("vsearch: read table: " +:+ e))
  | RBatches l err =>
      r ← read_batches (0, []) l;
      Some (match r, err with
            | Err e, _ => Err e
            | Ok _, Some e => Err ("vsearch: iterate table: " +:+ e)
            | Ok p, None => Ok p
            end)
  end.

(** [LoadIndex], of the bytes [loadBytes] found. *)
Definition LoadIndex (bytes : result (list byte)) : option (result Index) :=
  match bytes with
  | Err e => Some (Err e)
  | Ok data => r ← ReadEmbeddingsParquet data; Some (match r with Err e => Err e | Ok (dim, rows) => NewIndex dim rows end)
  end.
End formats.

(** ** Round trips *)

Lemma slice_map {A B} (f : A → B) i n l : slice i n (map f l) = map f (slice i n l).
Proof. unfold slice. by rewrite skipn_map, firstn_map. Qed.

Lemma slice_length {A} i n (l : list A) : (i + n ≤ length l)%nat → length (slice i n l) = n.
Proof. intros Hn. unfold slice. rewrite length_take, length_drop. lia. Qed.

Lemma slice_step {A} i n (l : list A) : slice i n l ++ drop (i + n) l = drop i l.
Proof. unfold slice. rewrite <- drop_drop. apply take_drop. Qed.

Lemma each_row_spec {A} b (f : nat → option A) l : length l = bRows b → (∀ i x, l !! i = Some x → f i = Some x) → each_row b f = Some l.
Proof.
  intros Hl Hf. unfold each_row. apply mapM_Some. rewrite <- Hl. apply Forall2_same_length_lookup_2; [by rewrite length_seq|].
  intros i x y Hx Hy. apply lookup_seq in Hx as [-> _]. by apply Hf.
Qed.

Lemma lookup_map {A B} (f : A → B) l i x : l !! i = Some x → map f l !! i = Some (f x).
Proof. intros Hx. change (map f l) with (f <$> l). by rewrite list_lookup_fmap, Hx. Qed.

(** Reading by batches what was written whole. *)
Lemma covers_concat {A} (b : batch) (rows : list A) (read : batch → option (list A)) :
  bRows b = length rows →
  (∀ i c, (i + bRows c ≤ bRows b)%nat → Forall2 (column_slice i (bRows c)) (bColumns b) (bColumns c) → read c = Some (slice i (bRows c) rows)) →
  ∀ l i, covers b i l → (@concat A) <$> mapM read l = Some (drop i rows).
Proof.
  intros Hl Hread l. induction l as [|c l IH]; intros i; cbn [covers].
  - intros ->. cbn. by rewrite Hl, drop_ge.
  - intros (Hi & HF & Hc). cbn. rewrite (Hread i c Hi HF). cbn. specialize (IH _ Hc). destruct (mapM read l) as [rs|]; [|done].
    cbn in *. injection IH as IH. by rewrite IH, slice_step.
Qed.

Section laws.
Context `{ArrowLaws}.

Lemma written_ok pre w data : written pre w = Ok data → w = WDone data.
Proof. destruct w; cbn; try done. by intros [= ->]. Qed.

Lemma results_of_slice rows i c : (i + bRows c ≤ length rows)%nat →
  Forall2 (column_slice i (bRows c)) (bColumns (results_batch rows)) (bColumns c) → results_of c = Some (slice i (bRows c) rows).
Proof.
  intros Hi HF. unfold results_of. cbn [bColumns results_batch] in HF.
  repeat match goal with HF : Forall2 _ (_ :: _) _ |- _ => apply Forall2_cons_inv_l in HF as (? & ? & ? & HF & ?) end.
  apply Forall2_nil_inv_l in HF as ->. repeat match goal with Hs : column_slice _ _ _ _ |- _ => inversion Hs; clear Hs; subst end.
  match goal with E : bColumns c = _ |- _ => rewrite E end. cbn. rewrite !slice_map.
  apply each_row_spec; [by apply slice_length|]. intros j r Hr. by rewrite !(lookup_map _ _ _ _ Hr); destruct r.
Qed.

(** Result rows written as Parquet are read back as they were, in order,
    however the reader cuts the file into batches. *)
Theorem results_roundtrip rows data : WriteResultsParquet rows = Ok data → ReadResultsParquet data = Some (Ok rows).
Proof.
  intros HW%written_ok. destruct (parquet_roundtrip _ _ _ HW) as (l & HR & Hc). unfold ReadResultsParquet. rewrite HR.
  pose proof (covers_concat (results_batch rows) rows results_of eq_refl (λ i c Hi HF, results_of_slice rows i c Hi HF) l 0 Hc) as E.
  destruct (mapM results_of l) as [rs|]; [|done]. cbn in *. injection E as ->. done.
Qed.

(** An image batch sent as an IPC stream arrives as it was built. *)
Theorem image_batch_roundtrip imgs data : EncodeIPC (BuildImageBatch imgs) = Ok data → DecodeIPC data = Ok [BuildImageBatch imgs].
Proof. unfold EncodeIPC, DecodeIPC. destruct (ipc_write _) eqn:E; try done. intros [= <-]. by rewrite (ipc_roundtrip _ _ E). Qed.

Lemma check_rows_ok dim rows : ∀ i, check_rows dim i rows = Ok tt → Forall (λ r, Z.of_nat (length (eVector r)) = dim) rows.
Proof.
  induction rows as [|r rows IH]; intros i; cbn [check_rows]; [constructor|].
  destruct (Z.eqb_spec (Z.of_nat (length (eVector r))) dim); cbn [negb]; [|done]. intros Hr. constructor; [done|by eapply IH].
Qed.

Definition vectors (c : column) : option (list (list float32)) := match c with CList l | CFixedList l => Some l | _ => None end.

Lemma read_rows_slice dim rows vec : 0 < dim → Forall (λ r, Z.of_nat (length (eVector r)) = dim) rows → vectors vec = Some (map eVector rows) →
  ∀ n k d out, (k + n = length rows)%nat → d = 0 ∨ d = dim →
  read_rows (map eID rows) (map eDataset rows) vec (d, out) (seq k n) = Some (Ok (if (n =? 0)%nat then d else dim, out ++ drop k rows)).
Proof.
  intros Hdim Hlen Hvec n. induction n as [|n IH]; intros k d out Hk Hd; cbn [seq read_rows].
  - by rewrite drop_ge, app_nil_r by lia.
  - destruct (lookup_lt_is_Some_2 rows k) as [r Hr]; [lia|]. pose proof (proj1 (Forall_lookup _ _) Hlen k r Hr) as Hn. cbn in Hn.
    assert (Hv : vecAt vec k = Some (Ok (eVector r))).
    { destruct vec; cbn in *; try done; injection Hvec as ->; by rewrite (lookup_map _ _ _ _ Hr). }
    unfold read_row. rewrite Hv. cbn [mbind option_bind]. rewrite Hn.
    assert ((negb (d =? 0) && negb (dim =? d)) = false) as -> by (destruct Hd as [->| ->]; [done|]; by rewrite Z.eqb_refl, andb_false_r).
    rewrite !(lookup_map _ _ _ _ Hr). cbn [mbind option_bind]. rewrite IH; [|lia|by right; destruct Hd as [->| ->]; [done|]; destruct (dim =? 0) eqn:E; lia].
    rewrite (drop_S _ _ _ Hr), <- app_assoc. destruct r. cbn. do 4 f_equal. destruct n; [|done]. destruct Hd as [->| ->]; [done|]. by destruct (dim =? 0).
Qed.

Lemma read_batches_spec dim rows : 0 < dim → Forall (λ r, Z.of_nat (length (eVector r)) = dim) rows →
  ∀ l i d out, covers (embeddings_batch dim rows) i l → d = 0 ∨ d = dim →
  read_batches (d, out) l = Some (Ok (if (i =? length rows)%nat then d else dim, out ++ drop i rows)).
Proof.
  intros Hdim Hlen l. induction l as [|c l IH]; intros i d out; cbn [covers read_batches].
  - cbn. intros -> _. by rewrite Nat.eqb_refl, drop_ge, app_nil_r.
  - intros (Hi & HF & Hc) Hd. cbn [bColumns bRows embeddings_batch] in HF, Hi.
    assert (Hcols : ∃ vec, bColumns c = [CString (slice i (bRows c) (map eID rows)); CString (slice i (bRows c) (map eDataset rows)); vec] ∧
      vectors vec = Some (slice i (bRows c) (map eVector rows))).
    { repeat match goal with HF : Forall2 _ (_ :: _) _ |- _ => apply Forall2_cons_inv_l in HF as (? & ? & ? & HF & ?) end.
      apply Forall2_nil_inv_l in HF as ->. repeat match goal with Hs : column_slice _ _ _ _ |- _ => inversion Hs; clear Hs; subst end; by eexists. }
    destruct Hcols as (vec & -> & Hvec). rewrite !slice_map in *. cbn [strings lookup list_lookup mbind option_bind].
    rewrite (read_rows_slice dim (slice i (bRows c) rows)); [|done|by apply Forall_take, Forall_drop|done|by rewrite slice_length|done].
    cbn [mbind option_bind]. rewrite drop_0, (IH _ _ _ Hc) by (destruct (bRows c); [done|by right]).
    rewrite <- app_assoc, slice_step. do 3 f_equal. destruct (bRows c) as [|n]; cbn [Nat.eqb]; [by rewrite Nat.add_0_r|].
    destruct (Nat.eqb_spec i (length rows)); [lia|]. by destruct (_ =? _)%nat.
Qed.

(** A corpus of at least one embedding is read back with its dimension and
    rows, and [LoadIndex] builds the index of exactly those rows. *)
Theorem corpus_roundtrip dim rows data : WriteEmbeddingsParquet dim rows = Ok data → rows ≠ [] →
  ReadEmbeddingsParquet data = Some (Ok (dim, rows)) ∧ LoadIndex (Ok data) = Some (NewIndex dim rows).
Proof.
  unfold WriteEmbeddingsParquet. destruct (Z.leb_spec dim 0) as [|Hdim]; [done|]. destruct (check_rows dim 0 rows) as [[]|] eqn:Ec; [|done].
  apply check_rows_ok in Ec. intros HW%written_ok Hne. destruct (parquet_roundtrip _ _ _ HW) as (l & HR & Hc).
  assert (E : ReadEmbeddingsParquet data = Some (Ok (dim, rows))).
  { unfold ReadEmbeddingsParquet. rewrite HR, (read_batches_spec dim rows Hdim Ec l 0 0 [] Hc) by (by left). cbn. by destruct rows. }
  split; [done|]. unfold LoadIndex. by rewrite E.
Qed.

(** An empty corpus is written without an error and cannot be loaded: the
    reader finds no dimension. *)
Theorem empty_corpus_unloadable dim data : WriteEmbeddingsParquet dim [] = Ok data →
  0 < dim ∧ LoadIndex (Ok data) = Some (Err ("vsearch: dim must be positive, got 0")).
Proof.
  unfold WriteEmbeddingsParquet. destruct (Z.leb_spec dim 0) as [|Hdim]; [done|]. cbn [check_rows]. intros HW%written_ok. split; [done|].
  destruct (parquet_roundtrip _ _ _ HW) as (l & HR & Hc). unfold LoadIndex, ReadEmbeddingsParquet.
  rewrite HR, (read_batches_spec dim [] Hdim (Forall_nil_2 _) l 0 0 [] Hc) by (by left). reflexivity.
Qed.
End laws.

(** ** A library that meets the laws *)

#[local, refine] Instance byte_countable : Countable byte := inj_countable Byte.to_N Byte.of_N _.
Proof. intros b. apply Byte.of_to_N. Defined.

#[local] Instance float_eq_dec : EqDecision spec_float.
Proof. solve_decision. Defined.
#[local, refine] Instance float_countable : Countable spec_float :=
  inj_countable' (λ x, match x with
    | S754_zero s => inl (inl s) | S754_infinity s => inl (inr s) | S754_nan => inr (inl tt) | S754_finite s m e => inr (inr (s, m, e)) end)
  (λ y, match y with
    | inl (inl s) => S754_zero s | inl (inr s) => S754_infinity s | inr (inl _) => S754_nan | inr (inr (s, m, e)) => S754_finite s m e end) _.
Proof. by intros []. Defined.

#[local] Instance data_type_eq_dec : EqDecision data_type.
Proof. solve_decision. Defined.
#[local, refine] Instance data_type_countable : Countable data_type :=
  inj_countable' (λ t, match t with TString => (0, 0) | TBinary => (1, 0) | TInt32 => (2, 0) | TInt64 => (3, 0) | TFixedList w => (4, w) | TList => (5, 0) end)
  (λ p, match p.1 with 0 => TString | 1 => TBinary | 2 => TInt32 | 3 => TInt64 | 4 => TFixedList p.2 | _ => TList end) _.
Proof. by intros []. Defined.

#[local] Instance column_eq_dec : EqDecision column.
Proof. solve_decision. Defined.
#[local, refine] Instance column_countable : Countable column :=
  inj_countable' (λ c, match c with
    | CString l => inl (inl l) | CBinary l => inl (inr l) | CInt32 l => inr (inl (false, l)) | CInt64 l => inr (inl (true, l))
    | CFixedList l => inr (inr (false, l)) | CList l => inr (inr (true, l)) end)
  (λ y, match y with
    | inl (inl l) => CString l | inl (inr l) => CBinary l | inr (inl (false, l)) => CInt32 l | inr (inl (true, l)) => CInt64 l
    | inr (inr (false, l)) => CFixedList l | inr (inr (true, l)) => CList l end) _.
Proof. by intros []. Defined.

#[local] Instance batch_eq_dec : EqDecision batch.
Proof. solve_decision. Defined.
#[local, refine] Instance batch_countable : Countable batch :=
  inj_countable' (λ b, (bSchema b, bRows b, bColumns b)) (λ '(s, n, c), MkBatch s n c) _.
Proof. by intros []. Defined.

Definition column_length (c : column) : nat :=
  match c with CString l => length l | CBinary l => length l | CInt32 l | CInt64 l => length l | CFixedList l | CList l => length l end.

(** A file is the batch's number in an enumeration; a batch with a column of
    another length is refused. *)
Definition demo_arrow : ArrowLib := {|
  parquet_write _ b := if forallb (λ c, column_length c =? bRows b)%nat (bColumns b) then WDone (pos_bytes (encode b)) else WBatchFailed "column length";
  parquet_read data := match bytes_pos data ≫= decode with Some b => RBatches [b] None | None => RNotParquet "magic" end;
  ipc_write b := WDone (pos_bytes (encode b));
  ipc_read data := match bytes_pos data ≫= decode with Some b => IBatches [b] None | None => INotStream "magic" end |}.

Lemma slice_all {A} (l : list A) : slice 0 (length l) l = l.
Proof. unfold slice. by rewrite drop_0, take_ge. Qed.

Lemma demo_laws : ArrowLaws (H := demo_arrow).
Proof.
  split.
  - intros sch b data. cbn. destruct (forallb _ _) eqn:E; [|done]. intros [= <-]. exists [b]. rewrite bytes_pos_bytes. cbn. rewrite decode_encode.
    split; [done|]. cbn. split_and!; [lia| |done]. rewrite forallb_forall in E.
    assert (HF : ∀ cs, (∀ c, In c cs → (column_length c =? bRows b)%nat = true) → Forall2 (column_slice 0 (bRows b)) cs cs).
    { intros cs Hcs. induction cs as [|c cs IH]; [constructor|]. constructor; [|apply IH; intros c' Hc'; apply Hcs; by right].
      pose proof (Hcs c (or_introl eq_refl)) as Hc. apply Nat.eqb_eq in Hc. rewrite <- Hc.
      destruct c as [l|l|l|l|l|l]; cbn; rewrite <- (slice_all l) at 3; constructor. }
    by apply HF.
  - intros b data. cbn. intros [= <-]. rewrite bytes_pos_bytes. cbn. by rewrite decode_encode.
Qed.

Definition demo_rows : list ResultRow := [MkRow "t1" "a" "k" 3 30; MkRow "t2" "b" "k2" 0 0].
Definition ok_bytes (r : result (list byte)) : list byte := match r with Ok l => l | Err _ => [] end.

Lemma results_roundtrip_witness :
  ReadResultsParquet (H := demo_arrow) (ok_bytes (WriteResultsParquet (H := demo_arrow) demo_rows)) = Some (Ok demo_rows).
Proof. apply (@results_roundtrip demo_arrow demo_laws). reflexivity. Defined.

Lemma image_batch_roundtrip_witness (img := MkImage "k" 2 2 "cat" (bytes_of_string "jpeg")) :
  DecodeIPC (H := demo_arrow) (ok_bytes (EncodeIPC (H := demo_arrow) (BuildImageBatch [img]))) = Ok [BuildImageBatch [img]].
Proof. apply (@image_batch_roundtrip demo_arrow demo_laws). reflexivity. Defined.

Definition demo_corpus : list Embedding := [MkEmbedding "a" "ds" [f32 1 1; f32 0 1]; MkEmbedding "b" "ds" [f32 1 1; f32 1 1]].

Lemma corpus_roundtrip_witness :
  LoadIndex (H := demo_arrow) (Ok (ok_bytes (WriteEmbeddingsParquet (H := demo_arrow) 2 demo_corpus))) = Some (NewIndex 2 demo_corpus).
Proof. apply (@corpus_roundtrip demo_arrow demo_laws); [reflexivity|done]. Defined.

Lemma empty_corpus_unloadable_witness :
  LoadIndex (H := demo_arrow) (Ok (ok_bytes (WriteEmbeddingsParquet (H := demo_arrow) 2 []))) = Some (Err "vsearch: dim must be positive, got 0").
Proof. apply (@empty_corpus_unloadable demo_arrow demo_laws 2). reflexivity. Defined.
