(* ===== verification/RateLimit.v ===== *)
(** * The rate limiter (ratelimit/tokenbucket.go)

    Token buckets in binary64 over a clock in nanoseconds; a clock reading is
    an argument of each call.  [TokenBucket] is the bucket over the integers
    that the limiter implements when rates, bursts and clock readings are
    whole. *)
From S2P Require Import Prelude Float64.
From stdpp Require Import gmap strings.
Open Scope Z_scope.

(** [time.Time.Sub] saturates. *)
Definition Sub (t u : Z) : Z := Z.max (- 2 ^ 63) (Z.min max_int64 (t - u)).

Record bucket := MkBucket { tokens : float64; last : Z }.
#[export] Instance eta_bucket : Eta bucket := λ b, MkBucket (tokens b) (last b).
Record Limiter := MkLimiter { rate : float64; burst : float64; buckets : gmap string bucket }.
#[export] Instance eta_Limiter : Eta Limiter := λ l, MkLimiter (rate l) (burst l) (buckets l).

Definition New (r : float64) (b : Z) : Limiter :=
  let r := if fleb r (of_Z 0) then of_Z 1 else r in
  let b := of_Z b in
  let b := if fleb b (of_Z 0) then of_Z 1 else b in
  MkLimiter r b ∅.

(** The refill at the start of a call; [set] is the reading that is stored. *)
Definition refill (now set : Z) (l : Limiter) (b : bucket) : bucket :=
  let elapsed := Seconds (Sub now (last b)) in
  if fltb (of_Z 0) elapsed then MkBucket (fmin (burst l) (fadd (tokens b) (fmul elapsed (rate l)))) set else b.

Definition AllowN (now : Z) (key : string) (n : Z) (l : Limiter) : bool * Limiter :=
  if n <=? 0 then (true, l)
  else
    let need := of_Z n in
    let b := refill now now l (default (MkBucket (burst l) now) (buckets l !! key)) in
    if fleb need (tokens b)
    then (true, l <| buckets := <[key := b <| tokens := fsub (tokens b) need |>]> (buckets l) |>)
    else (false, l <| buckets := <[key := b]> (buckets l) |>).

Definition Allow (now : Z) (key : string) (l : Limiter) : bool * Limiter := AllowN now key 1 l.

(** [Tokens] reads the clock a second time for the stored reading. *)
Definition Tokens (now now' : Z) (key : string) (l : Limiter) : float64 * Limiter :=
  match buckets l !! key with
  | None => (burst l, l)
  | Some b => let b := refill now now' l b in (tokens b, l <| buckets := <[key := b]> (buckets l) |>)
  end.

(** ** A sequence of calls *)

Record call := MkCall { cNow : Z; cKey : string; cN : Z }.

Fixpoint answers (cs : list call) (l : Limiter) : list bool :=
  match cs with
  | [] => []
  | c :: cs => let '(ok, l) := AllowN (cNow c) (cKey c) (cN c) l in ok :: answers cs l
  end.

(** What a key was granted: the tokens of its allowed calls. *)
Fixpoint granted (key : string) (cs : list call) (oks : list bool) : Z :=
  match cs, oks with
  | c :: cs, ok :: oks => (if ok && bool_decide (cKey c = key) then Z.max 0 (cN c) else 0) + granted key cs oks
  | _, _ => 0
  end.

(** ** Keys do not interfere *)

Lemma allow_other now key n l key' : key' ≠ key → buckets (AllowN now key n l).2 !! key' = buckets l !! key'.
Proof. intros Hne. unfold AllowN. destruct (n <=? 0); [done|]. destruct (fleb _ _); cbn; by rewrite lookup_insert_ne. Qed.

Lemma allow_config now key n l : rate (AllowN now key n l).2 = rate l ∧ burst (AllowN now key n l).2 = burst l.
Proof. unfold AllowN. destruct (n <=? 0); [done|]. by destruct (fleb _ _). Qed.

Definition agree (key : string) (l l' : Limiter) : Prop := rate l = rate l' ∧ burst l = burst l' ∧ buckets l !! key = buckets l' !! key.

Lemma allow_agree now key n l l' : agree key l l' →
  (AllowN now key n l).1 = (AllowN now key n l').1 ∧ agree key (AllowN now key n l).2 (AllowN now key n l').2.
Proof.
  intros (Hr & Hb & Hk). unfold AllowN. destruct (n <=? 0); [done|]. cbv zeta. unfold refill. rewrite Hr, Hb, Hk.
  destruct (fleb _ _); cbn; (split; [done|]); unfold agree; cbn; by rewrite !lookup_insert_eq.
Qed.

(** The answers a key gets among others' calls. *)
Definition answers_of (key : string) (cs : list call) (oks : list bool) : list bool :=
  (filter (λ p : call * bool, cKey p.1 = key) (zip cs oks)).*2.

Lemma answers_agree key cs : ∀ l l', agree key l l' →
  answers_of key cs (answers cs l) = answers (filter (λ c, cKey c = key) cs) l'.
Proof.
  induction cs as [|c cs IH]; intros l l' Ha; [done|]. unfold answers_of in *. cbn [answers].
  destruct (decide (cKey c = key)) as [E|Hne].
  - rewrite (filter_cons_True (λ c, cKey c = key)) by done. cbn [answers]. rewrite E in *. destruct (allow_agree (cNow c) key (cN c) l l' Ha) as [H1 H2].
    destruct (AllowN (cNow c) key (cN c) l) as [ok l1], (AllowN (cNow c) key (cN c) l') as [ok' l1']. cbn in H1, H2. subst ok'.
    cbn [zip zip_with]. rewrite filter_cons_True by done. cbn. by rewrite (IH l1 l1').
  - rewrite (filter_cons_False (λ c, cKey c = key)) by done. pose proof (allow_other (cNow c) (cKey c) (cN c) l key ltac:(done)) as Ho.
    pose proof (allow_config (cNow c) (cKey c) (cN c) l) as [Hr Hb]. destruct (AllowN _ _ _ l) as [ok l1]. cbn in Ho, Hr, Hb.
    cbn [zip zip_with]. rewrite filter_cons_False by done. apply IH. destruct Ha as (A1 & A2 & A3). split_and!; congruence.
Qed.

(** A tenant's answers are those it would get alone: what others ask, and
    are granted, cannot drain its bucket. *)
Theorem keys_are_isolated key cs l : answers_of key cs (answers cs l) = answers (filter (λ c, cKey c = key) cs) l.
Proof. by apply answers_agree. Qed.

(** ** The bucket over the integers

    [R] tokens per second, at most [B] of them, clock readings in seconds. *)
Module TokenBucket.
Record level := MkLevel { held : Z; since : Z }.

Section bucket.
Context (R B : Z).

Definition refilled (t : Z) (b : level) : level :=
  if since b <? t then MkLevel (Z.min B (held b + (t - since b) * R)) t else b.

Definition take (t : Z) (key : string) (n : Z) (m : gmap string level) : bool * gmap string level :=
  if n <=? 0 then (true, m)
  else
    let b := refilled t (default (MkLevel B t) (m !! key)) in
    if n <=? held b then (true, <[key := MkLevel (held b - n) (since b)]> m) else (false, <[key := b]> m).

Fixpoint takes (cs : list call) (m : gmap string level) : list bool :=
  match cs with
  | [] => []
  | c :: cs => let '(ok, m) := take (cNow c) (cKey c) (cN c) m in ok :: takes cs m
  end.

(** Between no tokens and a full bucket, refilled by [t]. *)
Definition ok_by (t : Z) (b : level) : Prop := 0 ≤ held b ≤ B ∧ 0 ≤ since b ≤ t.
Definition current (t : Z) (key : string) (m : gmap string level) : level := default (MkLevel B t) (m !! key).

Lemma current_ok t key m : 0 ≤ B → 0 ≤ t → map_Forall (λ _, ok_by t) m → ok_by t (current t key m).
Proof. intros HB Ht Hm. unfold current. destruct (m !! key) eqn:E; cbn; [by apply (Hm key)|split; cbn; lia]. Qed.

Lemma refilled_ok t b : 0 ≤ R → 0 ≤ B → ok_by t b → ok_by t (refilled t b) ∧ since (refilled t b) = t.
Proof. intros HR HB [? ?]. unfold refilled, ok_by. destruct (Z.ltb_spec (since b) t); cbn; split; try lia; nia. Qed.

Lemma ok_mono t u (m : gmap string level) : t ≤ u → map_Forall (λ _, ok_by t) m → map_Forall (λ _, ok_by u) m.
Proof. intros Htu Hm. eapply map_Forall_impl; [exact Hm|]. intros ? ? [? ?]. split; lia. Qed.

Lemma take_ok t key n m : 0 ≤ R → 0 ≤ B → 0 ≤ t → map_Forall (λ _, ok_by t) m → map_Forall (λ _, ok_by t) (take t key n m).2.
Proof.
  intros HR HB Ht Hm. unfold take. destruct (Z.leb_spec n 0); [done|]. cbv zeta. fold (current t key m).
  destruct (refilled_ok t _ HR HB (current_ok t key m HB Ht Hm)) as [[? ?] ?].
  destruct (Z.leb_spec n (held (refilled t (current t key m)))); cbn; apply map_Forall_insert_2; try done; split; cbn; lia.
Qed.

(** The tokens a key may still be granted by time [t] bound what it is
    granted from here on. *)
Definition potential (key : string) (t : Z) (m : gmap string level) : Z :=
  match m !! key with None => B | Some b => Z.min B (held b + Z.max 0 (t - since b) * R) end.

Lemma potential_later key t u (m : gmap string level) : 0 ≤ R → t ≤ u → map_Forall (λ _, ok_by t) m → potential key u m ≤ potential key t m + (u - t) * R.
Proof. intros HR Htu Hm. unfold potential. destruct (m !! key) as [b|] eqn:E; [|nia]. pose proof (Hm key b E) as [? ?]. nia. Qed.

Lemma take_potential key t c m : 0 ≤ R → 0 ≤ B → 0 ≤ t → map_Forall (λ _, ok_by t) m →
  (if (take t (cKey c) (cN c) m).1 && bool_decide (cKey c = key) then Z.max 0 (cN c) else 0) +
    potential key t (take t (cKey c) (cN c) m).2 ≤ potential key t m.
Proof.
  intros HR HB Ht Hm. unfold take. destruct (Z.leb_spec (cN c) 0); cbn [fst snd].
  - rewrite Z.max_l by lia. destruct (bool_decide _); cbn; lia.
  - cbv zeta. fold (current t (cKey c) m). pose proof (current_ok t (cKey c) m HB Ht Hm) as Hb.
    destruct (refilled_ok t _ HR HB Hb) as [[? ?] Hs]. case_bool_decide as Ek.
    + subst key. assert (Hp : potential (cKey c) t m = held (refilled t (current t (cKey c) m))).
      { unfold potential, refilled, current in *. destruct (m !! cKey c) as [b'|]; cbn in *; [|by rewrite Z.ltb_irrefl].
        destruct Hb. destruct (Z.ltb_spec (since b') t); cbn; [do 2 f_equal|]; lia. }
      rewrite Hp. destruct (Z.leb_spec (cN c) (held (refilled t (current t (cKey c) m)))); cbn [fst snd andb]; unfold potential;
        rewrite lookup_insert_eq; cbn; rewrite ?Hs, Z.sub_diag; cbn; lia.
    + assert (Hp : ∀ b', potential key t (<[cKey c := b']> m) = potential key t m) by (intros b'; unfold potential; by rewrite lookup_insert_ne).
      destruct (Z.leb_spec (cN c) (held (refilled t (current t (cKey c) m)))); cbn [fst snd andb]; rewrite Hp; lia.
Qed.

(** Clock readings that do not go backwards, none before [t]. *)
Fixpoint ticking (t : Z) (cs : list call) : Prop :=
  match cs with [] => True | c :: cs => t ≤ cNow c ∧ ticking (cNow c) cs end.

Lemma ticking_last t cs c : ticking t cs → c ∈ cs → t ≤ cNow c.
Proof.
  revert t. induction cs as [|d cs IH]; intros t Ht Hc; [by apply elem_of_nil in Hc|]. destruct Ht as [H1 H2].
  apply elem_of_cons in Hc as [->|Hc]; [done|]. specialize (IH _ H2 Hc). lia.
Qed.

Lemma takes_bounded key cs : ∀ t u m, 0 ≤ R → 0 ≤ B → 0 ≤ t → ticking t cs → t ≤ u → (∀ c, c ∈ cs → cNow c ≤ u) →
  map_Forall (λ _, ok_by t) m → granted key cs (takes cs m) ≤ potential key t m + (u - t) * R.
Proof.
  induction cs as [|c cs IH]; intros t u m HR HB H0 Ht Htu Hu Hm; cbn [granted takes].
  - unfold potential. destruct (m !! key) as [b|] eqn:E; [|nia]. pose proof (Hm key b E) as [? ?]. nia.
  - destruct Ht as [H1 H2]. pose proof (Hu c ltac:(left)) as Hcu. pose proof (potential_later key t (cNow c) m HR H1 Hm) as Hpt.
    pose proof (ok_mono _ _ _ H1 Hm) as Hm'. pose proof (take_potential key (cNow c) c m HR HB ltac:(lia) Hm') as Hp.
    pose proof (take_ok (cNow c) (cKey c) (cN c) m HR HB ltac:(lia) Hm') as Hm2.
    destruct (take (cNow c) (cKey c) (cN c) m) as [ok m'] eqn:E. cbn [fst snd] in *.
    specialize (IH (cNow c) u m' HR HB ltac:(lia) H2 Hcu (λ d Hd, Hu d (list_elem_of_further _ _ _ Hd)) Hm2). lia.
Qed.

Definition after (cs : list call) (m : gmap string level) : gmap string level := foldl (λ m c, (take (cNow c) (cKey c) (cN c) m).2) m cs.

Lemma takes_app cs ds m : takes (cs ++ ds) m = takes cs m ++ takes ds (after cs m).
Proof.
  revert m. induction cs as [|c cs IH]; intros m; [done|]. cbn. destruct (take _ _ _ m) as [ok m']. cbn. by rewrite IH.
Qed.

Lemma length_takes cs m : length (takes cs m) = length cs.
Proof. revert m. induction cs as [|c cs IH]; intros m; [done|]. cbn. destruct (take _ _ _ m) as [ok m']. cbn. by rewrite IH. Qed.

Lemma after_ok cs : ∀ t u m, 0 ≤ R → 0 ≤ B → 0 ≤ t → t ≤ u → ticking t cs → (∀ c, c ∈ cs → cNow c ≤ u) →
  map_Forall (λ _, ok_by t) m → map_Forall (λ _, ok_by u) (after cs m).
Proof.
  induction cs as [|c cs IH]; intros t u m HR HB H0 Htu Ht Hu Hm; [by apply (ok_mono t)|]. destruct Ht as [H1 H2]. cbn.
  apply (IH (cNow c)); [done..|lia|apply Hu; left|done| |].
  - intros d Hd. apply Hu. by right.
  - apply take_ok; [done..|lia|]. by apply (ok_mono t).
Qed.

Lemma ticking_app t cs ds : ticking t (cs ++ ds) → ticking t cs ∧ (∀ c d, c ∈ cs → d ∈ ds → cNow c ≤ cNow d) ∧
  ∀ u, (∀ d, d ∈ ds → u ≤ cNow d) → ticking u ds.
Proof.
  revert t. induction cs as [|c cs IH]; intros t Ht.
  - split_and!; [done|by intros c d ?%elem_of_nil|]. intros u Hu. destruct ds as [|d ds]; [done|]. split; [apply Hu; left|apply Ht].
  - destruct Ht as [H1 H2]. destruct (IH _ H2) as (H3 & H4 & H5). split_and!; [done| |done].
    intros c' d [->|Hc]%elem_of_cons Hd; [|by apply H4]. apply (ticking_last (cNow c) _ d H2). apply elem_of_app. by right.
Qed.
End bucket.
End TokenBucket.

(** ** The limiter implements it *)

Section whole.
Context (R B H : Z).

Definition Level (b : TokenBucket.level) : bucket := MkBucket (of_Z (TokenBucket.held b)) (TokenBucket.since b * Second).
Definition represents (l : Limiter) (m : gmap string TokenBucket.level) : Prop :=
  rate l = of_Z R ∧ burst l = of_Z B ∧ buckets l = Level <$> m.
Definition at_seconds (c : call) : call := MkCall (cNow c * Second) (cKey c) (cN c).

(** Rates and bursts for which no refill over [H] seconds leaves the whole
    numbers; the clock's range is that of a Duration. *)
Definition in_range : Prop := 0 < R < 2 ^ 53 ∧ 0 < B ∧ 0 ≤ H ≤ 9223372036 ∧ B + H * R < 2 ^ 53.

Lemma seconds_whole s t : 0 ≤ s ≤ t → t ≤ H → in_range → Seconds (Sub (t * Second) (s * Second)) = of_Z (t - s).
Proof.
  intros Hs Ht (? & ? & ? & ?). unfold Seconds, Sub, max_int64. rewrite Z.max_r, Z.min_r by (unfold Second; lia).
  rewrite <- Z.mul_sub_distr_r. apply Seconds_whole. lia.
Qed.

Lemma refill_whole l m t b : in_range → represents l m → 0 ≤ t ≤ H → TokenBucket.ok_by B t b →
  refill (t * Second) (t * Second) l (Level b) = Level (TokenBucket.refilled R B t b).
Proof.
  intros Hr (El & Eb & _) Ht [Hb Hbt]. destruct Hr as (? & ? & ? & ?). unfold refill. cbn [Level last tokens].
  rewrite seconds_whole, El, Eb, fltb_exact by (done || lia). unfold TokenBucket.refilled.
  destruct (Z.ltb_spec 0 (t - TokenBucket.since b)), (Z.ltb_spec (TokenBucket.since b) t); try lia; [|done]. unfold Level. cbn. f_equal.
  assert (Hm : 0 ≤ (t - TokenBucket.since b) * R ≤ H * R) by nia.
  rewrite fmul_exact, fadd_exact, fmin_exact by nia. done.
Qed.

Lemma allow_whole l m c : in_range → represents l m → 0 ≤ cNow c ≤ H → cN c < 2 ^ 53 →
  map_Forall (λ _, TokenBucket.ok_by B (cNow c)) m →
  let a := AllowN (cNow (at_seconds c)) (cKey c) (cN c) l in let b := TokenBucket.take R B (cNow c) (cKey c) (cN c) m in
  a.1 = b.1 ∧ represents a.2 b.2.
Proof.
  intros Hr Hrep Ht Hn Hm. pose proof Hr as (HR & HB & HH & Hlim). pose proof Hrep as (El & Eb & Em). unfold AllowN, TokenBucket.take. destruct (Z.leb_spec (cN c) 0); [done|]. cbv zeta.
  fold (TokenBucket.current B (cNow c) (cKey c) m).
  pose proof (TokenBucket.current_ok B (cNow c) (cKey c) m ltac:(lia) ltac:(lia) Hm) as Hc.
  replace (default (MkBucket (burst l) (cNow (at_seconds c))) (buckets l !! cKey c)) with (Level (TokenBucket.current B (cNow c) (cKey c) m)).
  2: { unfold TokenBucket.current. rewrite Em, lookup_fmap, Eb. by destruct (m !! cKey c). }
  cbn [at_seconds cNow]. rewrite (refill_whole l m) by done.
  destruct (TokenBucket.refilled_ok R B (cNow c) _ ltac:(lia) ltac:(lia) Hc) as [[Hh _] Hs].
  set (b := TokenBucket.refilled R B (cNow c) _) in *. assert (0 ≤ H * R) by nia. cbn [tokens Level]. rewrite fleb_exact by lia.
  destruct (Z.leb_spec (cN c) (TokenBucket.held b)); (split; [done|]); unfold represents; cbn; rewrite Em, fmap_insert; [|done].
  split_and!; [done..|]. unfold Level at 2. cbn. by rewrite fsub_exact by lia.
Qed.

Lemma answers_whole cs : ∀ t l m, in_range → represents l m → 0 ≤ t → TokenBucket.ticking t cs →
  (∀ c, c ∈ cs → cNow c ≤ H ∧ cN c < 2 ^ 53) → map_Forall (λ _, TokenBucket.ok_by B t) m →
  answers (at_seconds <$> cs) l = TokenBucket.takes R B cs m.
Proof.
  induction cs as [|c cs IH]; intros t l m Hr Hrep Ht Hti Hcs Hm; [done|]. destruct Hti as [H1 H2]. destruct (Hcs c ltac:(left)) as [Hc Hn].
  pose proof (TokenBucket.ok_mono B _ _ _ H1 Hm) as Hm'. pose proof Hr as (HR & HB & _).
  destruct (allow_whole l m c Hr Hrep ltac:(lia) Hn Hm') as [E1 E2].
  pose proof (TokenBucket.take_ok R B (cNow c) (cKey c) (cN c) m ltac:(lia) ltac:(lia) ltac:(lia) Hm') as Hm2.
  cbn [fmap list_fmap answers TokenBucket.takes]. change (cKey (at_seconds c)) with (cKey c). change (cN (at_seconds c)) with (cN c).
  destruct (AllowN _ _ _ l) as [ok l'], (TokenBucket.take _ _ _ _ _ m) as [ok' m']. cbn [fst snd] in *. subst ok'. f_equal.
  apply (IH (cNow c)); [done..|lia|done| |done]. intros d Hd. apply Hcs. by right.
Qed.

Lemma new_represents : in_range → represents (New (of_Z R) B) ∅.
Proof.
  intros (HR & HB & ? & ?). assert (0 ≤ H * R) by nia. unfold New, represents. cbv zeta. rewrite !fleb_exact by lia.
  destruct (Z.leb_spec R 0), (Z.leb_spec B 0); try lia. cbn [rate burst buckets]. by rewrite fmap_empty.
Qed.

(** C29: with a whole rate and burst, and clock readings on whole seconds, the
    floating-point limiter is the integer token bucket: no call is answered
    differently because of rounding, as long as the burst and what [H] seconds
    refill stay below 2^53. *)
Theorem limiter_is_token_bucket cs : in_range → TokenBucket.ticking 0 cs → (∀ c, c ∈ cs → cNow c ≤ H ∧ cN c < 2 ^ 53) →
  answers (at_seconds <$> cs) (New (of_Z R) B) = TokenBucket.takes R B cs ∅.
Proof.
  intros Hr Ht Hcs. apply (answers_whole cs 0); [done|by apply new_represents|done..|apply map_Forall_empty].
Qed.

(** Whatever was asked before and by others, in a window of [u - t]
    seconds a tenant is granted at most one burst and what the rate refills. *)
Theorem sustained_rate key past window t u : in_range → 0 ≤ t ≤ u → TokenBucket.ticking 0 (past ++ window) →
  (∀ c, c ∈ past ++ window → cNow c ≤ H ∧ cN c < 2 ^ 53) → (∀ c, c ∈ past → cNow c ≤ t) → (∀ c, c ∈ window → t ≤ cNow c ≤ u) →
  granted key window (drop (length past) (answers (at_seconds <$> past ++ window) (New (of_Z R) B))) ≤ B + (u - t) * R.
Proof.
  intros Hr Htu Ht Hcs Hp Hw. pose proof Hr as (HR & HB & _).
  rewrite (answers_whole _ 0 _ ∅) by (done || by apply new_represents || apply map_Forall_empty).
  rewrite TokenBucket.takes_app, <- (TokenBucket.length_takes R B past ∅), drop_app_length.
  destruct (TokenBucket.ticking_app _ _ _ Ht) as (Ht1 & _ & Ht2).
  pose proof (TokenBucket.after_ok R B past 0 t ∅ ltac:(lia) ltac:(lia) ltac:(lia) ltac:(lia) Ht1 Hp ltac:(apply map_Forall_empty)) as Hok.
  etransitivity; [apply (TokenBucket.takes_bounded R B key window t u); try done; try lia|].
  - apply Ht2. intros d Hd. by apply Hw.
  - intros c Hc. by apply Hw.
  - unfold TokenBucket.potential. destruct (_ !! key) as [b|] eqn:E; [|lia]. lia.
Qed.
End whole.

(** ** Examples *)

(** Two tokens per second, at most three: a burst, a refusal, another tenant,
    and what one second refills. *)
Definition calls : list call :=
  [MkCall 5 "alice" 1; MkCall 5 "alice" 2; MkCall 5 "alice" 1; MkCall 5 "bob" 3; MkCall 6 "alice" 1; MkCall 6 "alice" 1; MkCall 6 "alice" 1].

Lemma small_range : in_range 2 3 100.
Proof. unfold in_range. lia. Qed.
Lemma calls_tick : TokenBucket.ticking 0 calls ∧ ∀ c, c ∈ calls → cNow c ≤ 100 ∧ cN c < 2 ^ 53.
Proof. split; [cbn; lia|]. intros c Hc. repeat (apply elem_of_cons in Hc as [->|Hc]; [cbn; lia|]). by apply elem_of_nil in Hc. Qed.

Lemma limiter_is_token_bucket_witness :
  answers (at_seconds <$> calls) (New (of_Z 2) 3) = [true; true; false; true; true; true; false] ∧
  answers (at_seconds <$> calls) (New (of_Z 2) 3) = TokenBucket.takes 2 3 calls ∅.
Proof.
  split; [vm_compute; reflexivity|]. apply (limiter_is_token_bucket 2 3 100 calls small_range); apply calls_tick.
Defined.

Lemma sustained_rate_witness :
  granted "alice" (drop 1 calls) (drop 1 (answers (at_seconds <$> calls) (New (of_Z 2) 3))) = 4 ∧ 4 ≤ 3 + (6 - 5) * 2.
Proof.
  split; [vm_compute; reflexivity|].
  change 4 with (granted "alice" (drop 1 calls) (drop (length (take 1 calls)) (answers (at_seconds <$> take 1 calls ++ drop 1 calls) (New (of_Z 2) 3)))) at 1.
  apply (sustained_rate 2 3 100 "alice" (take 1 calls) (drop 1 calls) 5 6 small_range); [lia|apply calls_tick|apply calls_tick| |].
  - intros c Hc. repeat (apply elem_of_cons in Hc as [->|Hc]; [cbn; lia|]). by apply elem_of_nil in Hc.
  - intros c Hc. repeat (apply elem_of_cons in Hc as [->|Hc]; [cbn; lia|]). by apply elem_of_nil in Hc.
Defined.
