(* ===== verification/Quota.v ===== *)
(** * Tenant quotas (quota/enforcer.go, quota/ledger.go)

    The enforcer's live reservations and the ledger's bills.  Cores are
    floating point; memory, GPUs and jobs are ints that may wrap around. *)
From S2P Require Import Prelude GoLib Float64.
Open Scope Z_scope.

Record Request := MkRequest { CPUCores : float64; MemoryGB : Z; GPUCount : Z }.
Record TenantQuota := MkQuota { MaxCPUCores : float64; MaxMemoryGB : Z; MaxGPUCount : Z; MaxActiveJobs : Z }.
Record Usage := MkUsage { uCPUCores : float64; uMemoryGB : Z; uGPUCount : Z; uActiveJobs : Z }.
Record Enforcer := MkEnforcer { quota : gmap string TenantQuota; usage : gmap string Usage }.
#[export] Instance eta_Enforcer : Eta Enforcer := λ e, MkEnforcer (quota e) (usage e).

Definition NewEnforcer : Enforcer := MkEnforcer ∅ ∅.
Definition SetQuota (tenant : string) (q : TenantQuota) (e : Enforcer) : Enforcer := e <| quota := <[tenant := q]> (quota e) |>.

Definition no_usage : Usage := MkUsage (of_Z 0) 0 0 0.
Definition UsageOf (tenant : string) (e : Enforcer) : Usage := default no_usage (usage e !! tenant).

(** A refusal, with the values its message prints. *)
Inductive refusal :=
  | NoQuota (tenant : string)
  | AtJobLimit (tenant : string) (limit : Z)
  | CPUExceeded (tenant : string) (used asked limit : float64)
  | MemoryExceeded (tenant : string) (used asked limit : Z)
  | GPUExceeded (tenant : string) (used asked limit : Z).

Record Reservation := MkReservation { rsTenant : string; rsReq : Request; rsDone : bool }.

Definition Reserve (tenant : string) (req : Request) (e : Enforcer) : (refusal + Reservation) * Enforcer :=
  match quota e !! tenant with
  | None => (inl (NoQuota tenant), e)
  | Some q =>
      let u := UsageOf tenant e in
      if wrap64 (uActiveJobs u + 1) >? MaxActiveJobs q then (inl (AtJobLimit tenant (MaxActiveJobs q)), e)
      else if fltb (MaxCPUCores q) (fadd (uCPUCores u) (CPUCores req)) then
        (inl (CPUExceeded tenant (uCPUCores u) (CPUCores req) (MaxCPUCores q)), e)
      else if wrap64 (uMemoryGB u + MemoryGB req) >? MaxMemoryGB q then
        (inl (MemoryExceeded tenant (uMemoryGB u) (MemoryGB req) (MaxMemoryGB q)), e)
      else if wrap64 (uGPUCount u + GPUCount req) >? MaxGPUCount q then
        (inl (GPUExceeded tenant (uGPUCount u) (GPUCount req) (MaxGPUCount q)), e)
      else
        (inr (MkReservation tenant req false),
         e <| usage := <[tenant := MkUsage (fadd (uCPUCores u) (CPUCores req)) (wrap64 (uMemoryGB u + MemoryGB req))
                                     (wrap64 (uGPUCount u + GPUCount req)) (wrap64 (uActiveJobs u + 1))]> (usage e) |>)
  end.

(** [Release]: the [sync.Once] is the reservation's flag. *)
Definition Release (r : Reservation) (e : Enforcer) : Reservation * Enforcer :=
  if rsDone r then (r, e)
  else
    let u := UsageOf (rsTenant r) e in
    (MkReservation (rsTenant r) (rsReq r) true,
     e <| usage := <[rsTenant r := MkUsage (fmax (fsub (uCPUCores u) (CPUCores (rsReq r))) (of_Z 0)) (Z.max (wrap64 (uMemoryGB u - MemoryGB (rsReq r))) 0)
                       (Z.max (wrap64 (uGPUCount u - GPUCount (rsReq r))) 0) (Z.max (wrap64 (uActiveJobs u - 1)) 0)]> (usage e) |>).

(** ** The reservations that were handed out *)

Record Book := MkBook { enf : Enforcer; slips : list Reservation }.

Inductive op := OpQuota (tenant : string) (q : TenantQuota) | OpReserve (tenant : string) (req : Request) | OpRelease (i : nat).

Definition book_step (o : op) (b : Book) : Book :=
  match o with
  | OpQuota tenant q => MkBook (SetQuota tenant q (enf b)) (slips b)
  | OpReserve tenant req =>
      match Reserve tenant req (enf b) with
      | (inr r, e) => MkBook e (slips b ++ [r])
      | (inl _, e) => MkBook e (slips b)
      end
  | OpRelease i =>
      match slips b !! i with
      | Some r => let '(r, e) := Release r (enf b) in MkBook e (<[i := r]> (slips b))
      | None => b
      end
  end.
Definition book_run (ops : list op) : Book := foldl (λ b o, book_step o b) (MkBook NewEnforcer []) ops.

(** What a tenant's outstanding reservations add up to. *)
Record Total := MkTotal { tCores : Z; tMemory : Z; tGPUs : Z; tJobs : Z }.
Definition whole_cores (x : float64) (n : Z) : Prop := 0 ≤ n < 2 ^ 52 ∧ x = of_Z n.

Section accounts.
(** The number of cores a request means. *)
Context (cores : Request → Z).

Definition live (tenant : string) (r : Reservation) : bool := bool_decide (rsTenant r = tenant) && negb (rsDone r).
Definition sum_live (f : Request → Z) (tenant : string) (l : list Reservation) : Z :=
  foldr (λ r n, (if live tenant r then f (rsReq r) else 0) + n) 0 l.
Definition total (tenant : string) (l : list Reservation) : Total :=
  MkTotal (sum_live cores tenant l) (sum_live MemoryGB tenant l) (sum_live GPUCount tenant l) (sum_live (λ _, 1) tenant l).

(** Requests and quotas of whole, non-negative amounts that cannot wrap. *)
Definition sane_request (r : Request) : Prop :=
  whole_cores (CPUCores r) (cores r) ∧ 0 ≤ MemoryGB r < 2 ^ 62 ∧ 0 ≤ GPUCount r < 2 ^ 62.
Definition sane_quota (q : TenantQuota) : Prop :=
  (∃ n, whole_cores (MaxCPUCores q) n) ∧ 0 ≤ MaxMemoryGB q < 2 ^ 62 ∧ 0 ≤ MaxGPUCount q < 2 ^ 62 ∧ 0 ≤ MaxActiveJobs q < 2 ^ 62.
Definition sane_op (o : op) : Prop :=
  match o with OpQuota _ q => sane_quota q | OpReserve _ r => sane_request r | OpRelease _ => True end.

(** The enforcer's figures are the sums, and none is out of range. *)
Definition figures (u : Usage) (t : Total) : Prop :=
  (0 ≤ tCores t < 2 ^ 52 ∧ uCPUCores u = of_Z (tCores t)) ∧ (0 ≤ tMemory t < 2 ^ 62 ∧ uMemoryGB u = tMemory t) ∧
  (0 ≤ tGPUs t < 2 ^ 62 ∧ uGPUCount u = tGPUs t) ∧ (0 ≤ tJobs t < 2 ^ 62 ∧ uActiveJobs u = tJobs t).
Definition book_ok (b : Book) : Prop :=
  (∀ tenant, figures (UsageOf tenant (enf b)) (total tenant (slips b))) ∧ map_Forall (λ _, sane_quota) (quota (enf b)) ∧
  Forall (λ r, sane_request (rsReq r)) (slips b).

Lemma sum_live_app f tenant l l' : sum_live f tenant (l ++ l') = sum_live f tenant l + sum_live f tenant l'.
Proof. unfold sum_live. induction l as [|r l IH]; [done|]. cbn. rewrite IH. lia. Qed.

Lemma sum_live_nonneg f tenant l : Forall (λ r, 0 ≤ f (rsReq r)) l → 0 ≤ sum_live f tenant l.
Proof. unfold sum_live. induction 1; cbn; [lia|]. destruct (live tenant x); lia. Qed.

(** Releasing an outstanding reservation takes its share out of the sum. *)
Lemma sum_live_release f tenant l i r : l !! i = Some r → rsDone r = false →
  sum_live f tenant l = (if bool_decide (rsTenant r = tenant) then f (rsReq r) else 0) +
    sum_live f tenant (<[i := MkReservation (rsTenant r) (rsReq r) true]> l).
Proof.
  revert i. induction l as [|x l IH]; intros i Hi Hd; [done|]. destruct i as [|i].
  - injection Hi as ->. change (<[0%nat := ?y]> (r :: l)) with (y :: l). unfold sum_live, live. cbn. rewrite Hd, andb_true_r, andb_false_r. done.
  - change (<[S i := ?y]> (x :: l)) with (x :: <[i := y]> l). cbn [sum_live foldr]. fold (sum_live f tenant l).
    rewrite (IH i Hi Hd). unfold sum_live. cbn [foldr]. lia.
Qed.

Lemma usage_insert tenant u e t : UsageOf t (e <| usage := <[tenant := u]> (usage e) |>) = if bool_decide (tenant = t) then u else UsageOf t e.
Proof. unfold UsageOf. cbn. case_bool_decide as E; [by rewrite E, lookup_insert_eq|by rewrite lookup_insert_ne]. Qed.

(** Within a quota on every dimension, [n] being its cores. *)
Definition within (q : TenantQuota) (n : Z) (t : Total) : Prop :=
  tCores t ≤ n ∧ tMemory t ≤ MaxMemoryGB q ∧ tGPUs t ≤ MaxGPUCount q ∧ tJobs t ≤ MaxActiveJobs q.

Lemma reserve_quota tenant req e : quota (Reserve tenant req e).2 = quota e.
Proof. unfold Reserve. destruct (quota e !! tenant); [|done]. cbv zeta. by repeat case_match. Qed.

Lemma reserve_ok tenant req b : book_ok b → sane_request req →
  match Reserve tenant req (enf b) with
  | (inr r, e) => book_ok (MkBook e (slips b ++ [r])) ∧ rsTenant r = tenant ∧
      ∃ q, quota (enf b) !! tenant = Some q ∧ ∀ n, whole_cores (MaxCPUCores q) n → within q n (total tenant (slips b ++ [r]))
  | (inl _, e) => e = enf b
  end.
Proof.
  intros (Hf & Hq & Hs) Hr. pose proof Hr as ((Hc & Ec) & Hm & Hg). unfold Reserve.
  destruct (quota (enf b) !! tenant) as [q|] eqn:Eq; [|done]. destruct (Hq tenant q Eq) as ((n & Hn & En) & Qm & Qg & Qj).
  destruct (Hf tenant) as ((F1 & E1) & (F2 & E2) & (F3 & E3) & (F4 & E4)). cbv zeta. rewrite E1, E2, E3, E4, Ec, En.
  rewrite fadd_exact, fltb_exact, !wrap64_id by (unfold max_int64; lia). rewrite !Z.gtb_ltb.
  destruct (Z.ltb_spec (MaxActiveJobs q) (tJobs (total tenant (slips b)) + 1)); [done|].
  destruct (Z.ltb_spec n (tCores (total tenant (slips b)) + cores req)); [done|].
  destruct (Z.ltb_spec (MaxMemoryGB q) (tMemory (total tenant (slips b)) + MemoryGB req)); [done|].
  destruct (Z.ltb_spec (MaxGPUCount q) (tGPUs (total tenant (slips b)) + GPUCount req)); [done|].
  split; [|split; [done|]].
  2: { exists q. split; [done|]. intros n' [Hn' En']. rewrite En in En'. apply of_Z_inj in En'; [|lia..]. subst n'. unfold within, total in *.
    rewrite !sum_live_app. cbn in *. unfold live. cbn. rewrite bool_decide_eq_true_2 by done. cbn. lia. }
  split_and!; cbn [enf slips]; [|done|by apply Forall_app; split; [|constructor]].
  intros t. rewrite usage_insert. specialize (Hf t). unfold total in *. rewrite !sum_live_app. cbn in *. unfold live. cbn.
  case_bool_decide as Et; cbn; [subst t|rewrite !Z.add_0_r; exact Hf]. unfold figures; cbn.
  rewrite !Z.add_0_r. split_and!; try lia; done.
Qed.

Lemma fsub_max_exact a b : 0 ≤ b ≤ a → a < 2 ^ 53 → fmax (fsub (of_Z a) (of_Z b)) (of_Z 0) = of_Z (a - b).
Proof. intros Hb Ha. rewrite fsub_exact, fmax_exact, Z.max_l by lia. done. Qed.

Lemma release_ok i r b : book_ok b → slips b !! i = Some r →
  let '(r', e) := Release r (enf b) in book_ok (MkBook e (<[i := r']> (slips b))).
Proof.
  intros (Hf & Hq & Hs) Hi. unfold Release. destruct (rsDone r) eqn:Hd; [by rewrite list_insert_id|].
  pose proof (Forall_lookup_1 _ _ _ _ Hs Hi) as Hr. pose proof Hr as ((Hc & Ec) & Hm & Hg).
  split_and!; cbn [enf slips]; [|done|by apply Forall_insert].
  intros t. rewrite usage_insert. pose proof (Hf t) as Ht.
  set (l := <[i := MkReservation (rsTenant r) (rsReq r) true]> (slips b)).
  assert (Hl : Forall (λ r, sane_request (rsReq r)) l) by by apply Forall_insert.
  assert (Hn : ∀ f : Request → Z, (∀ x, sane_request x → 0 ≤ f x) → 0 ≤ sum_live f t l).
  { intros f Hf'. apply sum_live_nonneg. eapply Forall_impl; [exact Hl|]. intros x Hx. by apply Hf'. }
  pose proof (Hn cores ltac:(intros x ((? & _) & _); lia)). pose proof (Hn MemoryGB ltac:(intros x (_ & ? & _); lia)).
  pose proof (Hn GPUCount ltac:(intros x (_ & _ & ?); lia)). pose proof (Hn (λ _, 1) ltac:(intros; lia)).
  unfold total in Ht |- *. rewrite !(sum_live_release _ t _ i r Hi Hd) in Ht. fold l in Ht. cbn beta in Ht.
  destruct (decide (rsTenant r = t)) as [<-|Hne].
  - rewrite !bool_decide_eq_true_2 in Ht by done. rewrite bool_decide_eq_true_2 by done.
    destruct Ht as ((F1 & E1) & (F2 & E2) & (F3 & E3) & (F4 & E4)). cbn in F1, E1, F2, E2, F3, E3, F4, E4.
    unfold figures. cbn. rewrite E1, E2, E3, E4, Ec, fsub_max_exact by lia.
    rewrite !wrap64_id by (unfold max_int64; lia). rewrite !Z.max_l by lia. split_and!; try lia. f_equal. lia.
  - rewrite !bool_decide_eq_false_2 in Ht by done. rewrite bool_decide_eq_false_2 by done. exact Ht.
Qed.

Lemma book_step_ok o b : book_ok b → sane_op o → book_ok (book_step o b).
Proof.
  intros Hb Ho. destruct o as [t q|t req|i]; cbn.
  - destruct Hb as (Hf & Hq & Hs). split_and!; [exact Hf| |done]. by apply map_Forall_insert_2.
  - pose proof (reserve_ok t req b Hb Ho) as H. destruct (Reserve t req (enf b)) as [[e|r] e']; [by subst; destruct b|apply H].
  - destruct (slips b !! i) as [r|] eqn:E; [|done]. pose proof (release_ok i r b Hb E) as H. by destruct (Release r (enf b)).
Qed.

Lemma book_run_ok ops : Forall sane_op ops → book_ok (book_run ops).
Proof.
  induction ops as [|o ops IH] using rev_ind; intros H.
  - split_and!; [intros t; unfold figures, UsageOf; cbn; rewrite lookup_empty; cbn; split_and!; try done; try lia|apply map_Forall_empty|constructor].
  - rewrite Forall_app, Forall_singleton in H. destruct H. unfold book_run. rewrite foldl_app. cbn. apply book_step_ok; [by apply IH|done].
Qed.

Lemma total_other tenant l r : rsTenant r ≠ tenant → total tenant (l ++ [r]) = total tenant l.
Proof. intros Hne. unfold total. rewrite !sum_live_app. cbn. unfold live. rewrite bool_decide_eq_false_2 by done. cbn. by rewrite !Z.add_0_r. Qed.

Lemma release_within tenant q n b i : book_ok b → within q n (total tenant (slips b)) →
  within q n (total tenant (slips (book_step (OpRelease i) b))).
Proof.
  intros (_ & _ & Hs) Hw. cbn. destruct (slips b !! i) as [r|] eqn:Hi; [|done]. unfold Release.
  destruct (rsDone r) eqn:Hd; cbn; [by rewrite list_insert_id|]. pose proof (Forall_lookup_1 _ _ _ _ Hs Hi) as ((? & _) & ? & ?).
  unfold within, total in *. cbn in *. rewrite !(sum_live_release _ tenant _ i r Hi Hd) in Hw. cbn in Hw.
  destruct (bool_decide (rsTenant r = tenant)); lia.
Qed.

Lemma step_within tenant q n o b : book_ok b → sane_op o → whole_cores (MaxCPUCores q) n →
  (∀ q', o = OpQuota tenant q' → q' = q) →
  (within q n (total tenant (slips b)) ∧ ∀ q', quota (enf b) !! tenant = Some q' → q' = q) →
  within q n (total tenant (slips (book_step o b))) ∧ ∀ q', quota (enf (book_step o b)) !! tenant = Some q' → q' = q.
Proof.
  intros Hok Ho Hn Hq [Hw Hb]. destruct o as [t q0|t req|i].
  - split; [done|]. cbn. intros q'. destruct (decide (t = tenant)) as [->|Hne]; [|rewrite lookup_insert_ne by done; apply Hb].
    rewrite lookup_insert_eq. intros [= <-]. by apply Hq.
  - pose proof (reserve_ok t req b Hok Ho) as H. cbn [book_step]. pose proof (reserve_quota t req (enf b)) as Hqs.
    destruct (Reserve t req (enf b)) as [[e|r] e']; cbn [enf slips snd] in *; rewrite Hqs; (split; [|done]); [done|]. destruct H as (_ & Hr & H).
    destruct (decide (t = tenant)) as [->|Hne]; [|by rewrite total_other by (by rewrite Hr)].
    destruct H as (q' & Eq & H). rewrite <- (Hb q' Eq) in *. by apply H.
  - split; [by apply release_within|]. cbn. destruct (slips b !! i) as [r|]; [|done]. unfold Release. by destruct (rsDone r).
Qed.

(** For requests and quotas of whole amounts the enforcer's usage is, on
    every dimension, the sum of the reservations not yet released, however
    often each is released and whatever the order. *)
Theorem usage_is_outstanding ops tenant : Forall sane_op ops →
  let b := book_run ops in let t := total tenant (slips b) in
  UsageOf tenant (enf b) = MkUsage (of_Z (tCores t)) (tMemory t) (tGPUs t) (tJobs t) ∧
  ((∀ r, r ∈ slips b → rsTenant r = tenant → rsDone r = true) → UsageOf tenant (enf b) = no_usage).
Proof.
  intros Hs b t. destruct (book_run_ok ops Hs) as (Hf & _ & _). fold b in Hf.
  assert (E : UsageOf tenant (enf b) = MkUsage (of_Z (tCores t)) (tMemory t) (tGPUs t) (tJobs t)).
  { destruct (Hf tenant) as ((_ & E1) & (_ & E2) & (_ & E3) & (_ & E4)). destruct (UsageOf tenant (enf b)). cbn in *. by subst. }
  split; [exact E|]. intros Hd. rewrite E. assert (Hz : ∀ f, sum_live f tenant (slips b) = 0).
  { intros f. clear -Hd. unfold sum_live. induction (slips b) as [|r l IH]; [done|]. cbn. rewrite IH; [|intros x Hx; apply Hd; by right].
    unfold live. case_bool_decide as Et; [|done]. by rewrite (Hd r ltac:(left) Et). }
  unfold t, total. cbn. by rewrite !Hz.
Qed.

End accounts.

(** ** The ledger *)

Record Statement := MkStatement { CPUSeconds : float64; GPUSeconds : float64; BytesRead : Z; BytesWritten : Z; JobsCompleted : Z }.
Definition no_bill : Statement := MkStatement (of_Z 0) (of_Z 0) 0 0 0.
Definition Ledger : Type := gmap string Statement.
Definition NewLedger : Ledger := ∅.
Definition StatementOf (tenant : string) (l : gmap string Statement) : Statement := default no_bill (l !! tenant).

Definition RecordCompute (tenant : string) (req : Request) (dur : Z) (l : Ledger) : Ledger :=
  let secs := Seconds dur in
  let s := StatementOf tenant l in
  <[tenant := MkStatement (fadd (CPUSeconds s) (fmul (CPUCores req) secs)) (fadd (GPUSeconds s) (fmul (of_Z (GPUCount req)) secs))
                (BytesRead s) (BytesWritten s) (wrap64 (JobsCompleted s + 1))]> l.

Definition RecordIO (tenant : string) (bytesRead bytesWritten : Z) (l : Ledger) : Ledger :=
  let s := StatementOf tenant l in
  <[tenant := MkStatement (CPUSeconds s) (GPUSeconds s)
                (if bytesRead >? 0 then wrap64 (BytesRead s + bytesRead) else BytesRead s)
                (if bytesWritten >? 0 then wrap64 (BytesWritten s + bytesWritten) else BytesWritten s) (JobsCompleted s)]> l.

(** What is charged: [secs] whole seconds of [cores] whole cores, or bytes. *)
Inductive charge := Compute (tenant : string) (cores gpus mem secs : Z) | IO (tenant : string) (bytesRead bytesWritten : Z).
Definition record (l : Ledger) (c : charge) : Ledger :=
  match c with
  | Compute t cores gpus mem secs => RecordCompute t (MkRequest (of_Z cores) mem gpus) (secs * Second) l
  | IO t r w => RecordIO t r w l
  end.

Definition charged (f : charge → Z) (tenant : string) (cs : list charge) : Z :=
  foldr (λ c n, (if bool_decide (match c with Compute t _ _ _ _ | IO t _ _ => t end = tenant) then f c else 0) + n) 0 cs.
Definition core_seconds (c : charge) : Z := match c with Compute _ cores _ _ secs => cores * secs | IO _ _ _ => 0 end.
Definition gpu_seconds (c : charge) : Z := match c with Compute _ _ gpus _ secs => gpus * secs | IO _ _ _ => 0 end.
Definition bytes_in (c : charge) : Z := match c with IO _ r _ => Z.max 0 r | _ => 0 end.
Definition bytes_out (c : charge) : Z := match c with IO _ _ w => Z.max 0 w | _ => 0 end.
Definition jobs_done (c : charge) : Z := match c with Compute _ _ _ _ _ => 1 | IO _ _ _ => 0 end.
Definition sane_charge (c : charge) : Prop :=
  match c with
  | Compute _ cores gpus _ secs => 0 ≤ cores < 2 ^ 53 ∧ 0 ≤ gpus < 2 ^ 53 ∧ 0 ≤ secs < 2 ^ 53
  | IO _ _ _ => True
  end.

Lemma charged_app f tenant cs ds : charged f tenant (cs ++ ds) = charged f tenant cs + charged f tenant ds.
Proof. unfold charged. induction cs as [|c cs IH]; [done|]. cbn. rewrite IH. lia. Qed.

Lemma charged_nonneg f tenant cs : (∀ c, c ∈ cs → 0 ≤ f c) → 0 ≤ charged f tenant cs.
Proof.
  unfold charged. induction cs as [|c cs IH]; intros Hf; [done|]. cbn. specialize (IH (λ x Hx, Hf x (list_elem_of_further _ _ _ Hx))).
  pose proof (Hf c ltac:(left)). destruct (bool_decide _); lia.
Qed.

Lemma statement_insert tenant s (l : gmap string Statement) t : StatementOf t (<[tenant := s]> l) = if bool_decide (tenant = t) then s else StatementOf t l.
Proof. unfold StatementOf. case_bool_decide as E; [by rewrite E, lookup_insert_eq|by rewrite lookup_insert_ne]. Qed.

(** As long as the core- and GPU-seconds stay below 2^53 and the counters
    below 2^63, a statement is exactly the sum of what was charged to the
    tenant: nothing is lost to rounding, and negative byte counts earn no
    credit. *)
Theorem statement_is_sum cs tenant : Forall sane_charge cs →
  charged core_seconds tenant cs < 2 ^ 53 → charged gpu_seconds tenant cs < 2 ^ 53 →
  charged bytes_in tenant cs ≤ max_int64 → charged bytes_out tenant cs ≤ max_int64 → charged jobs_done tenant cs ≤ max_int64 →
  StatementOf tenant (foldl record NewLedger cs) =
    MkStatement (of_Z (charged core_seconds tenant cs)) (of_Z (charged gpu_seconds tenant cs))
      (charged bytes_in tenant cs) (charged bytes_out tenant cs) (charged jobs_done tenant cs).
Proof.
  induction cs as [|c cs IH] using rev_ind; intros Hs; [intros; reflexivity|].
  rewrite Forall_app, Forall_singleton in Hs. destruct Hs as [Hs Hc]. rewrite !charged_app, foldl_app. cbn [foldl].
  assert (Hn : ∀ f, (∀ c, sane_charge c → 0 ≤ f c) → 0 ≤ charged f tenant cs).
  { intros f Hf. apply charged_nonneg. intros x Hx. apply Hf. by apply (proj1 (Forall_forall _ _) Hs). }
  pose proof (Hn core_seconds ltac:(intros [] Hx; cbn in *; nia)). pose proof (Hn gpu_seconds ltac:(intros [] Hx; cbn in *; nia)).
  pose proof (Hn bytes_in ltac:(intros [] Hx; cbn in *; lia)). pose proof (Hn bytes_out ltac:(intros [] Hx; cbn in *; lia)).
  pose proof (Hn jobs_done ltac:(intros [] Hx; cbn in *; lia)). clear Hn.
  assert (E : ∀ f, charged f tenant [c] = if bool_decide (match c with Compute t _ _ _ _ | IO t _ _ => t end = tenant) then f c else 0) by (intros f; cbn; lia).
  rewrite !E. clear E. destruct c as [t cores gpus mem secs|t r w]; cbn [record core_seconds gpu_seconds bytes_in bytes_out jobs_done];
    intros L1 L2 L3 L4 L5; unfold RecordCompute, RecordIO; rewrite statement_insert; case_bool_decide as Et.
  - subst t. destruct Hc as (? & ? & ?). rewrite IH by (done || nia). cbn [CPUSeconds GPUSeconds BytesRead BytesWritten JobsCompleted CPUCores GPUCount].
    rewrite Seconds_whole, !fmul_exact, !fadd_exact, wrap64_id by (unfold max_int64 in *; nia). by rewrite !Z.add_0_r.
  - rewrite IH by (done || lia). by rewrite !Z.add_0_r.
  - subst t. rewrite IH by (done || lia). cbn [CPUSeconds GPUSeconds BytesRead BytesWritten JobsCompleted]. rewrite !Z.gtb_ltb, !Z.add_0_r. f_equal.
    + destruct (Z.ltb_spec 0 r); [rewrite wrap64_id; lia|lia].
    + destruct (Z.ltb_spec 0 w); [rewrite wrap64_id; lia|lia].
  - rewrite IH by (done || lia). by rewrite !Z.add_0_r.
Qed.

(** ** Amounts that are not sane *)

Definition quota_of (cores : float64) : TenantQuota := MkQuota cores 16 1 4.
Definition asks (cores : float64) (mem : Z) : Request := MkRequest cores mem 0.

(** Fractions of a core: 0.1 and 0.2 do not fit into 0.3, and when both are
    released a residue stays reserved. *)
Lemma fractional_cores_drift :
  (let b := book_run [OpQuota "t" (quota_of (decimal 3 1)); OpReserve "t" (asks (decimal 1 1) 0)] in
   (Reserve "t" (asks (decimal 2 1) 0) (enf b)).1 = inl (CPUExceeded "t" (decimal 1 1) (decimal 2 1) (decimal 3 1))) ∧
  (let b := book_run [OpQuota "t" (quota_of (of_Z 1)); OpReserve "t" (asks (decimal 1 1) 0); OpReserve "t" (asks (decimal 2 1) 0);
                      OpRelease 0; OpRelease 1] in
   uActiveJobs (UsageOf "t" (enf b)) = 0 ∧ fltb (of_Z 0) (uCPUCores (UsageOf "t" (enf b))) = true).
Proof. vm_compute. done. Qed.

(** A request is not checked for sign or size: a negative one makes room that
    the quota does not have, a huge one wraps around and is admitted. *)
Lemma unchecked_request_lifts_quota :
  (let b := book_run [OpQuota "t" (quota_of (of_Z 1)); OpReserve "t" (asks (of_Z 0) (-100)); OpReserve "t" (asks (of_Z 0) 110)] in
   MaxMemoryGB (quota_of (of_Z 1)) = 16 ∧ rsReq <$> slips b = [asks (of_Z 0) (-100); asks (of_Z 0) 110]) ∧
  (let b := book_run [OpQuota "t" (quota_of (of_Z 1)); OpReserve "t" (asks (of_Z 0) 1); OpReserve "t" (asks (of_Z 0) max_int64)] in
   uMemoryGB (UsageOf "t" (enf b)) = - 2 ^ 63).
Proof. vm_compute. done. Qed.

(** ** Examples *)

Definition four_cores : Request := asks (of_Z 4) 10.
Definition cores_of (r : Request) : Z := 4.
Definition two_jobs : list op :=
  [OpQuota "t" (quota_of (of_Z 8)); OpReserve "t" four_cores; OpReserve "t" four_cores; OpRelease 0; OpRelease 0].

Lemma two_jobs_sane : Forall (sane_op cores_of) two_jobs.
Proof.
  assert (Hw : ∀ n, 0 ≤ n < 100 → whole_cores (of_Z n) n) by (intros n Hn; split; [lia|reflexivity]).
  assert (Hr : sane_request cores_of four_cores) by (split; [by apply Hw|by cbn]).
  repeat constructor; try exact Hr; try done. exists 8. by apply Hw.
Qed.

Lemma usage_is_outstanding_witness :
  UsageOf "t" (enf (book_run two_jobs)) = no_usage ∧ length (slips (book_run two_jobs)) = 1%nat.
Proof.
  split; [|vm_compute; reflexivity]. apply (usage_is_outstanding cores_of two_jobs "t" two_jobs_sane).
  intros r Hr _. vm_compute in Hr. apply list_elem_of_singleton in Hr as ->. reflexivity.
Defined.


Definition bills : list charge := [Compute "t" 8 2 16 10; IO "t" 100 (-5); Compute "u" 1 0 1 7; Compute "t" 4 0 16 5].
Lemma statement_is_sum_witness : StatementOf "t" (foldl record NewLedger bills) = MkStatement (of_Z 100) (of_Z 20) 100 0 2.
Proof.
  apply (statement_is_sum bills "t"); [|vm_compute; discriminate || reflexivity..]. repeat constructor; cbn; lia.
Defined.
