(* ===== verification/Rpc.v ===== *)
(** * The gRPC interface (rpc/server.go, rpc/interceptor.go)

    The interceptor's gate in front of every call, the handlers over the
    [JobService] interface, and the stream of [WatchJob].  The messages are
    records with the fields the generated types have. *)
From S2P Require Import Prelude GoLib Job Scheduler Commit Auth Float64 RateLimit.
Open Scope Z_scope.

Inductive code := InvalidArgument | NotFound | Internal | Unauthenticated | PermissionDenied | ResourceExhausted | ContextDone.
Record Status := MkStatus { stCode : code; stMsg : string }.

(** ** The interceptor *)

Module Gate.
Section gate.
Context `{Jwt.TokenCodec}.

Record AuthInterceptor := MkInterceptor {
  verifier : Jwt.Verifier; policy : gmap string (gset string); limiter : option Limiter; perms : gmap string string }.
#[export] Instance eta_AuthInterceptor : Eta AuthInterceptor := λ i,
  MkInterceptor (verifier i) (policy i) (limiter i) (perms i).

Definition svc : string := "/coordinator.v1.Coordinator/".
Definition NewAuthInterceptor (v : Jwt.Verifier) (p : gmap string (gset string)) (l : option Limiter) : AuthInterceptor :=
  MkInterceptor v p l (list_to_map
    [(svc +:+ "SubmitJob", Rbac.PermJobSubmit); (svc +:+ "GetJob", Rbac.PermJobRead); (svc +:+ "ListJobs", Rbac.PermJobRead);
     (svc +:+ "WatchJob", Rbac.PermJobRead); (svc +:+ "PollTasks", Rbac.PermTaskLease); (svc +:+ "StartTask", Rbac.PermTaskLease);
     (svc +:+ "ReportResult", Rbac.PermTaskReport)]).

(** What the transport delivers with a call: the metadata, if any, and the
    clock as the verifier (seconds) and the limiter (nanoseconds) read it. *)
Record Incoming := MkIncoming { inMD : option (gmap string (list string)); inNow : Z; inClock : Z }.

(** [strings.CutPrefix]. *)
Definition CutPrefix (s prefix : string) : option string :=
  if String.prefix prefix s then Some (String.substring (String.length prefix) (String.length s - String.length prefix) s) else None.

Definition authenticate (i : AuthInterceptor) (c : Incoming) : Status + Jwt.Claims :=
  match inMD c with
  | None => inl (MkStatus Unauthenticated "missing metadata")
  | Some md =>
      match default [] (md !! "authorization"%string) with
      | [] => inl (MkStatus Unauthenticated "missing authorization")
      | v :: _ =>
          match CutPrefix v "Bearer " with
          | None => inl (MkStatus Unauthenticated "authorization must be a Bearer token")
          | Some token =>
              match Jwt.Parse (verifier i) (inNow c) token with
              | Err e => inl (MkStatus Unauthenticated ("invalid token: " +:+ e))
              | Ok claims => inr claims
              end
          end
      end
  end.

Definition gate (i : AuthInterceptor) (c : Incoming) (fullMethod : string) : (Status + Jwt.Claims) * AuthInterceptor :=
  match authenticate i c with
  | inl st => (inl st, i)
  | inr claims =>
      match perms i !! fullMethod with
      | None => (inl (MkStatus PermissionDenied ("no policy for method " +:+ fullMethod)), i)
      | Some perm =>
          if negb (Rbac.Authorize (policy i) (Some claims) perm) then
            (inl (MkStatus PermissionDenied ("tenant " +:+ fmt_q (Jwt.Tenant claims) +:+ " not permitted: " +:+ perm)), i)
          else
            match limiter i with
            | None => (inr claims, i)
            | Some l =>
                let '(ok, l) := Allow (inClock c) (Jwt.Tenant claims) l in
                let i := i <| limiter := Some l |> in
                if ok then (inr claims, i)
                else (inl (MkStatus ResourceExhausted ("rate limit exceeded for tenant " +:+ fmt_q (Jwt.Tenant claims))), i)
            end
      end
  end.

(** A caller is known: its first authorization value is a bearer token that
    the verifier accepts. *)
Definition known (i : AuthInterceptor) (c : Incoming) (claims : Jwt.Claims) : Prop :=
  ∃ md v vs token, inMD c = Some md ∧ md !! "authorization"%string = Some (v :: vs) ∧ CutPrefix v "Bearer " = Some token ∧
    Jwt.Parse (verifier i) (inNow c) token = Ok claims.
Definition permitted (i : AuthInterceptor) (claims : Jwt.Claims) (method : string) : Prop :=
  ∃ perm role, perms i !! method = Some perm ∧ role ∈ Jwt.Roles claims ∧ Rbac.grants (policy i) role perm.

Lemma authenticate_known i c claims : authenticate i c = inr claims ↔ known i c claims.
Proof.
  unfold authenticate, known. split.
  - destruct (inMD c) as [md|]; [|done]. destruct (md !! "authorization"%string) as [[|v vs]|] eqn:Em; cbn; [done| |done].
    destruct (CutPrefix v "Bearer ") as [token|] eqn:Ec; [|done]. destruct (Jwt.Parse _ _ token) eqn:Ep; [|done]. intros [= <-].
    by exists md, v, vs, token.
  - intros (md & v & vs & token & -> & -> & Ec & Ep). cbn. by rewrite Ec, Ep.
Qed.

Lemma gate_cases i c m : let '(r, i') := gate i c m in
  match r with
  | inr claims => known i c claims ∧ permitted i claims m ∧
      match limiter i with None => i' = i | Some l => Allow (inClock c) (Jwt.Tenant claims) l = (true, default l (limiter i')) end
  | inl st => i' = i ∧ stCode st ≠ ResourceExhausted ∨
      ∃ claims l l', known i c claims ∧ permitted i claims m ∧ limiter i = Some l ∧ Allow (inClock c) (Jwt.Tenant claims) l = (false, l') ∧
        i' = i <| limiter := Some l' |> ∧ stCode st = ResourceExhausted
  end.
Proof.
  unfold gate. destruct (authenticate i c) as [st|claims] eqn:Ea.
  { left. split; [done|]. unfold authenticate in Ea. repeat case_match; simplify_eq; done. }
  apply authenticate_known in Ea. destruct (perms i !! m) as [perm|] eqn:Ep; [|by left].
  destruct (Rbac.Authorize (policy i) (Some claims) perm) eqn:Ez; cbn [negb]; [|by left].
  apply Rbac.Allow_spec in Ez as (role & Hr & Hg). assert (Hp : permitted i claims m) by by exists perm, role.
  destruct (limiter i) as [l|] eqn:El; [|done]. destruct (Allow _ _ l) as [[] l'] eqn:Eal; [done|]. right. by exists claims, l, l'.
Qed.

Lemma gate_limiter i c m : match (gate i c m).1 with inr _ => limiter i ≠ None → ∃ l', (gate i c m).2 = i <| limiter := Some l' |> | inl _ => True end.
Proof.
  unfold gate. destruct (authenticate i c); [done|]. destruct (perms i !! m); [|done]. destruct (negb _); [done|].
  destruct (limiter i) as [l|]; [|by intros []]. destruct (Allow _ _ l) as [[] l']; [|done]. intros _. by exists l'.
Qed.

(** A call passes the gate exactly when its caller is known, one of the
    caller's roles grants what the method needs, and the limiter has a token
    for the caller's tenant.  The limiter is touched only for callers that are
    known and permitted, and then only the bucket of their own tenant: traffic
    with bad tokens, or without the role, cannot use up anyone's budget. *)
Theorem gate_admits i c m claims :
  ((gate i c m).1 = inr claims ↔
    known i c claims ∧ permitted i claims m ∧ ∀ l, limiter i = Some l → (Allow (inClock c) (Jwt.Tenant claims) l).1 = true) ∧
  ((gate i c m).2 = i ∨ ∃ caller l l', known i c caller ∧ permitted i caller m ∧ limiter i = Some l ∧ (gate i c m).2 = i <| limiter := Some l' |> ∧
    ∀ tenant, tenant ≠ Jwt.Tenant caller → buckets l' !! tenant = buckets l !! tenant).
Proof.
  split.
  - split.
    + pose proof (gate_cases i c m) as Hg. destruct (gate i c m) as [[st|cl] i']; [done|]. intros [= ->]. destruct Hg as (Hk & Hp & Hl).
      split_and!; [done..|]. intros l El. rewrite El in Hl. by rewrite Hl.
    + intros (Hk & (perm & role & Ep & Hr & Hg) & Hl). unfold gate. apply authenticate_known in Hk as ->. rewrite Ep.
      replace (Rbac.Authorize (policy i) (Some claims) perm) with true by (symmetry; apply Rbac.Allow_spec; by exists role). cbn [negb].
      destruct (limiter i) as [l|]; [|done]. specialize (Hl l eq_refl). destruct (Allow _ _ l) as [ok l']. cbn in Hl. by subst.
  - pose proof (gate_cases i c m) as Hg. pose proof (gate_limiter i c m) as Hi. destruct (gate i c m) as [[st|cl] i']; cbn [snd] in *.
    + destruct Hg as [[-> _]|(claims' & l & l' & Hk & Hp & El & Ea & -> & _)]; [by left|]. right. exists claims', l, l'. split_and!; [done..|].
      intros tenant Hne. pose proof (allow_other (inClock c) _ 1 l tenant Hne) as Ho. unfold Allow in Ea. by rewrite Ea in Ho.
    + destruct Hg as (Hk & Hp & Hl). destruct (limiter i) as [l|] eqn:El; [|by left]. right. cbn [fst] in Hi.
      destruct (Hi ltac:(done)) as [l' Ei]. exists cl, l, l'. split_and!; [done..|]. intros tenant Hne. pose proof (allow_other (inClock c) _ 1 l tenant Hne) as Ho.
      rewrite Ei in Hl. change (AllowN (inClock c) (Jwt.Tenant cl) 1 l = (true, l')) in Hl. by rewrite Hl in Ho.
Qed.
End gate.
End Gate.

(** ** The server *)

(** [int32(n)]. *)
Definition wrap32 (z : Z) : Z := (z + 2 ^ 31) mod 2 ^ 32 - 2 ^ 31.

(** The messages. *)
Record JobMsg := MkJobMsg {
  mId : string; mDataset : string; mAlgorithm : string; mConfig : gmap string string; mStatus : string; mShards : list string;
  mTotalTasks : Z; mDoneTasks : Z; mFailedTasks : Z; mCreatedAt : Z; mStartedAt : Z; mFinishedAt : Z; mError : string }.
Record AssignmentMsg := MkAssignmentMsg {
  maTaskId : string; maJobId : string; maShard : string; maDataset : string; maAlgorithm : string; maConfig : gmap string string }.

Inductive Req :=
  | ReqSubmitJob (dataset algorithm : string) (config : gmap string string) (shards : list string)
  | ReqGetJob (id : string)
  | ReqListJobs
  | ReqPollTasks (workerID : string)
  | ReqStartTask (taskID workerID : string)
  | ReqReportResult (taskID workerID : string) (images bytesRead : Z) (outputKey : string) (durationNs : Z) (error : string).
Inductive Resp :=
  | RespSubmitJob (jobID : string) (totalTasks : Z)
  | RespJob (j : JobMsg)
  | RespJobs (l : list JobMsg)
  | RespPoll (a : option AssignmentMsg) (hasWork : bool)
  | RespEmpty.
Definition fullMethod (r : Req) : string :=
  Gate.svc +:+ match r with
               | ReqSubmitJob _ _ _ _ => "SubmitJob" | ReqGetJob _ => "GetJob" | ReqListJobs => "ListJobs"
               | ReqPollTasks _ => "PollTasks" | ReqStartTask _ _ => "StartTask" | ReqReportResult _ _ _ _ _ _ _ => "ReportResult"
               end.

(** A time that is set is not the zero time. *)
Definition unixNano (t : option Z) : Z := default 0 t.

Definition jobToProto (j : Job) : JobMsg :=
  MkJobMsg (jID j) (jDataset j) (jAlgorithm j) (jConfig j) (JobStatus_string (jStatus j)) (jShards j)
    (wrap32 (jTotalTasks j)) (wrap32 (jDoneTasks j)) (wrap32 (jFailedTasks j))
    (unixNano (Some (jCreatedAt j))) (unixNano (jStartedAt j)) (unixNano (jFinishedAt j)) (jError j).

Definition assignmentToProto (a : TaskAssignment) : AssignmentMsg :=
  MkAssignmentMsg (aTaskID a) (aJobID a) (aShard a) (aDataset a) (aAlgorithm a) (aConfig a).

(** [JobService], over a state [S] and what a call takes from outside. *)
Class JobService (S E : Type) := {
  svcSubmit : E → SubmitJobRequest → S → result Job * S;
  svcGetJob : string → S → result Job;
  svcListJobs : S → list Job;
  svcPollTasks : E → string → S → result (option TaskAssignment) * S;
  svcStartTask : E → string → string → S → result unit * S;
  svcReportResult : E → string → ResultRequest → S → option (result unit) * S }.

Section server.
Context {S E : Type} `{JobService S E}.

Record Server := MkServer { watchInterval : Z }.
Definition NewServer (interval : Z) : Server := MkServer (if interval <=? 0 then 500000000 else interval).

Definition SubmitJob (env : E) dataset algorithm config shards (s : S) : (Status + Resp) * S :=
  match svcSubmit env (MkSubmit dataset algorithm config shards 0) s with
  | (Err e, s) => (inl (MkStatus InvalidArgument e), s)
  | (Ok job, s) => (inr (RespSubmitJob (jID job) (wrap32 (jTotalTasks job))), s)
  end.
Definition GetJob (id : string) (s : S) : Status + Resp :=
  match svcGetJob id s with
  | Err e => inl (MkStatus NotFound e)
  | Ok job => inr (RespJob (jobToProto job))
  end.
Definition ListJobs (s : S) : Status + Resp := inr (RespJobs (jobToProto <$> svcListJobs s)).
Definition PollTasks (env : E) (workerID : string) (s : S) : (Status + Resp) * S :=
  if bool_decide (workerID = EmptyString) then (inl (MkStatus InvalidArgument "worker_id required"), s)
  else
    match svcPollTasks env workerID s with
    | (Err e, s) => (inl (MkStatus Internal e), s)
    | (Ok a, s) => (inr (RespPoll (assignmentToProto <$> a) (bool_decide (a ≠ None))), s)
    end.
Definition StartTask (env : E) (taskID workerID : string) (s : S) : (Status + Resp) * S :=
  match svcStartTask env taskID workerID s with
  | (Err e, s) => (inl (MkStatus NotFound e), s)
  | (Ok _, s) => (inr RespEmpty, s)
  end.
(** No answer is a call that still waits. *)
Definition ReportResult (env : E) (taskID : string) (req : ResultRequest) (s : S) : option (Status + Resp) * S :=
  match svcReportResult env taskID req s with
  | (None, s) => (None, s)
  | (Some (Err e), s) => (Some (inl (MkStatus NotFound e)), s)
  | (Some (Ok _), s) => (Some (inr RespEmpty), s)
  end.

Definition handle (env : E) (r : Req) (s : S) : option (Status + Resp) * S :=
  match r with
  | ReqSubmitJob d a c sh => let '(x, s) := SubmitJob env d a c sh s in (Some x, s)
  | ReqGetJob id => (Some (GetJob id s), s)
  | ReqListJobs => (Some (ListJobs s), s)
  | ReqPollTasks w => let '(x, s) := PollTasks env w s in (Some x, s)
  | ReqStartTask t w => let '(x, s) := StartTask env t w s in (Some x, s)
  | ReqReportResult t w n b k d e => ReportResult env t (MkResult w n b k d e) s
  end.

(** [Unary]: the gate, then the handler. *)
Definition Unary `{Jwt.TokenCodec} (i : Gate.AuthInterceptor) (c : Gate.Incoming) (env : E) (r : Req) (s : S) :
    option (Status + Resp) * S * Gate.AuthInterceptor :=
  match Gate.gate i c (fullMethod r) with
  | (inl st, i) => (Some (inl st), s, i)
  | (inr _, i) => (handle env r s, i)
  end.

(** ** WatchJob *)

Definition isTerminal (s : JobStatus) : bool := bool_decide (s = JobCompleted ∨ s = JobFailed ∨ s = JobCancelled).
Definition statusOrd (s : JobStatus) : Z :=
  match s with JobPending => 0 | JobRunning => 1 | JobCompleted => 2 | JobFailed => 3 | JobCancelled => 4 end.
Definition jobSignature (j : Job) : Z * Z * Z * Z := (statusOrd (jStatus j), jDoneTasks j, jFailedTasks j, jTotalTasks j).

(** [GetJob] hands out the scheduler's own object, which other calls go on
    updating: one iteration reads it for the signature, for the frame and for
    its status, each time as it is by then. *)
Record Reads := MkReads { rSig : Job; rFrame : Job; rStatus : Job }.

(** What the loop waits for: the client goes away, or the ticker fires; then
    the lookup may fail, and a frame's [Send] may. *)
Inductive event := Cancelled (msg : string) | Tick (reads : result Reads) (send : option Status).
Inductive outcome := Watching | Ended (err : option Status).

Fixpoint watch_loop (last : Z * Z * Z * Z) (evs : list event) : list JobMsg * outcome :=
  match evs with
  | [] => ([], Watching)
  | Cancelled msg :: _ => ([], Ended (Some (MkStatus ContextDone msg)))
  | Tick (Err e) _ :: _ => ([], Ended (Some (MkStatus NotFound e)))
  | Tick (Ok r) send :: evs =>
      let sig := jobSignature (rSig r) in
      if bool_decide (sig = last) then watch_loop last evs
      else
        match send with
        | Some st => ([], Ended (Some st))
        | None =>
            if isTerminal (jStatus (rStatus r)) then ([jobToProto (rFrame r)], Ended None)
            else let '(l, o) := watch_loop sig evs in (jobToProto (rFrame r) :: l, o)
        end
  end.

(** The first frame is sent before the loop; here the status is read before
    the signature. *)
Definition WatchJob (first : result Reads) (send : option Status) (evs : list event) : list JobMsg * outcome :=
  match first with
  | Err e => ([], Ended (Some (MkStatus NotFound e)))
  | Ok r =>
      match send with
      | Some st => ([], Ended (Some st))
      | None =>
          if isTerminal (jStatus (rStatus r)) then ([jobToProto (rFrame r)], Ended None)
          else let '(l, o) := watch_loop (jobSignature (rSig r)) evs in (jobToProto (rFrame r) :: l, o)
      end
  end.

(** A client that stays, and iterations in which the job does not change. *)
Definition steady (j : Job) : Reads := MkReads j j j.
Definition ticks (js : list Job) : list event := (λ j, Tick (Ok (steady j)) None) <$> js.

Lemma terminal_signature j j' : isTerminal (jStatus j) = true → jobSignature j = jobSignature j' → isTerminal (jStatus j') = true.
Proof.
  unfold jobSignature. intros Ht [= Es _ _ _]. assert (jStatus j = jStatus j') as <- by (destruct (jStatus j), (jStatus j'); done). done.
Qed.

(** What the client has been told after the job looked like [js]: frames of
    some of them in order, each different from the one before. *)
Inductive told : list Job → list Job → Prop :=
  | told_first j : told [j] [j]
  | told_same fs js j : told fs js → jobSignature j = jobSignature (List.last fs j) → told fs (js ++ [j])
  | told_new fs js j : told fs js → jobSignature j ≠ jobSignature (List.last fs j) → told (fs ++ [j]) (js ++ [j]).

Lemma watch_loop_told js : ∀ seen fs cur, told (fs ++ [cur]) seen → isTerminal (jStatus cur) = false →
  match watch_loop (jobSignature cur) (ticks js) with
  | (l, Watching) => ∃ fs', l = jobToProto <$> fs' ∧ told ((fs ++ [cur]) ++ fs') (seen ++ js) ∧
      Forall (λ j, isTerminal (jStatus j) = false) js
  | (l, Ended err) => err = None ∧ ∃ js1 j js2 fs', js = js1 ++ j :: js2 ∧ isTerminal (jStatus j) = true ∧
      Forall (λ j, isTerminal (jStatus j) = false) js1 ∧ l = jobToProto <$> (fs' ++ [j]) ∧ told ((fs ++ [cur]) ++ fs' ++ [j]) (seen ++ js1 ++ [j])
  end.
Proof.
  induction js as [|j js IH]; intros seen fs cur Ht Hc; cbn [ticks fmap list_fmap watch_loop].
  { exists []. rewrite !app_nil_r. done. }
  fold (ticks js). cbn [rSig rFrame rStatus steady]. assert (Hl : List.last (fs ++ [cur]) j = cur) by apply List.last_last.
  case_bool_decide as Es.
  - assert (Hj : isTerminal (jStatus j) = false). { destruct (isTerminal (jStatus j)) eqn:Ej; [|done]. by rewrite (terminal_signature j cur) in Hc. }
    specialize (IH (seen ++ [j]) fs cur (told_same _ _ j Ht ltac:(by rewrite Hl)) Hc).
    destruct (watch_loop (jobSignature cur) (ticks js)) as [l [|err]].
    + destruct IH as (fs' & -> & Hf & Hn). exists fs'. rewrite <- (app_assoc seen) in Hf. split_and!; [done..|by constructor].
    + destruct IH as (-> & js1 & x & js2 & fs' & -> & Hx & Hn & -> & Hf). split; [done|]. exists (j :: js1), x, js2, fs'.
      rewrite <- (app_assoc seen) in Hf. split_and!; [done..|by constructor|done|done].
  - pose proof (told_new _ _ j Ht ltac:(by rewrite Hl)) as Ht'. destruct (isTerminal (jStatus j)) eqn:Ej.
    + split; [done|]. exists [], j, js, []. by split_and!.
    + specialize (IH (seen ++ [j]) (fs ++ [cur]) j Ht' Ej). destruct (watch_loop (jobSignature j) (ticks js)) as [l [|err]].
      * destruct IH as (fs' & -> & Hf & Hn). exists (j :: fs'). rewrite <- (app_assoc (fs ++ [cur])), <- (app_assoc seen) in Hf. split_and!; [done..|by constructor].
      * destruct IH as (-> & js1 & x & js2 & fs' & -> & Hx & Hn & -> & Hf). split; [done|]. exists (j :: js1), x, js2, (j :: fs').
        rewrite <- (app_assoc (fs ++ [cur])), <- (app_assoc seen) in Hf. split_and!; [done..|by constructor|done|done].
Qed.

Lemma told_ne fs js : told fs js → fs ≠ [].
Proof. induction 1; [done|done|by destruct fs]. Qed.

Lemma told_current fs js : told fs js → jobSignature <$> list.last fs = jobSignature <$> list.last js ∧ sublist fs js.
Proof.
  induction 1 as [j|fs js j Ht [IH Hs] Es|fs js j Ht [IH Hs] Es]; [done| |]; rewrite ?last_snoc.
  - split; [|by apply sublist_inserts_r]. destruct (exists_last (told_ne _ _ Ht)) as (fs' & x & ->). rewrite List.last_last in Es. rewrite last_snoc. cbn. f_equal. symmetry. exact Es.
  - split; [done|]. by apply sublist_app.
Qed.


(** A job that finishes between the frame and the status of one iteration: the
    stream ends and the client was never told. *)
Lemma watch_can_end_untold j j' : isTerminal (jStatus j) = false → isTerminal (jStatus j') = true →
  WatchJob (Ok (MkReads j j j')) None [] = ([jobToProto j], Ended None).
Proof. intros Hj Hj'. cbn. by rewrite Hj'. Qed.

(** The counts of a frame are those of the job up to 2^31 - 1 tasks. *)
Lemma frame_counts j : - 2 ^ 31 ≤ jTotalTasks j < 2 ^ 31 → - 2 ^ 31 ≤ jDoneTasks j < 2 ^ 31 → - 2 ^ 31 ≤ jFailedTasks j < 2 ^ 31 →
  mTotalTasks (jobToProto j) = jTotalTasks j ∧ mDoneTasks (jobToProto j) = jDoneTasks j ∧ mFailedTasks (jobToProto j) = jFailedTasks j.
Proof. unfold jobToProto, wrap32. cbn. intros. rewrite !Z.mod_small by lia. lia. Qed.

(** An assignment's message does not say which items of the shard it leases:
    disjoint leases of one shard read the same. *)
Lemma assignment_forgets_lease a start end_ bound gen split :
  assignmentToProto (MkAssignment (aTaskID a) (aJobID a) (aShard a) (aDataset a) (aAlgorithm a) (aConfig a) start end_ bound gen split) = assignmentToProto a.
Proof. done. Qed.

(** ** Who can change the state *)

Context `{Jwt.TokenCodec}.

Definition caller_may (claims : Jwt.Claims) (r : Req) : Prop :=
  match r with
  | ReqSubmitJob _ _ _ _ => "admin" ∈ Jwt.Roles claims ∨ "operator" ∈ Jwt.Roles claims
  | ReqPollTasks _ | ReqStartTask _ _ | ReqReportResult _ _ _ _ _ _ _ => "admin" ∈ Jwt.Roles claims ∨ "worker" ∈ Jwt.Roles claims
  | ReqGetJob _ | ReqListJobs => False
  end.

(** C15: under the default policy a call changes the platform's state only if
    its token is accepted by the verifier and its roles are those meant for the
    call: admins and operators submit, admins and workers lease and report,
    reading changes nothing, and nobody else changes anything. *)
Theorem only_roles_change_state v l c env r (s : S) resp s' i' :
  Unary (Gate.NewAuthInterceptor v Rbac.DefaultPolicy l) c env r s = (resp, s', i') → s' ≠ s →
  ∃ claims, Gate.known (Gate.NewAuthInterceptor v Rbac.DefaultPolicy l) c claims ∧ caller_may claims r.
Proof.
  unfold Unary. set (i := Gate.NewAuthInterceptor v Rbac.DefaultPolicy l). pose proof (Gate.gate_cases i c (fullMethod r)) as Hg.
  destruct (Gate.gate i c (fullMethod r)) as [[st|claims] i1]; [by intros [= _ <- _]|]. destruct Hg as (Hk & (perm & role & Ep & Hr & Hgr) & _).
  intros Hh Hne. exists claims. split; [done|].
  assert (Ha : Rbac.Authorize Rbac.DefaultPolicy (Some claims) perm = true) by (apply Rbac.Allow_spec; by exists role).
  apply Rbac.default_policy_table in Ha. destruct r; vm_compute in Ep; injection Ep as <-; cbn in Hh |- *;
    try (injection Hh as _ <- _; done);
    (destruct Ha as [?|[[? Hp]|[[? Hp]|[? Hp]]]]; [by left| | |]; try (by right); exfalso; clear -Hp; set_unfold; naive_solver).
Qed.
End server.

(** ** The scheduler behind the interface *)

Section scheduler.
Context {W E R : Type} `{Committer W, CommitDecider W E, SideEffect W, ShardOwner R}.

(** The clock, fresh identifiers, the iteration order of the tasks, the ring,
    what is attached for reports and how long they wait. *)
Record CallEnv := MkCallEnv {
  ceCreated : Z; ceNow : Z; ceJob : string; ceTasks : list string; ceOrder : list string; ceNew : string;
  ceRing : R; ceAttached : Attached; ceWait : E }.

#[export] Instance scheduler_service : JobService (Scheduler * W) CallEnv := {|
  svcSubmit env req s := let '(j, s') := Submit (ceCreated env) (ceNow env) (ceJob env) (ceTasks env) req s.1 in (Ok j, (s', s.2));
  svcGetJob id s := Scheduler.GetJob id s.1;
  svcListJobs s := Scheduler.ListJobs s.1;
  svcPollTasks env w s := let '(a, s') := Scheduler.PollTasks (ceRing env) (ceNow env) (ceOrder env) (ceNew env) w s.1 in (a, (s', s.2));
  svcStartTask env t _ s := let '(r, s') := Scheduler.StartTask (ceNow env) t s.1 in (r, (s', s.2));
  svcReportResult env t req s := Commit.ReportResult (ceAttached env) (ceWait env) (ceNow env) t req s.1 s.2 |}.
End scheduler.

(** ** Examples *)

#[local] Instance demo_tokens : Jwt.TokenCodec := Jwt.demo_codec.
#[local] Instance no_committer : Committer unit := λ _ _ w, (Ok tt, w).
#[local] Instance no_decider : CommitDecider unit unit := λ _ d w, (Some (Ok d), w).
#[local] Instance no_effect : SideEffect unit := λ _ _ w, (Ok tt, w).
#[local] Instance one_owner : ShardOwner unit := λ _ _, "w1".

Definition operator : Jwt.Claims := Jwt.MkClaims "ann" "idp" "lab" ["operator"] 100 100 200.
Definition with_token (c : Jwt.Claims) : Gate.Incoming :=
  Gate.MkIncoming (Some {["authorization" := ["Bearer " +:+ Jwt.Sign Jwt.demo_verifier c]]}) 150 0.
Definition front : Gate.AuthInterceptor := Gate.NewAuthInterceptor Jwt.demo_verifier Rbac.DefaultPolicy (Some (RateLimit.New (of_Z 1) 1)).
Definition call_env : CallEnv := MkCallEnv 1 2 "j1" ["t1"] [] "t2" tt (MkAttached false false false) tt.
Definition submit : Req := ReqSubmitJob "pets" "resize" ∅ ["s0"].
Definition empty_state : Scheduler * unit := (Scheduler.New 3, tt).

(** An operator's submission is taken, the second within the same second is
    over the budget, and a lease is not for operators. *)
Example operator_calls :
  let '(r1, s1, i1) := Unary front (with_token operator) call_env submit empty_state in
  let '(r2, _, i2) := Unary i1 (with_token operator) call_env submit s1 in
  let '(r3, _, _) := Unary i2 (with_token operator) call_env (ReqPollTasks "w1") s1 in
  r1 = Some (inr (RespSubmitJob "j1" 1)) ∧
  r2 = Some (inl (MkStatus ResourceExhausted ("rate limit exceeded for tenant " +:+ fmt_q "lab"))) ∧
  r3 = Some (inl (MkStatus PermissionDenied ("tenant " +:+ fmt_q "lab" +:+ " not permitted: task:lease"))).
Proof. vm_compute. done. Qed.

Lemma only_roles_change_state_witness : ∃ claims, Gate.known front (with_token operator) claims ∧ caller_may claims submit.
Proof.
  eapply (only_roles_change_state Jwt.demo_verifier (Some (RateLimit.New (of_Z 1) 1)) (with_token operator) call_env submit empty_state);
    [vm_compute; reflexivity|]. intros E. apply (f_equal (λ s : Scheduler * unit, size (jobs s.1))) in E. vm_compute in E. discriminate.
Defined.
