(* ===== verification/Paths.v ===== *)
(** * Slash-separated paths (Go's path and path/filepath on Unix)

    [Clean] and [Join], lexically as Go does, and what a cleaned path that is
    neither absolute nor climbing can name. *)
From S2P Require Import Prelude GoLib.

#[local] Arguments slash : simpl never.

(** [strings.Split(s, "/")] and its inverse. *)
Fixpoint parts (s : string) : list string :=
  match s with
  | EmptyString => [EmptyString]
  | String c s =>
      if Ascii.eqb c slash then EmptyString :: parts s
      else match parts s with [] => [String c EmptyString] | p :: ps => String c p :: ps end
  end.
Fixpoint join (cs : list string) : string :=
  match cs with
  | [] => EmptyString
  | [c] => c
  | c :: cs => c +:+ String slash (join cs)
  end.

Definition IsAbs (p : string) : bool := match p with String c _ => Ascii.eqb c slash | EmptyString => false end.

(** The components kept so far, last first. *)
Definition push (rooted : bool) (st : list string) (c : string) : list string :=
  if bool_decide (c = EmptyString ∨ c = ".") then st
  else if bool_decide (c = "..") then
    match st with
    | [] => if rooted then [] else [".."]
    | top :: rest => if bool_decide (top = "..") then ".." :: st else rest
    end
  else c :: st.

Definition Clean (p : string) : string :=
  if bool_decide (p = EmptyString) then "."
  else
    let out := join (reverse (foldl (push (IsAbs p)) [] (parts p))) in
    if IsAbs p then String slash out else if bool_decide (out = EmptyString) then "." else out.

Definition Join (a b : string) : string :=
  if bool_decide (a = EmptyString) then if bool_decide (b = EmptyString) then EmptyString else Clean b
  else if bool_decide (b = EmptyString) then Clean a
  else Clean (a +:+ String slash b).

(** The test the callers make on a cleaned path. *)
Definition unsafe (name : string) : bool :=
  IsAbs name || bool_decide (name = "..") || String.prefix "../" name.

(** ** Components *)

Record normal (c : string) : Prop := {
  normal_empty : c ≠ EmptyString; normal_dot : c ≠ "."; normal_dots : c ≠ ".."; normal_slash : no_char slash c = true }.

Lemma push_normal rooted st c : normal c → push rooted st c = c :: st.
Proof. intros [H1 H2 H3 _]. unfold push. rewrite !bool_decide_eq_false_2 by naive_solver. done. Qed.

Lemma pushes_normal rooted st cs : Forall normal cs → foldl (push rooted) st cs = reverse cs ++ st.
Proof.
  intros H. revert st. induction H as [|c cs Hc _ IH]; intros st; [done|]. cbn [foldl]. rewrite push_normal by done.
  by rewrite IH, reverse_cons, <- app_assoc.
Qed.

Lemma parts_no_slash s : Forall (λ c, no_char slash c = true) (parts s).
Proof.
  induction s as [|c s IH]; cbn; [by repeat constructor|]. destruct (Ascii.eqb c slash) eqn:E; [by constructor|].
  destruct (parts s) as [|p ps]; [constructor; [|done]; cbn; by rewrite E|]. inversion IH; subst. constructor; [|done]. cbn. by rewrite E.
Qed.

Lemma parts_app c s : no_char slash c = true → parts (c +:+ String slash s) = c :: parts s.
Proof.
  induction c as [|x c IH]; [done|]. intros H. rewrite string_app_cons. cbn in *. destruct (Ascii.eqb x slash); [done|]. by rewrite IH.
Qed.

Lemma parts_plain c : no_char slash c = true → parts c = [c].
Proof. induction c as [|x c IH]; [done|]. cbn. intros H. destruct (Ascii.eqb x slash); [done|]. by rewrite IH. Qed.

Lemma parts_join cs : cs ≠ [] → Forall (λ c, no_char slash c = true) cs → parts (join cs) = cs.
Proof.
  intros Hne H. induction H as [|c cs Hc H IH]; [done|]. destruct cs as [|d cs]; [by apply parts_plain|].
  change (join (c :: d :: cs)) with (c +:+ String slash (join (d :: cs))). by rewrite parts_app, IH.
Qed.

(** ** What Clean leaves *)

Definition climbing (st : list string) : Prop := ∃ ns k, st = ns ++ replicate k ".." ∧ Forall normal ns.

Lemma push_climbing st c : no_char slash c = true → climbing st → climbing (push false st c).
Proof.
  intros Hc (ns & k & -> & Hn). unfold push. case_bool_decide as E1; [by exists ns, k|]. case_bool_decide as E2.
  - destruct ns as [|n ns]; cbn.
    + destruct k as [|k]; cbn; [by exists [], 1%nat|]. by exists [], (S (S k)).
    + inversion Hn as [|? ? Hn1 Hn2]; subst. rewrite bool_decide_eq_false_2 by apply Hn1. by exists ns, k.
  - exists (c :: ns), k. split; [done|]. constructor; [|done]. split; naive_solver.
Qed.

Lemma pushes_climbing st cs : Forall (λ c, no_char slash c = true) cs → climbing st → climbing (foldl (push false) st cs).
Proof. intros H. revert st. induction H as [|c cs Hc _ IH]; intros st Hs; [done|]. cbn. by apply IH, push_climbing. Qed.

(** A cleaned path that passes the test is "." or a path of normal
    components. *)
Lemma clean_safe p : unsafe (Clean p) = false → Clean p = "." ∨ ∃ cs, cs ≠ [] ∧ Forall normal cs ∧ Clean p = join cs.
Proof.
  unfold Clean. case_bool_decide as Ep; [by left|]. cbv zeta. destruct (IsAbs p) eqn:Ea; [done|].
  destruct (pushes_climbing [] (parts p) (parts_no_slash p) ltac:(by exists [], 0%nat)) as (ns & k & -> & Hn).
  case_bool_decide as Eo; [by left|]. intros Hs. right. exists (reverse ns). rewrite reverse_app, reverse_replicate in *.
  destruct k as [|k].
  - cbn [replicate app] in *. split_and!; [by intros E; rewrite E in Eo|by apply Forall_reverse|done].
  - exfalso. cbn [replicate app] in Hs. destruct (replicate k ".." ++ reverse ns) as [|c cs] eqn:Er; [by vm_compute in Hs|].
    change (join (".." :: c :: cs)) with (String (Ascii.ascii_of_N 46) (String (Ascii.ascii_of_N 46) (String slash (join (c :: cs))))) in Hs.
    unfold unsafe in Hs. apply orb_false_iff in Hs as [_ Hs]. by destruct (join (c :: cs)).
Qed.

(** ** Joining below a directory *)

Definition clean_dir (dir : string) : Prop := ∃ ds, ds ≠ [] ∧ Forall normal ds ∧ dir = String slash (join ds).

Lemma join_app cs ds : cs ≠ [] → ds ≠ [] → join (cs ++ ds) = join cs +:+ String slash (join ds).
Proof.
  intros Hc Hd. induction cs as [|c cs IH]; [done|]. destruct cs as [|c' cs]; [by destruct ds|].
  change (join ((c :: c' :: cs) ++ ds)) with (c +:+ String slash (join ((c' :: cs) ++ ds))). rewrite IH by done.
  change (join (c :: c' :: cs)) with (c +:+ String slash (join (c' :: cs))). by rewrite string_app_assoc.
Qed.

Lemma join_inside dir cs : clean_dir dir → cs ≠ [] → Forall normal cs → Join dir (join cs) = dir +:+ String slash (join cs).
Proof.
  intros (ds & Hd & Hn & ->) Hc Hcs. unfold Join. rewrite bool_decide_eq_false_2 by done.
  assert (Hj : join cs ≠ EmptyString).
  { intros E. pose proof (parts_join cs Hc ltac:(eapply Forall_impl; [exact Hcs|apply normal_slash])) as Hp. rewrite E in Hp. cbn in Hp. subst cs.
    inversion Hcs as [|? ? Hx _]; subst. by apply (normal_empty _ Hx). }
  rewrite bool_decide_eq_false_2 by done. rewrite string_app_cons, <- join_app by done.
  unfold Clean. rewrite bool_decide_eq_false_2 by done. cbn [IsAbs]. cbv zeta. cbn [parts].
  rewrite (proj2 (Ascii.eqb_eq slash slash) eq_refl), parts_join.
  - cbn [foldl]. change (push true [] "") with (@nil string). rewrite pushes_normal by by apply Forall_app. by rewrite app_nil_r, reverse_involutive.
  - by destruct ds.
  - apply Forall_app; split; (eapply Forall_impl; [done|apply normal_slash]).
Qed.
