(* ===== verification/Sandbox.v ===== *)
(** * Algorithm packages and the sandboxed run (sandbox/)

    What a user uploads is parsed and checked ([ParsePackage]), written to a
    build directory, and run on a shard's objects ([Execute]).  The archive and
    JSON libraries, the container runtime and the store are parameters; the
    scratch file system is a map from paths to contents. *)
From S2P Require Import Prelude GoLib Storage Keys Float64 Paths.
Open Scope Z_scope.

(** ** The manifest *)

Definition DataParallel : string := "data_parallel".
Definition Pipeline : string := "pipeline".
Definition AllReduce : string := "all_reduce".
Definition MapReduce : string := "map_reduce".
Definition valid_mode (m : string) : bool :=
  bool_decide (m = DataParallel ∨ m = Pipeline ∨ m = AllReduce ∨ m = MapReduce).

Record Manifest := MkManifest {
  mName : string; mVersion : string; mBaseImage : string; mEntrypoint : string; mGPURequired : bool;
  mGPUCount : Z; mMemoryGB : Z; mTimeoutSec : Z; mParallelism : string }.

Definition checkShape (m : Manifest) : result unit :=
  if bool_decide (mName m = EmptyString) then Err "manifest: name is required"
  else if bool_decide (mVersion m = EmptyString) then Err "manifest: version is required"
  else if bool_decide (mEntrypoint m = EmptyString) then Err "manifest: entrypoint is required"
  else if mMemoryGB m <=? 0 then Err "manifest: memory_gb must be positive"
  else if mTimeoutSec m <=? 0 then Err "manifest: timeout_s must be positive"
  else if mGPURequired m && (mGPUCount m <? 1) then Err ("manifest: gpu_required set but gpu_count is " +:+ fmt_d (mGPUCount m))
  else if negb (valid_mode (mParallelism m)) then Err ("manifest: unknown parallelism mode " +:+ fmt_q (mParallelism m))
  else Ok tt.

(** ** Packages *)

Definition fileDockerfile : string := "Dockerfile".
Definition fileEntrypoint : string := "main.py".
Definition fileRequirements : string := "requirements.txt".
Definition fileManifest : string := "manifest.json".
Definition required_files : list string := [fileDockerfile; fileEntrypoint; fileRequirements; fileManifest].
Definition maxPackageBytes : Z := Z.shiftl 256 20.

(** An archive's entry: its name, whether it is a directory, what [Open]
    says, the uncompressed contents, and whether reading stops early. *)
Record ZipFile := MkZip { zName : string; zIsDir : bool; zOpen : option string; zData : list byte; zReadErr : option string }.

Record Package := MkPackage { pkManifest : Manifest; pkFiles : gmap string (list byte); pkDigest : string }.

(** The contents in sorted order, each with its name and length. *)
Definition file_header (name : string) (data : list byte) : string :=
  name +:+ String nul (fmt_d (Z.of_nat (length data)) +:+ String nul EmptyString).
Definition name_le (a b : string * list byte) : Prop := str_le a.1 b.1.
#[export] Instance name_le_dec : RelDecision name_le := λ a b, decide (str_le a.1 b.1).
Definition canonical (l : list (string * list byte)) : list byte :=
  concat ((λ f, bytes_of_string (file_header f.1 f.2) ++ f.2) <$> l).
Definition contentDigest (files : gmap string (list byte)) : string :=
  hex_encode (Sha256.sum256 (canonical (merge_sort name_le (map_to_list files)))).

(** *** The digest identifies the contents *)

Lemma bytes_of_string_app a b : bytes_of_string (a +:+ b) = bytes_of_string a ++ bytes_of_string b.
Proof. induction a as [|c a IH]; [done|]. rewrite string_app_cons. cbn. f_equal. exact IH. Qed.

Lemma bytes_of_string_inj a b : bytes_of_string a = bytes_of_string b → a = b.
Proof. intros E. by rewrite <- (string_of_bytes_of_string a), E, string_of_bytes_of_string. Qed.

Lemma hex_encode_inj l l' : hex_encode l = hex_encode l' → l = l'.
Proof.
  revert l'. induction l as [|b l IH]; intros [|b' l'] E; cbn [hex_encode] in E; [done|by destruct b'|by destruct b|].
  unfold hex_byte in E. rewrite !string_app_cons in E. injection E as E1 E2 E3. f_equal; [|by apply IH].
  apply hex_byte_inj. unfold hex_byte. by rewrite E1, E2.
Qed.

Definition plain_names (l : list (string * list byte)) : Prop := Forall (λ f, no_char nul f.1 = true) l.

Lemma canonical_cons name data l : canonical ((name, data) :: l) =
  bytes_of_string (name +:+ String nul (fmt_d (Z.of_nat (length data)) +:+ String nul (string_of_bytes (data ++ canonical l)))).
Proof.
  unfold canonical. cbn. unfold file_header. rewrite <- app_assoc. fold (canonical l).
  change (concat ((λ f : string * list byte, bytes_of_string (file_header f.1 f.2) ++ f.2) <$> l)) with (canonical l).
  rewrite <- (bytes_of_string_of_bytes (data ++ canonical l)) at 1. rewrite <- bytes_of_string_app. f_equal.
  by rewrite !string_app_assoc, !string_app_cons, string_app_assoc.
Qed.

Lemma canonical_inj l l' : plain_names l → plain_names l' → canonical l = canonical l' → l = l'.
Proof.
  intros H. revert l'. induction H as [|[n d] l Hn _ IH]; intros l' H' E; destruct l' as [|[n' d'] l']; [done|..].
  - rewrite canonical_cons in E. by destruct n'.
  - rewrite canonical_cons in E. by destruct n.
  - inversion H' as [|? ? Hn' Hl']; subst. rewrite !canonical_cons in E. apply bytes_of_string_inj in E. cbn in Hn, Hn'.
    apply split_at_char in E as [-> E]; [|done..]. apply split_at_char in E as [El E]; [|apply fmt_d_no_nul..].
    unfold fmt_d in El. apply (inj pretty) in El. apply Nat2Z.inj in El.
    assert (Ed : d ++ canonical l = d' ++ canonical l') by (rewrite <- (bytes_of_string_of_bytes (d ++ _)), E; apply bytes_of_string_of_bytes).
    apply app_inj_1 in Ed as [-> Ed]; [|done]. f_equal. by apply IH.
Qed.

(** Two packages with one digest have equal contents, file by file, unless
    the hash itself collides: the encoding that is hashed can be read back, for
    file names without NUL. *)
Theorem digest_identifies_contents files files' :
  plain_names (map_to_list files) → plain_names (map_to_list files') → contentDigest files = contentDigest files' →
  files = files' ∨ ∃ a b : list byte, a ≠ b ∧ Sha256.sum256 a = Sha256.sum256 b.
Proof.
  intros H H' E. unfold contentDigest in E. apply hex_encode_inj in E.
  set (l := merge_sort name_le (map_to_list files)) in *. set (l' := merge_sort name_le (map_to_list files')) in *.
  destruct (decide (canonical l = canonical l')) as [Ec|Hne]; [left|right; by exists (canonical l), (canonical l')].
  assert (Hl : l ≡ₚ map_to_list files) by apply merge_sort_Permutation. assert (Hl' : l' ≡ₚ map_to_list files') by apply merge_sort_Permutation.
  apply canonical_inj in Ec; [|unfold plain_names; by rewrite Hl|unfold plain_names; by rewrite Hl'].
  apply map_to_list_inj. by rewrite <- Hl, Ec.
Qed.

(** What [io.LimitReader] lets through. *)
Fixpoint limit_read {A} (n : Z) (l : list A) : list A :=
  match l with [] => [] | x :: l => if n <=? 0 then [] else x :: limit_read (n - 1) l end.

Class ManifestCodec := { unmarshal_manifest : list byte → result Manifest }.

Section package.
Context {manifest_codec : ManifestCodec}.

(** The loop over the entries. *)
Fixpoint read_files (zs : list ZipFile) (files : gmap string (list byte)) (total : Z) : result (gmap string (list byte)) :=
  match zs with
  | [] => Ok files
  | z :: zs =>
      if zIsDir z then read_files zs files total
      else
        let name := Clean (zName z) in
        if unsafe name then Err ("package: unsafe path " +:+ fmt_q (zName z))
        else
          match zOpen z with
          | Some e => Err ("open " +:+ name +:+ ": " +:+ e)
          | None =>
              match zReadErr z with
              | Some e => Err ("read " +:+ name +:+ ": " +:+ e)
              | None =>
                  let data := limit_read (maxPackageBytes - total + 1) (zData z) in
                  let total := total + Z.of_nat (length data) in
                  if total >? maxPackageBytes then Err ("package exceeds " +:+ fmt_d maxPackageBytes +:+ " bytes uncompressed")
                  else read_files zs (<[name := data]> files) total
              end
          end
  end.

(** [archive] is what the zip reader finds. *)
Definition ParsePackage (archive : result (list ZipFile)) : result Package :=
  match archive with
  | Err e => Err ("open package zip: " +:+ e)
  | Ok zs =>
      try files ← read_files zs ∅ 0;
      match find (λ r, bool_decide (files !! r = None)) required_files with
      | Some r => Err ("package missing required file " +:+ fmt_q r)
      | None =>
          match unmarshal_manifest (default [] (files !! fileManifest)) with
          | Err e => Err ("decode manifest.json: " +:+ e)
          | Ok m => try _ ← checkShape m; Ok (MkPackage m files (contentDigest files))
          end
      end
  end.

(** *** What a parsed package may name *)

Definition inside (name : string) : Prop := name = "." ∨ ∃ cs, cs ≠ [] ∧ Forall normal cs ∧ name = join cs.
Definition files_size (files : gmap string (list byte)) : Z := map_sum (λ _ data, Z.of_nat (length data)) files.

Lemma files_size_insert files name data : files_size (<[name := data]> files) ≤ files_size files + Z.of_nat (length data).
Proof.
  unfold files_size. destruct (files !! name) as [old|] eqn:E; [rewrite (map_sum_update _ _ _ _ _ E)|rewrite map_sum_insert by done]; lia.
Qed.

Lemma read_files_ok zs : ∀ files total files', read_files zs files total = Ok files' →
  map_Forall (λ name _, inside name) files → files_size files ≤ total ≤ maxPackageBytes →
  map_Forall (λ name _, inside name) files' ∧ files_size files' ≤ maxPackageBytes.
Proof.
  induction zs as [|z zs IH]; intros files total files' H Hf Hs; cbn in H; [injection H as <-; split; [done|lia]|].
  destruct (zIsDir z); [by apply (IH _ _ _ H)|]. destruct (unsafe (Clean (zName z))) eqn:Eu; [done|].
  destruct (zOpen z); [done|]. destruct (zReadErr z); [done|]. rewrite Z.gtb_ltb in H.
  destruct (Z.ltb_spec maxPackageBytes (total + Z.of_nat (length (limit_read (maxPackageBytes - total + 1) (zData z))))) as [|Hle]; [done|].
  apply (IH _ _ _ H); [apply map_Forall_insert_2; [by apply clean_safe|done]|]. split; [|done].
  pose proof (files_size_insert files (Clean (zName z)) (limit_read (maxPackageBytes - total + 1) (zData z))). lia.
Qed.

Lemma parse_inside archive p : ParsePackage archive = Ok p →
  map_Forall (λ name _, inside name) (pkFiles p) ∧ files_size (pkFiles p) ≤ maxPackageBytes.
Proof.
  unfold ParsePackage. destruct archive as [zs|]; [|done]. destruct (read_files zs ∅ 0) as [files|] eqn:Er; cbn [result_bind]; [|done].
  destruct (find _ required_files); [done|]. destruct (unmarshal_manifest _) as [m|]; [|done].
  destruct (checkShape m); cbn [result_bind]; [|done]. intros [= <-]. apply (read_files_ok zs ∅ 0 files Er); [apply map_Forall_empty|done].
Qed.

(** C39: whatever the archive holds, an accepted package has the required
    files and a well-formed manifest, names no path outside its directory, and
    is at most 256 MiB uncompressed. *)
Theorem parsed_package_is_sound archive p : ParsePackage archive = Ok p →
  map_Forall (λ name _, inside name) (pkFiles p) ∧ files_size (pkFiles p) ≤ 268435456 ∧
  (∀ r, r ∈ required_files → is_Some (pkFiles p !! r)) ∧ checkShape (pkManifest p) = Ok tt ∧ pkDigest p = contentDigest (pkFiles p).
Proof.
  intros Hp. destruct (parse_inside archive p Hp) as [H1 H2]. split; [done|]. split; [done|]. revert Hp. clear H1 H2.
  unfold ParsePackage. destruct archive as [zs|]; [|done]. destruct (read_files zs ∅ 0) as [files|]; cbn [result_bind]; [|done].
  destruct (find _ required_files) eqn:Ef; [done|]. destruct (unmarshal_manifest _) as [m|]; [|done].
  destruct (checkShape m) as [[]|] eqn:Ec; cbn [result_bind]; [|done]. intros [= <-]. cbn [pkFiles pkManifest pkDigest].
  split_and!; try done.
  intros r Hr. pose proof (find_none _ _ Ef r (proj1 (list_elem_of_In _ _) Hr)) as Hn.
  apply bool_decide_eq_false in Hn. destruct (files !! r); [by eexists|done].
Qed.

(** [writeContext]: the files in the order the map is walked; [fault] is what
    the file system says to a path. *)
Fixpoint write_files (fault : string → option string) (dir : string) (l : list (string * list byte)) (fs : gmap string (list byte)) :
    result unit * gmap string (list byte) :=
  match l with
  | [] => (Ok tt, fs)
  | (name, data) :: l =>
      let full := Join dir name in
      match fault full with
      | Some e => (Err ("write " +:+ name +:+ ": " +:+ e), fs)
      | None => write_files fault dir l (<[full := data]> fs)
      end
  end.
Definition writeContext (fault : string → option string) (dir : string) (p : Package) (fs : gmap string (list byte)) :
    result unit * gmap string (list byte) := write_files fault dir (map_to_list (pkFiles p)) fs.

Definition below (dir path : string) : Prop := path = dir ∨ ∃ cs, cs ≠ [] ∧ Forall normal cs ∧ path = dir +:+ String slash (join cs).

Lemma join_dot dir : clean_dir dir → Join dir "." = dir.
Proof.
  intros (ds & Hd & Hn & ->). unfold Join. rewrite !bool_decide_eq_false_2 by done. rewrite string_app_cons.
  unfold Clean. rewrite bool_decide_eq_false_2 by done. cbn [IsAbs]. rewrite (proj2 (Ascii.eqb_eq slash slash) eq_refl). cbv zeta. f_equal.
  replace (parts (String slash (join ds +:+ String slash "."))) with (EmptyString :: ds ++ ["."]).
  - cbn [foldl]. change (push true [] EmptyString) with (@nil string). rewrite foldl_app, (pushes_normal _ [] ds) by done. cbn [foldl].
    rewrite app_nil_r. change (push true (reverse ds) ".") with (reverse ds). by rewrite reverse_involutive.
  - cbn [parts]. rewrite (proj2 (Ascii.eqb_eq slash slash) eq_refl). f_equal.
    change (join ds +:+ String slash ".") with (join ds +:+ String slash (join ["."])). rewrite <- join_app by done.
    symmetry. apply parts_join; [by destruct ds|]. apply Forall_app. split; [|by repeat constructor].
    eapply Forall_impl; [done|apply normal_slash].
Qed.

Lemma inside_below dir name : clean_dir dir → inside name → below dir (Join dir name).
Proof.
  intros Hd [->|(cs & Hc & Hn & ->)]; [left; by apply join_dot|]. right. exists cs. by rewrite join_inside.
Qed.

Lemma write_stays_below archive p fault dir fs : ParsePackage archive = Ok p → clean_dir dir →
  ∀ path, (writeContext fault dir p fs).2 !! path ≠ fs !! path → below dir path.
Proof.
  intros Hp Hd. destruct (parse_inside archive p Hp) as [Hi _]. unfold writeContext.
  assert (Hl : Forall (λ f, inside f.1) (map_to_list (pkFiles p))).
  { apply Forall_forall. intros [name data] Hf%elem_of_map_to_list. by apply (Hi name data). }
  clear Hi Hp. revert fs. induction Hl as [|[name data] l Hn _ IH]; intros fs path Hne; [done|]. cbn in Hne.
  destruct (fault (Join dir name)); [done|]. destruct (decide (path = Join dir name)) as [->|Hpn]; [by apply inside_below|].
  apply (IH (<[Join dir name := data]> fs)). by rewrite lookup_insert_ne.
Qed.

(** C16: building an accepted package writes nothing outside the build
    directory, whatever fails on the way. *)
Theorem build_stays_inside archive p fault dir fs : ParsePackage archive = Ok p → clean_dir dir →
  ∀ path, (writeContext fault dir p fs).2 !! path ≠ fs !! path → below dir path.
Proof. apply write_stays_below. Qed.
End package.

(** ** The run *)

Record ResourceLimits := MkLimits {
  CPUCores : float64; MemoryBytes : Z; GPUCount : Z; DiskBytes : Z; NetworkMode : string; TimeoutSec : Z }.
Definition LimitsFromManifest (m : Manifest) : ResourceLimits :=
  MkLimits (of_Z (Z.max 1 (Z.quot (mMemoryGB m) 8))) (wrap64 (Z.shiftl (mMemoryGB m) 30)) (mGPUCount m) (Z.shiftl 10 30) "none" (mTimeoutSec m).

Record ExecutionSpec := MkSpec {
  esImage : string; esTaskID : string; esInputDir : string; esOutputDir : string; esArgs : list string;
  esEnv : gmap string string; esLimits : ResourceLimits }.
Record ExecutionResult := MkExecution { xExitCode : Z; xStdout : string; xStderr : string; xTimedOut : bool; xOOMKilled : bool }.

(** [buildRunArgs]; [fmt_float] is strconv's 'f' format, [env] the variables in
    the order the map is walked. *)
Definition buildRunArgs (fmt_float : float64 → string) (env : list (string * string)) (runtime : string) (spec : ExecutionSpec) : list string :=
  let runtime := if bool_decide (runtime = EmptyString) then "runsc" else runtime in
  let l := esLimits spec in
  let net := if bool_decide (NetworkMode l = EmptyString) then "none" else NetworkMode l in
  ["run"; "--rm"; "--runtime"; runtime; "--network"; net; "--name"; "petabyte-" +:+ esTaskID spec]
  ++ (if fltb (of_Z 0) (CPUCores l) then ["--cpus"; fmt_float (CPUCores l)] else [])
  ++ (if MemoryBytes l >? 0 then ["--memory"; fmt_d (MemoryBytes l)] else [])
  ++ (if GPUCount l >? 0 then ["--gpus"; fmt_d (GPUCount l)] else [])
  ++ (if bool_decide (esInputDir spec = EmptyString) then [] else ["-v"; esInputDir spec +:+ ":/input:ro"])
  ++ (if bool_decide (esOutputDir spec = EmptyString) then [] else ["-v"; esOutputDir spec +:+ ":/output"])
  ++ concat ((λ kv, ["-e"; kv.1 +:+ "=" +:+ kv.2]) <$> env)
  ++ esImage spec :: esArgs spec.

(** How the docker process ended. *)
Inductive ended := DeadlineExceeded | Exited (code : Z) | Failed (e : string) | Succeeded.
Definition RunResultOf (taskID : string) (timeout : Z) (stdout stderr : string) (e : ended) : ExecutionResult * option string :=
  match e with
  | DeadlineExceeded => (MkExecution (-1) stdout stderr true false, Some ("run " +:+ taskID +:+ ": timed out after " +:+ fmt_d timeout +:+ "s"))
  | Exited code => (MkExecution code stdout stderr false (bool_decide (code = 137)), Some ("run " +:+ taskID +:+ ": exit " +:+ fmt_d code))
  | Failed e => (MkExecution 0 stdout stderr false false, Some ("run " +:+ taskID +:+ ": " +:+ e))
  | Succeeded => (MkExecution 0 stdout stderr false false, None)
  end.

Record RunnerSpec := MkRunnerSpec {
  rsTaskID : string; rsJobID : string; rsShard : string; rsDataset : string; rsImage : string; rsLimits : ResourceLimits;
  rsEnv : gmap string string; rsIdempotencyKey : string; rsTraceID : string }.
Definition IdempotencyKeyEnv : string := "PETABYTE_IDEMPOTENCY_KEY".
Definition TraceIDEnv : string := "PETABYTE_TRACE_ID".
Record RunResult := MkRunResult { rrImagesProcessed : Z; rrBytesRead : Z; rrOutputKey : string; rrExecution : option ExecutionResult }.
Record AlgorithmOutput := MkOutput { aoImagesProcessed : Z; aoImagesFailed : Z; aoArtifacts : list string }.

Notation files := (gmap string (list byte)) (only parsing).

(** An object's stream: what it delivers, whether it breaks off, and the size
    the store reports. *)
Record body := MkBody { bData : list byte; bErr : option string; bSize : Z }.

(** The store, the container runtime and JSON.  A put that succeeds stores the
    object and touches no other; one that fails stores nothing. *)
Class RunnerStore (B : Type) := {
  st_list : B → string → result (list string);
  st_get : B → string → result body;
  st_put : B → string → list byte → result unit * B;
  st_has : B → string → option (list byte);
  st_put_ok b k d b' : st_put b k d = (Ok tt, b') → st_has b' k = Some d ∧ ∀ k', k' ≠ k → st_has b' k' = st_has b k';
  st_put_err b k d e b' : st_put b k d = (Err e, b') → ∀ k', st_has b' k' = st_has b k' }.
Class Runtime := runtime_run : ExecutionSpec → files → ExecutionResult * option string * files.
Class RunnerCodec := {
  marshal_input : string → string → list string → result (list byte);
  unmarshal_output : list byte → result AlgorithmOutput }.

Section runner.
Context {B : Type} `{RunnerStore B, Runtime, RunnerCodec} (fault : string → option string).

(** The scratch file system: [fault] is what it says to an operation on a path. *)
Definition base_name (key : string) : string := default EmptyString (list.last (parts key)).

Fixpoint stage_keys (inputDir : string) (keys : list string) (b : B) (total : Z) (names : list string) (fs : files) :
    result (list string) * Z * files :=
  match keys with
  | [] => (Ok names, total, fs)
  | key :: keys =>
      match st_get b key with
      | Err e => (Err ("get " +:+ key +:+ ": " +:+ e), total, fs)
      | Ok rc =>
          let name := base_name key in
          let dst := Join inputDir name in
          match fault dst with
          | Some e => (Err ("create " +:+ name +:+ ": " +:+ e), total, fs)
          | None =>
              match bErr rc with
              | Some e => (Err ("stage " +:+ name +:+ ": " +:+ e), total, <[dst := bData rc]> fs)
              | None => stage_keys inputDir keys b (wrap64 (total + bSize rc)) (names ++ [name]) (<[dst := bData rc]> fs)
              end
          end
      end
  end.

Definition stageShard (spec : RunnerSpec) (inputDir : string) (b : B) (fs : files) : result unit * Z * files :=
  match st_list b (rsDataset spec +:+ "/" +:+ rsShard spec +:+ "/") with
  | Err e => (Err ("list shard " +:+ rsShard spec +:+ ": " +:+ e), 0, fs)
  | Ok keys =>
      match stage_keys inputDir keys b 0 [] fs with
      | (Err e, total, fs) => (Err e, total, fs)
      | (Ok names, total, fs) =>
          match marshal_input (rsShard spec) (rsDataset spec) names with
          | Err e => (Err ("marshal input manifest: " +:+ e), total, fs)
          | Ok manifest =>
              let dst := Join inputDir "manifest.json" in
              match fault dst with
              | Some e => (Err ("write input manifest: " +:+ e), total, fs)
              | None => (Ok tt, total, <[dst := manifest]> fs)
              end
          end
      end
  end.

Definition resultFile : string := "result.json".
Definition CollectOutput (outputDir : string) (fs : files) : result AlgorithmOutput :=
  let path := Join outputDir resultFile in
  match fault path with
  | Some e => Err ("read " +:+ resultFile +:+ ": " +:+ e)
  | None =>
      match fs !! path with
      | None => Err ("algorithm produced no " +:+ resultFile)
      | Some data =>
          match unmarshal_output data with
          | Err e => Err ("decode " +:+ resultFile +:+ ": " +:+ e)
          | Ok out =>
              match find (λ a, unsafe (Clean a)) (aoArtifacts out) with
              | Some a => Err ("artifact path escapes output volume: " +:+ fmt_q a)
              | None => Ok out
              end
          end
      end
  end.

Definition artifact_key (spec : RunnerSpec) (a : string) : string :=
  "results/" +:+ rsJobID spec +:+ "/" +:+ rsShard spec +:+ "/" +:+ a.

Definition open_file (path : string) (fs : files) : result (list byte) :=
  match fault path with
  | Some e => Err e
  | None => match fs !! path with Some data => Ok data | None => Err ("open " +:+ path +:+ ": no such file or directory") end
  end.

Fixpoint uploadArtifacts (spec : RunnerSpec) (outputDir : string) (artifacts : list string) (fs : files) (b : B) : result unit * B :=
  match artifacts with
  | [] => (Ok tt, b)
  | a :: artifacts =>
      match open_file (Join outputDir a) fs with
      | Err e => (Err ("open artifact " +:+ a +:+ ": " +:+ e), b)
      | Ok data =>
          match st_put b (artifact_key spec a) data with
          | (Err e, b) => (Err ("upload artifact " +:+ a +:+ ": " +:+ e), b)
          | (Ok _, b) => uploadArtifacts spec outputDir artifacts fs b
          end
      end
  end.

(** The variables the container sees. *)
Definition container_env (spec : RunnerSpec) : gmap string string :=
  if bool_decide (rsIdempotencyKey spec ≠ EmptyString ∨ rsTraceID spec ≠ EmptyString) then
    let env := rsEnv spec in
    let env := if bool_decide (rsIdempotencyKey spec ≠ EmptyString) then <[IdempotencyKeyEnv := rsIdempotencyKey spec]> env else env in
    if bool_decide (rsTraceID spec ≠ EmptyString) then <[TraceIDEnv := rsTraceID spec]> env else env
  else rsEnv spec.

Definition Execute (spec : RunnerSpec) (baseDir : string) (b : B) (fs : files) : option RunResult * option string * B :=
  let inputDir := Join baseDir "input" in
  let outputDir := Join baseDir "output" in
  match fault inputDir with
  | Some e => (None, Some ("input dir: " +:+ e), b)
  | None =>
  match fault outputDir with
  | Some e => (None, Some ("output dir: " +:+ e), b)
  | None =>
  match stageShard spec inputDir b fs with
  | (Err e, _, _) => (None, Some e, b)
  | (Ok _, bytesRead, fs) =>
      match runtime_run (MkSpec (rsImage spec) (rsTaskID spec) inputDir outputDir ["/input/manifest.json"] (container_env spec) (rsLimits spec)) fs with
      | (exec, Some e, _) => (Some (MkRunResult 0 bytesRead EmptyString (Some exec)), Some e, b)
      | (exec, None, fs) =>
          match CollectOutput outputDir fs with
          | Err e => (Some (MkRunResult 0 bytesRead EmptyString (Some exec)), Some e, b)
          | Ok out =>
              match uploadArtifacts spec outputDir (aoArtifacts out) fs b with
              | (Err e, b) => (Some (MkRunResult (aoImagesProcessed out) bytesRead EmptyString (Some exec)), Some e, b)
              | (Ok _, b) =>
                  (Some (MkRunResult (aoImagesProcessed out) bytesRead
                           ("results/" +:+ rsJobID spec +:+ "/" +:+ rsShard spec +:+ "/" +:+ rsTaskID spec +:+ ".json") (Some exec)), None, b)
              end
          end
      end
  end end end.

(** ** What a run leaves behind *)

Lemma artifact_key_inj spec a a' : artifact_key spec a = artifact_key spec a' → a = a'.
Proof. unfold artifact_key. rewrite <- !string_app_assoc. apply string_app_head. Qed.

Lemma upload_spec spec dir fs l : ∀ b r b', uploadArtifacts spec dir l fs b = (r, b') →
  (∀ k, (∀ a, a ∈ l → k ≠ artifact_key spec a) → st_has b' k = st_has b k) ∧
  (r = Ok tt → ∀ a, a ∈ l → is_Some (fs !! Join dir a) ∧ st_has b' (artifact_key spec a) = fs !! Join dir a).
Proof.
  induction l as [|a l IH]; intros b r b' E; cbn in E.
  { injection E as <- <-. split; [done|]. by intros _ a ?%elem_of_nil. }
  destruct (open_file (Join dir a) fs) as [data|] eqn:Eo; [|injection E as <- <-; by split].
  assert (Ef : fs !! Join dir a = Some data) by (revert Eo; unfold open_file; destruct (fault _); [done|]; destruct (fs !! Join dir a); by intros [= ->]).
  destruct (st_put b (artifact_key spec a) data) as [[[]|e] b1] eqn:Ep.
  - apply st_put_ok in Ep as [Hk Ho]. destruct (IH _ _ _ E) as [U1 U2]. split.
    + intros k Hne. rewrite U1 by (intros x Hx; apply Hne; by right). apply Ho. apply Hne. by left.
    + intros Hr x Hx. destruct (decide (x ∈ l)) as [Hxl|Hxl]; [by apply U2|]. apply elem_of_cons in Hx as [->|Hx]; [|done].
      rewrite Ef. split; [by eexists|]. rewrite U1; [done|]. intros y Hy Ey%artifact_key_inj. by subst.
  - injection E as <- <-. split; [|done]. intros k _. by apply (st_put_err _ _ _ _ _ Ep).
Qed.

Lemma run_uploads spec baseDir b fs r b' : Execute spec baseDir b fs = (Some r, None, b') → ∃ out fs',
  CollectOutput (Join baseDir "output") fs' = Ok out ∧ uploadArtifacts spec (Join baseDir "output") (aoArtifacts out) fs' b = (Ok tt, b') ∧
  rrImagesProcessed r = aoImagesProcessed out ∧ rrOutputKey r = artifact_key spec (rsTaskID spec +:+ ".json").
Proof.
  unfold Execute. destruct (fault _); [done|]. destruct (fault _); [done|]. destruct (stageShard _ _ _ _) as [[[[]|e] n] fs1]; [|done].
  destruct (runtime_run _ _) as [[exec [e|]] fs2]; [done|]. destruct (CollectOutput _ fs2) as [out|e] eqn:Ec; [|done].
  destruct (uploadArtifacts _ _ _ _ _) as [[[]|e] b1] eqn:Eu; [|done]. intros [= <- <-]. by exists out, fs2.
Qed.

Lemma failed_run_names_nothing spec baseDir b fs r e b' : Execute spec baseDir b fs = (Some r, Some e, b') → rrOutputKey r = EmptyString.
Proof.
  unfold Execute. destruct (fault _); [done|]. destruct (fault _); [done|]. destruct (stageShard _ _ _ _) as [[[[]|e1] n] fs1]; [|done].
  destruct (runtime_run _ _) as [[exec [e1|]] fs2]; [by intros [= <- _ _]|]. destruct (CollectOutput _ fs2) as [out|e1]; [|by intros [= <- _ _]].
  destruct (uploadArtifacts _ _ _ _ _) as [[[]|e1] b1]; [done|]. by intros [= <- _ _].
Qed.

(** A run that succeeds has stored every artifact the algorithm declared,
    with the contents it wrote, and nothing else; a run that fails names no
    output. *)
Theorem run_stores_artifacts spec baseDir b fs r err b' : Execute spec baseDir b fs = (Some r, err, b') →
  match err with
  | Some _ => rrOutputKey r = EmptyString
  | None => ∃ out fs', CollectOutput (Join baseDir "output") fs' = Ok out ∧ rrImagesProcessed r = aoImagesProcessed out ∧
      (∀ a, a ∈ aoArtifacts out → is_Some (fs' !! Join (Join baseDir "output") a) ∧
         st_has b' (artifact_key spec a) = fs' !! Join (Join baseDir "output") a) ∧
      ∀ k, (∀ a, a ∈ aoArtifacts out → k ≠ artifact_key spec a) → st_has b' k = st_has b k
  end.
Proof.
  destruct err as [e|]; [apply failed_run_names_nothing|]. intros (out & fs' & Hc & Hu & Hi & _)%run_uploads.
  destruct (upload_spec _ _ _ _ _ _ _ Hu) as [U1 U2]. exists out, fs'. split_and!; [done|done|by apply U2|done].
Qed.

(** The run reports [results/<job>/<shard>/<task>.json] as its output, and
    stores no such object unless the algorithm happens to declare an artifact
    of that name: the key it reports does not exist. *)
Lemma reported_output_is_missing spec baseDir b fs r b' :
  Execute spec baseDir b fs = (Some r, None, b') → st_has b (rrOutputKey r) = None →
  st_has b' (rrOutputKey r) ≠ None → ∃ fs' out, CollectOutput (Join baseDir "output") fs' = Ok out ∧ rsTaskID spec +:+ ".json" ∈ aoArtifacts out.
Proof.
  intros (out & fs' & Hc & Hu & _ & Ek)%run_uploads Hb Hb'. exists fs', out. split; [done|].
  destruct (upload_spec _ _ _ _ _ _ _ Hu) as [U1 _].
  destruct (decide (rsTaskID spec +:+ ".json" ∈ aoArtifacts out)) as [|Hn]; [done|]. exfalso. apply Hb'. rewrite U1; [done|].
  intros a Ha E. rewrite Ek in E. apply artifact_key_inj in E. by subst.
Qed.

(** ** Staging *)

Lemma stage_keys_spec dir keys b : ∀ total names fs names' total' fs', stage_keys dir keys b total names fs = (Ok names', total', fs') →
  NoDup ((λ k, Join dir (base_name k)) <$> keys) →
  (∀ k, k ∈ keys → ∃ rc, st_get b k = Ok rc ∧ bErr rc = None ∧ fs' !! Join dir (base_name k) = Some (bData rc)) ∧
  names' = names ++ (base_name <$> keys) ∧ (∀ path, (∀ k, k ∈ keys → path ≠ Join dir (base_name k)) → fs' !! path = fs !! path).
Proof.
  induction keys as [|k keys IH]; intros total names fs names' total' fs' E Hnd; cbn in E.
  { injection E as <- <- <-. split_and!; [by intros k ?%elem_of_nil|by rewrite app_nil_r|done]. }
  destruct (st_get b k) as [rc|] eqn:Eg; [|done]. destruct (fault _); [done|]. destruct (bErr rc) eqn:Er; [done|]. apply NoDup_cons in Hnd as [Hk Hnd].
  destruct (IH _ _ _ _ _ _ E Hnd) as (U1 & U2 & U3). split_and!.
  - intros x [->|Hx]%elem_of_cons; [|by apply U1]. exists rc. split; [done|]. split; [done|]. rewrite U3; [apply lookup_insert_eq|].
    intros y Hy Ey. apply Hk. rewrite Ey. by apply (list_elem_of_fmap_2 (λ k, Join dir (base_name k))).
  - rewrite U2, <- app_assoc. done.
  - intros path Hp. rewrite U3 by (intros x Hx; apply Hp; by right). rewrite lookup_insert_ne; [done|]. intros Ep. apply (Hp k); [by left|done].
Qed.

(** When the objects of a shard have file names of their own, none of them
    [manifest.json], the algorithm finds every object of the shard, with its
    contents, in its input directory. *)
Theorem shard_is_staged spec dir b fs keys total fs' : clean_dir dir →
  st_list b (rsDataset spec +:+ "/" +:+ rsShard spec +:+ "/") = Ok keys →
  Forall (λ k, normal (base_name k) ∧ base_name k ≠ "manifest.json") keys → NoDup (base_name <$> keys) →
  stageShard spec dir b fs = (Ok tt, total, fs') →
  ∀ k, k ∈ keys → ∃ rc, st_get b k = Ok rc ∧ bErr rc = None ∧ fs' !! (dir +:+ String slash (base_name k)) = Some (bData rc).
Proof.
  intros Hd Hl Hn Hnd E k Hk. unfold stageShard in E. rewrite Hl in E.
  assert (Hj : ∀ n, normal n → Join dir n = dir +:+ String slash n) by (intros n Hn'; by apply (join_inside dir [n]); [| |constructor]).
  assert (Hb : ∀ k, k ∈ keys → normal (base_name k) ∧ base_name k ≠ "manifest.json") by by apply Forall_forall.
  destruct (stage_keys dir keys b 0 [] fs) as [[[names|] n] fs1] eqn:Es; [|done]. destruct (marshal_input _ _ _) as [m|]; [|done].
  destruct (fault _); [done|]. injection E as _ <-.
  apply stage_keys_spec in Es as (U1 & _); [|].
  - destruct (U1 k Hk) as (rc & Hg & Hr & Hf). exists rc. split; [done|]. split; [done|]. destruct (Hb k Hk) as [Hkn Hkm].
    rewrite Hj in Hf by done. rewrite lookup_insert_ne; [done|]. rewrite (Hj "manifest.json") by by split.
    intros Ep. apply string_app_head in Ep. injection Ep as Ep. by apply Hkm.
  - clear -Hj Hb Hnd. apply NoDup_fmap_2_strong; [|by eapply NoDup_fmap_1]. intros x y Hx Hy E. rewrite !Hj in E by by apply Hb.
    apply string_app_head in E. injection E as E. revert Hnd Hx Hy E. clear. intros Hnd [i Hi]%list_elem_of_lookup [j Hj]%list_elem_of_lookup E.
    enough (i = j) as -> by congruence. eapply NoDup_lookup; [exact Hnd|by rewrite list_lookup_fmap, Hi|by rewrite list_lookup_fmap, Hj, E].
Qed.
End runner.

(** ** Examples *)

Definition resize : Manifest := MkManifest "resize" "1.0.0" "python:3.12" "main.py" false 0 16 300 DataParallel.
#[local] Instance resize_codec : ManifestCodec := {| unmarshal_manifest _ := Ok resize |}.
Definition zip_of (name : string) : ZipFile := MkZip name false None (bytes_of_string name) None.
Definition upload : list ZipFile := [zip_of "Dockerfile"; MkZip "lib/" true None [] None; zip_of "./lib/../main.py"; zip_of "requirements.txt"; zip_of "manifest.json"].
Definition evil : list ZipFile := [zip_of "lib/../../etc/cron.d/x"].

Example evil_package : ParsePackage (Ok evil) = Err ("package: unsafe path " +:+ fmt_q "lib/../../etc/cron.d/x").
Proof. vm_compute. done. Qed.

Definition upload_files : gmap string (list byte) :=
  list_to_map [("Dockerfile", bytes_of_string "Dockerfile"); ("main.py", bytes_of_string "./lib/../main.py");
               ("requirements.txt", bytes_of_string "requirements.txt"); ("manifest.json", bytes_of_string "manifest.json")].
Lemma upload_parsed : ParsePackage (Ok upload) = Ok (MkPackage resize upload_files (contentDigest upload_files)).
Proof. vm_compute. reflexivity. Qed.

Lemma parsed_package_is_sound_witness : files_size upload_files ≤ 268435456 ∧ map_Forall (λ name _, inside name) upload_files.
Proof. destruct (parsed_package_is_sound (Ok upload) _ upload_parsed) as (? & ? & _). by split. Defined.

Definition build_dir : string := "/tmp/build".
Lemma build_dir_clean : clean_dir build_dir.
Proof. exists ["tmp"; "build"]. split_and!; [done|by repeat constructor|reflexivity]. Qed.

Definition written : gmap string (list byte) :=
  (writeContext (λ _, None) build_dir (MkPackage resize upload_files (contentDigest upload_files)) ∅).2.
Lemma build_stays_inside_witness : written !! "/tmp/build/main.py" = Some (bytes_of_string "./lib/../main.py") ∧ below build_dir "/tmp/build/main.py".
Proof.
  split; [vm_compute; reflexivity|].
  apply (build_stays_inside (Ok upload) _ (λ _, None) build_dir ∅ upload_parsed build_dir_clean). vm_compute. discriminate.
Defined.

Lemma digest_identifies_contents_witness : upload_files = upload_files ∨ ∃ a b : list byte, a ≠ b ∧ Sha256.sum256 a = Sha256.sum256 b.
Proof. apply (digest_identifies_contents upload_files upload_files); [vm_compute; by repeat constructor..|reflexivity]. Defined.

(** A store in memory; an algorithm that writes one artifact. *)
Definition mem_store : Type := gmap string (list byte).
#[local, refine] Instance mem_runner_store : RunnerStore mem_store := {|
  st_list b p := Ok (filter (λ k, String.prefix p k = true) (map_to_list b).*1);
  st_get b k := match b !! k with Some d => Ok (MkBody d None (Z.of_nat (length d))) | None => Err "NoSuchKey" end;
  st_put b k d := (Ok tt, <[k := d]> b);
  st_has b k := b !! k |}.
Proof.
  - intros b k d b' [= <-]. split; [apply lookup_insert_eq|]. intros k' Hne. by apply lookup_insert_ne.
  - done.
Defined.
#[local] Instance one_artifact : Runtime := λ spec fs,
  (MkExecution 0 "" "" false false, None,
   <[Join (esOutputDir spec) "out.bin" := default [] (fs !! Join (esInputDir spec) "a.png")]> (<[Join (esOutputDir spec) "result.json" := []]> fs)).
#[local] Instance demo_json : RunnerCodec := {|
  marshal_input _ _ names := Ok (bytes_of_string (String.concat "," names));
  unmarshal_output _ := Ok (MkOutput 2 0 ["out.bin"]) |}.

Definition shard_objects : mem_store := list_to_map [("pets/s0/a.png", [Byte.x01]); ("pets/s0/b.png", [Byte.x02]); ("pets/s1/c.png", [Byte.x03])].
Definition shard_task : RunnerSpec := MkRunnerSpec "t1" "j1" "s0" "pets" "img" (LimitsFromManifest resize) ∅ "sfx-1" "tr-1".
Definition no_fault : string → option string := λ _, None.

Definition after_run : option RunResult * option string * mem_store := Execute no_fault shard_task "/scratch" shard_objects ∅.

Lemma run_stores_artifacts_witness : ∃ r b, after_run = (Some r, None, b) ∧
  st_has b "results/j1/s0/out.bin" = Some [Byte.x01] ∧ st_has b (rrOutputKey r) = None ∧
  ∃ out fs', CollectOutput no_fault (Join "/scratch" "output") fs' = Ok out ∧ rrImagesProcessed r = aoImagesProcessed out.
Proof.
  eexists _, _. split; [vm_compute; reflexivity|]. split; [vm_compute; reflexivity|]. split; [vm_compute; reflexivity|].
  destruct (run_stores_artifacts no_fault shard_task "/scratch" shard_objects ∅ _ _ _ (eq_refl after_run)) as (out & fs' & Hc & Hi & _).
  exists out, fs'. split; [exact Hc|exact Hi].
Defined.

Lemma shard_is_staged_witness : ∃ fs, (stageShard no_fault shard_task "/scratch/input" shard_objects ∅).2 = fs ∧
  ∃ rc, st_get shard_objects "pets/s0/a.png" = Ok rc ∧ bErr rc = None ∧ fs !! ("/scratch/input" +:+ String slash "a.png") = Some (bData rc).
Proof.
  eexists. split; [vm_compute; reflexivity|].
  apply (shard_is_staged no_fault shard_task "/scratch/input" shard_objects ∅ ["pets/s0/a.png"; "pets/s0/b.png"] 2);
    [exists ["scratch"; "input"]; split_and!; [done|by repeat constructor|reflexivity]|vm_compute; reflexivity| | |vm_compute; reflexivity|left].
  - repeat constructor; done.
  - apply (bool_decide_unpack _). vm_compute. exact I.
Defined.

(** Objects of one file name overwrite each other in the input directory. *)
Example same_names_collide :
  let b : mem_store := list_to_map [("pets/s0/x/a.png", [Byte.x01]); ("pets/s0/y/a.png", [Byte.x02])] in
  let '(r, total, fs) := stageShard no_fault shard_task "/scratch/input" b ∅ in
  r = Ok tt ∧ total = 2 ∧ size (filter (λ kv, String.prefix "/scratch/input/a" kv.1 = true) fs) = 1%nat.
Proof. vm_compute. done. Qed.
