(* ===== verification/Registry.v ===== *)
(** * The algorithm registry (registry/)

    [Validate]: tenant quota and platform policy on a manifest; [Store]: an SQL
    table of algorithm versions whose primary key is name and version.  What the
    SQL engine refuses is an argument of each call. *)
From S2P Require Import Prelude GoLib Float64 Sandbox.
Open Scope Z_scope.

(** ** The validator *)

Record Quota := MkQuota { MaxCPUCores : float64; MaxMemoryGB : Z; MaxGPUCount : Z; MaxTimeoutSec : Z }.
Definition DefaultQuota : Quota := MkQuota (of_Z 16) 128 4 3600.

Definition allowedBaseImages : list string :=
  ["nvidia/cuda:"; "pytorch/pytorch:"; "tensorflow/tensorflow:"; "python:"; "petabyte/base:"].
Definition baseImageAllowed (image : string) : bool := existsb (λ prefix, String.prefix prefix image) allowedBaseImages.

Definition Validate (m : Manifest) (q : Quota) : result unit :=
  if mMemoryGB m >? MaxMemoryGB q then Err ("memory_gb " +:+ fmt_d (mMemoryGB m) +:+ " exceeds quota " +:+ fmt_d (MaxMemoryGB q))
  else if mGPUCount m >? MaxGPUCount q then Err ("gpu_count " +:+ fmt_d (mGPUCount m) +:+ " exceeds quota " +:+ fmt_d (MaxGPUCount q))
  else if mTimeoutSec m >? MaxTimeoutSec q then Err ("timeout_s " +:+ fmt_d (mTimeoutSec m) +:+ " exceeds quota " +:+ fmt_d (MaxTimeoutSec q))
  else if negb (baseImageAllowed (mBaseImage m)) then Err ("base image " +:+ fmt_q (mBaseImage m) +:+ " not in allowlist")
  else Ok tt.

Lemma validate_ok m q : Validate m q = Ok tt → mMemoryGB m ≤ MaxMemoryGB q ∧ mGPUCount m ≤ MaxGPUCount q ∧ mTimeoutSec m ≤ MaxTimeoutSec q ∧
  ∃ prefix, prefix ∈ allowedBaseImages ∧ String.prefix prefix (mBaseImage m) = true.
Proof.
  unfold Validate. rewrite !Z.gtb_ltb. destruct (Z.ltb_spec (MaxMemoryGB q) (mMemoryGB m)); [done|].
  destruct (Z.ltb_spec (MaxGPUCount q) (mGPUCount m)); [done|]. destruct (Z.ltb_spec (MaxTimeoutSec q) (mTimeoutSec m)); [done|].
  destruct (baseImageAllowed _) eqn:Eb; [|done]. intros _. split_and!; [done..|]. unfold baseImageAllowed in Eb.
  apply existsb_exists in Eb as (p & Hp & Hpre). exists p. split; [by apply list_elem_of_In|done].
Qed.

Lemma shape_ok m : checkShape m = Ok tt → 0 < mMemoryGB m ∧ 0 < mTimeoutSec m ∧ (mGPURequired m = true → 1 ≤ mGPUCount m).
Proof.
  unfold checkShape. repeat case_bool_decide; try done. destruct (Z.leb_spec (mMemoryGB m) 0); [done|].
  destruct (Z.leb_spec (mTimeoutSec m) 0); [done|]. destruct (mGPURequired m); cbn; [|by intros _; split_and!].
  destruct (Z.ltb_spec (mGPUCount m) 1); [done|]. intros _. by split_and!.
Qed.

(** What an accepted algorithm runs with is within its tenant's quota: the
    memory in bytes does not overflow for quotas up to 2^32 GB, GPUs and time are
    capped, there is no network, and under the default quota the cores, which
    follow from the memory, fit too. *)
Theorem limits_within_quota m q : checkShape m = Ok tt → Validate m q = Ok tt → MaxMemoryGB q ≤ 2 ^ 32 →
  let l := LimitsFromManifest m in
  0 < MemoryBytes l ≤ MaxMemoryGB q * 2 ^ 30 ∧ GPUCount l ≤ MaxGPUCount q ∧ 0 < TimeoutSec l ≤ MaxTimeoutSec q ∧ NetworkMode l = "none" ∧
  (q = DefaultQuota → fltb (of_Z 0) (CPUCores l) = true ∧ fleb (CPUCores l) (MaxCPUCores q) = true).
Proof.
  intros (Hm & Ht & _)%shape_ok (Qm & Qg & Qt & _)%validate_ok Hq l. unfold l, LimitsFromManifest. cbn [CPUCores MemoryBytes GPUCount TimeoutSec NetworkMode].
  rewrite Z.shiftl_mul_pow2, wrap64_id by (unfold max_int64; lia). split_and!; [lia..|done|]. intros ->. cbn [MaxMemoryGB DefaultQuota] in Qm.
  assert (Hc : 0 ≤ Z.quot (mMemoryGB m) 8 ≤ 16) by (rewrite Z.quot_div_nonneg by lia; split; [apply Z.div_pos; lia|apply Z.div_le_upper_bound; lia]).
  cbn [MaxCPUCores DefaultQuota]. rewrite fltb_exact, fleb_exact by lia. split; [apply Z.ltb_lt|apply Z.leb_le]; lia.
Qed.

(** The quota's cores are not looked at: 128 GB under a quota of two cores run
    on sixteen. *)
Definition two_core_quota : Quota := MkQuota (of_Z 2) 128 4 3600.
Definition big_manifest : Manifest := MkManifest "clip" "1" "python:3" "main.py" false 0 128 60 DataParallel.
Lemma cpu_quota_not_enforced : checkShape big_manifest = Ok tt ∧ Validate big_manifest two_core_quota = Ok tt ∧
  fltb (MaxCPUCores two_core_quota) (CPUCores (LimitsFromManifest big_manifest)) = true.
Proof. vm_compute. done. Qed.

(** ** The store *)

(** [None] is the zero time. *)
Record Algorithm := MkAlgorithm {
  Name : string; Version : string; Owner : string; ImageRef : string; Digest : string; AManifest : Manifest; CreatedAt : option Z }.
Record AlgoRow := MkAlgoRow {
  cName : string; cVersion : string; cOwner : string; cImageRef : string; cDigest : string; cManifest : string; cCreatedAt : Z }.
Definition Table := list AlgoRow.

Class AlgoCodec := {
  marshalManifest : Manifest → result string;
  decodeManifest : string → result Manifest;
  manifest_roundtrip m s : marshalManifest m = Ok s → decodeManifest s = Ok m }.

Section store.
Context {codec : AlgoCodec}.

Definition Register (fault : option string) (now : Z) (a : Algorithm) (t : Table) : result unit * Table :=
  match marshalManifest (AManifest a) with
  | Err e => (Err ("marshal manifest: " +:+ e), t)
  | Ok manifest =>
      let created := default now (CreatedAt a) in
      let wrap e := "register " +:+ Name a +:+ "@" +:+ Version a +:+ ": " +:+ e in
      match fault with
      | Some e => (Err (wrap e), t)
      | None =>
          if existsb (λ c, bool_decide (cName c = Name a ∧ cVersion c = Version a)) t
          then (Err (wrap "UNIQUE constraint failed: algorithms.name, algorithms.version"), t)
          else (Ok tt, t ++ [MkAlgoRow (Name a) (Version a) (Owner a) (ImageRef a) (Digest a) manifest created])
      end
  end.

Definition scanAlgorithm (c : AlgoRow) : result Algorithm :=
  match decodeManifest (cManifest c) with
  | Err e => Err ("decode stored manifest: " +:+ e)
  | Ok m => Ok (MkAlgorithm (cName c) (cVersion c) (cOwner c) (cImageRef c) (cDigest c) m (Some (cCreatedAt c)))
  end.

Definition is_version (name version : string) (c : AlgoRow) : bool := bool_decide (cName c = name ∧ cVersion c = version).
Definition Get (fault : option string) (name version : string) (t : Table) : result Algorithm :=
  match fault with
  | Some e => Err e
  | None =>
      match find (is_version name version) t with
      | None => Err ("algorithm " +:+ name +:+ "@" +:+ version +:+ " not found")
      | Some c => scanAlgorithm c
      end
  end.

(** The loop over the rows. *)
Fixpoint scan_all (rows : Table) : result (list Algorithm) :=
  match rows with
  | [] => Ok []
  | c :: rows => try a ← scanAlgorithm c; try l ← scan_all rows; Ok (a :: l)
  end.

Definition newer (a b : AlgoRow) : Prop := cCreatedAt b ≤ cCreatedAt a.
#[export] Instance newer_dec : RelDecision newer := λ a b, decide (cCreatedAt b ≤ cCreatedAt a).
Definition List_ (fault : option string) (t : Table) : result (list Algorithm) :=
  match fault with
  | Some e => Err ("list algorithms: " +:+ e)
  | None => scan_all (merge_sort newer t)
  end.
Definition ListVersions (fault : option string) (name : string) (t : Table) : result (list Algorithm) :=
  match fault with
  | Some e => Err ("list versions of " +:+ name +:+ ": " +:+ e)
  | None => scan_all (merge_sort newer (filter (λ c, cName c = name) t))
  end.

(** *** Versions never change *)

(** What happens to the store: attempts to register. *)
Record attempt := MkAttempt { tFault : option string; tNow : Z; tAlgo : Algorithm }.
Definition attempts (l : list attempt) (t : Table) : Table := foldl (λ t x, (Register (tFault x) (tNow x) (tAlgo x) t).2) t l.

Lemma register_cases fault now a t : (∃ e, Register fault now a t = (Err e, t)) ∨
  (∃ s, marshalManifest (AManifest a) = Ok s ∧ find (is_version (Name a) (Version a)) t = None ∧
     Register fault now a t = (Ok tt, t ++ [MkAlgoRow (Name a) (Version a) (Owner a) (ImageRef a) (Digest a) s (default now (CreatedAt a))])).
Proof.
  unfold Register. destruct (marshalManifest _) as [s|e]; [|left; by eexists]. destruct fault; [left; by eexists|].
  destruct (existsb _ t) eqn:Ee; [left; by eexists|]. right. exists s. split_and!; [done| |done].
  destruct (find _ t) as [c|] eqn:Ef; [|done]. exfalso. apply find_some in Ef as [Hc Hb]. apply not_true_iff_false in Ee. apply Ee.
  apply existsb_exists. by exists c.
Qed.

Lemma find_app_l {A} (f : A → bool) l l' x : find f l = Some x → find f (l ++ l') = Some x.
Proof. induction l as [|y l IH]; [done|]. cbn. destruct (f y); auto. Qed.
Lemma find_app_r {A} (f : A → bool) l l' : find f l = None → find f (l ++ l') = find f l'.
Proof. induction l as [|y l IH]; [done|]. cbn. destruct (f y); [done|]. auto. Qed.

Lemma attempts_keep l : ∀ t f c, find f t = Some c → find f (attempts l t) = Some c.
Proof.
  induction l as [|x l IH]; intros t f c Hf; [done|]. apply IH.
  destruct (register_cases (tFault x) (tNow x) (tAlgo x) t) as [[e ->]|(s & _ & _ & ->)]; [done|]. by apply find_app_l.
Qed.

(** A version that was registered is read back as it was registered,
    whatever is attempted afterwards; registering it again is refused, so the
    code behind a job cannot change under it. *)
Theorem versions_are_immutable fault now a t t' : Register fault now a t = (Ok tt, t') → ∀ later,
  Get None (Name a) (Version a) (attempts later t') =
    Ok (MkAlgorithm (Name a) (Version a) (Owner a) (ImageRef a) (Digest a) (AManifest a) (Some (default now (CreatedAt a)))) ∧
  ∀ fault' now' a', Name a' = Name a → Version a' = Version a → ∃ e, Register fault' now' a' (attempts later t') = (Err e, attempts later t').
Proof.
  intros Hr later. destruct (register_cases fault now a t) as [[e He]|(s & Hs & Hn & Hc)]; [congruence|].
  rewrite Hr in Hc. injection Hc as ->.
  set (row := MkAlgoRow (Name a) (Version a) (Owner a) (ImageRef a) (Digest a) s (default now (CreatedAt a))).
  assert (Hf : find (is_version (Name a) (Version a)) (attempts later (t ++ [row])) = Some row).
  { apply attempts_keep. rewrite find_app_r by done. cbn. unfold is_version. cbn. by rewrite bool_decide_eq_true_2. }
  split; [unfold Get; rewrite Hf; unfold scanAlgorithm; cbn; by rewrite (manifest_roundtrip _ _ Hs)|].
  intros fault' now' a' En Ev. destruct (register_cases fault' now' a' (attempts later (t ++ [row]))) as [?|(s' & _ & Hn' & _)]; [done|].
  rewrite En, Ev, Hf in Hn'. done.
Qed.

(** *** Listing *)

Definition registered (l : list attempt) : Table := attempts l [].

Lemma registered_unique l : NoDup ((λ c, (cName c, cVersion c)) <$> registered l).
Proof.
  unfold registered. assert (H : NoDup ((λ c, (cName c, cVersion c)) <$> ([] : Table))) by constructor. revert H. generalize ([] : Table).
  induction l as [|x l IH]; intros t Ht; [done|]. apply IH.
  destruct (register_cases (tFault x) (tNow x) (tAlgo x) t) as [[e ->]|(s & _ & Hn & ->)]; [done|]. cbn. rewrite fmap_app. apply NoDup_app.
  split_and!; [done| |apply NoDup_singleton]. intros k (c & -> & Hc)%list_elem_of_fmap Hk%list_elem_of_singleton.
  pose proof (find_none _ _ Hn c (proj1 (list_elem_of_In _ _) Hc)) as Hv. unfold is_version in Hv. apply bool_decide_eq_false in Hv. apply Hv.
  by injection Hk.
Qed.

Lemma scan_all_ok rows : Forall (λ c, is_ok (scanAlgorithm c) = true) rows →
  ∃ l, scan_all rows = Ok l ∧ Forall2 (λ c a, scanAlgorithm c = Ok a) rows l.
Proof.
  induction 1 as [|c rows Hc _ (l & IH & Hl)]; [by exists []|]. cbn. destruct (scanAlgorithm c) as [a|] eqn:Ea; [|done]. cbn. rewrite IH. cbn.
  exists (a :: l). split; [done|]. by constructor.
Qed.

Lemma registered_decodes l : Forall (λ c, is_ok (scanAlgorithm c) = true) (registered l).
Proof.
  unfold registered. assert (H : Forall (λ c, is_ok (scanAlgorithm c) = true) []) by constructor. revert H. generalize ([] : Table).
  induction l as [|x l IH]; intros t Ht; [done|]. apply IH.
  destruct (register_cases (tFault x) (tNow x) (tAlgo x) t) as [[e ->]|(s & Hs & _ & ->)]; [done|]. cbn. apply Forall_app. split; [done|].
  constructor; [|done]. unfold scanAlgorithm. cbn. by rewrite (manifest_roundtrip _ _ Hs).
Qed.

(** Listing the versions of an algorithm returns every registered version of
    that name, each once, the newest first. *)
Theorem versions_are_listed l name : ∃ out, ListVersions None name (registered l) = Ok out ∧
  ((λ a, (Name a, Version a)) <$> out) ≡ₚ (λ c, (cName c, cVersion c)) <$> filter (λ c, cName c = name) (registered l) ∧
  NoDup ((λ a, (Name a, Version a)) <$> out) ∧
  StronglySorted (λ a b, default 0 (CreatedAt b) ≤ default 0 (CreatedAt a)) out.
Proof.
  unfold ListVersions. set (rows := filter (λ c, cName c = name) (registered l)). set (sorted := merge_sort newer rows).
  assert (Hp : sorted ≡ₚ rows) by apply merge_sort_Permutation.
  assert (Hs : StronglySorted newer sorted) by (apply StronglySorted_merge_sort; unfold newer; intros ?*; lia).
  destruct (scan_all_ok sorted) as (out & Ho & Hl).
  { rewrite Hp. unfold rows. apply Forall_forall. intros c [_ Hc]%list_elem_of_filter. by apply (proj1 (Forall_forall _ _) (registered_decodes l)). }
  assert (Hk : (λ a, (Name a, Version a)) <$> out = (λ c, (cName c, cVersion c)) <$> sorted).
  { clear -Hl. induction Hl as [|c a rs out Hc _ IH]; [done|]. cbn. rewrite IH. f_equal. unfold scanAlgorithm in Hc. case_match; by simplify_eq. }
  exists out. split_and!; [done|by rewrite Hk, Hp| |].
  - rewrite Hk, Hp. eapply sublist_NoDup; [apply (registered_unique l)|apply fmap_sublist, sublist_filter].
  - clear -Hs Hl. clearbody sorted. revert Hs. induction Hl as [|c a rs out Hc Hl IH]; intros Hs; [constructor|]. inversion Hs as [|? ? Hs' Hf]; subst.
    constructor; [by apply IH|]. clear IH Hs Hs'. induction Hl as [|d b rs out Hd Hl IH]; [constructor|]. inversion Hf; subst.
    constructor; [|by apply IH]. unfold scanAlgorithm in Hc, Hd. repeat case_match; simplify_eq. done.
Qed.
End store.

(** ** Examples *)

#[local, refine] Instance one_manifest : AlgoCodec := {|
  marshalManifest m := Ok (string_of_bytes (pos_bytes (encode (mName m, mVersion m, mBaseImage m, mEntrypoint m, mGPURequired m, (mGPUCount m, mMemoryGB m, mTimeoutSec m, mParallelism m)))));
  decodeManifest s := match bytes_pos (bytes_of_string s) ≫= decode with
    | Some (a, b, c, d, e, (f, g, h, i)) => Ok (MkManifest a b c d e f g h i) | None => Err "unexpected end of JSON input" end |}.
Proof. intros [] s [= <-]. cbn. rewrite bytes_of_string_of_bytes, bytes_pos_bytes. cbn. by rewrite decode_encode. Defined.

Definition algo (version owner : string) : Algorithm := MkAlgorithm "clip" version owner "reg/clip:1" "abc" big_manifest None.

Lemma limits_within_quota_witness : 0 < MemoryBytes (LimitsFromManifest big_manifest) ≤ 128 * 2 ^ 30 ∧
  fleb (CPUCores (LimitsFromManifest big_manifest)) (MaxCPUCores DefaultQuota) = true.
Proof.
  destruct (limits_within_quota big_manifest DefaultQuota) as (H1 & _ & _ & _ & H2); [vm_compute; reflexivity..|vm_compute; discriminate|].
  split; [exact H1|apply H2; reflexivity].
Defined.

Lemma versions_are_immutable_witness :
  let t := (Register None 5 (algo "1" "ann") []).2 in
  Get None "clip" "1" (attempts [MkAttempt None 6 (algo "1" "eve"); MkAttempt None 7 (algo "2" "ann")] t) =
    Ok (MkAlgorithm "clip" "1" "ann" "reg/clip:1" "abc" big_manifest (Some 5)).
Proof.
  intros t. apply (versions_are_immutable None 5 (algo "1" "ann") [] t). vm_compute. reflexivity.
Defined.
