(* ===== verification/CoordCommit.v ===== *)
(** * The coordinator's side of the commit protocol

    [coordinator.go] storeCommitter, [raft.go] raftCommitDecider, [effect.go]
    completionSink, [internal/effect] MemLedger: the implementations of the
    three interfaces of Commit.v, that they keep its promises, and what the
    whole then guarantees.

    The ledger and the replicated commit ledger outlive the coordinator
    process here: the in-memory [MemLedger] of a coordinator that restarts
    does not, as its comment says. *)
From S2P Require Import Prelude GoLib Storage Ring Job Keys Scheduler SchedInv Tiling SchedSteps.
From S2P Require Import Accounting Persist Consensus Commit.
Open Scope Z_scope.

(** ** The idempotency ledger (internal/effect/effect.go) *)

Notation MemLedger := (gset string).
Definition NewMemLedger : MemLedger := ∅.

(** [Claim]: whether this call is the first for the key. *)
Definition Claim (key : string) (m : MemLedger) : bool * MemLedger :=
  if bool_decide (key ∈ m) then (false, m) else (true, {[key]} ∪ m).

Definition ledger_Len (m : MemLedger) : nat := size m.

(** ** The world of a coordinator *)

Record CompletionEvent := MkEvent { evKey : string; evTaskID : string; evJobID : string; evFinalKey : string }.

Record CoordWorld (B : Type) := MkWorld {
  cwBucket : B; cwNode : NodeState CommitFSM; cwProposed : list (list byte);
  cwLedger : MemLedger; cwEvents : list CompletionEvent }.
Arguments MkWorld {B} _ _ _ _ _.
Arguments cwBucket {B} _.
Arguments cwNode {B} _.
Arguments cwProposed {B} _.
Arguments cwLedger {B} _.
Arguments cwEvents {B} _.
#[export] Instance eta_CoordWorld B : Eta (CoordWorld B) := λ w,
  MkWorld (cwBucket w) (cwNode w) (cwProposed w) (cwLedger w) (cwEvents w).

Section implementations.
Context {B : Type} `{ObjectStore B, CommandCodec}.
(** The downstream's answer to an event: [None], or an error. *)
Context (emit : CompletionEvent → option string).

(** [storeCommitter.Commit]: a failed clean-up of the staging object is
    logged and ignored. *)
Definition store_commit (stagingKey finalKey : string) (w : CoordWorld B) : result unit * CoordWorld B :=
  match os_copy (cwBucket w) stagingKey finalKey with
  | None => (Err ("copy " +:+ stagingKey +:+ " -> " +:+ finalKey), w)
  | Some b =>
      match os_delete b stagingKey with
      | Some b' => (Ok tt, w <| cwBucket := b' |>)
      | None => (Ok tt, w <| cwBucket := b |>)
      end
  end.

(** What a waiting [Decide] meets: a tick of its timer, at which the node
    leads or not and before which entries were applied, or the deadline. *)
Inductive wait_event :=
| Tick (leader : bool) (ents : list Entry)
| Deadline (msg : string).
Record DecideEnv := MkEnv {
  deLeader : bool; dePropose : option string; deApplied : list Entry; deEvents : list wait_event }.

Definition fromRecord (r : CommitCommand) : CommitDecision :=
  MkDecision (ccTaskID r) (ccJobID r) (ccGeneration r) (ccFinalKey r).
Definition to_command (d : CommitDecision) : CommitCommand :=
  MkCommand (cdTaskID d) (cdJobID d) (cdGeneration d) (cdFinalKey d).

(** A record of this attempt or a newer one. *)
Definition recorded (d : CommitDecision) (f : CommitFSM) : option CommitDecision :=
  match Committed (cdTaskID d) f with
  | Some rec => if cdGeneration d <=? ccGeneration rec then Some (fromRecord rec) else None
  | None => None
  end.

(** The wait loop; it re-proposes at every tick at which the node leads. *)
Fixpoint decide_loop (d : CommitDecision) (evs : list wait_event) (w : CoordWorld B)
    : option (result CommitDecision) * CoordWorld B :=
  match recorded d (nFsm (cwNode w)) with
  | Some winner => (Some (Ok winner), w)
  | None =>
      match evs with
      | [] => (None, w)
      | Deadline msg :: _ =>
          (Some (Err ("coordinator: commit task " +:+ cdTaskID d +:+ " not agreed before deadline: " +:+ msg)), w)
      | Tick leader ents :: evs' =>
          let w := if leader then w <| cwProposed := cwProposed w ++ [Encode (to_command d)] |> else w in
          decide_loop d evs' (w <| cwNode := apply_log (cwNode w) ents |>)
      end
  end.

Definition raft_decide (env : DecideEnv) (d : CommitDecision) (w : CoordWorld B)
    : option (result CommitDecision) * CoordWorld B :=
  match recorded d (nFsm (cwNode w)) with
  | Some winner => (Some (Ok winner), w)
  | None =>
      if negb (deLeader env)
      then (Some (Err ("coordinator: not raft leader; cannot commit task " +:+ cdTaskID d)), w)
      else
        match dePropose env with
        | Some e => (Some (Err ("coordinator: propose commit task " +:+ cdTaskID d +:+ ": " +:+ e)), w)
        | None =>
            let w := w <| cwProposed := cwProposed w ++ [Encode (to_command d)] |> in
            decide_loop d (deEvents env) (w <| cwNode := apply_log (cwNode w) (deApplied env) |>)
        end
  end.

(** [completionSink.Apply]: the claim is made before the event is emitted. *)
Definition sink_apply (key : string) (d : CommitDecision) (w : CoordWorld B) : result unit * CoordWorld B :=
  let '(won, ledger) := Claim key (cwLedger w) in
  let w := w <| cwLedger := ledger |> in
  if negb won then (Ok tt, w)
  else
    let ev := MkEvent key (cdTaskID d) (cdJobID d) (cdFinalKey d) in
    match emit ev with
    | None => (Ok tt, w <| cwEvents := cwEvents w ++ [ev] |>)
    | Some e => (Err e, w)
    end.

(** ** They keep the promises of Commit.v *)

Definition is_staging (k : string) : Prop := String.prefix "staging/" k = true.

(** Workers put objects under staging keys, and the cluster commits
    entries. *)
Definition others (w w' : CoordWorld B) : Prop :=
  (∀ k, ¬ is_staging k → os_get (cwBucket w') k = os_get (cwBucket w) k) ∧
  (∃ ents, cwNode w' = apply_log (cwNode w) ents) ∧
  cwLedger w' = cwLedger w ∧ cwEvents w' = cwEvents w.

Definition is_agreed (w : CoordWorld B) (d : CommitDecision) : Prop :=
  ∃ rec, nFsm (cwNode w) !! cdTaskID d = Some rec ∧ cdGeneration d ≤ ccGeneration rec.

Lemma agreed_log n ents task rec :
  nFsm n !! task = Some rec →
  ∃ rec', nFsm (apply_log n ents) !! task = Some rec' ∧ ccGeneration rec ≤ ccGeneration rec'.
Proof.
  intros Hrec. rewrite apply_log_commands.
  destruct (commands_fenced (commands ents) _ _ _ Hrec) as (rec' & Hrec' & Hor).
  exists rec'. split; [done|]. destruct Hor as [->|?]; lia.
Qed.

Lemma recorded_agreed d w winner :
  recorded d (nFsm (cwNode w)) = Some winner → is_agreed w d.
Proof.
  unfold recorded, Committed. destruct (nFsm (cwNode w) !! cdTaskID d) as [rec|] eqn:E; [|done].
  destruct (Z.leb_spec (cdGeneration d) (ccGeneration rec)); [|done]. intros _. by exists rec.
Qed.

(** The loop moves the node along the log and appends proposals. *)
Lemma decide_loop_spec d evs w :
  ∃ ents props, (decide_loop d evs w).2 =
    w <| cwNode := apply_log (cwNode w) ents |> <| cwProposed := cwProposed w ++ props |> ∧
    ∀ winner, (decide_loop d evs w).1 = Some (Ok winner) →
      recorded d (nFsm (cwNode (decide_loop d evs w).2)) = Some winner.
Proof.
  revert w. induction evs as [|ev evs IH]; intros w; simpl.
  - exists [], []. destruct (recorded d _) eqn:E; simpl; rewrite app_nil_r; destruct w; simpl in *;
      (split; [done|]); intros winner [=]; by subst.
  - destruct (recorded d (nFsm (cwNode w))) as [winner|] eqn:E.
    { exists [], []. simpl. rewrite app_nil_r. destruct w; simpl in *. split; [done|]. by intros ? [= <-]. }
    destruct ev as [leader ents|msg].
    + set (w1 := if leader then _ else w).
      destruct (IH (w1 <| cwNode := apply_log (cwNode w1) ents |>)) as (ents' & props & Ew & Hwin).
      exists (ents ++ ents'), ((if leader then [Encode (to_command d)] else []) ++ props).
      split; [|done]. rewrite Ew, apply_log_app.
      unfold w1. destruct leader; simpl; by rewrite <- ?(assoc_L (++)).
    + exists [], []. simpl. rewrite app_nil_r. destruct w; simpl. by split.
Qed.

Lemma raft_decide_spec env d w :
  ∃ ents props, (raft_decide env d w).2 =
    w <| cwNode := apply_log (cwNode w) ents |> <| cwProposed := cwProposed w ++ props |> ∧
    ∀ winner, (raft_decide env d w).1 = Some (Ok winner) →
      recorded d (nFsm (cwNode (raft_decide env d w).2)) = Some winner.
Proof.
  assert (w = w <| cwNode := apply_log (cwNode w) [] |> <| cwProposed := cwProposed w ++ [] |>) as Hw.
  { rewrite app_nil_r. by destruct w. }
  unfold raft_decide. destruct (recorded d (nFsm (cwNode w))) as [winner|] eqn:E.
  { exists [], []. split; [exact Hw|]. by intros ? [= <-]. }
  destruct (deLeader env); simpl; [|exists [], []; split; [exact Hw|done]].
  destruct (dePropose env); [exists [], []; split; [exact Hw|done]|].
  match goal with |- context [decide_loop d _ ?w1] =>
    destruct (decide_loop_spec d (deEvents env) w1) as (ents & props & Ew & Hwin) end.
  exists (deApplied env ++ ents), ([Encode (to_command d)] ++ props). split; [|done].
  rewrite Ew, apply_log_app. simpl. by rewrite <- (assoc_L (++)).
Qed.

Definition world_grows (w w' : CoordWorld B) : Prop :=
  (∀ k, ¬ is_staging k → is_Some (os_get (cwBucket w) k) → is_Some (os_get (cwBucket w') k)) ∧
  (∀ d, is_agreed w d → is_agreed w' d) ∧ (∀ k, k ∈ cwLedger w → k ∈ cwLedger w').

Lemma store_commit_grows src dst w : is_staging src → world_grows w (store_commit src dst w).2.
Proof.
  intros Hsrc. unfold store_commit. destruct (os_copy (cwBucket w) src dst) as [b|] eqn:Ec; [|done].
  assert (∀ k, is_Some (os_get (cwBucket w) k) → is_Some (os_get b k)) as Hb.
  { intros k Hk. destruct (decide (k = dst)) as [->|Hne].
    - rewrite (os_copy_dst _ _ _ _ Ec). by eapply os_copy_src.
    - by rewrite (os_copy_other _ _ _ _ _ Ec Hne). }
  destruct (os_delete b src) as [b'|] eqn:Ed; simpl; split_and!; try done; simpl; intros k Hns Hk.
  - rewrite (os_delete_other _ _ _ _ Ed) by (intros ->; done). by apply Hb.
  - by apply Hb.
Qed.

Lemma store_commit_visible src dst w w' :
  store_commit src dst w = (Ok tt, w') → src ≠ dst → is_Some (os_get (cwBucket w') dst).
Proof.
  unfold store_commit. intros Hc Hne. destruct (os_copy (cwBucket w) src dst) as [b|] eqn:Ec; [|done].
  assert (is_Some (os_get b dst)) as Hb by (rewrite (os_copy_dst _ _ _ _ Ec); by eapply os_copy_src).
  destruct (os_delete b src) as [b'|] eqn:Ed; simplify_eq; simpl; [|done].
  by rewrite (os_delete_other _ _ _ _ Ed) by congruence.
Qed.

Lemma decide_world_grows env d w : world_grows w (raft_decide env d w).2.
Proof.
  destruct (raft_decide_spec env d w) as (ents & props & -> & _). split_and!; try done.
  intros d' (rec & Hrec & Hle). destruct (agreed_log (cwNode w) ents _ _ Hrec) as (rec' & Hrec' & ?).
  exists rec'. split; [done|lia].
Qed.

Lemma sink_grows key d w : world_grows w (sink_apply key d w).2.
Proof.
  unfold sink_apply, Claim. case_bool_decide; simpl; [by destruct w|].
  destruct (emit _); split_and!; try done; simpl; set_solver.
Qed.

Lemma sink_delivered key d w w' : sink_apply key d w = (Ok tt, w') → key ∈ cwLedger w'.
Proof.
  unfold sink_apply, Claim. case_bool_decide as Hk; simpl.
  - intros [= <-]. by destruct w.
  - destruct (emit _); intros; simplify_eq. simpl. set_solver.
Qed.

Lemma others_grows w w' : others w w' → world_grows w w'.
Proof.
  intros (Hb & (ents & En) & El & _). split_and!.
  - intros k Hk. by rewrite Hb.
  - intros d (rec & Hrec & Hle). destruct (agreed_log (cwNode w) ents _ _ Hrec) as (rec' & Hrec' & ?).
    exists rec'. rewrite En. split; [done|lia].
  - by rewrite El.
Qed.

Lemma FinalResultKey_not_staging jobID shard rng : ¬ is_staging (FinalResultKey jobID shard rng).
Proof. unfold is_staging, FinalResultKey. destruct (rgSplit rng); simpl; done. Qed.

#[export] Instance coord_world : CommitWorld (CoordWorld B) DecideEnv.
Proof.
  refine {| cw_commit := store_commit; cw_decide := raft_decide; cw_effect := sink_apply;
    cw_env := others; staging := is_staging; visible w k := is_Some (os_get (cwBucket w) k);
    agreed := is_agreed; delivered w k := k ∈ cwLedger w |}.
  - apply store_commit_grows.
  - apply store_commit_visible.
  - apply decide_world_grows.
  - intros env d d' w w' Hd. destruct (raft_decide_spec env d w) as (ents & props & _ & Hwin).
    unfold Decide in Hd. rewrite Hd in Hwin. by eapply recorded_agreed, Hwin.
  - apply sink_grows.
  - apply sink_delivered.
  - apply others_grows.
  - apply FinalResultKey_not_staging.
Defined.
End implementations.

(** ** One event per key *)

Section events.
Context {B : Type} `{ObjectStore B, CommandCodec}.
Context (emit : CompletionEvent → option string).
Existing Instance coord_world.

(** Events have distinct keys, all of them claimed; and every claimed key
    has its event when the downstream accepts every event. *)
Record events_ok (w : CoordWorld B) : Prop := {
  eo_nodup : NoDup (evKey <$> cwEvents w);
  eo_claimed : ∀ ev, ev ∈ cwEvents w → evKey ev ∈ cwLedger w;
  eo_emitted : (∀ ev, emit ev = None) → ∀ k, k ∈ cwLedger w → k ∈ (evKey <$> cwEvents w);
}.

Lemma events_same w w' :
  cwLedger w' = cwLedger w → cwEvents w' = cwEvents w → events_ok w → events_ok w'.
Proof. intros El Ee [H1 H2 H3]. split; rewrite ?El, ?Ee; done. Qed.

Lemma sink_events key d w : events_ok w → events_ok (sink_apply emit key d w).2.
Proof.
  intros [H1 H2 H3]. unfold sink_apply, Claim. case_bool_decide as Hk; simpl; [by destruct w|].
  destruct (emit _) eqn:Ee; simpl.
  - split; simpl; [done| |].
    + intros ev Hev. apply elem_of_union. right. by apply H2.
    + intros Hall. by rewrite Hall in Ee.
  - assert (key ∉ (evKey <$> cwEvents w)) as Hn.
    { intros ([ev] & -> & Hev)%list_elem_of_fmap. by apply H2 in Hev. }
    split; simpl.
    + rewrite fmap_app. apply NoDup_app. split_and!; [done| |apply NoDup_singleton].
      intros x Hx ->%list_elem_of_singleton. done.
    + intros ev [Hev| ->%list_elem_of_singleton]%elem_of_app; simpl; [|set_solver].
      apply elem_of_union. right. by apply H2.
    + intros Hall k [->%elem_of_singleton|Hin]%elem_of_union; rewrite fmap_app, elem_of_app; [right; set_solver|].
      left. by apply H3.
Qed.

Lemma call_step_events p env c w o w' :
  events_ok w → call_step (W := CoordWorld B) (E := DecideEnv) (H := coord_world emit) p env c w = (o, w') →
  events_ok w'.
Proof.
  intros Hw. unfold call_step. destruct (cPhase c) as [| |d|].
  - unfold report_commit. match goal with |- context [if ?b then _ else _] => destruct b end; [|by intros [= _ <-]].
    destruct (Commit _ _ w) as [r w1] eqn:Ec. unfold Commit, cw_commit, coord_world, store_commit in Ec.
    assert (events_ok w1) as Hw1.
    { repeat case_match; injection Ec as _ <-; by apply (events_same w). }
    destruct r as [[]|]; by intros [= _ <-].
  - unfold report_decide. match goal with |- context [if ?b then _ else _] => destruct b end; [|by intros [= _ <-]].
    destruct (Decide env _ w) as [r w1] eqn:Ed.
    destruct (raft_decide_spec env (decision_of (cAtt c)) w) as (ents & props & Ew & _).
    unfold Decide, cw_decide, coord_world in Ed. rewrite Ed in Ew. simpl in Ew.
    assert (events_ok w1) as Hw1 by (subst w1; by apply (events_same w)).
    destruct r as [[d|e]|]; by intros [= _ <-].
  - unfold report_effect. match goal with |- context [if ?b then _ else _] => destruct b end; [|by intros [= _ <-]].
    destruct (ApplyEffect _ d w) as [r w1] eqn:Ed.
    pose proof (sink_events (effect_key (cAtt c)) d w Hw) as Hw1.
    unfold ApplyEffect, cw_effect, coord_world in Ed. rewrite Ed in Hw1. simpl in Hw1.
    destruct r as [[]|]; by intros [= _ <-].
  - by intros [= _ <-].
Qed.

Lemma reachable_events {R} `{ShardOwner R} p mr w0 y :
  cwLedger w0 = ∅ → cwEvents w0 = [] →
  sys_reachable (R := R) (H := coord_world emit) p mr w0 y → events_ok (syWorld y).
Proof.
  intros Hl He. apply (sys_world_inv (H := coord_world emit) events_ok p mr w0 y).
  - split; rewrite ?Hl, ?He; [constructor|set_solver|set_solver].
  - intros w w' Hw (_ & _ & El & Ee). by apply (events_same w).
  - apply call_step_events.
Qed.
End events.

(** ** A concrete system: one job of one shard, reported once *)

#[export] Existing Instance enum_codec.

Definition demo_bucket : gmap string (list byte) := {["staging/job/t1.parquet" := bytes_of_string "rows"]}.
Definition demo_world : CoordWorld (gmap string (list byte)) :=
  MkWorld demo_bucket (MkNode NewCommitFSM 0) [] NewMemLedger [].
Definition all_attached : Attached := MkAttached true true true.
Definition accept (ev : CompletionEvent) : option string := None.
Definition demo_ok_req : ResultRequest := MkResult "w1" 10 100 "staging/job/t1.parquet" 1 "".
Definition demo_submit : op := OpSubmit 1 2 "job" ["t1"] (MkSubmit "ds" "dense" ∅ ["aa"] 5).
Definition demo_poll : op := OpPoll 3 ["t1"] "x" "w1".

(** The scheduler when the worker reports. *)
Definition demo_sched : Scheduler :=
  run_op (NewRing 1) demo_poll (run_op (NewRing 1) demo_submit (New 2)).

Definition demo_attempt : Attempt := MkAttempt "t1" demo_ok_req "job" "aa" (MkRange 0 (-1) false) 0.
Definition demo_agree : DecideEnv :=
  MkEnv true None (log_of [MkCommand "t1" "job" 0 (final_key demo_attempt)]) [].

#[local] Notation demo_W := (CoordWorld (gmap string (list byte))).
#[local] Instance demo_cw : CommitWorld demo_W DecideEnv := coord_world accept.

Definition demo_w1 : demo_W := (call_step all_attached demo_agree (MkCall demo_attempt PCommit) demo_world).2.
Definition demo_w2 : demo_W := (call_step all_attached demo_agree (MkCall demo_attempt PDecide) demo_w1).2.
Definition demo_w3 : demo_W :=
  (call_step all_attached demo_agree (MkCall demo_attempt (PEffect (decision_of demo_attempt))) demo_w2).2.
Definition demo_sys : System demo_W :=
  MkSys (report_finish 9 "t1" demo_ok_req demo_sched).2 demo_w3 [].

Lemma demo_submit_valid : valid_op demo_submit (New 2).
Proof.
  simpl. unfold submit_fresh. split_and!; first [done|apply NoDup_singleton|idtac];
    by intros tid ->%list_elem_of_singleton.
Qed.

Lemma demo_poll_valid : valid_op demo_poll (run_op (NewRing 1) demo_submit (New 2)).
Proof.
  split; [by vm_compute|]. intros id. rewrite list_elem_of_singleton.
  assert (tasks (run_op (NewRing 1) demo_submit (New 2)) = <["t1" := fresh_task (new_job 1 "job"
    (MkSubmit "ds" "dense" ∅ ["aa"] 5)) (New 2) "aa" "t1"]> ∅) as -> by done.
  rewrite lookup_insert. case_decide; [by split|]. rewrite lookup_empty. split; [congruence|by intros []].
Qed.

Definition demo_calls (ph : phase) : list Call := [MkCall demo_attempt ph].

Lemma demo_begun : sys_reachable (R := Ring) all_attached 2 demo_world
  (MkSys demo_sched demo_world (demo_calls PCommit)).
Proof.
  eapply sys_more; [|apply (sys_begin all_attached 2 "t1" demo_ok_req demo_attempt demo_sched demo_world []);
    [by vm_compute|by intros _]].
  eapply sys_more; [|apply (sys_sched all_attached 2 (NewRing 1) demo_poll _ demo_world []);
    [apply demo_poll_valid|done]].
  eapply sys_more; [apply sys_init|].
  apply (sys_sched all_attached 2 (NewRing 1) demo_submit _ demo_world []); [apply demo_submit_valid|done].
Qed.

Lemma demo_sys_reachable : sys_reachable (R := Ring) all_attached 2 demo_world demo_sys.
Proof.
  unfold demo_sys. eapply sys_more;
    [|apply (sys_finish all_attached 2 9 0 (MkCall demo_attempt PFinish) demo_sched demo_w3 (demo_calls PFinish)); done].
  eapply sys_more; [|apply (sys_call all_attached 2 demo_agree 0
    (MkCall demo_attempt (PEffect (decision_of demo_attempt))) PFinish demo_w3 demo_sched demo_w2
    (demo_calls (PEffect (decision_of demo_attempt)))); [done|by vm_compute]].
  eapply sys_more; [|apply (sys_call all_attached 2 demo_agree 0
    (MkCall demo_attempt PDecide) (PEffect (decision_of demo_attempt)) demo_w2 demo_sched demo_w1
    (demo_calls PDecide)); [done|by vm_compute]].
  eapply sys_more; [|apply (sys_call all_attached 2 demo_agree 0
    (MkCall demo_attempt PCommit) PDecide demo_w1 demo_sched demo_world (demo_calls PCommit)); [done|by vm_compute]].
  apply demo_begun.
Qed.

Lemma demo_sys_done : ∃ t, tasks (sySched demo_sys) !! "t1" = Some t ∧ tStatus t = TaskDone.
Proof. eexists. by vm_compute. Qed.


Lemma filter_once {A} (f : A → string) (l : list A) k :
  NoDup (f <$> l) → k ∈ (f <$> l) → length (filter (λ x, f x = k) l) = 1%nat.
Proof.
  induction l as [|x l IH]; intros Hnd Hk; [set_solver|].
  rewrite fmap_cons in *. apply NoDup_cons in Hnd as [Hx Hnd]. rewrite filter_cons.
  case_decide as E.
  - rewrite filter_none; [done|]. intros y Hy Hfy. apply Hx. rewrite E, <- Hfy. by apply list_elem_of_fmap_2.
  - apply IH; [done|]. apply elem_of_cons in Hk as [->|?]; [done|done].
Qed.



(** The Raft decision is fenced and idempotent: a decision that returns is
    the record of the task in the replicated ledger, of the proposed
    generation or a newer one, and deciding again in the resulting state
    returns the same winner without proposing anything. *)
Theorem decide_fenced_idempotent {B} `{ObjectStore B, CommandCodec} env env' d (w w' : CoordWorld B) winner :
  raft_decide env d w = (Some (Ok winner), w') →
  cdGeneration d ≤ cdGeneration winner ∧
  nFsm (cwNode w') !! cdTaskID d = Some (to_command winner) ∧
  raft_decide env' d w' = (Some (Ok winner), w').
Proof.
  intros Hdec. destruct (raft_decide_spec env d w) as (ents & props & _ & Hwin).
  rewrite Hdec in Hwin. specialize (Hwin winner eq_refl). simpl in Hwin.
  pose proof Hwin as Hrec. unfold recorded, Committed in Hrec.
  destruct (nFsm (cwNode w') !! cdTaskID d) as [rec|] eqn:E; [|done].
  destruct (Z.leb_spec (cdGeneration d) (ccGeneration rec)); [|done]. injection Hrec as <-. simpl.
  split_and!; [done|by destruct rec|]. unfold raft_decide. by rewrite Hwin.
Qed.

Lemma decide_fenced_idempotent_witness :
  cdGeneration (decision_of demo_attempt) ≤ 0 ∧
  raft_decide (MkEnv false None [] []) (decision_of demo_attempt) demo_w2
    = (Some (Ok (decision_of demo_attempt)), demo_w2).
Proof.
  destruct (decide_fenced_idempotent demo_agree (MkEnv false None [] []) (decision_of demo_attempt) demo_w1
    demo_w2 (decision_of demo_attempt) ltac:(by vm_compute)) as (Hg & _ & Hagain).
  exact (conj Hg Hagain).
Defined.

(** ** What does not hold *)

(** The commit is not idempotent: because the staging object is deleted
    once it is copied, promoting the same staged output again fails, although
    its final object is there. *)
Theorem commit_not_idempotent src dst (w w' : CoordWorld (gmap string (list byte))) :
  store_commit src dst w = (Ok tt, w') → src ≠ dst →
  is_Some (os_get (cwBucket w') dst) ∧ ∃ e, store_commit src dst w' = (Err e, w').
Proof.
  intros Hc Hne. split; [by eapply store_commit_visible|].
  unfold store_commit in *. simpl in *.
  destruct (cwBucket w !! src) as [v|]; simpl in Hc; [|done]. injection Hc as <-. simpl.
  rewrite lookup_delete_eq. simpl. by eexists.
Qed.

Lemma commit_not_idempotent_witness :
  ∃ e, store_commit "staging/job/t1.parquet" "results/job/aa.parquet" demo_w1 = (Err e, demo_w1).
Proof.
  apply (commit_not_idempotent "staging/job/t1.parquet" "results/job/aa.parquet" demo_world demo_w1);
    [by vm_compute|done].
Defined.

(** A report that cannot be decided (the node does not lead), repeated once
    it can. *)
Definition undecided : option (result unit) * (Scheduler * demo_W) :=
  ReportResult all_attached (MkEnv false None [] []) 9 "t1" demo_ok_req demo_sched demo_world.

(** So a report that fails after its output was promoted cannot be
    repeated: when the coordinator does not lead, the report is refused, and
    the same report sent again once it leads is refused for the missing
    staging object; the task stays assigned. *)
Theorem refused_report_cannot_be_repeated :
  let again := ReportResult all_attached demo_agree 10 "t1" demo_ok_req undecided.2.1 undecided.2.2 in
  is_ok <$> undecided.1 = Some false ∧ is_ok <$> again.1 = Some false ∧
  (tStatus <$> tasks again.2.1 !! "t1") = Some TaskAssigned ∧
  is_Some (os_get (cwBucket again.2.2) (final_key demo_attempt)).
Proof. split_and!; [by vm_compute..|]. eexists. by vm_compute. Qed.

(** An event whose delivery fails is lost: the key stays claimed, so the
    next delivery of the same effect reports success without emitting. *)
Theorem failed_emit_is_lost {B} `{ObjectStore B} (emit : CompletionEvent → option string) key d
    (w w1 : CoordWorld B) e :
  sink_apply emit key d w = (Err e, w1) →
  cwEvents w1 = cwEvents w ∧ ∀ emit', sink_apply emit' key d w1 = (Ok tt, w1).
Proof.
  unfold sink_apply, Claim. case_bool_decide as Hk; [done|]. simpl.
  destruct (emit _) as [e'|]; [|done]. intros [= _ <-]. simpl. split; [done|]. intros emit'.
  rewrite bool_decide_true by set_solver. simpl. by destruct w.
Qed.

Lemma failed_emit_is_lost_witness :
  ∃ w1 : demo_W, cwEvents w1 = [] ∧ ∀ emit', sink_apply emit' "k" (decision_of demo_attempt) w1 = (Ok tt, w1).
Proof.
  eexists. apply (failed_emit_is_lost (λ _, Some "down") "k" (decision_of demo_attempt) demo_world _ "down").
  reflexivity.
Defined.
