(* ===== verification/Wal.v ===== *)
(** * The write-ahead log (internal/pipeline/checkpoint.go)

    Framing, appends, checkpoints and recovery, over a model of the disk in
    which what was not fsynced may be lost, wholly or in part, in a crash. *)
From S2P Require Import Prelude GoLib.
Open Scope Z_scope.

(** ** Frames *)

Definition frameHeaderLen : nat := 8.

Definition frame (seq : Z) (payload : list byte) : list byte :=
  let body := be_bytes 8 seq ++ payload in
  be_bytes 4 (wrapu 32 (Z.of_nat (length body))) ++ be_bytes 4 (Crc32.checksum body) ++ body.

(** [readFrame]: sequence number, payload and bytes consumed. *)
Definition readFrame (data : list byte) : result (Z * list byte * nat) :=
  if (length data <? frameHeaderLen)%nat then Err "unexpected EOF"
  else
    let bodyLen := be_val (take 4 data) in
    let want := be_val (take 4 (drop 4 data)) in
    let end_ := (frameHeaderLen + Z.to_nat bodyLen)%nat in
    if (bodyLen <? 8) || (length data <? end_)%nat then Err "unexpected EOF"
    else
      let body := drop frameHeaderLen (take end_ data) in
      if negb (Crc32.checksum body =? want) then Err "crc mismatch"
      else Ok (be_val (take 8 body), drop 8 body, end_).

(** ** The disk *)

(** Operations on a file that are not yet on stable storage, oldest first. *)
Inductive write := WAppend (data : list byte) | WTruncate.
Record File := MkFile { fDur : list byte; fPend : list write }.

Definition apply_write (data : list byte) (w : write) : list byte :=
  match w with WAppend l => data ++ l | WTruncate => [] end.

(** The content a reader of the file sees. *)
Definition file_view (f : File) : list byte := foldl apply_write (fDur f) (fPend f).
Definition file_write (w : write) (f : File) : File := MkFile (fDur f) (fPend f ++ [w]).
Definition file_sync (f : File) : File := MkFile (file_view f) [].
Definition stable (data : list byte) : File := MkFile data [].

(** What a crash may leave of the file: its writes up to some point, an
    append possibly cut short. *)
Inductive file_crash : File → list byte → Prop :=
| crash_prefix dur pend k : file_crash (MkFile dur pend) (foldl apply_write dur (take k pend))
| crash_torn dur pend k data n :
    pend !! k = Some (WAppend data) → (n < length data)%nat →
    file_crash (MkFile dur pend) (foldl apply_write dur (take k pend) ++ take n data).

(** The directory of the WAL: its log, its snapshot and the snapshot's
    temporary; [dSnapDur] is the snapshot's directory entry as of the last
    fsync of the directory. *)
Record Disk := MkDisk { dLog : option File; dTmp : option File; dSnap : option File; dSnapDur : option File }.
#[export] Instance eta_Disk : Eta Disk := λ d, MkDisk (dLog d) (dTmp d) (dSnap d) (dSnapDur d).

Definition empty_disk : Disk := MkDisk None None None None.

(** Nothing survives of a file that was not there. *)
Definition opt_crash (f f' : option File) : Prop :=
  match f, f' with
  | None, None => True
  | Some f, Some f' => ∃ data, file_crash f data ∧ f' = stable data
  | _, _ => False
  end.

Definition disk_crash (d d' : Disk) : Prop :=
  opt_crash (dLog d) (dLog d') ∧
  (opt_crash (dSnap d) (dSnap d') ∨ opt_crash (dSnapDur d) (dSnap d')) ∧ dSnapDur d' = dSnap d'.

(** ** The log *)

(** An open WAL: the sequence number of the last record; the paths are fixed. *)
Record WAL := MkWAL { wSeq : Z }.
Record Recovery := MkRecovery { rcSnapshot : option (list byte); rcRecords : list (list byte) }.

Definition readSnapshot (d : Disk) : result (option (list byte) * Z) :=
  match dSnap d with
  | None => Ok (None, 0)
  | Some f =>
      match readFrame (file_view f) with
      | Err e => Err ("wal: corrupt snapshot: " +:+ e)
      | Ok (seq, payload, _) => Ok (Some payload, seq)
      end
  end.

(** The scan of [recoverLog]: every iteration consumes at least a header and
    a sequence number, so the length of the log is enough fuel.  The result is
    the records newer than the snapshot, the highest sequence number seen, and
    the offset at which the scan stopped. *)
Fixpoint recover_loop (fuel : nat) (snapSeq : Z) (data : list byte) (off : nat)
    (records : list (list byte)) (maxSeq : Z) : list (list byte) * Z * nat :=
  match fuel with
  | O => (records, maxSeq, off)
  | S fuel =>
      if (off <? length data)%nat then
        match readFrame (drop off data) with
        | Err _ => (records, maxSeq, off)
        | Ok (seq, payload, n) =>
            recover_loop fuel snapSeq data (off + n)
              (if seq >? snapSeq then records ++ [payload] else records)
              (if seq >? maxSeq then seq else maxSeq)
        end
      else (records, maxSeq, off)
  end.

(** [recoverLog]: a torn tail is cut off the log. *)
Definition recoverLog (snapSeq : Z) (d : Disk) : list (list byte) * Z * Disk :=
  match dLog d with
  | None => ([], 0, d)
  | Some f =>
      let data := file_view f in
      let '(records, maxSeq, off) := recover_loop (length data) snapSeq data 0 [] 0 in
      if (off <? length data)%nat
      then (records, maxSeq, d <| dLog := Some (stable (take off data)) |>)
      else (records, maxSeq, d)
  end.

(** [OpenWAL]; opening with [O_CREATE] makes the log exist. *)
Definition OpenWAL (d : Disk) : result (WAL * Recovery) * Disk :=
  match readSnapshot d with
  | Err e => (Err e, d)
  | Ok (snapshot, snapSeq) =>
      let '(records, maxSeq, d) := recoverLog snapSeq d in
      let d := match dLog d with None => d <| dLog := Some (stable []) |> | Some _ => d end in
      (Ok (MkWAL (Z.max snapSeq maxSeq), MkRecovery snapshot records), d)
  end.

(** How the write and the fsync of an append may go: [AShort n] fails after
    [n] bytes. *)
Inductive append_io := AOk | AShort (n : nat) | ANoSync.
#[export] Instance append_io_eq_dec : EqDecision append_io.
Proof. solve_decision. Defined.

Definition on_log (f : File → File) (d : Disk) : Disk := d <| dLog := f <$> dLog d |>.

Definition Append (io : append_io) (payload : list byte) (w : WAL) (d : Disk) : result unit * WAL * Disk :=
  let w := MkWAL (wrapu 64 (wSeq w + 1)) in
  let data := frame (wSeq w) payload in
  match io with
  | AShort n => (Err "wal: append", w, on_log (file_write (WAppend (take n data))) d)
  | ANoSync => (Err "wal: fsync append", w, on_log (file_write (WAppend data)) d)
  | AOk => (Ok tt, w, on_log file_sync (on_log (file_write (WAppend data)) d))
  end.

(** The steps of [Checkpoint], each an operation on the disk. *)
Definition checkpoint_steps (hw : Z) (snapshot : list byte) : list (Disk → Disk) :=
  [ (λ d, d <| dTmp := Some (MkFile [] [WAppend (frame hw snapshot)]) |>);
    (λ d, d <| dTmp := file_sync <$> dTmp d |>);
    (λ d, d <| dSnap := dTmp d |> <| dTmp := None |>);
    (λ d, d <| dSnapDur := dSnap d |>);
    on_log (file_write WTruncate);
    (λ d, d);
    on_log file_sync ].

(** [Checkpoint]: [fail] is the step that returns an error, if any. *)
Definition Checkpoint (fail : option nat) (snapshot : list byte) (w : WAL) (d : Disk) : result unit * Disk :=
  let steps := checkpoint_steps (wSeq w) snapshot in
  match fail with
  | Some k => (Err "wal: checkpoint", foldl (λ d f, f d) d (take k steps))
  | None => (Ok tt, foldl (λ d f, f d) d steps)
  end.

(** ** Frames round-trip, and cut frames are recognised *)

(** Sizes a frame can hold. *)
Definition entry_ok (e : Z * list byte) : Prop :=
  0 ≤ e.1 < 2 ^ 64 ∧ Z.of_nat (length e.2) + 8 < 2 ^ 32.

Lemma length_frame seq p : length (frame seq p) = (16 + length p)%nat.
Proof. unfold frame. rewrite !length_app, !length_be_bytes. lia. Qed.

Lemma take_be n v l : take n (be_bytes n v ++ l) = be_bytes n v.
Proof. rewrite take_app_le by (by rewrite length_be_bytes). rewrite take_ge; [done|by rewrite length_be_bytes]. Qed.

Lemma drop_be n v l : drop n (be_bytes n v ++ l) = l.
Proof. rewrite drop_app_ge by (by rewrite length_be_bytes). by rewrite length_be_bytes, Nat.sub_diag. Qed.

(** The length field of a frame. *)
Lemma frame_len_field seq p rest :
  entry_ok (seq, p) → be_val (take 4 (frame seq p ++ rest)) = 8 + Z.of_nat (length p).
Proof.
  intros [_ Hlen]. simpl in Hlen. unfold frame. rewrite <- !(assoc_L (++)), take_be, be_val_be_bytes.
  - rewrite length_app, length_be_bytes. unfold wrapu. change (256 ^ Z.of_nat 4) with (2 ^ 32).
    rewrite Z.mod_mod, Z.mod_small by lia. lia.
  - unfold wrapu. apply Z.mod_pos_bound. lia.
Qed.

Lemma readFrame_frame seq p rest :
  entry_ok (seq, p) → readFrame (frame seq p ++ rest) = Ok (seq, p, length (frame seq p)).
Proof.
  intros Hok. pose proof Hok as [Hseq Hlen]. simpl in Hseq, Hlen. unfold readFrame.
  rewrite frame_len_field by done.
  rewrite length_app, length_frame. unfold frameHeaderLen.
  rewrite (proj2 (Nat.ltb_ge _ 8)) by lia.
  destruct (Z.ltb_spec (8 + Z.of_nat (length p)) 8); [lia|].
  assert (8 + Z.to_nat (8 + Z.of_nat (length p)) = length (frame seq p))%nat as Hend by (rewrite length_frame; lia).
  rewrite Hend, length_frame, (proj2 (Nat.ltb_ge _ _)) by lia. simpl orb.
  rewrite take_app_le by (rewrite length_frame; lia). rewrite (take_ge (frame seq p)) by (rewrite length_frame; lia).
  set (body := be_bytes 8 seq ++ p).
  assert (drop 8 (frame seq p) = body) as Hbody.
  { unfold frame. fold body. change 8%nat with (4 + 4)%nat. by rewrite <- drop_drop, !drop_be. }
  assert (drop 4 (frame seq p ++ rest) = be_bytes 4 (Crc32.checksum body) ++ body ++ rest) as Hcrc.
  { unfold frame. fold body. rewrite <- !(assoc_L (++)). apply drop_be. }
  cbv zeta. rewrite Hbody, Hcrc, take_be, be_val_be_bytes by apply Crc32.checksum_range.
  change (256 ^ Z.of_nat 4) with (2 ^ 32). rewrite Z.mod_small by apply Crc32.checksum_range.
  rewrite Z.eqb_refl. simpl negb. cbv iota. unfold body. rewrite take_be, drop_be, be_val_be_bytes by lia.
  change (256 ^ Z.of_nat 8) with (2 ^ 64). by rewrite Z.mod_small by lia.
Qed.

(** No proper prefix of a frame is taken for a frame. *)
Lemma readFrame_torn seq p n :
  entry_ok (seq, p) → (n < length (frame seq p))%nat → ∃ e, readFrame (take n (frame seq p)) = Err e.
Proof.
  intros Hok Hn. unfold readFrame. rewrite length_take. unfold frameHeaderLen.
  destruct (Nat.ltb_spec (n `min` length (frame seq p)) 8) as [|H8]; [by eexists|].
  rewrite length_frame in *.
  assert (be_val (take 4 (take n (frame seq p))) = 8 + Z.of_nat (length p)) as ->.
  { rewrite take_take, Nat.min_l by lia. rewrite <- (app_nil_r (frame seq p)). by apply frame_len_field. }
  rewrite orb_comm, (proj2 (Nat.ltb_lt _ _)) by lia. by eexists.
Qed.

#[local] Opaque frame readFrame.

(** ** Recovery reads back what the log holds *)

Definition frames (es : list (Z * list byte)) : list byte := concat (map (λ e, frame e.1 e.2) es).
Definition newer (ss : Z) (es : list (Z * list byte)) : list (list byte) := (filter (λ e, ss < e.1) es).*2.
Definition max_seq (m : Z) (es : list (Z * list byte)) : Z := foldl (λ m e, Z.max m e.1) m es.

Lemma frames_app es es' : frames (es ++ es') = frames es ++ frames es'.
Proof. unfold frames. by rewrite map_app, concat_app. Qed.

Lemma frames_one seq p : frames [(seq, p)] = frame seq p.
Proof. unfold frames. cbn [map concat fst snd]. apply app_nil_r. Qed.

Lemma newer_app ss es es' : newer ss (es ++ es') = newer ss es ++ newer ss es'.
Proof. unfold newer. by rewrite filter_app, fmap_app. Qed.

Lemma newer_none ss es : (∀ e, e ∈ es → e.1 ≤ ss) → newer ss es = [].
Proof. intros Hall. unfold newer. rewrite filter_none; [done|]. intros e He. specialize (Hall e He). lia. Qed.

Lemma max_seq_bound m es b : m ≤ b → (∀ e, e ∈ es → e.1 ≤ b) → m ≤ max_seq m es ≤ b.
Proof.
  revert m. induction es as [|e es IH]; intros m Hm Hes; simpl; [lia|].
  pose proof (Hes e ltac:(set_solver)). destruct (IH (Z.max m e.1)); [lia|set_solver|]. fold (max_seq (Z.max m e.1) es). lia.
Qed.

Lemma max_seq_elem m es e : e ∈ es → e.1 ≤ max_seq m es.
Proof.
  revert m. induction es as [|e' es IH]; intros m Hin; [set_solver|]. simpl.
  fold (max_seq (Z.max m e'.1) es). apply elem_of_cons in Hin as [->|Hin]; [|by apply IH].
  clear IH. revert m. induction es as [|x es IH]; intros m; simpl; [lia|].
  fold (max_seq (Z.max (Z.max m e'.1) x.1) es). specialize (IH (Z.max m x.1)).
  replace (Z.max (Z.max m e'.1) x.1) with (Z.max (Z.max m x.1) e'.1) by lia. done.
Qed.

(** What follows the intact frames is nothing, or does not read as a frame. *)
Definition is_torn (torn : list byte) : Prop := torn = [] ∨ ∃ e, readFrame torn = Err e.

Lemma recover_loop_frames ss es torn fuel pre recs m :
  Forall entry_ok es → is_torn torn → (length es ≤ fuel)%nat →
  (torn ≠ [] → (length es < fuel)%nat) →
  recover_loop fuel ss (pre ++ frames es ++ torn) (length pre) recs m
  = (recs ++ newer ss es, max_seq m es, (length pre + length (frames es))%nat).
Proof.
  intros Hok Htorn. revert fuel pre recs m. induction Hok as [|[seq p] es He Hes IH]; intros fuel pre recs m Hf Ht.
  - unfold newer. simpl. rewrite app_nil_r, Nat.add_0_r. destruct fuel as [|fuel]; [done|]. simpl.
    rewrite length_app. destruct Htorn as [->|[e Herr]].
    + simpl. by rewrite (proj2 (Nat.ltb_ge _ _)) by lia.
    + destruct (Nat.ltb_spec (length pre) (length pre + length torn)); [|done].
      by rewrite drop_app_length, Herr.
  - destruct fuel as [|fuel]; [simpl in Hf; lia|]. cbn [recover_loop].
    assert (frames ((seq, p) :: es) = frame seq p ++ frames es) as Hcons by done.
    rewrite Hcons.
    assert ((length pre <? length (pre ++ (frame seq p ++ frames es) ++ torn))%nat = true) as ->
      by (apply Nat.ltb_lt; rewrite !length_app, length_frame; lia).
    rewrite drop_app_length, <- (assoc_L (++)), readFrame_frame by done. cbv iota beta.
    rewrite (assoc_L (++) pre), <- length_app.
    rewrite IH by (simpl in *; try lia; intros Hne; specialize (Ht Hne); lia).
    f_equal; [f_equal|rewrite !length_app; lia].
    + unfold newer. rewrite filter_cons. simpl. rewrite Z.gtb_ltb.
      destruct (Z.ltb_spec ss seq); [rewrite decide_True by lia|rewrite decide_False by lia]; simpl.
      * by rewrite <- (assoc_L (++)).
      * done.
    + unfold max_seq. simpl. f_equal. rewrite Z.gtb_ltb. destruct (Z.ltb_spec m seq); lia.
Qed.

(** ** What the disk holds *)

(** The snapshot file: absent, or one intact frame. *)
Definition snap_file (hs : Z) (snap : option (list byte)) (f : option File) : Prop :=
  match snap with
  | None => f = None ∧ hs = 0
  | Some s => f = Some (stable (frame hs s)) ∧ entry_ok (hs, s)
  end.

(** The log is the frames of [es] and [torn] bytes after them. *)
Definition log_file (es : list (Z * list byte)) (torn : list byte) (f : option File) : Prop :=
  Forall entry_ok es ∧ is_torn torn ∧ f = Some (stable (frames es ++ torn)).

(** An open WAL and its disk hold a snapshot and the records since. *)
Definition wal_ok (w : WAL) (d : Disk) (snap : option (list byte)) (recs : list (list byte)) : Prop :=
  ∃ hs es, snap_file hs snap (dSnap d) ∧ dSnapDur d = dSnap d ∧ log_file es [] (dLog d) ∧
    recs = newer hs es ∧ 0 ≤ hs ≤ wSeq w ∧ (∀ e, e ∈ es → e.1 ≤ wSeq w).

Lemma file_crash_stable data data' : file_crash (stable data) data' → data' = data.
Proof. unfold stable. intros Hc. inversion Hc as [? ? k|? ? k ? ? Hk]; subst; [by rewrite take_nil|done]. Qed.

Lemma opt_crash_stable data f : opt_crash (Some (stable data)) f → f = Some (stable data).
Proof.
  intros Hc. destruct f as [f'|]; [|done]. destruct Hc as (data' & Hc%file_crash_stable & ->). by subst.
Qed.

Lemma snap_crash hs snap f f' : snap_file hs snap f → opt_crash f f' → snap_file hs snap f'.
Proof.
  destruct snap as [s|]; simpl.
  - intros [-> Hok] ->%opt_crash_stable. done.
  - intros [-> ->] Hc. by destruct f'.
Qed.

Lemma frames_length es : (length es ≤ length (frames es))%nat.
Proof.
  induction es as [|[seq p] es IH]; [done|].
  change (frames ((seq, p) :: es)) with (frame seq p ++ frames es). rewrite length_app, length_frame. simpl. lia.
Qed.

(** Opening a WAL on such files recovers what they hold. *)
Lemma open_recovers d hs snap es torn :
  snap_file hs snap (dSnap d) → dSnapDur d = dSnap d → log_file es torn (dLog d) → 0 ≤ hs →
  ∃ w' d', OpenWAL d = (Ok (w', MkRecovery snap (newer hs es)), d') ∧ wal_ok w' d' snap (newer hs es).
Proof.
  intros Hsnap Hdur (Hes & Htorn & Hlog) Hhs.
  assert (readSnapshot d = Ok (snap, hs)) as Hrs.
  { unfold readSnapshot. destruct snap as [s|]; simpl in Hsnap.
    - destruct Hsnap as [-> Hok]. unfold file_view. simpl. rewrite <- (app_nil_r (frame hs s)).
      by rewrite readFrame_frame.
    - by destruct Hsnap as [-> ->]. }
  unfold OpenWAL, recoverLog. rewrite Hrs, Hlog. unfold file_view. simpl fDur. simpl fPend. cbn [foldl].
  pose proof (recover_loop_frames hs es torn (length (frames es ++ torn)) [] [] 0 Hes Htorn) as Hloop.
  pose proof (frames_length es) as Hlen. rewrite length_app in Hloop.
  simpl app in Hloop. simpl length in Hloop. rewrite length_app, Hloop; [|lia|].
  2:{ intros Hne. destruct torn; [done|simpl; lia]. }
  set (w' := MkWAL (Z.max hs (max_seq 0 es))).
  assert (∀ d', dSnap d' = dSnap d → dSnapDur d' = dSnapDur d → dLog d' = Some (stable (frames es)) →
    wal_ok w' d' snap (newer hs es)) as Hok.
  { intros d' E1 E2 E3. exists hs, es. rewrite E1, E2, E3. split_and!; try done.
    - unfold log_file. split_and!; [done|by left|by rewrite app_nil_r].
    - simpl. lia.
    - intros e He. simpl. pose proof (max_seq_elem 0 es e He). lia. }
  simpl Nat.add. destruct (Nat.ltb_spec (length (frames es)) (length (frames es) + length torn)) as [Hlt|Hge].
  - eexists w', _. split; [reflexivity|]. apply Hok; [done|done|]. simpl. by rewrite take_app_length.
  - assert (torn = []) as -> by (destruct torn; [done|simpl in Hge; lia]).
    rewrite Hlog. eexists w', _. split; [reflexivity|]. apply Hok; [done|done|]. by rewrite Hlog, app_nil_r.
Qed.

Lemma wal_crash_recovers w d d' snap recs :
  wal_ok w d snap recs → disk_crash d d' →
  ∃ w' d'', OpenWAL d' = (Ok (w', MkRecovery snap recs), d'') ∧ wal_ok w' d'' snap recs.
Proof.
  intros (hs & es & Hsnap & Hdur & (Hes & Ht & Hlog) & -> & Hhs & Hseq) (Hcl & Hcs & Hdur').
  rewrite Hdur in Hcs. rewrite Hlog in Hcl. apply opt_crash_stable in Hcl.
  apply (open_recovers d' hs snap es []); [|done|unfold log_file; by split_and!|lia].
  destruct Hcs as [Hcs|Hcs]; by eapply snap_crash.
Qed.

(** ** Appends *)

Definition append_entry (w : WAL) (payload : list byte) : Z * list byte := (wSeq w + 1, payload).

Lemma append_state io payload w d snap recs :
  wal_ok w d snap recs → entry_ok (append_entry w payload) →
  ∃ hs es, snap_file hs snap (dSnap d) ∧ dSnapDur d = dSnap d ∧ Forall entry_ok es ∧ recs = newer hs es ∧
    newer hs (es ++ [append_entry w payload]) = recs ++ [payload] ∧ 0 ≤ hs ≤ wSeq w ∧
    (∀ e, e ∈ es → e.1 ≤ wSeq w) ∧
    Append io payload w d =
      match io with
      | AShort n => (Err "wal: append", MkWAL (wSeq w + 1),
          d <| dLog := Some (MkFile (frames es) [WAppend (take n (frame (wSeq w + 1) payload))]) |>)
      | ANoSync => (Err "wal: fsync append", MkWAL (wSeq w + 1),
          d <| dLog := Some (MkFile (frames es) [WAppend (frame (wSeq w + 1) payload)]) |>)
      | AOk => (Ok tt, MkWAL (wSeq w + 1),
          d <| dLog := Some (stable (frames (es ++ [append_entry w payload]))) |>)
      end.
Proof.
  intros (hs & es & Hsnap & Hdur & (Hes & _ & Hlog) & -> & Hhs & Hseq) Hok. exists hs, es.
  rewrite app_nil_r in Hlog. pose proof Hok as [Hs _]. simpl in Hs.
  split_and!; try done; try lia.
  - rewrite newer_app. f_equal. unfold newer, append_entry. rewrite filter_cons. simpl.
    by rewrite decide_True by lia.
  - unfold Append. assert (wrapu 64 (wSeq w + 1) = wSeq w + 1) as -> by (unfold wrapu; rewrite Z.mod_small; lia).
    unfold on_log. rewrite Hlog. unfold file_sync, file_write, file_view, stable. simpl.
    rewrite frames_app. unfold append_entry. rewrite frames_one. by destruct io.
Qed.

Lemma append_ok payload w d snap recs :
  wal_ok w d snap recs → entry_ok (append_entry w payload) →
  ∃ w' d', Append AOk payload w d = (Ok tt, w', d') ∧ wal_ok w' d' snap (recs ++ [payload]).
Proof.
  intros Hw Hok. destruct (append_state AOk payload w d snap recs Hw Hok)
    as (hs & es & Hsnap & Hdur & Hes & -> & Hnew & Hhs & Hseq & ->).
  eexists _, _. split; [done|]. exists hs, (es ++ [append_entry w payload]). split_and!; try done; simpl; try lia.
  - unfold log_file. split_and!; [|by left|by rewrite app_nil_r]. apply Forall_app. split; [done|by constructor].
  - intros e [He| ->%list_elem_of_singleton]%elem_of_app; [specialize (Hseq e He); lia|]. simpl. lia.
Qed.

Lemma frame_prefix_torn seq p n :
  entry_ok (seq, p) → take n (frame seq p) = frame seq p ∨ is_torn (take n (frame seq p)).
Proof.
  intros Hok. destruct (Nat.le_gt_cases (length (frame seq p)) n) as [Hle|Hlt].
  - left. by apply take_ge.
  - right. right. by apply readFrame_torn.
Qed.

Lemma crash_append_cases dur data l :
  file_crash (MkFile dur [WAppend data]) l → ∃ n, l = dur ++ take n data.
Proof.
  intros Hc. inversion Hc as [? ? k|? ? k data' n Hk Hn]; subst.
  - destruct k as [|k]; simpl; [exists 0%nat; by rewrite app_nil_r|].
    exists (length data). by rewrite take_nil, take_ge by done.
  - apply list_lookup_singleton_Some in Hk as [-> [= ->]]. simpl. by exists n.
Qed.

(** A crash while (a part of) a frame was being written. *)
Lemma torn_append_recovers hs snap es e n0 d d' :
  snap_file hs snap (dSnap d) → dSnapDur d = dSnap d → Forall entry_ok es → entry_ok e → 0 ≤ hs →
  dLog d = Some (MkFile (frames es) [WAppend (take n0 (frame e.1 e.2))]) → disk_crash d d' →
  ∃ w' d'' recs', OpenWAL d' = (Ok (w', MkRecovery snap recs'), d'') ∧ wal_ok w' d'' snap recs' ∧
    (recs' = newer hs (es ++ [e]) ∨ recs' = newer hs es).
Proof.
  intros Hsnap Hdur Hes Hok Hhs Hl1 (Hcl & Hcs & Hdur'). rewrite Hl1 in Hcl. destruct e as [seq p].
  destruct (dLog d') as [f|] eqn:Hl; [|done]. destruct Hcl as (l & (n & ->)%crash_append_cases & ->).
  assert (snap_file hs snap (dSnap d')) as Hsnap' by (rewrite Hdur in Hcs; destruct Hcs; by eapply snap_crash).
  rewrite take_take in Hl. simpl in Hl.
  destruct (frame_prefix_torn seq p (n `min` n0) Hok) as [E|Ht].
  - rewrite E in Hl.
    destruct (open_recovers d' hs snap (es ++ [(seq, p)]) []) as (w' & d'' & Ho & Hw'); [done|done| |done|].
    + unfold log_file. split_and!; [apply Forall_app; split; [done|by constructor]|by left|].
      by rewrite Hl, app_nil_r, frames_app, frames_one.
    + eexists w', d'', _. split_and!; [exact Ho|exact Hw'|by left].
  - destruct (open_recovers d' hs snap es (take (n `min` n0) (frame seq p))) as (w' & d'' & Ho & Hw');
      [done|done|unfold log_file; by split_and!|done|]. eexists w', d'', _. split_and!; [exact Ho|exact Hw'|by right].
Qed.

(** A crash at any moment of an append, whatever came of its write. *)
Lemma append_crash io payload w d d1 d' r w1 snap recs :
  wal_ok w d snap recs → entry_ok (append_entry w payload) →
  Append io payload w d = (r, w1, d1) → disk_crash d1 d' →
  ∃ w' d'' recs', OpenWAL d' = (Ok (w', MkRecovery snap recs'), d'') ∧ wal_ok w' d'' snap recs' ∧
    (recs' = recs ++ [payload] ∨ io ≠ AOk ∧ recs' = recs).
Proof.
  intros Hw Hok Happ Hcrash. destruct (decide (io = AOk)) as [->|Hio].
  { destruct (append_ok payload w d snap recs Hw Hok) as (w' & d2 & E & Hok'). rewrite Happ in E. simplify_eq.
    destruct (wal_crash_recovers _ _ _ _ _ Hok' Hcrash) as (w'' & d'' & Ho & Hw''). eauto 10. }
  destruct (append_state io payload w d snap recs Hw Hok)
    as (hs & es & Hsnap & Hdur & Hes & -> & Hnew & Hhs & Hseq & E). rewrite Happ in E.
  assert (dSnap d1 = dSnap d ∧ dSnapDur d1 = dSnapDur d ∧ ∃ n0,
    dLog d1 = Some (MkFile (frames es) [WAppend (take n0 (frame (wSeq w + 1) payload))])) as (E1 & E2 & n0 & E3).
  { destruct io as [|n0|]; [done| |]; injection E as _ _ ->; (split; [done|]; split; [done|]).
    - by exists n0.
    - exists (length (frame (wSeq w + 1) payload)). by rewrite firstn_all. }
  rewrite <- E1 in Hsnap. rewrite <- E2, <- E1 in Hdur.
  destruct (torn_append_recovers hs snap es (append_entry w payload) n0 d1 d' Hsnap Hdur Hes Hok ltac:(lia) E3 Hcrash)
    as (w' & d'' & recs' & Ho & Hw' & Hor).
  rewrite Hnew in Hor. exists w', d'', recs'. split_and!; try done. destruct Hor; auto.
Qed.

(** ** Checkpoints *)

(** The disk after the first [k] steps of a checkpoint. *)
Definition checkpoint_at (k : nat) (s : list byte) (w : WAL) (d : Disk) : Disk :=
  foldl (λ d f, f d) d (take k (checkpoint_steps (wSeq w) s)).

Lemma checkpoint_newer w es : (∀ e, e ∈ es → e.1 ≤ wSeq w) → newer (wSeq w) es = [].
Proof. intros Hes. by apply newer_none. Qed.

(** A crash at any moment of a checkpoint leaves the state before it or the
    state after it. *)
Lemma checkpoint_crash k s w d d' snap recs :
  wal_ok w d snap recs → entry_ok (wSeq w, s) → disk_crash (checkpoint_at k s w d) d' →
  ∃ w' d'' snap' recs', OpenWAL d' = (Ok (w', MkRecovery snap' recs'), d'') ∧ wal_ok w' d'' snap' recs' ∧
    ((snap' = snap ∧ recs' = recs ∧ (k ≤ 3)%nat) ∨ (snap' = Some s ∧ recs' = [] ∧ (3 ≤ k)%nat)).
Proof.
  intros (hs & es & Hsnap & Hdur & (Hes & _ & Hlog) & -> & Hhs & Hseq) Hok (Hcl & Hcs & Hdur').
  rewrite app_nil_r in Hlog.
  (* what the crash leaves of the log *)
  assert (dLog d' = Some (stable (frames es)) ∨ dLog d' = Some (stable []) ∧ (5 ≤ k)%nat) as Hlog'.
  { assert (dLog (checkpoint_at k s w d) = Some (stable (frames es)) ∨
      (5 ≤ k)%nat ∧ (dLog (checkpoint_at k s w d) = Some (MkFile (frames es) [WTruncate]) ∨
      dLog (checkpoint_at k s w d) = Some (stable []))) as Hpre.
    { unfold checkpoint_at. do 7 (destruct k as [|k]; [simpl; unfold on_log; simpl; rewrite ?Hlog; simpl;
        first [by left|right; split; [lia|]; first [by left|by right]]|]).
      rewrite take_ge by (simpl; lia). right. split; [lia|]. right. simpl. unfold on_log. simpl. by rewrite Hlog. }
    destruct Hpre as [E|[Hk [E|E]]]; rewrite E in Hcl.
    - left. by apply opt_crash_stable.
    - destruct (dLog d') as [f|]; [|done]. destruct Hcl as (l & Hc & ->).
      inversion Hc as [? ? j|? ? j data n Hj]; subst; [|by apply list_lookup_singleton_Some in Hj as [_ ?]].
      destruct j as [|j]; [by left|right]. by destruct j.
    - right. split; [by apply opt_crash_stable|done]. }
  (* and of the snapshot *)
  assert ((k ≤ 3)%nat ∧ snap_file hs snap (dSnap d') ∨ (3 ≤ k)%nat ∧ snap_file (wSeq w) (Some s) (dSnap d')) as Hsnap'.
  { assert (∀ f, opt_crash (Some (stable (frame (wSeq w) s))) f → snap_file (wSeq w) (Some s) f) as Hnew.
    { intros f ->%opt_crash_stable. done. }
    unfold checkpoint_at in Hcs. destruct k as [|[|[|[|k]]]].
    1-3: simpl in Hcs; rewrite Hdur in Hcs; left; split; [lia|]; destruct Hcs; by eapply snap_crash.
    - simpl in Hcs. rewrite Hdur in Hcs. destruct Hcs as [Hcs|Hcs]; [right|left]; (split; [lia|]).
      + by apply Hnew.
      + by eapply snap_crash.
    - right. split; [lia|]. apply Hnew.
      do 4 (destruct k as [|k]; [simpl in Hcs; by destruct Hcs|]).
      rewrite take_ge in Hcs by (simpl; lia). simpl in Hcs. by destruct Hcs. }
  assert (∃ es', log_file es' [] (dLog d') ∧ (es' = es ∨ es' = [] ∧ (5 ≤ k)%nat)) as (es' & Hl' & Hes').
  { destruct Hlog' as [E|[E Hk]]; [exists es|exists []]; (split; [|auto]); unfold log_file;
      rewrite E; split_and!; try (by left); try done. by rewrite app_nil_r. }
  destruct Hsnap' as [[Hk Hs']|[Hk Hs']].
  - assert (es' = es) as -> by (destruct Hes' as [?|[_ ?]]; [done|lia]).
    destruct (open_recovers d' hs snap es []) as (w' & d'' & Ho & Hw'); [done|done|done|lia|].
    eexists w', d'', snap, _. split_and!; [exact Ho|exact Hw'|]. left. done.
  - destruct (open_recovers d' (wSeq w) (Some s) es' []) as (w' & d'' & Ho & Hw'); [done|done|done|lia|].
    assert (newer (wSeq w) es' = []) as Hn.
    { destruct Hes' as [->|[-> _]]; [by apply newer_none|done]. }
    rewrite Hn in *. eexists w', d'', (Some s), []. split_and!; [exact Ho|exact Hw'|]. by right.
Qed.

Lemma checkpoint_ok s w d snap recs :
  wal_ok w d snap recs → entry_ok (wSeq w, s) →
  ∃ d', Checkpoint None s w d = (Ok tt, d') ∧ wal_ok w d' (Some s) [].
Proof.
  intros (hs & es & Hsnap & Hdur & (Hes & _ & Hlog) & -> & Hhs & Hseq) Hok.
  eexists. split; [reflexivity|]. exists (wSeq w), []. split_and!; try done; simpl; try lia.
  - unfold log_file, on_log. simpl. rewrite Hlog. split_and!; [done|by left|done].
  - set_solver.
Qed.

(** ** Runs of the log *)

(** The states a log can be in, and what it has acknowledged: the snapshot of
    the last checkpoint and the payloads appended since.  A crash may come at
    any time, in the middle of an append or between any two steps of a
    checkpoint; the log is then opened again. *)
Inductive wal_run : WAL → Disk → option (list byte) → list (list byte) → Prop :=
| wr_open w rc d : OpenWAL empty_disk = (Ok (w, rc), d) → wal_run w d None []
| wr_append w d snap recs payload w' d' :
    wal_run w d snap recs → entry_ok (append_entry w payload) →
    Append AOk payload w d = (Ok tt, w', d') → wal_run w' d' snap (recs ++ [payload])
| wr_checkpoint w d snap recs s d' :
    wal_run w d snap recs → entry_ok (wSeq w, s) →
    Checkpoint None s w d = (Ok tt, d') → wal_run w d' (Some s) []
| wr_crash w d snap recs d1 d2 w' rc :
    wal_run w d snap recs → disk_crash d d1 → OpenWAL d1 = (Ok (w', rc), d2) → wal_run w' d2 snap recs
| wr_crash_append w d snap recs io payload r w1 d0 d1 d2 w' rc :
    wal_run w d snap recs → entry_ok (append_entry w payload) → Append io payload w d = (r, w1, d0) →
    disk_crash d0 d1 → OpenWAL d1 = (Ok (w', rc), d2) → wal_run w' d2 snap (rcRecords rc)
| wr_crash_checkpoint w d snap recs k s d1 d2 w' rc :
    wal_run w d snap recs → entry_ok (wSeq w, s) → disk_crash (checkpoint_at k s w d) d1 →
    OpenWAL d1 = (Ok (w', rc), d2) → wal_run w' d2 (rcSnapshot rc) (rcRecords rc).

Lemma wal_run_ok w d snap recs : wal_run w d snap recs → wal_ok w d snap recs.
Proof.
  induction 1 as [w rc d Ho|w d snap recs p w' d' _ IH Hok Ha|w d snap recs s d' _ IH Hok Hc|
    w d snap recs d1 d2 w' rc _ IH Hc Ho|w d snap recs io p r w1 d0 d1 d2 w' rc _ IH Hok Ha Hc Ho|
    w d snap recs k s d1 d2 w' rc _ IH Hok Hc Ho].
  - vm_compute in Ho. injection Ho as <- _ <-. exists 0, []. unfold log_file. simpl.
    split_and!; try done; [by left|set_solver].
  - destruct (append_ok p w d snap recs IH Hok) as (? & ? & E & Hw). rewrite Ha in E. by simplify_eq.
  - destruct (checkpoint_ok s w d snap recs IH Hok) as (? & E & Hw). rewrite Hc in E. by simplify_eq.
  - destruct (wal_crash_recovers w d d1 snap recs IH Hc) as (? & ? & E & Hw). rewrite Ho in E. by simplify_eq.
  - destruct (append_crash io p w d d0 d1 r w1 snap recs IH Hok Ha Hc) as (? & ? & ? & E & Hw & _).
    rewrite Ho in E. by simplify_eq.
  - destruct (checkpoint_crash k s w d d1 snap recs IH Hok Hc) as (? & ? & ? & ? & E & Hw & _).
    rewrite Ho in E. by simplify_eq.
Qed.

(** ** What the log guarantees *)


(** A log with one record and its disk. *)
Definition demo_payload : list byte := [Byte.x61; Byte.x62].
Definition demo_open : WAL * Disk := match OpenWAL empty_disk with (Ok (w, _), d) => (w, d) | (_, d) => (MkWAL 0, d) end.
Definition demo_append : WAL * Disk := let '(_, w, d) := Append AOk demo_payload demo_open.1 demo_open.2 in (w, d).

#[local] Transparent frame readFrame.

Lemma demo_wal_run : wal_run demo_append.1 demo_append.2 None [demo_payload].
Proof.
  apply (wr_append demo_open.1 demo_open.2 None [] demo_payload).
  - apply (wr_open _ (MkRecovery None [])). by vm_compute.
  - by vm_compute.
  - by vm_compute.
Qed.

Lemma stable_crash f : opt_crash (Some (stable f)) (Some (stable f)).
Proof. exists f. split; [|done]. apply (crash_prefix f [] 0). Qed.


(** C8: an append is atomic under crashes: whether it succeeded, failed half
    way through its write or failed to sync, a crash leaves all of the record
    or nothing of it, and all of it if the append was acknowledged. *)
Theorem wal_append_atomic io payload w d d1 d' r w1 snap recs :
  wal_run w d snap recs → entry_ok (append_entry w payload) →
  Append io payload w d = (r, w1, d1) → disk_crash d1 d' →
  ∃ w' d'' recs', OpenWAL d' = (Ok (w', MkRecovery snap recs'), d'') ∧
    (recs' = recs ++ [payload] ∨ r ≠ Ok tt ∧ recs' = recs).
Proof.
  intros Hr Hok Ha Hc.
  destruct (append_crash io payload w d d1 d' r w1 snap recs (wal_run_ok _ _ _ _ Hr) Hok Ha Hc)
    as (w' & d'' & recs' & Ho & _ & Hor).
  exists w', d'', recs'. split; [done|]. destruct Hor as [->|[Hio ->]]; [by left|right]. split; [|done].
  intros ->. by destruct io.
Qed.

Lemma wal_append_atomic_witness :
  ∃ w' d'' recs', OpenWAL (on_log (λ _, stable (frame 1 demo_payload ++ [Byte.x00])) demo_append.2)
      = (Ok (w', MkRecovery None recs'), d'') ∧
    (recs' = [demo_payload; demo_payload] ∨ Err (A:=unit) "wal: append" ≠ Ok tt ∧ recs' = [demo_payload]).
Proof.
  apply (wal_append_atomic (AShort 3) demo_payload demo_append.1 demo_append.2
    (on_log (file_write (WAppend (take 3 (frame 2 demo_payload)))) demo_append.2) _
    (Err "wal: append") (MkWAL 2) None [demo_payload] demo_wal_run).
  - by vm_compute.
  - by vm_compute.
  - split; [|split; [left; exact I|reflexivity]].
    exists (frame 1 demo_payload ++ take 1 (take 3 (frame 2 demo_payload))).
    split; [|by vm_compute].
    assert (file_write (WAppend (take 3 (frame 2 demo_payload))) (stable (frame 1 demo_payload))
      = MkFile (frame 1 demo_payload) [WAppend (take 3 (frame 2 demo_payload))]) as E by done.
    assert (dLog demo_append.2 = Some (stable (frame 1 demo_payload))) as Hl by (by vm_compute).
    exact (crash_torn (frame 1 demo_payload) [WAppend (take 3 (frame 2 demo_payload))] 0
      (take 3 (frame 2 demo_payload)) 1 eq_refl ltac:(vm_compute; lia)).
Defined.

(** C9: a checkpoint is atomic under crashes: wherever it is cut short, the
    log recovers either to the old snapshot with all its records or to the new
    snapshot with none, and to the new one once its directory entry is
    synced. *)
Theorem wal_checkpoint_atomic k s w d d' snap recs :
  wal_run w d snap recs → entry_ok (wSeq w, s) → disk_crash (checkpoint_at k s w d) d' →
  ∃ w' d'' snap' recs', OpenWAL d' = (Ok (w', MkRecovery snap' recs'), d'') ∧
    ((snap' = snap ∧ recs' = recs ∧ (k ≤ 3)%nat) ∨ (snap' = Some s ∧ recs' = [] ∧ (3 ≤ k)%nat)).
Proof.
  intros Hr Hok Hc.
  destruct (checkpoint_crash k s w d d' snap recs (wal_run_ok _ _ _ _ Hr) Hok Hc)
    as (w' & d'' & snap' & recs' & Ho & _ & Hor). by exists w', d'', snap', recs'.
Qed.

Lemma wal_checkpoint_atomic_witness :
  ∃ w' d'' snap' recs',
    OpenWAL (MkDisk (Some (stable (frame 1 demo_payload))) None
       (Some (stable (frame 1 [Byte.x7a]))) (Some (stable (frame 1 [Byte.x7a]))))
      = (Ok (w', MkRecovery snap' recs'), d'') ∧
    ((snap' = None ∧ recs' = [demo_payload] ∧ (4 ≤ 3)%nat) ∨ (snap' = Some [Byte.x7a] ∧ recs' = [] ∧ (3 ≤ 4)%nat)).
Proof.
  apply (wal_checkpoint_atomic 4 [Byte.x7a] demo_append.1 demo_append.2 _ None [demo_payload] demo_wal_run).
  - by vm_compute.
  - split; [|split; [|reflexivity]].
    + assert (dLog (checkpoint_at 4 [Byte.x7a] demo_append.1 demo_append.2) = Some (stable (frame 1 demo_payload)))
        as -> by (by vm_compute). apply stable_crash.
    + left. assert (dSnap (checkpoint_at 4 [Byte.x7a] demo_append.1 demo_append.2) = Some (stable (frame 1 [Byte.x7a])))
        as -> by (by vm_compute). apply stable_crash.
Defined.

(** An append that fails half way poisons the log: the bytes it left are
    not cut off, so the record of the next append, which is acknowledged, lies
    behind a torn frame and recovery drops it. *)
Theorem append_after_failed_append_is_lost :
  let '(r1, w1, d1) := Append (AShort 3) demo_payload demo_append.1 demo_append.2 in
  let '(r2, _, d2) := Append AOk demo_payload w1 d1 in
  is_ok r1 = false ∧ r2 = Ok tt ∧ disk_crash d2 d2 ∧
  ∃ w' d', OpenWAL d2 = (Ok (w', MkRecovery None [demo_payload]), d').
Proof.
  destruct (Append (AShort 3) demo_payload demo_append.1 demo_append.2) as [[r1 w1] d1] eqn:E1.
  destruct (Append AOk demo_payload w1 d1) as [[r2 w2] d2] eqn:E2.
  vm_compute in E1. injection E1 as <- <- <-. vm_compute in E2. injection E2 as <- <- <-.
  split_and!; try done.
  - split; [|split; [left; exact I|reflexivity]]. apply stable_crash.
  - eexists _, _. by vm_compute.
Qed.
