(* ===== verification/Policies.v ===== *)
(** * Eviction policies (internal/cache/policy.go, clock.go, s3fifo.go)

    The [EvictionPolicy] interface and its three implementations.  A linked
    list is the list of its values, front first; a pointer to an element is
    the id it holds, ids being unique in a list. *)
From S2P Require Import Prelude GoLib.
Open Scope nat_scope.

(** ** The interface

    [Victim] may change the policy, and what the cache relies on is the pair
    of calls it makes: after [Victim] names an id, [Remove] takes exactly that
    id out. *)
Class EvictionPolicy (P : Type) := {
  pAdd : string → P → P;
  pAccess : string → P → P;
  pVictim : P → option string * P;
  pRemove : string → P → P;
  pLen : P → nat;
  pOk : P → Prop;
  resident : P → gset string;
  pAdd_ok id p : pOk p → pOk (pAdd id p) ∧ resident (pAdd id p) = {[id]} ∪ resident p;
  pAccess_ok id p : pOk p → pOk (pAccess id p) ∧ resident (pAccess id p) = resident p;
  pRemove_ok id p : pOk p → pOk (pRemove id p) ∧ resident (pRemove id p) = resident p ∖ {[id]};
  pLen_ok p : pOk p → pLen p = size (resident p);
  pVictim_none p : pOk p → resident p = ∅ → (pVictim p).1 = None;
  pVictim_some p : pOk p → resident p ≠ ∅ →
    ∃ id, (pVictim p).1 = Some id ∧ id ∈ resident p ∧
      pOk (pRemove id (pVictim p).2) ∧ resident (pRemove id (pVictim p).2) = resident p ∖ {[id]};
}.

(** [list.Remove] and [list.MoveToFront] of the element that holds [id]. *)
Definition list_del (id : string) (l : list string) : list string := filter (λ x, x ≠ id) l.

Lemma elem_of_list_del id x l : x ∈ list_del id l ↔ x ∈ l ∧ x ≠ id.
Proof. unfold list_del. rewrite list_elem_of_filter. tauto. Qed.

Lemma NoDup_list_del id l : NoDup l → NoDup (list_del id l).
Proof. apply NoDup_filter. Qed.

Lemma list_del_notin id l : id ∉ l → list_del id l = l.
Proof. intros Hn. apply filter_all. intros x Hx ->. done. Qed.

(** ** LRU (policy.go) *)

Record lruPolicy := MkLRU { ll : list string; lru_els : gset string }.
#[export] Instance eta_lru : Eta lruPolicy := λ p, MkLRU (ll p) (lru_els p).

Definition NewLRU : lruPolicy := MkLRU [] ∅.

Definition MoveToFront (id : string) (l : list string) : list string := id :: list_del id l.

Definition lru_Add (id : string) (p : lruPolicy) : lruPolicy :=
  if bool_decide (id ∈ lru_els p) then p <| ll := MoveToFront id (ll p) |>
  else p <| ll := id :: ll p |> <| lru_els := {[id]} ∪ lru_els p |>.

Definition lru_Access (id : string) (p : lruPolicy) : lruPolicy :=
  if bool_decide (id ∈ lru_els p) then p <| ll := MoveToFront id (ll p) |> else p.

Definition lru_Victim (p : lruPolicy) : option string * lruPolicy := (last (ll p), p).

Definition lru_Remove (id : string) (p : lruPolicy) : lruPolicy :=
  if bool_decide (id ∈ lru_els p)
  then p <| ll := list_del id (ll p) |> <| lru_els := lru_els p ∖ {[id]} |> else p.

Definition lru_Len (p : lruPolicy) : nat := length (ll p).

Definition lru_ok (p : lruPolicy) : Prop := NoDup (ll p) ∧ lru_els p = list_to_set (ll p).

Lemma size_NoDup (l : list string) : NoDup l → size (list_to_set l : gset string) = length l.
Proof. apply size_list_to_set. Qed.

Lemma MoveToFront_ok id l :
  NoDup l → id ∈ l → NoDup (MoveToFront id l) ∧ list_to_set (MoveToFront id l) = (list_to_set l : gset string).
Proof.
  intros Hnd Hin. unfold MoveToFront. split.
  - apply NoDup_cons. split; [rewrite elem_of_list_del; tauto|by apply NoDup_list_del].
  - apply set_eq. intros x. rewrite !elem_of_list_to_set, elem_of_cons, elem_of_list_del.
    destruct (decide (x = id)) as [->|]; tauto.
Qed.

Lemma lru_Remove_ok id p :
  lru_ok p → lru_ok (lru_Remove id p) ∧
    list_to_set (ll (lru_Remove id p)) = (list_to_set (ll p) ∖ {[id]} : gset string).
Proof.
  intros [Hnd Hels]. unfold lru_Remove. rewrite Hels. case_bool_decide as Hin; simpl.
  - assert (list_to_set (list_del id (ll p)) = (list_to_set (ll p) ∖ {[id]} : gset string)) as E.
    { apply set_eq. intros x. rewrite elem_of_difference, !elem_of_list_to_set, elem_of_list_del. set_solver. }
    split; [split; [by apply NoDup_list_del|]|done]. simpl. by rewrite E.
  - split; [done|]. set_solver.
Qed.

#[export] Instance lru_policy : EvictionPolicy lruPolicy.
Proof.
  refine {| pAdd := lru_Add; pAccess := lru_Access; pVictim := lru_Victim; pRemove := lru_Remove;
    pLen := lru_Len; pOk := lru_ok; resident p := list_to_set (ll p) |}.
  - intros id p [Hnd Hels]. unfold lru_Add. rewrite Hels. case_bool_decide as Hin; simpl.
    + rewrite elem_of_list_to_set in Hin. destruct (MoveToFront_ok id (ll p) Hnd Hin) as [H1 H2].
      simpl in H2. split; [split; [done|]; simpl; by rewrite ?Hels, ?H2|]. rewrite H2. set_solver.
    + rewrite elem_of_list_to_set in Hin. split; [split; simpl; [by apply NoDup_cons|by rewrite ?Hels]|done].
  - intros id p [Hnd Hels]. unfold lru_Access. rewrite Hels. case_bool_decide as Hin; simpl; [|done].
    rewrite elem_of_list_to_set in Hin. destruct (MoveToFront_ok id (ll p) Hnd Hin) as [H1 H2].
    simpl in H2. split; [split; [done|]; simpl; by rewrite ?Hels, ?H2|done].
  - apply lru_Remove_ok.
  - intros p [Hnd _]. unfold lru_Len. by rewrite size_NoDup.
  - intros p [_ _] He. simpl. destruct (ll p) as [|x l]; [done|]. set_solver.
  - intros p Hp He. simpl. destruct (last (ll p)) as [id|] eqn:Hl.
    + exists id. split; [done|]. split; [apply elem_of_list_to_set; by apply last_Some_elem_of|].
      apply lru_Remove_ok, Hp.
    + apply last_None in Hl. rewrite Hl in He. set_solver.
Defined.

(** ** Clock (clock.go) *)

Record clockEntry := MkClockEntry { ceId : string; ceRef : bool }.
Record clockPolicy := MkClock { ring : list clockEntry; clk_els : gset string; hand : option string }.
#[export] Instance eta_clock : Eta clockPolicy := λ p, MkClock (ring p) (clk_els p) (hand p).

Definition NewClock : clockPolicy := MkClock [] ∅ None.

(** Set the reference bit of [id]'s entry. *)
Definition set_ref (id : string) (b : bool) (l : list clockEntry) : list clockEntry :=
  map (λ e, if bool_decide (ceId e = id) then MkClockEntry id b else e) l.

Definition clk_Add (id : string) (p : clockPolicy) : clockPolicy :=
  if bool_decide (id ∈ clk_els p) then p <| ring := set_ref id true (ring p) |>
  else p <| ring := ring p ++ [MkClockEntry id true] |> <| clk_els := {[id]} ∪ clk_els p |>.

Definition clk_Access (id : string) (p : clockPolicy) : clockPolicy :=
  if bool_decide (id ∈ clk_els p) then p <| ring := set_ref id true (ring p) |> else p.

(** [Element.Next] of [id]'s element. *)
Fixpoint next_entry (id : string) (l : list clockEntry) : option string :=
  match l with
  | e :: (e' :: _) as l' => if bool_decide (ceId e = id) then Some (ceId e') else next_entry id l'
  | _ => None
  end.

Definition front (l : list clockEntry) : option string := ceId <$> head l.

Definition advance (id : string) (l : list clockEntry) : option string :=
  match next_entry id l with Some n => Some n | None => front l end.

(** The reference bit at the hand. *)
Definition ref_of (id : string) (l : list clockEntry) : option bool :=
  ceRef <$> List.find (λ e, bool_decide (ceId e = id)) l.

(** The sweep.  Every turn that goes on clears a bit, so one turn more than
    there are entries is enough. *)
Fixpoint sweep (fuel : nat) (h : string) (l : list clockEntry) : option (string * list clockEntry) :=
  match fuel with
  | O => None
  | S fuel =>
      match ref_of h l with
      | Some false => Some (h, l)
      | Some true =>
          let l := set_ref h false l in
          match advance h l with Some h' => sweep fuel h' l | None => None end
      | None => None
      end
  end.

Definition clk_Victim (p : clockPolicy) : option string * clockPolicy :=
  if length (ring p) =? 0 then (None, p)
  else
    let h := match hand p with Some h => Some h | None => front (ring p) end in
    match h with
    | None => (None, p)
    | Some h =>
        match sweep (S (length (ring p))) h (ring p) with
        | Some (id, l) => (Some id, p <| ring := l |> <| hand := Some id |>)
        | None => (None, p)
        end
    end.

Definition clk_Remove (id : string) (p : clockPolicy) : clockPolicy :=
  if bool_decide (id ∈ clk_els p) then
    let h := if bool_decide (hand p = Some id)
             then if bool_decide (advance id (ring p) = Some id) then None else advance id (ring p)
             else hand p in
    p <| hand := h |> <| ring := filter (λ e, ceId e ≠ id) (ring p) |> <| clk_els := clk_els p ∖ {[id]} |>
  else p.

Definition clk_Len (p : clockPolicy) : nat := length (ring p).

Definition ids (l : list clockEntry) : list string := ceId <$> l.

Definition clk_ok (p : clockPolicy) : Prop :=
  NoDup (ids (ring p)) ∧ clk_els p = list_to_set (ids (ring p)) ∧
  ∀ h, hand p = Some h → h ∈ ids (ring p).

Lemma ids_set_ref id b l : ids (set_ref id b l) = ids l.
Proof.
  unfold ids, set_ref. induction l as [|e l IH]; [done|]. simpl. f_equal; [|exact IH].
  by case_bool_decide.
Qed.

(** *** The sweep from the hand

    [r] is the circle in sweep order, starting at the hand. *)
Definition rotation (l r : list clockEntry) : Prop := ∃ a b, l = a ++ b ∧ r = b ++ a.

Lemma set_ref_notin id b l : id ∉ ids l → set_ref id b l = l.
Proof.
  unfold ids, set_ref. induction l as [|e l IH]; intros Hn; [done|]. simpl in *.
  rewrite not_elem_of_cons in Hn. destruct Hn as [Hne Hn].
  rewrite bool_decide_false by congruence. f_equal. by apply IH.
Qed.

Lemma ids_app l l' : ids (l ++ l') = ids l ++ ids l'.
Proof. apply fmap_app. Qed.

Lemma set_ref_middle a x c b :
  NoDup (ids (a ++ x :: c)) → set_ref (ceId x) b (a ++ x :: c) = a ++ MkClockEntry (ceId x) b :: c.
Proof.
  intros Hnd. rewrite ids_app in Hnd. apply NoDup_app in Hnd as (_ & Hac & Hc).
  apply NoDup_cons in Hc as [Hx _]. unfold set_ref. rewrite map_app. simpl.
  rewrite bool_decide_true by done. f_equal.
  - apply set_ref_notin. intros Hin. apply (Hac _ Hin). simpl. set_solver.
  - f_equal. by apply set_ref_notin.
Qed.

Lemma ref_of_middle a x c : NoDup (ids (a ++ x :: c)) → ref_of (ceId x) (a ++ x :: c) = Some (ceRef x).
Proof.
  intros Hnd. unfold ref_of. rewrite (find_lookup _ _ (length a) x); [done|..].
  - by rewrite list_lookup_middle.
  - by apply bool_decide_eq_true.
  - intros i y Hi Hy. apply bool_decide_eq_false. intros E.
    rewrite lookup_app_l in Hy by done. rewrite ids_app in Hnd. apply NoDup_app in Hnd as (_ & Hac & _).
    apply (Hac (ceId y)); [apply list_elem_of_fmap_2; by eapply list_elem_of_lookup_2|]. rewrite E. simpl. set_solver.
Qed.

Lemma next_entry_middle a x c :
  NoDup (ids (a ++ x :: c)) → next_entry (ceId x) (a ++ x :: c) = front c.
Proof.
  induction a as [|y a IH]; intros Hnd.
  - simpl. destruct c as [|z c]; [done|]. by rewrite bool_decide_true.
  - simpl in Hnd. apply NoDup_cons in Hnd as [Hy Hnd]. specialize (IH Hnd).
    rewrite ids_app in Hy. simpl in Hy.
    destruct a as [|z a]; simpl in *; (rewrite bool_decide_false by set_solver); exact IH.
Qed.

Lemma advance_middle a x c :
  NoDup (ids (a ++ x :: c)) → advance (ceId x) (a ++ x :: c) = front (c ++ a ++ [x]).
Proof.
  intros Hnd. unfold advance. rewrite next_entry_middle by done. destruct c; [|done].
  simpl. by destruct a.
Qed.

(** Entries before the first clear bit. *)
Definition first_clear (r : list clockEntry) : option clockEntry := List.find (λ e, negb (ceRef e)) r.

Definition set_bits (l : list clockEntry) : nat := length (filter (λ e, ceRef e = true) l).

Lemma rotation_ids l r : rotation l r → ids l ≡ₚ ids r.
Proof. intros (a & b & -> & ->). rewrite !ids_app. apply app_Permutation_comm. Qed.

Lemma sweep_spec fuel l r x r' :
  rotation l r → NoDup (ids l) → r = x :: r' → set_bits r < fuel →
  ∃ id l', sweep fuel (ceId x) l = Some (id, l') ∧ ids l' = ids l ∧ id ∈ ids l ∧
    ref_of id l' = Some false ∧
    Some id = (match first_clear r with Some e => Some (ceId e) | None => Some (ceId x) end).
Proof.
  revert l r x r'. induction fuel as [|fuel IH]; intros l r x r' Hrot Hnd -> Hb; [lia|].
  destruct Hrot as (a & b & -> & Hr).
  assert (∃ a' c, a ++ b = a' ++ x :: c ∧ r' = c ++ a') as (a' & c & El & ->).
  { destruct b as [|y b].
    - simpl in Hr. subst a. exists [], r'. by rewrite !app_nil_r.
    - simpl in Hr. injection Hr as <- ->. by exists a, b. }
  rewrite El in *. cbn [sweep]. rewrite ref_of_middle by done.
  destruct (ceRef x) eqn:Hx.
  2:{ exists (ceId x), (a' ++ x :: c). split_and!; try done.
      - rewrite ids_app. simpl. set_solver.
      - rewrite ref_of_middle by done. by rewrite Hx.
      - unfold first_clear. simpl. by rewrite Hx. }
  rewrite set_ref_middle by done. set (x' := MkClockEntry (ceId x) false).
  assert (NoDup (ids (a' ++ x' :: c))) as Hnd' by (rewrite ids_app in *; simpl in *; done).
  pose proof (advance_middle a' x' c Hnd') as Hadv. simpl in Hadv. rewrite Hadv.
  destruct (c ++ a' ++ [x']) as [|y r2] eqn:Er; [by destruct c, a'|]. simpl.
  assert (rotation (a' ++ x' :: c) (c ++ a' ++ [x'])) as Hrot'.
  { exists (a' ++ [x']), c. split; [by rewrite <- (assoc_L (++))|done]. }
  destruct (IH (a' ++ x' :: c) (c ++ a' ++ [x']) y r2 Hrot' Hnd' Er) as (id & l' & Hs & Hids & Hin & Href & Hv).
  { unfold set_bits in *. rewrite (assoc_L (++)), filter_app, length_app. rewrite filter_cons in Hb.
    rewrite decide_True in Hb by done. simpl in *. lia. }
  exists id, l'. rewrite Hs. split_and!; try done.
  - rewrite Hids, !ids_app. done.
  - rewrite !ids_app in *. done.
  - rewrite Hv. unfold first_clear. simpl. rewrite Hx. simpl.
    rewrite (assoc_L (++)). generalize (c ++ a'). intros q. 
    destruct (List.find (λ e, negb (ceRef e)) q) as [e|] eqn:Ef.
    + assert (List.find (λ e, negb (ceRef e)) (q ++ [x']) = Some e) as ->; [|done].
      clear -Ef. induction q as [|z q IH]; [done|]. simpl in *. destruct (negb (ceRef z)); [done|by apply IH].
    + assert (List.find (λ e, negb (ceRef e)) (q ++ [x']) = Some x') as ->; [|done].
      clear -Ef. induction q as [|z q IH]; [done|]. simpl in *. destruct (negb (ceRef z)); [done|by apply IH].
Qed.

Lemma entry_split id l : id ∈ ids l → ∃ a x c, l = a ++ x :: c ∧ ceId x = id.
Proof.
  intros (x & -> & Hx)%list_elem_of_fmap. apply list_elem_of_split in Hx as (a & c & ->). by exists a, x, c.
Qed.

Lemma advance_elem id l : NoDup (ids l) → id ∈ ids l → ∃ n, advance id l = Some n ∧ n ∈ ids l.
Proof.
  intros Hnd (a & x & c & -> & <-)%entry_split. rewrite advance_middle by done.
  destruct (c ++ a ++ [x]) as [|y r] eqn:E; [by destruct c, a|]. exists (ceId y). split; [done|].
  assert (ceId y ∈ ids (c ++ a ++ [x])) as Hin by (rewrite E; simpl; set_solver).
  rewrite !ids_app in *. simpl in *. set_solver.
Qed.

Lemma ids_filter id l : ids (filter (λ e, ceId e ≠ id) l) = list_del id (ids l).
Proof.
  unfold ids, list_del. induction l as [|e l IH]; [done|]. rewrite fmap_cons, !filter_cons.
  case_decide; [rewrite fmap_cons; by f_equal|done].
Qed.

Lemma clk_Remove_ok id p :
  clk_ok p → clk_ok (clk_Remove id p) ∧
    list_to_set (ids (ring (clk_Remove id p))) = (list_to_set (ids (ring p)) ∖ {[id]} : gset string).
Proof.
  intros (Hnd & Hels & Hhand). unfold clk_Remove. rewrite Hels. case_bool_decide as Hin; simpl.
  - rewrite ids_filter. rewrite elem_of_list_to_set in Hin.
    assert (list_to_set (list_del id (ids (ring p))) = (list_to_set (ids (ring p)) ∖ {[id]} : gset string)) as E.
    { apply set_eq. intros x. rewrite elem_of_difference, !elem_of_list_to_set, elem_of_list_del. set_solver. }
    split; [|done]. unfold clk_ok. simpl. rewrite ids_filter, E.
    split_and!; [by apply NoDup_list_del|done|]. intros h Hh. rewrite elem_of_list_del.
    case_bool_decide as Heq.
    + destruct (advance_elem id (ring p) Hnd Hin) as (n & Hn & Hnin). rewrite Hn in Hh.
      case_bool_decide as Hnid; [done|]. split; congruence.
    + split; [by apply Hhand|congruence].
  - split; [done|]. rewrite elem_of_list_to_set in Hin. apply set_eq. intros x.
    rewrite elem_of_difference, !elem_of_list_to_set, elem_of_singleton.
    split; [|tauto]. intros Hx. split; [done|]. by intros ->.
Qed.

(** Where the sweep of [Victim] starts. *)
Definition sweep_start (p : clockPolicy) : option string :=
  match hand p with Some h => Some h | None => front (ring p) end.

Lemma clk_Victim_spec p :
  clk_ok p → ring p ≠ [] →
  ∃ x r' id l', sweep_start p = Some (ceId x) ∧ rotation (ring p) (x :: r') ∧
    clk_Victim p = (Some id, p <| ring := l' |> <| hand := Some id |>) ∧
    ids l' = ids (ring p) ∧ id ∈ ids (ring p) ∧
    Some id = (match first_clear (x :: r') with Some e => Some (ceId e) | None => Some (ceId x) end).
Proof.
  intros (Hnd & Hels & Hhand) Hne.
  assert (∃ h, sweep_start p = Some h ∧ h ∈ ids (ring p)) as (h & Hh & Hin).
  { unfold sweep_start. destruct (hand p) as [h|] eqn:E; [by exists h; auto|].
    destruct (ring p) as [|e l]; [done|]. exists (ceId e). simpl. split; [done|set_solver]. }
  destruct (entry_split h (ring p) Hin) as (a & x & c & El & <-).
  assert (rotation (ring p) (x :: c ++ a)) as Hrot by (exists a, (x :: c); by rewrite El).
  destruct (sweep_spec (S (length (ring p))) (ring p) _ x (c ++ a) Hrot Hnd eq_refl)
    as (id & l' & Hs & Hids & Hidin & _ & Hv).
  { unfold set_bits. pose proof (length_filter (λ e, ceRef e = true) (x :: c ++ a)) as Hf.
    rewrite El. simpl in *. rewrite length_app in *. simpl. lia. }
  exists x, (c ++ a), id, l'. split_and!; try done.
  unfold clk_Victim. fold (sweep_start p). rewrite Hh.
  destruct (length (ring p) =? 0) eqn:E0; [apply Nat.eqb_eq, nil_length_inv in E0; done|]. by rewrite Hs.
Qed.

#[export] Instance clock_policy : EvictionPolicy clockPolicy.
Proof.
  refine {| pAdd := clk_Add; pAccess := clk_Access; pVictim := clk_Victim; pRemove := clk_Remove;
    pLen := clk_Len; pOk := clk_ok; resident p := list_to_set (ids (ring p)) |}.
  - intros id p (Hnd & Hels & Hhand). unfold clk_Add. rewrite Hels. case_bool_decide as Hin; simpl.
    + rewrite ids_set_ref. split; [|set_solver]. unfold clk_ok. simpl. by rewrite ids_set_ref.
    + rewrite elem_of_list_to_set in Hin. rewrite ids_app, list_to_set_app_L. simpl. split; [|set_solver].
      unfold clk_ok. simpl. rewrite ids_app, list_to_set_app_L. simpl. split_and!.
      * apply NoDup_app. split_and!; [done|set_solver|apply NoDup_singleton].
      * rewrite ?Hels. set_solver.
      * intros h Hh. specialize (Hhand h Hh). set_solver.
  - intros id p (Hnd & Hels & Hhand). unfold clk_Access. case_bool_decide as Hin; simpl; [|done].
    rewrite ids_set_ref. split; [|done]. unfold clk_ok. simpl. by rewrite ids_set_ref.
  - apply clk_Remove_ok.
  - intros p (Hnd & _). unfold clk_Len. rewrite size_NoDup by done. unfold ids. by rewrite length_fmap.
  - intros p _ He. destruct p as [l els h]. simpl in *. destruct l as [|e l]; [done|].
    simpl in He. set_solver.
  - intros p Hok He.
    destruct (clk_Victim_spec p Hok) as (x & r' & id & l' & _ & _ & -> & Hids & Hin & _).
    { intros E. rewrite E in He. simpl in He. set_solver. }
    destruct Hok as (Hnd & Hels & Hhand). simpl.
    exists id. split; [done|]. split; [by apply elem_of_list_to_set|].
    set (p' := p <| ring := l' |> <| hand := Some id |>).
    assert (clk_ok p') as Hok'.
    { unfold clk_ok, p'. simpl. rewrite Hids. split_and!; [done|done|]. by intros ? [= <-]. }
    destruct (clk_Remove_ok id p' Hok') as [H1 H2]. split; [done|]. rewrite H2. unfold p'. simpl. by rewrite Hids.
Defined.
