(* ===== verification/Metadata.v ===== *)
(** * The metadata index (metadata/index.go, record.go)

    One row per object in an SQL table whose [id] is the primary key and whose
    [s3_key] is unique.  Each statement of the source is a function on the
    table; the engine that runs it may fail instead, and what fails is an
    argument of the call. *)
From S2P Require Import Prelude GoLib Storage.
From stdpp Require Import gmap.
Open Scope Z_scope.

Record DataRecord := MkRecord {
  ID : string; Filename : string; S3Key : string; Shard : string; Dataset : string;
  SizeBytes : Z; Checksum : string; Labels : list string; Meta : gmap string string;
  Tier : string; Version : string; IndexedAt : Z }.
#[export] Instance eta_DataRecord : Eta DataRecord := λ r,
  MkRecord (ID r) (Filename r) (S3Key r) (Shard r) (Dataset r) (SizeBytes r) (Checksum r) (Labels r) (Meta r) (Tier r) (Version r) (IndexedAt r).

(** A row: [labels] and [meta] are JSON text, [indexed_at] a DATETIME. *)
Record Row := MkRow {
  cId : string; cFilename : string; cS3Key : string; cShard : string; cDataset : string;
  cSizeBytes : Z; cChecksum : string; cLabels : string; cMeta : string;
  cTier : string; cVersion : string; cIndexedAt : Z }.
#[export] Instance eta_Row : Eta Row := λ r,
  MkRow (cId r) (cFilename r) (cS3Key r) (cShard r) (cDataset r) (cSizeBytes r) (cChecksum r) (cLabels r) (cMeta r) (cTier r) (cVersion r) (cIndexedAt r).
Definition Table := list Row.

(** [encoding/json] on labels and meta, and how the driver renders a DATETIME
    that is scanned into a string ([time.Parse] reads it back). *)
Class Codec := {
  marshal_labels : list string → string; unmarshal_labels : string → option (list string);
  marshal_meta : gmap string string → string; unmarshal_meta : string → option (gmap string string);
  datetime : Z → string; parse_rfc3339 : string → option Z;
  labels_roundtrip ls : unmarshal_labels (marshal_labels ls) = Some ls;
  meta_roundtrip m : unmarshal_meta (marshal_meta m) = Some m;
  datetime_roundtrip t : parse_rfc3339 (datetime t) = Some t }.

Section index.
Context {codec : Codec}.

Definition row_of (r : DataRecord) : Row :=
  MkRow (ID r) (Filename r) (S3Key r) (Shard r) (Dataset r) (SizeBytes r) (Checksum r)
    (marshal_labels (Labels r)) (marshal_meta (Meta r)) (Tier r) (Version r) (IndexedAt r).

(** [scanRecord]: what cannot be decoded is left at its zero value. *)
Definition scanRecord (c : Row) : DataRecord :=
  MkRecord (cId c) (cFilename c) (cS3Key c) (cShard c) (cDataset c) (cSizeBytes c) (cChecksum c)
    (default [] (unmarshal_labels (cLabels c))) (default ∅ (unmarshal_meta (cMeta c)))
    (cTier c) (cVersion c) (default 0 (parse_rfc3339 (datetime (cIndexedAt c)))).

(** *** Statements *)

(** [INSERT OR REPLACE]: rows with the new row's id or key give way. *)
Definition conflicts (r c : Row) : Prop := cId c = cId r ∨ cS3Key c = cS3Key r.
#[export] Instance conflicts_dec r c : Decision (conflicts r c).
Proof. unfold conflicts. apply _. Defined.
Definition replace_row (t : Table) (r : Row) : Table := filter (λ c, ¬ conflicts r c) t ++ [r].

Definition Insert (fault : option string) (r : DataRecord) (t : Table) : result unit * Table :=
  match fault with
  | Some e => (Err ("insert record: " +:+ e), t)
  | None => (Ok tt, replace_row t (row_of r))
  end.

(** What the engine does on the way through a transaction. *)
Record Faults := MkFaults { fBegin : option string; fPrepare : option string; fExec : nat → option string; fCommit : option string }.
Definition no_faults : Faults := MkFaults None None (λ _, None) None.

(** The loop over the prepared statement, inside the transaction. *)
Fixpoint exec_all (exec : nat → option string) (i : nat) (recs : list DataRecord) (tx : Table) : result Table :=
  match recs with
  | [] => Ok tx
  | r :: recs =>
      match exec i with
      | Some e => Err ("batch exec: " +:+ e)
      | None => exec_all exec (S i) recs (replace_row tx (row_of r))
      end
  end.

Definition InsertBatch (f : Faults) (recs : list DataRecord) (t : Table) : result unit * Table :=
  if (length recs =? 0)%nat then (Ok tt, t)
  else
    match fBegin f with
    | Some e => (Err ("begin batch: " +:+ e), t)
    | None =>
        match fPrepare f with
        | Some e => (Err ("prepare batch: " +:+ e), t)        (* Rollback *)
        | None =>
            match exec_all (fExec f) 0 recs t with
            | Err e => (Err e, t)                               (* Rollback *)
            | Ok tx =>
                match fCommit f with
                | Some e => (Err ("commit batch: " +:+ e), t)
                | None => (Ok tt, tx)
                end
            end
        end
    end.

(** *** Queries *)

(** A query fails, or its rows end early with an error after [n] of them. *)
Inductive query_fault := Healthy | QueryFails (e : string) | RowsEnd (n : nat) (e : string).
Definition rows_read {A} (q : query_fault) (l : list A) : list A := match q with RowsEnd n _ => take n l | _ => l end.
Definition rows_err (q : query_fault) : option string := match q with RowsEnd _ e => Some e | _ => None end.

Record ShardManifest := MkManifest { smShard : string; smDataset : string; smRecords : list DataRecord; smCount : Z; smSizeBytes : Z }.

Definition filename_le (a b : Row) : Prop := str_le (cFilename a) (cFilename b).
#[export] Instance filename_le_dec : RelDecision filename_le := λ a b, decide (str_le (cFilename a) (cFilename b)).

(** The loop body of [GetShardManifest]. *)
Definition add_record (m : ShardManifest) (c : Row) : ShardManifest :=
  let r := scanRecord c in
  MkManifest (smShard m) (smDataset m) (smRecords m ++ [r]) (wrap64 (smCount m + 1)) (wrap64 (smSizeBytes m + SizeBytes r)).

Definition GetShardManifest (q : query_fault) (shard dataset : string) (t : Table) : option ShardManifest * option string :=
  match q with
  | QueryFails e => (None, Some ("query shard manifest: " +:+ e))
  | _ =>
      let rows := merge_sort filename_le (filter (λ c, cShard c = shard ∧ cDataset c = dataset) t) in
      (Some (foldl add_record (MkManifest shard dataset [] 0 0) (rows_read q rows)), rows_err q)
  end.

Definition RecordsByTierAge (q : query_fault) (tier : string) (before : Z) (t : Table) : result (list DataRecord) :=
  match q with
  | QueryFails e => Err ("records by tier age: " +:+ e)
  | RowsEnd _ e => Err e
  | Healthy => Ok (scanRecord <$> filter (λ c, cTier c = tier ∧ cIndexedAt c < before) t)
  end.

Definition UpdateTier (fault : option string) (s3Key tier : string) (t : Table) : result unit * Table :=
  match fault with
  | Some e => (Err ("update tier: " +:+ e), t)
  | None => (Ok tt, (λ c, if bool_decide (cS3Key c = s3Key) then c <| cTier := tier |> else c) <$> t)
  end.

(** [counts[l]++] over the labels of every row that decodes. *)
Definition count_label (counts : gmap string Z) (l : string) : gmap string Z := <[l := wrap64 (default 0 (counts !! l) + 1)]> counts.
Definition LabelCounts (q : query_fault) (dataset : string) (t : Table) : option (gmap string Z) * option string :=
  match q with
  | QueryFails e => (None, Some ("label counts: " +:+ e))
  | _ =>
      let rows := rows_read q (filter (λ c, cDataset c = dataset) t) in
      (Some (foldl (λ counts c, match unmarshal_labels (cLabels c) with Some ls => foldl count_label counts ls | None => counts end) ∅ rows), rows_err q)
  end.

(** [labels LIKE '%label%' LIMIT n]; a negative limit is none.  The LIKE
    operator is the engine's. *)
Definition limited {A} (limit : Z) (l : list A) : list A := if limit <? 0 then l else take (Z.to_nat limit) l.
Definition SearchByLabel (like : string → string → bool) (q : query_fault) (label dataset : string) (limit : Z) (t : Table) :
    list DataRecord * option string :=
  match q with
  | QueryFails e => ([], Some ("search by label: " +:+ e))
  | _ =>
      (scanRecord <$> rows_read q (limited limit (filter (λ c, cDataset c = dataset ∧ like ("%" +:+ label +:+ "%") (cLabels c) = true) t)),
       rows_err q)
  end.

(** [GROUP BY shard ORDER BY shard]. *)
Record ShardStat := MkShardStats { ssShard : string; ssCount : Z; ssSizeBytes : Z }.
Definition rows_of_shard (shard : string) (rows : Table) : Table := filter (λ c, cShard c = shard) rows.
Definition sum_bytes (rows : Table) : Z := foldr (λ c n, cSizeBytes c + n) 0 rows.
Definition shards_of (rows : Table) : list string := merge_sort str_le (remove_dups (cShard <$> rows)).
Definition ShardStats (q : query_fault) (dataset : string) (t : Table) : result (list ShardStat) :=
  match q with
  | QueryFails e => Err ("shard stats: " +:+ e)
  | RowsEnd _ e => Err e
  | Healthy =>
      let rows := filter (λ c, cDataset c = dataset) t in
      Ok ((λ sh, MkShardStats sh (Z.of_nat (length (rows_of_shard sh rows))) (sum_bytes (rows_of_shard sh rows))) <$> shards_of rows)
  end.

(** [SUM] over no rows is NULL, which does not scan into an [int64]. *)
Record DatasetStat := MkDatasetStats {
  dsDataset : string; dsTotalImages : Z; dsTotalBytes : Z; dsShardCount : Z;
  dsLabelCount : gmap string Z; dsTierBreakdown : gmap string Z }.
(** The groups of [GROUP BY tier]; the loop over them does not look at
    [trows.Err()]. *)
Definition tier_groups (rows : Table) : list (string * Z) :=
  (λ tier, (tier, Z.of_nat (length (filter (λ c, cTier c = tier) rows)))) <$> remove_dups (cTier <$> rows).
Definition DatasetStats (q1 q2 q3 : query_fault) (dataset : string) (t : Table) : result DatasetStat :=
  let rows := filter (λ c, cDataset c = dataset) t in
  match q1 with
  | QueryFails e | RowsEnd _ e => Err ("dataset stats: " +:+ e)
  | Healthy =>
      if (length rows =? 0)%nat then Err "dataset stats: sql: Scan error on column index 1: converting NULL to int64 is unsupported"
      else
        match q2 with
        | QueryFails e => Err e
        | _ =>
            match LabelCounts q3 dataset t with
            | (Some counts, None) =>
                Ok (MkDatasetStats dataset (Z.of_nat (length rows)) (sum_bytes rows) (Z.of_nat (length (shards_of rows)))
                      counts (list_to_map (rows_read q2 (tier_groups rows))))
            | (_, Some e) => Err e
            | (None, None) => Err EmptyString
            end
        end
  end.

(** ** The table's constraints *)

Definition table_ok (t : Table) : Prop := NoDup (cId <$> t) ∧ NoDup (cS3Key <$> t).

Lemma replace_row_in t r c : c ∈ replace_row t r ↔ c = r ∨ (c ∈ t ∧ ¬ conflicts r c).
Proof. unfold replace_row. rewrite elem_of_app, list_elem_of_filter, list_elem_of_singleton. tauto. Qed.

Lemma NoDup_fmap_filter {A B} (f : A → B) (P : A → Prop) `{!∀ x, Decision (P x)} (l : list A) : NoDup (f <$> l) → NoDup (f <$> filter P l).
Proof. intros Hnd. eapply sublist_NoDup; [exact Hnd|]. apply fmap_sublist, sublist_filter. Qed.

Lemma replace_row_ok t r : table_ok t → table_ok (replace_row t r).
Proof.
  intros [Hi Hk]. unfold replace_row. split; rewrite fmap_app; cbn; apply NoDup_app; (split; [by apply NoDup_fmap_filter|]);
    (split; [|apply NoDup_singleton]); intros x (c & -> & [Hn _]%list_elem_of_filter)%list_elem_of_fmap E%list_elem_of_singleton;
    apply Hn; unfold conflicts; auto.
Qed.

Lemma exec_all_ok exec i recs tx tx' : exec_all exec i recs tx = Ok tx' → tx' = foldl replace_row tx (row_of <$> recs).
Proof.
  revert i tx. induction recs as [|r recs IH]; intros i tx H; cbn in H; [by injection H as <-|].
  destruct (exec i); [done|]. by apply IH in H.
Qed.

Lemma fold_replace_in t rs c : c ∈ foldl replace_row t rs ↔
  (∃ i, rs !! i = Some c ∧ ∀ j r, (i < j)%nat → rs !! j = Some r → ¬ conflicts r c) ∨ (c ∈ t ∧ ∀ r, r ∈ rs → ¬ conflicts r c).
Proof.
  induction rs as [|r rs IH] using rev_ind; cbn.
  { split; [intros Hc; right; split; [done|]; by intros r ?%elem_of_nil|]. intros [(i & Hi & _)|[Hc _]]; done. }
  rewrite foldl_app. cbn. rewrite replace_row_in, IH. split.
  - intros [-> |[[(i & Hi & Hl)|[Hc Ha]] Hn]].
    + left. exists (length rs). split; [by apply list_lookup_middle|]. intros j x Hj Hx. apply lookup_lt_Some in Hx.
      rewrite length_app in Hx. cbn in Hx. lia.
    + left. exists i. split; [by apply lookup_app_l_Some|]. intros j x Hj [Hx|[_ [_ <-]%list_lookup_singleton_Some]]%lookup_app_Some; eauto.
    + right. split; [done|]. intros x [?| ->%list_elem_of_singleton]%elem_of_app; auto.
  - intros [(i & [Hi|[Hle [Hz <-]%list_lookup_singleton_Some]]%lookup_app_Some & Hl)|[Hc Ha]].
    + right. split; [|apply (Hl (length rs)); [by apply lookup_lt_Some in Hi|by apply list_lookup_middle]].
      left. exists i. split; [done|]. intros j x Hj Hx. apply (Hl j); [done|by apply lookup_app_l_Some].
    + by left.
    + right. split; [|apply Ha; set_solver]. right. split; [done|]. intros x Hx. apply Ha. set_solver.
Qed.

Lemma insert_batch_cases f recs t :
  (∃ e, InsertBatch f recs t = (Err e, t)) ∨ InsertBatch f recs t = (Ok tt, foldl replace_row t (row_of <$> recs)).
Proof.
  unfold InsertBatch. destruct (Nat.eqb_spec (length recs) 0) as [Hz|_]; [right; by destruct recs|].
  destruct (fBegin f); [left; by eexists|]. destruct (fPrepare f); [left; by eexists|].
  destruct (exec_all _ 0 recs t) as [tx|e] eqn:E; [|left; by eexists]. destruct (fCommit f); [left; by eexists|].
  right. by apply exec_all_ok in E as ->.
Qed.

(** A batch commits as a whole or not at all: on any error the table is as it
    was; on success a row of it is the last record of the batch with its id and
    key, or an old row that no record of the batch replaces.  Ids and keys stay
    unique. *)
Theorem insert_batch_atomic f recs t : table_ok t →
  table_ok (InsertBatch f recs t).2 ∧
  match (InsertBatch f recs t).1 with
  | Err _ => (InsertBatch f recs t).2 = t
  | Ok _ => ∀ c, c ∈ (InsertBatch f recs t).2 ↔
      (∃ i r, recs !! i = Some r ∧ c = row_of r ∧ ∀ j r', (i < j)%nat → recs !! j = Some r' → ¬ conflicts (row_of r') c) ∨
      (c ∈ t ∧ ∀ r, r ∈ recs → ¬ conflicts (row_of r) c)
  end.
Proof.
  intros Hok.
  destruct (insert_batch_cases f recs t) as [[e ->]| ->]; cbn [fst snd]; [by split|]. split.
  - apply foldl_inv; [done|]. intros; by apply replace_row_ok.
  - intros c. rewrite fold_replace_in. split; (intros [(i & H)|[Hc Ha]]; [left|right; split; [done|]]).
    + destruct H as [(r & -> & Hr)%list_lookup_fmap_Some Hl]. exists i, r. split_and!; try done.
      intros j r' Hj Hr'. apply (Hl j); [done|]. by rewrite list_lookup_fmap, Hr'.
    + intros r Hr. apply Ha. by apply list_elem_of_fmap_2.
    + destruct H as (r & Hr & -> & Hl). exists i. split; [by rewrite list_lookup_fmap, Hr|].
      intros j c Hj (r' & -> & Hr')%list_lookup_fmap_Some. by eapply Hl.
    + intros c' (r & -> & Hr)%list_elem_of_fmap. by apply Ha.
Qed.

Lemma scan_row r : scanRecord (row_of r) = r.
Proof.
  unfold scanRecord. cbn. rewrite labels_roundtrip, meta_roundtrip, datetime_roundtrip. by destruct r.
Qed.

(** ** Queries *)

Lemma sum_bytes_app a b : sum_bytes (a ++ b) = sum_bytes a + sum_bytes b.
Proof. unfold sum_bytes. induction a as [|c a IH]; cbn; lia. Qed.

Lemma add_records rows m : foldl add_record m rows =
  MkManifest (smShard m) (smDataset m) (smRecords m ++ (scanRecord <$> rows))
    (if bool_decide (rows = []) then smCount m else wrap64 (smCount m + Z.of_nat (length rows)))
    (if bool_decide (rows = []) then smSizeBytes m else wrap64 (smSizeBytes m + sum_bytes rows)).
Proof.
  induction rows as [|c rows IH] using rev_ind; [cbn; rewrite app_nil_r; by destruct m|].
  rewrite foldl_app, IH. cbn. unfold add_record. cbn. rewrite fmap_app, app_assoc.
  rewrite (bool_decide_eq_false_2 (rows ++ [c] = [])) by (intros E; by apply app_eq_nil in E as [_ ?]). f_equal.
  - rewrite length_app. case_bool_decide; [subst; cbn; f_equal; lia|]. rewrite wrap64_add. f_equal. cbn. lia.
  - rewrite sum_bytes_app. cbn. rewrite Z.add_0_r. case_bool_decide; [by subst|]. rewrite wrap64_add. f_equal. lia.
Qed.

Lemma wrap64_if {A} (l : list A) n : (l = [] → n = 0) → (if bool_decide (l = []) then 0 else wrap64 (0 + n)) = wrap64 n.
Proof. intros H. case_bool_decide; [by rewrite H|done]. Qed.

(** A shard's manifest is its records, in the order of their names, with their
    number and total size. *)
Theorem manifest_lists_shard shard dataset t m : GetShardManifest Healthy shard dataset t = (Some m, None) →
  (∀ r, r ∈ smRecords m ↔ ∃ c, c ∈ t ∧ cShard c = shard ∧ cDataset c = dataset ∧ r = scanRecord c) ∧
  StronglySorted str_le (Filename <$> smRecords m) ∧
  smCount m = wrap64 (Z.of_nat (length (smRecords m))) ∧
  smSizeBytes m = wrap64 (foldr (λ r n, SizeBytes r + n) 0 (smRecords m)).
Proof.
  unfold GetShardManifest. cbn [rows_read rows_err]. set (rows := merge_sort filename_le _). intros [= <-]. rewrite add_records. cbn.
  split_and!.
  - intros r. unfold rows. rewrite list_elem_of_fmap. split.
    + intros (c & -> & Hc). rewrite merge_sort_Permutation, list_elem_of_filter in Hc. exists c. naive_solver.
    + intros (c & Hc & Hs & Hd & ->). exists c. split; [done|]. rewrite merge_sort_Permutation, list_elem_of_filter. naive_solver.
  - rewrite <- list_fmap_compose. apply (StronglySorted_fmap _ filename_le str_le); [done|].
    apply StronglySorted_merge_sort; intros ?*; unfold filename_le; [apply str_le_trans|apply str_le_total].
  - rewrite length_fmap. apply wrap64_if. by intros ->.
  - replace (foldr _ 0 (scanRecord <$> rows)) with (sum_bytes rows); [apply wrap64_if; by intros ->|].
    unfold sum_bytes. induction rows as [|c l IH]; [done|]. cbn. by rewrite IH.
Qed.

(** A record that was indexed is read back unchanged from the manifest of its
    shard, with every other record of the batch. *)
Theorem indexed_records_come_back recs t t' m shard dataset : table_ok t →
  NoDup (ID <$> recs) → NoDup (S3Key <$> recs) → InsertBatch no_faults recs t = (Ok tt, t') →
  GetShardManifest Healthy shard dataset t' = (Some m, None) →
  ∀ r, r ∈ recs → Shard r = shard → Dataset r = dataset → r ∈ smRecords m.
Proof.
  intros Hok Hids Hkeys Hb Hm r Hr Hs Hd. apply (manifest_lists_shard shard dataset t' m Hm).
  exists (row_of r). rewrite scan_row. split; [|done].
  pose proof (insert_batch_atomic no_faults recs t Hok) as [_ Hin]. rewrite Hb in Hin. apply Hin. left.
  apply list_elem_of_lookup_1 in Hr as [i Hi]. exists i, r. split_and!; [done..|].
  intros j r' Hj Hr' [E|E]; cbn in E.
  - assert (i = j); [|lia]. apply (NoDup_lookup (ID <$> recs) _ _ (ID r)); [done|by rewrite list_lookup_fmap, Hi|by rewrite list_lookup_fmap, Hr', E].
  - assert (i = j); [|lia]. apply (NoDup_lookup (S3Key <$> recs) _ _ (S3Key r)); [done|by rewrite list_lookup_fmap, Hi|by rewrite list_lookup_fmap, Hr', E].
Qed.

(** A dataset's statistics count every record once: the tier breakdown has
    each tier's number of records. *)
Lemma tier_breakdown_exact dataset t s : DatasetStats Healthy Healthy Healthy dataset t = Ok s → ∀ tier,
  default 0 (dsTierBreakdown s !! tier) = Z.of_nat (length (filter (λ c, cDataset c = dataset ∧ cTier c = tier) t)).
Proof.
  unfold DatasetStats. set (rows := filter (λ c, cDataset c = dataset) t). destruct (length rows =? 0)%nat; [done|].
  destruct (LabelCounts _ _ _) as [[counts|] [e|]]; try done. intros [= <-] tier. cbn [dsTierBreakdown rows_read].
  replace (filter (λ c, cDataset c = dataset ∧ cTier c = tier) t) with (filter (λ c, cTier c = tier) rows).
  2: { unfold rows, Table. rewrite list_filter_filter. apply list_filter_iff. intros c. tauto. }
  clearbody rows. unfold tier_groups. destruct (decide (tier ∈ cTier <$> rows)) as [Hin|Hout].
  - rewrite (elem_of_list_to_map_1 _ tier (Z.of_nat (length (filter (λ c, cTier c = tier) rows)))); [done| |].
    + rewrite <- list_fmap_compose, list_fmap_id. apply NoDup_remove_dups.
    + apply list_elem_of_fmap. exists tier. split; [done|]. by apply elem_of_remove_dups.
  - rewrite not_elem_of_list_to_map_1.
    + rewrite (filter_none (λ c, cTier c = tier)); [done|]. intros c Hc E. apply Hout. rewrite <- E. by apply list_elem_of_fmap_2.
    + rewrite <- list_fmap_compose, list_fmap_id, elem_of_remove_dups. done.
Qed.

(** An empty dataset has no statistics: the sum of its sizes is NULL. *)
Lemma empty_dataset_stats_fail q2 q3 dataset t : (∀ c, c ∈ t → cDataset c ≠ dataset) →
  ∃ e, DatasetStats Healthy q2 q3 dataset t = Err e.
Proof.
  intros H. unfold DatasetStats. rewrite (filter_none (λ c, cDataset c = dataset)) by done. by eexists.
Qed.

(** *** Label counts *)

Definition occurrences (l : string) (ls : list string) : Z := Z.of_nat (length (filter (λ x, x = l) ls)).

Lemma occurrences_app l a b : occurrences l (a ++ b) = occurrences l a + occurrences l b.
Proof. unfold occurrences. rewrite filter_app, length_app. lia. Qed.

Lemma count_labels ls counts l : default 0 (foldl count_label counts ls !! l) = wrap64 (default 0 (counts !! l) + occurrences l ls) ∨
  (occurrences l ls = 0 ∧ foldl count_label counts ls !! l = counts !! l).
Proof.
  induction ls as [|x ls IH] using rev_ind; [by right|]. rewrite foldl_app, occurrences_app. cbn. unfold count_label at 1 3.
  destruct (decide (x = l)) as [->|Hne].
  - rewrite lookup_insert_eq. cbn. left. unfold occurrences at 2. rewrite filter_cons_True by done. cbn.
    destruct IH as [->|[Hz ->]]; [rewrite wrap64_add; f_equal; lia|]. f_equal. lia.
  - rewrite lookup_insert_ne by done. unfold occurrences at 2 4. rewrite filter_cons_False by done. cbn. rewrite Z.add_0_r. exact IH.
Qed.

(** [LabelCounts] counts how often each label occurs on the dataset's
    records. *)
Theorem label_counts_exact dataset rs l : let ls := concat (Labels <$> filter (λ r, Dataset r = dataset) rs) in
  occurrences l ls ≤ max_int64 →
  ∃ counts, LabelCounts Healthy dataset (row_of <$> rs) = (Some counts, None) ∧ default 0 (counts !! l) = occurrences l ls.
Proof.
  intros ls Hmax. eexists. split; [reflexivity|]. cbn [rows_read].
  set (f := λ counts c, match unmarshal_labels (cLabels c) with Some x => foldl count_label counts x | None => counts end).
  assert (Hf : foldl f ∅ (filter (λ c, cDataset c = dataset) (row_of <$> rs)) = foldl count_label ∅ ls).
  { subst ls. clear. generalize (∅ : gmap string Z) as m. induction rs as [|r rs IH]; intros m; [done|]. rewrite fmap_cons. destruct (decide (Dataset r = dataset)).
    - rewrite !filter_cons_True by done. cbn. unfold f at 2. cbn. rewrite labels_roundtrip, foldl_app. apply IH.
    - rewrite !filter_cons_False by done. apply IH. }
  change (default 0 (foldl f ∅ (filter (λ c, cDataset c = dataset) (row_of <$> rs)) !! l) = occurrences l ls).
  rewrite Hf. assert (0 ≤ occurrences l ls) by (unfold occurrences; lia).
  destruct (count_labels ls ∅ l) as [->|[-> ->]]; rewrite lookup_empty; cbn; [|done]. apply wrap64_id. unfold max_int64 in *. lia.
Qed.
End index.

(** ** A concrete encoding *)

Definition enum_text `{Countable A} (x : A) : string := string_of_bytes (pos_bytes (encode x)).
Definition text_enum `{Countable A} (s : string) : option A := p ← bytes_pos (bytes_of_string s); decode p.

Lemma text_enum_text `{Countable A} (x : A) : text_enum (enum_text x) = Some x.
Proof. unfold text_enum, enum_text. rewrite bytes_of_string_of_bytes, bytes_pos_bytes. cbn. apply decode_encode. Qed.

#[local, refine] Instance text_codec : Codec := {|
  marshal_labels := enum_text; unmarshal_labels := text_enum; marshal_meta := enum_text; unmarshal_meta := text_enum;
  datetime := enum_text; parse_rfc3339 := text_enum |}.
Proof. all: intros x; apply text_enum_text. Defined.

Definition img (id name : string) (labels : list string) (size : Z) : DataRecord :=
  MkRecord id name (ObjectKey "pets" name) (ShardKey name) "pets" size "" labels ∅ TierHot "" 7.
Definition two_images : list DataRecord := [img "1" "a.png" ["cat"; "small"] 10; img "2" "b.png" ["cat"] 20].

Lemma two_images_table : table_ok (row_of <$> [img "0" "a.png" [] 5]).
Proof. split; apply NoDup_singleton. Qed.

(** The batch replaces the older record of the same object. *)
Lemma insert_batch_atomic_witness : (InsertBatch no_faults two_images (row_of <$> [img "0" "a.png" [] 5])).2 = row_of <$> two_images ∧
  table_ok (InsertBatch no_faults two_images (row_of <$> [img "0" "a.png" [] 5])).2.
Proof.
  split; [vm_compute; reflexivity|]. apply (insert_batch_atomic no_faults two_images (row_of <$> [img "0" "a.png" [] 5]) two_images_table).
Defined.

Lemma indexed_records_come_back_witness : ∃ m, (GetShardManifest Healthy (ShardKey "a.png") "pets" (row_of <$> two_images)).1 = Some m ∧
  img "1" "a.png" ["cat"; "small"] 10 ∈ smRecords m.
Proof.
  eexists. split; [reflexivity|].
  apply (indexed_records_come_back two_images (row_of <$> [img "0" "a.png" [] 5]) (row_of <$> two_images) _ (ShardKey "a.png") "pets" two_images_table);
    [apply (bool_decide_unpack _); vm_compute; exact I|apply (bool_decide_unpack _); vm_compute; exact I|vm_compute; reflexivity|reflexivity|left|reflexivity|reflexivity].
Defined.

Lemma label_counts_exact_witness : ∃ counts, LabelCounts Healthy "pets" (row_of <$> two_images) = (Some counts, None) ∧ default 0 (counts !! "cat") = 2.
Proof.
  apply (label_counts_exact "pets" two_images "cat"). vm_compute. discriminate.
Defined.

Lemma manifest_lists_shard_witness : ∃ m, (GetShardManifest Healthy (ShardKey "a.png") "pets" (row_of <$> two_images)).1 = Some m ∧
  StronglySorted str_le (Filename <$> smRecords m) ∧ smCount m = wrap64 (Z.of_nat (length (smRecords m))).
Proof.
  eexists. split; [reflexivity|].
  refine ((λ H, conj (proj1 (proj2 H)) (proj1 (proj2 (proj2 H)))) (manifest_lists_shard (ShardKey "a.png") "pets" (row_of <$> two_images) _ _)).
  reflexivity.
Defined.
