(* ===== verification/Tiering.v ===== *)
(** * Storage tiering (tiering/engine.go)

    A pass moves objects that are old enough one tier down: the object is
    copied onto itself in the colder storage class, then the index is told.
    The index is the table of [Metadata]; the store is a class that says which
    storage class an object has. *)
From S2P Require Import Prelude GoLib Storage Metadata.
From stdpp Require Import gmap.
Open Scope Z_scope.

(** [s3StorageClass] of client.go. *)
Definition s3StorageClass (class : string) : string :=
  if bool_decide (class = "STANDARD_IA") then "STANDARD_IA"
  else if bool_decide (class = "GLACIER_IR") then "GLACIER_IR"
  else if bool_decide (class = "DEEP_ARCHIVE") then "DEEP_ARCHIVE"
  else "STANDARD".

(** S3's in-place copy: it fails and changes nothing, or the object, which
    exists, has the new class. *)
Class ClassStore (Bkt : Type) := {
  cs_class : Bkt → string → option string;
  cs_copy : Bkt → string → string → option Bkt;
  cs_copy_key s s' k c : cs_copy s k c = Some s' → cs_class s' k = Some c;
  cs_copy_src s k c : is_Some (cs_copy s k c) ↔ is_Some (cs_class s k);
  cs_copy_other s s' k c k' : cs_copy s k c = Some s' → k' ≠ k → cs_class s' k' = cs_class s k' }.

Record Policy := MkPolicy { HotDays : Z; WarmDays : Z; ColdDays : Z }.
Record TransitionResult := MkTransition { From : string; To : string; Count : Z; Bytes : Z }.
Record Report := MkReport { TotalTransitioned : Z; Transitions : list TransitionResult }.

(** What fails during a pass, and [now.AddDate(0, 0, -days)]. *)
Record Env := MkEnv {
  eQuery : string → query_fault;                 (* by the tier that is left *)
  eCopy : string → string → option string;       (* by target tier and key *)
  eUpdate : string → string → option string;
  eDaysAgo : Z → Z }.

Section engine.
Context {codec : Codec} {Bkt : Type} {store : ClassStore Bkt} (env : Env).

Definition CopyStorageClass (fault : option string) (key class : string) (s : Bkt) : result unit * Bkt :=
  match fault with
  | Some e => (Err ("copy storage class for " +:+ key +:+ ": " +:+ e), s)
  | None => match cs_copy s key (s3StorageClass class) with
            | Some s' => (Ok tt, s')
            | None => (Err ("copy storage class for " +:+ key +:+ ": NoSuchKey"), s)
            end
  end.

(** Counts, bytes, the store and the table during a transition. *)
Record Pass := MkPass { pCount : Z; pBytes : Z; pStore : Bkt; pTable : Table }.

(** The body of [transition]'s loop. *)
Definition move_one (to : string) (st : Pass) (r : DataRecord) : Pass :=
  match CopyStorageClass (eCopy env to (S3Key r)) (S3Key r) (S3StorageClass to) (pStore st) with
  | (Err _, s) => MkPass (pCount st) (pBytes st) s (pTable st)
  | (Ok _, s) =>
      match UpdateTier (eUpdate env to (S3Key r)) (S3Key r) to (pTable st) with
      | (Err _, t) => MkPass (pCount st) (pBytes st) s t
      | (Ok _, t) => MkPass (wrap64 (pCount st + 1)) (wrap64 (pBytes st + SizeBytes r)) s t
      end
  end.

Definition transition (from to : string) (before : Z) (s : Bkt) (t : Table) : result (Z * Z) * Bkt * Table :=
  match RecordsByTierAge (eQuery env from) from before t with
  | Err e => (Err e, s, t)
  | Ok records =>
      let st := foldl (move_one to) (MkPass 0 0 s t) records in
      (Ok (pCount st, pBytes st), pStore st, pTable st)
  end.

Definition plan (p : Policy) : list (string * string * Z) :=
  [(TierHot, TierWarm, eDaysAgo env (HotDays p)); (TierWarm, TierCold, eDaysAgo env (WarmDays p));
   (TierCold, TierArchive, eDaysAgo env (ColdDays p))].

Fixpoint run_plan (steps : list (string * string * Z)) (rep : Report) (s : Bkt) (t : Table) : Report * option string * Bkt * Table :=
  match steps with
  | [] => (rep, None, s, t)
  | (from, to, before) :: steps =>
      match transition from to before s t with
      | (Err e, s, t) => (rep, Some ("transition " +:+ from +:+ "->" +:+ to +:+ ": " +:+ e), s, t)
      | (Ok (n, bytes), s, t) =>
          run_plan steps (MkReport (wrap64 (TotalTransitioned rep + n)) (Transitions rep ++ [MkTransition from to n bytes])) s t
      end
  end.
Definition Run (p : Policy) (s : Bkt) (t : Table) : Report * option string * Bkt * Table := run_plan (plan p) (MkReport 0 []) s t.

(** ** The index never runs ahead of the store *)

Definition rank (tier : string) : option nat :=
  if bool_decide (tier = TierHot) then Some 0%nat else if bool_decide (tier = TierWarm) then Some 1%nat
  else if bool_decide (tier = TierCold) then Some 2%nat else if bool_decide (tier = TierArchive) then Some 3%nat else None.

(** The object of a row is in the storage class of its tier or of a colder
    one. *)
Definition stored_as (s : Bkt) (c : Row) : Prop :=
  ∃ tier i j, cs_class s (cS3Key c) = Some (S3StorageClass tier) ∧ rank (cTier c) = Some i ∧ rank tier = Some j ∧ (i ≤ j)%nat.
Definition in_step (s : Bkt) (t : Table) : Prop := ∀ c, c ∈ t → stored_as s c.

Lemma class_of_tier tier : s3StorageClass (S3StorageClass tier) = S3StorageClass tier.
Proof. unfold S3StorageClass. repeat case_bool_decide; reflexivity. Qed.

(** What one record's move did to the store and the table. *)
Variant moved (to key : string) : Bkt → Table → Bkt → Table → Prop :=
  | not_copied s t : moved to key s t s t
  | only_copied s t s' : cs_copy s key (S3StorageClass to) = Some s' → moved to key s t s' t
  | fully_moved s t s' : cs_copy s key (S3StorageClass to) = Some s' →
      moved to key s t s' ((λ c, if bool_decide (cS3Key c = key) then c <| cTier := to |> else c) <$> t).

Lemma move_one_moved to st r : moved to (S3Key r) (pStore st) (pTable st) (pStore (move_one to st r)) (pTable (move_one to st r)).
Proof.
  unfold move_one, CopyStorageClass, UpdateTier. rewrite class_of_tier. destruct (eCopy _ _ _); [constructor|].
  destruct (cs_copy _ _ _) eqn:E; [|constructor]. destruct (eUpdate _ _ _); by constructor.
Qed.

Lemma moved_keys to key s t s' t' : moved to key s t s' t' → cS3Key <$> t' = cS3Key <$> t ∧ cId <$> t' = cId <$> t.
Proof.
  destruct 1; [done|done|]. rewrite <- !list_fmap_compose. split; apply list_fmap_ext; intros i c _; cbn; by case_bool_decide.
Qed.

Lemma moved_in_step i from to key s t s' t' : moved to key s t s' t' → rank from = Some i → rank to = Some (S i) →
  (∀ c, c ∈ t → cS3Key c = key → cTier c = from) → in_step s t → in_step s' t'.
Proof.
  intros Hm Hf Ht Hfrom Hin. destruct Hm as [s t|s t s' Hc|s t s' Hc]; [done| |].
  - intros c Hct. destruct (decide (cS3Key c = key)) as [E|Hne].
    + exists to, i, (S i). rewrite E, (cs_copy_key _ _ _ _ Hc), (Hfrom c Hct E). split_and!; [done..|lia].
    + destruct (Hin c Hct) as (tier & a & b & Hcl & ?). exists tier, a, b. by rewrite (cs_copy_other _ _ _ _ _ Hc Hne).
  - intros c' (c & -> & Hct)%list_elem_of_fmap. case_bool_decide as E.
    + exists to, (S i), (S i). cbn. rewrite E, (cs_copy_key _ _ _ _ Hc). done.
    + destruct (Hin c Hct) as (tier & a & b & Hcl & ?). exists tier, a, b. by rewrite (cs_copy_other _ _ _ _ _ Hc E).
Qed.

Lemma fold_in_step i from to recs st : rank from = Some i → rank to = Some (S i) → NoDup (S3Key <$> recs) →
  (∀ r c, r ∈ recs → c ∈ pTable st → cS3Key c = S3Key r → cTier c = from) →
  in_step (pStore st) (pTable st) →
  let st' := foldl (move_one to) st recs in
  in_step (pStore st') (pTable st') ∧ cS3Key <$> pTable st' = cS3Key <$> pTable st ∧ cId <$> pTable st' = cId <$> pTable st.
Proof.
  intros Hf Ht. revert st. induction recs as [|r recs IH]; intros st Hnd Hfrom Hin; cbn; [done|].
  apply NoDup_cons in Hnd as [Hnr Hnd]. pose proof (move_one_moved to st r) as Hm.
  pose proof (moved_keys _ _ _ _ _ _ Hm) as [Hk Hi].
  destruct (IH (move_one to st r) Hnd) as (H1 & H2 & H3).
  - intros r' c' Hr' Hc' E. assert (Hne : S3Key r' ≠ S3Key r). { intros E'. apply Hnr. rewrite <- E'. by apply list_elem_of_fmap_2. }
    destruct Hm; [by apply (Hfrom r'); [right|..]|by apply (Hfrom r'); [right|..]|].
    apply list_elem_of_fmap in Hc' as (c & -> & Hc). case_bool_decide as Ec; [cbn in E; congruence|]. by apply (Hfrom r'); [right|..].
  - apply (moved_in_step i from _ _ _ _ _ _ Hm); [done..| |done]. intros c Hc E. by apply (Hfrom r); [left|..].
  - by rewrite H2, H3.
Qed.

Lemma key_inj t c c' : table_ok t → c ∈ t → c' ∈ t → cS3Key c = cS3Key c' → c = c'.
Proof.
  intros [_ Hnd] [i Hi]%list_elem_of_lookup [j Hj]%list_elem_of_lookup E. enough (i = j) as -> by congruence.
  eapply NoDup_lookup; [exact Hnd|by apply list_lookup_fmap_Some_2|]. rewrite E. by apply list_lookup_fmap_Some_2.
Qed.

(** The records [RecordsByTierAge] returns name each key once. *)
Lemma aged_keys from before t : table_ok t →
  let recs := scanRecord <$> filter (λ c, cTier c = from ∧ cIndexedAt c < before) t in
  NoDup (S3Key <$> recs) ∧ ∀ c, c ∈ t → (cS3Key c ∈ S3Key <$> recs ↔ cTier c = from ∧ cIndexedAt c < before).
Proof.
  intros Hok recs. unfold recs. rewrite <- list_fmap_compose. split; [by apply NoDup_fmap_filter, Hok|]. intros c Hc. split.
  - intros (c' & E & [HP Hc']%list_elem_of_filter)%list_elem_of_fmap. cbn in E. by rewrite (key_inj t c c' Hok Hc Hc' E).
  - intros HP. apply list_elem_of_fmap. exists c. split; [done|]. by apply list_elem_of_filter.
Qed.

Lemma transition_in_step i from to before s t : rank from = Some i → rank to = Some (S i) → table_ok t → in_step s t →
  let '(_, s', t') := transition from to before s t in in_step s' t' ∧ table_ok t'.
Proof.
  intros Hf Ht Hok Hin. unfold transition, RecordsByTierAge. destruct (eQuery env from); [|done|done].
  destruct (aged_keys from before t Hok) as [Hnd Hiff].
  destruct (fold_in_step i from to (scanRecord <$> filter (λ c, cTier c = from ∧ cIndexedAt c < before) t) (MkPass 0 0 s t)) as (H1 & H2 & H3); [done..| |done|].
  - intros r c Hr Hc E. apply Hiff; [done|]. rewrite E. by apply list_elem_of_fmap_2.
  - split; [done|]. unfold table_ok. by rewrite H2, H3.
Qed.

(** ** A pass in which nothing fails *)

Definition healthy : Prop := (∀ tier, eQuery env tier = Healthy) ∧ (∀ to key, eCopy env to key = None) ∧ (∀ to key, eUpdate env to key = None).

(** The tier a row has after one transition, and after a pass. *)
Definition due (from : string) (before : Z) (c : Row) : bool := bool_decide (cTier c = from ∧ cIndexedAt c < before).
Definition retier (step : string * string * Z) (c : Row) : Row :=
  let '(from, to, before) := step in if due from before c then c <| cTier := to |> else c.
Definition retier_all (steps : list (string * string * Z)) (c : Row) : Row := foldl (λ c step, retier step c) c steps.

Lemma fold_healthy to recs st : healthy → (∀ r, r ∈ recs → is_Some (cs_class (pStore st) (S3Key r))) →
  let st' := foldl (move_one to) st recs in
  pTable st' = (λ c, if bool_decide (cS3Key c ∈ S3Key <$> recs) then c <| cTier := to |> else c) <$> pTable st ∧
  (∀ k, cs_class (pStore st') k = if bool_decide (k ∈ S3Key <$> recs) then Some (S3StorageClass to) else cs_class (pStore st) k) ∧
  wrap64 (pCount st') = wrap64 (pCount st + Z.of_nat (length recs)) ∧
  wrap64 (pBytes st') = wrap64 (pBytes st + foldr (λ r n, SizeBytes r + n) 0 recs).
Proof.
  intros (Hq & Hc & Hu). revert st. induction recs as [|r recs IH]; intros st Hin.
  { cbn. rewrite !Z.add_0_r. split_and!; [by rewrite list_fmap_id|done..]. }
  cbn. destruct (proj2 (cs_copy_src (pStore st) (S3Key r) (S3StorageClass to)) (Hin r ltac:(left))) as [b Hb].
  assert (Em : move_one to st r = MkPass (wrap64 (pCount st + 1)) (wrap64 (pBytes st + SizeBytes r)) b
      ((λ c, if bool_decide (cS3Key c = S3Key r) then c <| cTier := to |> else c) <$> pTable st)).
  { unfold move_one, CopyStorageClass, UpdateTier. by rewrite Hc, class_of_tier, Hb, Hu. }
  assert (Hcl : ∀ k, cs_class b k = if bool_decide (k = S3Key r) then Some (S3StorageClass to) else cs_class (pStore st) k).
  { intros k. case_bool_decide as E; [rewrite E; by apply (cs_copy_key _ _ _ _ Hb)|by apply (cs_copy_other _ _ _ _ _ Hb)]. }
  rewrite Em. destruct (IH (MkPass (wrap64 (pCount st + 1)) (wrap64 (pBytes st + SizeBytes r)) b
      ((λ c, if bool_decide (cS3Key c = S3Key r) then c <| cTier := to |> else c) <$> pTable st))) as (H1 & H2 & H3 & H4).
  { intros r' Hr'. cbn. rewrite Hcl. case_bool_decide; [done|]. apply Hin. by right. }
  cbn in H1, H2, H3, H4. rewrite H3, H4, H1. clear IH H1 H3 H4 Em. split_and!.
  - rewrite <- list_fmap_compose. apply list_fmap_ext. intros i c _. cbn. repeat case_bool_decide; cbn in *; set_solver.
  - intros k. rewrite H2, Hcl. repeat case_bool_decide; set_solver.
  - rewrite wrap64_add. f_equal. lia.
  - rewrite wrap64_add. f_equal. lia.
Qed.

Lemma due_spec from before c : due from before c = true ↔ cTier c = from ∧ cIndexedAt c < before.
Proof. unfold due. by rewrite bool_decide_eq_true. Qed.

(** The index and the store agree exactly. *)
Definition synced (s : Bkt) (t : Table) : Prop := ∀ c, c ∈ t → cs_class s (cS3Key c) = Some (S3StorageClass (cTier c)).

Lemma transition_healthy from to before s t : healthy → table_ok t → synced s t →
  ∃ n b s', transition from to before s t = (Ok (n, b), s', retier (from, to, before) <$> t) ∧
    wrap64 n = wrap64 (Z.of_nat (length (filter (λ c, due from before c) t))) ∧ synced s' (retier (from, to, before) <$> t).
Proof.
  intros Hh Hok Hin. unfold transition, RecordsByTierAge. rewrite (proj1 Hh).
  destruct (aged_keys from before t Hok) as [_ Hiff]. set (recs := scanRecord <$> _) in *.
  destruct (fold_healthy to recs (MkPass 0 0 s t) Hh) as (H1 & H2 & H3 & _).
  { intros r (c & -> & [_ Hc]%list_elem_of_filter)%list_elem_of_fmap. eexists. by apply Hin. }
  cbn in H1, H2, H3. assert (Hb : ∀ c, c ∈ t → bool_decide (cS3Key c ∈ S3Key <$> recs) = due from before c).
  { intros c Hc. apply Bool.eq_true_iff_eq. by rewrite bool_decide_eq_true, due_spec, Hiff. }
  eexists _, _, _. split_and!; [| |].
  - f_equal. rewrite H1. apply list_fmap_ext. intros j c Hj. unfold retier. rewrite Hb; [done|by eapply list_elem_of_lookup_2].
  - rewrite H3, Z.add_0_l. unfold recs. rewrite length_fmap. do 3 f_equal. apply list_filter_iff. intros c. by rewrite Is_true_true, due_spec.
  - intros c' (c & -> & Hc)%list_elem_of_fmap. cbn. destruct (due from before c) eqn:Ed; cbn; rewrite H2, Hb, Ed by done; [done|by apply Hin].
Qed.

Lemma retier_key step c : cS3Key (retier step c) = cS3Key c ∧ cId (retier step c) = cId c.
Proof. destruct step as [[from to] before]. cbn. by destruct (due from before c). Qed.
Lemma retier_ok step t : table_ok t → table_ok (retier step <$> t).
Proof.
  unfold table_ok. rewrite <- !list_fmap_compose.
  rewrite (list_fmap_ext (cId ∘ retier step) cId t), (list_fmap_ext (cS3Key ∘ retier step) cS3Key t); [done|..];
    intros i c _; apply retier_key.
Qed.

(** How often a row moves in a pass. *)
Fixpoint moves (steps : list (string * string * Z)) (c : Row) : Z :=
  match steps with
  | [] => 0
  | (from, to, before) :: steps => (if due from before c then 1 else 0) + moves steps (retier (from, to, before) c)
  end.
Definition total_moves (steps : list (string * string * Z)) (t : Table) : Z := foldr (λ c n, moves steps c + n) 0 t.

Lemma total_moves_cons from to before steps t : total_moves ((from, to, before) :: steps) t =
  Z.of_nat (length (filter (λ c, due from before c) t)) + total_moves steps (retier (from, to, before) <$> t).
Proof.
  unfold total_moves, Table in *. induction t as [|c t IH]; [done|]. rewrite filter_cons. cbn in *. rewrite IH.
  destruct (due from before c); [rewrite decide_True by done|rewrite decide_False by auto]; cbn; lia.
Qed.

Lemma run_plan_healthy steps rep s t : healthy → table_ok t → synced s t →
  ∃ rep' s', run_plan steps rep s t = (rep', None, s', retier_all steps <$> t) ∧ synced s' (retier_all steps <$> t) ∧
    wrap64 (TotalTransitioned rep') = wrap64 (TotalTransitioned rep + total_moves steps t) ∧
    (λ x, (From x, To x)) <$> Transitions rep' = ((λ x, (From x, To x)) <$> Transitions rep) ++ (fst <$> steps).
Proof.
  intros Hh. revert rep s t. induction steps as [|[[from to] before] steps IH]; intros rep s t Hok Hin; cbn -[transition total_moves].
  { exists rep, s. rewrite list_fmap_id, app_nil_r. split_and!; [done..| |done]. f_equal. unfold total_moves. clear.
    induction t; cbn in *; lia. }
  destruct (transition_healthy from to before s t Hh Hok Hin) as (n & b & s1 & -> & Hn & Hs).
  destruct (IH (MkReport (wrap64 (TotalTransitioned rep + n)) (Transitions rep ++ [MkTransition from to n b])) s1
              (retier (from, to, before) <$> t)) as (rep' & s' & -> & Hcl' & Ht & Htr); [by apply retier_ok|done|].
  exists rep', s'. rewrite <- list_fmap_compose in Hcl' |- *. split_and!; [done|done| |].
  - rewrite Ht, total_moves_cons. cbn. rewrite wrap64_add. replace (TotalTransitioned rep + n + _) with (n + (TotalTransitioned rep + total_moves steps (retier (from, to, before) <$> t))) by lia.
    rewrite <- wrap64_add, Hn, wrap64_add. f_equal. lia.
  - rewrite Htr. cbn. by rewrite fmap_app, <- app_assoc.
Qed.

Lemma run_plan_width steps rep s t rep' err s' t' : run_plan steps rep s t = (rep', err, s', t') →
  - 2 ^ 63 ≤ TotalTransitioned rep ≤ max_int64 → - 2 ^ 63 ≤ TotalTransitioned rep' ≤ max_int64.
Proof.
  revert rep s t. induction steps as [|[[from to] before] steps IH]; intros rep s t H Hw; cbn -[transition] in H; [by simplify_eq|].
  destruct (transition from to before s t) as [[[[n b]|e] s1] t1]; [|by simplify_eq]. apply (IH _ _ _ H). apply wrap64_range.
Qed.

Lemma retier_all_settled p c : moves (plan p) (retier_all (plan p) c) = 0.
Proof.
  unfold plan, retier_all. cbn. unfold due. destruct c as [? ? ? ? ? ? ? ? ? tier ? at_]. cbn.
  repeat case_bool_decide; cbn in *; intuition (subst; try done; lia).
Qed.

Lemma run_plan_in_step steps rep s t : table_ok t → in_step s t →
  (∀ from to before, (from, to, before) ∈ steps → ∃ i, rank from = Some i ∧ rank to = Some (S i)) →
  let '(_, _, s', t') := run_plan steps rep s t in in_step s' t' ∧ table_ok t'.
Proof.
  revert rep s t. induction steps as [|[[from to] before] steps IH]; intros rep s t Hok Hin Hr; cbn -[transition]; [done|].
  destruct (Hr from to before ltac:(left)) as (i & Hf & Ht). pose proof (transition_in_step i from to before s t Hf Ht Hok Hin) as H.
  destruct (transition from to before s t) as [[[[n b]|e] s1] t1]; [|done]. destruct H as [H1 H2]. apply IH; [done..|].
  intros f' t' b' Hin'. apply (Hr f' t' b'). by right.
Qed.

Lemma run_total p s t : healthy → table_ok t → synced s t →
  ∃ rep s', Run p s t = (rep, None, s', retier_all (plan p) <$> t) ∧ synced s' (retier_all (plan p) <$> t) ∧
    TotalTransitioned rep = wrap64 (total_moves (plan p) t) ∧
    (λ x, (From x, To x)) <$> Transitions rep = [(TierHot, TierWarm); (TierWarm, TierCold); (TierCold, TierArchive)].
Proof.
  intros Hh Hok Hs. destruct (run_plan_healthy (plan p) (MkReport 0 []) s t Hh Hok Hs) as (rep & s' & Hr & Hs' & Hn & Ht).
  exists rep, s'. split_and!; [done..| |done]. rewrite Z.add_0_l in Hn. rewrite <- Hn. symmetry. apply wrap64_id.
  apply (run_plan_width (plan p) (MkReport 0 []) s t rep None _ _ Hr). done.
Qed.

Lemma retier_all_again p c : retier_all (plan p) (retier_all (plan p) c) = retier_all (plan p) c.
Proof.
  pose proof (retier_all_settled p c) as H. generalize dependent (retier_all (plan p) c). clear. intros c. unfold plan, retier_all. cbn.
  destruct (due TierHot _ c) eqn:E1; [|destruct (due TierWarm _ c) eqn:E2; [|by destruct (due TierCold _ c)]];
    repeat match goal with |- context [if ?b then _ else _] => destruct b end; lia.
Qed.

(** Whatever fails during a pass - a query, a copy, an update - every row's
    object stays in the storage class of the row's tier or in a colder one:
    an object that the index calls HOT may already be colder, but none that
    the index calls COLD is still stored (and billed) as STANDARD. *)
Theorem index_never_ahead p s t rep err s' t' : table_ok t → in_step s t → Run p s t = (rep, err, s', t') →
  in_step s' t' ∧ table_ok t'.
Proof.
  intros Hok Hin Hr. pose proof (run_plan_in_step (plan p) (MkReport 0 []) s t Hok Hin) as H. unfold Run in Hr. rewrite Hr in H.
  apply H. intros from to before Hs. unfold plan in Hs. 
  apply elem_of_cons in Hs as [E|[E|E%list_elem_of_singleton]%elem_of_cons]; apply pair_eq in E as [[-> ->]%pair_eq _].
  - by exists 0%nat.
  - by exists 1%nat.
  - by exists 2%nat.
Qed.

(** A pass in which nothing fails moves each row down exactly as far as its
    age asks, from HOT through to ARCHIVE in one pass when it is old enough; the
    store follows, the report names the three transitions and counts every
    move.  A second pass at the same time moves nothing. *)
Theorem pass_moves_what_is_due p s t : healthy → table_ok t → synced s t →
  ∃ rep s', Run p s t = (rep, None, s', retier_all (plan p) <$> t) ∧ synced s' (retier_all (plan p) <$> t) ∧
    TotalTransitioned rep = wrap64 (total_moves (plan p) t) ∧
    (λ x, (From x, To x)) <$> Transitions rep = [(TierHot, TierWarm); (TierWarm, TierCold); (TierCold, TierArchive)] ∧
    ∃ rep2 s2, Run p s' (retier_all (plan p) <$> t) = (rep2, None, s2, retier_all (plan p) <$> t) ∧ TotalTransitioned rep2 = 0.
Proof.
  intros Hh Hok Hs. destruct (run_total p s t Hh Hok Hs) as (rep & s' & Hr & Hs' & Hn & Ht).
  assert (Hok' : table_ok (retier_all (plan p) <$> t)).
  { change (table_ok (((λ c, retier (TierCold, TierArchive, eDaysAgo env (ColdDays p)) c) ∘ (λ c, retier (TierWarm, TierCold, eDaysAgo env (WarmDays p)) c)
      ∘ (λ c, retier (TierHot, TierWarm, eDaysAgo env (HotDays p)) c)) <$> t)). rewrite !list_fmap_compose. by do 3 apply retier_ok. }
  destruct (run_total p s' _ Hh Hok' Hs') as (rep2 & s2 & Hr2 & _ & Hn2 & _).
  assert (Hid : retier_all (plan p) <$> (retier_all (plan p) <$> t) = retier_all (plan p) <$> t ∧ total_moves (plan p) (retier_all (plan p) <$> t) = 0).
  { clear. induction t as [|c t [IH1 IH2]]; [done|]. rewrite !fmap_cons, IH1, retier_all_again. unfold total_moves in *. cbn -[moves plan]. rewrite IH2, retier_all_settled. done. }
  destruct Hid as [Hid Hz]. rewrite Hid in Hr2. rewrite Hz in Hn2. exists rep, s'. split_and!; [done..|]. by exists rep2, s2.
Qed.
End engine.

(** ** Examples *)

Definition Bucket : Type := gmap string string.
#[local, refine] Instance bucket_store : ClassStore Bucket := {|
  cs_class s k := s !! k;
  cs_copy s k c := if bool_decide (is_Some (s !! k)) then Some (<[k := c]> s) else None |}.
Proof.
  - intros s s' k c H. case_bool_decide; simplify_eq. apply lookup_insert_eq.
  - intros s k c. case_bool_decide as H; [by split; [|eauto]|]. split; [by intros [? ?]|done].
  - intros s s' k c k' H Hne. case_bool_decide; simplify_eq. by apply lookup_insert_ne.
Defined.

(** Day 100: objects indexed on day 0, 50 and 95, all HOT. *)
Definition obj (key : string) (at_ : Z) : Row := MkRow key key key "s0" "pets" 7 EmptyString "[]" "{}" TierHot "v1" at_.
Definition objects : Table := [obj "old" 0; obj "mid" 50; obj "new" 95].
Definition bucket : Bucket := list_to_map [("old", "STANDARD"); ("mid", "STANDARD"); ("new", "STANDARD")].
Definition nightly : Policy := MkPolicy 10 60 90.
Definition calm : Env := MkEnv (λ _, Healthy) (λ _ _, None) (λ _ _, None) (λ d, 100 - d).
Definition flaky : Env := MkEnv (λ tier, if bool_decide (tier = TierCold) then QueryFails "database is locked" else Healthy)
  (λ _ _, None) (λ _ key, if bool_decide (key = "mid") then Some "database is locked" else None) (λ d, 100 - d).

Lemma objects_ok : table_ok objects.
Proof. split; apply (bool_decide_unpack _); vm_compute; exact I. Qed.
Lemma objects_hot c : c ∈ objects → cTier c = TierHot.
Proof. intros Hc. repeat (apply elem_of_cons in Hc as [->|Hc]; [reflexivity|]). by apply elem_of_nil in Hc. Qed.
Lemma bucket_synced : synced bucket objects.
Proof. intros c Hc. repeat (apply elem_of_cons in Hc as [->|Hc]; [reflexivity|]). by apply elem_of_nil in Hc. Qed.

Lemma index_never_ahead_witness : ∃ rep err s t,
  Run (codec := text_codec) flaky nightly bucket objects = (rep, err, s, t) ∧
  err = Some "transition COLD->ARCHIVE: records by tier age: database is locked" ∧
  (cTier <$> t) = ["COLD"; "HOT"; "HOT"] ∧ s !! "old" = Some "GLACIER_IR" ∧ s !! "mid" = Some "STANDARD_IA" ∧ in_step s t.
Proof.
  eexists _, _, _, _. split; [vm_compute; reflexivity|]. split_and!; [vm_compute; reflexivity..|].
  refine (proj1 (index_never_ahead (codec := text_codec) flaky nightly bucket objects _ _ _ _ objects_ok _ _)); [|vm_compute; reflexivity].
  intros c Hc. exists TierHot, 0%nat, 0%nat. rewrite (bucket_synced c Hc), (objects_hot c Hc). by split_and!.
Defined.

Lemma pass_moves_what_is_due_witness : ∃ rep s, Run (codec := text_codec) calm nightly bucket objects =
    (rep, None, s, retier_all (plan calm nightly) <$> objects) ∧
  (cTier <$> (retier_all (plan calm nightly) <$> objects)) = ["ARCHIVE"; "WARM"; "HOT"] ∧ TotalTransitioned rep = 4.
Proof.
  destruct (pass_moves_what_is_due (codec := text_codec) calm nightly bucket objects) as (rep & s & Hr & _ & Hn & _);
    [by repeat split|exact objects_ok|exact bucket_synced|].
  exists rep, s. split; [exact Hr|]. split; [reflexivity|]. rewrite Hn. reflexivity.
Defined.
