(* ===== verification/Ingestion.v ===== *)
(** * Ingestion (ingestion/pipeline.go)

    [IngestDir] walks a directory and hands image files to a pool of upload
    goroutines; each passes the record of an uploaded file to the one goroutine
    that writes batches to the index.  The model is the walker, the pool, the
    writer, the two channels between them and the index's table. *)
From S2P Require Import Prelude GoLib Storage Metadata.
From stdpp Require Import gmap.
Open Scope Z_scope.

(** ** Paths *)

Definition dot_c : Ascii.ascii := Ascii.ascii_of_N 46.

(** [filepath.Ext]: the suffix from the last dot of the last element; the
    argument is reversed. *)
Fixpoint ext_rev (l acc : list Ascii.ascii) : list Ascii.ascii :=
  match l with
  | [] => []
  | c :: l => if Ascii.eqb c slash then [] else if Ascii.eqb c dot_c then c :: acc else ext_rev l (c :: acc)
  end.
Definition Ext (path : string) : string := String.string_of_list_ascii (ext_rev (rev (String.list_ascii_of_string path)) []).

Fixpoint drop_slashes (l : list Ascii.ascii) : list Ascii.ascii :=
  match l with c :: l' => if Ascii.eqb c slash then drop_slashes l' else l | [] => [] end.
Fixpoint to_slash (l acc : list Ascii.ascii) : list Ascii.ascii :=
  match l with c :: l => if Ascii.eqb c slash then acc else to_slash l (c :: acc) | [] => acc end.
(** [filepath.Base]. *)
Definition Base (path : string) : string :=
  if bool_decide (path = EmptyString) then "."
  else match drop_slashes (rev (String.list_ascii_of_string path)) with
       | [] => "/"
       | l => String.string_of_list_ascii (to_slash l [])
       end.

(** [strings.ToLower] on ASCII. *)
Definition lower (c : Ascii.ascii) : Ascii.ascii :=
  let n := Ascii.N_of_ascii c in if ((65 <=? n) && (n <=? 90))%N then Ascii.ascii_of_N (n + 32) else c.
Fixpoint ToLower (s : string) : string := match s with EmptyString => EmptyString | String c s => String (lower c) (ToLower s) end.

Definition isImageFile (path : string) : bool :=
  bool_decide (ToLower (Ext path) ∈ [".jpg"; ".jpeg"; ".png"; ".gif"; ".bmp"; ".tiff"; ".tif"; ".webp"; ".heic"]).

Definition mimeType (filename : string) : string :=
  let ext := ToLower (Ext filename) in
  if bool_decide (ext ∈ [".jpg"; ".jpeg"]) then "image/jpeg"
  else if bool_decide (ext = ".png") then "image/png"
  else if bool_decide (ext = ".gif") then "image/gif"
  else if bool_decide (ext = ".webp") then "image/webp"
  else if bool_decide (ext ∈ [".tiff"; ".tif"]) then "image/tiff"
  else "application/octet-stream".

Example ext_example : Ext "a.b/c.JPeG" = ".JPeG" ∧ Ext "a.b/c" = "" ∧ Base "x/a.b/c.png" = "c.png" ∧ Base "x/y//" = "y" ∧
  isImageFile "d/c.JPeG" = true ∧ isImageFile "d.png/c" = false ∧ mimeType "c.JPeG" = "image/jpeg".
Proof. by vm_compute. Qed.

(** ** One file *)

Record fileJob := MkJob { localPath : string; jDataset : string; jLabels : list string }.
Record phaseTimes := MkTimes { tOpen : Z; tChecksum : Z; tUpload : Z }.
Record indexReq := MkReq { rec : DataRecord; size : Z }.

Record Pipeline := MkPipeline { workers : nat; batchSize : nat; multipartThreshold : Z; multipartChunkSize : Z; multipartConcurrency : Z }.
Definition New (workers : nat) : Pipeline := MkPipeline workers 500 (100 * 1024 * 1024) (64 * 1024 * 1024) 8.
Definition WithMultipart (threshold chunkSize concurrency : Z) (p : Pipeline) : Pipeline :=
  MkPipeline (workers p) (batchSize p) threshold chunkSize concurrency.
Definition WithBatchSize (n : Z) (p : Pipeline) : Pipeline :=
  if n >? 0 then MkPipeline (workers p) (Z.to_nat n) (multipartThreshold p) (multipartChunkSize p) (multipartConcurrency p) else p.

(** What the file system, the store, the clock and the id generator answer
    while a file is uploaded. *)
Record Host := MkHost {
  hOpen : option string; hStat : result Z; hSum : result string; hSeek : option string;
  hStore : bool → option string;         (* the argument: a multipart upload *)
  hOpenNanos : Z; hSumNanos : Z; hUploadNanos : Z; hUUID : string; hNow : Z }.

Definition uploadFile (p : Pipeline) (h : Host) (job : fileJob) : result indexReq * phaseTimes :=
  match hOpen h with
  | Some e => (Err ("open: " +:+ e), MkTimes 0 0 0)
  | None =>
  match hStat h with
  | Err e => (Err ("stat: " +:+ e), MkTimes 0 0 0)
  | Ok size =>
      let filename := Base (localPath job) in
      let key := ObjectKey (jDataset job) filename in
      match hSum h with
      | Err e => (Err ("checksum: " +:+ e), MkTimes (hOpenNanos h) 0 0)
      | Ok checksum =>
          let t := MkTimes (hOpenNanos h) (hSumNanos h) 0 in
          match hSeek h with
          | Some e => (Err e, t)
          | None =>
              let multipart := size >=? multipartThreshold p in
              match hStore h multipart with
              | Some e => (Err ((if multipart then "multipart upload: " else "put: ") +:+ e), t)
              | None =>
                  (Ok (MkReq (MkRecord (hUUID h) filename key (ShardKey filename) (jDataset job) size checksum
                                (jLabels job) {[ "source_path" := localPath job ]} TierHot "" (hNow h)) size),
                   MkTimes (hOpenNanos h) (hSumNanos h) (hUploadNanos h))
              end
          end
      end
  end
  end.

(** ** The goroutines *)

(** What [filepath.Walk] visits. *)
Inductive entry := Broken (e : string) | Dir | File (path : string).

Inductive walker :=
  | Walking (rest : list entry) | Handing (j : fileJob) (rest : list entry)
  | WaitPool (err : option string)      (* jobs closed, in wg.Wait() *)
  | WaitWriter (err : option string)    (* records closed *)
  | Returned (err : option string).
Inductive worker := Receiving | Uploading (j : fileJob) | Passing (q : indexReq) | Exited.
Inductive writer := Collecting (batch : list DataRecord) (n : Z) | Flushing (batch : list DataRecord) (n : Z) (final : bool) | WriterDone.

Record Progress := MkProgress {
  Processed : Z; Failed : Z; Bytes : Z;
  OpenNanos : Z; ChecksumNanos : Z; UploadNanos : Z; IndexNanos : Z }.
#[export] Instance eta_Progress : Eta Progress := λ p,
  MkProgress (Processed p) (Failed p) (Bytes p) (OpenNanos p) (ChecksumNanos p) (UploadNanos p) (IndexNanos p).

Record Ingest := MkIngest {
  walk : walker; jobs : list fileJob; jobsClosed : bool;
  pool : list worker; records : list indexReq; recordsClosed : bool;
  wr : writer; progress : Progress; table : Table; cancelled : bool }.
#[export] Instance eta_Ingest : Eta Ingest := λ s,
  MkIngest (walk s) (jobs s) (jobsClosed s) (pool s) (records s) (recordsClosed s) (wr s) (progress s) (table s) (cancelled s).

(** Who moves; [Walk true] takes the branch of the cancelled context. *)
Inductive event := Walk (stop : bool) | Work (i : nat) (h : Host) | Write (f : Faults) (nanos : Z) | Cancel.

Definition exited (w : worker) : bool := match w with Exited => true | _ => false end.

Section ingest.
Context {codec : Codec} (p : Pipeline) (dataset : string) (labels : list string).

Definition walk_step (stop : bool) (s : Ingest) : option Ingest :=
  match walk s with
  | Walking [] => Some (s <| jobsClosed := true |> <| walk := WaitPool None |>)
  | Walking (Broken e :: _) => Some (s <| jobsClosed := true |> <| walk := WaitPool (Some e) |>)
  | Walking (Dir :: rest) => Some (s <| walk := Walking rest |>)
  | Walking (File path :: rest) =>
      Some (s <| walk := if isImageFile path then Handing (MkJob path dataset labels) rest else Walking rest |>)
  | Handing j rest =>
      if stop then (if cancelled s then Some (s <| jobsClosed := true |> <| walk := WaitPool (Some "context canceled") |>) else None)
      else if (length (jobs s) <? workers p * 2)%nat then Some (s <| jobs := jobs s ++ [j] |> <| walk := Walking rest |>) else None
  | WaitPool err =>
      if forallb exited (pool s)
      then Some (s <| recordsClosed := true |> <| walk := WaitWriter err |>) else None
  | WaitWriter err => match wr s with WriterDone => Some (s <| walk := Returned err |>) | _ => None end
  | Returned _ => None
  end.

Definition add_times (t : phaseTimes) (g : Progress) : Progress :=
  g <| OpenNanos := wrap64 (OpenNanos g + tOpen t) |> <| ChecksumNanos := wrap64 (ChecksumNanos g + tChecksum t) |>
    <| UploadNanos := wrap64 (UploadNanos g + tUpload t) |>.

Definition work_step (i : nat) (h : Host) (s : Ingest) : option Ingest :=
  w ← pool s !! i;
  let become x s := s <| pool := <[i := x]> (pool s) |> in
  match w with
  | Receiving =>
      match jobs s with
      | j :: r => Some (become (Uploading j) (s <| jobs := r |>))
      | [] => if jobsClosed s then Some (become Exited s) else None
      end
  | Uploading j =>
      let '(r, t) := uploadFile p h j in
      let g := add_times t (progress s) in
      match r with
      | Ok q => Some (become (Passing q) (s <| progress := g |>))
      | Err _ => Some (become Receiving (s <| progress := g <| Failed := wrap64 (Failed g + 1) |> |>))
      end
  | Passing q =>
      if (length (records s) <? workers p * 4)%nat
      then Some (become Receiving (s <| records := records s ++ [q] |>)) else None
  | Exited => None
  end.

(** [flush]. *)
Definition flush (f : Faults) (nanos : Z) (batch : list DataRecord) (n : Z) (s : Ingest) : Ingest :=
  if (length batch =? 0)%nat then s
  else
    let '(r, t) := InsertBatch f batch (table s) in
    let g := progress s in
    let g := g <| IndexNanos := wrap64 (IndexNanos g + nanos) |> in
    let k := Z.of_nat (length batch) in
    match r with
    | Err _ => s <| table := t |> <| progress := g <| Failed := wrap64 (Failed g + k) |> |>
    | Ok _ => s <| table := t |> <| progress := g <| Processed := wrap64 (Processed g + k) |> <| Bytes := wrap64 (Bytes g + n) |> |>
    end.

Definition write_step (f : Faults) (nanos : Z) (s : Ingest) : option Ingest :=
  match wr s with
  | Collecting batch n =>
      match records s with
      | q :: r =>
          let batch := batch ++ [rec q] in
          let n := wrap64 (n + size q) in
          Some (s <| records := r |> <| wr := if (batchSize p <=? length batch)%nat then Flushing batch n false else Collecting batch n |>)
      | [] => if recordsClosed s then Some (s <| wr := Flushing batch n true |>) else None
      end
  | Flushing batch n final => Some ((flush f nanos batch n s) <| wr := if final then WriterDone else Collecting [] 0 |>)
  | WriterDone => None
  end.

Definition step (e : event) (s : Ingest) : option Ingest :=
  match e with
  | Walk stop => walk_step stop s
  | Work i h => work_step i h s
  | Write f nanos => write_step f nanos s
  | Cancel => if cancelled s then None else Some (s <| cancelled := true |>)
  end.

Definition IngestDir (files : list entry) (t : Table) : Ingest :=
  MkIngest (Walking files) [] false (replicate (workers p) Receiving) [] false (Collecting [] 0) (MkProgress 0 0 0 0 0 0 0) t false.

Fixpoint run (evs : list event) (s : Ingest) : option Ingest :=
  match evs with [] => Some s | e :: evs => s' ← step e s; run evs s' end.
End ingest.

(** ** Every file is accounted for *)

#[local] Arguments Nat.ltb : simpl never.
#[local] Arguments Nat.leb : simpl never.
#[local] Arguments Nat.mul : simpl never.

Section accounting.
Context {codec : Codec} (p : Pipeline) (dataset : string) (labels : list string) (files : list entry) (t0 : Table).

Definition images (l : list entry) : list string := omap (λ e, match e with File path => if isImageFile path then Some path else None | _ => None end) l.
(** The file a record was made from. *)
Definition src (r : DataRecord) : string := default EmptyString (Meta r !! "source_path").
Definition sizes (l : list DataRecord) : Z := foldr (λ r n, SizeBytes r + n) 0 l.

(** The record of a file that was uploaded. *)
Definition honest (r : DataRecord) : Prop :=
  ∃ h, (uploadFile p h (MkJob (src r) dataset labels)).1 = Ok (MkReq r (SizeBytes r)).

Definition loading (w : worker) : option string := match w with Uploading j => Some (localPath j) | _ => None end.
Definition passing (w : worker) : option DataRecord := match w with Passing q => Some (rec q) | _ => None end.
Definition held (w : writer) : list DataRecord := match w with Collecting b _ | Flushing b _ _ => b | WriterDone => [] end.

(** Records on their way to the table. *)
Definition underway (s : Ingest) : list DataRecord := omap passing (pool s) ++ (rec <$> records s) ++ held (wr s).

Record placed (s : Ingest) (handed : list string) (committed : list DataRecord) (lost : list string) : Prop := {
  pl_files : handed ≡ₚ (localPath <$> jobs s) ++ omap loading (pool s) ++ (src <$> underway s) ++ (src <$> committed) ++ lost;
  pl_processed : Processed (progress s) = wrap64 (Z.of_nat (length committed));
  pl_failed : Failed (progress s) = wrap64 (Z.of_nat (length lost));
  pl_bytes : Bytes (progress s) = wrap64 (sizes committed);
  pl_table : table s = foldl replace_row t0 (row_of <$> committed);
  pl_honest : ∀ r, r ∈ underway s ++ committed → honest r }.

Record wired (s : Ingest) (handed : list string) : Prop := {
  wi_walk : match walk s with
            | Walking rest => images files = handed ++ images rest
            | Handing j rest => images files = handed ++ localPath j :: images rest
            | WaitPool err | WaitWriter err | Returned err => handed `prefix_of` images files ∧ (err = None → handed = images files)
            end;
  wi_job : ∀ j, j ∈ jobs s ∨ Uploading j ∈ pool s ∨ (∃ rest, walk s = Handing j rest) → j = MkJob (localPath j) dataset labels;
  wi_size : ∀ q, q ∈ records s ∨ Passing q ∈ pool s → size q = SizeBytes (rec q);
  wi_batch : match wr s with Collecting b n | Flushing b n _ => n = wrap64 (sizes b) | WriterDone => True end }.

Definition feeding (w : walker) : bool := match w with Walking _ | Handing _ _ => true | _ => false end.
Definition joined (w : walker) : bool := match w with WaitWriter _ | Returned _ => true | _ => false end.

Record control (s : Ingest) : Prop := {
  ct_jobs : jobsClosed s = negb (feeding (walk s));
  ct_records : recordsClosed s = joined (walk s);
  ct_cap : (length (jobs s) ≤ workers p * 2)%nat;
  ct_pool : length (pool s) = workers p;
  ct_joined : recordsClosed s = true → ∀ w, w ∈ pool s → w = Exited;
  ct_exited : Exited ∈ pool s → jobsClosed s = true ∧ jobs s = [];
  ct_final : match wr s with Flushing _ _ true | WriterDone => recordsClosed s = true ∧ records s = [] | _ => True end;
  ct_returned : match walk s with Returned _ => wr s = WriterDone | _ => True end }.

Lemma upload_honest h path : match uploadFile p h (MkJob path dataset labels) with
  | (Ok q, _) => src (rec q) = path ∧ honest (rec q) ∧ size q = SizeBytes (rec q)
  | _ => True
  end.
Proof.
  destruct (uploadFile p h (MkJob path dataset labels)) as [[q|e] t] eqn:E; [|done].
  assert (src (rec q) = path ∧ size q = SizeBytes (rec q)) as [Hs Hz].
  { unfold uploadFile in E. repeat (case_match; simplify_eq/=). split; [|done]. unfold src. cbn [rec Meta]. by simplify_map_eq. }
  split_and!; try done. exists h. rewrite Hs, E. cbn. rewrite <- Hz. by destruct q.
Qed.

Lemma images_file path rest : images (File path :: rest) = if isImageFile path then path :: images rest else images rest.
Proof. unfold images. cbn. by destruct (isImageFile path). Qed.

Lemma start_control : control (IngestDir p files t0).
Proof.
  split; cbn; try done; [lia|by rewrite length_replicate|]. intros [? ?]%elem_of_replicate. done.
Qed.

Lemma control_walk s w : control s → feeding (walk s) = true → feeding w = true → control (s <| walk := w |>).
Proof.
  intros [C1 C2 C3 C4 C5 C6 C7 C8] Hf Hw. split; cbn; try done; [by rewrite C1, Hf, Hw| |by destruct w].
  rewrite C2. by destruct w, (walk s).
Qed.

Lemma control_close s err : control s → feeding (walk s) = true → control (s <| jobsClosed := true |> <| walk := WaitPool err |>).
Proof.
  intros [C1 C2 C3 C4 C5 C6 C7 C8] Hf. split; cbn; try done.
  - rewrite C2. by destruct (walk s).
  - intros He. apply C6 in He as [He _]. by rewrite C1, Hf in He.
Qed.

Lemma walk_control stop s s' : control s → walk_step p dataset labels stop s = Some s' → control s'.
Proof.
  intros Hc Hs. unfold walk_step in Hs.
  destruct (walk s) as [[|[e| |path] rest]|j rest|err|err|err] eqn:Ew; [..|done].
  - simplify_eq. apply control_close; [done|by rewrite Ew].
  - simplify_eq. apply control_close; [done|by rewrite Ew].
  - simplify_eq. apply control_walk; [done|by rewrite Ew|done].
  - simplify_eq. apply control_walk; [done|by rewrite Ew|by destruct (isImageFile path)].
  - destruct stop; [destruct (cancelled s); simplify_eq; apply control_close; [done|by rewrite Ew]|].
    destruct (Nat.ltb_spec (length (jobs s)) (workers p * 2)); simplify_eq.
    change (control ((s <| walk := Walking rest |>) <| jobs := jobs s ++ [j] |>)).
    destruct (control_walk s (Walking rest) Hc) as [C1 C2 C3 C4 C5 C6 C7 C8]; [by rewrite Ew|done|].
    split; cbn in *; try done; [rewrite length_app; cbn; lia|]. intros He. apply C6 in He as [He _]. by rewrite C1 in He.
  - destruct (forallb _ (pool s)) eqn:Eall; simplify_eq. destruct Hc as [C1 C2 C3 C4 C5 C6 C7 C8]. rewrite Ew in *.
    split; cbn in *; try done.
    + intros _ w Hw. rewrite forallb_forall in Eall. specialize (Eall w). rewrite <- list_elem_of_In in Eall. specialize (Eall Hw). by destruct w.
    + destruct (wr s) as [| ? ? []|]; try done; (split; [done|by apply C7]).
  - destruct (wr s) eqn:Ewr; simplify_eq. destruct Hc as [C1 C2 C3 C4 C5 C6 C7 C8]. rewrite Ew in *. split; cbn in *; done.
Qed.

Lemma work_control i h s s' : control s → work_step p i h s = Some s' → control s'.
Proof.
  intros [C1 C2 C3 C4 C5 C6 C7 C8] Hs. unfold work_step in Hs.
  destruct (pool s !! i) as [w|] eqn:Ei; [|done]. cbn in Hs. pose proof (list_elem_of_lookup_2 _ _ _ Ei) as Hw.
  assert (Hin : ∀ x y, x ∈ <[i := y]> (pool s) → x = y ∨ x ∈ pool s).
  { intros x y Hx. apply list_elem_of_lookup_1 in Hx as [j [(_ & <- & _)|[_ Hx%list_elem_of_lookup_2]]%list_lookup_insert_Some]; auto. }
  assert (Hopen : w ≠ Exited → recordsClosed s = false).
  { intros Hne. destruct (recordsClosed s) eqn:E; [|done]. by specialize (C5 eq_refl w Hw). }
  destruct w as [|j|q|]; [| | |done].
  - specialize (Hopen ltac:(done)). destruct (jobs s) as [|j r] eqn:Ej.
    + destruct (jobsClosed s) eqn:Ec; simplify_eq. split; cbn; rewrite ?length_insert, ?Ej; try done; [by rewrite Ec|by rewrite Hopen].
    + simplify_eq. split; cbn; rewrite ?length_insert; try done; [cbn in C3; lia|by rewrite Hopen|].
      intros [?|He]%Hin; [done|]. by apply C6 in He as [_ ?].
  - specialize (Hopen ltac:(done)). destruct (uploadFile p h j) as [[q|e] t]; simplify_eq; split; cbn; rewrite ?length_insert; try done;
      try (by rewrite Hopen); intros [?|He]%Hin; done || by apply C6.
  - specialize (Hopen ltac:(done)). destruct (length (records s) <? workers p * 4)%nat; simplify_eq. split; cbn; rewrite ?length_insert; try done.
    + by rewrite Hopen.
    + intros [?|He]%Hin; [done|]. by apply C6.
    + destruct (wr s) as [| ? ? []|]; try done; destruct C7 as [C7 _]; congruence.
Qed.

Lemma flush_frame f nanos batch n s : ∃ g t, flush f nanos batch n s = s <| progress := g |> <| table := t |>.
Proof.
  unfold flush. destruct (_ =? 0)%nat; [exists (progress s), (table s); by destruct s|].
  destruct (InsertBatch f batch (table s)) as [[] t]; eexists _, t; reflexivity.
Qed.

Lemma write_control f nanos s s' : control s → write_step p f nanos s = Some s' → control s'.
Proof.
  intros [C1 C2 C3 C4 C5 C6 C7 C8] Hs. unfold write_step in Hs.
  destruct (wr s) as [batch n|batch n final|] eqn:Ew; [| |done].
  - destruct (records s) as [|q r] eqn:Er.
    + destruct (recordsClosed s) eqn:Ec; simplify_eq. split; cbn; rewrite ?Er, ?Ec; try done. destruct (walk s); done.
    + simplify_eq. split; cbn; try done; [by destruct (batchSize p <=? length (batch ++ [rec q]))%nat|]. by destruct (walk s).
  - destruct (flush_frame f nanos batch n s) as (g & t & Hf). rewrite Hf in Hs. injection Hs as <-. split; cbn; try done; [by destruct final|]. by destruct (walk s).
Qed.

Lemma step_control e s s' : control s → step p dataset labels e s = Some s' → control s'.
Proof.
  intros Hc Hs. destruct e as [stop|i h|f nanos|]; cbn in Hs.
  - by eapply walk_control.
  - by eapply work_control.
  - by eapply write_control.
  - destruct (cancelled s); simplify_eq. destruct Hc. by split.
Qed.

Lemma walk_accounted stop s s' handed committed lost : wired s handed → placed s handed committed lost →
  walk_step p dataset labels stop s = Some s' → ∃ handed', wired s' handed' ∧ placed s' handed' committed lost.
Proof.
  intros [W1 W2 W3 W4] Hp Hs. unfold walk_step in Hs.
  assert (Hend : ∀ err, handed `prefix_of` images files ∧ (err = None → handed = images files) →
    wired (s <| jobsClosed := true |> <| walk := WaitPool err |>) handed ∧ placed (s <| jobsClosed := true |> <| walk := WaitPool err |>) handed committed lost).
  { intros err He. split; [split; cbn; try done|by destruct Hp].
    intros j [Hj|[Hj|[r Hj]]]; [apply W2; auto|apply W2; auto|done]. }
  destruct (walk s) as [[|[e| |path] rest]|j rest|err|err|err] eqn:Ew; [..|done].
  - injection Hs as <-. exists handed. apply Hend. rewrite app_nil_r in W1. by subst.
  - injection Hs as <-. exists handed. apply Hend. split; [by rewrite W1; eexists|done].
  - injection Hs as <-. exists handed. split; [split; cbn; try done|by destruct Hp].
    intros j [Hj|[Hj|[r Hj]]]; [apply W2; auto|apply W2; auto|done].
  - injection Hs as <-. exists handed. rewrite images_file in W1. split; [split; cbn; try done|by destruct Hp].
    + by destruct (isImageFile path).
    + intros j [Hj|[Hj|[r Hj]]]; [apply W2; auto|apply W2; auto|]. destruct (isImageFile path); [|done]. by injection Hj as <- _.
  - destruct stop; [destruct (cancelled s); [|done]; injection Hs as <-; exists handed; apply Hend; split; [by rewrite W1; eexists|done]|].
    destruct (length (jobs s) <? workers p * 2)%nat; [|done]. injection Hs as <-. exists (handed ++ [localPath j]). split.
    + split; cbn; try done; [by rewrite <- app_assoc|].
      intros j' [Hj|[Hj|[r Hj]]]; [|apply W2; auto|done]. apply elem_of_app in Hj as [Hj| ->%list_elem_of_singleton]; apply W2; eauto.
    + destruct Hp. split; cbn; try done. rewrite fmap_app, pl_files0. cbn. unfold underway. cbn. solve_perm.
  - destruct (forallb _ (pool s)); [|done]. injection Hs as <-. exists handed. split; [split; cbn; try done|by destruct Hp].
    intros j [Hj|[Hj|[r Hj]]]; [apply W2; auto|apply W2; auto|done].
  - destruct (wr s) eqn:Ewr; try done. injection Hs as <-. exists handed. split; [split; cbn; try done; [|by rewrite Ewr]|by destruct Hp].
    intros j [Hj|[Hj|[r Hj]]]; [apply W2; auto|apply W2; auto|done].
Qed.

(** A goroutine's move changes one element of what the pool holds. *)
Lemma pool_move i w y (l : list worker) : l !! i = Some w → ∃ L P,
  omap loading l ≡ₚ option_list (loading w) ++ L ∧ omap loading (<[i := y]> l) ≡ₚ option_list (loading y) ++ L ∧
  omap passing l ≡ₚ option_list (passing w) ++ P ∧ omap passing (<[i := y]> l) ≡ₚ option_list (passing y) ++ P ∧
  ∀ x, x ∈ <[i := y]> l → x = y ∨ x ∈ l.
Proof.
  intros Hi. destruct (insert_perm l i w y Hi) as (q & E1 & E2). exists (omap loading q), (omap passing q).
  assert (Hcons : ∀ B (f : worker → option B) x, omap f (x :: q) = option_list (f x) ++ omap f q) by (intros B f x; cbn; by destruct (f x)).
  split_and!; [by rewrite E1, Hcons|by rewrite E2, Hcons|by rewrite E1, Hcons|by rewrite E2, Hcons|].
  intros x. rewrite E2, E1, !elem_of_cons. tauto.
Qed.

Lemma work_accounted i h s s' handed committed lost : wired s handed → placed s handed committed lost →
  work_step p i h s = Some s' → ∃ lost', wired s' handed ∧ placed s' handed committed lost'.
Proof.
  intros [W1 W2 W3 W4] [P1 P2 P3 P4 P5 P6] Hs. unfold work_step in Hs.
  destruct (pool s !! i) as [w|] eqn:Ei; [|done]. cbn in Hs. pose proof (list_elem_of_lookup_2 _ _ _ Ei) as Hw.
  unfold underway in *. destruct w as [|j|q|]; [| | |done].
  - destruct (jobs s) as [|j r] eqn:Ej.
    + destruct (jobsClosed s); [|done]. injection Hs as <-. exists lost. destruct (pool_move i _ Exited _ Ei) as (L & P & U1 & U2 & V1 & V2 & Hin).
      cbn in *. rewrite U1, V1 in P1. setoid_rewrite V1 in P6. split; split; unfold underway; cbn; rewrite ?Ej, ?U2, ?V2; try done.
      * intros j [Hj|[[Hj|Hj]%Hin|Hj]]; [apply W2; auto|done|apply W2; auto|apply W2; auto].
      * intros q [Hq|[Hq|Hq]%Hin]; [apply W3; auto|done|apply W3; auto].
      * intros r Hr. rewrite V2 in Hr. by apply P6.
    + injection Hs as <-. exists lost. destruct (pool_move i _ (Uploading j) _ Ei) as (L & P & U1 & U2 & V1 & V2 & Hin).
      cbn in *. rewrite U1, V1 in P1. setoid_rewrite V1 in P6. split; split; unfold underway; cbn; rewrite ?U2, ?V2; try done.
      * intros j' [Hj|[[Hj|Hj]%Hin|Hj]]; [apply W2; left; by right|injection Hj as ->; apply W2; left; by left|apply W2; auto|apply W2; auto].
      * intros q [Hq|[Hq|Hq]%Hin]; [apply W3; auto|done|apply W3; auto].
      * rewrite P1. solve_perm.
      * intros x Hx. rewrite V2 in Hx. by apply P6.
  - rewrite (W2 j ltac:(auto)) in Hs. pose proof (upload_honest h (localPath j)) as Hhon.
    destruct (uploadFile p h (MkJob (localPath j) dataset labels)) as [[q|e] t]; injection Hs as <-.
    + destruct Hhon as (Hsrc & Hhon & Hsz). exists lost. destruct (pool_move i _ (Passing q) _ Ei) as (L & P & U1 & U2 & V1 & V2 & Hin).
      cbn in *. rewrite U1, V1 in P1. setoid_rewrite V1 in P6. split; split; unfold underway; cbn; rewrite ?U2, ?V2; try done.
      * intros j' [Hj|[[Hj|Hj]%Hin|Hj]]; [apply W2; auto|done|apply W2; auto|apply W2; auto].
      * intros q' [Hq|[Hq|Hq]%Hin]; [apply W3; auto|by injection Hq as ->|apply W3; auto].
      * rewrite P1. cbn. rewrite !fmap_app, Hsrc. cbn. solve_perm.
      * intros r Hr. rewrite V2 in Hr. cbn in Hr. apply elem_of_cons in Hr as [->|Hr]; [done|by apply P6].
    + exists (localPath j :: lost). destruct (pool_move i _ Receiving _ Ei) as (L & P & U1 & U2 & V1 & V2 & Hin).
      cbn in *. rewrite U1, V1 in P1. setoid_rewrite V1 in P6. split; split; unfold underway; cbn; rewrite ?U2, ?V2; try done.
      * intros j' [Hj|[[Hj|Hj]%Hin|Hj]]; [apply W2; auto|done|apply W2; auto|apply W2; auto].
      * intros q' [Hq|[Hq|Hq]%Hin]; [apply W3; auto|done|apply W3; auto].
      * rewrite P1. solve_perm.
      * rewrite P3, wrap64_add. f_equal. lia.
      * intros r Hr. rewrite V2 in Hr. by apply P6.
  - destruct (length (records s) <? workers p * 4)%nat; [|done]. injection Hs as <-. exists lost.
    destruct (pool_move i _ Receiving _ Ei) as (L & P & U1 & U2 & V1 & V2 & Hin).
    cbn in *. rewrite U1, V1 in P1. setoid_rewrite V1 in P6. split; split; unfold underway; cbn; rewrite ?U2, ?V2; try done.
    + intros j' [Hj|[[Hj|Hj]%Hin|Hj]]; [apply W2; auto|done|apply W2; auto|apply W2; auto].
    + intros q' [[Hq| ->%list_elem_of_singleton]%elem_of_app|[Hq|Hq]%Hin]; [apply W3; auto|apply W3; auto|done|apply W3; auto].
    + rewrite P1. cbn. rewrite !fmap_app. cbn. solve_perm.
    + intros r Hr. apply P6. rewrite V2, fmap_app in Hr. cbn in Hr. set_solver.
Qed.

Lemma sizes_app a b : sizes (a ++ b) = sizes a + sizes b.
Proof. unfold sizes. induction a as [|r a IH]; cbn; lia. Qed.

Lemma write_accounted f nanos s s' handed committed lost : control s → wired s handed → placed s handed committed lost →
  write_step p f nanos s = Some s' → ∃ committed' lost', wired s' handed ∧ placed s' handed committed' lost'.
Proof.
  intros Hc [W1 W2 W3 W4] [P1 P2 P3 P4 P5 P6] Hs. unfold write_step in Hs. unfold underway in *.
  destruct (wr s) as [batch n|batch n final|] eqn:Ew; [| |done].
  - destruct (records s) as [|q r] eqn:Er.
    + destruct (recordsClosed s); [|done]. injection Hs as <-. exists committed, lost.
      split; split; unfold underway; cbn; rewrite ?Er; done.
    + injection Hs as <-. exists committed, lost.
      set (w' := if (batchSize p <=? length (batch ++ [rec q]))%nat then _ else _).
      assert (Hw : held w' = batch ++ [rec q]) by (unfold w'; by destruct (batchSize p <=? length (batch ++ [rec q]))%nat).
      assert (Hn : wrap64 (n + size q) = wrap64 (sizes (batch ++ [rec q]))).
      { rewrite W4, wrap64_add, sizes_app, (W3 q) by (left; left). f_equal. cbn. lia. }
      split; split; unfold underway; cbn; try done.
      * intros q' [Hq|Hq]; apply W3; [left; by right|by right].
      * unfold w'. by destruct (batchSize p <=? length (batch ++ [rec q]))%nat.
      * rewrite Hw, P1. cbn. rewrite !fmap_app. cbn. rewrite !fmap_app. cbn. solve_perm.
      * intros x Hx. rewrite Hw in Hx. apply P6. cbn. set_solver.
  - injection Hs as <-. cbn [held] in *. unfold flush. destruct (Nat.eqb_spec (length batch) 0) as [Hz|Hz].
    + apply nil_length_inv in Hz as ->. exists committed, lost. split; split; unfold underway; cbn; try done; by destruct final.
    + destruct (insert_batch_cases f batch (table s)) as [[e ->]| ->].
      * exists committed, (lost ++ (src <$> batch)). split; split; unfold underway; cbn; try done; [by destruct final| | |].
        -- rewrite P1, !fmap_app. destruct final; cbn; rewrite ?fmap_app; cbn; solve_perm.
        -- rewrite P3, wrap64_add, length_app, length_fmap. f_equal. lia.
        -- intros x Hx. apply P6. destruct final; cbn in Hx; set_solver.
      * exists (committed ++ batch), lost. split; split; unfold underway; cbn; try done; [by destruct final| | | | |].
        -- rewrite P1, !fmap_app. destruct final; cbn; rewrite ?fmap_app; cbn; solve_perm.
        -- rewrite P2, wrap64_add, length_app. f_equal. lia.
        -- rewrite P4, wrap64_add, W4, Z.add_comm, wrap64_add, sizes_app. f_equal. lia.
        -- by rewrite P5, fmap_app, foldl_app.
        -- intros x Hx. apply P6. destruct final; cbn in Hx; set_solver.
Qed.

Lemma start_accounted : wired (IngestDir p files t0) [] ∧ placed (IngestDir p files t0) [] [] [].
Proof.
  assert (Hnone : ∀ x, x ∈ replicate (workers p) Receiving → x = Receiving) by (intros x Hx; by apply elem_of_replicate in Hx as [-> _]).
  assert (Homap : ∀ B (f : worker → option B), f Receiving = None → omap f (replicate (workers p) Receiving) = []).
  { intros B f Hf. induction (workers p) as [|k IHk]; cbn; [done|]. rewrite Hf. apply IHk. intros x Hx. apply Hnone. cbn. by right. }
  split; split; unfold underway; cbn; try done.
  - intros j [Hj|[Hj|[r Hj]]]; [by apply elem_of_nil in Hj|by apply Hnone in Hj|done].
  - intros q [Hq|Hq]; [by apply elem_of_nil in Hq|by apply Hnone in Hq].
  - by rewrite !Homap.
  - intros r Hr. rewrite Homap in Hr by done. by apply elem_of_nil in Hr.
Qed.

Lemma step_accounted e s s' handed committed lost : control s → wired s handed → placed s handed committed lost →
  step p dataset labels e s = Some s' → ∃ handed' committed' lost', wired s' handed' ∧ placed s' handed' committed' lost'.
Proof.
  intros Hc Hw Hp Hs. destruct e as [stop|i h|f nanos|]; cbn in Hs.
  - destruct (walk_accounted stop s s' handed committed lost Hw Hp Hs) as (handed' & ? & ?). by exists handed', committed, lost.
  - destruct (work_accounted i h s s' handed committed lost Hw Hp Hs) as (lost' & ? & ?). by exists handed, committed, lost'.
  - destruct (write_accounted f nanos s s' handed committed lost Hc Hw Hp Hs) as (committed' & lost' & ? & ?). by exists handed, committed', lost'.
  - destruct (cancelled s); [done|]. injection Hs as <-. exists handed, committed, lost. destruct Hw, Hp. by split; split.
Qed.

Lemma run_accounted evs s : run p dataset labels evs (IngestDir p files t0) = Some s →
  control s ∧ ∃ handed committed lost, wired s handed ∧ placed s handed committed lost.
Proof.
  revert s. induction evs as [|e evs IH] using rev_ind; intros s Hr.
  { cbn in Hr. injection Hr as <-. split; [apply start_control|]. destruct start_accounted. by exists [], [], []. }
  assert (Happ : ∀ evs1 evs2 s0, run p dataset labels (evs1 ++ evs2) s0 = s1 ← run p dataset labels evs1 s0; run p dataset labels evs2 s1).
  { clear. intros evs1. induction evs1 as [|e evs1 IH]; intros evs2 s0; [done|]. cbn. destruct (step p dataset labels e s0); cbn; [apply IH|done]. }
  rewrite Happ in Hr. destruct (run p dataset labels evs _) as [s1|]; [|done]. cbn in Hr.
  destruct (step p dataset labels e s1) as [s2|] eqn:E; [|done]. cbn in Hr. injection Hr as <-.
  destruct (IH s1 eq_refl) as (Hc & handed & committed & lost & Hw & Hp). split; [by eapply step_control|by eapply step_accounted].
Qed.

(** ** Every schedule ends *)

Definition walk_work (w : walker) : nat :=
  match w with
  | Walking rest => 3 + 11 * length rest | Handing _ rest => 12 + 11 * length rest
  | WaitPool _ => 2 | WaitWriter _ => 1 | Returned _ => 0
  end.
Definition pool_work (w : worker) : nat := match w with Receiving => 1 | Uploading _ => 8 | Passing _ => 7 | Exited => 0 end.
Definition write_work (w : writer) : nat :=
  match w with
  | Collecting b _ => 3 * length b + 2 | Flushing b _ false => 3 * length b + 3 | Flushing b _ true => 3 * length b + 1
  | WriterDone => 0
  end.
Definition work_left (s : Ingest) : nat :=
  walk_work (walk s) + 8 * length (jobs s) + sum_list_with pool_work (pool s) + 5 * length (records s) + write_work (wr s) +
  (if cancelled s then 0 else 1).

Lemma sum_pool (l : list worker) i x y : l !! i = Some x →
  (sum_list_with pool_work (<[i := y]> l) + pool_work x = sum_list_with pool_work l + pool_work y)%nat.
Proof.
  intros Hi. destruct (insert_perm l i x y Hi) as (q & E1 & E2).
  assert (Hp : ∀ l1 l2 : list worker, l1 ≡ₚ l2 → sum_list_with pool_work l1 = sum_list_with pool_work l2).
  { clear. induction 1; cbn; lia. }
  rewrite (Hp _ _ E1), (Hp _ _ E2). cbn. lia.
Qed.

Lemma ingest_step_decreases e s s' : step p dataset labels e s = Some s' → (work_left s' < work_left s)%nat.
Proof.
  unfold work_left. destruct e as [stop|i h|f nanos|]; cbn [step]; intros Hs.
  - unfold walk_step in Hs. destruct (walk s) as [[|[e| |path] rest]|j rest|err|err|err] eqn:Ew; [..|done].
    + injection Hs as <-. cbn. lia.
    + injection Hs as <-. cbn. lia.
    + injection Hs as <-. cbn. lia.
    + injection Hs as <-. cbn. destruct (isImageFile path); cbn; lia.
    + destruct stop; [destruct (cancelled s) eqn:Ec; [|done]; injection Hs as <-; cbn; rewrite ?Ec; lia|].
      destruct (length (jobs s) <? workers p * 2)%nat; [|done]. injection Hs as <-. cbn. rewrite length_app. cbn. lia.
    + destruct (forallb _ (pool s)); [|done]. injection Hs as <-. cbn. lia.
    + destruct (wr s) eqn:Ewr; try done. injection Hs as <-. cbn. rewrite Ewr. cbn. lia.
  - unfold work_step in Hs. destruct (pool s !! i) as [w|] eqn:Ei; [|done]. cbn in Hs.
    destruct w as [|j|q|]; [| | |done].
    + destruct (jobs s) as [|j r] eqn:Ej; [destruct (jobsClosed s); [|done]|]; injection Hs as <-; cbn; rewrite ?Ej.
      * pose proof (sum_pool _ i _ Exited Ei). cbn in *. lia.
      * pose proof (sum_pool _ i _ (Uploading j) Ei). cbn in *. lia.
    + destruct (uploadFile p h j) as [[q|e] t]; injection Hs as <-; cbn.
      * pose proof (sum_pool _ i _ (Passing q) Ei). cbn in *. lia.
      * pose proof (sum_pool _ i _ Receiving Ei). cbn in *. lia.
    + destruct (length (records s) <? workers p * 4)%nat; [|done]. injection Hs as <-. cbn. rewrite length_app.
      pose proof (sum_pool _ i _ Receiving Ei). cbn in *. lia.
  - unfold write_step in Hs. destruct (wr s) as [batch n|batch n final|] eqn:Ew; [| |done].
    + destruct (records s) as [|q r] eqn:Er; [destruct (recordsClosed s); [|done]|]; injection Hs as <-; cbn; rewrite ?Er.
      * cbn. lia.
      * destruct (batchSize p <=? length (batch ++ [rec q]))%nat; cbn; rewrite length_app; cbn; lia.
    + destruct (flush_frame f nanos batch n s) as (g & t & Hf). rewrite Hf in Hs. injection Hs as <-. cbn. destruct final; cbn; lia.
  - destruct (cancelled s) eqn:Ec; [done|]. injection Hs as <-. cbn. lia.
Qed.

Lemma run_decreases evs s s' : run p dataset labels evs s = Some s' → (length evs + work_left s' ≤ work_left s)%nat.
Proof.
  revert s. induction evs as [|e evs IH]; intros s Hr; cbn in Hr; [injection Hr as <-; cbn; lia|].
  destruct (step p dataset labels e s) as [s1|] eqn:E; [|done]. apply ingest_step_decreases in E. apply IH in Hr. cbn. lia.
Qed.

Definition stuck (s : Ingest) : Prop := ∀ e, e ≠ Cancel → step p dataset labels e s = None.

Lemma ingest_stuck_worker s : control s → stuck s → (0 < workers p)%nat → (∀ w, w ∈ pool s → w = Exited) ∨ wr s = WriterDone.
Proof.
  intros Hc Hst Hw. destruct (decide (Forall (λ w, exited w = true) (pool s))) as [Hall|Hn].
  { left. intros w Hin. rewrite Forall_forall in Hall. specialize (Hall w Hin). by destruct w. }
  right. apply not_Forall_Exists in Hn; [|apply _]. apply Exists_exists in Hn as (w & [i Hi]%list_elem_of_lookup_1 & Hne).
  pose proof (Hst (Write no_faults 0) ltac:(done)) as Hwr. cbn in Hwr. unfold write_step in Hwr.
  pose proof (λ h, Hst (Work i h) ltac:(done)) as Hwk. cbn in Hwk. unfold work_step in Hwk. rewrite Hi in Hwk. cbn in Hwk.
  set (h0 := MkHost (Some "") (Ok 0) (Ok "") None (λ _, None) 0 0 0 "" 0).
  specialize (Hwk h0). destruct w as [|j|q|]; [| | |by destruct Hne].
  - destruct (jobs s) as [|j r] eqn:Ej; [|done]. destruct (jobsClosed s) eqn:Ec; [done|].
    pose proof (Hst (Walk false) ltac:(done)) as Hwalk. cbn in Hwalk. unfold walk_step in Hwalk.
    pose proof (ct_jobs _ Hc) as Hf. rewrite Ec in Hf.
    destruct (walk s) as [[|[e| |path] rest]|j rest|err|err|err]; try done.
    rewrite Ej in Hwalk. destruct (Nat.ltb_spec (length (@nil fileJob)) (workers p * 2)); [done|cbn in *; lia].
  - destruct (uploadFile p h0 j) as [[] ?]; done.
  - destruct (Nat.ltb_spec (length (records s)) (workers p * 4)); [done|].
    destruct (wr s) as [batch n|batch n final|]; [|done|done].
    destruct (records s) as [|q' r]; [cbn in *; lia|done].
Qed.

Lemma ingest_stuck_returned s : control s → stuck s → (0 < workers p)%nat → ∃ err, walk s = Returned err.
Proof.
  intros Hc Hst Hw. pose proof (Hst (Walk false) ltac:(done)) as Hwalk. cbn in Hwalk. unfold walk_step in Hwalk.
  pose proof (Hst (Write no_faults 0) ltac:(done)) as Hwr. cbn in Hwr. unfold write_step in Hwr.
  assert (Hex : ∀ w, w ∈ pool s → w = Exited).
  { destruct (ingest_stuck_worker s Hc Hst Hw) as [?|Hd]; [done|]. pose proof (ct_final _ Hc) as Hf. rewrite Hd in Hf.
    by apply (ct_joined _ Hc), Hf. }
  assert (Hone : Exited ∈ pool s).
  { pose proof (ct_pool _ Hc) as Hl. destruct (pool s) as [|w l]; [cbn in *; lia|]. rewrite (Hex w) by left. left. }
  apply (ct_exited _ Hc) in Hone as [Hclosed _]. pose proof (ct_jobs _ Hc) as Hf. rewrite Hclosed in Hf.
  destruct (walk s) as [rest|j rest|err|err|err] eqn:Ew; try done; [| |by eexists].
  - assert (forallb exited (pool s) = true) as Hall.
    { apply forallb_forall. intros w Hin%list_elem_of_In. by rewrite (Hex w Hin). }
    by rewrite Hall in Hwalk.
  - pose proof (ct_records _ Hc) as Hr. rewrite Ew in Hr. cbn in Hr.
    destruct (wr s) as [batch n|batch n final|]; [|done|done]. destruct (records s); [|done]. by rewrite Hr in Hwr.
Qed.

(** With at least one worker every schedule is finite and ends with [IngestDir]
    returning, whatever the file system, the store and the index answer and
    whether or not the context is cancelled. *)
Theorem ingest_returns evs s : run p dataset labels evs (IngestDir p files t0) = Some s → (0 < workers p)%nat →
  (length evs ≤ 11 * length files + workers p + 6)%nat ∧ (stuck s → ∃ err, walk s = Returned err).
Proof.
  intros Hr Hw. split.
  - apply run_decreases in Hr. unfold work_left in Hr at 2. cbn in Hr.
    assert (sum_list_with pool_work (replicate (workers p) Receiving) = workers p) as Hs.
    { clear. induction (workers p); cbn; lia. }
    rewrite Hs in Hr. lia.
  - intros Hst. apply ingest_stuck_returned; [|done|done]. by apply (run_accounted evs).
Qed.

(** C27: when [IngestDir] returns, every image file that was handed out, all of them
    unless the walk failed or was cancelled, is either committed or counted as
    failed, once: [Processed] and [Failed] are the numbers of the two, [Bytes]
    the size of the committed files, the table holds exactly the committed
    records on top of what it held, and each of them describes a file that was
    uploaded. *)
Theorem ingest_accounts evs s err : run p dataset labels evs (IngestDir p files t0) = Some s → walk s = Returned err →
  ∃ handed committed lost,
    handed `prefix_of` images files ∧ (err = None → handed = images files) ∧
    handed ≡ₚ (src <$> committed) ++ lost ∧
    Processed (progress s) = wrap64 (Z.of_nat (length committed)) ∧ Failed (progress s) = wrap64 (Z.of_nat (length lost)) ∧
    Bytes (progress s) = wrap64 (sizes committed) ∧
    table s = foldl replace_row t0 (row_of <$> committed) ∧ (∀ r, r ∈ committed → honest r).
Proof.
  intros Hr Hret. destruct (run_accounted evs s Hr) as (Hc & handed & committed & lost & [W1 _ _ _] & [P1 P2 P3 P4 P5 P6]).
  exists handed, committed, lost. rewrite Hret in W1. destruct W1 as [Hpre Hall]. split_and!; try done.
  - rewrite P1. pose proof (ct_returned _ Hc) as Hdone. rewrite Hret in Hdone. pose proof (ct_final _ Hc) as Hf. rewrite Hdone in Hf.
    destruct Hf as [Hrc Hrec]. pose proof (ct_joined _ Hc Hrc) as Hex.
    assert (Hpool : ∀ B (f : worker → option B), f Exited = None → omap f (pool s) = []).
    { intros B f Hf. clear -Hex Hf. induction (pool s) as [|w l IH]; [done|]. cbn. rewrite (Hex w), Hf by left. apply IH.
      intros x Hx. apply Hex. by right. }
    assert (Hjobs : jobs s = []).
    { pose proof (ct_cap _ Hc) as Hcap. pose proof (ct_pool _ Hc) as Hl. destruct (pool s) as [|w l] eqn:Ep.
      - cbn in Hl. rewrite <- Hl in Hcap. destruct (jobs s); [done|]. cbn in Hcap. lia.
      - apply (ct_exited _ Hc). rewrite Ep. rewrite (Hex w) by left. left. }
    unfold underway. by rewrite Hjobs, Hrec, Hdone, !Hpool.
  - intros r Hin. apply P6. apply elem_of_app. by right.
Qed.

(** Without workers nobody takes the first image file: [IngestDir] does not
    return before the context is cancelled. *)
Theorem no_workers_never_returns path rest evs s : workers p = 0%nat → files = File path :: rest → isImageFile path = true →
  run p dataset labels evs (IngestDir p files t0) = Some s → Cancel ∉ evs → ∀ err, walk s ≠ Returned err.
Proof.
  intros H0 Hf Him Hr Hnc err.
  assert (Hinv : ∀ evs s0 s1, (walk s0 = Walking files ∨ ∃ j, walk s0 = Handing j rest) → cancelled s0 = false → Cancel ∉ evs →
    run p dataset labels evs s0 = Some s1 → walk s1 = Walking files ∨ ∃ j, walk s1 = Handing j rest).
  { clear -H0 Hf Him. induction evs as [|e evs IH]; intros s0 s1 Hw Hc Hnc Hr; cbn in Hr; [by injection Hr as <-|].
    destruct (step p dataset labels e s0) as [s2|] eqn:E; [|done]. apply not_elem_of_cons in Hnc as [He Hnc].
    assert ((walk s2 = Walking files ∨ ∃ j, walk s2 = Handing j rest) ∧ cancelled s2 = false) as [Hw2 Hc2]; [|by apply (IH s2)].
    destruct e as [stop|i h|f nanos|]; cbn in E; [| | |done].
    - unfold walk_step in E. destruct Hw as [Hw|[j Hw]]; rewrite Hw in E.
      + rewrite Hf, Him in E. injection E as <-. cbn. eauto.
      + rewrite H0 in E. destruct stop; [by rewrite Hc in E|]. by destruct (Nat.ltb_spec (length (jobs s0)) (0 * 2)); [lia|].
    - unfold work_step in E. destruct (pool s0 !! i) as [w|]; [|done]. cbn in E.
      destruct w as [|j|q|]; [| | |done].
      + destruct (jobs s0); [destruct (jobsClosed s0); [|done]|]; injection E as <-; auto.
      + destruct (uploadFile p h j) as [[q|e] t]; injection E as <-; auto.
      + destruct (length (records s0) <? workers p * 4)%nat; [|done]. injection E as <-. auto.
    - unfold write_step in E. destruct (wr s0) as [batch n|batch n final|]; [| |done].
      + destruct (records s0); [destruct (recordsClosed s0); [|done]|]; injection E as <-; auto.
      + destruct (flush_frame f nanos batch n s0) as (g & t & Hfl). rewrite Hfl in E. injection E as <-. auto. }
  destruct (Hinv evs (IngestDir p files t0) s) as [->|[j ->]]; try done. by left.
Qed.
End accounting.

(** ** On concrete runs *)

Definition small : Pipeline := WithBatchSize 2 (New 1).
Definition fine (id : string) : Host := MkHost None (Ok 10) (Ok "abc") None (λ _, None) 1 2 3 id 7.
Definition bad : Host := MkHost (Some "gone") (Ok 0) (Ok "") None (λ _, None) 0 0 0 "" 0.
Definition three_files : list entry := [Dir; File "in/a.png"; File "in/readme.txt"; File "in/b.JPG"; File "in/c.gif"].

(** One worker uploads [a] and [c]; [b] cannot be opened. *)
Definition three_events : list event :=
  [Walk false; Walk false; Walk false; Walk false; Walk false; Walk false; Work 0 bad; Work 0 (fine "1"); Work 0 bad;
   Walk false; Walk false; Walk false; Work 0 bad; Work 0 bad; Work 0 bad; Work 0 (fine "2"); Work 0 bad; Work 0 bad;
   Walk false; Write no_faults 0; Write no_faults 0; Write no_faults 5; Write no_faults 0; Write no_faults 0; Walk false].

Definition three_done : Ingest :=
  default (IngestDir small [] []) (run (codec := text_codec) small "pets" [] three_events (IngestDir small three_files [])).

Lemma three_run : run (codec := text_codec) small "pets" [] three_events (IngestDir small three_files []) = Some three_done.
Proof. vm_compute. reflexivity. Qed.

Lemma ingest_accounts_witness : progress three_done = MkProgress 2 1 20 2 4 6 5 ∧
  (src <$> map (λ c, scanRecord (codec := text_codec) c) (table three_done)) = ["in/a.png"; "in/c.gif"] ∧
  ∃ handed committed lost, handed `prefix_of` images three_files ∧ handed ≡ₚ (src <$> committed) ++ lost ∧
    Processed (progress three_done) = wrap64 (Z.of_nat (length committed)) ∧
    table three_done = foldl replace_row [] (row_of (codec := text_codec) <$> committed).
Proof.
  split; [vm_compute; reflexivity|]. split; [vm_compute; reflexivity|].
  destruct (ingest_accounts (codec := text_codec) small "pets" [] three_files [] three_events three_done None three_run)
    as (handed & committed & lost & H1 & H2 & H3 & H4 & H5 & H6 & H7 & H8); [vm_compute; reflexivity|].
  exists handed, committed, lost. exact (conj H1 (conj H3 (conj H4 H7))).
Defined.

Lemma ingest_returns_witness : (length three_events ≤ 11 * length three_files + 1 + 6)%nat ∧ ∃ err, walk three_done = Returned err.
Proof.
  destruct (ingest_returns (codec := text_codec) small "pets" [] three_files [] three_events three_done three_run) as [H1 H2]; [vm_compute; lia|].
  split; [exact H1|]. apply H2. intros [stop|[|i] h|f nanos|] He; [vm_compute; reflexivity..|].
  by destruct He.
Defined.

Lemma no_workers_never_returns_witness : ∃ s,
  run (codec := text_codec) (New 0) "pets" [] [Walk false] (IngestDir (New 0) [File "a.png"] []) = Some s ∧ ∀ err, walk s ≠ Returned err.
Proof.
  eexists. split; [vm_compute; reflexivity|].
  apply (no_workers_never_returns (codec := text_codec) (New 0) "pets" [] [File "a.png"] [] "a.png" [] [Walk false]);
    [reflexivity..|]. intros H. apply elem_of_cons in H as [H|H]; [discriminate|by apply elem_of_nil in H].
Defined.

(** Two files of one name in different directories are one object and one row:
    both are counted as processed. *)
Definition twins : list entry := [File "2023/a.png"; File "2024/a.png"].
Definition twin_events : list event :=
  [Walk false; Walk false; Walk false; Work 0 bad; Walk false; Work 0 (fine "1"); Work 0 bad; Work 0 bad; Work 0 (fine "2"); Work 0 bad;
   Walk false; Work 0 bad; Walk false; Write no_faults 0; Write no_faults 0; Write no_faults 5; Write no_faults 0; Write no_faults 0; Walk false].

Theorem same_name_files_collide : ∃ s,
  run (codec := text_codec) small "pets" [] twin_events (IngestDir small twins []) = Some s ∧ walk s = Returned None ∧
  Processed (progress s) = 2 ∧ Failed (progress s) = 0 ∧
  (src <$> map (λ c, scanRecord (codec := text_codec) c) (table s)) = ["2024/a.png"].
Proof. eexists. split; [vm_compute; reflexivity|]. by vm_compute. Qed.
