(* ===== verification/EventRing.v ===== *)
(** * Bounded event rings: event traces (trace/trace.go, http.go) and invariant
    violations (diag/assert.go)

    Both packages keep the latest events in an array with a write index and
    count all of them in an atomic counter that is raised before the array's
    mutex is taken. *)
From S2P Require Import Prelude GoLib Keys.
From stdpp Require Import gmap.
Open Scope Z_scope.

(** ** The ring *)

Module Ring.
Section ring.
Context {A : Type} (cap : nat) (zero : A).

Record EvRing := MkRing { count : Z; cells : list A; nxt : nat; coming : nat (* counted, not yet written *) }.
#[export] Instance eta_EvRing : Eta EvRing := λ r, MkRing (count r) (cells r) (nxt r) (coming r).

Definition empty : EvRing := MkRing 0 (replicate cap zero) 0 0.

(** [count.Add(1)], and the critical section after it. *)
Definition announce (r : EvRing) : EvRing := r <| count := wrap64 (count r + 1) |> <| coming := S (coming r) |>.
Definition put (e : A) (r : EvRing) : option EvRing :=
  match coming r with
  | O => None
  | S n => Some (r <| cells := <[nxt r := e]> (cells r) |> <| nxt := (S (nxt r) mod cap)%nat |> <| coming := n |>)
  end.
(** One event by a goroutine alone. *)
Definition emit (e : A) (r : EvRing) : EvRing := default r (put e (announce r)).

Definition snapshot (r : EvRing) : list A :=
  let n := if count r >? Z.of_nat cap then cap else Z.to_nat (count r) in
  let start := if count r >? Z.of_nat cap then nxt r else 0%nat in
  (λ i, nth ((start + i) mod cap) (cells r) zero) <$> seq 0 n.

(** Goroutines emitting: each event is announced, then written. *)
Inductive op := Announce | Put (e : A).
Definition step (o : op) (r : EvRing) : option EvRing := match o with Announce => Some (announce r) | Put e => put e r end.
Fixpoint run (ops : list op) (r : EvRing) : option EvRing :=
  match ops with [] => Some r | o :: ops => r' ← step o r; run ops r' end.

(** The events written, in the order of the critical sections. *)
Definition written (ops : list op) : list A := omap (λ o, match o with Put e => Some e | Announce => None end) ops.

(** *** The array holds the last [cap] events written *)

Record holds (log : list A) (r : EvRing) : Prop := {
  hl_count : count r = wrap64 (Z.of_nat (length log + coming r));
  hl_size : length (cells r) = cap;
  hl_nxt : nxt r = (length log mod cap)%nat;
  hl_cells : ∀ p, (length log - cap ≤ p < length log)%nat → cells r !! (p mod cap)%nat = log !! p }.

Lemma empty_holds : (0 < cap)%nat → holds [] empty.
Proof. intros Hc. split; cbn; [done|apply length_replicate|by rewrite Nat.Div0.mod_0_l|intros; lia]. Qed.

Lemma announce_holds log r : holds log r → holds log (announce r).
Proof.
  intros [H1 H2 H3 H4]. split; cbn; try done. rewrite H1, wrap64_add. f_equal. lia.
Qed.

Lemma put_holds log e r r' : (0 < cap)%nat → holds log r → put e r = Some r' → holds (log ++ [e]) r'.
Proof.
  intros Hc [H1 H2 H3 H4]. unfold put. destruct (coming r) as [|n] eqn:Ec; intros Hp; simplify_eq.
  assert (Hlt : (nxt r < cap)%nat) by (rewrite H3; apply Nat.mod_upper_bound; lia).
  split; cbn; rewrite ?length_app, ?length_insert; cbn.
  - rewrite H1. do 2 f_equal. lia.
  - done.
  - rewrite H3. rewrite <- (Nat.add_1_r (length log mod cap)), Nat.Div0.add_mod_idemp_l. done.
  - intros p Hp. destruct (decide (p = length log)) as [->|Hne].
    + rewrite <- H3, list_lookup_insert_eq by lia. rewrite lookup_app_r, Nat.sub_diag by lia. done.
    + rewrite list_lookup_insert_ne by (rewrite H3; intros E; apply (mod_apart cap p (length log)); lia).
      rewrite lookup_app_l by lia. apply H4. lia.
Qed.

Lemma emit_holds log e r : (0 < cap)%nat → holds log r → coming r = 0%nat → holds (log ++ [e]) (emit e r) ∧ coming (emit e r) = 0%nat.
Proof.
  intros Hc Hh H0. unfold emit. destruct (put e (announce r)) as [r'|] eqn:E; [|done].
  split; [by eapply put_holds; [done|apply announce_holds|]|].
  unfold put in E. cbn in E. by injection E as <-.
Qed.

Lemma run_holds ops r r' log : (0 < cap)%nat → holds log r → run ops r = Some r' → holds (log ++ written ops) r'.
Proof.
  intros Hc. revert r log. induction ops as [|[|e] ops IH]; intros r log Hh Hr; cbn in Hr.
  - simplify_eq. by rewrite app_nil_r.
  - apply (IH (announce r)); [by apply announce_holds|done].
  - destruct (put e r) as [r1|] eqn:E; [|done]. change (written (Put e :: ops)) with ([e] ++ written ops).
    rewrite app_assoc. apply (IH r1); [by eapply put_holds|done].
Qed.

Lemma snapshot_holds log r : (0 < cap)%nat → holds log r → coming r = 0%nat → Z.of_nat (length log) ≤ max_int64 →
  snapshot r = drop (length log - cap) log.
Proof.
  intros Hc [H1 H2 H3 H4] H0 Hmax. rewrite H0, Nat.add_0_r, wrap64_id in H1 by (unfold max_int64 in *; lia).
  unfold snapshot. rewrite H1, Z.gtb_ltb. clear H1. set (N := length log) in *.
  set (n := if Z.of_nat cap <? Z.of_nat N then cap else _). set (start := if Z.of_nat cap <? Z.of_nat N then nxt r else _).
  assert (Hn : n = Nat.min cap N) by (unfold n; destruct (Z.ltb_spec (Z.of_nat cap) (Z.of_nat N)); lia).
  assert (Hs : ∀ i, ((start + i) mod cap = (N - cap + i) mod cap)%nat).
  { intros i. unfold start. destruct (Z.ltb_spec (Z.of_nat cap) (Z.of_nat N)).
    - rewrite H3, Nat.Div0.add_mod_idemp_l. replace (N + i)%nat with (N - cap + i + 1 * cap)%nat by lia. by rewrite Nat.Div0.mod_add.
    - f_equal. lia. }
  clearbody n start. apply list_eq. intros i. rewrite list_lookup_fmap, lookup_drop. destruct (decide (i < n)%nat) as [Hi|Hi].
  - rewrite lookup_seq_lt by done. cbn. rewrite Hs, nth_lookup, H4 by lia.
    destruct (lookup_lt_is_Some_2 log (N - cap + i)) as [x ->]; [lia|done].
  - rewrite lookup_seq_ge by lia. symmetry. apply lookup_ge_None. lia.
Qed.
End ring.
End Ring.

(** ** Event traces *)

Module Trace.

Definition maxEvents : nat := 4096.

(** [eTime] is 0 for the zero [time.Time]. *)
Record Event := MkEvent {
  eTime : Z; eKind : string; eTraceID : string; eTaskID : string; eJobID : string; eShard : string;
  eGeneration : Z; eWorkerID : string; eParent : string; eAttrs : gmap string string }.
#[export] Instance eta_Event : Eta Event := λ e,
  MkEvent (eTime e) (eKind e) (eTraceID e) (eTaskID e) (eJobID e) (eShard e) (eGeneration e) (eWorkerID e) (eParent e) (eAttrs e).
Definition zero_event : Event := MkEvent 0 "" "" "" "" "" 0 "" "" ∅.

Record Tracer := MkTracer { trOn : bool; trRing : Ring.EvRing (A := Event) }.
Definition off : Tracer := MkTracer false (Ring.empty maxEvents zero_event).

Definition Enable (t : Tracer) : Tracer := MkTracer true (trRing t).
Definition Disable (t : Tracer) : Tracer := MkTracer false (trRing t).
Definition truthy (s : string) : bool := bool_decide (s ∈ ["1"; "true"; "TRUE"; "True"; "yes"; "on"]).
Definition EnableFromEnv (var : string) (t : Tracer) : bool * Tracer := if truthy var then (true, Enable t) else (false, t).

Definition stamp (clock : Z) (e : Event) : Event := if eTime e =? 0 then e <| eTime := clock |> else e.
Definition Emit (clock : Z) (e : Event) (t : Tracer) : Tracer :=
  if negb (trOn t) then t else MkTracer (trOn t) (Ring.emit maxEvents (stamp clock e) (trRing t)).
Definition Count (t : Tracer) : Z := Ring.count (trRing t).
Definition Events (t : Tracer) : list Event := Ring.snapshot maxEvents zero_event (trRing t).

Definition trace_input (jobID shard : string) (start end_ : Z) : string :=
  jobID +:+ String nul (shard +:+ String nul (fmt_d start +:+ String nul (fmt_d end_))).
Definition TraceID (jobID shard : string) (start end_ : Z) : string :=
  "tr-" +:+ hex_encode (take 12 (Sha256.sum256 (bytes_of_string (trace_input jobID shard start end_)))).

(** *** Grouping by unit of work *)

Record TraceGroup := MkGroup { tgTraceID : string; tgJobID : string; tgShard : string; tgParents : list string; tgEvents : list Event }.

Definition add_event (e : Event) (g : TraceGroup) : TraceGroup :=
  MkGroup (tgTraceID g)
    (if bool_decide (tgJobID g = EmptyString) then eJobID e else tgJobID g)
    (if bool_decide (tgShard g = EmptyString) then eShard e else tgShard g)
    (if negb (bool_decide (eParent e = EmptyString)) && negb (bool_decide (eParent e ∈ tgParents g)) then tgParents g ++ [eParent e] else tgParents g)
    (tgEvents g ++ [e]).

Definition group_one (st : gmap string nat * list TraceGroup) (e : Event) : gmap string nat * list TraceGroup :=
  let '(idx, groups) := st in
  match idx !! eTraceID e with
  | Some i => (idx, alter (add_event e) i groups)
  | None => (<[eTraceID e := length groups]> idx,
             groups ++ [add_event e (MkGroup (eTraceID e) (eJobID e) (eShard e) [] [])])
  end.

Definition first_time (g : TraceGroup) : Z := match tgEvents g with e :: _ => eTime e | [] => 0 end.
Definition group_le (a b : TraceGroup) : Prop := first_time a ≤ first_time b.
#[export] Instance group_le_dec : RelDecision group_le := λ a b, decide (first_time a ≤ first_time b).
Definition group (events : list Event) : list TraceGroup := merge_sort group_le (foldl group_one (∅, []) events).2.

(** *** The endpoint *)

Record Report := MkReport { rpEnabled : bool; rpCount : Z; rpEvents : list Event; rpTraces : list TraceGroup }.
Definition selected (task tr : string) (e : Event) : bool :=
  (bool_decide (task = EmptyString) || bool_decide (eTaskID e = task)) &&
  (bool_decide (tr = EmptyString) || bool_decide (eTraceID e = tr)).
Definition Handler (task tr causal : string) (t : Tracer) : Report :=
  let filtered := filter (λ e, selected task tr e) (Events t) in
  if truthy causal then MkReport (trOn t) (Count t) [] (group filtered)
  else MkReport (trOn t) (Count t) filtered [].

(** ** What the ring and the groups hold *)

(** However the goroutines that emit interleave, once none is between its count
    and its write, [Events] is the last 4096 events written, oldest first. *)
Theorem events_are_the_latest ops r b : Ring.run maxEvents ops (Ring.empty maxEvents zero_event) = Some r →
  Ring.coming r = 0%nat → Z.of_nat (length (Ring.written ops)) ≤ max_int64 →
  Events (MkTracer b r) = drop (length (Ring.written ops) - maxEvents) (Ring.written ops).
Proof.
  intros Hr H0 Hmax. apply Ring.snapshot_holds; [unfold maxEvents; lia| |done..].
  apply (Ring.run_holds _ ops (Ring.empty maxEvents zero_event) r []); [unfold maxEvents; lia| |done].
  apply Ring.empty_holds. unfold maxEvents. lia.
Qed.

(** Between the two a reader can get an event nobody emitted. *)
Example announced_event_reads_as_zero :
  ∃ r, Ring.run maxEvents [Ring.Announce] (Ring.empty maxEvents zero_event) = Some r ∧ Events (MkTracer true r) = [zero_event].
Proof. eexists. split; reflexivity. Qed.

Definition ev (n : Z) : Event := MkEvent n "assigned" "tr-1" "t" "j" "00" 0 "w" "" ∅.
Lemma events_are_the_latest_witness : ∃ r,
  Ring.run maxEvents [Ring.Announce; Ring.Announce; Ring.Put (ev 2); Ring.Put (ev 1)] (Ring.empty maxEvents zero_event) = Some r ∧
  Events (MkTracer true r) = drop (2 - maxEvents) [ev 2; ev 1].
Proof.
  eexists. split; [reflexivity|].
  apply (events_are_the_latest [Ring.Announce; Ring.Announce; Ring.Put (ev 2); Ring.Put (ev 1)]); [reflexivity..|cbn; unfold max_int64; lia].
Defined.


(** The string a trace id is the hash of names the job, the shard and the
    range: different work hashes different strings. *)
Lemma trace_input_inj j j' s s' a a' b b' :
  no_char nul j = true → no_char nul j' = true → no_char nul s = true → no_char nul s' = true →
  trace_input j s a b = trace_input j' s' a' b' → j = j' ∧ s = s' ∧ a = a' ∧ b = b'.
Proof.
  unfold trace_input. intros Hj Hj' Hs Hs' E. apply split_at_char in E as [-> E]; [|done..].
  apply split_at_char in E as [-> E]; [|done..]. apply split_at_char in E as [E1 E2]; [|apply fmt_d_no_nul..].
  unfold fmt_d in *. apply (inj pretty) in E1, E2. done.
Qed.

(** *** The groups *)

Record grouped (events : list Event) (st : gmap string nat * list TraceGroup) : Prop := {
  gd_idx : ∀ t i, st.1 !! t = Some i ↔ ∃ g, st.2 !! i = Some g ∧ tgTraceID g = t;
  gd_events : ∀ i g, st.2 !! i = Some g → tgEvents g = filter (λ e, eTraceID e = tgTraceID g) events ∧ tgEvents g ≠ [] ∧
    NoDup (tgParents g) ∧ (∀ p, p ∈ tgParents g ↔ p ≠ EmptyString ∧ ∃ e, e ∈ tgEvents g ∧ eParent e = p);
  gd_all : ∀ e, e ∈ events → is_Some (st.1 !! eTraceID e) }.

Lemma add_event_parents e g :
  NoDup (tgParents g) ∧ (∀ p, p ∈ tgParents g ↔ p ≠ EmptyString ∧ ∃ e', e' ∈ tgEvents g ∧ eParent e' = p) →
  NoDup (tgParents (add_event e g)) ∧
  (∀ p, p ∈ tgParents (add_event e g) ↔ p ≠ EmptyString ∧ ∃ e', e' ∈ tgEvents (add_event e g) ∧ eParent e' = p).
Proof.
  intros [Hnd Hp]. cbn. destruct (negb _ && negb _) eqn:E.
  - apply andb_true_iff in E as [E1%negb_true_iff%bool_decide_eq_false E2%negb_true_iff%bool_decide_eq_false]. split.
    + apply NoDup_app. split_and!; [done| |apply NoDup_singleton]. intros x Hx ->%list_elem_of_singleton. done.
    + intros p. rewrite elem_of_app, Hp, list_elem_of_singleton. split.
      * intros [(? & e' & ? & ?)| ->]; [|split; [done|exists e; set_solver]]. split; [done|]. exists e'. set_solver.
      * intros (? & e' & [He'|He'%list_elem_of_singleton]%elem_of_app & <-); [left; by eauto|subst; by right].
  - split; [done|]. intros p. rewrite Hp. split; intros (Hne & e' & He' & Hpe); split; try done.
    + exists e'. set_solver.
    + apply elem_of_app in He' as [?|He'%list_elem_of_singleton]; [by eauto|]. subst.
      apply andb_false_iff in E as [E|E]; apply negb_false_iff, bool_decide_eq_true in E; [done|]. by apply Hp.
Qed.

Lemma group_one_grouped events st e : grouped events st → grouped (events ++ [e]) (group_one st e).
Proof.
  destruct st as [idx groups]. intros [Hi He Ha]. cbn in *. destruct (idx !! eTraceID e) as [i|] eqn:E.
  - pose proof E as (g & Hg & Ht)%Hi. split; cbn.
    + intros t j. rewrite Hi. split; intros (g' & Hg' & Ht').
      * destruct (decide (j = i)) as [->|Hne]; [|exists g'; by rewrite list_lookup_alter_ne].
        exists (add_event e g'). by rewrite list_lookup_alter_eq, Hg'.
      * destruct (decide (j = i)) as [->|Hne]; [|rewrite list_lookup_alter_ne in Hg' by done; by exists g'].
        rewrite list_lookup_alter_eq, Hg in Hg'. cbn in Hg'. simplify_eq. by exists g.
    + intros j g' Hg'. destruct (decide (j = i)) as [->|Hne].
      * rewrite list_lookup_alter_eq, Hg in Hg'. cbn in Hg'. injection Hg' as <-. destruct (He i g Hg) as (H1 & H2 & H3).
        split_and!; [|cbn; intros Hnil; by apply app_eq_nil in Hnil as [_ ?]|by apply add_event_parents..].
        cbn. rewrite filter_app, H1. f_equal. rewrite filter_cons_True by done. done.
      * rewrite list_lookup_alter_ne in Hg' by done. destruct (He j g' Hg') as (H1 & H2 & H3). split_and!; try tauto.
        rewrite filter_app, filter_cons_False, H1; [cbn; by rewrite app_nil_r|]. intros Et.
        assert (idx !! eTraceID e = Some j) by (apply Hi; by exists g'). congruence.
    + intros e' [?| ->%list_elem_of_singleton]%elem_of_app; [by apply Ha|by rewrite E].
  - split; cbn.
    + intros t j. rewrite lookup_insert_Some, Hi. split.
      * intros [[<- <-]|[Hne (g' & Hg' & Ht')]]; [eexists; split; [apply list_lookup_middle; done|done]|].
        exists g'. split; [by apply lookup_app_l_Some|done].
      * intros (g' & [Hg'|[Hle Hg']]%lookup_app_Some & <-).
        -- right. split; [|by exists g']. intros Et. assert (idx !! tgTraceID g' = Some j) by (apply Hi; by exists g'). congruence.
        -- apply list_lookup_singleton_Some in Hg' as [Hz <-]. left. split; [done|]. lia.
    + intros j g' [Hg'|[Hle Hg']]%lookup_app_Some.
      * destruct (He j g' Hg') as (H1 & H2 & H3). split_and!; try tauto.
        rewrite filter_app, filter_cons_False, H1; [cbn; by rewrite app_nil_r|]. intros Et.
        assert (idx !! eTraceID e = Some j) by (apply Hi; by exists g'). congruence.
      * apply list_lookup_singleton_Some in Hg' as [_ <-].
        assert (Hnone : filter (λ e0, eTraceID e0 = eTraceID e) events = []).
        { apply filter_none. intros x Hx Et. destruct (Ha x Hx) as [k Hk]. congruence. }
        split_and!; [|done|apply add_event_parents; split; [constructor|set_solver]..].
        cbn [tgEvents tgTraceID add_event]. rewrite filter_app, Hnone, filter_cons_True by done. done.
    + intros e' [?| ->%list_elem_of_singleton]%elem_of_app; [|rewrite lookup_insert_eq; by eexists].
      destruct (decide (eTraceID e = eTraceID e')) as [->|?]; [rewrite lookup_insert_eq; by eexists|].
      rewrite lookup_insert_ne by done. by apply Ha.
Qed.

Lemma grouped_foldl events : grouped events (foldl group_one (∅, []) events).
Proof.
  induction events as [|e events IH] using rev_ind.
  - split; cbn; [|done|by intros e ?%elem_of_nil]. intros t i. rewrite lookup_empty. split; [done|by intros (g & ? & _)].
  - rewrite foldl_app. by apply group_one_grouped.
Qed.

(** Grouping partitions the events by unit of work: one group per trace id that
    occurs, with exactly its events in the order of the ring and the distinct
    tasks they descend from; the groups are ordered by their first event. *)
Theorem group_partitions events :
  NoDup (tgTraceID <$> group events) ∧ StronglySorted group_le (group events) ∧
  (∀ e, e ∈ events → ∃ g, g ∈ group events ∧ tgTraceID g = eTraceID e) ∧
  ∀ g, g ∈ group events →
    tgEvents g = filter (λ e, eTraceID e = tgTraceID g) events ∧ tgEvents g ≠ [] ∧
    NoDup (tgParents g) ∧ (∀ p, p ∈ tgParents g ↔ p ≠ EmptyString ∧ ∃ e, e ∈ tgEvents g ∧ eParent e = p).
Proof.
  destruct (grouped_foldl events) as [Hi He Ha]. unfold group. set (st := foldl _ _ _) in *.
  pose proof (merge_sort_Permutation group_le st.2) as Hperm. split_and!.
  - rewrite Hperm. apply NoDup_alt. intros i j t Ht1 Ht2.
    apply list_lookup_fmap_Some in Ht1 as (g1 & -> & Hg1). apply list_lookup_fmap_Some in Ht2 as (g2 & E & Hg2).
    assert (st.1 !! tgTraceID g1 = Some i) as H1 by (apply Hi; by exists g1).
    assert (st.1 !! tgTraceID g1 = Some j) as H2 by (apply Hi; by exists g2). congruence.
  - apply StronglySorted_merge_sort; intros ?*; unfold group_le; lia.
  - intros e [i Hidx]%Ha. apply Hi in Hidx as (g & Hg & Ht). exists g. split; [|done].
    rewrite Hperm. by eapply list_elem_of_lookup_2.
  - intros g Hg. rewrite Hperm in Hg. apply list_elem_of_lookup_1 in Hg as [i Hg]. by eapply He.
Qed.

(** What the endpoint answers for a unit of work: the retained events of it. *)
Lemma handler_selects task tr causal t e : tr ≠ EmptyString → truthy causal = false →
  e ∈ rpEvents (Handler task tr causal t) ↔ e ∈ Events t ∧ eTraceID e = tr ∧ (task = EmptyString ∨ eTaskID e = task).
Proof.
  intros Htr Hc. unfold Handler. rewrite Hc. cbn. rewrite list_elem_of_filter. unfold selected.
  rewrite Is_true_true, andb_true_iff, !orb_true_iff, !bool_decide_eq_true. naive_solver.
Qed.
End Trace.

(** ** Invariant violations *)

Module Violations.

Definition maxViolations : nat := 128.

Record Violation := MkViolation { vTime : Z; vMsg : string; vDetail : string; vGoid : Z; vStack : string }.
Definition zero_violation : Violation := MkViolation 0 "" "" 0 "".

Record Diag := MkDiag { dgOn : bool; dgRing : Ring.EvRing (A := Violation); dgWaitWarn : Z; dgHoldWarn : Z }.
Definition initial : Diag := MkDiag false (Ring.empty maxViolations zero_violation) 250000000 250000000.

(** [Enable] with a [Config]; thresholds that are not positive are kept. *)
Definition diag_Enable (wait hold : Z) (d : Diag) : Diag :=
  MkDiag true (dgRing d) (if wait >? 0 then wait else dgWaitWarn d) (if hold >? 0 then hold else dgHoldWarn d).
Definition diag_EnableFromEnv (var : string) (d : Diag) : bool * Diag := if Trace.truthy var then (true, diag_Enable 0 0 d) else (false, d).
Definition diag_Disable (d : Diag) : Diag := MkDiag false (dgRing d) (dgWaitWarn d) (dgHoldWarn d).

(** The arguments as [fmt.Sprint] renders them; an odd last one stands alone. *)
Fixpoint kvString (args : list string) : string :=
  match args with
  | [] => ""
  | [k] => k
  | [k; v] => k +:+ "=" +:+ v
  | k :: v :: rest => k +:+ "=" +:+ v +:+ " " +:+ kvString rest
  end.

Definition record (clock goid : Z) (stack msg detail : string) (d : Diag) : Diag :=
  MkDiag (dgOn d) (Ring.emit maxViolations (MkViolation clock msg detail goid stack) (dgRing d)) (dgWaitWarn d) (dgHoldWarn d).
Definition Assert (clock goid : Z) (stack : string) (cond : bool) (msg : string) (detailArgs : list string) (d : Diag) : Diag :=
  if cond || negb (dgOn d) then d else record clock goid stack msg (kvString detailArgs) d.
Definition Assertf (clock goid : Z) (stack : string) (cond : bool) (msg detail : string) (d : Diag) : Diag :=
  if cond || negb (dgOn d) then d else record clock goid stack msg detail d.
Definition ViolationCount (d : Diag) : Z := Ring.count (dgRing d).
Definition RecentViolations (d : Diag) : list Violation := Ring.snapshot maxViolations zero_violation (dgRing d).

Example kv_example : kvString ["frontier"; "9"; "granted"; "7"; "odd"] = "frontier=9 granted=7 odd".
Proof. reflexivity. Qed.

(** A sequence of assertions: (clock, condition, message). *)
Definition assert_all (checks : list (Z * bool * string)) (d : Diag) : Diag :=
  foldl (λ d c, Assert c.1.1 0 "" c.1.2 c.2 [] d) d checks.

(** With diagnostics on, exactly the assertions that fail are counted, and the
    last 128 of them are kept, newest last; a failing assertion changes
    nothing else. *)
Theorem violations_are_recorded checks d : dgOn d = true → dgRing d = Ring.empty maxViolations zero_violation →
  let failed := filter (λ c, c.1.2 = false) checks in
  Z.of_nat (length failed) ≤ max_int64 →
  ViolationCount (assert_all checks d) = Z.of_nat (length failed) ∧
  RecentViolations (assert_all checks d) =
    drop (length failed - maxViolations) ((λ c, MkViolation c.1.1 c.2 "" 0 "") <$> failed).
Proof.
  intros Hon Hr failed Hmax.
  assert (Hinv : ∀ checks, dgOn (assert_all checks d) = true ∧
    Ring.holds maxViolations ((λ c, MkViolation c.1.1 c.2 "" 0 "") <$> filter (λ c, c.1.2 = false) checks) (dgRing (assert_all checks d)) ∧
    Ring.coming (dgRing (assert_all checks d)) = 0%nat).
  { intros cs. induction cs as [|c cs (IH1 & IH2 & IH3)] using rev_ind.
    - cbn. rewrite Hr. split_and!; try done. apply Ring.empty_holds. unfold maxViolations. lia.
    - unfold assert_all. rewrite foldl_app. fold (assert_all cs d). cbn. unfold Assert. rewrite IH1, filter_app, orb_false_r.
      destruct c as [[clock []] msg]; cbn [fst snd].
      + rewrite filter_cons_False by done. cbn. by rewrite app_nil_r.
      + rewrite filter_cons_True by done. rewrite fmap_app. cbn [dgOn dgRing record]. split; [done|].
        apply Ring.emit_holds; [unfold maxViolations; lia|done|done]. }
  destruct (Hinv checks) as (_ & Hh & H0). fold failed in Hh. split.
  - unfold ViolationCount. rewrite (Ring.hl_count _ _ _ Hh), H0, length_fmap, Nat.add_0_r. apply wrap64_id. unfold max_int64 in *. lia.
  - unfold RecentViolations. rewrite (Ring.snapshot_holds maxViolations _ _ _ ltac:(unfold maxViolations; lia) Hh H0) by (by rewrite length_fmap).
    by rewrite length_fmap.
Qed.

Lemma violations_are_recorded_witness :
  ViolationCount (assert_all [(1, true, "fine"); (2, false, "gap")] (diag_Enable 0 0 initial)) = 1 ∧
  RecentViolations (assert_all [(1, true, "fine"); (2, false, "gap")] (diag_Enable 0 0 initial)) = [MkViolation 2 "gap" "" 0 ""].
Proof.
  apply (violations_are_recorded [(1, true, "fine"); (2, false, "gap")] (diag_Enable 0 0 initial)); [reflexivity..|].
  vm_compute. discriminate.
Defined.
End Violations.
