(* ===== verification/LockOrder.v ===== *)
(** * The lock-order graph (diag/lock.go)

    Every instrumented lock operation keeps the goroutine's stack of held lock
    names and records an edge from each of them to the lock it is about to take;
    an edge that closes a cycle is reported.  This file has the graph, the
    search, the report, and the goroutines that drive them through
    [Lock]/[Unlock]/[RLock]/[RUnlock]. *)
From S2P Require Import Prelude GoLib.
From stdpp Require Import gmap sets.
Open Scope nat_scope.

(** ** The graph *)

Record Graph := MkGraph {
  heldByG : gmap Z (list string);       (* goroutine -> stack of held lock names *)
  edges : gmap string (gset string);    (* from -> set(to) *)
  reported : gset string;               (* "a|b" pairs already warned about *)
  cycleCount : Z }.
#[export] Instance eta_Graph : Eta Graph := λ g, MkGraph (heldByG g) (edges g) (reported g) (cycleCount g).

Definition held_by (g : Z) (st : Graph) : list string := default [] (heldByG st !! g).
Definition succs (E : gmap string (gset string)) (n : string) : gset string := default ∅ (E !! n).

Definition addEdgeLocked (from to : string) (E : gmap string (gset string)) : gmap string (gset string) :=
  <[from := {[to]} ∪ succs E from]> E.

Definition pair_key (a b : string) : string := a +:+ "|" +:+ b.

Definition warnCycleLocked (a b : string) (st : Graph) : Graph :=
  if bool_decide (pair_key a b ∈ reported st) || bool_decide (pair_key b a ∈ reported st) then st
  else st <| reported := {[pair_key a b]} ∪ reported st |> <| cycleCount := wrap64 (cycleCount st + 1) |>.

Definition markHeld (g : Z) (name : string) (st : Graph) : Graph :=
  st <| heldByG := <[g := held_by g st ++ [name]]> (heldByG st) |>.

(** The last occurrence of [name] is cut out of the stack. *)
Fixpoint last_index (name : string) (s : list string) (i : nat) : option nat :=
  match s with
  | [] => None
  | x :: s => match last_index name s (S i) with
              | Some j => Some j
              | None => if bool_decide (x = name) then Some i else None
              end
  end.
Definition markReleased (g : Z) (name : string) (st : Graph) : Graph :=
  let s := held_by g st in
  let st := match last_index name s 0 with
            | Some i => st <| heldByG := <[g := remove_at i s]> (heldByG st) |>
            | None => st
            end in
  if (length (held_by g st) =? 0)%nat then st <| heldByG := delete g (heldByG st) |> else st.

(** ** The search *)

Section search.
(** The order in which [range] visits the successors of a node. *)
Variable range : string → gset string → list string.
Hypothesis range_perm : ∀ n X, range n X ≡ₚ elements X.

(** The body of [for next := range edges[n]]; [None]: [to] was met.  The head
    of [stack] is the end of the slice. *)
Fixpoint visit (to : string) (nexts : list string) (seen : gset string) (stack : list string) : option (gset string * list string) :=
  match nexts with
  | [] => Some (seen, stack)
  | next :: nexts =>
      if bool_decide (next = to) then None
      else if bool_decide (next ∈ seen) then visit to nexts seen stack
      else visit to nexts ({[next]} ∪ seen) (next :: stack)
  end.

Fixpoint search (fuel : nat) (E : gmap string (gset string)) (to : string) (seen : gset string) (stack : list string) : option bool :=
  match stack with
  | [] => Some false
  | n :: stack =>
      match fuel with
      | O => None
      | S fuel =>
          match visit to (range n (succs E n)) seen stack with
          | None => Some true
          | Some (seen, stack) => search fuel E to seen stack
          end
      end
  end.

(** Every node some edge leads to. *)
Definition targets (E : gmap string (gset string)) : gset string := ⋃ (map_to_list E).*2.

Definition reachable_search (E : gmap string (gset string)) (from to : string) : option bool :=
  if bool_decide (from = to) then Some true
  else search (S (size (targets E))) E to {[from]} [from].

Definition reachableLocked (E : gmap string (gset string)) (from to : string) : bool :=
  default false (reachable_search E from to).

(** One turn of [enterAcquire]'s loop, and the loop. *)
Definition enter_one (name : string) (st : Graph) (held : string) : Graph :=
  if bool_decide (held = name) then st
  else
    let st := st <| edges := addEdgeLocked held name (edges st) |> in
    if reachableLocked (edges st) name held then warnCycleLocked held name st else st.
Definition enterAcquire (g : Z) (name : string) (st : Graph) : Graph :=
  foldl (enter_one name) st (held_by g st).

(** *** It decides reachability, whatever the order *)

Definition edge (E : gmap string (gset string)) (x y : string) : Prop := y ∈ succs E x.

Lemma edge_target E x y : edge E x y → y ∈ targets E.
Proof.
  unfold edge, succs. destruct (E !! x) as [X|] eqn:Hx; cbn; [|set_solver]. intros Hy.
  apply elem_of_union_list. exists X. split; [|done]. apply list_elem_of_fmap. exists (x, X).
  split; [done|]. by apply elem_of_map_to_list.
Qed.

Lemma visit_found to nexts seen stack : visit to nexts seen stack = None ↔ to ∈ nexts.
Proof.
  revert seen stack. induction nexts as [|n nexts IH]; intros seen stack; cbn; [split; [done|set_solver]|].
  case_bool_decide as E; [subst; split; [set_solver|done]|].
  rewrite elem_of_cons. case_bool_decide; rewrite IH; naive_solver.
Qed.

Lemma visit_result to nexts (T : gset string) seen stack seen' stack' :
  visit to nexts seen stack = Some (seen', stack') → (∀ x, x ∈ nexts → x ∈ T) →
  seen' = seen ∪ list_to_set nexts ∧
  (∀ x, x ∈ stack' → x ∈ stack ∨ x ∈ nexts) ∧ (∀ x, x ∈ stack → x ∈ stack') ∧
  (∀ x, x ∈ seen' → x ∈ seen ∨ x ∈ stack') ∧
  length stack' + size (T ∖ seen') ≤ length stack + size (T ∖ seen).
Proof.
  revert seen stack. induction nexts as [|n nexts IH]; intros seen stack Hv HT; cbn in Hv.
  { simplify_eq. split_and!; set_solver. }
  case_bool_decide as E1; [done|]. case_bool_decide as E2.
  - destruct (IH seen stack Hv (λ x Hx, HT x (list_elem_of_further _ _ _ Hx))) as (-> & H1 & H2 & H3 & H4).
    split_and!; try done.
    + clear -E2. cbn. set_solver.
    + intros x Hx. destruct (H1 x Hx); [by left|right; by right].
  - destruct (IH _ _ Hv (λ x Hx, HT x (list_elem_of_further _ _ _ Hx))) as (-> & H1 & H2 & H3 & H4). split_and!.
    + clear. cbn. set_solver.
    + intros x Hx. destruct (H1 x Hx) as [[->|?]%elem_of_cons|?]; [right; by left|by left|right; by right].
    + intros x Hx. apply H2. by right.
    + intros x Hx. destruct (H3 x Hx) as [[->%elem_of_singleton|?]%elem_of_union|?]; [right; apply H2; by left|by left|by right].
    + transitivity (length (n :: stack) + size (T ∖ ({[n]} ∪ seen))); [done|]. cbn.
      assert (n ∈ T) by (apply HT; by left). clear -E2 H.
      assert (size (T ∖ seen) = S (size (T ∖ ({[n]} ∪ seen)))); [|lia].
      rewrite (union_difference_L {[n]} (T ∖ seen)), size_union, size_singleton by set_solver.
      do 2 f_equal. set_solver.
Qed.

Lemma closed_reach E (X : gset string) from to :
  from ∈ X → (∀ x, x ∈ X → ∀ y, edge E x y → y ∈ X) → rtc (edge E) from to → to ∈ X.
Proof. intros Hfrom Hcl Hreach. induction Hreach; eauto. Qed.

Lemma search_spec E from to fuel seen stack :
  (∀ x, x ∈ stack → x ∈ seen) → (∀ x, x ∈ seen → rtc (edge E) from x) → to ∉ seen → from ∈ seen →
  (∀ x, x ∈ seen → x ∈ stack ∨ ∀ y, edge E x y → y ∈ seen) →
  length stack + size (targets E ∖ seen) ≤ fuel →
  ∃ b, search fuel E to seen stack = Some b ∧ (b = true ↔ rtc (edge E) from to).
Proof.
  revert seen stack. induction fuel as [|fuel IH]; intros seen [|n stack] Hst Hr Hto Hfrom Hcl Hf; cbn in Hf; [|lia| |].
  1-2: exists false; split; [done|]; split; [done|]; intros Hreach; destruct Hto;
    apply (closed_reach E seen from); [done| |done]; intros x Hx; by destruct (Hcl x Hx) as [?%elem_of_nil|].
  cbn. set (nexts := range n (succs E n)).
  assert (Hnexts : ∀ x, x ∈ nexts ↔ edge E n x) by (intros x; unfold nexts; by rewrite range_perm, elem_of_elements).
  assert (Hn : rtc (edge E) from n) by (apply Hr, Hst; left).
  destruct (visit to nexts seen stack) as [[seen' stack']|] eqn:Hv.
  - destruct (visit_result _ _ (targets E) _ _ _ _ Hv) as (-> & H1 & H2 & H3 & H4).
    { intros x Hx. by eapply edge_target, Hnexts. }
    assert (to ∉ nexts) by (intros H%(visit_found _ _ seen stack); congruence).
    apply IH; [| |set_solver|set_solver| |lia].
    + intros x [Hx|Hx]%H1; [|set_solver]. apply elem_of_union_l, Hst. by right.
    + intros x [Hx|Hx%elem_of_list_to_set]%elem_of_union; [by apply Hr|]. eapply rtc_r; [done|by apply Hnexts].
    + intros x [Hx|Hx]%H3; [|by left]. destruct (Hcl x Hx) as [[->|Hs]%elem_of_cons|Hc].
      * right. intros y Hy. apply elem_of_union_r, elem_of_list_to_set. by apply Hnexts.
      * left. by apply H2.
      * right. intros y Hy. apply elem_of_union_l. by apply Hc.
  - exists true. split; [done|]. split; [intros _|done]. apply visit_found in Hv.
    eapply rtc_r; [done|by apply Hnexts].
Qed.

(** The search stops, and says whether a path leads from [from] to [to],
    whatever the order in which the maps are ranged over. *)
Theorem reachable_correct E from to :
  reachable_search E from to = Some (reachableLocked E from to) ∧
  (reachableLocked E from to = true ↔ rtc (edge E) from to).
Proof.
  unfold reachableLocked, reachable_search. case_bool_decide as Heq; [by subst|].
  destruct (search_spec E from to (S (size (targets E))) {[from]} [from]) as (b & -> & Hb); [set_solver..| |done].
  cbn. pose proof (subseteq_size (targets E ∖ {[from]}) (targets E) ltac:(set_solver)). lia.
Qed.

(** ** What [enterAcquire] records and reports *)

Definition bar : Ascii.ascii := Ascii.ascii_of_N 124.

Lemma pair_key_cut a b : pair_key a b = a +:+ String bar b.
Proof. done. Qed.

Lemma pair_key_inj x y h n : no_char bar x = true → no_char bar y = true → pair_key x y = pair_key h n → x = h ∧ y = n.
Proof.
  rewrite !pair_key_cut. intros Hx Hy E.
  assert (Hh : no_char bar h = true).
  { revert h E. induction x as [|c x IH]; intros [|c' h] E; rewrite ?string_app_cons, ?string_app_nil in E; try done.
    - injection E as Ec Er. rewrite Er, no_char_app in Hy. cbn in Hy. by rewrite andb_false_r in Hy.
    - injection E as <- E. cbn in Hx. apply andb_true_iff in Hx as [Hc Hx]. cbn. rewrite Hc. by apply IH. }
  by apply split_at_char in E.
Qed.

Definition warned (R : gset string) (a b : string) : Prop := pair_key a b ∈ R ∨ pair_key b a ∈ R.

(** The edges nobody was warned about. *)
Definition quiet (st : Graph) (a b : string) : Prop := edge (edges st) a b ∧ ¬ warned (reported st) a b.

Record order_inv (st : Graph) : Prop := {
  oi_acyclic : ∀ x, ¬ tc (quiet st) x x;
  oi_count : cycleCount st = wrap64 (Z.of_nat (size (reported st)));
  oi_real : ∀ k, k ∈ reported st → ∃ a b, k = pair_key a b ∧ a ≠ b ∧ edge (edges st) a b ∧ rtc (edge (edges st)) b a;
  oi_once : ∀ x y, no_char bar x = true → no_char bar y = true → x ≠ y →
    pair_key x y ∈ reported st → pair_key y x ∉ reported st }.

Lemma edge_add from to E a b : edge (addEdgeLocked from to E) a b ↔ edge E a b ∨ (a = from ∧ b = to).
Proof.
  unfold edge, addEdgeLocked, succs. destruct (decide (a = from)) as [->|Hne].
  - rewrite lookup_insert_eq. cbn. set_solver.
  - rewrite lookup_insert_ne by done. naive_solver.
Qed.

(** One edge more makes no cycle unless it closes one. *)
Lemma tc_add_edge {A} (Q : relation A) h n x y :
  tc (λ x y, Q x y ∨ (x = h ∧ y = n)) x y → tc Q x y ∨ (rtc Q x h ∧ rtc Q n y).
Proof.
  induction 1 as [x y [H|[-> ->]]|x y z [H|[-> ->]] _ IH]; [left; by constructor|by right| |].
  - destruct IH as [?|[? ?]]; [left; by eapply tc_l|right; split; [by eapply rtc_l|done]].
  - right. split; [done|]. destruct IH as [?%tc_rtc|[_ ?]]; done.
Qed.

Lemma acyclic_add {A} (Q : relation A) h n : (∀ x, ¬ tc Q x x) → ¬ rtc Q n h →
  ∀ x, ¬ tc (λ x y, Q x y ∨ (x = h ∧ y = n)) x x.
Proof. intros Hac Hn x [?|[H1 H2]]%tc_add_edge; [by eapply Hac|]. apply Hn. by etrans. Qed.

Lemma acyclic_sub {A} (Q Q' : relation A) : (∀ x, ¬ tc Q' x x) → (∀ x y, Q x y → Q' x y) → ∀ x, ¬ tc Q x x.
Proof. intros Hac Hs x Hx. apply (Hac x). by eapply tc_congruence with (f := id). Qed.

Lemma enter_one_inv name st held : order_inv st → order_inv (enter_one name st held).
Proof.
  intros [Hac Hc Hr Hu]. unfold enter_one. case_bool_decide as Hne; [by split|].
  set (E := addEdgeLocked held name (edges st)).
  assert (HE : ∀ a b, edge (edges st) a b → edge E a b) by (intros a b H; apply edge_add; by left).
  assert (Hr' : ∀ k, k ∈ reported st → ∃ a b, k = pair_key a b ∧ a ≠ b ∧ edge E a b ∧ rtc (edge E) b a).
  { intros k (a & b & -> & Hab & He & Hp)%Hr. exists a, b. split_and!; auto. by eapply rtc_congruence with (f := id). }
  destruct (reachable_correct E name held) as [_ Hreach]. cbn. fold E.
  destruct (reachableLocked E name held) eqn:Er.
  - unfold warnCycleLocked. cbn. destruct (bool_decide (pair_key held name ∈ _) || bool_decide _) eqn:Ew.
    + split; cbn; [|done..]. eapply acyclic_sub; [exact Hac|]. intros a b [[He|[-> ->]]%edge_add Hw]; [by split|].
      destruct Hw. by apply orb_true_iff in Ew as [?%bool_decide_eq_true|?%bool_decide_eq_true]; [left|right].
    + apply orb_false_iff in Ew as [Hk%bool_decide_eq_false Hk'%bool_decide_eq_false]. split; cbn.
      * eapply acyclic_sub; [exact Hac|]. unfold quiet, warned. cbn. intros a b [[He|[-> ->]]%edge_add Hw]; set_solver.
      * rewrite Hc, size_union, size_singleton by set_solver. rewrite wrap64_add. f_equal. lia.
      * intros k [->%elem_of_singleton|Hin]%elem_of_union; [|by apply Hr'].
        exists held, name. split_and!; [done|done|apply edge_add; by right|by apply Hreach].
      * intros x y Hx Hy Hxy [E1%elem_of_singleton|H1]%elem_of_union [E2%elem_of_singleton|H2]%elem_of_union.
        -- apply Hxy. rewrite <- E2 in E1. by apply pair_key_inj in E1 as [??].
        -- apply pair_key_inj in E1 as [-> ->]; done.
        -- apply pair_key_inj in E2 as [-> ->]; done.
        -- by apply (Hu x y).
  - split; cbn; [|done..]. eapply acyclic_sub; [apply (acyclic_add (quiet st) held name); [done|]|].
    + intros Hq. assert (false = true); [|done]. apply Hreach.
      eapply rtc_congruence with (f := id); [|exact Hq]. intros a b [? _]. by apply HE.
    + intros a b [[He|[-> ->]]%edge_add Hw]; [left; by split|by right].
Qed.

Lemma enter_one_edge name st held a b :
  edge (edges (enter_one name st held)) a b ↔ edge (edges st) a b ∨ (b = name ∧ a = held ∧ a ≠ name).
Proof.
  unfold enter_one. case_bool_decide as Hne; [naive_solver|]. cbn.
  assert (edges (if reachableLocked (addEdgeLocked held name (edges st)) name held
                 then warnCycleLocked held name (st <| edges := addEdgeLocked held name (edges st) |>)
                 else st <| edges := addEdgeLocked held name (edges st) |>) = addEdgeLocked held name (edges st)) as ->.
  { unfold warnCycleLocked. repeat case_match; done. }
  rewrite edge_add. naive_solver.
Qed.

Lemma enter_one_held name st held : heldByG (enter_one name st held) = heldByG st.
Proof. unfold enter_one, warnCycleLocked. repeat case_match; done. Qed.

Lemma enterAcquire_inv g name st : order_inv st → order_inv (enterAcquire g name st).
Proof. intros Hi. unfold enterAcquire. apply foldl_inv; [done|]. intros. by apply enter_one_inv. Qed.

Lemma enterAcquire_held g name st : heldByG (enterAcquire g name st) = heldByG st.
Proof.
  unfold enterAcquire. apply (foldl_inv (λ st', heldByG st' = heldByG st)); [done|].
  intros st' x H. by rewrite enter_one_held.
Qed.

(** [enterAcquire] adds an edge from every lock the goroutine holds to the one
    it is about to take, and no other. *)
Lemma enterAcquire_edges g name st a b :
  edge (edges (enterAcquire g name st)) a b ↔ edge (edges st) a b ∨ (b = name ∧ a ∈ held_by g st ∧ a ≠ name).
Proof.
  unfold enterAcquire. generalize (held_by g st) as hs. intros hs. revert st.
  induction hs as [|h hs IH]; intros st; cbn; [set_solver|]. rewrite IH, enter_one_edge, elem_of_cons. naive_solver.
Qed.
End search.

(** *** The stacks of held names *)

Lemma last_index_spec name s i : match last_index name s i with
  | Some j => i ≤ j ∧ s !! (j - i) = Some name
  | None => name ∉ s
  end.
Proof.
  revert i. induction s as [|x s IH]; intros i; cbn; [set_solver|]. specialize (IH (S i)).
  destruct (last_index name s (S i)) as [j|].
  - destruct IH as [Hle Hj]. split; [lia|]. by replace (j - i) with (S (j - S i)) by lia.
  - case_bool_decide; [|set_solver]. subst. by rewrite Nat.sub_diag.
Qed.

Lemma held_by_delete g g' (m : Graph) : length (held_by g m) = 0 → held_by g' (m <| heldByG := delete g (heldByG m) |>) = held_by g' m.
Proof.
  unfold held_by. cbn. intros H. destruct (decide (g' = g)) as [->|Hne]; [|by rewrite lookup_delete_ne].
  rewrite lookup_delete_eq. cbn. by destruct (default [] (heldByG m !! g)).
Qed.

Lemma markReleased_held g name st g' : held_by g' (markReleased g name st) =
  if bool_decide (g' = g) then match last_index name (held_by g st) 0 with Some i => remove_at i (held_by g st) | None => held_by g st end
  else held_by g' st.
Proof.
  unfold markReleased. set (st1 := match last_index _ _ _ with Some i => _ | None => st end).
  assert (H1 : held_by g' st1 = if bool_decide (g' = g) then match last_index name (held_by g st) 0 with Some i => remove_at i (held_by g st) | None => held_by g st end else held_by g' st).
  { subst st1. destruct (last_index name (held_by g st) 0) as [i|]; unfold held_by; cbn; case_bool_decide; subst; try done.
    - by rewrite lookup_insert_eq.
    - by rewrite lookup_insert_ne. }
  rewrite <- H1. destruct (Nat.eqb_spec (length (held_by g st1)) 0); [by apply held_by_delete|done].
Qed.

Lemma markHeld_held g name st g' : held_by g' (markHeld g name st) = if bool_decide (g' = g) then held_by g st ++ [name] else held_by g' st.
Proof. unfold markHeld, held_by. cbn. case_bool_decide; subst; [by rewrite lookup_insert_eq|by rewrite lookup_insert_ne]. Qed.

Lemma markReleased_graph g name st : edges (markReleased g name st) = edges st ∧ reported (markReleased g name st) = reported st ∧ cycleCount (markReleased g name st) = cycleCount st.
Proof. unfold markReleased. repeat case_match; done. Qed.

(** ** The endpoint's view *)

Record LockOrderWarning := MkWarning { wA : string; wB : string }.

Fixpoint index_from (s : string) (b : Ascii.ascii) (i : Z) : Z :=
  match s with
  | EmptyString => -1
  | String c s => if Ascii.eqb c b then i else index_from s b (i + 1)
  end.
Definition indexByte (s : string) (b : Ascii.ascii) : Z := index_from s b 0.

Definition cut_warning (k : string) : option LockOrderWarning :=
  let i := indexByte k bar in
  if (i >=? 0)%Z
  then Some (MkWarning (String.substring 0 (Z.to_nat i) k) (String.substring (S (Z.to_nat i)) (String.length k - S (Z.to_nat i)) k))
  else None.

Definition warning_le (x y : LockOrderWarning) : Prop := if bool_decide (wA x = wA y) then str_le (wB x) (wB y) else str_le (wA x) (wA y).
#[export] Instance warning_le_dec : RelDecision warning_le.
Proof. intros x y. unfold warning_le. case_bool_decide; apply _. Defined.

Definition LockOrderWarnings (st : Graph) : list LockOrderWarning :=
  merge_sort warning_le (omap cut_warning (elements (reported st))).
Definition CycleCount (st : Graph) : Z := cycleCount st.

Lemma index_from_app a b i : no_char bar a = true → index_from (a +:+ String bar b) bar i = (i + Z.of_nat (String.length a))%Z.
Proof.
  revert i. induction a as [|c a IH]; intros i Ha.
  - rewrite string_app_nil. cbn. lia.
  - rewrite string_app_cons. cbn in *. apply andb_true_iff in Ha as [Hc Ha]. apply negb_true_iff in Hc. rewrite Hc, IH by done. lia.
Qed.

Lemma cut_pair a b : no_char bar a = true → cut_warning (pair_key a b) = Some (MkWarning a b).
Proof.
  intros Ha. unfold cut_warning, indexByte. rewrite pair_key_cut, index_from_app by done.
  rewrite Z.add_0_l, Nat2Z.id. destruct (Z.geb_spec (Z.of_nat (String.length a)) 0); [|lia]. f_equal. f_equal.
  - apply substring_prefix.
  - assert (Hs : ∀ x, a +:+ String bar x = (a +:+ String bar EmptyString) +:+ x).
    { intros x. clear. induction a as [|c a IH]; [done|]. rewrite !string_app_cons. by f_equal. }
    assert (Hl : S (String.length a) = String.length (a +:+ String bar EmptyString)).
    { clear. induction a as [|c a IH]; [done|]. rewrite string_app_cons. cbn. by rewrite IH. }
    rewrite Hs, Hl, substring_skip.
    replace (String.length ((a +:+ String bar EmptyString) +:+ b) - String.length (a +:+ String bar EmptyString)) with (String.length b); [apply substring_all|].
    generalize (a +:+ String bar EmptyString). clear. intros p. induction p as [|c p IH]; [rewrite string_app_nil; cbn; lia|].
    rewrite string_app_cons. cbn. lia.
Qed.

Lemma length_omap_all {A B} (f : A → option B) l : (∀ x, x ∈ l → is_Some (f x)) → length (omap f l) = length l.
Proof.
  induction l as [|x l IH]; intros H; [done|]. cbn. destruct (H x) as [y ->]; [left|]. cbn. f_equal. apply IH. intros z Hz. apply H. by right.
Qed.

(** ** Goroutines and locks *)

Inductive kind := Excl | Shared.
#[export] Instance kind_eq : EqDecision kind.
Proof. solve_decision. Defined.

(** Where a goroutine is: inside no lock operation; at [m.mu.Lock()], past
    [enterAcquire] if it is [tracked]; before [markHeld]; before
    [markReleased(g', name)]. *)
Inductive pc := Idle | Waiting (l : nat) (k : kind) (tracked : bool) | Taken (l : nat) (k : kind) | Dropped (l : nat) (g' : Z).

Record Sys := MkSys {
  graph : Graph; on : bool;
  holder : gmap nat Z;                  (* [holder] and [wHolder], 0 = free *)
  pcs : gmap Z pc;
  own : gmap Z (list (nat * kind)) }.   (* the locks a goroutine has *)
#[export] Instance eta_Sys : Eta Sys := λ s, MkSys (graph s) (on s) (holder s) (pcs s) (own s).

Definition pc_of (g : Z) (s : Sys) : pc := default Idle (pcs s !! g).
Definition own_of (g : Z) (s : Sys) : list (nat * kind) := default [] (own s !! g).
Definition go_to (g : Z) (p : pc) (s : Sys) : Sys := s <| pcs := <[g := p]> (pcs s) |>.
Definition set_own (g : Z) (o : list (nat * kind)) (s : Sys) : Sys := s <| own := <[g := o]> (own s) |>.

(** The name a lock's statistics, and so its node of the graph, have. *)
Definition stat_name (name : string) : string := if bool_decide (name = EmptyString) then "?" else name.

Inductive event := LockBegin (g : Z) (l : nat) (k : kind) | Take (g : Z) | Mark (g : Z)
  | UnlockBegin (g : Z) (l : nat) (k : kind) | Clear (g : Z) | SetOn (b : bool).

Section machine.
Variable range : string → gset string → list string.
Variable names : nat → string.     (* what [SetName] gave each lock *)
Definition lname (l : nat) : string := stat_name (names l).

(** [sync]'s side: an exclusive lock is free when nobody has the lock, a shared
    one when nobody has it exclusively. *)
Definition free (l : nat) (k : kind) (s : Sys) : bool :=
  forallb (λ p : Z * list (nat * kind), forallb (λ h, negb ((h.1 =? l)%nat && (bool_decide (k = Excl) || bool_decide (h.2 = Excl)))) p.2)
          (map_to_list (own s)).

Definition lock_begin (g : Z) (l : nat) (k : kind) (s : Sys) : option Sys :=
  match pc_of g s with
  | Idle => if on s then Some (go_to g (Waiting l k true) (s <| graph := enterAcquire range g (lname l) (graph s) |>))
            else Some (go_to g (Waiting l k false) s)
  | _ => None
  end.
Definition take_lock (g : Z) (s : Sys) : option Sys :=
  match pc_of g s with
  | Waiting l k tracked =>
      if free l k s then Some (go_to g (if tracked then Taken l k else Idle) (set_own g (own_of g s ++ [(l, k)]) s)) else None
  | _ => None
  end.
Definition mark (g : Z) (s : Sys) : option Sys :=
  match pc_of g s with
  | Taken l k =>
      let s := s <| graph := markHeld g (lname l) (graph s) |> in
      Some (go_to g Idle (match k with Excl => s <| holder := <[l := g]> (holder s) |> | Shared => s end))
  | _ => None
  end.
Definition unlock_begin (g : Z) (l : nat) (k : kind) (s : Sys) : option Sys :=
  match pc_of g s, list_find (λ h, h = (l, k)) (own_of g s) with
  | Idle, Some (i, _) =>
      let s' := set_own g (remove_at i (own_of g s)) s in
      if negb (on s) then Some s'
      else match k with
           | Excl => Some (go_to g (Dropped l (default 0%Z (holder s !! l))) (s' <| holder := <[l := 0%Z]> (holder s) |>))
           | Shared => Some (go_to g (Dropped l g) s')
           end
  | _, _ => None
  end.
Definition clear_mark (g : Z) (s : Sys) : option Sys :=
  match pc_of g s with
  | Dropped l g' => Some (go_to g Idle (s <| graph := markReleased g' (lname l) (graph s) |>))
  | _ => None
  end.

Definition step (e : event) (s : Sys) : option Sys :=
  match e with
  | LockBegin g l k => lock_begin g l k s
  | Take g => take_lock g s
  | Mark g => mark g s
  | UnlockBegin g l k => unlock_begin g l k s
  | Clear g => clear_mark g s
  | SetOn b => Some (s <| on := b |>)
  end.

Fixpoint run (evs : list event) (s : Sys) : option Sys :=
  match evs with [] => Some s | e :: evs => s' ← step e s; run evs s' end.
End machine.

(** The steps a call is. *)
Definition Lock (g : Z) (l : nat) : list event := [LockBegin g l Excl; Take g; Mark g].
Definition Unlock (g : Z) (l : nat) : list event := [UnlockBegin g l Excl; Clear g].
Definition RLock (g : Z) (l : nat) : list event := [LockBegin g l Shared; Take g; Mark g].
Definition RUnlock (g : Z) (l : nat) : list event := [UnlockBegin g l Shared; Clear g].

Definition no_graph : Graph := MkGraph ∅ ∅ ∅ 0.
(** Diagnostics on, nothing locked. *)
Definition enabled : Sys := MkSys no_graph true ∅ ∅ ∅.

Section deadlock.
Variable range : string → gset string → list string.
Hypothesis range_perm : ∀ n X, range n X ≡ₚ elements X.
Variable names : nat → string.
Notation lname := (lname names).
Notation step := (step range names).
Notation run := (run range names).

(** The names on a goroutine's stack are those of its locks, up to the
    operation it is in the middle of. *)
Definition stack_ok (g : Z) (s : Sys) : Prop :=
  let held := held_by g (graph s) in
  let names := (λ h, lname h.1) <$> own_of g s in
  match pc_of g s with
  | Idle | Waiting _ _ true => held ≡ₚ names
  | Waiting _ _ false => False
  | Taken l k => lname l :: held ≡ₚ names ∧ (l, k) ∈ own_of g s
  | Dropped l g' => held ≡ₚ lname l :: names ∧ g' = g
  end.

Record sys_inv (s : Sys) : Prop := {
  si_on : on s = true;
  si_order : order_inv (graph s);
  si_stack : ∀ g, stack_ok g s;
  si_excl : ∀ g g' i j l k, own_of g s !! i = Some (l, Excl) → own_of g' s !! j = Some (l, k) → g = g' ∧ i = j;
  si_holder : ∀ g l, (l, Excl) ∈ own_of g s → pc_of g s ≠ Taken l Excl → holder s !! l = Some g;
  si_waiting : ∀ g l k h, pc_of g s = Waiting l k true → h ∈ own_of g s → lname h.1 ≠ lname l →
    edge (edges (graph s)) (lname h.1) (lname l) }.

Lemma pc_go_to g g' p s : pc_of g' (go_to g p s) = if bool_decide (g' = g) then p else pc_of g' s.
Proof. unfold pc_of, go_to. cbn. case_bool_decide; subst; [by rewrite lookup_insert_eq|by rewrite lookup_insert_ne]. Qed.

Lemma own_set g g' o s : own_of g' (set_own g o s) = if bool_decide (g' = g) then o else own_of g' s.
Proof. unfold own_of, set_own. cbn. case_bool_decide; subst; [by rewrite lookup_insert_eq|by rewrite lookup_insert_ne]. Qed.

Lemma own_go_to g g' p s : own_of g' (go_to g p s) = own_of g' s.
Proof. done. Qed.

Lemma no_edges a b : ¬ edge ∅ a b.
Proof. unfold edge, succs. rewrite lookup_empty. set_solver. Qed.

Lemma no_graph_inv : order_inv no_graph.
Proof.
  split; cbn; [|done|set_solver..]. intros x Hx.
  inversion Hx as [? ? [He _]|? ? ? [He _]]; subst; by apply no_edges in He.
Qed.

Lemma enabled_inv : sys_inv enabled.
Proof.
  split; try done; [apply no_graph_inv|by intros g; apply Permutation_refl|].
  intros g l H. by apply elem_of_nil in H.
Qed.

Lemma stack_ok_ext g s s' : held_by g (graph s') = held_by g (graph s) → own_of g s' = own_of g s → pc_of g s' = pc_of g s →
  stack_ok g s → stack_ok g s'.
Proof. unfold stack_ok. by intros -> -> ->. Qed.

Lemma lock_begin_inv g l k s s' : sys_inv s → lock_begin range names g l k s = Some s' → sys_inv s'.
Proof.
  intros [Hon Ho Hs Hx Hh Hw] Hstep. unfold lock_begin in Hstep.
  destruct (pc_of g s) eqn:Epc; try done. rewrite Hon in Hstep. injection Hstep as <-.
  set (s' := _ <| graph := _ |>). 
  assert (Hheld : ∀ g', held_by g' (graph s') = held_by g' (graph s)).
  { intros g'. unfold held_by. cbn. by rewrite enterAcquire_held. }
  split; [done|by apply enterAcquire_inv| |done| |].
  - intros g'. specialize (Hs g'). destruct (decide (g' = g)) as [->|Hne].
    + unfold stack_ok in *. rewrite Epc in Hs. rewrite pc_go_to, bool_decide_eq_true_2 by done.
      cbn [go_to graph]. by rewrite Hheld.
    + apply (stack_ok_ext _ s); [apply Hheld|done| |exact Hs]. by rewrite pc_go_to, bool_decide_eq_false_2.
  - intros g' l' Hin. rewrite pc_go_to. case_bool_decide; [subst; intros _; apply Hh; [done|by rewrite Epc]|by apply Hh].
  - intros g' l' k' h Hpc Hin Hne. rewrite pc_go_to in Hpc. cbn. apply enterAcquire_edges; [done|].
    case_bool_decide; [|left; by eapply Hw]. right. simplify_eq. split_and!; try done.
    specialize (Hs g). unfold stack_ok in Hs. rewrite Epc in Hs. rewrite Hs. apply list_elem_of_fmap. by exists h.
Qed.

Lemma free_spec l k s g h : free l k s = true → h ∈ own_of g s → h.1 = l → k = Shared ∧ h.2 = Shared.
Proof.
  intros Hf Hin <-. unfold own_of in Hin. destruct (own s !! g) as [o|] eqn:Eo; [|by apply elem_of_nil in Hin].
  unfold free in Hf. rewrite forallb_forall in Hf. specialize (Hf (g, o)). cbn in Hf.
  rewrite forallb_forall in Hf. ospecialize (Hf _ h _); [by apply list_elem_of_In, elem_of_map_to_list|by apply list_elem_of_In|].
  rewrite Nat.eqb_refl in Hf. cbn in Hf. apply negb_true_iff, orb_false_iff in Hf as [H1 H2].
  apply bool_decide_eq_false in H1, H2. destruct k, h as [? []]; naive_solver.
Qed.

Lemma take_lock_inv g s s' : sys_inv s → take_lock g s = Some s' → sys_inv s'.
Proof.
  intros [Hon Ho Hs Hx Hh Hw] Hstep. unfold take_lock in Hstep.
  destruct (pc_of g s) as [|l k t| |] eqn:Epc; try done. destruct (free l k s) eqn:Ef; [|done]. injection Hstep as <-.
  pose proof (Hs g) as Hg. unfold stack_ok in Hg. rewrite Epc in Hg. destruct t; [|done].
  split; cbn; try done.
  - intros g'. specialize (Hs g'). destruct (decide (g' = g)) as [->|Hne].
    + unfold stack_ok. rewrite pc_go_to, own_go_to, own_set, !bool_decide_eq_true_2 by done. cbn.
      rewrite fmap_app, Hg. cbn. split; [by rewrite <- Permutation_cons_append|set_solver].
    + apply (stack_ok_ext _ s); [done| |by rewrite pc_go_to, bool_decide_eq_false_2|exact Hs].
      by rewrite own_go_to, own_set, bool_decide_eq_false_2.
  - intros g1 g2 i j l' k' H1 H2. rewrite own_go_to, own_set in H1, H2.
    assert (Hnew : ∀ (g' : Z) (i' : nat) (k1 k2 : kind), own_of g' s !! i' = Some (l, k1) → k1 = Shared ∧ k = Shared).
    { intros g' i' k1 k2 Hi%list_elem_of_lookup_2. by destruct (free_spec _ _ _ _ _ Ef Hi eq_refl). }
    assert (Hcase : ∀ g' i' k1, (if bool_decide (g' = g) then own_of g s ++ [(l, k)] else own_of g' s) !! i' = Some (l', k1) →
      own_of g' s !! i' = Some (l', k1) ∨ (g' = g ∧ i' = length (own_of g s) ∧ l' = l ∧ k1 = k)).
    { intros g' i' k1 Hi. case_bool_decide; [subst|by left]. apply lookup_app_Some in Hi as [Hi|[Hle Hi]]; [by left|].
      apply list_lookup_singleton_Some in Hi as [Hz [= -> ->]]. right. split_and!; try done. lia. }
    apply Hcase in H1 as [H1|(-> & -> & -> & <-)], H2 as [H2|(-> & -> & E2 & E3)].
    + by eapply Hx.
    + subst. destruct (Hnew _ _ _ Excl H1) as [? _]. done.
    + destruct (Hnew _ _ _ Excl H2) as [_ ?]. done.
    + done.
  - intros g' l' Hin. rewrite own_go_to, own_set in Hin. rewrite pc_go_to. case_bool_decide; [subst|by apply Hh].
    intros Hne. apply Hh; [|by rewrite Epc]. apply elem_of_app in Hin as [?|Heq%list_elem_of_singleton]; [done|].
    destruct Hne. by injection Heq as -> ->.
  - intros g' l' k' h Hpc Hin Hne. rewrite own_go_to, own_set in Hin. rewrite pc_go_to in Hpc.
    case_bool_decide; [done|]. by eapply Hw.
Qed.

Lemma mark_inv g s s' : sys_inv s → mark names g s = Some s' → sys_inv s'.
Proof.
  intros [Hon Ho Hs Hx Hh Hw] Hstep. unfold mark in Hstep.
  destruct (pc_of g s) as [| |l k|] eqn:Epc; try done. injection Hstep as <-.
  pose proof (Hs g) as Hg. unfold stack_ok in Hg. rewrite Epc in Hg. destruct Hg as [Hg Hl].
  set (s1 := s <| graph := markHeld g (lname l) (graph s) |>).
  set (s2 := match k with Excl => _ | Shared => s1 end).
  assert (E2 : graph s2 = graph s1 ∧ on s2 = on s ∧ pcs s2 = pcs s ∧ own s2 = own s) by (by destruct k).
  destruct E2 as (Eg & Eon & Epcs & Eown). assert (Hpc : ∀ g', pc_of g' s2 = pc_of g' s) by (intros; unfold pc_of; by rewrite Epcs).
  assert (Hown : ∀ g', own_of g' s2 = own_of g' s) by (intros; unfold own_of; by rewrite Eown).
  split.
  - cbn. by rewrite Eon.
  - cbn. rewrite Eg. destruct Ho. by split.
  - intros g'. specialize (Hs g'). destruct (decide (g' = g)) as [->|Hne].
    + unfold stack_ok. rewrite pc_go_to, own_go_to, Hown, bool_decide_eq_true_2 by done. cbn. rewrite Eg. cbn.
      rewrite markHeld_held, bool_decide_eq_true_2 by done. by rewrite <- Permutation_cons_append.
    + apply (stack_ok_ext _ s); [|by rewrite own_go_to|by rewrite pc_go_to, bool_decide_eq_false_2|done].
      cbn. rewrite Eg. cbn. by rewrite markHeld_held, bool_decide_eq_false_2.
  - intros g1 g2 i j l' k'. rewrite !own_go_to, !Hown. apply Hx.
  - intros g' l' Hin Hpc'. rewrite own_go_to, Hown in Hin. cbn.
    assert (Hold : pc_of g' s ≠ Taken l' Excl → holder s2 !! l' = Some g').
    { intros Hn. specialize (Hh g' l' Hin Hn). unfold s2. destruct k; [|done]. cbn. destruct (decide (l' = l)) as [->|Hne].
      - rewrite lookup_insert_eq. f_equal. apply list_elem_of_lookup_1 in Hin as [i Hi], Hl as [j Hj].
        by destruct (Hx g' g i j l Excl Hi Hj).
      - by rewrite lookup_insert_ne. }
    destruct (decide (g' = g)) as [->|Hne]; [|rewrite pc_go_to, bool_decide_eq_false_2, Hpc in Hpc' by done; by apply Hold].
    destruct (decide (l' = l ∧ k = Excl)) as [[-> ->]|Hn]; [cbn; apply lookup_insert_eq|].
    apply Hold. rewrite Epc. intros [= -> ->]. by destruct Hn.
  - intros g' l' k' h. rewrite pc_go_to, own_go_to, Hown. case_bool_decide; [done|]. rewrite Hpc. cbn. rewrite Eg. apply Hw.
Qed.

Lemma unlock_begin_inv g l k s s' : sys_inv s → unlock_begin g l k s = Some s' → sys_inv s'.
Proof.
  intros [Hon Ho Hs Hx Hh Hw] Hstep. unfold unlock_begin in Hstep.
  destruct (pc_of g s) eqn:Epc; try done. destruct (list_find _ _) as [[i h]|] eqn:Ef; [|done].
  apply list_find_Some in Ef as (Hi & -> & _). rewrite Hon in Hstep. cbn [negb] in Hstep.
  pose proof (lookup_lt_Some _ _ _ Hi) as Hlt.
  pose proof (Hs g) as Hg. unfold stack_ok in Hg. rewrite Epc in Hg.
  set (g0 := match k with Excl => default 0%Z (holder s !! l) | Shared => g end).
  assert (Hg0 : g0 = g).
  { unfold g0. destruct k; [|done]. by rewrite (Hh g l (list_elem_of_lookup_2 _ _ _ Hi)) by by rewrite Epc. }
  set (h' := match k with Excl => <[l := 0%Z]> (holder s) | Shared => holder s end).
  assert (s' = go_to g (Dropped l g0) (set_own g (remove_at i (own_of g s)) s <| holder := h' |>)) as ->.
  { subst g0 h'. destruct k; injection Hstep as <-; [done|]. by destruct s. }
  set (s2 := set_own g (remove_at i (own_of g s)) s).
  set (shift := λ j', if j' <? i then j' else pred j').
  assert (Hsub : ∀ g' j x, own_of g' s2 !! j = Some x → ∃ j', own_of g' s !! j' = Some x ∧ (g' = g → j' ≠ i) ∧
    j = if bool_decide (g' = g) then shift j' else j').
  { intros g' j x. unfold s2. rewrite own_set. case_bool_decide as E; [subst g'|by exists j].
    intros (j' & ? & Hne & ->)%lookup_remove_at_Some; [|done]. by exists j'. }
  split; cbn; try done.
  - intros g'. specialize (Hs g'). destruct (decide (g' = g)) as [->|Hne].
    + unfold stack_ok. rewrite pc_go_to, bool_decide_eq_true_2 by done. split; [|done].
      change (own_of g (go_to _ _ _)) with (own_of g (set_own g (remove_at i (own_of g s)) s)).
      rewrite own_set, bool_decide_eq_true_2 by done. cbn. rewrite Hg. rewrite (remove_at_perm i _ _ Hi) at 1. done.
    + apply (stack_ok_ext _ s); [done| |by rewrite pc_go_to, bool_decide_eq_false_2|done].
      change (own_of g' (set_own g (remove_at i (own_of g s)) s) = own_of g' s). by rewrite own_set, bool_decide_eq_false_2.
  - intros g1 g2 j1 j2 l' k' H1 H2. change (own_of ?x (go_to _ _ _)) with (own_of x s2) in H1, H2.
    apply Hsub in H1 as (j1' & H1 & _ & ->), H2 as (j2' & H2 & _ & ->). by destruct (Hx _ _ _ _ _ _ H1 H2) as [-> ->].
  - intros g' l' Hin Hpc'. change (own_of ?x (go_to _ _ _)) with (own_of x s2) in Hin.
    apply list_elem_of_lookup_1 in Hin as [j (j' & Hj & Ej & _)%Hsub].
    assert (Hold : holder s !! l' = Some g').
    { apply Hh; [by eapply list_elem_of_lookup_2|]. rewrite pc_go_to in Hpc'. case_bool_decide as E; [subst g'; by rewrite Epc|done]. }
    unfold h'. destruct k; [|done]. destruct (decide (l' = l)) as [->|Hne]; [exfalso|by rewrite lookup_insert_ne].
    destruct (Hx _ _ _ _ _ _ Hj Hi) as [-> ->]. by apply Ej.
  - intros g' l' k' h Hpc Hin. rewrite pc_go_to in Hpc. case_bool_decide; [done|].
    change (own_of ?x (go_to _ _ _)) with (own_of x s2) in Hin. apply list_elem_of_lookup_1 in Hin as [j (j' & Hj & _ & _)%Hsub].
    eapply Hw; [done|by eapply list_elem_of_lookup_2].
Qed.

Lemma clear_mark_inv g s s' : sys_inv s → clear_mark names g s = Some s' → sys_inv s'.
Proof.
  intros [Hon Ho Hs Hx Hh Hw] Hstep. unfold clear_mark in Hstep.
  destruct (pc_of g s) as [| | |l g0] eqn:Epc; try done. injection Hstep as <-.
  pose proof (Hs g) as Hg. unfold stack_ok in Hg. rewrite Epc in Hg. destruct Hg as [Hg ->].
  destruct (markReleased_graph g (lname l) (graph s)) as (Ee & Er & Ec).
  split; cbn; try done.
  - destruct Ho as [H1 H2 H3 H4]. split; rewrite ?Er, ?Ec, ?Ee; try done.
    eapply acyclic_sub; [exact H1|]. unfold quiet. by rewrite Ee, Er.
  - intros g'. specialize (Hs g'). destruct (decide (g' = g)) as [->|Hne].
    + unfold stack_ok. rewrite pc_go_to, own_go_to, bool_decide_eq_true_2 by done. cbn.
      rewrite markReleased_held, bool_decide_eq_true_2 by done.
      pose proof (last_index_spec (lname l) (held_by g (graph s)) 0) as Hl. destruct (last_index _ _ 0) as [i|].
      * destruct Hl as [_ Hl]. rewrite Nat.sub_0_r in Hl. apply remove_at_perm in Hl.
        apply (Permutation_cons_inv (a := lname l)). by rewrite <- Hl.
      * destruct Hl. rewrite Hg. left.
    + apply (stack_ok_ext _ s); [|done|by rewrite pc_go_to, bool_decide_eq_false_2|done].
      cbn. by rewrite markReleased_held, bool_decide_eq_false_2.
  - intros g' l' Hin. rewrite pc_go_to. case_bool_decide; [subst; intros _; apply Hh; [done|by rewrite Epc]|by apply Hh].
  - intros g' l' k' h. rewrite pc_go_to. case_bool_decide; [done|]. rewrite Ee. apply Hw.
Qed.

Lemma machine_step_inv e s s' : e ≠ SetOn false → sys_inv s → step e s = Some s' → sys_inv s'.
Proof.
  intros He Hi Hstep. destruct e as [g l k|g|g|g l k|g|[]]; cbn in Hstep; [| | | | | |done].
  - by eapply lock_begin_inv.
  - by eapply take_lock_inv.
  - by eapply mark_inv.
  - by eapply unlock_begin_inv.
  - by eapply clear_mark_inv.
  - injection Hstep as <-. destruct Hi. by split.
Qed.

Lemma run_sys_inv evs s s' : sys_inv s → SetOn false ∉ evs → run evs s = Some s' → sys_inv s'.
Proof.
  revert s. induction evs as [|e evs IH]; intros s Hi Hon Hr; cbn in Hr; [by simplify_eq|].
  destruct (step e s) as [s1|] eqn:E; [|done]. apply not_elem_of_cons in Hon as [He Hon].
  apply (IH s1); [by apply (machine_step_inv e s)|done|done].
Qed.

(** *** The edges are the orders that occurred *)

(** In the run [evs] a goroutine asked for a lock named [b] while it had one
    named [a]. *)
Definition observed (evs : list event) (a b : string) : Prop :=
  ∃ evs1 g l k evs2 s, evs = evs1 ++ LockBegin g l k :: evs2 ∧ run evs1 enabled = Some s ∧
    (∃ h, h ∈ own_of g s ∧ lname h.1 = a) ∧ lname l = b ∧ a ≠ b.

Lemma run_app evs1 evs2 s : run (evs1 ++ evs2) s = s' ← run evs1 s; run evs2 s'.
Proof. revert s. induction evs1 as [|e evs1 IH]; intros s; [done|]. cbn. destruct (step e s); cbn; [apply IH|done]. Qed.

Lemma observed_snoc evs e s a b : run evs enabled = Some s →
  observed (evs ++ [e]) a b ↔ observed evs a b ∨
    ∃ g l k, e = LockBegin g l k ∧ (∃ h, h ∈ own_of g s ∧ lname h.1 = a) ∧ lname l = b ∧ a ≠ b.
Proof.
  intros Hr. split.
  - intros (evs1 & g & l & k & evs2 & s1 & E & Hr1 & Hh & Hl & Hab).
    destruct evs2 as [|e2 evs2] using rev_ind.
    + apply app_inj_tail in E as [<- ->]. rewrite Hr in Hr1. simplify_eq. right. by exists g, l, k.
    + change (evs ++ [e] = evs1 ++ (LockBegin g l k :: evs2) ++ [e2]) in E. rewrite app_assoc in E. apply app_inj_tail in E as [-> _]. left. by exists evs1, g, l, k, evs2, s1.
  - intros [(evs1 & g & l & k & evs2 & s1 & -> & H)|(g & l & k & -> & H)].
    + exists evs1, g, l, k, (evs2 ++ [e]), s1. split; [by rewrite <- app_assoc|done].
    + by exists evs, g, l, k, [], s.
Qed.

Lemma step_edges e s s' a b : sys_inv s → step e s = Some s' →
  edge (edges (graph s')) a b ↔ edge (edges (graph s)) a b ∨
    ∃ g l k, e = LockBegin g l k ∧ (∃ h, h ∈ own_of g s ∧ lname h.1 = a) ∧ lname l = b ∧ a ≠ b.
Proof.
  intros Hi Hstep. destruct e as [g l k|g|g|g l k|g|x]; cbn in Hstep.
  { unfold lock_begin in Hstep. destruct (pc_of g s) eqn:Epc; try done. rewrite (si_on _ Hi) in Hstep. injection Hstep as <-.
    cbn. rewrite enterAcquire_edges by done. pose proof (si_stack _ Hi g) as Hs. unfold stack_ok in Hs. rewrite Epc in Hs.
    rewrite Hs, list_elem_of_fmap. split; (intros [?|H]; [by left|right]).
    - destruct H as (-> & (h & -> & Hh) & Hne). exists g, l, k. split_and!; try done. by exists h.
    - destruct H as (g1 & l1 & k1 & [= <- <- <-] & (h & Hh & <-) & <- & Hne). split_and!; try done. by exists h. }
  all: assert (edges (graph s') = edges (graph s)) as ->; [|split; [by left|intros [?|(?&?&?&?&_)]; done]].
  - unfold take_lock in Hstep. repeat (case_match; simplify_eq); done.
  - unfold mark in Hstep. destruct (pc_of g s) as [| |l []|]; simplify_eq; done.
  - unfold unlock_begin in Hstep. destruct (pc_of g s); try done. repeat (case_match; simplify_eq); done.
  - unfold clear_mark in Hstep. destruct (pc_of g s) as [| | |l g0]; simplify_eq. cbn. apply markReleased_graph.
  - by simplify_eq.
Qed.

Lemma edges_observed evs s a b : run evs enabled = Some s → SetOn false ∉ evs → edge (edges (graph s)) a b ↔ observed evs a b.
Proof.
  revert s. induction evs as [|e evs IH] using rev_ind; intros s Hr Hon.
  { cbn in Hr. simplify_eq. split; [by intros ?%no_edges|]. intros (evs1 & ? & ? & ? & ? & ? & E & _). by destruct evs1. }
  rewrite run_app in Hr. destruct (run evs enabled) as [s1|] eqn:E1; [|done]. cbn in Hr.
  destruct (step e s1) as [s2|] eqn:E2; [|done]. cbn in Hr. simplify_eq.
  apply not_elem_of_app in Hon as [Hon He]. pose proof (run_sys_inv _ _ _ enabled_inv Hon E1) as Hi.
  by rewrite (step_edges e s1 s a b Hi E2), (observed_snoc _ _ s1), (IH s1).
Qed.

(** *** A deadlock is reported before it happens *)

(** Goroutine [g] is blocked on lock [l], which [g'] has. *)
Definition blocked_on (s : Sys) (g : Z) (l : nat) (g' : Z) : Prop :=
  (∃ k, pc_of g s = Waiting l k true) ∧ (∃ k, (l, k) ∈ own_of g' s).

(** Each goroutine of the ring is blocked on a lock the next one has. *)
Definition deadlocked (s : Sys) (ring : list (Z * nat)) : Prop :=
  ∀ i g l g' l', ring !! i = Some (g, l) → ring !! (S i mod length ring) = Some (g', l') → blocked_on s g l g'.

Lemma ring_step s ring i a b : sys_inv s → deadlocked s ring → ring !! i = Some a → ring !! (S i mod length ring) = Some b →
  lname a.2 ≠ lname b.2 → edge (edges (graph s)) (lname a.2) (lname b.2).
Proof.
  intros Hi Hd Ha Hb Hne. destruct a as [g l], b as [g' l']. cbn in *.
  destruct (Hd _ _ _ _ _ Ha Hb) as [_ [k Hown]].
  assert (Hlt : S i mod length ring < length ring) by (apply lookup_lt_Some in Hb; done).
  destruct (lookup_lt_is_Some_2 ring (S (S i mod length ring) mod length ring)) as [[g2 l2] H2].
  { apply Nat.mod_upper_bound. lia. }
  destruct (Hd _ _ _ _ _ Hb H2) as [[k' Hpc] _]. by apply (si_waiting _ Hi g' l' k' (l, k)).
Qed.

Lemma ring_path s ring k i a b : sys_inv s → deadlocked s ring →
  (∀ i a b, ring !! i = Some a → ring !! (S i mod length ring) = Some b → lname a.2 ≠ lname b.2 →
     ¬ warned (reported (graph s)) (lname a.2) (lname b.2)) →
  ring !! i = Some a → ring !! ((i + k) mod length ring) = Some b → rtc (quiet (graph s)) (lname a.2) (lname b.2).
Proof.
  intros Hi Hd Hw. revert b. induction k as [|k IH]; intros b Ha Hb.
  { pose proof (lookup_lt_Some _ _ _ Ha). rewrite Nat.add_0_r, Nat.mod_small, Ha in Hb by lia. by simplify_eq. }
  assert (Hn : length ring ≠ 0) by (apply lookup_lt_Some in Ha; lia).
  destruct (lookup_lt_is_Some_2 ring ((i + k) mod length ring)) as [c Hc]; [by apply Nat.mod_upper_bound|].
  etrans; [by apply IH|]. rewrite Nat.add_succ_r in Hb.
  rewrite <- (Nat.add_1_r (i + k)), <- Nat.Div0.add_mod_idemp_l, Nat.add_1_r in Hb.
  destruct (decide (lname c.2 = lname b.2)) as [->|Hne]; [done|]. apply rtc_once. split; [by eapply ring_step|by eapply Hw].
Qed.

Lemma unreported_ring s ring i j a b : sys_inv s → deadlocked s ring →
  (∀ i a b, ring !! i = Some a → ring !! (S i mod length ring) = Some b → lname a.2 ≠ lname b.2 →
     ¬ warned (reported (graph s)) (lname a.2) (lname b.2)) →
  ring !! i = Some a → ring !! j = Some b → lname a.2 = lname b.2.
Proof.
  intros Hi Hd Hquiet Ha Hb.
  assert (Hab : ∀ i j a b, ring !! i = Some a → ring !! j = Some b → rtc (quiet (graph s)) (lname a.2) (lname b.2)).
  { clear -Hi Hd Hquiet. intros i j a b Ha Hb. pose proof (lookup_lt_Some _ _ _ Ha). pose proof (lookup_lt_Some _ _ _ Hb).
    apply (ring_path s ring (j + length ring - i) i a b); try done.
    replace (i + (j + length ring - i)) with (j + 1 * length ring) by lia. by rewrite Nat.Div0.mod_add, Nat.mod_small. }
  destruct (rtc_tc (R := quiet (graph s)) (lname a.2) (lname b.2)) as [[?|Htc] _]; [by eapply Hab|done|].
  destruct (oi_acyclic _ (si_order _ Hi) (lname a.2)). eapply tc_rtc_r; [done|]. by eapply Hab.
Qed.

(** C26: as long as diagnostics stay on, whatever the goroutines do: if some of them
    wait for each other in a ring, over locks that do not all have one name,
    then two of those locks, the one a goroutine of the ring has and the one it
    waits for, are a pair that has been reported. *)
Theorem deadlock_was_reported evs s ring i j a b : run evs enabled = Some s → SetOn false ∉ evs →
  deadlocked s ring → ring !! i = Some a → ring !! j = Some b → lname a.2 ≠ lname b.2 →
  ∃ m c d, ring !! m = Some c ∧ ring !! (S m mod length ring) = Some d ∧ lname c.2 ≠ lname d.2 ∧
    warned (reported (graph s)) (lname c.2) (lname d.2).
Proof.
  intros Hr Hon Hd Ha Hb Hne. pose proof (run_sys_inv _ _ _ enabled_inv Hon Hr) as Hi.
  set (P := λ m, match ring !! m, ring !! (S m mod length ring) with
    | Some c, Some d => lname c.2 ≠ lname d.2 ∧ warned (reported (graph s)) (lname c.2) (lname d.2) | _, _ => False end).
  assert (Pdec : ∀ m, Decision (P m)) by (intros m; unfold P, warned; repeat case_match; apply _).
  destruct (decide (Exists P (seq 0 (length ring)))) as [He|He].
  - apply Exists_exists in He as (m & _ & HP). unfold P in HP.
    destruct (ring !! m) as [c|] eqn:Hc; [|done]. destruct (ring !! (S m mod length ring)) as [d|] eqn:Hd'; [|done].
    exists m, c, d. split_and!; tauto.
  - destruct Hne. apply (unreported_ring s ring i j a b); try done. intros m c d Hc Hd' Hn Hw. apply He, Exists_exists. exists m.
    split; [apply elem_of_seq; apply lookup_lt_Some in Hc; lia|]. unfold P. by rewrite Hc, Hd'.
Qed.

(** What [LockOrderWarnings] lists, while diagnostics stay on and no name has a
    bar: pairs [(a, b)] such that some goroutine took [b] while it had [a], and
    such steps lead from [b] back to [a]; each pair in one direction only, and
    [CycleCount] of them. *)
Theorem warnings_are_inversions evs s : run evs enabled = Some s → SetOn false ∉ evs → (∀ l, no_char bar (names l) = true) →
  CycleCount (graph s) = wrap64 (Z.of_nat (length (LockOrderWarnings (graph s)))) ∧
  ∀ a b, MkWarning a b ∈ LockOrderWarnings (graph s) →
    observed evs a b ∧ rtc (observed evs) b a ∧ MkWarning b a ∉ LockOrderWarnings (graph s).
Proof.
  intros Hr Hon Hbar. pose proof (run_sys_inv _ _ _ enabled_inv Hon Hr) as Hi. destruct (si_order _ Hi) as [_ Hc Hreal Hu].
  assert (Hobs : ∀ a b, edge (edges (graph s)) a b → no_char bar a = true ∧ no_char bar b = true).
  { intros a b (evs1 & g & l & k & evs2 & s1 & _ & _ & (h & _ & <-) & <- & _)%(edges_observed evs s); [|done..].
    unfold LockOrder.lname, stat_name. split; case_bool_decide; auto. }
  assert (Hin : ∀ k, k ∈ reported (graph s) → ∃ a b, k = pair_key a b ∧ cut_warning k = Some (MkWarning a b) ∧
    a ≠ b ∧ no_char bar a = true ∧ no_char bar b = true ∧ observed evs a b ∧ rtc (observed evs) b a).
  { intros k (a & b & -> & Hab & He & Hp)%Hreal. exists a, b. destruct (Hobs a b He) as [Ha Hb].
    split_and!; try done; [by apply cut_pair|by apply (edges_observed evs s)|].
    eapply rtc_congruence with (f := id); [|exact Hp]. intros x y. by apply (edges_observed evs s). }
  assert (Helem : ∀ w, w ∈ LockOrderWarnings (graph s) ↔ ∃ k, k ∈ reported (graph s) ∧ cut_warning k = Some w).
  { intros w. unfold LockOrderWarnings. rewrite merge_sort_Permutation, list_elem_of_omap.
    split; intros (k & Hk & ?); exists k; (split; [by apply elem_of_elements|done]). }
  split.
  - unfold CycleCount. rewrite Hc. do 2 f_equal. unfold LockOrderWarnings. rewrite merge_sort_Permutation.
    unfold size, set_size. cbn. symmetry. apply length_omap_all. intros k (a & b & _ & -> & _)%elem_of_elements%Hin. by eexists.
  - intros a b (k & Hk & Hcut)%Helem. destruct (Hin k Hk) as (a' & b' & -> & Hcut' & Hab & Ha & Hb & Ho & Hp).
    rewrite Hcut in Hcut'. injection Hcut' as <- <-. split_and!; try done.
    intros (k2 & Hk2 & Hcut2)%Helem. destruct (Hin k2 Hk2) as (a2 & b2 & -> & Hcut3 & _).
    rewrite Hcut2 in Hcut3. injection Hcut3 as <- <-. by apply (Hu a b).
Qed.
End deadlock.

(** ** On concrete runs *)

Definition in_order (n : string) (X : gset string) : list string := elements X.
Definition ab_names (l : nat) : string := match l with 0 => "a" | 1 => "b" | _ => EmptyString end.

(** Goroutine 1 takes [a] then wants [b], goroutine 2 takes [b] then wants [a]. *)
Definition crossing : list event :=
  Lock 1 0 ++ Lock 2 1 ++ [LockBegin 1 1 Excl; LockBegin 2 0 Excl].

Definition crossed : Sys := default enabled (run in_order ab_names crossing enabled).
Definition crossed_ring : list (Z * nat) := [(1%Z, 1); (2%Z, 0)].

Lemma crossing_run : run in_order ab_names crossing enabled = Some crossed.
Proof. vm_compute. reflexivity. Qed.

Lemma crossed_deadlocked : deadlocked crossed crossed_ring.
Proof.
  intros [|[|i]] g l g' l' H1 H2; cbn in H1; try discriminate; injection H1 as <- <-; cbn in H2; injection H2 as <- <-;
    (split; [exists Excl; vm_compute; reflexivity|exists Excl; vm_compute; left]).
Qed.

Lemma crossing_on : SetOn false ∉ crossing.
Proof. intros H. repeat (apply elem_of_cons in H as [H|H]; [discriminate|]). by apply elem_of_nil in H. Qed.

Lemma deadlock_was_reported_witness :
  ∃ m c d, crossed_ring !! m = Some c ∧ crossed_ring !! (S m mod 2) = Some d ∧ lname ab_names c.2 ≠ lname ab_names d.2 ∧
    warned (reported (graph crossed)) (lname ab_names c.2) (lname ab_names d.2).
Proof.
  apply (deadlock_was_reported in_order (λ n X, reflexivity _) ab_names crossing crossed crossed_ring 0 1 (1%Z, 1) (2%Z, 0));
    [apply crossing_run|apply crossing_on|apply crossed_deadlocked|reflexivity..|discriminate].
Defined.

Lemma warnings_are_inversions_witness : LockOrderWarnings (graph crossed) = [MkWarning "b" "a"] ∧
  observed in_order ab_names crossing "b" "a" ∧ rtc (observed in_order ab_names crossing) "a" "b".
Proof.
  assert (Hl : LockOrderWarnings (graph crossed) = [MkWarning "b" "a"]) by (vm_compute; reflexivity).
  split; [exact Hl|].
  refine ((λ H, conj (proj1 H) (proj1 (proj2 H)))
    (proj2 (warnings_are_inversions in_order (λ n X, reflexivity _) ab_names crossing crossed crossing_run crossing_on _) "b" "a" _)).
  - intros [|[|l]]; reflexivity.
  - rewrite Hl. left.
Defined.

(** Two readers do not exclude each other, and a complete section leaves no
    trace but the orders it showed. *)
Example sections : ∃ s, run in_order ab_names (Lock 1 0 ++ RLock 1 1 ++ RLock 2 1 ++ RUnlock 1 1 ++ Unlock 1 0 ++ RUnlock 2 1) enabled = Some s ∧
  heldByG (graph s) = ∅ ∧ edges (graph s) = {[ "a" := {["b"]} ]} ∧ reported (graph s) = ∅ ∧ own_of 1 s = [] ∧ own_of 2 s = [].
Proof. eexists. split; [vm_compute; reflexivity|]. by vm_compute. Qed.

(** A goroutine that waits for a lock it has itself is not reported. *)
Example self_deadlock_unreported :
  ∃ s, run in_order ab_names (Lock 1 0 ++ [LockBegin 1 0 Excl]) enabled = Some s ∧
    deadlocked s [(1%Z, 0)] ∧ reported (graph s) = ∅.
Proof.
  eexists. split; [vm_compute; reflexivity|]. split; [|reflexivity].
  intros [|i] g l g' l' H1 H2; cbn in H1; try discriminate; injection H1 as <- <-; cbn in H2; injection H2 as <- <-.
  split; [exists Excl; vm_compute; reflexivity|exists Excl; vm_compute; left].
Qed.
