(* ===== verification/LockStats.v ===== *)
(** * Lock statistics (diag/lock.go)

    The counters of a named lock, the compare-and-swap loop that keeps a
    maximum, the registry that names are looked up in, and the snapshot the
    endpoint serves. *)
From S2P Require Import Prelude GoLib LockOrder.
From stdpp Require Import gmap.
Open Scope Z_scope.

(** ** [storeMax]: the maximum under concurrent writers *)

Module StoreMax.

(** A call of [storeMax(dst, v)]: at the load, at the comparison with the value
    loaded, returned. *)
Inductive call := Start (v : Z) | Loaded (v cur : Z) | Returned (v : Z).
Definition arg (c : call) : Z := match c with Start v | Loaded v _ | Returned v => v end.
Definition returned (c : call) : bool := match c with Returned _ => true | _ => false end.

Record Cell := MkCell { dst : Z; calls : list call }.

Definition move (c : call) (dst : Z) : call * Z :=
  match c with
  | Start v => (Loaded v dst, dst)
  | Loaded v cur =>
      if v <=? cur then (Returned v, dst)
      else if cur =? dst then (Returned v, v)      (* CompareAndSwap succeeds *)
      else (Start v, dst)
  | Returned v => (Returned v, dst)
  end.

Definition step (i : nat) (m : Cell) : option Cell :=
  c ← calls m !! i;
  if returned c then None
  else let '(c', d) := move c (dst m) in Some (MkCell d (<[i := c']> (calls m))).
Fixpoint run (sched : list nat) (m : Cell) : option Cell :=
  match sched with [] => Some m | i :: sched => m' ← step i m; run sched m' end.

Definition storeMax (v0 : Z) (vs : list Z) : Cell := MkCell v0 (Start <$> vs).
Definition max_of (v0 : Z) (vs : list Z) : Z := foldr Z.max v0 vs.

Lemma max_of_ge v0 vs : v0 ≤ max_of v0 vs ∧ ∀ v, v ∈ vs → v ≤ max_of v0 vs.
Proof.
  unfold max_of. induction vs as [|x vs [IH1 IH2]]; cbn; [split; [lia|set_solver]|].
  split; [lia|]. intros v [->|Hv]%elem_of_cons; [lia|]. specialize (IH2 v Hv). lia.
Qed.

Lemma max_of_in v0 vs : max_of v0 vs = v0 ∨ max_of v0 vs ∈ vs.
Proof.
  unfold max_of. induction vs as [|x vs IH]; cbn; [by left|].
  destruct (Z.max_spec x (foldr Z.max v0 vs)) as [[_ ->]|[_ ->]]; [|right; left].
  destruct IH as [IH|IH]; [by left|right; by right].
Qed.

Record ok (v0 : Z) (vs : list Z) (m : Cell) : Prop := {
  ok_args : arg <$> calls m = vs;
  ok_dst : v0 ≤ dst m ∧ (dst m = v0 ∨ dst m ∈ vs);
  ok_call : ∀ c, c ∈ calls m → match c with Start _ => True | Loaded _ cur => cur ≤ dst m | Returned v => v ≤ dst m end }.

Lemma cas_start_ok v0 vs : ok v0 vs (storeMax v0 vs).
Proof.
  split; cbn; [|split; [lia|by left]|].
  - rewrite <- list_fmap_compose. by apply list_fmap_id.
  - intros c (v & -> & _)%list_elem_of_fmap. done.
Qed.

Lemma move_mono c d : match c with Loaded _ cur => cur ≤ d | _ => True end → d ≤ (move c d).2.
Proof. destruct c as [v|v cur|v]; cbn; [lia| |lia]. destruct (Z.leb_spec v cur), (Z.eqb_spec cur d); cbn; lia. Qed.

Lemma step_ok v0 vs i m m' : ok v0 vs m → step i m = Some m' → ok v0 vs m'.
Proof.
  intros [Ha [Hd Hin] Hc] Hs. unfold step in Hs. destruct (calls m !! i) as [c|] eqn:Ei; [|done]. cbn in Hs.
  destruct (returned c) eqn:Er; [done|]. pose proof (list_elem_of_lookup_2 _ _ _ Ei) as Hci. pose proof (Hc c Hci) as Hcc.
  pose proof (move_mono c (dst m)) as Hmono. destruct (move c (dst m)) as [c' d] eqn:Em. injection Hs as <-.
  assert (Hle : dst m ≤ d) by (apply Hmono; by destruct c). clear Hmono.
  assert (Hm : arg c' = arg c ∧ (d = dst m ∨ d = arg c) ∧
    match c' with Start _ => True | Loaded _ cur => cur ≤ d | Returned v => v ≤ d end).
  { destruct c as [v|v cur|v]; cbn in Em; [simplify_eq; cbn; auto with lia| |done].
    destruct (Z.leb_spec v cur); [simplify_eq; cbn; split_and!; auto with lia|].
    destruct (Z.eqb_spec cur (dst m)); simplify_eq; cbn; auto with lia. }
  destruct Hm as (Harg & Hd' & Hc'). split; cbn.
  - rewrite list_fmap_insert, Harg, Ha. apply list_insert_id. by rewrite <- Ha, list_lookup_fmap, Ei.
  - split; [lia|]. destruct Hd' as [->| ->]; [done|]. right. rewrite <- Ha. by apply list_elem_of_fmap_2.
  - intros x Hx. apply list_elem_of_lookup_1 in Hx as [j [(_ & <- & _)|[_ Hx%list_elem_of_lookup_2]]%list_lookup_insert_Some]; [done|]. specialize (Hc x Hx). destruct x; lia || done.
Qed.

(** *** Every call returns *)

Definition waste (d : Z) (c : call) : nat :=
  match c with Start _ => 2 | Loaded v cur => if (v <=? cur) || (cur =? d) then 1 else 3 | Returned _ => 0 end.
Definition undone (c : call) : nat := if returned c then 0 else 1.
Definition total (f : call → nat) (cs : list call) : nat := sum_list_with f cs.

(** A successful swap may send every other call back once; otherwise a step
    brings its own call forward. *)
Definition effort (m : Cell) : nat := total undone (calls m) * (3 * length (calls m) + 1) + total (waste (dst m)) (calls m).

Lemma effort_insert f cs i c c' : cs !! i = Some c → (total f (<[i := c']> cs) + f c = total f cs + f c')%nat.
Proof.
  unfold total. revert i. induction cs as [|x cs IH]; intros [|i] Hi; cbn in *; simplify_eq; [lia|].
  specialize (IH i Hi). revert IH. set (a := sum_list_with f (<[i:=c']> cs)). intros IH.
  change (f x + a + f c = f x + sum_list_with f cs + f c')%nat. lia.
Qed.

Lemma total_bound f k cs : (∀ c, f c ≤ k)%nat → (total f cs ≤ k * length cs)%nat.
Proof. intros Hf. unfold total. induction cs as [|c cs IH]; cbn; [lia|]. specialize (Hf c). lia. Qed.

Lemma waste_le d c : (waste d c ≤ 3)%nat.
Proof. destruct c; cbn; [lia| |lia]. destruct (_ || _); lia. Qed.

Lemma step_effort i m m' : step i m = Some m' → (effort m' < effort m)%nat.
Proof.
  unfold step. destruct (calls m !! i) as [c|] eqn:Ei; [|done]. cbn. destruct (returned c) eqn:Er; [done|].
  destruct (move c (dst m)) as [c' d] eqn:Em. intros [= <-]. unfold effort. cbn [calls dst]. rewrite length_insert.
  pose proof (effort_insert undone _ i c c' Ei) as Hu. unfold undone in Hu at 2 4. rewrite Er in Hu.
  pose proof (effort_insert (waste d) _ i c c' Ei) as Hw.
  pose proof (total_bound (waste d) 3 (<[i:=c']> (calls m)) (waste_le d)) as Hb. rewrite length_insert in Hb.
  set (n := length (calls m)) in *. destruct c as [v|v cur|v]; cbn in Em, Er; [| |done].
  - injection Em as <- <-. cbn in Hu, Hw. rewrite Z.eqb_refl, orb_true_r in Hw. nia.
  - destruct (Z.leb_spec v cur) as [Hle|Hgt].
    + injection Em as <- <-. cbn in Hu, Hw. nia.
    + destruct (Z.eqb_spec cur (dst m)) as [->|Hne]; injection Em as <- <-; cbn in Hu, Hw.
      * nia.
      * rewrite (proj2 (Z.leb_gt v cur)), (proj2 (Z.eqb_neq cur (dst m))) in Hw by done. cbn in Hw. nia.
Qed.

Lemma run_effort v0 vs sched m m' : ok v0 vs m → run sched m = Some m' → ok v0 vs m' ∧ (length sched + effort m' ≤ effort m)%nat.
Proof.
  revert m. induction sched as [|i sched IH]; intros m Hm Hr; cbn in Hr; [simplify_eq; split; [done|cbn; lia]|].
  destruct (step i m) as [m1|] eqn:E; [|done]. destruct (IH m1) as [? ?]; [by eapply step_ok|done|].
  split; [done|]. apply step_effort in E. cbn. lia.
Qed.

Lemma start_effort v0 vs : effort (storeMax v0 vs) = (length vs * (3 * length vs + 1) + 2 * length vs)%nat.
Proof.
  unfold effort. cbn. rewrite length_fmap. unfold total. f_equal; [f_equal|]; induction vs; cbn in *; lia.
Qed.

(** However the calls interleave: they take at most [3 n (n + 1)] steps in all,
    a call that has not returned can always move, and when all have returned the
    cell has the maximum of its old value and all arguments. *)
Theorem storeMax_is_max v0 vs sched m : run sched (storeMax v0 vs) = Some m →
  (length sched ≤ 3 * length vs * (length vs + 1))%nat ∧
  (∀ i c, calls m !! i = Some c → returned c = false → is_Some (step i m)) ∧
  (Forall (λ c, returned c = true) (calls m) → dst m = max_of v0 vs).
Proof.
  intros Hr. destruct (run_effort v0 vs _ _ _ (cas_start_ok v0 vs) Hr) as [[Ha [Hd Hin] Hc] He]. rewrite start_effort in He. split_and!.
  - nia.
  - intros i c Hi Hret. unfold step. rewrite Hi. cbn. rewrite Hret. destruct (move c (dst m)). by eexists.
  - rewrite Forall_forall. intros Hall. destruct (max_of_ge v0 vs) as [Hv0 Hvs].
    assert (max_of v0 vs ≤ dst m).
    { destruct (max_of_in v0 vs) as [->|Hmax]; [done|]. rewrite <- Ha in Hmax at 2.
      apply list_elem_of_fmap in Hmax as (c & -> & Hcin). specialize (Hall c Hcin). specialize (Hc c Hcin). by destruct c. }
    destruct Hin as [Hin|Hin]; [lia|]. specialize (Hvs _ Hin). lia.
Qed.

Lemma storeMax_is_max_witness : ∃ m, run [0; 1; 0; 1; 1; 1]%nat (storeMax 5 [7; 9]) = Some m ∧ dst m = max_of 5 [7; 9].
Proof.
  eexists. split; [vm_compute; reflexivity|].
  apply (storeMax_is_max 5 [7; 9] [0; 1; 0; 1; 1; 1]%nat); [vm_compute; reflexivity|repeat constructor].
Defined.
End StoreMax.

(** ** The counters of a lock *)

Record lockStat := MkStat {
  lsName : string; acquisitions : Z; waitTotal : Z; holdTotal : Z;
  maxWait : Z; maxHold : Z; contended : Z; longHolds : Z }.
#[export] Instance eta_lockStat : Eta lockStat := λ s,
  MkStat (lsName s) (acquisitions s) (waitTotal s) (holdTotal s) (maxWait s) (maxHold s) (contended s) (longHolds s).

Section stats.
Context (WaitWarn HoldWarn : Z).

Definition store_max (cur v : Z) : Z := if v <=? cur then cur else v.
Definition recordWait (d : Z) (s : lockStat) : lockStat :=
  let s := s <| acquisitions := wrap64 (acquisitions s + 1) |> <| waitTotal := wrap64 (waitTotal s + d) |>
             <| maxWait := store_max (maxWait s) d |> in
  if d >=? WaitWarn then s <| contended := wrap64 (contended s + 1) |> else s.
Definition recordHold (d : Z) (s : lockStat) : lockStat :=
  let d := if d <? 0 then 0 else d in
  let s := s <| holdTotal := wrap64 (holdTotal s + d) |> <| maxHold := store_max (maxHold s) d |> in
  if d >=? HoldWarn then s <| longHolds := wrap64 (longHolds s + 1) |> else s.

(** ** The registry

    A lock caches its statistics in its slot; the pointer is the name they are
    registered under, so locks of one name share them. *)
Record Registry := MkRegistry { byName : gmap string lockStat; slots : gmap nat string }.
#[export] Instance eta_Registry : Eta Registry := λ r, MkRegistry (byName r) (slots r).

Definition fresh (name : string) : lockStat := MkStat name 0 0 0 0 0 0 0.
Definition statFor (l : nat) (name : string) (r : Registry) : string * Registry :=
  match slots r !! l with
  | Some n => (n, r)
  | None =>
      let n := stat_name name in
      let r := match byName r !! n with Some _ => r | None => r <| byName := <[n := fresh n]> (byName r) |> end in
      (n, r <| slots := <[l := n]> (slots r) |>)
  end.

(** What the lock operations feed in: the wait of a [Lock], the hold of an
    [Unlock]. *)
Inductive sample := Wait (d : Z) | Hold (d : Z).
Definition take_sample (x : sample) (s : lockStat) : lockStat := match x with Wait d => recordWait d s | Hold d => recordHold d s end.
Definition observe (names : nat → string) (r : Registry) (op : nat * sample) : Registry :=
  let '(n, r) := statFor op.1 (names op.1) r in r <| byName := alter (take_sample op.2) n (byName r) |>.

(** ** The snapshot *)

Record LockStat := MkLockStat {
  Name : string; Acquisitions : Z; WaitAvgNanos : Z; WaitMaxNanos : Z;
  HoldAvgNanos : Z; HoldMaxNanos : Z; Contended : Z; LongHolds : Z }.
Definition report (n : string) (s : lockStat) : LockStat :=
  let acq := acquisitions s in
  MkLockStat n acq (if acq >? 0 then waitTotal s ÷ acq else 0) (maxWait s)
    (if acq >? 0 then holdTotal s ÷ acq else 0) (maxHold s) (contended s) (longHolds s).
(** [order]: how [range] visits the registry. *)
Definition LockStats (order : list string) (r : Registry) : list LockStat :=
  omap (λ n, report n <$> byName r !! n) (merge_sort str_le order).

(** *** Samples go to the statistics of their lock's name *)

Section sampled.
Variable names : nat → string.
Notation lname := (lname names).

Definition samples_of (n : string) (ops : list (nat * sample)) : list sample := (filter (λ op, lname op.1 = n) ops).*2.

Record sampled (ops : list (nat * sample)) (r : Registry) : Prop := {
  sp_slots : ∀ l n, slots r !! l = Some n → n = lname l ∧ is_Some (byName r !! n);
  sp_stats : ∀ n, byName r !! n = (if bool_decide (samples_of n ops = []) then None
                                   else Some (foldl (flip take_sample) (fresh n) (samples_of n ops))) }.

Lemma samples_of_snoc n ops l x : samples_of n (ops ++ [(l, x)]) = samples_of n ops ++ (if bool_decide (lname l = n) then [x] else []).
Proof.
  unfold samples_of. rewrite filter_app, fmap_app. f_equal. case_bool_decide; [by rewrite filter_cons_True|by rewrite filter_cons_False].
Qed.

Lemma observe_sampled ops r op : sampled ops r → sampled (ops ++ [op]) (observe names r op).
Proof.
  intros [Hs Hn]. destruct op as [l x]. unfold observe. cbn [fst snd].
  assert (∃ r1, statFor l (names l) r = (lname l, r1) ∧ (∀ l' n, slots r1 !! l' = Some n → n = lname l' ∧ is_Some (byName r1 !! n)) ∧
    byName r1 !! lname l = Some (default (fresh (lname l)) (byName r !! lname l)) ∧
    (∀ n, n ≠ lname l → byName r1 !! n = byName r !! n)) as (r1 & -> & Hs1 & Hl1 & Hn1).
  { unfold statFor. destruct (slots r !! l) as [n|] eqn:El.
    - destruct (Hs l n El) as [-> [s Hsome]]. exists r. split_and!; try done. by rewrite Hsome.
    - change (stat_name (names l)) with (lname l). eexists. split; [done|]. cbn.
      destruct (byName r !! lname l) as [s|] eqn:Eb; cbn; split_and!; try done.
      + intros l' n [[<- <-]|[_ H]]%lookup_insert_Some; [by split|by apply Hs].
      + intros l' n [[<- <-]|[_ H]]%lookup_insert_Some; [split; [done|]; rewrite lookup_insert_eq; by eexists|].
        destruct (Hs l' n H) as [-> ?]. split; [done|]. by apply lookup_insert_is_Some; destruct (decide (lname l = lname l')); auto.
      + apply lookup_insert_eq.
      + intros n Hne. by rewrite lookup_insert_ne. }
  split; cbn.
  - intros l' n H. destruct (Hs1 l' n H) as [-> Hsome]. split; [done|].
    destruct (decide (lname l' = lname l)) as [->|Hne]; [rewrite lookup_alter_eq; by apply fmap_is_Some|by rewrite lookup_alter_ne].
  - intros n. rewrite samples_of_snoc. destruct (decide (lname l = n)) as [<-|Hne].
    + rewrite lookup_alter_eq, Hl1, (bool_decide_eq_true_2 (lname l = lname l)) by done. cbn.
      rewrite bool_decide_eq_false_2 by (intros E; by apply app_eq_nil in E as [_ ?]). rewrite foldl_app. cbn. unfold flip at 1.
      do 2 f_equal. rewrite Hn. case_bool_decide as E; [by rewrite E|done].
    + rewrite lookup_alter_ne, Hn1, Hn by done. rewrite (bool_decide_eq_false_2 (lname l = n)) by done. by rewrite app_nil_r.
Qed.

Lemma observe_all ops : sampled ops (foldl (observe names) (MkRegistry ∅ ∅) ops).
Proof.
  induction ops as [|op ops IH] using rev_ind.
  - split; cbn; [intros l n; by rewrite lookup_empty|]. intros n. by rewrite lookup_empty.
  - rewrite foldl_app. by apply observe_sampled.
Qed.
End sampled.

(** *** Counts, sums and maxima *)

Definition waits (xs : list sample) : list Z := omap (λ x, match x with Wait d => Some d | Hold _ => None end) xs.
Definition hold_times (xs : list sample) : list Z := omap (λ x, match x with Hold d => Some (Z.max 0 d) | Wait _ => None end) xs.
Definition sum (ds : list Z) : Z := foldr Z.add 0 ds.

(** Durations are not negative and their total fits 64 bits. *)
Definition measurable (ds : list Z) : Prop := Forall (λ d, 0 ≤ d) ds ∧ sum ds ≤ max_int64 ∧ Z.of_nat (length ds) ≤ max_int64.

Record totals (xs : list sample) (s : lockStat) : Prop := {
  tt_count : acquisitions s = wrap64 (Z.of_nat (length (waits xs)));
  tt_wait : waitTotal s = wrap64 (sum (waits xs));
  tt_hold : holdTotal s = wrap64 (sum (hold_times xs));
  tt_max_wait : maxWait s = StoreMax.max_of 0 (waits xs);
  tt_max_hold : maxHold s = StoreMax.max_of 0 (hold_times xs);
  tt_contended : contended s = wrap64 (Z.of_nat (length (filter (λ d, WaitWarn ≤ d) (waits xs))));
  tt_long : longHolds s = wrap64 (Z.of_nat (length (filter (λ d, HoldWarn ≤ d) (hold_times xs)))) }.

Lemma sum_app a b : sum (a ++ b) = sum a + sum b.
Proof. unfold sum. induction a as [|x a IH]; cbn; lia. Qed.

Lemma max_of_snoc v0 ds d : StoreMax.max_of v0 (ds ++ [d]) = store_max (StoreMax.max_of v0 ds) d.
Proof.
  unfold store_max, StoreMax.max_of. induction ds as [|x ds IH]; cbn; [destruct (Z.leb_spec d v0); lia|].
  rewrite IH. destruct (Z.leb_spec d (foldr Z.max v0 ds)), (Z.leb_spec d (Z.max x (foldr Z.max v0 ds))); lia.
Qed.

Lemma count_snoc k (ds : list Z) d c : c = wrap64 (Z.of_nat (length (filter (λ x, k ≤ x) ds))) →
  (if d >=? k then wrap64 (c + 1) else c) = wrap64 (Z.of_nat (length (filter (λ x, k ≤ x) (ds ++ [d])))).
Proof.
  intros ->. rewrite filter_app, length_app, Z.geb_leb. destruct (Z.leb_spec k d).
  - rewrite filter_cons_True by done. cbn. rewrite wrap64_add. f_equal. lia.
  - rewrite filter_cons_False by lia. cbn. f_equal. lia.
Qed.

Lemma recordWait_eq d s : recordWait d s = MkStat (lsName s) (wrap64 (acquisitions s + 1)) (wrap64 (waitTotal s + d)) (holdTotal s)
  (store_max (maxWait s) d) (maxHold s) (if d >=? WaitWarn then wrap64 (contended s + 1) else contended s) (longHolds s).
Proof. unfold recordWait. by destruct (d >=? WaitWarn). Qed.

Lemma recordHold_eq d s : recordHold d s = MkStat (lsName s) (acquisitions s) (waitTotal s) (wrap64 (holdTotal s + Z.max 0 d))
  (maxWait s) (store_max (maxHold s) (Z.max 0 d)) (contended s) (if Z.max 0 d >=? HoldWarn then wrap64 (longHolds s + 1) else longHolds s).
Proof.
  unfold recordHold. replace (if d <? 0 then 0 else d) with (Z.max 0 d) by (destruct (Z.ltb_spec d 0); lia).
  by destruct (Z.max 0 d >=? HoldWarn).
Qed.

Lemma take_totals xs x s : totals xs s → totals (xs ++ [x]) (take_sample x s).
Proof.
  intros [H1 H2 H3 H4 H5 H6 H7]. destruct x as [d|d]; cbn [take_sample].
  - assert (Hw : waits (xs ++ [Wait d]) = waits xs ++ [d]) by (unfold waits; by rewrite omap_app).
    assert (Hh : hold_times (xs ++ [Wait d]) = hold_times xs) by (unfold hold_times; rewrite omap_app; cbn; by rewrite app_nil_r).
    rewrite recordWait_eq. split; rewrite ?Hw, ?Hh; cbn; [| |done| |done| |done].
    + rewrite H1, length_app, wrap64_add. f_equal. cbn. lia.
    + rewrite H2, sum_app, wrap64_add. f_equal. cbn. lia.
    + by rewrite max_of_snoc, H4.
    + by apply count_snoc.
  - assert (Hw : waits (xs ++ [Hold d]) = waits xs) by (unfold waits; rewrite omap_app; cbn; by rewrite app_nil_r).
    assert (Hh : hold_times (xs ++ [Hold d]) = hold_times xs ++ [Z.max 0 d]) by (unfold hold_times; by rewrite omap_app).
    rewrite recordHold_eq. split; rewrite ?Hw, ?Hh; cbn; [done|done| |done| |done|].
    + rewrite H3, sum_app, wrap64_add. f_equal. cbn. lia.
    + by rewrite max_of_snoc, H5.
    + by apply count_snoc.
Qed.

Lemma fold_totals n xs : totals xs (foldl (flip take_sample) (fresh n) xs).
Proof.
  induction xs as [|x xs IH] using rev_ind; [by split|]. rewrite foldl_app. cbn. unfold flip at 1. by apply take_totals.
Qed.

Lemma sum_bounds ds : Forall (λ d, 0 ≤ d) ds → 0 ≤ sum ds ≤ Z.of_nat (length ds) * StoreMax.max_of 0 ds.
Proof.
  unfold sum, StoreMax.max_of. induction 1 as [|d ds Hd _ IH]; cbn [foldr length]; [lia|]. nia.
Qed.

Lemma quot_le a n m : 0 ≤ a → 0 < n → a ≤ n * m → 0 ≤ a ÷ n ≤ m.
Proof.
  intros Ha Hn Hm. rewrite Z.quot_div_nonneg by done. split; [by apply Z.div_pos|].
  apply Z.div_le_upper_bound; lia.
Qed.

Lemma report_ok n xs s : totals xs s → measurable (waits xs) → measurable (hold_times xs) →
  (length (hold_times xs) ≤ length (waits xs))%nat →
  let e := report n s in
  Acquisitions e = Z.of_nat (length (waits xs)) ∧ 0 ≤ WaitAvgNanos e ≤ WaitMaxNanos e ∧
  0 ≤ HoldAvgNanos e ≤ HoldMaxNanos e ∧ 0 ≤ Contended e ≤ Acquisitions e.
Proof.
  intros [H1 H2 H3 H4 H5 H6 H7] (Hw1 & Hw2 & Hw3) (Hh1 & Hh2 & Hh3) Hle.
  pose proof (sum_bounds _ Hw1) as Bw. pose proof (sum_bounds _ Hh1) as Bh. pose proof (StoreMax.max_of_ge 0 (hold_times xs)) as [Mh _].
  pose proof (StoreMax.max_of_ge 0 (waits xs)) as [Mw _]. pose proof (length_filter (λ d, WaitWarn ≤ d) (waits xs)) as Hf.
  assert (Ec : contended s = Z.of_nat (length (filter (λ d, WaitWarn ≤ d) (waits xs)))) by (rewrite H6; apply wrap64_id; unfold max_int64 in *; lia).
  rewrite wrap64_id in H1, H2, H3 by (unfold max_int64 in *; lia).
  unfold report. cbn. rewrite H1, H2, H3, H4, H5, Ec, Z.gtb_ltb. split; [done|].
  destruct (Z.ltb_spec 0 (Z.of_nat (length (waits xs)))); [|split_and!; lia].
  split; [apply quot_le; lia|]. split; [apply quot_le; nia|lia].
Qed.

Lemma listed_names order r : (∀ n, n ∈ order → is_Some (byName r !! n)) → Name <$> LockStats order r = merge_sort str_le order.
Proof.
  intros H. unfold LockStats. assert (Hs : ∀ n, n ∈ merge_sort str_le order → is_Some (byName r !! n)).
  { intros n. rewrite merge_sort_Permutation. apply H. }
  revert Hs. generalize (merge_sort str_le order). clear. induction l as [|n l IH]; intros Hs; [done|].
  destruct (Hs n) as [s E]; [left|]. cbn. rewrite E. cbn. f_equal. apply IH. intros m Hm. apply Hs. by right.
Qed.

(** Whatever is locked and unlocked and under whatever names: the snapshot
    lists each name in use once, in byte order, with the number of waits, the
    longest wait and hold of all locks of that name, and averages that do not
    exceed them (holds never outnumber acquisitions). *)
Theorem stats_summarise names ops order : let r := foldl (observe names) (MkRegistry ∅ ∅) ops in
  order ≡ₚ (map_to_list (byName r)).*1 →
  StronglySorted str_le (Name <$> LockStats order r) ∧ NoDup (Name <$> LockStats order r) ∧
  (∀ op, op ∈ ops → lname names op.1 ∈ Name <$> LockStats order r) ∧
  ∀ e, e ∈ LockStats order r →
    let xs := samples_of names (Name e) ops in
    WaitMaxNanos e = StoreMax.max_of 0 (waits xs) ∧ HoldMaxNanos e = StoreMax.max_of 0 (hold_times xs) ∧
    (measurable (waits xs) → measurable (hold_times xs) → (length (hold_times xs) ≤ length (waits xs))%nat →
     Acquisitions e = Z.of_nat (length (waits xs)) ∧
     0 ≤ WaitAvgNanos e ≤ WaitMaxNanos e ∧ 0 ≤ HoldAvgNanos e ≤ HoldMaxNanos e ∧
     0 ≤ Contended e ≤ Acquisitions e).
Proof.
  intros r Horder. destruct (observe_all names ops) as [_ Hst]. fold r in Hst.
  assert (Hin : ∀ n, n ∈ order ↔ is_Some (byName r !! n)).
  { intros n. rewrite Horder, list_elem_of_fmap. split; [intros ([k s] & -> & Hk%elem_of_map_to_list); by eexists|].
    intros [s Hk]. exists (n, s). split; [done|]. by apply elem_of_map_to_list. }
  rewrite listed_names by (intros n; apply Hin). split_and!.
  - apply StronglySorted_merge_sort; [apply str_le_trans|apply str_le_total].
  - rewrite merge_sort_Permutation, Horder. apply NoDup_fst_map_to_list.
  - intros op Hop. rewrite merge_sort_Permutation. apply Hin. rewrite Hst, bool_decide_eq_false_2; [by eexists|].
    unfold samples_of. intros E%fmap_nil_inv. assert (op ∈ filter (λ op0, lname names op0.1 = lname names op.1) ops) as Hf.
    { by apply list_elem_of_filter. }
    rewrite E in Hf. by apply elem_of_nil in Hf.
  - intros e He. unfold LockStats in He. apply list_elem_of_omap in He as (n & _ & He). rewrite Hst in He.
    case_bool_decide; [done|]. cbn in He. injection He as <-. cbn [Name report].
    pose proof (fold_totals n (samples_of names n ops)) as Ht. split_and!; [apply Ht|apply Ht|]. by apply report_ok.
Qed.
End stats.

(** Two locks, the second without a name; the order of the registry's names is
    the one the map happens to have. *)
Definition some_samples : list (nat * sample) := [(2%nat, Wait 300); (0%nat, Wait 100); (0%nat, Hold 500); (0%nat, Wait 301)].
Definition some_registry : Registry := foldl (observe 250 250 ab_names) (MkRegistry ∅ ∅) some_samples.

Lemma stats_summarise_witness : LockStats ["a"; "?"] some_registry =
    [MkLockStat "?" 1 300 300 0 0 1 0; MkLockStat "a" 2 200 301 250 500 1 1] ∧
  NoDup (Name <$> LockStats ["a"; "?"] some_registry).
Proof.
  split; [vm_compute; reflexivity|].
  apply (stats_summarise 250 250 ab_names some_samples ["a"; "?"]).
  apply (bool_decide_unpack _). vm_compute. exact I.
Defined.
