(* ===== verification/Prefetch.v ===== *)
(** * Look-ahead prefetching (pipeline/prefetcher.go)

    [Stream] runs a producer that starts at most [depth] fetches, each with a
    one-slot future, and an emitter that drains the futures in order into an
    unbuffered channel.  The model is the two channels, the semaphore, the
    slots and every goroutine; a future is named by the index of its key. *)
From S2P Require Import Prelude GoLib.
Open Scope nat_scope.

Inductive answer := Data (d : list byte) | Failure (e : string).
Record Item := MkItem { itKey : string; itAnswer : answer }.

(** What [get] and [io.ReadAll] say about an object. *)
Inductive fetch_outcome := GetFails (e : string) | ReadFails (e : string) | Reads (d : list byte).

(** [fetch]. *)
Definition fetch (key : string) (o : fetch_outcome) : Item :=
  match o with
  | GetFails e => MkItem key (Failure ("prefetch " +:+ key +:+ ": " +:+ e))
  | ReadFails e => MkItem key (Failure ("prefetch read " +:+ key +:+ ": " +:+ e))
  | Reads d => MkItem key (Data d)
  end.

(** [NewPrefetcher]'s clamp. *)
Definition clamp_depth (depth : Z) : nat := if (depth <? 1)%Z then 1 else Z.to_nat depth.

Inductive producer := Acquiring | Pushing | Closed.
Inductive emitter := Receiving | Awaiting (f : nat) | Emitting (it : Item) | Finished.
Inductive fetcher := Fetching | Releasing.

#[export] Instance fetcher_eq : EqDecision fetcher.
Proof. solve_decision. Defined.

Record Stream := MkStream {
  prod : producer; next : nat;          (* the key the producer is at *)
  sem : nat; futures : list nat;
  slots : gmap nat Item;                (* futures that hold an item *)
  fetchers : gmap nat fetcher;          (* goroutines started and not returned *)
  emit : emitter; out : list Item;      (* items the consumer has received *)
  cancelled : bool }.
#[export] Instance eta_Stream : Eta Stream := λ s,
  MkStream (prod s) (next s) (sem s) (futures s) (slots s) (fetchers s) (emit s) (out s) (cancelled s).

(** Who moves; [Produce true] and [Emit true] take the branch of the cancelled
    context. *)
Inductive event := Produce (stop : bool) | Fetch (f : nat) (o : fetch_outcome) | Release (f : nat) | Emit (stop : bool) | Cancel.

Section stream.
Context (depth : nat) (keys : list string).

Definition produce (stop : bool) (s : Stream) : option Stream :=
  match prod s with
  | Acquiring =>
      if (next s =? length keys)%nat then Some (s <| prod := Closed |>)
      else if stop then (if cancelled s then Some (s <| prod := Closed |>) else None)
      else if (sem s <? depth)%nat then Some (s <| sem := S (sem s) |> <| prod := Pushing |>) else None
  | Pushing =>
      if stop then (if cancelled s then Some (s <| sem := pred (sem s) |> <| prod := Closed |>) else None)
      else if (length (futures s) <? depth)%nat
      then Some (s <| futures := futures s ++ [next s] |> <| fetchers := <[next s := Fetching]> (fetchers s) |>
                   <| next := S (next s) |> <| prod := Acquiring |>)
      else None
  | Closed => None
  end.

(** A fetcher fills its slot, then gives its token back. *)
Definition run_fetch (f : nat) (o : fetch_outcome) (s : Stream) : option Stream :=
  match fetchers s !! f, keys !! f with
  | Some Fetching, Some key =>
      Some (s <| slots := <[f := fetch key o]> (slots s) |> <| fetchers := <[f := Releasing]> (fetchers s) |>)
  | _, _ => None
  end.
Definition release (f : nat) (s : Stream) : option Stream :=
  match fetchers s !! f with
  | Some Releasing => Some (s <| sem := pred (sem s) |> <| fetchers := delete f (fetchers s) |>)
  | _ => None
  end.

(** The emitter; the consumer takes an item as soon as it is offered. *)
Definition emit_step (stop : bool) (s : Stream) : option Stream :=
  match emit s with
  | Receiving =>
      match futures s with
      | f :: r => Some (s <| futures := r |> <| emit := Awaiting f |>)
      | [] => match prod s with Closed => Some (s <| emit := Finished |>) | _ => None end
      end
  | Awaiting f =>
      if stop then (if cancelled s then Some (s <| emit := Finished |>) else None)
      else match slots s !! f with
           | Some it => Some (s <| slots := delete f (slots s) |> <| emit := Emitting it |>)
           | None => None
           end
  | Emitting it =>
      if stop then (if cancelled s then Some (s <| emit := Finished |>) else None)
      else Some (s <| out := out s ++ [it] |> <| emit := Receiving |>)
  | Finished => None
  end.

Definition step (e : event) (s : Stream) : option Stream :=
  match e with
  | Produce stop => produce stop s
  | Fetch f o => run_fetch f o s
  | Release f => release f s
  | Emit stop => emit_step stop s
  | Cancel => if cancelled s then None else Some (s <| cancelled := true |>)
  end.

Definition start : Stream := MkStream Acquiring 0 0 [] ∅ ∅ Receiving [] false.

Fixpoint run (evs : list event) (s : Stream) : option Stream :=
  match evs with [] => Some s | e :: evs => s' ← step e s; run evs s' end.
End stream.

(** ** The invariant *)

Section invariant.
Context (depth : nat) (keys : list string).

(** What a history of events leads to. *)
Inductive reached : list event → Stream → Prop :=
| reached_start : reached [] start
| reached_step evs e s s' : reached evs s → step depth keys e s = Some s' → reached (evs ++ [e]) s'.

Lemma run_reached evs evs0 s s' : reached evs0 s → run depth keys evs s = Some s' → reached (evs0 ++ evs) s'.
Proof.
  revert evs0 s. induction evs as [|e evs IH]; intros evs0 s Hs Hr; cbn in Hr.
  - simplify_eq. by rewrite app_nil_r.
  - destruct (step depth keys e s) as [s1|] eqn:E; [|done]. cbn in Hr.
    rewrite cons_middle, app_assoc. apply (IH _ s1); [by eapply reached_step|done].
Qed.

(** Futures the emitter has taken, and items it has taken out of a slot. *)
Definition taken (s : Stream) : nat := match emit s with Awaiting _ | Emitting _ => S (length (out s)) | _ => length (out s) end.
Definition drained (s : Stream) : nat := match emit s with Emitting _ => S (length (out s)) | _ => length (out s) end.

(** [it] is what a fetch of key [f] in the history answered. *)
Definition answers (evs : list event) (f : nat) (it : Item) : Prop :=
  ∃ k o, keys !! f = Some k ∧ Fetch f o ∈ evs ∧ it = fetch k o.

Record inv (evs : list event) (s : Stream) : Prop := {
  iv_next : next s ≤ length keys;
  iv_sem : sem s = size (fetchers s) + (match prod s with Pushing => 1 | _ => 0 end);
  iv_cap : sem s ≤ depth ∧ length (futures s) ≤ depth;
  iv_pushing : prod s = Pushing → next s < length keys;
  iv_closed : prod s = Closed → cancelled s = false → next s = length keys;
  iv_fetchers : ∀ f x, fetchers s !! f = Some x → f < next s;
  iv_drained : drained s ≤ next s;
  iv_fetching : ∀ f, fetchers s !! f = Some Fetching → drained s ≤ f;
  iv_slots : ∀ f it, slots s !! f = Some it → f < next s ∧ drained s ≤ f ∧ answers evs f it ∧ fetchers s !! f ≠ Some Fetching;
  iv_out : ∀ i it, out s !! i = Some it → answers evs i it;
  iv_emit : match emit s with
            | Receiving => True
            | Awaiting f => f = length (out s) ∧ f < next s
            | Emitting it => answers evs (length (out s)) it
            | Finished => cancelled s = true ∨ (prod s = Closed ∧ length (out s) = next s)
            end;
  iv_futures : emit s ≠ Finished → futures s = seq (taken s) (next s - taken s) ∧ taken s ≤ next s;
  iv_pending : emit s ≠ Finished → ∀ f, drained s ≤ f < next s → fetchers s !! f = Some Fetching ∨ is_Some (slots s !! f) }.

Lemma answers_more evs e f it : answers evs f it → answers (evs ++ [e]) f it.
Proof. intros (k & o & ? & ? & ?). exists k, o. rewrite elem_of_app. auto. Qed.

Lemma stream_start_inv : inv [] start.
Proof. split; cbn; try done; try lia. Qed.

Lemma inv_history evs e s : inv evs s → inv (evs ++ [e]) s.
Proof.
  intros [I1 I2 I3 I4 I5 I6 ID I7 I8 I9 I10 I11 I12]. split; try done.
  - intros f it Hf. destruct (I8 f it Hf) as (? & ? & ? & ?). split_and!; try done. by apply answers_more.
  - intros i it Hi. by apply answers_more, I9.
  - destruct (emit s); try done. by apply answers_more.
Qed.

Lemma produce_inv evs stop s s' : inv evs s → produce depth keys stop s = Some s' → inv evs s'.
Proof.
  intros [I1 I2 [I3 I3'] I4 I5 I6 ID I7 I8 I9 I10 I11 I12] Hs. unfold produce in Hs.
  destruct (prod s) eqn:Ep; [| |done].
  - assert (Hclose : next s = length keys ∨ cancelled s = true → inv evs (s <| prod := Closed |>)).
    { intros Hend. split; cbn; try done; try lia.
      - intros _ Hc. destruct Hend; congruence.
      - destruct (emit s); try done. destruct I10 as [?|[? _]]; [by left|done]. }
    destruct (Nat.eqb_spec (next s) (length keys)); [simplify_eq; apply Hclose; auto|].
    destruct stop; [destruct (cancelled s); simplify_eq; apply Hclose; auto|].
    destruct (Nat.ltb_spec (sem s) depth); simplify_eq. split; cbn; try done; try lia.
    destruct (emit s); try done. destruct I10 as [?|[? _]]; [by left|done].
  - specialize (I4 eq_refl). destruct stop.
    + destruct (cancelled s) eqn:Ec; simplify_eq. split; cbn; try done; try lia.
      * intros _ Hc. congruence.
      * destruct (emit s); auto.
    + destruct (Nat.ltb_spec (length (futures s)) depth); simplify_eq.
      assert (Hfresh : fetchers s !! next s = None).
      { destruct (fetchers s !! next s) as [x|] eqn:E; [apply I6 in E; lia|done]. }
      change (drained s ≤ next s) in ID. split; cbn; try done; try lia.
      * rewrite map_size_insert_None by done. lia.
      * rewrite length_app. cbn. lia.
      * intros f x Hf. apply lookup_insert_Some in Hf as [[<- _]|[_ Hf]]; [lia|]. apply I6 in Hf. lia.
      * change (drained s ≤ S (next s)). lia.
      * intros f Hf. change (drained s ≤ f). apply lookup_insert_Some in Hf as [[<- _]|[_ Hf]]; [done|by apply I7].
      * intros f it Hf. destruct (I8 f it Hf) as (? & ? & ? & ?). split_and!; try done; [lia|].
        rewrite lookup_insert_ne by lia. done.
      * destruct (emit s); try done; [lia|]. destruct I10 as [?|[? _]]; [by left|done].
      * intros Hf. destruct (I11 Hf) as [E1 E2]. change (taken _) with (taken s). rewrite E1.
        replace (S (next s) - taken s) with (S (next s - taken s)) by lia. rewrite seq_S. split; [|lia].
        do 2 f_equal. lia.
      * intros Hf f Hd. change (drained s ≤ f < S (next s)) in Hd. destruct (decide (f = next s)) as [->|Hne].
        -- left. apply lookup_insert_eq.
        -- rewrite lookup_insert_ne by lia. apply I12; [done|lia].
Qed.

Lemma fetch_inv evs f o s s' : inv evs s → run_fetch keys f o s = Some s' → inv (evs ++ [Fetch f o]) s'.
Proof.
  intros Hi Hs. pose proof (inv_history evs (Fetch f o) s Hi) as [I1 I2 [I3 I3'] I4 I5 I6 ID I7 I8 I9 I10 I11 I12].
  unfold run_fetch in Hs. destruct (fetchers s !! f) as [[]|] eqn:Ef; [|done..].
  destruct (keys !! f) as [k|] eqn:Ek; simplify_eq.
  split; cbn; try done.
  - rewrite map_size_insert_Some by (by eexists). done.
  - intros g x Hg. apply lookup_insert_Some in Hg as [[<- _]|[_ Hg]]; [by apply I6 in Ef|by apply I6 in Hg].
  - intros g Hg. apply lookup_insert_Some in Hg as [[_ ?]|[_ Hg]]; [done|by apply I7].
  - intros g it Hg. apply lookup_insert_Some in Hg as [[<- <-]|[Hne Hg]].
    + split_and!; [by apply I6 in Ef|by apply I7| |by rewrite lookup_insert_eq].
      exists k, o. split_and!; try done. set_solver.
    + rewrite lookup_insert_ne by done. by apply I8.
  - intros Hf g Hg. destruct (decide (g = f)) as [->|Hne].
    + right. rewrite lookup_insert_eq. by eexists.
    + rewrite !lookup_insert_ne by done. by apply I12.
Qed.

Lemma size_delete_present {A} (m : gmap nat A) f x : m !! f = Some x → size m = S (size (delete f m)).
Proof.
  intros E. rewrite map_size_delete_Some by (by eexists). assert (size m ≠ 0); [|lia].
  intros Hz. apply map_size_empty_inv in Hz. by rewrite Hz, lookup_empty in E.
Qed.

Lemma release_inv evs f s s' : inv evs s → release f s = Some s' → inv evs s'.
Proof.
  intros [I1 I2 [I3 I3'] I4 I5 I6 ID I7 I8 I9 I10 I11 I12] Hs. unfold release in Hs.
  destruct (fetchers s !! f) as [[]|] eqn:Ef; simplify_eq.
  pose proof (size_delete_present _ _ _ Ef) as Hsz.
  split; cbn; try done; try lia.
  - intros g x Hg. apply lookup_delete_Some in Hg as [_ Hg]. by apply I6 in Hg.
  - intros g Hg. apply lookup_delete_Some in Hg as [_ Hg]. by apply I7.
  - intros g it Hg. destruct (I8 g it Hg) as (? & ? & ? & ?). split_and!; try done.
    intros Hd. by apply lookup_delete_Some in Hd as [_ ?].
  - intros Hf g Hg. destruct (I12 Hf g Hg) as [?|?]; [left|by right]. rewrite lookup_delete_ne; congruence.
Qed.

Lemma emit_inv evs stop s s' : inv evs s → emit_step stop s = Some s' → inv evs s'.
Proof.
  intros [I1 I2 [I3 I3'] I4 I5 I6 ID I7 I8 I9 I10 I11 I12] Hs. unfold emit_step in Hs.
  unfold drained, taken in *.
  destruct (emit s) as [|f|it|] eqn:Ee; [| | |done]; destruct (I11 ltac:(done)) as [Ef Et]; clear I11.
  - destruct (futures s) as [|f r] eqn:Er.
    + destruct (prod s) eqn:Ep; simplify_eq. symmetry in Ef. apply (f_equal length) in Ef. rewrite length_seq in Ef.
      split; unfold drained, taken; cbn in *; rewrite ?Er, ?Ep; try done; try lia.
      right. split; [done|lia].
    + simplify_eq. destruct (next s - length (out s)) as [|m] eqn:Em; [done|]. cbn in Ef. injection Ef as -> ->.
      split; unfold drained, taken; cbn in *; try done; try lia.
      * intros _. split; [f_equal; lia|lia].
      * intros _. by apply I12.
  - destruct I10 as [-> Hn]. destruct stop; [destruct (cancelled s) eqn:Ec; simplify_eq|].
    + split; unfold drained, taken; cbn in *; try done; try lia; [congruence|by left].
    + destruct (slots s !! length (out s)) as [it|] eqn:Esl; simplify_eq.
      destruct (I8 _ _ Esl) as (_ & _ & Hans & Hnf).
      split; unfold drained, taken; cbn in *; try done; try lia.
      * intros g Hg. specialize (I7 g Hg). destruct (decide (g = length (out s))) as [->|]; [done|lia].
      * intros g it' Hg. apply lookup_delete_Some in Hg as [Hne Hg]. destruct (I8 g it' Hg) as (? & ? & ? & ?).
        split_and!; try done. lia.
      * intros _ g Hg. destruct (I12 ltac:(done) g ltac:(lia)) as [?|?]; [by left|right].
        rewrite lookup_delete_ne by lia. done.
  - destruct stop; [destruct (cancelled s) eqn:Ec; simplify_eq|].
    + split; unfold drained, taken; cbn in *; try done; try lia; [congruence| | |by left].
      * intros g Hg. specialize (I7 g Hg). lia.
      * intros g it' Hg. destruct (I8 g it' Hg) as (? & ? & ? & ?). split_and!; try done; lia.
    + simplify_eq. split; unfold drained, taken; cbn in *; rewrite ?length_app; cbn;
        rewrite ?Nat.add_1_r; try done; try lia.
      * intros i it' Hi. apply lookup_app_Some in Hi as [Hi|[Hle Hi]]; [by apply I9|].
        apply list_lookup_singleton_Some in Hi as [Hz <-]. by replace i with (length (out s)) by lia.
      * intros _. by apply I12.
Qed.

Lemma reached_inv evs s : reached evs s → inv evs s.
Proof.
  induction 1 as [|evs e s s' _ IH Hs]; [apply stream_start_inv|]. destruct e as [stop|f o|f|stop|]; cbn in Hs.
  - apply inv_history. by eapply produce_inv.
  - by eapply fetch_inv.
  - apply inv_history. by eapply release_inv.
  - apply inv_history. by eapply emit_inv.
  - destruct (cancelled s) eqn:Ec; simplify_eq. apply (inv_history _ Cancel) in IH as [].
    split; cbn; try done. destruct (emit s); auto.
Qed.

Lemma stream_run_inv evs s : run depth keys evs start = Some s → inv evs s.
Proof. intros Hr. apply reached_inv. apply (run_reached evs [] start); [constructor|done]. Qed.

Lemma out_keys evs s : inv evs s → itKey <$> out s = take (length (out s)) keys.
Proof.
  intros Hi. assert (Hout : ∀ i it, out s !! i = Some it → keys !! i = Some (itKey it)).
  { intros i it Hit. destruct (iv_out _ _ Hi i it Hit) as (k & [e|e|d] & Hk & _ & ->); exact Hk. }
  apply list_eq. intros i. rewrite list_lookup_fmap. destruct (out s !! i) as [it|] eqn:E; cbn.
  - rewrite lookup_take_lt by by apply lookup_lt_Some in E. symmetry. by apply Hout.
  - rewrite lookup_take_ge; [done|]. by apply lookup_ge_None.
Qed.
End invariant.

(** ** Termination: every step of a goroutine uses up some of the work left *)

Section termination.
Context (depth : nat) (keys : list string).

Definition at_work (m : gmap nat fetcher) : gmap nat fetcher := filter (λ p, p.2 = Fetching) m.

Definition work_left (s : Stream) : nat :=
  match prod s with Acquiring => 1 + 10 * (length keys - next s) | Pushing => 10 * (length keys - next s) | Closed => 0 end
  + size (fetchers s) + size (at_work (fetchers s)) + 3 * length (futures s)
  + match emit s with Receiving => 1 | Awaiting _ => 3 | Emitting _ => 2 | Finished => 0 end
  + (if cancelled s then 0 else 1).

Lemma at_work_lookup m f : m !! f = Some Fetching → at_work m !! f = Some Fetching.
Proof. intros E. by apply map_lookup_filter_Some. Qed.

Lemma at_work_done m f : m !! f = Some Fetching → at_work (<[f := Releasing]> m) = delete f (at_work m).
Proof. intros E. unfold at_work. rewrite map_filter_insert_False by done. by rewrite map_filter_delete. Qed.

Lemma at_work_new m f : at_work (<[f := Fetching]> m) = <[f := Fetching]> (at_work m).
Proof. unfold at_work. by rewrite map_filter_insert_True. Qed.

Lemma at_work_gone m f : size (at_work (delete f m)) ≤ size (at_work m).
Proof. unfold at_work. rewrite map_filter_delete, map_size_delete. destruct (_ !! f); cbn; lia. Qed.

Lemma step_uses_work evs e s s' : inv depth keys evs s → step depth keys e s = Some s' → work_left s' < work_left s.
Proof.
  intros [_ _ _ I4 _ I6 _ _ _ _ _ _ _] Hs. unfold work_left. destruct e as [stop|f o|f|stop|]; cbn in Hs.
  - unfold produce in Hs. destruct (prod s) eqn:Ep; [| |done].
    + destruct (next s =? length keys); [simplify_eq; cbn; lia|].
      destruct stop; [destruct (cancelled s) eqn:Ec; simplify_eq; cbn; rewrite ?Ec; lia|].
      destruct (Nat.ltb_spec (sem s) depth); simplify_eq; cbn. lia.
    + specialize (I4 eq_refl). destruct stop; [destruct (cancelled s) eqn:Ec; simplify_eq; cbn; rewrite ?Ec; lia|].
      destruct (length (futures s) <? depth); simplify_eq. cbn.
      assert (Hfresh : fetchers s !! next s = None).
      { destruct (fetchers s !! next s) as [x|] eqn:E; [apply I6 in E; lia|done]. }
      rewrite at_work_new, !map_size_insert_None, length_app; cbn; [lia| |done].
      apply map_lookup_filter_None. by left.
  - unfold run_fetch in Hs. destruct (fetchers s !! f) as [[]|] eqn:Ef; [|done..].
    destruct (keys !! f); simplify_eq. cbn. rewrite (at_work_done _ _ Ef), map_size_insert_Some by (by eexists).
    pose proof (size_delete_present _ _ _ (at_work_lookup _ _ Ef)). lia.
  - unfold release in Hs. destruct (fetchers s !! f) as [[]|] eqn:Ef; simplify_eq. cbn.
    pose proof (size_delete_present _ _ _ Ef). pose proof (at_work_gone (fetchers s) f). lia.
  - unfold emit_step in Hs. destruct (emit s) as [|f|it|] eqn:Ee; [| | |done].
    + destruct (futures s) eqn:Ef; [destruct (prod s) eqn:Ep|]; simplify_eq; cbn; rewrite ?Ep, ?Ef; cbn; lia.
    + destruct stop; [destruct (cancelled s) eqn:Ec|destruct (slots s !! f)]; simplify_eq; cbn; rewrite ?Ec; lia.
    + destruct stop; [destruct (cancelled s) eqn:Ec|]; simplify_eq; cbn; rewrite ?Ec; lia.
  - destruct (cancelled s) eqn:Ec; simplify_eq. cbn. lia.
Qed.

Lemma run_work evs s : reached depth keys evs s → length evs + work_left s ≤ 10 * length keys + 3.
Proof.
  induction 1 as [|evs e s s' Hr IH Hs].
  { unfold work_left, at_work, start. cbn [prod next fetchers futures emit cancelled length].
    rewrite map_filter_empty, !map_size_empty. lia. }
  apply reached_inv in Hr. pose proof (step_uses_work evs e s s' Hr Hs). rewrite length_app. change (length [e]) with 1. lia.
Qed.
End termination.

(** ** What the consumer sees *)

Section correctness.
Context (d : Z) (keys : list string).
Notation depth := (clamp_depth d).

Lemma clamp_positive : 1 ≤ depth.
Proof. unfold clamp_depth. destruct (Z.ltb_spec d 1); lia. Qed.

(** Whatever the goroutines do and whether or not the context is cancelled, the
    [i]-th item the consumer receives is the answer a fetch of the [i]-th key
    gave, a failure included: the items are in the order of the keys, none
    missing, none twice. *)
Theorem streamed_in_order evs s : run depth keys evs start = Some s →
  itKey <$> out s = take (length (out s)) keys ∧
  ∀ i it, out s !! i = Some it → ∃ key o, keys !! i = Some key ∧ Fetch i o ∈ evs ∧ it = fetch key o.
Proof.
  intros Hi%stream_run_inv. split; [by eapply out_keys|]. intros i it Hit. apply (iv_out _ _ _ _ Hi i it Hit).
Qed.

(** The objects held between the store and the consumer: being read, buffered
    in a future, or offered on the channel. *)
Definition objects_held (s : Stream) : nat :=
  size (at_work (fetchers s)) + size (slots s) + match emit s with Emitting _ => 1 | _ => 0 end.

Lemma held_in_window evs s : inv depth keys evs s →
  size (at_work (fetchers s)) + size (slots s) ≤ next s - drained s.
Proof.
  intros Hi. rewrite <- !size_dom, <- size_union; [rewrite <- (size_set_seq (C:=gset nat) (drained s)); apply subseteq_size|].
  - intros f [[x Hf]%elem_of_dom|[it Hf]%elem_of_dom]%elem_of_union; apply elem_of_set_seq.
    + apply map_lookup_filter_Some in Hf as [Hf Hx]. cbn in Hx. subst.
      pose proof (iv_fetchers _ _ _ _ Hi _ _ Hf). pose proof (iv_fetching _ _ _ _ Hi _ Hf). lia.
    + destruct (iv_slots _ _ _ _ Hi _ _ Hf) as (? & ? & _). lia.
  - intros f [x Hf]%elem_of_dom [it Ht]%elem_of_dom. apply map_lookup_filter_Some in Hf as [Hf Hx]. cbn in Hx. subst.
    by destruct (iv_slots _ _ _ _ Hi _ _ Ht) as (_ & _ & _ & []).
Qed.

(** At most [depth] goroutines fetch at a time, and while the output channel is
    open at most [depth + 1] objects are held in all, however many keys there
    are and however slow the consumer is. *)
Theorem look_ahead_bounded evs s : run depth keys evs start = Some s →
  size (fetchers s) ≤ depth ∧ (emit s ≠ Finished → objects_held s ≤ depth + 1).
Proof.
  intros Hi%stream_run_inv. destruct (iv_cap _ _ _ _ Hi) as [Hsem Hfut]. split; [pose proof (iv_sem _ _ _ _ Hi); lia|].
  intros Hf. destruct (iv_futures _ _ _ _ Hi Hf) as [E Hle]. rewrite E, length_seq in Hfut.
  pose proof (held_in_window evs s Hi) as Hw. unfold objects_held, drained, taken in *. destruct (emit s); lia.
Qed.

Lemma stuck_fetchers evs s : inv depth keys evs s → (∀ e, e ≠ Cancel → step depth keys e s = None) → fetchers s = ∅.
Proof.
  intros Hi Hstuck. apply map_empty. intros f. destruct (fetchers s !! f) as [[]|] eqn:Ef; [exfalso..|done].
  - specialize (Hstuck (Fetch f (Reads [])) ltac:(done)). cbn in Hstuck. unfold run_fetch in Hstuck. rewrite Ef in Hstuck.
    apply (iv_fetchers _ _ _ _ Hi) in Ef. pose proof (iv_next _ _ _ _ Hi).
    destruct (lookup_lt_is_Some_2 keys f) as [k Hk]; [lia|]. by rewrite Hk in Hstuck.
  - specialize (Hstuck (Release f) ltac:(done)). cbn in Hstuck. unfold release in Hstuck. by rewrite Ef in Hstuck.
Qed.

Lemma stuck_emitter evs s : inv depth keys evs s → (∀ e, e ≠ Cancel → step depth keys e s = None) → emit s = Finished.
Proof.
  intros Hi Hstuck. pose proof (stuck_fetchers evs s Hi Hstuck) as Hnone. pose proof clamp_positive as Hd.
  pose proof (Hstuck (Emit false) ltac:(done)) as He. cbn in He. unfold emit_step in He.
  pose proof (Hstuck (Produce false) ltac:(done)) as Hp. cbn in Hp. unfold produce in Hp.
  pose proof (iv_sem _ _ _ _ Hi) as Hsem. rewrite Hnone, map_size_empty in Hsem.
  pose proof (iv_pending _ _ _ _ Hi) as Hpend. pose proof (iv_emit _ _ _ _ Hi) as Hem. unfold drained in Hpend.
  destruct (emit s) as [|f|it|] eqn:Ee; [| |done|done].
  - destruct (futures s) as [|f r] eqn:Ef; [|done]. destruct (prod s); [| |done].
    + destruct (_ =? _); [done|]. destruct (Nat.ltb_spec (sem s) depth); [done|lia].
    + destruct (Nat.ltb_spec (length (@nil nat)) depth); [done|cbn in *; lia].
  - destruct Hem as [-> Hlt]. destruct (Hpend ltac:(done) (length (out s)) ltac:(lia)) as [Hf|[it Hit]].
    + by rewrite Hnone, lookup_empty in Hf.
    + by rewrite Hit in He.
Qed.

(** C34: every schedule is finite, at most ten steps a key; and a state in which no
    goroutine can move has closed the output channel, has no goroutine left and
    has every token back.  If the context was never cancelled, the consumer has
    by then received one item per key, in the order of the keys, each with the
    answer its fetch gave. *)
Theorem stream_completes evs s : run depth keys evs start = Some s →
  length evs ≤ 10 * length keys + 3 ∧
  ((∀ e, e ≠ Cancel → step depth keys e s = None) →
   emit s = Finished ∧ prod s = Closed ∧ fetchers s = ∅ ∧ sem s = 0 ∧
   (cancelled s = false → itKey <$> out s = keys ∧ ∀ i it, out s !! i = Some it → answers keys evs i it)).
Proof.
  intros Hr. pose proof (run_reached _ _ evs [] start s (reached_start _ _) Hr) as Hreach. cbn in Hreach.
  split; [pose proof (run_work _ _ _ _ Hreach); lia|]. apply reached_inv in Hreach as Hi. intros Hstuck.
  pose proof (stuck_fetchers _ _ Hi Hstuck) as Hnone. pose proof (stuck_emitter _ _ Hi Hstuck) as Hfin.
  pose proof (iv_sem _ _ _ _ Hi) as Hsem. rewrite Hnone, map_size_empty in Hsem.
  pose proof (iv_emit _ _ _ _ Hi) as Hem. rewrite Hfin in Hem.
  assert (Hp : prod s = Closed).
  { destruct Hem as [Hc|[? _]]; [|done]. specialize (Hstuck (Produce true) ltac:(done)). cbn in Hstuck.
    unfold produce in Hstuck. rewrite Hc in Hstuck. destruct (prod s); [destruct (_ =? _); done|done|done]. }
  rewrite Hp in Hsem. split_and!; try done. intros Hc. destruct Hem as [?|[_ Hlen]]; [congruence|].
  split; [|apply (iv_out _ _ _ _ Hi)].
  rewrite (out_keys _ _ _ _ Hi), Hlen, (iv_closed _ _ _ _ Hi Hp Hc). by apply take_ge.
Qed.
End correctness.

(** ** On concrete runs *)

(** Depth 1 and two keys, the second of which cannot be read. *)
Definition two_keys : list event :=
  [Produce false; Produce false; Fetch 0 (Reads [Byte.x41]); Emit false; Release 0; Produce false; Emit false; Produce false;
   Fetch 1 (GetFails "gone"); Emit false; Release 1; Emit false; Emit false; Produce false; Emit false; Emit false].

Lemma streamed_in_order_witness : ∃ s, run (clamp_depth 1) ["a"; "b"] two_keys start = Some s ∧
  out s = [MkItem "a" (Data [Byte.x41]); MkItem "b" (Failure "prefetch b: gone")] ∧
  itKey <$> out s = take (length (out s)) ["a"; "b"].
Proof.
  eexists. split; [vm_compute; reflexivity|]. split; [reflexivity|].
  refine (proj1 (streamed_in_order 1 ["a"; "b"] two_keys _ _)). vm_compute. reflexivity.
Defined.

(** Depth 1, two objects ready and nothing consumed: one is offered on the
    channel, one waits in its future. *)
Definition stalled : list event :=
  [Produce false; Produce false; Fetch 0 (Reads [Byte.x41]); Emit false; Release 0; Produce false; Emit false; Produce false;
   Fetch 1 (Reads [Byte.x42]); Release 1].

(** The bound of [look_ahead_bounded] is reached: with a depth of 1 two whole
    objects are buffered while the consumer has received nothing. *)
Theorem buffers_beyond_depth : ∃ s, run (clamp_depth 1) ["a"; "b"; "c"] stalled start = Some s ∧
  out s = [] ∧ size (fetchers s) = 0 ∧ objects_held s = 2 ∧ slots s !! 1 = Some (MkItem "b" (Data [Byte.x42])) ∧
  emit s = Emitting (MkItem "a" (Data [Byte.x41])).
Proof. eexists. split; [vm_compute; reflexivity|]. by vm_compute. Qed.

Lemma look_ahead_bounded_witness : ∃ s, run (clamp_depth 1) ["a"; "b"; "c"] stalled start = Some s ∧ objects_held s ≤ 1 + 1.
Proof.
  eexists. split; [vm_compute; reflexivity|].
  refine (proj2 (look_ahead_bounded 1 ["a"; "b"; "c"] stalled _ _) _); [vm_compute; reflexivity|discriminate].
Defined.

Lemma stream_completes_witness : ∃ s, run (clamp_depth 1) ["a"; "b"] two_keys start = Some s ∧ itKey <$> out s = ["a"; "b"] ∧ sem s = 0.
Proof.
  eexists. split; [vm_compute; reflexivity|].
  refine ((λ H, conj (proj1 (proj2 (proj2 (proj2 (proj2 H))) _)) (proj1 (proj2 (proj2 (proj2 H)))))
            (proj2 (stream_completes 1 ["a"; "b"] two_keys _ _) _)); [reflexivity|vm_compute; reflexivity|].
  intros [[]|f o|f|[]|] He; try reflexivity; done.
Defined.
