(* ===== verification/S3fifo.v ===== *)
(** * The S3-FIFO eviction policy (internal/cache/s3fifo.go)

    Three FIFO queues; a node is shared between the queue that holds it and
    the [nodes] map, so its count and side live in the map and the queues hold
    ids. *)
From S2P Require Import Prelude GoLib Policies.
Open Scope nat_scope.

Record s3node := MkS3Node { sFreq : Z; sInMain : bool }.
#[export] Instance eta_s3node : Eta s3node := λ n, MkS3Node (sFreq n) (sInMain n).

Record s3fifo := MkS3 {
  small : list string; main : list string; nodes : gmap string s3node;
  ghost : list string; ghostSet : gset string; ghostCap : nat }.
#[export] Instance eta_s3fifo : Eta s3fifo := λ p,
  MkS3 (small p) (main p) (nodes p) (ghost p) (ghostSet p) (ghostCap p).

Definition NewS3FIFO : s3fifo := MkS3 [] [] ∅ [] ∅ 0.

Definition bump (nd : s3node) : s3node :=
  if (sFreq nd <? 3)%Z then nd <| sFreq := (sFreq nd + 1)%Z |> else nd.

Definition s3_Add (id : string) (p : s3fifo) : s3fifo :=
  match nodes p !! id with
  | Some nd => p <| nodes := <[id := bump nd]> (nodes p) |>
  | None =>
      let p :=
        if bool_decide (id ∈ ghostSet p)
        then p <| ghost := list_del id (ghost p) |> <| ghostSet := ghostSet p ∖ {[id]} |>
               <| main := main p ++ [id] |> <| nodes := <[id := MkS3Node 0 true]> (nodes p) |>
        else p <| small := small p ++ [id] |> <| nodes := <[id := MkS3Node 0 false]> (nodes p) |> in
      let n := size (nodes p) in
      if ghostCap p <? n then p <| ghostCap := n |> else p
  end.

Definition s3_Access (id : string) (p : s3fifo) : s3fifo :=
  match nodes p !! id with
  | Some nd => p <| nodes := <[id := bump nd]> (nodes p) |>
  | None => p
  end.

(** The loop of [pushGhost]. *)
Fixpoint trim_ghost (cap : nat) (l : list string) (s : gset string) : list string * gset string :=
  match l with
  | [] => ([], s)
  | old :: l' => if cap <? length l then trim_ghost cap l' (s ∖ {[old]}) else (l, s)
  end.

Definition pushGhost (id : string) (p : s3fifo) : s3fifo :=
  if bool_decide (id ∈ ghostSet p) then p
  else
    let '(g, s) := trim_ghost (ghostCap p) (ghost p ++ [id]) ({[id]} ∪ ghostSet p) in
    p <| ghost := g |> <| ghostSet := s |>.

(** [evictSmall]: [None] when it only promoted, or found nothing. *)
Definition evictSmall (p : s3fifo) : option string * s3fifo :=
  match small p with
  | [] => (None, p)
  | id :: rest =>
      let p := p <| small := rest |> in
      match nodes p !! id with
      | None => (None, p)
      | Some nd =>
          if (sFreq nd >? 0)%Z
          then (None, p <| nodes := <[id := nd <| sInMain := true |>]> (nodes p) |> <| main := main p ++ [id] |>)
          else (Some id, pushGhost id (p <| nodes := delete id (nodes p) |>))
      end
  end.

Definition evictMain (p : s3fifo) : option string * s3fifo :=
  match main p with
  | [] => (None, p)
  | id :: rest =>
      let p := p <| main := rest |> in
      match nodes p !! id with
      | None => (None, p)
      | Some nd =>
          if (sFreq nd >? 0)%Z
          then (None, p <| nodes := <[id := nd <| sFreq := (sFreq nd - 1)%Z |>]> (nodes p) |> <| main := rest ++ [id] |>)
          else (Some id, p <| nodes := delete id (nodes p) |>)
      end
  end.

(** One turn of [Victim]'s loop: which queue gives way; [None] is the default
    case. *)
Definition victim_turn (p : s3fifo) : option (option string * s3fifo) :=
  let target := (length (small p) + length (main p)) / 10 in
  let target := if target <? 1 then 1 else target in
  if target <=? length (small p) then Some (evictSmall p)
  else if 0 <? length (main p) then Some (evictMain p)
  else if 0 <? length (small p) then Some (evictSmall p)
  else None.

Fixpoint victim_loop (fuel : nat) (p : s3fifo) : option (option string * s3fifo) :=
  match fuel with
  | O => None
  | S fuel =>
      match victim_turn p with
      | None => Some (None, p)
      | Some (Some id, p) => Some (Some id, p)
      | Some (None, p) => victim_loop fuel p
      end
  end.

Definition freq_of (p : s3fifo) (id : string) : nat :=
  match nodes p !! id with Some nd => Z.to_nat (sFreq nd) | None => 0 end.

(** Promotions and decays still possible: the sum of all counts and the
    length of small bound the turns that evict nothing. *)
Definition turns (p : s3fifo) : nat := sum_list_with (freq_of p) (small p ++ main p) + length (small p).

Definition s3_Victim (p : s3fifo) : option string * s3fifo :=
  if size (nodes p) =? 0 then (None, p)
  else match victim_loop (S (turns p)) p with Some r => r | None => (None, p) end.

Definition s3_Remove (id : string) (p : s3fifo) : s3fifo :=
  match nodes p !! id with
  | None => p
  | Some nd =>
      let p := if sInMain nd then p <| main := list_del id (main p) |>
               else p <| small := list_del id (small p) |> in
      p <| nodes := delete id (nodes p) |>
  end.

Definition s3_Len (p : s3fifo) : nat := size (nodes p).

(** ** Well-formedness *)

Record s3_ok (p : s3fifo) : Prop := {
  s3_nodup : NoDup (small p ++ main p);
  s3_dom : ∀ id, is_Some (nodes p !! id) ↔ id ∈ small p ++ main p;
  s3_side : ∀ id nd, nodes p !! id = Some nd → (sInMain nd = true ↔ id ∈ main p);
  s3_freq : ∀ id nd, nodes p !! id = Some nd → (0 ≤ sFreq nd ≤ 3)%Z;
  s3_ghost : NoDup (ghost p) ∧ ghostSet p = list_to_set (ghost p) ∧ length (ghost p) ≤ ghostCap p;
}.

Lemma trim_ghost_spec cap l s :
  NoDup l → s = list_to_set l →
  let r := trim_ghost cap l s in
  NoDup r.1 ∧ r.2 = list_to_set r.1 ∧ length r.1 ≤ cap ∧ r.1 = drop (length l - cap) l.
Proof.
  revert s. induction l as [|x l IH]; intros s Hnd ->; simpl.
  { split_and!; [constructor|done|lia|done]. }
  destruct (Nat.ltb_spec cap (S (length l))) as [Hlt|Hge].
  - apply NoDup_cons in Hnd as [Hx Hnd].
    destruct (IH (list_to_set (x :: l) ∖ {[x]}) Hnd) as (H1 & H2 & H3 & H4); [set_solver|].
    simpl in *. split_and!; try done. rewrite H4. by replace (S (length l) - cap) with (S (length l - cap)) by lia.
  - simpl. split_and!; [done|done|lia|]. by replace (S (length l) - cap) with 0 by lia.
Qed.

Lemma pushGhost_fields id p :
  small (pushGhost id p) = small p ∧ main (pushGhost id p) = main p ∧ nodes (pushGhost id p) = nodes p ∧
  ghostCap (pushGhost id p) = ghostCap p.
Proof. unfold pushGhost. case_bool_decide; [done|]. by destruct (trim_ghost _ _ _). Qed.

Lemma pushGhost_ok id p :
  NoDup (ghost p) ∧ ghostSet p = list_to_set (ghost p) ∧ length (ghost p) ≤ ghostCap p →
  NoDup (ghost (pushGhost id p)) ∧ ghostSet (pushGhost id p) = list_to_set (ghost (pushGhost id p)) ∧
  length (ghost (pushGhost id p)) ≤ ghostCap (pushGhost id p).
Proof.
  intros (Hnd & Hs & Hl). unfold pushGhost. rewrite Hs. case_bool_decide as Hin; [done|].
  rewrite elem_of_list_to_set in Hin.
  destruct (trim_ghost_spec (ghostCap p) (ghost p ++ [id]) ({[id]} ∪ list_to_set (ghost p))) as (H1 & H2 & H3 & _).
  - apply NoDup_app. split_and!; [done|set_solver|apply NoDup_singleton].
  - rewrite list_to_set_app_L. simpl. set_solver.
  - by destruct (trim_ghost _ _ _).
Qed.

(** ** Turns *)

Lemma sum_freq_ext p p' l :
  (∀ id, id ∈ l → freq_of p' id = freq_of p id) → sum_list_with (freq_of p') l = sum_list_with (freq_of p) l.
Proof.
  induction l as [|x l IH]; intros Hl; [done|]. simpl. rewrite Hl, IH; set_solver.
Qed.

(** Small gives way: it evicts its oldest entry, or promotes it. *)
Lemma evictSmall_spec p id rest :
  s3_ok p → small p = id :: rest →
  ∃ nd, nodes p !! id = Some nd ∧
    (((0 < sFreq nd)%Z ∧ ∃ p', evictSmall p = (None, p') ∧ s3_ok p' ∧ turns p' < turns p ∧
       dom (nodes p') = dom (nodes p) ∧ small p' = rest ∧ main p' = main p ++ [id])
     ∨ (sFreq nd = 0%Z ∧ ∃ p', evictSmall p = (Some id, p') ∧ s3_ok p' ∧
       dom (nodes p') = dom (nodes p) ∖ {[id]} ∧ small p' = rest ∧ main p' = main p ∧
       ∀ x, x ≠ id → nodes p' !! x = nodes p !! x)).
Proof.
  intros Hok Hsm. pose proof Hok as [Hnd Hdom Hside Hfreq Hgh]. rewrite Hsm in *.
  assert (is_Some (nodes p !! id)) as [nd Hn] by (apply Hdom; set_solver). exists nd. split; [done|].
  simpl in Hnd. apply NoDup_cons in Hnd as [Hid Hnd]. rewrite not_elem_of_app in Hid. destruct Hid as [Hid1 Hid2].
  assert (NoDup (rest ++ main p ++ [id])) as Hnd'.
  { rewrite (assoc_L (++)). apply NoDup_app. split_and!; [done|set_solver|apply NoDup_singleton]. }
  pose proof (Hfreq id nd Hn) as Hf. unfold evictSmall. rewrite Hsm. simpl. rewrite Hn.
  destruct (Z.gtb_spec (sFreq nd) 0) as [Hpos|Hzero].
  - left. split; [done|]. eexists. split; [done|].
    set (p' := p <| small := rest |> <| nodes := _ |> <| main := _ |>).
    assert (∀ x, freq_of p' x = freq_of p x) as Hfr.
    { intros x. unfold freq_of, p'. simpl. rewrite lookup_insert. case_decide; [subst|done]. by rewrite Hn. }
    split_and!; try done.
    + unfold p'. split; simpl; [done| | | |done].
      * intros x. rewrite lookup_insert. case_decide; [subst; split; [set_solver|by eexists]|].
        rewrite Hdom. set_solver.
      * intros x n Hx. lookup_cases Hx; [simpl; split; [set_solver|done]|]. rewrite (Hside x n) by done. set_solver.
      * intros x n Hx. lookup_cases Hx; [simpl; lia|by eapply Hfreq].
    + unfold turns. rewrite (sum_freq_ext p p' (small p' ++ main p')) by (intros; apply Hfr).
      unfold p' at 1 2 3. simpl. rewrite Hsm. simpl. rewrite !sum_list_with_app. simpl. lia.
    + unfold p'. simpl. apply dom_insert_lookup_L. by eexists.
  - right. assert (sFreq nd = 0%Z) as Hz by lia. split; [done|]. eexists. split; [done|].
    set (p1 := p <| small := rest |> <| nodes := delete id (nodes p) |>).
    destruct (pushGhost_fields id p1) as (E1 & E2 & E3 & E4).
    rewrite E1, E2, E3. split_and!; try done.
    + split; rewrite ?E1, ?E2, ?E3; simpl.
      * done.
      * intros x. rewrite lookup_delete. case_decide; [subst; split; [by intros []|set_solver]|].
        rewrite Hdom. set_solver.
      * intros x n Hx. apply lookup_delete_Some in Hx as [Hne Hx]. by apply Hside.
      * intros x n Hx. apply lookup_delete_Some in Hx as [Hne Hx]. by eapply Hfreq.
      * by apply pushGhost_ok.
    + simpl. apply dom_delete_L.
    + intros x Hx. simpl. by rewrite lookup_delete_ne.
Qed.

(** Main gives way: it evicts its oldest entry, or lets it decay. *)
Lemma evictMain_spec p id rest :
  s3_ok p → main p = id :: rest →
  ∃ nd, nodes p !! id = Some nd ∧
    (((0 < sFreq nd)%Z ∧ ∃ p', evictMain p = (None, p') ∧ s3_ok p' ∧ turns p' < turns p ∧
       dom (nodes p') = dom (nodes p))
     ∨ (sFreq nd = 0%Z ∧ ∃ p', evictMain p = (Some id, p') ∧ s3_ok p' ∧
       dom (nodes p') = dom (nodes p) ∖ {[id]})).
Proof.
  intros Hok Hm. pose proof Hok as [Hnd Hdom Hside Hfreq Hgh]. rewrite Hm in *.
  assert (is_Some (nodes p !! id)) as [nd Hn] by (apply Hdom; set_solver). exists nd. split; [done|].
  apply NoDup_app in Hnd as (Hnds & Hdis & [Hid Hndr]%NoDup_cons).
  pose proof (Hfreq id nd Hn) as Hf. unfold evictMain. rewrite Hm. simpl. rewrite Hn.
  assert (id ∉ small p) as Hns by (intros Hin; apply (Hdis id Hin); set_solver).
  destruct (Z.gtb_spec (sFreq nd) 0) as [Hpos|Hzero].
  - left. split; [done|]. eexists. split; [done|].
    set (p' := p <| main := rest |> <| nodes := _ |> <| main := _ |>).
    split_and!.
    + unfold p'. split; simpl; [| | | |done].
      * apply NoDup_app. split_and!; [done| |apply NoDup_app; split_and!; [done| |apply NoDup_singleton]].
        { intros x Hx. specialize (Hdis x Hx). set_solver. }
        { intros x Hx ->%list_elem_of_singleton. done. }
      * intros x. rewrite lookup_insert. case_decide; [subst; split; [set_solver|by eexists]|].
        rewrite Hdom. set_solver.
      * intros x n Hx. lookup_cases Hx; [simpl; rewrite (Hside _ _ Hn); set_solver|]. rewrite (Hside x n) by done. set_solver.
      * intros x n Hx. lookup_cases Hx; [simpl; lia|by eapply Hfreq].
    + unfold turns. rewrite !sum_list_with_app. unfold p' at 2 4. unfold p' at 3. simpl. rewrite Hm. simpl.
      rewrite sum_list_with_app. simpl.
      assert (∀ l, id ∉ l → sum_list_with (freq_of p') l = sum_list_with (freq_of p) l) as Hext.
      { intros l Hl. apply sum_freq_ext. intros x Hx. unfold freq_of, p'. simpl.
        rewrite lookup_insert_ne by (intros ->; done). done. }
      rewrite !Hext by done. unfold freq_of at 3 5. unfold p'. simpl. rewrite lookup_insert_eq, Hn. simpl. lia.
    + unfold p'. simpl. apply dom_insert_lookup_L. by eexists.
  - right. assert (sFreq nd = 0%Z) as Hz by lia. split; [done|]. eexists. split; [done|]. split.
    + split; simpl; [| | | |done].
      * apply NoDup_app. split_and!; [done| |done]. intros x Hx. specialize (Hdis x Hx). set_solver.
      * intros x. rewrite lookup_delete. case_decide; [subst; split; [by intros []|set_solver]|].
        rewrite Hdom. set_solver.
      * intros x n Hx. apply lookup_delete_Some in Hx as [Hne Hx]. rewrite (Hside x n) by done. set_solver.
      * intros x n Hx. apply lookup_delete_Some in Hx as [Hne Hx]. by eapply Hfreq.
    + simpl. apply dom_delete_L.
Qed.

(** A turn with residents evicts one of them, or makes progress. *)
Lemma victim_turn_spec p :
  s3_ok p → nodes p ≠ ∅ →
  (∃ p', victim_turn p = Some (None, p') ∧ s3_ok p' ∧ turns p' < turns p ∧ dom (nodes p') = dom (nodes p)) ∨
  (∃ id p', victim_turn p = Some (Some id, p') ∧ s3_ok p' ∧ id ∈ dom (nodes p) ∧
     dom (nodes p') = dom (nodes p) ∖ {[id]}).
Proof.
  intros Hok Hne. unfold victim_turn. set (target := if _ <? 1 then 1 else _).
  assert (1 ≤ target) as Ht by (unfold target; destruct (Nat.ltb_spec ((length (small p) + length (main p)) / 10) 1); lia).
  assert (∀ l, target <= length (small p) ∨ 0 < length (small p) → small p = l → l ≠ []) as Hsne.
  { intros l Hor E ->. rewrite E in Hor. simpl in Hor. lia. }
  assert (∀ l, target <= length (small p) ∨ 0 < length (small p) → small p = l →
    (∃ p', Some (evictSmall p) = Some (None, p') ∧ s3_ok p' ∧ turns p' < turns p ∧ dom (nodes p') = dom (nodes p)) ∨
    (∃ id p', Some (evictSmall p) = Some (Some id, p') ∧ s3_ok p' ∧ id ∈ dom (nodes p) ∧
       dom (nodes p') = dom (nodes p) ∖ {[id]})) as Hsmall.
  { intros [|id rest] Hor E; [by apply (Hsne []) in Hor|].
    destruct (evictSmall_spec p id rest Hok E) as (nd & Hnd & [(_ & p' & -> & ? & ? & ? & _)|(_ & p' & -> & ? & ? & _)]).
    - left. by exists p'.
    - right. exists id, p'. split_and!; try done. apply elem_of_dom. by exists nd. }
  destruct (Nat.leb_spec target (length (small p))); [apply (Hsmall _ ltac:(by left) eq_refl)|].
  destruct (Nat.ltb_spec 0 (length (main p))).
  - destruct (main p) as [|id rest] eqn:E; [simpl in *; lia|].
    destruct (evictMain_spec p id rest Hok E) as (nd & Hnd & [(_ & p' & -> & ? & ? & ?)|(_ & p' & -> & ? & ?)]).
    + left. by exists p'.
    + right. exists id, p'. split_and!; try done. apply elem_of_dom. by exists nd.
  - destruct (Nat.ltb_spec 0 (length (small p))); [apply (Hsmall _ ltac:(by right) eq_refl)|].
    destruct Hne. apply map_empty. intros id. apply eq_None_not_Some. rewrite (s3_dom _ Hok).
    destruct (small p), (main p); simpl in *; try lia. set_solver.
Qed.

Lemma victim_loop_spec fuel p :
  s3_ok p → nodes p ≠ ∅ → turns p < fuel →
  ∃ id p', victim_loop fuel p = Some (Some id, p') ∧ s3_ok p' ∧ id ∈ dom (nodes p) ∧
    dom (nodes p') = dom (nodes p) ∖ {[id]}.
Proof.
  revert p. induction fuel as [|fuel IH]; intros p Hok Hne Hf; [lia|]. simpl.
  destruct (victim_turn_spec p Hok Hne) as [(p' & -> & Hok' & Hlt & Hd)|(id & p' & -> & Hok' & Hin & Hd)].
  - destruct (IH p' Hok') as (id & p'' & Hl & Hok'' & Hin & Hd'); [|lia|].
    + intros E. apply Hne. apply (dom_empty_inv_L (D:=gset string)). rewrite <- Hd, E. apply dom_empty_L.
    + exists id, p''. rewrite Hd in *. by split_and!.
  - by exists id, p'.
Qed.

Lemma size_zero (m : gmap string s3node) : (size m =? 0) = true ↔ m = ∅.
Proof. rewrite Nat.eqb_eq. apply map_size_empty_iff. Qed.

Lemma s3_Victim_spec p :
  s3_ok p → nodes p ≠ ∅ →
  ∃ id p', s3_Victim p = (Some id, p') ∧ s3_ok p' ∧ id ∈ dom (nodes p) ∧
    dom (nodes p') = dom (nodes p) ∖ {[id]}.
Proof.
  intros Hok Hne. unfold s3_Victim. destruct (size (nodes p) =? 0) eqn:E; [by apply size_zero in E|].
  destruct (victim_loop_spec (S (turns p)) p Hok Hne) as (id & p' & -> & H); [lia|]. by exists id, p'.
Qed.

Lemma bump_freq nd : (0 ≤ sFreq nd ≤ 3)%Z → (0 ≤ sFreq (bump nd) ≤ 3)%Z ∧ sInMain (bump nd) = sInMain nd.
Proof. unfold bump. destruct (Z.ltb_spec (sFreq nd) 3); simpl; split; done || lia. Qed.

Lemma s3_bump_ok p id nd :
  s3_ok p → nodes p !! id = Some nd →
  s3_ok (p <| nodes := <[id := bump nd]> (nodes p) |>) ∧ dom (<[id := bump nd]> (nodes p)) = dom (nodes p).
Proof.
  intros [H1 H2 H3 H4 H5] Hn. destruct (bump_freq nd (H4 _ _ Hn)) as [Hf Hm].
  split; [|apply dom_insert_lookup_L; by eexists]. split; simpl; try done.
  - intros x. rewrite lookup_insert. case_decide; [subst; rewrite <- H2; split; by eexists|apply H2].
  - intros x n Hx. lookup_cases Hx; [rewrite Hm; by apply H3|by apply H3].
  - intros x n Hx. lookup_cases Hx; [done|by eapply H4].
Qed.

Lemma s3_grow_ok p : s3_ok p →
  s3_ok (if ghostCap p <? size (nodes p) then p <| ghostCap := size (nodes p) |> else p).
Proof.
  intros [H1 H2 H3 H4 (H5 & H6 & H7)]. destruct (Nat.ltb_spec (ghostCap p) (size (nodes p))); [|by split].
  split; try done. simpl. split_and!; [done|done|lia].
Qed.

Lemma s3_Add_ok id p : s3_ok p → s3_ok (s3_Add id p) ∧ dom (nodes (s3_Add id p)) = {[id]} ∪ dom (nodes p).
Proof.
  intros Hok. pose proof Hok as [H1 H2 H3 H4 (H5 & H6 & H7)]. unfold s3_Add.
  destruct (nodes p !! id) as [nd|] eqn:Hn.
  { destruct (s3_bump_ok p id nd Hok Hn) as [Ha Hb]. split; [done|]. simpl. rewrite Hb.
    assert (id ∈ dom (nodes p)) by (apply elem_of_dom; by eexists). set_solver. }
  assert (id ∉ small p ∧ id ∉ main p) as [Hs Hm].
  { rewrite <- not_elem_of_app, <- H2, Hn. by intros []. }
  apply NoDup_app in H1 as (H1a & H1b & H1c).
  match goal with |- context [if bool_decide _ then ?a else ?b] => set (pa := a); set (pb := b) end.
  assert (s3_ok pa ∧ s3_ok pb) as [Hpa Hpb].
  { split; split; unfold pa, pb; simpl.
    - apply NoDup_app. split_and!; [done| |apply NoDup_app; split_and!; [done|set_solver|apply NoDup_singleton]].
      intros x Hx. specialize (H1b x Hx). set_solver.
    - intros x. rewrite lookup_insert. case_decide; [subst; split; [set_solver|by eexists]|]. rewrite H2. set_solver.
    - intros x n Hx. lookup_cases Hx; [simpl; split; [set_solver|done]|]. rewrite (H3 x n) by done. set_solver.
    - intros x n Hx. lookup_cases Hx; [simpl; lia|by eapply H4].
    - split_and!; [by apply NoDup_list_del| |].
      + rewrite H6. apply set_eq. intros x. rewrite elem_of_difference, !elem_of_list_to_set, elem_of_list_del. set_solver.
      + etrans; [apply length_filter|done].
    - rewrite <- (assoc_L (++)). apply NoDup_app. split_and!; [done| |].
      + intros x Hx. simpl. specialize (H1b x Hx). set_solver.
      + apply NoDup_app. split_and!; [apply NoDup_singleton|set_solver|done].
    - intros x. rewrite lookup_insert. case_decide; [subst; split; [set_solver|by eexists]|]. rewrite H2. set_solver.
    - intros x n Hx. lookup_cases Hx; [simpl; split; [done|set_solver]|]. by apply H3.
    - intros x n Hx. lookup_cases Hx; [simpl; lia|by eapply H4].
    - done. }
  cbv zeta. case_bool_decide; (split; [by apply s3_grow_ok|]);
    match goal with |- context [if ?b then _ else _] => destruct b end;
    unfold pa, pb; simpl; by rewrite dom_insert_L.
Qed.

Lemma s3_Remove_ok id p : s3_ok p → s3_ok (s3_Remove id p) ∧ dom (nodes (s3_Remove id p)) = dom (nodes p) ∖ {[id]}.
Proof.
  intros Hok. pose proof Hok as [H1 H2 H3 H4 H5]. unfold s3_Remove.
  destruct (nodes p !! id) as [nd|] eqn:Hn.
  2:{ split; [done|]. assert (id ∉ dom (nodes p)) by (by apply not_elem_of_dom). set_solver. }
  pose proof (H3 id nd Hn) as Hside. apply NoDup_app in H1 as (H1a & H1b & H1c).
  assert (id ∈ small p ++ main p) as Hin by (apply H2; by eexists). rewrite elem_of_app in Hin.
  destruct (sInMain nd) eqn:Hm.
  - assert (id ∈ main p ∧ id ∉ small p) as [Him His].
    { split; [by apply Hside|]. intros Hs. apply (H1b id Hs). by apply Hside. }
    split; [|simpl; apply dom_delete_L]. split; simpl; try done.
    + apply NoDup_app. split_and!; [done| |by apply NoDup_list_del]. intros x Hx. rewrite elem_of_list_del.
      specialize (H1b x Hx). tauto.
    + intros x. rewrite lookup_delete, elem_of_app, elem_of_list_del.
      case_decide; [subst; split; [by intros []|tauto]|]. rewrite H2, elem_of_app. split; [|tauto].
      intros [?|?]; [by left|right; split; congruence].
    + intros x n Hx. apply lookup_delete_Some in Hx as [Hne Hx]. rewrite elem_of_list_del, (H3 x n) by done.
      split; [|tauto]. intros; split; congruence.
    + intros x n Hx. apply lookup_delete_Some in Hx as [Hne Hx]. by eapply H4.
  - assert (id ∉ main p) as Him by (intros Hi; apply Hside in Hi; done).
    split; [|simpl; apply dom_delete_L]. split; simpl; try done.
    + apply NoDup_app. split_and!; [by apply NoDup_list_del| |done]. intros x Hx%elem_of_list_del. apply H1b, Hx.
    + intros x. rewrite lookup_delete, elem_of_app, elem_of_list_del.
      case_decide; [subst; split; [by intros []|tauto]|]. rewrite H2, elem_of_app. split; [|tauto].
      intros [?|?]; [left; split; congruence|by right].
    + intros x n Hx. apply lookup_delete_Some in Hx as [Hne Hx]. by apply H3.
    + intros x n Hx. apply lookup_delete_Some in Hx as [Hne Hx]. by eapply H4.
Qed.

#[export] Instance s3_policy : EvictionPolicy s3fifo.
Proof.
  refine {| pAdd := s3_Add; pAccess := s3_Access; pVictim := s3_Victim; pRemove := s3_Remove;
    pLen := s3_Len; pOk := s3_ok; resident p := dom (nodes p) |}.
  - apply s3_Add_ok.
  - intros id p Hok. unfold s3_Access. destruct (nodes p !! id) as [nd|] eqn:Hn; [|done].
    by apply s3_bump_ok.
  - apply s3_Remove_ok.
  - intros p Hok. unfold s3_Len. by rewrite size_dom.
  - intros p Hok He. apply (dom_empty_inv_L (D:=gset string)) in He. unfold s3_Victim. by rewrite He.
  - intros p Hok He. destruct (s3_Victim_spec p Hok) as (id & p' & -> & Hok' & Hin & Hd).
    { intros E. apply He. rewrite E. apply dom_empty_L. }
    exists id. simpl. destruct (s3_Remove_ok id p' Hok') as [H1 H2]. split_and!; try done. rewrite H2, Hd. set_solver.
Defined.
