(* ===== verification/Cache.v ===== *)
(** * The local object cache (internal/cache/local_cache.go, eviction.go)

    Byte accounting, single-flight misses and eviction, over any
    [EvictionPolicy].  The files under the cache's root are part of the state;
    [os.Remove] of a file succeeds. *)
From S2P Require Import Prelude GoLib Policies S3fifo.
Open Scope Z_scope.

Record entry := MkEntry { eId : string; ePath : string; eSize : Z }.

Record Cache (P : Type) := MkCache {
  cRoot : string; maxBytes : Z; curBytes : Z; policy : P; objects : gmap string entry;
  inflight : gset string; hits : Z; misses : Z; files : gmap string (list byte) }.
Arguments MkCache {P} _ _ _ _ _ _ _ _ _.
Arguments cRoot {P} _.
Arguments maxBytes {P} _.
Arguments curBytes {P} _.
Arguments policy {P} _.
Arguments objects {P} _.
Arguments inflight {P} _.
Arguments hits {P} _.
Arguments misses {P} _.
Arguments files {P} _.
#[export] Instance eta_Cache P : Eta (Cache P) := λ c,
  MkCache (cRoot c) (maxBytes c) (curBytes c) (policy c) (objects c) (inflight c) (hits c) (misses c) (files c).

Definition idFor (key : string) : string := hex_encode (Sha256.sum256 (bytes_of_string key)).

Section cache.
Context {P : Type} `{EvictionPolicy P}.

Definition path_of (c : Cache P) (id : string) : string := cRoot c +:+ "/" +:+ id.

(** One turn of [evictLocked]'s loop: [None] when it is over.  A victim that
    is not in [objects] is a nil dereference in the code. *)
Definition evict_turn (c : Cache P) : option (Cache P) :=
  if (maxBytes c <? curBytes c) && (1 <? pLen (policy c))%nat then
    match pVictim (policy c) with
    | (None, _) => None
    | (Some id, p) =>
        match objects c !! id with
        | None => None
        | Some e =>
            Some (c <| policy := pRemove id p |> <| objects := delete id (objects c) |>
                    <| curBytes := curBytes c - eSize e |> <| files := delete (ePath e) (files c) |>)
        end
    end
  else None.

(** Every turn evicts one resident, so their number is enough fuel. *)
Fixpoint evict_loop (fuel : nat) (c : Cache P) : Cache P :=
  match fuel with
  | O => c
  | S fuel => match evict_turn c with Some c => evict_loop fuel c | None => c end
  end.

Definition evictLocked (c : Cache P) : Cache P := evict_loop (pLen (policy c)) c.

Definition cache_admit (id path : string) (size : Z) (c : Cache P) : Cache P :=
  evictLocked
    match objects c !! id with
    | Some e => c <| curBytes := curBytes c + (size - eSize e) |>
                  <| objects := <[id := MkEntry id path size]> (objects c) |>
                  <| policy := pAccess id (policy c) |>
    | None => c <| objects := <[id := MkEntry id path size]> (objects c) |>
                <| policy := pAdd id (policy c) |> <| curBytes := curBytes c + size |>
    end.

(** ** [Get]

    The locked start of a call, the fetch, and the locked end.  Other calls
    may come in between. *)
Inductive start := Hit (path : string) | Join (id : string) | Miss (id : string).

Definition get_start (key : string) (c : Cache P) : start * Cache P :=
  let id := idFor key in
  match objects c !! id with
  | Some e => (Hit (ePath e), c <| policy := pAccess id (policy c) |> <| hits := hits c + 1 |>)
  | None =>
      if bool_decide (id ∈ inflight c) then (Join id, c)
      else (Miss id, c <| inflight := {[id]} ∪ inflight c |> <| misses := misses c + 1 |>)
  end.

(** [store]: on success the object is at its final path in one step. *)
Definition store_object (id : string) (fetched : result (list byte)) (c : Cache P)
    : result (string * Z) * Cache P :=
  match fetched with
  | Err e => (Err e, c)
  | Ok data => (Ok (path_of c id, Z.of_nat (length data)), c <| files := <[path_of c id := data]> (files c) |>)
  end.

Definition get_end (id : string) (stored : result (string * Z)) (c : Cache P) : Cache P :=
  let c := c <| inflight := inflight c ∖ {[id]} |> in
  match stored with
  | Ok (path, size) => cache_admit id path size c
  | Err _ => c
  end.

Definition open (path : string) (c : Cache P) : result (list byte) :=
  match files c !! path with Some data => Ok data | None => Err ("open " +:+ path) end.

(** [Get] when nothing else runs meanwhile; a call in flight cannot be
    waited for then. *)
Definition Get (fetch : string → result (list byte)) (key : string) (c : Cache P)
    : option (result (list byte)) * Cache P :=
  match get_start key c with
  | (Hit path, c) => (Some (open path c), c)
  | (Join _, c) => (None, c)
  | (Miss id, c) =>
      match store_object id (fetch key) c with
      | (Err e, c) => (Some (Err ("cache: fetch " +:+ key +:+ ": " +:+ e)), get_end id (Err e) c)
      | (Ok (path, size), c) => let c := get_end id (Ok (path, size)) c in (Some (open path c), c)
      end
  end.

(** ** Start-up *)

(** A directory entry: its name, content, modification time and kind. *)
Record DirEntry := MkDirEntry { deName : string; deData : list byte; deMtime : Z; deIsDir : bool }.

Definition is_tmp (name : string) : bool := String.prefix ".tmp-" name.

Definition adopt_one (c : Cache P) (o : DirEntry) : Cache P :=
  c <| objects := <[deName o := MkEntry (deName o) (path_of c (deName o)) (Z.of_nat (length (deData o)))]> (objects c) |>
    <| policy := pAdd (deName o) (policy c) |> <| curBytes := curBytes c + Z.of_nat (length (deData o)) |>.

#[local] Instance mtime_dec : RelDecision (λ a b : DirEntry, deMtime a <= deMtime b).
Proof. intros a b. apply _. Defined.

(** [adopt]: files are listed by age; temporary files are removed. *)
Definition adopt (ents : list DirEntry) (c : Cache P) : Cache P :=
  let fs := filter (λ e, deIsDir e = false) ents in
  let objs := filter (λ e, is_tmp (deName e) = false) fs in
  let c := c <| files := foldl (λ m e, if is_tmp (deName e) then m else <[path_of c (deName e) := deData e]> m) ∅ fs |> in
  evictLocked (foldl adopt_one c (merge_sort (λ a b, deMtime a <= deMtime b) objs)).

Definition New (dir : string) (budget : Z) (p0 : P) (ents : list DirEntry) : result (Cache P) :=
  if budget <=? 0 then Err "cache: maxBytes must be positive"
  else Ok (adopt ents (MkCache dir budget 0 p0 ∅ ∅ 0 0 ∅)).

Definition Stats (c : Cache P) : nat * Z * Z * Z * Z :=
  (size (objects c), curBytes c, maxBytes c, hits c, misses c).

(** ** The accounting *)

Definition total (m : gmap string entry) : Z := map_sum (λ _ e, eSize e) m.

Lemma total_insert m id e : m !! id = None → total (<[id := e]> m) = eSize e + total m.
Proof. apply map_sum_insert. Qed.

Lemma total_delete m id e : m !! id = Some e → total m = eSize e + total (delete id m).
Proof. apply (map_sum_delete (λ _ e, eSize e)). Qed.

(** Bytes are counted exactly, the policy ranks exactly the objects that are
    there, and each of them is on disk under its own path. *)
Record cache_ok (c : Cache P) : Prop := {
  ca_policy : pOk (policy c);
  ca_resident : resident (policy c) = dom (objects c);
  ca_bytes : curBytes c = total (objects c);
  ca_entry : ∀ id e, objects c !! id = Some e → eId e = id ∧ ePath e = path_of c id ∧
    ∃ data, files c !! ePath e = Some data ∧ eSize e = Z.of_nat (length data);
  ca_inflight : ∀ id, id ∈ inflight c → objects c !! id = None;
}.

Lemma path_inj (c : Cache P) id id' : path_of c id = path_of c id' → id = id'.
Proof. unfold path_of. intros E. apply string_app_head in E. by injection E. Qed.

(** Eviction removes objects and their files, nothing else. *)
Definition evicts (c c' : Cache P) : Prop :=
  cRoot c' = cRoot c ∧ maxBytes c' = maxBytes c ∧ inflight c' = inflight c ∧
  hits c' = hits c ∧ misses c' = misses c ∧ objects c' ⊆ objects c ∧
  (∀ id, (objects c !! id = None ∨ is_Some (objects c' !! id)) →
     files c' !! path_of c id = files c !! path_of c id).

#[export] Instance evicts_refl : Reflexive evicts.
Proof. intros c. repeat split; done. Qed.

Lemma evicts_trans c c' c'' : evicts c c' → evicts c' c'' → evicts c c''.
Proof.
  intros (A1 & A2 & A3 & A4 & A5 & A6 & A7) (B1 & B2 & B3 & B4 & B5 & B6 & B7).
  repeat split; try congruence; [by etrans|].
  intros id Hid. assert (path_of c' id = path_of c id) as E by (unfold path_of; by rewrite A1).
  rewrite <- E, B7, E, A7; [done|..].
  - destruct Hid as [|[e He]]; [by left|right]. exists e. by eapply lookup_weaken.
  - destruct Hid as [Hn|]; [left|by right].
    destruct (objects c' !! id) eqn:Ho; [|done]. pose proof (lookup_weaken _ _ _ _ Ho A6). congruence.
Qed.

Lemma evict_turn_ok c : cache_ok c →
  match evict_turn c with
  | Some c' => cache_ok c' ∧ evicts c c' ∧ maxBytes c < curBytes c ∧ (1 < size (objects c))%nat ∧
      ∃ id, (pVictim (policy c)).1 = Some id ∧ id ∈ dom (objects c) ∧ objects c' = delete id (objects c) ∧
        policy c' = pRemove id (pVictim (policy c)).2 
  | None => curBytes c <= maxBytes c ∨ (size (objects c) <= 1)%nat
  end.
Proof.
  intros [H1 H2 H3 H4 H5]. unfold evict_turn. rewrite (pLen_ok (policy c) H1), H2, size_dom.
  destruct ((maxBytes c <? curBytes c) && (1 <? size (objects c))%nat) eqn:Hg.
  2:{ apply andb_false_iff in Hg as [?|?]; bool_to_prop; [by left|right; lia]. }
  bool_to_prop. destruct (pVictim_some (policy c) H1) as (id & Hv & Hin & Hok & Hres).
  { rewrite H2. intros E. apply (f_equal size) in E. rewrite size_dom, size_empty in E. lia. }
  destruct (pVictim (policy c)) as [o p] eqn:Hp. simpl in Hv, Hok, Hres. subst o. rewrite H2 in Hin.
  apply elem_of_dom in Hin as [e He]. rewrite He. cbn [fst snd].
  destruct (H4 id e He) as (Hid & Hpath & _).
  split_and!; try done; [| |exists id; split_and!; [done|by eapply elem_of_dom_2|done..]].
  - split; simpl; try done.
    + by rewrite Hres, H2, dom_delete_L.
    + rewrite H3, (total_delete _ id e) by done. lia.
    + intros x e' [Hne Hx]%lookup_delete_Some. destruct (H4 x e' Hx) as (A & B & data & C & D).
      split_and!; [done..|]. exists data. split; [|done]. rewrite lookup_delete_ne; [done|].
      rewrite Hpath, B. by intros ?%path_inj.
    + intros x Hx. apply lookup_delete_None. right. by apply H5.
  - repeat split; simpl; [apply delete_subseteq|]. intros x Hx. rewrite lookup_delete_ne; [done|].
    rewrite Hpath. intros <-%path_inj. destruct Hx as [?|[? Hx]]; [congruence|].
    by rewrite lookup_delete_eq in Hx.
Qed.

Lemma evict_loop_ok fuel c : cache_ok c → (size (objects c) <= fuel)%nat →
  cache_ok (evict_loop fuel c) ∧ evicts c (evict_loop fuel c) ∧ evict_turn (evict_loop fuel c) = None.
Proof.
  revert c. induction fuel as [|fuel IH]; intros c Hok Hf; simpl.
  - split_and!; [done|done|]. pose proof (evict_turn_ok c Hok) as Ht. destruct (evict_turn c); [|done]. lia.
  - pose proof (evict_turn_ok c Hok) as Ht. destruct (evict_turn c) as [c'|] eqn:E; [|by split_and!].
    destruct Ht as (Hok' & Hev & _ & _ & id & _ & Hin & Ho & _).
    destruct (IH c' Hok') as (A & B & C).
    { rewrite Ho. apply elem_of_dom in Hin as [e He]. rewrite map_size_delete_Some by (by eexists). lia. }
    split_and!; [done|by eapply evicts_trans|done].
Qed.

Definition within_budget (c : Cache P) : Prop := curBytes c <= maxBytes c ∨ (size (objects c) <= 1)%nat.

Lemma evictLocked_ok c : cache_ok c →
  cache_ok (evictLocked c) ∧ evicts c (evictLocked c) ∧ within_budget (evictLocked c).
Proof.
  intros Hok. unfold evictLocked. destruct (evict_loop_ok (pLen (policy c)) c Hok) as (A & B & C).
  { rewrite (pLen_ok _ (ca_policy _ Hok)), (ca_resident _ Hok), size_dom. lia. }
  split_and!; [done..|]. pose proof (evict_turn_ok _ A) as Ht. by rewrite C in Ht.
Qed.
End cache.
