(* ===== verification/CacheThms.v ===== *)
(** * Concurrent readers of the object cache

    [Cache.Get] holds the cache's lock at its start and at its end; the fetch
    and the opening of the file run outside it.  A step of the system is one
    locked section, one finished fetch or one open. *)
From S2P Require Import Prelude GoLib Policies S3fifo Cache.
Open Scope Z_scope.

Section system.
Context {P : Type} `{EvictionPolicy P}.

(** [cache_admit]'s two branches. *)
Lemma admit_ok (id : string) (data : list byte) (c : Cache P) :
  cache_ok c → id ∉ inflight c → files c !! path_of c id = Some data →
  ∃ m, evicts m (cache_admit id (path_of c id) (Z.of_nat (length data)) c) ∧
    cache_ok m ∧ objects m = <[id := MkEntry id (path_of c id) (Z.of_nat (length data))]> (objects c) ∧
    files m = files c ∧ cRoot m = cRoot c ∧ maxBytes m = maxBytes c ∧ inflight m = inflight c ∧
    hits m = hits c ∧ misses m = misses c ∧
    policy m = (if bool_decide (is_Some (objects c !! id)) then pAccess id (policy c) else pAdd id (policy c)) ∧
    cache_admit id (path_of c id) (Z.of_nat (length data)) c = evictLocked m ∧
    cache_ok (cache_admit id (path_of c id) (Z.of_nat (length data)) c) ∧
    within_budget (cache_admit id (path_of c id) (Z.of_nat (length data)) c).
Proof.
  intros [H1 H2 H3 H4 H5] Hin Hf. set (e := MkEntry id (path_of c id) (Z.of_nat (length data))).
  set (m := match objects c !! id with
    | Some e0 => c <| curBytes := curBytes c + (Z.of_nat (length data) - eSize e0) |>
        <| objects := <[id := e]> (objects c) |> <| policy := pAccess id (policy c) |>
    | None => c <| objects := <[id := e]> (objects c) |>
        <| policy := pAdd id (policy c) |> <| curBytes := curBytes c + Z.of_nat (length data) |>
    end).
  assert (cRoot m = cRoot c ∧ maxBytes m = maxBytes c ∧ inflight m = inflight c ∧ files m = files c ∧
    hits m = hits c ∧ misses m = misses c ∧ objects m = <[id := e]> (objects c) ∧
    policy m = (if bool_decide (is_Some (objects c !! id)) then pAccess id (policy c) else pAdd id (policy c)))
    as (M1 & M2 & M3 & M4 & M5 & M6 & M7 & M8).
  { unfold m. destruct (objects c !! id); repeat split. }
  assert (cache_ok m) as Hm.
  { split.
    - rewrite M8. case_bool_decide; [by apply pAccess_ok|by apply pAdd_ok].
    - rewrite M8, M7, dom_insert_L. case_bool_decide as Hr.
      + rewrite (proj2 (pAccess_ok id _ H1)), H2. apply elem_of_dom in Hr. set_solver.
      + by rewrite (proj2 (pAdd_ok id _ H1)), H2.
    - rewrite M7. unfold m. destruct (objects c !! id) as [e0|] eqn:E; cbn [curBytes]; simpl.
      + rewrite <- insert_delete_eq, total_insert by apply lookup_delete_eq.
        rewrite H3, (total_delete _ id e0) by done. simpl. lia.
      + rewrite total_insert by done. simpl. lia.
    - intros x ex. rewrite M7, M4. unfold path_of. rewrite M1. fold (path_of c x).
      intros [[<- <-]|[Hne Hx]]%lookup_insert_Some; [|by apply H4].
      split_and!; [done..|]. by exists data.
    - intros x. rewrite M3, M7. intros Hx. rewrite lookup_insert_ne by (by intros ->). by apply H5. }
  assert (cache_admit id (path_of c id) (Z.of_nat (length data)) c = evictLocked m) as Ea by done.
  destruct (evictLocked_ok m Hm) as (A & B & C). exists m. rewrite Ea. by split_and!.
Qed.

(** The leader of a miss: still fetching, or done. *)
Inductive leader := Fetching | Stored (r : result (string * Z)).

Record System := MkSystem { cache : Cache P; leaders : gmap string leader }.

Inductive step : System → System → Prop :=
| StepStart key c ls :
    step (MkSystem c ls)
      (MkSystem (get_start key c).2
         match (get_start key c).1 with Miss id => <[id := Fetching]> ls | _ => ls end)
| StepFetched id fetched c ls :
    ls !! id = Some Fetching →
    step (MkSystem c ls)
      (MkSystem (store_object id fetched c).2 (<[id := Stored (store_object id fetched c).1]> ls))
| StepEnd id r c ls :
    ls !! id = Some (Stored r) →
    step (MkSystem c ls) (MkSystem (get_end id r c) (delete id ls)).

(** One leader for each key being fetched, what it stored is on disk, and
    the cache is well formed and within its budget. *)
Record system_ok (s : System) : Prop := {
  so_cache : cache_ok (cache s);
  so_leaders : dom (leaders s) = inflight (cache s);
  so_stored : ∀ id path n, leaders s !! id = Some (Stored (Ok (path, n))) →
    path = path_of (cache s) id ∧
    ∃ data, files (cache s) !! path = Some data ∧ n = Z.of_nat (length data);
  so_budget : within_budget (cache s);
}.

Lemma start_ok s s' key c ls :
  s = MkSystem c ls → system_ok s →
  s' = MkSystem (get_start key c).2
    match (get_start key c).1 with Miss id => <[id := Fetching]> ls | _ => ls end → system_ok s'.
Proof.
  intros -> [[H1 H2 H3 H4 H5] Hl Hst Hb] ->. simpl in *. unfold get_start.
  destruct (objects c !! idFor key) as [e|] eqn:He; [|case_bool_decide as Hin; simpl].
  - split; simpl; [|done|done|done]. destruct (pAccess_ok (idFor key) _ H1) as [A B].
    split; simpl; [done|by rewrite B|done..].
  - by split; [split| | |].
  - split; simpl; [split; simpl; try done| | |done].
    + intros id. set_solver.
    + rewrite dom_insert_L, Hl. done.
    + intros id path n [[_ E]|[_ Hx]]%lookup_insert_Some; [done|]. by apply Hst.
Qed.

Lemma fetched_ok id fetched c ls :
  system_ok (MkSystem c ls) → ls !! id = Some Fetching →
  system_ok (MkSystem (store_object id fetched c).2 (<[id := Stored (store_object id fetched c).1]> ls)).
Proof.
  intros [[H1 H2 H3 H4 H5] Hl Hst Hb] Hid. simpl in *.
  assert (id ∈ inflight c) as Hin by (rewrite <- Hl; by eapply elem_of_dom_2).
  assert (dom (<[id := Stored (store_object id fetched c).1]> ls) = inflight c) as Hd.
  { rewrite dom_insert_L, Hl. set_solver. }
  destruct fetched as [data|e]; simpl in *.
  - split; simpl; [split; simpl; try done| done| |done].
    + intros x e Hx. destruct (H4 x e Hx) as (A & B & d & C & D). split_and!; [done..|].
      exists d. split; [|done]. rewrite lookup_insert_ne; [done|]. rewrite B. intros <-%path_inj.
      rewrite H5 in Hx; done.
    + intros x path n [[<- [= <- <-]]|[Hne Hx]]%lookup_insert_Some.
      { split; [done|]. exists data. by rewrite lookup_insert_eq. }
      destruct (Hst x path n Hx) as (A & d & B & C). split; [done|]. exists d. split; [|done].
      rewrite lookup_insert_ne; [done|]. rewrite A. by intros ?%path_inj.
  - split; simpl; [by split|done| |done].
    intros x path n [[_ E]|[_ Hx]]%lookup_insert_Some; [done|]. by apply Hst.
Qed.

Lemma end_ok id r c ls :
  system_ok (MkSystem c ls) → ls !! id = Some (Stored r) →
  system_ok (MkSystem (get_end id r c) (delete id ls)).
Proof.
  intros [[H1 H2 H3 H4 H5] Hl Hst Hb] Hid. simpl in *.
  assert (id ∈ inflight c) as Hin by (rewrite <- Hl; by eapply elem_of_dom_2).
  set (c0 := c <| inflight := inflight c ∖ {[id]} |>).
  assert (cache_ok c0) as Hc0 by (split; simpl; try done; set_solver).
  assert (dom (delete id ls) = inflight c0) as Hd by (unfold c0; simpl; by rewrite dom_delete_L, Hl).
  destruct r as [[path n]|e].
  - destruct (Hst id path n Hid) as (-> & data & Hf & ->). simpl.
    change (path_of c id) with (path_of c0 id) in *.
    destruct (admit_ok id data c0 Hc0) as (m & Hev & Hm & Mo & Mf & Mr & Mb & Mi & _ & _ & _ & _ & Ok & Wb);
      [unfold c0; simpl; set_solver|done|].
    fold c0. set (c1 := cache_admit id (path_of c0 id) (Z.of_nat (length data)) c0) in *.
    destruct Hev as (E1 & E2 & E3 & _ & _ & E6 & E7).
    split; simpl; [done|by rewrite E3, Mi| |done].
    intros x path n [Hne Hx]%lookup_delete_Some.
    destruct (Hst x path n Hx) as (A & d & B & C).
    assert (path_of m x = path) as Hp by (unfold path_of; by rewrite Mr, A).
    split; [rewrite A; unfold path_of; by rewrite E1, Mr|]. exists d. split; [|done].
    rewrite <- Hp, E7; [by rewrite Hp, Mf|]. left. rewrite Mo, lookup_insert_ne by done.
    apply H5. rewrite <- Hl. by eapply elem_of_dom_2.
  - simpl. fold c0. split; simpl; [done|done| |done].
    intros x path n [Hne Hx]%lookup_delete_Some. by apply Hst.
Qed.

Lemma system_step_ok s s' : system_ok s → step s s' → system_ok s'.
Proof.
  intros Hok Hs. destruct Hs; [by eapply start_ok|by apply fetched_ok|by apply end_ok].
Qed.

Lemma system_steps_ok s s' : system_ok s → rtc step s s' → system_ok s'.
Proof. intros Hok Hs. induction Hs; [done|]. eauto using system_step_ok. Qed.

(** ** Start-up *)

Lemma adopt_files (c : Cache P) (fs : list DirEntry) (m : gmap string (list byte)) e :
  NoDup (deName <$> fs) → e ∈ fs → is_tmp (deName e) = false →
  foldl (λ m e, if is_tmp (deName e) then m else <[path_of c (deName e) := deData e]> m) m fs
    !! path_of c (deName e) = Some (deData e).
Proof.
  intros Hnd. revert m. induction fs as [|f fs IH] using rev_ind; intros m Hin Ht; [set_solver|].
  rewrite fmap_app in Hnd. apply NoDup_app in Hnd as (Hnd & Hd & _).
  rewrite foldl_snoc. apply elem_of_app in Hin as [Hin|Hin].
  - destruct (is_tmp (deName f)); [by apply IH|]. rewrite lookup_insert_ne; [by apply IH|].
    intros E%path_inj. apply (Hd (deName e)); [by apply list_elem_of_fmap_2|]. simpl. rewrite E. set_solver.
  - apply list_elem_of_singleton in Hin as <-. by rewrite Ht, lookup_insert_eq.
Qed.

Lemma adopt_fold_ok (objs : list DirEntry) (c : Cache P) :
  cache_ok c → inflight c = ∅ → NoDup (deName <$> objs) →
  (∀ e, e ∈ objs → objects c !! deName e = None ∧ files c !! path_of c (deName e) = Some (deData e)) →
  cache_ok (foldl adopt_one c objs) ∧ inflight (foldl adopt_one c objs) = ∅.
Proof.
  revert c. induction objs as [|o objs IH]; intros c Hok Hi Hnd Hfs; [done|].
  simpl. simpl in Hnd. apply NoDup_cons in Hnd as [Ho Hnd].
  destruct (Hfs o ltac:(set_solver)) as [Hn Hf]. destruct Hok as [H1 H2 H3 H4 H5].
  apply IH; [|done|done|].
  - destruct (pAdd_ok (deName o) _ H1) as [A B]. split; simpl; [done| | | |].
    + by rewrite B, H2, dom_insert_L.
    + rewrite total_insert, H3 by done. simpl. lia.
    + intros x e [[<- <-]|[Hne Hx]]%lookup_insert_Some; [|by apply H4].
      split_and!; [done..|]. by exists (deData o).
    + rewrite Hi. set_solver.
  - intros e He. destruct (Hfs e ltac:(set_solver)) as [A B]. split; [|done]. simpl.
    rewrite lookup_insert_ne; [done|]. intros E. apply Ho. rewrite E. by apply list_elem_of_fmap_2.
Qed.

Lemma cache_New_ok dir budget p0 ents c :
  pOk p0 → resident p0 = ∅ → NoDup (deName <$> ents) → New dir budget p0 ents = Ok c →
  system_ok (MkSystem c ∅).
Proof.
  intros Hp Hr Hnd. unfold New. destruct (budget <=? 0) eqn:E; [done|]. intros [= <-].
  set (c0 := MkCache dir budget 0 p0 ∅ ∅ 0 0 ∅). unfold adopt.
  set (fs := filter (λ e, deIsDir e = false) ents).
  set (fm := foldl _ ∅ fs). set (objs := merge_sort _ _).
  assert (cache_ok (c0 <| files := fm |>)) as Hc0
    by (split; simpl; [done|by rewrite Hr, dom_empty_L|done|by intros ???|set_solver]).
  assert (NoDup (deName <$> fs)) as Hfs.
  { eapply sublist_NoDup; [|apply fmap_sublist, sublist_filter]; done. }
  assert (objs ≡ₚ filter (λ e, is_tmp (deName e) = false) fs) as Hperm by apply merge_sort_Permutation.
  destruct (adopt_fold_ok objs (c0 <| files := fm |>) Hc0 eq_refl) as [Hok Hi].
  - rewrite Hperm. eapply sublist_NoDup; [|apply fmap_sublist, sublist_filter]; done.
  - intros e He. rewrite Hperm in He. apply list_elem_of_filter in He as [Ht He].
    split; [apply lookup_empty|]. by apply (adopt_files c0).
  - destruct (evictLocked_ok _ Hok) as (A & B & C). destruct B as (_ & _ & Bi & _).
    split; simpl; [exact A|by rewrite Bi, Hi, dom_empty_L|by intros ???|exact C].
Qed.
End system.
Arguments MkSystem {P} _ _.
Arguments cache {P} _.
Arguments leaders {P} _.

(** Opens a cache with no object and lets any number of readers run. *)
Definition reachable {P} `{EvictionPolicy P} (dir : string) (budget : Z) (p0 : P) (ents : list DirEntry) (s : System) : Prop :=
  ∃ c, New dir budget p0 ents = Ok c ∧ rtc step (MkSystem c ∅) s.

(** C13: the cache is sound under every interleaving of concurrent readers and
    for every eviction policy: it counts its bytes exactly, the policy ranks
    exactly the objects that are there, each object is on disk with the size
    that was counted, at most one call fetches a key, and the budget is
    exceeded by at most one object. *)
Theorem cache_sound {P} `{EvictionPolicy P} dir budget (p0 : P) ents s :
  pOk p0 → resident p0 = ∅ → NoDup (deName <$> ents) → reachable dir budget p0 ents s →
  cache_ok (cache s) ∧ dom (leaders s) = inflight (cache s) ∧ within_budget (cache s).
Proof.
  intros Hp Hr Hnd (c & Hn & Hs).
  pose proof (system_steps_ok _ _ (cache_New_ok dir budget p0 ents c Hp Hr Hnd Hn) Hs) as [A B _ D]. by split_and!.
Qed.

Definition two_files : list DirEntry :=
  [MkDirEntry "aa" (bytes_of_string "123") 5 false; MkDirEntry ".tmp-1" [] 6 false;
   MkDirEntry "bb" (bytes_of_string "1234") 4 false].

Definition opened : Cache lruPolicy :=
  match New "/c" 5 NewLRU two_files with Ok c => c | Err _ => MkCache "" 0 0 NewLRU ∅ ∅ 0 0 ∅ end.

Lemma cache_sound_witness :
  cache_ok (cache (MkSystem (get_start "k" opened).2 {[idFor "k" := Fetching]})) ∧
  dom (leaders (MkSystem (get_start "k" opened).2 {[idFor "k" := Fetching]}))
    = inflight (cache (MkSystem (get_start "k" opened).2 {[idFor "k" := Fetching]})) ∧
  within_budget (cache (MkSystem (get_start "k" opened).2 {[idFor "k" := Fetching]})).
Proof.
  apply (cache_sound "/c" 5 NewLRU two_files).
  - split; [apply NoDup_nil_2|reflexivity].
  - reflexivity.
  - apply (bool_decide_unpack _). vm_compute. exact I.
  - exists opened. split; [vm_compute; reflexivity|].
    apply rtc_once. exact (StepStart "k" opened ∅).
Defined.

(** ** LRU keeps what it has just admitted *)

Lemma last_ne_head (x : string) (l : list string) : NoDup (x :: l) → l ≠ [] → last (x :: l) ≠ Some x.
Proof.
  intros [Hx _]%NoDup_cons Hne. rewrite last_cons. destruct (last l) as [y|] eqn:E.
  - intros [= ->]. by apply last_Some_elem_of in E.
  - by apply last_None in E.
Qed.

Lemma lru_evict_keeps_head fuel (c : Cache lruPolicy) x l :
  cache_ok c → ll (policy c) = x :: l →
  (∃ l', ll (policy (evict_loop fuel c)) = x :: l') ∧ objects (evict_loop fuel c) !! x = objects c !! x.
Proof.
  revert c l. induction fuel as [|fuel IH]; intros c l Hok Hl; simpl; [by eauto|].
  pose proof (evict_turn_ok c Hok) as Ht. destruct (evict_turn c) as [c'|]; [|by eauto].
  destruct Ht as (Hok' & _ & _ & Hsz & id & Hv & Hin & Ho & Hp).
  pose proof (ca_policy _ Hok) as [Hnd Hels]. pose proof (ca_resident _ Hok) as Hres. simpl in Hv, Hres, Hels.
  rewrite Hl in *.
  assert (x ≠ id) as Hne.
  { intros <-. apply (last_ne_head x l Hnd); [|done]. intros ->.
    assert (size (dom (objects c)) = length [x]) as E by (rewrite <- Hres; by apply size_NoDup).
    rewrite size_dom in E. simpl in E. lia. }
  destruct (IH c' (list_del id l) Hok') as [A B].
  - rewrite Hp. simpl. unfold lru_Remove. rewrite Hels. rewrite bool_decide_true.
    + simpl. unfold list_del. rewrite Hl, filter_cons. rewrite decide_True by done. done.
    + rewrite Hres. exact Hin.
  - split; [done|]. rewrite B, Ho. by apply lookup_delete_ne.
Qed.

(** What the cache holds is what the store holds. *)
Definition coherent (ks : list string) (fetch : string → result (list byte)) (c : Cache lruPolicy) : Prop :=
  ∀ key e, key ∈ ks → objects c !! idFor key = Some e → ∃ data, files c !! ePath e = Some data ∧ fetch key = Ok data.

(** [Get] of the store itself. *)
Definition direct (fetch : string → result (list byte)) (key : string) : result (list byte) :=
  match fetch key with Ok data => Ok data | Err e => Err ("cache: fetch " +:+ key +:+ ": " +:+ e) end.

Fixpoint gets (fetch : string → result (list byte)) (keys : list string) (c : Cache lruPolicy)
    : list (option (result (list byte))) * Cache lruPolicy :=
  match keys with
  | [] => ([], c)
  | key :: keys => let '(r, c) := Get fetch key c in let '(rs, c) := gets fetch keys c in (r :: rs, c)
  end.

Lemma lru_admit_keeps id data (c : Cache lruPolicy) :
  cache_ok c → id ∉ inflight c → files c !! path_of c id = Some data →
  objects (cache_admit id (path_of c id) (Z.of_nat (length data)) c) !! id
    = Some (MkEntry id (path_of c id) (Z.of_nat (length data))).
Proof.
  intros Hok Hin Hf. destruct (admit_ok id data c Hok Hin Hf)
    as (m & _ & Hm & Mo & _ & _ & _ & _ & _ & _ & Mp & -> & _).
  assert (∃ l, ll (policy m) = id :: l) as [l Hl].
  { rewrite Mp. simpl. destruct (ca_policy _ Hok) as [_ Hels]. pose proof (ca_resident _ Hok) as Hres.
    simpl in Hres. unfold lru_Access, lru_Add. rewrite Hels, Hres.
    destruct (decide (is_Some (objects c !! id))) as [Hi|Hi].
    - rewrite !bool_decide_true by (done || by apply elem_of_dom). simpl. by eexists.
    - rewrite !bool_decide_false by (done || by rewrite elem_of_dom). simpl. by eexists. }
  unfold evictLocked. rewrite (proj2 (lru_evict_keeps_head _ m id l Hm Hl)), Mo. apply lookup_insert_eq.
Qed.

Lemma coherent_evicts ks fetch (c m : Cache lruPolicy) :
  cache_ok m → evicts c m → (∀ id e, objects c !! id = Some e → ePath e = path_of c id) →
  coherent ks fetch c → coherent ks fetch m.
Proof.
  intros Hok (E1 & _ & _ & _ & _ & Eo & Ef) Hp Hc key e Hk He.
  pose proof (lookup_weaken _ _ _ _ He Eo) as He0. destruct (Hc key e Hk He0) as (data & Hf & Hd).
  exists data. split; [|done]. rewrite (Hp _ _ He0) in *. rewrite Ef; [done|right; by eexists].
Qed.

Lemma Get_ok ks fetch key (c : Cache lruPolicy) :
  key ∈ ks → (∀ k, k ∈ ks → idFor k = idFor key → k = key) →
  cache_ok c → inflight c = ∅ → coherent ks fetch c →
  (Get fetch key c).1 = Some (direct fetch key) ∧ cache_ok (Get fetch key c).2 ∧
  inflight (Get fetch key c).2 = ∅ ∧ coherent ks fetch (Get fetch key c).2.
Proof.
  intros Hkey Hinj Hok Hi Hco. unfold Get, get_start. pose proof Hok as [H1 H2 H3 H4 H5].
  destruct (objects c !! idFor key) as [e|] eqn:He.
  - destruct (Hco key e Hkey He) as (data & Hf & Hd). unfold open. simpl. rewrite Hf. unfold direct. rewrite Hd.
    split_and!; [done| |done|exact Hco].
    destruct (pAccess_ok (idFor key) _ H1) as [A B]. rewrite H2 in B. by split.
  - rewrite bool_decide_false by (rewrite Hi; set_solver). unfold direct.
    destruct (fetch key) as [data|e] eqn:Hfetch; cbn [store_object].
    2:{ simpl. rewrite Hi. split_and!; [done| |set_solver|exact Hco]. split; simpl; set_solver. }
    set (id := idFor key) in *. unfold get_end.
    set (c0 := MkCache (cRoot c) (maxBytes c) (curBytes c) (policy c) (objects c)
      (({[id]} ∪ inflight c) ∖ {[id]}) (hits c) (misses c + 1) (<[path_of c id := data]> (files c))).
    match goal with |- context [cache_admit id ?p ?n ?x] =>
      change (cache_admit id p n x) with (cache_admit id (path_of c0 id) (Z.of_nat (length data)) c0) end.
    match goal with |- context [open ?p (cache_admit _ _ _ _)] => change p with (path_of c0 id) end.
    assert (files c0 = <[path_of c0 id := data]> (files c)) as Ef by done.
    assert (cache_ok c0) as Hc0.
    { split; simpl; [exact H1|exact H2|exact H3| |rewrite Hi; set_solver].
      intros x e Hx. destruct (H4 x e Hx) as (A & B & d & C & D). split_and!; [done..|]. exists d.
      split; [|done]. rewrite lookup_insert_ne; [done|]. rewrite B. intros E%(path_inj c0). congruence. }
    destruct (admit_ok id data c0 Hc0) as (m & Hev & Hm & Mo & Mf & Mr & Mb & Mi & _ & _ & _ & Ea & Ok' & Wb).
    { unfold c0. simpl. rewrite Hi. set_solver. }
    { rewrite Ef. apply lookup_insert_eq. }
    pose proof (lru_admit_keeps id data c0 Hc0) as Hkeep.
    set (c1 := cache_admit id (path_of c0 id) (Z.of_nat (length data)) c0) in *.
    assert (objects c1 !! id = Some (MkEntry id (path_of c0 id) (Z.of_nat (length data)))) as Hid.
    { apply Hkeep; [unfold c0; simpl; rewrite Hi; set_solver|rewrite Ef; apply lookup_insert_eq]. }
    destruct Hev as (E1 & E2 & E3 & E4 & E5 & E6 & E7).
    cbn [fst snd]. split_and!; [|exact Ok'|rewrite E3, Mi; unfold c0; simpl; rewrite Hi; set_solver|].
    + unfold open.
      assert (path_of m id = path_of c0 id) as Ep by (unfold path_of; by rewrite Mr).
      rewrite <- Ep, E7 by (right; by eexists). by rewrite Ep, Mf, Ef, lookup_insert_eq.
    + apply (coherent_evicts ks fetch m); [done|by repeat split| |].
      * intros x e Hx. by apply (ca_entry _ Hm).
      * intros k e Hks. rewrite Mo, Mf, Ef. intros [[Hk <-]|[Hne Hx]]%lookup_insert_Some.
        { exists data. simpl. rewrite lookup_insert_eq. split; [done|]. by rewrite (Hinj k Hks (eq_sym Hk)). }
        destruct (Hco k e Hks Hx) as (d & A & B). exists d. split; [|done]. rewrite lookup_insert_ne; [done|].
        rewrite (proj1 (proj2 (H4 _ _ Hx))). by intros ?%(path_inj c0).
Qed.

Lemma gets_ok ks fetch keys (c : Cache lruPolicy) :
  keys ⊆ ks → (∀ k k', k ∈ ks → k' ∈ ks → idFor k = idFor k' → k = k') →
  cache_ok c → inflight c = ∅ → coherent ks fetch c →
  (gets fetch keys c).1 = (λ key, Some (direct fetch key)) <$> keys.
Proof.
  intros Hsub Hinj. revert c Hsub. induction keys as [|key keys IH]; intros c Hsub Hok Hi Hco; [done|].
  assert (key ∈ ks) as Hkey by (apply Hsub; set_solver).
  destruct (Get_ok ks fetch key c) as (A & B & C & D); [done| |done..|].
  { intros k Hk. by apply Hinj. }
  simpl. destruct (Get fetch key c) as [r c'] eqn:E. simpl in *.
  specialize (IH c'). destruct (gets fetch keys c') as [rs c'']. simpl in *.
  rewrite A, IH; [done|set_solver|done..].
Qed.


Definition photos (key : string) : result (list byte) :=
  if bool_decide (key = "missing") then Err "no such key" else Ok (bytes_of_string key).

Definition requests : list string := ["a"; "bb"; "missing"; "a"; "ccccc"; "bb"].


(** Under S3-FIFO the cache can throw out the object it has just fetched:
    a probationary object that was read once more is promoted, the fresh one
    is the only candidate left, and the caller of [Get], who still needs the
    file, gets an error although the fetch succeeded. *)
Theorem s3fifo_evicts_the_object_just_fetched :
  let c := MkCache "/c" 3 0 NewS3FIFO ∅ ∅ 0 0 ∅ in
  let c1 := (Get photos "aa" c).2 in
  let c2 := (Get photos "aa" c1).2 in
  (Get photos "aa" c1).1 = Some (Ok (bytes_of_string "aa")) ∧
  photos "bb" = Ok (bytes_of_string "bb") ∧
  (Get photos "bb" c2).1 = Some (Err ("open " +:+ "/c/" +:+ idFor "bb")).
Proof. vm_compute. auto. Qed.

(** A hit can fail: [Get] opens the file after it has released the lock,
    and another reader's miss may evict the object in between. *)
Theorem hit_can_lose_its_file :
  let c := (Get photos "aa" (MkCache "/c" 3 0 NewLRU ∅ ∅ 0 0 ∅)).2 in
  let c1 := (get_start "aa" c).2 in
  let c2 := (Get photos "bb" c1).2 in
  (get_start "aa" c).1 = Hit ("/c/" +:+ idFor "aa") ∧
  is_ok (open ("/c/" +:+ idFor "aa") c1) = true ∧ is_ok (open ("/c/" +:+ idFor "aa") c2) = false.
Proof. vm_compute. auto. Qed.
