(* ===== verification/Admission.v ===== *)
(** * Admission control (internal/admission/controller.go)

    A bounded number of in-flight jobs, shared out among tenants by weight.
    An [int] that may wrap around, the product of cap and weight and the sum of
    the weights, is kept at its width; the counters are not. *)
From S2P Require Import Prelude GoLib.
Open Scope Z_scope.

Record Controller := MkController {
  MaxInFlight : Z; classes : gmap string Z; totalWeight : Z; inflight : gmap string Z;
  ctotal : Z; admitted : Z; rejected : Z }.
#[export] Instance eta_Controller : Eta Controller := λ c,
  MkController (MaxInFlight c) (classes c) (totalWeight c) (inflight c) (ctotal c) (admitted c) (rejected c).

Definition New (maxInFlight : Z) : Controller :=
  MkController (if maxInFlight <? 1 then 1 else maxInFlight) ∅ 0 ∅ 0 0 0.

Definition SetClass (tenant : string) (weight : Z) (c : Controller) : Controller :=
  let weight := if weight <? 1 then 1 else weight in
  let c := match classes c !! tenant with
           | Some old => c <| totalWeight := wrap64 (totalWeight c - old) |>
           | None => c
           end in
  c <| classes := <[tenant := weight]> (classes c) |> <| totalWeight := wrap64 (totalWeight c + weight) |>.

(** Go's division truncates. *)
Definition shareLocked (weight : Z) (c : Controller) : Z :=
  if totalWeight c =? 0 then MaxInFlight c
  else
    let s := Z.quot (wrap64 (MaxInFlight c * weight)) (totalWeight c) in
    if s <? 1 then 1 else s.

(** What a tenant holds; a missing key reads as zero. *)
Definition held (tenant : string) (c : Controller) : Z := default 0 (inflight c !! tenant).

Record Ticket := MkTicket { tkTenant : string; tkReleased : bool }.

Definition Admit (tenant : string) (c : Controller) : result Ticket * Controller :=
  match classes c !! tenant with
  | None => (Err ("tenant " +:+ fmt_q tenant +:+ " has no admission class: admission rejected"),
             c <| rejected := rejected c + 1 |>)
  | Some weight =>
      let share := shareLocked weight c in
      if held tenant c + 1 >? share then
        (Err ("tenant " +:+ fmt_q tenant +:+ " at concurrency share " +:+ fmt_d share +:+ ": admission rejected"),
         c <| rejected := rejected c + 1 |>)
      else if ctotal c + 1 >? MaxInFlight c then
        (Err ("global in-flight cap " +:+ fmt_d (MaxInFlight c) +:+ " reached: admission rejected"),
         c <| rejected := rejected c + 1 |>)
      else
        (Ok (MkTicket tenant false),
         c <| inflight := <[tenant := held tenant c + 1]> (inflight c) |> <| ctotal := ctotal c + 1 |>
           <| admitted := admitted c + 1 |>)
  end.

(** [Release]: the [sync.Once] is the ticket's flag. *)
Definition Release (t : Ticket) (c : Controller) : Ticket * Controller :=
  if tkReleased t then (t, c)
  else
    (MkTicket (tkTenant t) true,
     if held (tkTenant t) c >? 0
     then c <| inflight := <[tkTenant t := held (tkTenant t) c - 1]> (inflight c) |> <| ctotal := ctotal c - 1 |>
     else c).

Record Stats := MkStats {
  stMaxInFlight : Z; stInFlight : Z; stAdmitted : Z; stRejected : Z; stPerTenant : gmap string Z }.

Definition StatsOf (c : Controller) : Stats :=
  MkStats (MaxInFlight c) (ctotal c) (admitted c) (rejected c) (filter (λ kv, 0 < kv.2) (inflight c)).

(** ** Tickets and slots

    The tickets that were handed out, by identity: two holders of one ticket
    share its flag. *)
Record Desk := MkDesk { ctl : Controller; slips : gmap string Ticket }.

Inductive op := OpClass (tenant : string) (weight : Z) | OpAdmit (id tenant : string) | OpRelease (id : string).

Definition desk_step (o : op) (d : Desk) : Desk :=
  match o with
  | OpClass tenant w => MkDesk (SetClass tenant w (ctl d)) (slips d)
  | OpAdmit id tenant =>
      match Admit tenant (ctl d) with
      | (Ok t, c) => MkDesk c (<[id := t]> (slips d))
      | (Err _, c) => MkDesk c (slips d)
      end
  | OpRelease id =>
      match slips d !! id with
      | Some t => let '(t, c) := Release t (ctl d) in MkDesk c (<[id := t]> (slips d))
      | None => d
      end
  end.

(** Tickets that hold a slot: all of them, or one tenant's. *)
Definition live (t : Ticket) : Z := if tkReleased t then 0 else 1.
Definition live_of (tenant : string) (t : Ticket) : Z :=
  if bool_decide (tkTenant t = tenant) then live t else 0.

(** Every slot is held by a ticket that was not released, and conversely. *)
Record desk_ok (d : Desk) : Prop := {
  dk_total : ctotal (ctl d) = map_sum (λ _, live) (slips d);
  dk_held : ∀ tenant, held tenant (ctl d) = map_sum (λ _, live_of tenant) (slips d);
  dk_cap : 1 ≤ MaxInFlight (ctl d) ∧ ctotal (ctl d) ≤ MaxInFlight (ctl d);
}.

Definition fresh_slip (o : op) (d : Desk) : Prop :=
  match o with OpAdmit id _ => slips d !! id = None | _ => True end.

Lemma live_range t : 0 ≤ live t ≤ 1.
Proof. unfold live. case_match; lia. Qed.

Lemma live_of_range tenant t : 0 ≤ live_of tenant t ≤ live t.
Proof. unfold live_of. pose proof (live_range t). case_match; lia. Qed.

Lemma held_insert tenant tenant' n c :
  default 0 (<[tenant := n]> (inflight c) !! tenant') = if decide (tenant = tenant') then n else held tenant' c.
Proof. unfold held. rewrite lookup_insert. by case_decide. Qed.

Lemma map_sum_nonneg {A} (f : string → A → Z) m : (∀ k x, 0 ≤ f k x) → 0 ≤ map_sum f m.
Proof.
  intros Hf. induction m as [|k x m Hk IH] using map_ind; [by rewrite map_sum_empty|].
  rewrite map_sum_insert by done. specialize (Hf k x). lia.
Qed.

Lemma live_of_cases tenant t :
  live_of tenant t = if decide (tkTenant t = tenant) then live t else 0.
Proof. unfold live_of. case_decide; [by rewrite bool_decide_true|by rewrite bool_decide_false]. Qed.

Lemma desk_release_ok id t d :
  desk_ok d → slips d !! id = Some t → desk_ok (desk_step (OpRelease id) d).
Proof.
  intros [Ht Hh Hc] Hid. simpl. rewrite Hid. unfold Release.
  destruct (tkReleased t) eqn:Hr; [by rewrite insert_id|].
  assert (live t = 1) as Hl by (unfold live; by rewrite Hr).
  set (t' := MkTicket (tkTenant t) true). assert (live t' = 0) as Hl' by done.
  assert (∀ tenant, map_sum (λ _, live_of tenant) (<[id := t']> (slips d))
    = held tenant (ctl d) - if decide (tkTenant t = tenant) then 1 else 0) as Hupd.
  { intros tenant. rewrite (map_sum_update _ _ id t) by done. rewrite !live_of_cases, Hl, Hl', <- Hh. simpl.
    case_decide; lia. }
  assert (0 < held (tkTenant t) (ctl d)) as Hpos.
  { specialize (Hupd (tkTenant t)). rewrite decide_True in Hupd by done.
    pose proof (map_sum_nonneg (λ _, live_of (tkTenant t)) (<[id := t']> (slips d))) as H0.
    pose proof (λ t, live_of_range (tkTenant t)) as Hlr. specialize (H0 ltac:(intros; apply live_of_range)). lia. }
  destruct (held (tkTenant t) (ctl d) >? 0) eqn:E; bool_to_prop; [|lia].
  split; simpl.
  - rewrite (map_sum_update _ _ id t) by done. lia.
  - intros tenant. rewrite Hupd. unfold held at 1. simpl. rewrite held_insert. case_decide; [subst; lia|lia].
  - lia.
Qed.

Lemma Admit_cases tenant c :
  (∃ e, (Admit tenant c).1 = Err e ∧ (Admit tenant c).2 = c <| rejected := rejected c + 1 |>) ∨
  (∃ weight, classes c !! tenant = Some weight ∧ held tenant c + 1 ≤ shareLocked weight c ∧
    ctotal c + 1 ≤ MaxInFlight c ∧
    Admit tenant c = (Ok (MkTicket tenant false),
      c <| inflight := <[tenant := held tenant c + 1]> (inflight c) |> <| ctotal := ctotal c + 1 |>
        <| admitted := admitted c + 1 |>)).
Proof.
  unfold Admit. destruct (classes c !! tenant) as [w|]; [|left; by eexists].
  destruct (held tenant c + 1 >? shareLocked w c) eqn:E1; [left; by eexists|].
  destruct (ctotal c + 1 >? MaxInFlight c) eqn:E2; [left; by eexists|].
  bool_to_prop. right. exists w. split_and!; [done|lia|lia|done].
Qed.

Lemma desk_admit_ok id tenant d :
  desk_ok d → slips d !! id = None → desk_ok (desk_step (OpAdmit id tenant) d).
Proof.
  intros [Ht Hh Hc] Hid. simpl.
  destruct (Admit_cases tenant (ctl d)) as [(e & He & Hc')|(w & Hw & Hs & Hm & ->)].
  - destruct (Admit tenant (ctl d)) as [r c']. simpl in *. subst r c'. by split.
  - split; simpl.
    + rewrite map_sum_insert by done. assert (live (MkTicket tenant false) = 1) as -> by done. lia.
    + intros t. unfold held at 1. simpl. rewrite held_insert, map_sum_insert by done.
      rewrite live_of_cases, <- !Hh. simpl. unfold live. simpl. case_decide; [subst; lia|lia].
    + lia.
Qed.

Lemma desk_step_ok o d : desk_ok d → fresh_slip o d → desk_ok (desk_step o d).
Proof.
  intros Hd Hf. destruct o as [tenant w|id tenant|id].
  - destruct Hd as [Ht Hh Hc]. split; simpl; unfold SetClass, held; simpl; case_match; simpl; try done; apply Hh.
  - by apply desk_admit_ok.
  - simpl. destruct (slips d !! id) as [t|] eqn:E; [|done].
    pose proof (desk_release_ok id t d Hd E) as H. simpl in H. by rewrite E in H.
Qed.

(** ** The guaranteed slice

    Classes are configured first, then jobs come and go. *)

Inductive configured : Controller → Prop :=
| conf_new m : configured (New m)
| conf_class tenant w c : configured c → configured (SetClass tenant w c).

Inductive serving (c0 : Controller) : Desk → Prop :=
| serve_start : configured c0 → serving c0 (MkDesk c0 ∅)
| serve_admit id tenant d :
    serving c0 d → slips d !! id = None → serving c0 (desk_step (OpAdmit id tenant) d)
| serve_release id d : serving c0 d → serving c0 (desk_step (OpRelease id) d).

Definition weights (c : Controller) : Z := map_sum (λ _ w, w) (classes c).

Lemma configured_ok c : configured c →
  desk_ok (MkDesk c ∅) ∧ totalWeight c = wrap64 (weights c) ∧
  (∀ tenant w, classes c !! tenant = Some w → 1 ≤ w) ∧ ∀ tenant, held tenant c = 0.
Proof.
  induction 1 as [m|tenant w c _ (Hd & Hw & Hp & Hh)].
  - split_and!; [|by vm_compute| |].
    + split; simpl; [by vm_compute|intros; by vm_compute|]. case_match; bool_to_prop; lia.
    + intros tenant w. simpl. by rewrite lookup_empty.
    + done.
  - split_and!.
    + apply (desk_step_ok (OpClass tenant w) (MkDesk c ∅)); done.
    + unfold SetClass, weights in *. set (w' := if w <? 1 then 1 else w).
      destruct (classes c !! tenant) as [old|] eqn:E; simpl; rewrite Hw.
      * rewrite (map_sum_update _ _ tenant old) by done.
        set (x := map_sum _ _). rewrite wrap64_add.
        replace (wrap64 x - old + w') with (wrap64 x + (w' - old)) by lia.
        rewrite wrap64_add. f_equal. lia.
      * rewrite map_sum_insert by done. by rewrite wrap64_add, Z.add_comm.
    + intros t w'. unfold SetClass. simpl. intros Hl. lookup_cases Hl; [case_match; bool_to_prop; lia|].
      destruct (classes c !! tenant); by apply (Hp t).
    + intros t. unfold held, SetClass. destruct (classes c !! tenant); apply Hh.
Qed.

Lemma desk_classes o d : (∀ tenant w, o ≠ OpClass tenant w) →
  classes (ctl (desk_step o d)) = classes (ctl d) ∧ totalWeight (ctl (desk_step o d)) = totalWeight (ctl d) ∧
  MaxInFlight (ctl (desk_step o d)) = MaxInFlight (ctl d).
Proof.
  intros Ho. destruct o as [tenant w|id tenant|id]; [by edestruct Ho|..]; simpl.
  - destruct (Admit_cases tenant (ctl d)) as [(e & He & Hc')|(w & _ & _ & _ & ->)]; [|done].
    destruct (Admit tenant (ctl d)) as [r c']. simpl in *. by subst r c'.
  - destruct (slips d !! id) as [t|]; [|done]. unfold Release. destruct (tkReleased t); [done|]. simpl. by case_match.
Qed.

Lemma serving_configured c0 d : serving c0 d → configured c0.
Proof. by induction 1. Qed.

Lemma sum_nonneg_vals (m : gmap string Z) : (∀ t w, m !! t = Some w → 0 ≤ w) → 0 ≤ map_sum (λ _ w, w) m.
Proof.
  intros Hm. assert (map_sum (λ _ w, Z.max 0 w) m = map_sum (λ _ w, w) m) as <-.
  { apply map_sum_ext. intros k x Hx. specialize (Hm k x Hx). lia. }
  apply map_sum_nonneg. intros. lia.
Qed.

(** Nobody holds more than its share. *)
Definition within_shares (d : Desk) : Prop :=
  ∀ tenant, 0 ≤ held tenant (ctl d) ∧
    match classes (ctl d) !! tenant with
    | Some w => held tenant (ctl d) ≤ shareLocked w (ctl d)
    | None => held tenant (ctl d) = 0
    end.

Lemma share_pos w c : 1 ≤ MaxInFlight c → 1 ≤ shareLocked w c.
Proof. intros. unfold shareLocked. repeat case_match; bool_to_prop; lia. Qed.

Lemma share_same w c c' :
  totalWeight c' = totalWeight c → MaxInFlight c' = MaxInFlight c → shareLocked w c' = shareLocked w c.
Proof. unfold shareLocked. by intros -> ->. Qed.

Lemma release_held t tk c : held t (Release tk c).2 ≤ held t c.
Proof.
  unfold Release. destruct (tkReleased tk); simpl; [lia|].
  destruct (held (tkTenant tk) c >? 0) eqn:E; [|lia].
  unfold held at 1. simpl. rewrite held_insert. case_decide; subst; lia.
Qed.

Lemma serving_ok c0 d : serving c0 d →
  desk_ok d ∧ within_shares d ∧ classes (ctl d) = classes c0 ∧ totalWeight (ctl d) = totalWeight c0 ∧
  MaxInFlight (ctl d) = MaxInFlight c0.
Proof.
  induction 1 as [Hc|id tenant d _ (Hd & Hs & Hcl & Hw & Hm) Hf|id d _ (Hd & Hs & Hcl & Hw & Hm)].
  - destruct (configured_ok c0 Hc) as (Hd & _ & _ & Hh). split_and!; try done.
    intros tenant. simpl. rewrite Hh. split; [done|]. case_match; [|done].
    pose proof (dk_cap _ Hd) as [H1 _]. pose proof (share_pos z c0 H1). lia.
  - destruct (desk_classes (OpAdmit id tenant) d ltac:(done)) as (E1 & E2 & E3).
    split_and!; [by apply desk_admit_ok| |congruence..].
    intros t. rewrite E1. destruct (Hs t) as [H0 Ht]. simpl.
    destruct (Admit_cases tenant (ctl d)) as [(e & He & Hc')|(w & Hcw & Hsw & _ & Ha)].
    + destruct (Admit tenant (ctl d)) as [r c']. simpl in *. by subst r c'.
    + rewrite Ha. simpl. match goal with |- context [shareLocked _ ?c] => set (c' := c) end.
      assert (held t c' = if decide (tenant = t) then held tenant (ctl d) + 1 else held t (ctl d)) as ->
        by apply held_insert.
      case_decide as Hd'; [|done]. subst t. rewrite Hcw in *. split; [lia|exact Hsw].
  - destruct (desk_classes (OpRelease id) d ltac:(done)) as (E1 & E2 & E3).
    assert (desk_ok (desk_step (OpRelease id) d)) as Hd' by (by apply desk_step_ok).
    split_and!; [done| |congruence..].
    intros t. rewrite E1. destruct (Hs t) as [H0 Ht].
    assert (0 ≤ held t (ctl (desk_step (OpRelease id) d)) ≤ held t (ctl d)) as Hle.
    { split; [rewrite (dk_held _ Hd'); apply map_sum_nonneg; intros; apply live_of_range|].
      simpl. destruct (slips d !! id) as [tk|]; [|lia]. pose proof (release_held t tk (ctl d)) as Hr.
      by destruct (Release tk (ctl d)). }
    split; [lia|]. destruct (classes (ctl d) !! t) as [w|]; [|lia].
    rewrite (share_same w (ctl d)) by done. lia.
Qed.

(** Restricting a sum to the keys of another map. *)
Lemma quot_sum_le (m : gmap string Z) cap tot :
  0 < tot → 0 ≤ cap → (∀ t w, m !! t = Some w → 0 ≤ w) →
  map_sum (λ _ w, Z.quot (cap * w) tot) m * tot ≤ cap * map_sum (λ _ w, w) m.
Proof.
  intros Ht Hc. induction m as [|k w m Hk IH] using map_ind; intros Hw; [by rewrite !map_sum_empty; lia|].
  rewrite !map_sum_insert by done.
  assert (∀ t w, m !! t = Some w → 0 ≤ w) as Hw'.
  { intros t w' Hm. apply (Hw t). rewrite lookup_insert_ne; [done|]. intros ->. congruence. }
  specialize (IH Hw'). pose proof (Hw k w (lookup_insert_eq _ _ _)).
  rewrite Z.quot_div_nonneg by nia. pose proof (Z.mul_div_le (cap * w) tot Ht). nia.
Qed.

Lemma map_sum_point {A} (f g : string → A → Z) m k x :
  m !! k = Some x → (∀ j y, j ≠ k → g j y = f j y) → map_sum g m = map_sum f m - f k x + g k x.
Proof.
  intros Hk Hfg. rewrite (map_sum_delete f m k x), (map_sum_delete g m k x) by done.
  rewrite (map_sum_ext g f); [lia|]. intros j y [Hne _]%lookup_delete_Some. by apply Hfg.
Qed.

Definition held_sum (c : Controller) : Z := map_sum (λ tenant _, held tenant c) (classes c).

(** Slots are held by configured tenants only. *)
Lemma serving_total c0 d : serving c0 d → ctotal (ctl d) = held_sum (ctl d).
Proof.
  induction 1 as [Hc|id tenant d Hd IH Hf|id d Hd IH].
  - destruct (configured_ok c0 Hc) as (Hd & _ & _ & Hh). rewrite (dk_total _ Hd). simpl. rewrite map_sum_empty.
    unfold held_sum. rewrite (map_sum_ext _ (λ _ _, 0)) by (intros; apply Hh). clear.
    induction (classes c0) as [|k x m Hk IH] using map_ind; [done|]. by rewrite map_sum_insert, <- IH.
  - simpl. destruct (Admit_cases tenant (ctl d)) as [(e & He & Hc')|(w & Hw & _ & _ & ->)].
    + destruct (Admit tenant (ctl d)) as [r c']. simpl in *. by subst r c'.
    + unfold held_sum in *. simpl. rewrite IH. symmetry.
      rewrite (map_sum_point (λ t _, held t (ctl d)) _ _ tenant w) by (try done;
        intros j y Hne; unfold held; simpl; by rewrite held_insert, decide_False by congruence).
      unfold held at 3. simpl. rewrite held_insert, decide_True by done. lia.
  - destruct (serving_ok c0 d Hd) as (_ & Hs & _). simpl.
    destruct (slips d !! id) as [t|]; [|done]. unfold Release. destruct (tkReleased t); [done|]. simpl.
    destruct (held (tkTenant t) (ctl d) >? 0) eqn:E; [|done]. bool_to_prop.
    destruct (Hs (tkTenant t)) as [_ Hcl]. destruct (classes (ctl d) !! tkTenant t) as [w|] eqn:Hw; [|lia].
    unfold held_sum in *. simpl. rewrite IH. symmetry.
    rewrite (map_sum_point (λ t _, held t (ctl d)) _ _ (tkTenant t) w) by (try done;
      intros j y Hne; unfold held; simpl; by rewrite held_insert, decide_False by congruence).
    unfold held at 3. simpl. rewrite held_insert, decide_True by done. lia.
Qed.

(** ** What the controller guarantees *)


Definition demo_ops : list op :=
  [OpClass "a" 3; OpClass "b" 1; OpAdmit "t1" "a"; OpAdmit "t2" "b"; OpAdmit "t3" "b"; OpRelease "t1"; OpRelease "t1"].


(** *** Exact slices *)

Section slices.
Context (c0 : Controller).
Context (Hw : ∀ t w, classes c0 !! t = Some w → 1 ≤ w).

Lemma weight_le t w : classes c0 !! t = Some w → w ≤ weights c0.
Proof using Hw.
  intros Ht. unfold weights. rewrite (map_sum_delete _ _ t w) by done.
  pose proof (sum_nonneg_vals (delete t (classes c0))) as H0.
  specialize (H0 ltac:(intros t' w' [_ Ht']%lookup_delete_Some; specialize (Hw t' w' Ht'); lia)). lia.
Qed.

Context (Htw : totalWeight c0 = wrap64 (weights c0)).
Context (Hcap : 0 ≤ MaxInFlight c0) (Hov : MaxInFlight c0 * weights c0 ≤ max_int64) (HW : 0 < weights c0 ≤ max_int64).

Lemma exact_share t w : classes c0 !! t = Some w → weights c0 ≤ MaxInFlight c0 * w →
  shareLocked w c0 = Z.quot (MaxInFlight c0 * w) (weights c0).
Proof using Hw Htw Hcap Hov HW.
  intros Ht Hbig. pose proof (weight_le t w Ht) as Hle. specialize (Hw t w Ht).
  assert (totalWeight c0 = weights c0) as HTW by (rewrite Htw; apply wrap64_id; unfold max_int64 in *; lia).
  unfold shareLocked. rewrite HTW. destruct (Z.eqb_spec (weights c0) 0); [lia|].
  rewrite wrap64_id by (unfold max_int64 in *; nia).
  rewrite Z.quot_div_nonneg by nia. destruct (Z.ltb_spec ((MaxInFlight c0 * w) `div` weights c0) 1) as [Hlt1|]; [|done].
  pose proof (Z.div_le_lower_bound (MaxInFlight c0 * w) (weights c0) 1 (proj1 HW) ltac:(lia)). lia.
Qed.

(** Whoever is below its slice leaves the platform below its cap, if nobody
    else is above. *)
Lemma slice_room c tenant w :
  (∀ t w, classes c0 !! t = Some w → weights c0 ≤ MaxInFlight c0 * w) →
  (∀ t w, classes c0 !! t = Some w → held t c ≤ shareLocked w c0) →
  classes c0 !! tenant = Some w → held tenant c < shareLocked w c0 →
  map_sum (λ t _, held t c) (classes c0) < MaxInFlight c0.
Proof using Hw Htw Hcap Hov HW.
  intros Hbig Hsh Ht Hlt. set (f := λ (t : string) w', Z.quot (MaxInFlight c0 * w') (weights c0)).
  assert (map_sum f (classes c0) ≤ MaxInFlight c0) as Hsum.
  { pose proof (quot_sum_le (classes c0) (MaxInFlight c0) (weights c0) (proj1 HW) Hcap
      ltac:(intros t' w' Ht'; specialize (Hw t' w' Ht'); lia)) as Hq.
    fold f in Hq. change (map_sum (λ _ w, w) (classes c0)) with (weights c0) in Hq. nia. }
  set (g := λ t w', if decide (t = tenant) then held tenant c else f t w').
  assert (map_sum g (classes c0) = map_sum f (classes c0) - f tenant w + g tenant w) as Hg.
  { apply map_sum_point; [done|]. intros j y Hne. unfold g. by rewrite decide_False. }
  assert (map_sum (λ t _, held t c) (classes c0) ≤ map_sum g (classes c0)) as Hle.
  { apply map_sum_le. intros t w' Ht'. unfold g. case_decide; [by subst|].
    specialize (Hsh t w' Ht'). rewrite (exact_share t w') in Hsh by eauto. done. }
  unfold g at 2 in Hg. rewrite decide_True in Hg by done. rewrite (exact_share tenant w) in Hlt by eauto.
  change (f tenant w) with (Z.quot (MaxInFlight c0 * w) (weights c0)) in Hg. lia.
Qed.
End slices.

(** The guaranteed slice.  When the weights are configured before jobs are
    admitted, the products do not overflow and every slice comes to at least
    one slot, a tenant below its slice is admitted, whatever the others
    hold. *)
Theorem slice_is_guaranteed c0 d tenant w :
  serving c0 d → MaxInFlight c0 * weights c0 ≤ max_int64 →
  (∀ t w, classes c0 !! t = Some w → weights c0 ≤ MaxInFlight c0 * w) →
  classes c0 !! tenant = Some w → held tenant (ctl d) < shareLocked w c0 →
  is_ok (Admit tenant (ctl d)).1 = true.
Proof.
  intros Hs Hov Hbig Hw Hlt. destruct (configured_ok c0 (serving_configured c0 d Hs)) as (_ & Htw & Hpos & _).
  destruct (serving_ok c0 d Hs) as (Hd & Hsh & Hcl & Htwd & Hmx).
  pose proof (dk_cap _ Hd) as [Hm1 _]. rewrite Hmx in Hm1.
  assert (∀ t w, classes c0 !! t = Some w → 1 ≤ w) as Hpos' by (intros t w' Ht; specialize (Hpos t w' Ht); lia).
  pose proof (weight_le c0 Hpos' tenant w Hw). pose proof (Hpos' tenant w Hw).
  assert (weights c0 ≤ max_int64) as HWm by nia.
  assert (ctotal (ctl d) < MaxInFlight c0) as Hroom.
  { rewrite (serving_total c0 d Hs). unfold held_sum. rewrite Hcl.
    eapply (slice_room c0 Hpos' Htw); try done; try lia. intros t w' Ht. destruct (Hsh t) as [_ Hb].
    rewrite Hcl, Ht in Hb. by rewrite (share_same w' c0 (ctl d)) in Hb by done. }
  unfold Admit. rewrite Hcl, Hw, (share_same w c0 (ctl d)), Hmx by done.
  destruct (held tenant (ctl d) + 1 >? shareLocked w c0) eqn:E1; bool_to_prop; [lia|].
  destruct (ctotal (ctl d) + 1 >? MaxInFlight c0) eqn:E2; bool_to_prop; [lia|done].
Qed.

Definition two_classes : Controller := SetClass "b" 1 (SetClass "a" 3 (New 8)).
Definition busy_desk : Desk := desk_step (OpAdmit "t2" "b") (desk_step (OpAdmit "t1" "b") (MkDesk two_classes ∅)).

Lemma slice_is_guaranteed_witness : is_ok (Admit "a" (ctl busy_desk)).1 = true.
Proof.
  apply (slice_is_guaranteed two_classes busy_desk "a" 3).
  - apply serve_admit; [apply serve_admit; [apply serve_start|by vm_compute]|by vm_compute].
    apply conf_class, conf_class, conf_new.
  - by vm_compute.
  - intros t w Ht. apply elem_of_map_to_list, list_elem_of_In in Ht. vm_compute in Ht.
    destruct Ht as [[= <- <-]|[[= <- <-]|[]]]; by vm_compute.
  - by vm_compute.
  - by vm_compute.
Defined.

(** A slice below one slot is rounded up to one, so the slices can add up
    to more than the cap, and a tenant that holds nothing can be refused its
    guaranteed slot. *)
Theorem rounded_slice_not_guaranteed :
  let c := SetClass "c" 1 (SetClass "b" 1 (SetClass "a" 1 (New 2))) in
  let d := desk_step (OpAdmit "t2" "b") (desk_step (OpAdmit "t1" "a") (MkDesk c ∅)) in
  shareLocked 1 (ctl d) = 1 ∧ held "c" (ctl d) = 0 ∧ is_ok (Admit "c" (ctl d)).1 = false.
Proof. by vm_compute. Qed.
