(* ===== verification/Coordinator.v ===== *)
(** * The coordinator (internal/coordinator/coordinator.go, scheduler/metrics.go)

    Membership, scheduler, write-ahead log and admission control wired
    together.  A scheduler call runs under the scheduler's lock with its two
    callbacks: the completion hook releases admission tickets, and every
    persisted record is appended to the log. *)
From S2P Require Import Prelude GoLib Storage Ring Membership Job Keys Scheduler Commit Wal Admission.
Open Scope Z_scope.

(** [encoding/json] on the scheduler's state. *)
Class StateCodec := {
  marshal : schedulerState → list byte;
  unmarshal : list byte → result schedulerState;
  unmarshal_marshal st : unmarshal (marshal st) = Ok st;
}.

(** [world] is what the commit adapters act on; [disk] is the directory of
    the log. *)
Record Coordinator (W : Type) := MkCoord {
  membership : Membership; sched : Scheduler; wal : option WAL; disk : Disk;
  checkpointInterval : Z; admission : option Controller; tickets : gmap string Ticket;
  attached : Attached; world : W }.
Arguments MkCoord {W} _ _ _ _ _ _ _ _ _.
Arguments membership {W} _.
Arguments sched {W} _.
Arguments wal {W} _.
Arguments disk {W} _.
Arguments checkpointInterval {W} _.
Arguments admission {W} _.
Arguments tickets {W} _.
Arguments attached {W} _.
Arguments world {W} _.
#[export] Instance eta_Coordinator W : Eta (Coordinator W) := λ c,
  MkCoord (membership c) (sched c) (wal c) (disk c) (checkpointInterval c) (admission c) (tickets c)
    (attached c) (world c).

(** The part of the configuration that the coordinator reads. *)
Record CoordConfig := MkCoordConfig {
  VnodesPerNode : Z; SuspectTimeout : Z; DeadTimeout : Z; TaskMaxRetries : Z; LeaseChunk : Z }.

Section coordinator.
Context {W : Type} `{StateCodec}.

Definition New (cfg : CoordConfig) (d : Disk) (w : W) : Coordinator W :=
  let s := Scheduler.New (TaskMaxRetries cfg) in
  MkCoord (NewMembership (NewRing (VnodesPerNode cfg)) (SuspectTimeout cfg) (DeadTimeout cfg))
    (if LeaseChunk cfg >? 0 then SetLeaseChunk (LeaseChunk cfg) s else s)
    None d 0 None ∅ (MkAttached false false false) w.

(** ** Persistence *)

Definition EnablePersistence (interval : Z) (c : Coordinator W) : result unit * Coordinator W :=
  match OpenWAL (disk c) with
  | (Err e, d) => (Err ("coordinator: open wal: " +:+ e), c <| disk := d |>)
  | (Ok (w, rec), d) =>
      let c := c <| disk := d |> in
      match Restore unmarshal (rcSnapshot rec) (rcRecords rec) (sched c) with
      | Err e => (Err ("coordinator: restore scheduler: " +:+ e), c)
      | Ok s =>
          (Ok tt, c <| sched := AttachStore s |> <| wal := Some w |>
                    <| checkpointInterval := if interval <=? 0 then 30000000000 else interval |>)
      end
  end.

(** [checkpoint]'s two halves; other calls may come in between.  [fail] is
    the step of the log's checkpoint that fails, if any. *)
Definition checkpoint_snapshot (c : Coordinator W) : list byte := marshal (Snapshot (sched c)).

Definition checkpoint_write (fail : option nat) (snap : list byte) (c : Coordinator W)
    : result unit * Coordinator W :=
  match wal c with
  | None => (Err "nil pointer dereference", c)
  | Some w => let '(r, d) := Wal.Checkpoint fail snap w (disk c) in (r, c <| disk := d |>)
  end.

Definition checkpoint (fail : option nat) (c : Coordinator W) : result unit * Coordinator W :=
  checkpoint_write fail (checkpoint_snapshot c) c.

(** [Stop]'s last checkpoint; an error is logged. *)
Definition Stop (fail : option nat) (c : Coordinator W) : Coordinator W :=
  match wal c with None => c | Some _ => (checkpoint fail c).2 <| wal := None |> end.

(** ** Commit adapters *)

Definition EnableResultCommit (c : Coordinator W) : Coordinator W :=
  c <| attached := AttachCommitter (attached c) |>.
Definition EnableRaftCommit (c : Coordinator W) : Coordinator W :=
  c <| attached := AttachCommitDecider (attached c) |>.
Definition EnableSideEffects (c : Coordinator W) : Coordinator W :=
  c <| attached := AttachSideEffect (attached c) |>.

(** ** Admission *)

Definition EnableAdmission (ctl : Controller) (c : Coordinator W) : Coordinator W :=
  c <| admission := Some ctl |> <| tickets := ∅ |> <| sched := SetJobDoneHook (sched c) |>.

Definition trackTicket (jobID : string) (t : Ticket) (c : Coordinator W) : Coordinator W :=
  c <| tickets := <[jobID := t]> (tickets c) |>.

Definition releaseTicket (c : Coordinator W) (jobID : string) : Coordinator W :=
  match tickets c !! jobID with
  | None => c
  | Some t =>
      let c := c <| tickets := delete jobID (tickets c) |> in
      match admission c with
      | Some ctl => c <| admission := Some (Release t ctl).2 |>
      | None => c
      end
  end.

(** ** Scheduler calls *)

(** The hook calls and records that a call added. *)
Definition new_calls (s s' : Scheduler) : list string :=
  match onJobDone s, onJobDone s' with Some l, Some l' => drop (length l) l' | _, _ => [] end.
Definition new_records (s s' : Scheduler) : list schedulerState :=
  match store s, store s' with Some l, Some l' => drop (length l) l' | _, _ => [] end.

(** [RecordStore.Append] as the log does it; [io] says how the disk behaves,
    and an error is only logged. *)
Definition append_record (io : append_io) (c : Coordinator W) (st : schedulerState) : Coordinator W :=
  match wal c with
  | None => c
  | Some w => let '(_, w, d) := Wal.Append io (marshal st) w (disk c) in c <| wal := Some w |> <| disk := d |>
  end.

(** The scheduler went from [sched c] to [s']. *)
Definition locked (io : append_io) (s' : Scheduler) (c : Coordinator W) : Coordinator W :=
  let calls := new_calls (sched c) s' in
  let recs := new_records (sched c) s' in
  let c := foldl releaseTicket c calls in
  let c := foldl (append_record io) c recs in
  c <| sched := s' |>.

(** ** Background loops *)

Definition tick (now : Z) (order : list string) (c : Coordinator W) : Coordinator W :=
  c <| membership := Tick now order (membership c) |>.

(** One turn of [failureEventLoop]. *)
Definition failure_event (io : append_io) (now : Z) (order : list string) (c : Coordinator W)
    : option (Coordinator W) :=
  '(ev, m) ← next_event (membership c);
  let c := c <| membership := m |> in
  Some (if bool_decide (NewState ev = NodeDead)
        then locked io (RebalanceWorker now order (evNodeID ev) (sched c)) c else c).
End coordinator.

(** ** Task metrics (scheduler/metrics.go)

    The counters; the latency figures are in Latency.v. *)
Record Metrics := MkTaskMetrics {
  TasksTotal : nat; mPending : nat; mAssigned : nat; mRunning : nat; mDone : nat; mFailed : nat; Rebalances : Z }.

Definition MetricsOf (s : Scheduler) : Metrics :=
  let ts := Tasks s in
  let count st := length (filter (λ t, tStatus t = st) ts) in
  MkTaskMetrics (size (tasks s)) (count TaskPending) (count TaskAssigned) (count TaskRunning)
    (count TaskDone) (count TaskFailed) (foldr (λ t acc, tRetries t + acc) 0 ts).
