(* ===== verification/CoordThms.v ===== *)
(** * What the wired coordinator guarantees

    Durability end to end, and the accounting of admission slots. *)
From S2P Require Import Prelude GoLib Storage Ring Membership Wal Admission Job Keys Scheduler SchedInv Tiling SchedSteps.
From S2P Require Import Accounting Persist SchedThms Consensus Commit Coordinator.
Open Scope Z_scope.

(** ** Calls that are logged *)

(** Between [s] and [s'] nothing changed, or the state of [s'] was appended
    to the record store. *)
Definition logged (s s' : Scheduler) : Prop :=
  ∀ l, store s = Some l →
    (store s' = Some l ∧ same_state s s') ∨ store s' = Some (l ++ [encodeStateLocked s']).

Lemma logged_persist s s' : store s' = store s → logged s (persistLocked s').
Proof. intros E l Hl. right. unfold persistLocked. rewrite E, Hl. done. Qed.

Lemma logged_same s s' : store s' = store s → same_state s s' → logged s s'.
Proof. intros E Hs l Hl. left. by rewrite E. Qed.

(** A rebalance is logged when it requeues something or finds nothing. *)
Definition rebalance_logged (w : string) (s : Scheduler) : Prop :=
  (∃ id t, tasks s !! id = Some t ∧ tWorkerID t = w ∧ in_flight t = true ∧ tRetries t < tMaxRetries t) ∨
  (∀ id t, tasks s !! id = Some t → tWorkerID t = w → in_flight t = false).

Definition call_logged (o : op) (s : Scheduler) : Prop :=
  match o with
  | OpRebalance _ _ w => rebalance_logged w s
  | OpAttach => False
  | _ => True
  end.

Lemma rebalance_step_store now w acc id : store (rebalance_step now w acc id).2 = store acc.2.
Proof.
  destruct acc as [k x]. simpl. destruct (tasks x !! id); [|done].
  repeat case_match; simpl; by rewrite ?store_update.
Qed.

Lemma rebalance_idle now w order s :
  (∀ id t, tasks s !! id = Some t → tWorkerID t = w → in_flight t = false) →
  foldl (rebalance_step now w) (0%nat, s) order = (0%nat, s).
Proof.
  intros Hi. apply (foldl_inv (λ acc, acc = (0%nat, s))); [done|]. intros acc id _ ->. simpl.
  destruct (tasks s !! id) as [t|] eqn:Ht; [|done]. case_bool_decide as Hw; [done|].
  rewrite (Hi id t Ht) by (destruct (decide (tWorkerID t = w)); tauto). done.
Qed.

Lemma rebalance_busy now w order s id t :
  tasks s !! id = Some t → tWorkerID t = w → in_flight t = true → tRetries t < tMaxRetries t → id ∈ order →
  (0 < (foldl (rebalance_step now w) (0%nat, s) order).1)%nat.
Proof.
  intros Ht Hw Hf Hr Hin.
  assert (∀ acc x, (acc.1 <= (rebalance_step now w acc x).1)%nat) as Hmono.
  { intros [k y] x. simpl. destruct (tasks y !! x); [|done]. repeat case_match; simpl; lia. }
  pose proof (foldl_ind (λ (acc : nat * Scheduler) pre, (0 < acc.1)%nat ∨ (id ∉ pre ∧ tasks acc.2 !! id = Some t))
    (rebalance_step now w) (0%nat, s) order) as Hind.
  destruct Hind as [?|[? _]]; [right; set_solver| |done|done].
  intros [k y] pre x Hacc _. destruct Hacc as [Hk|[Hpre Hy]].
  { left. specialize (Hmono (k, y) x). simpl in *. lia. }
  simpl in Hy. destruct (decide (x = id)) as [->|Hne].
  - left. simpl. rewrite Hy, bool_decide_false by tauto. rewrite Hf. simpl.
    rewrite (proj2 (Z.ltb_lt _ _)) by done. simpl. lia.
  - right. split; [set_solver|]. simpl. destruct (tasks y !! x); [|done].
    repeat case_match; simpl; rewrite ?tasks_update; simpl; rewrite ?lookup_insert_ne by done; done.
Qed.

Lemma run_op_logged {R} `{ShardOwner R} (r : R) o s :
  sched_ok s → valid_op o s → call_logged o s → logged s (run_op r o s).
Proof.
  intros Hs Hv Hl. destruct o; simpl in *.
  - unfold Submit. cbn [snd]. apply logged_persist. simpl.
    generalize (zip (submit_shards req) tids). intros ps.
    match goal with |- store (foldl ?f ?s0 ps) = _ => cut (store (foldl f s0 ps) = store s0); [by intros ->|] end.
    apply (foldl_inv (λ x, store x = store s)); [done|]. by intros x [sh tid] _ <-.
  - destruct (PollTasks_outcome r now order newID workerID s Hs) as (a & _ & Hout).
    destruct Hout; [| |by apply logged_same]; apply logged_persist; by rewrite ?store_bump.
  - unfold StartTask. case_match; [by apply logged_persist|by apply logged_same].
  - unfold report_finish. repeat (case_match; simpl); try (by apply logged_same);
      apply logged_persist; by rewrite ?store_update.
  - unfold RenewLease. case_match; [by apply logged_persist|by apply logged_same].
  - unfold RebalanceWorker. destruct Hl as [(id & t & Ht & Hw & Hf & Hr)|Hidle].
    + pose proof (rebalance_busy now workerID order s id t Ht Hw Hf Hr) as Hb.
      pose proof (store_fold (rebalance_step now workerID) (0%nat, s) order (rebalance_step_store now workerID)) as Hst.
      destruct (foldl _ _ order) as [n s']. simpl in *.
      rewrite (proj2 (Nat.ltb_lt _ _)) by (apply Hb, Hv; by eexists). by apply logged_persist.
    + rewrite rebalance_idle by done. by apply logged_same.
  - unfold DrainPending. set (m := if n >? _ then _ else n).
    destruct (m =? 0); [by apply logged_same|]. destruct (m <? 0); [by apply logged_same|].
    match goal with |- context [foldl ?f (?o, ?s0) ?ids] =>
      pose proof (store_fold f (o, s0) ids) as Hst end.
    destruct (foldl _ _ _) as [out s']. cbn [snd] in *. apply logged_persist, Hst.
    intros [o x] id. simpl. destruct (tasks x !! id); [|done].
    case_bool_decide; [done|]. destruct (jobs x !! _); [|done]. by case_match.
  - unfold SetLeaseChunk. case_match; by apply logged_same.
  - by apply logged_same.
  - done.
Qed.

(** ** Durability *)

Section durability.
Context {W : Type} `{StateCodec}.
Implicit Types c : Coordinator W.

(** What a recovered snapshot and records restore to is the state of [s]. *)
Definition recovers (snap : option (list byte)) (recs : list (list byte)) (s : Scheduler) : Prop :=
  match (match last recs with Some b => Some b | None => snap end) with
  | None => jobs s = ∅ ∧ tasks s = ∅ ∧ pendingQ s = []
  | Some b => ∃ st, b = marshal st ∧ record_of s st
  end.

Record coord_durable c : Prop := {
  cd_sched : sched_ok (sched c);
  cd_store : is_Some (store (sched c));
  cd_log : ∃ w snap recs, wal c = Some w ∧ wal_run w (disk c) snap recs ∧ recovers snap recs (sched c);
}.

(** The next record of the log has room for [p]. *)
Definition fits c (p : list byte) : Prop := ∀ w, wal c = Some w → entry_ok (append_entry w p).

Lemma release_frame c jid :
  wal (releaseTicket c jid) = wal c ∧ disk (releaseTicket c jid) = disk c ∧
  membership (releaseTicket c jid) = membership c ∧ sched (releaseTicket c jid) = sched c.
Proof. unfold releaseTicket. destruct (tickets c !! jid); [|done]. by destruct (admission _) eqn:E. Qed.

Lemma releases_frame c l :
  wal (foldl releaseTicket c l) = wal c ∧ disk (foldl releaseTicket c l) = disk c ∧
  membership (foldl releaseTicket c l) = membership c ∧ sched (foldl releaseTicket c l) = sched c.
Proof.
  apply (foldl_inv (λ x, wal x = wal c ∧ disk x = disk c ∧ membership x = membership c ∧ sched x = sched c));
    [done|]. intros x jid _ (<- & <- & <- & <-). apply release_frame.
Qed.

Lemma record_of_same s s' st : same_state s s' → record_of s st → record_of s' st.
Proof. intros (Ej & Et & Eq) (H1 & H2 & H3). split_and!; by rewrite ?Ej, ?Et, ?Eq. Qed.

Lemma recovers_same snap recs s s' : same_state s s' → recovers snap recs s → recovers snap recs s'.
Proof.
  intros Hs. unfold recovers. case_match.
  - intros (st & -> & Hr). exists st. split; [done|]. by apply (record_of_same s).
  - destruct Hs as (-> & -> & ->). done.
Qed.

Lemma recovers_last snap recs s : recovers snap (recs ++ [marshal (encodeStateLocked s)]) s.
Proof. unfold recovers. rewrite last_snoc. eexists. split; [done|apply encode_record]. Qed.

Lemma recovers_snap s : recovers (Some (marshal (encodeStateLocked s))) [] s.
Proof. unfold recovers. simpl. eexists. split; [done|apply encode_record]. Qed.

Lemma new_records_logged s s' l :
  store s = Some l → logged s s' →
  (new_records s s' = [] ∧ same_state s s' ∧ store s' = Some l) ∨
  (new_records s s' = [encodeStateLocked s'] ∧ store s' = Some (l ++ [encodeStateLocked s'])).
Proof.
  intros Hl Hlog. unfold new_records. rewrite Hl. destruct (Hlog l Hl) as [[E Hs]|E]; rewrite E.
  - left. split_and!; [by apply drop_ge|done|done].
  - right. split; [by rewrite drop_app_length|done].
Qed.

(** The log after a call, as far as it matters here. *)
Lemma locked_durable s' c :
  coord_durable c → sched_ok s' → logged (sched c) s' → fits c (marshal (encodeStateLocked s')) →
  coord_durable (locked AOk s' c).
Proof.
  intros [Hs [l Hl] (w & snap & recs & Hw & Hr & Hrec)] Hs' Hlog Hfit. unfold locked.
  destruct (releases_frame c (new_calls (sched c) s')) as (F1 & F2 & _ & _).
  destruct (new_records_logged (sched c) s' l Hl Hlog) as [(-> & Hsame & Hst)|(-> & Hst)]; simpl.
  - split; simpl; [done|by eexists|]. exists w, snap, recs. rewrite F1, F2.
    split_and!; [done..|]. by apply (recovers_same snap recs (sched c)).
  - split; simpl; [done|by eexists|]. unfold append_record. rewrite F1, F2, Hw. simpl.
    eexists _, snap, _. split_and!; [done| |apply recovers_last].
    eapply wr_append; [exact Hr|by apply Hfit|reflexivity].
Qed.

Lemma checkpoint_durable c :
  coord_durable c → (∀ w, wal c = Some w → entry_ok (wSeq w, checkpoint_snapshot c)) →
  coord_durable (checkpoint None c).2.
Proof.
  intros [Hs Hl (w & snap & recs & Hw & Hr & Hrec)] Hfit.
  unfold checkpoint, checkpoint_write. rewrite Hw.
  split; simpl; [done|done|]. exists w, (Some (checkpoint_snapshot c)), [].
  split_and!; [done| |apply recovers_snap].
  eapply wr_checkpoint; [exact Hr|by apply Hfit|reflexivity].
Qed.

(** Starting a coordinator on a log that opens. *)
Lemma enable_recovers cfg interval d w d' snap recs s (wo : W) :
  OpenWAL d = (Ok (w, MkRecovery snap recs), d') → wal_run w d' snap recs →
  recovers snap recs s → sched_ok s → LeaseChunk cfg ≤ items_max →
  ∃ c', EnablePersistence interval (Coordinator.New cfg d wo) = (Ok tt, c') ∧
    same_state s (sched c') ∧ coord_durable c'.
Proof.
  intros Ho Hr Hrec Hs Hch. set (s0 := sched (Coordinator.New cfg d wo)).
  assert (store s0 = None ∧ 0 < leaseChunk s0 ≤ items_max ∧ jobs s0 = ∅ ∧ tasks s0 = ∅ ∧ pendingQ s0 = [])
    as (Hst & Hlc & J0 & T0 & Q0).
  { unfold s0, Coordinator.New, SetLeaseChunk. simpl. destruct (LeaseChunk cfg >? 0) eqn:E; bool_to_prop.
    - destruct (LeaseChunk cfg <=? 0) eqn:E'; bool_to_prop; [lia|]. simpl. repeat split; lia.
    - simpl. by repeat split. }
  assert (∃ s1, Restore unmarshal snap recs s0 = Ok s1 ∧ same_state s s1 ∧ 0 < leaseChunk s1 ≤ items_max)
    as (s1 & Hres & Hsame & Hlc1).
  { unfold recovers in Hrec. unfold Restore. destruct (match last recs with Some b => Some b | None => snap end) as [b|].
    - destruct Hrec as (st & -> & Hro). rewrite unmarshal_marshal. eexists. split; [done|].
      split; [by apply install_record|done].
    - destruct Hrec as (Ej & Et & Eq). eexists. split; [done|]. split; [|done].
      unfold same_state. by rewrite Ej, Et, Eq, J0, T0, Q0. }
  unfold EnablePersistence. change (disk (Coordinator.New cfg d wo)) with d. rewrite Ho. cbn [rcSnapshot rcRecords].
  match goal with |- context [Restore unmarshal snap recs ?x] => change x with s0 end. rewrite Hres.
  eexists. split; [reflexivity|]. split; [exact Hsame|].
  split; simpl; [by apply (sched_ok_state s)|by eexists|].
  exists w, snap, recs. split_and!; [done|done|]. by apply (recovers_same snap recs s).
Qed.

(** Starting a coordinator on what a crash left. *)
Lemma restart_recovers cfg interval c d (wo : W) :
  coord_durable c → LeaseChunk cfg ≤ items_max → disk_crash (disk c) d →
  ∃ c', EnablePersistence interval (Coordinator.New cfg d wo) = (Ok tt, c') ∧
    same_state (sched c) (sched c') ∧ coord_durable c'.
Proof.
  intros [Hs _ (w & snap & recs & _ & Hr & Hrec)] Hch Hcr.
  destruct (wal_crash_recovers w (disk c) d snap recs (wal_run_ok _ _ _ _ Hr) Hcr) as (w' & d' & Ho & _).
  apply (enable_recovers cfg interval d w' d' snap recs); try done. by eapply wr_crash.
Qed.

(** A crash in the middle of the append of a call's record. *)
Lemma restart_torn_call cfg interval io s' c d (wo : W) :
  coord_durable c → sched_ok s' → logged (sched c) s' → fits c (marshal (encodeStateLocked s')) →
  LeaseChunk cfg ≤ items_max → disk_crash (disk (locked io s' c)) d →
  ∃ c', EnablePersistence interval (Coordinator.New cfg d wo) = (Ok tt, c') ∧ coord_durable c' ∧
    (same_state (sched c) (sched c') ∨ same_state s' (sched c')).
Proof.
  intros Hd Hs' Hlog Hfit Hch Hcr. pose proof Hd as [Hs [l Hl] (w & snap & recs & Hw & Hr & Hrec)].
  unfold locked in Hcr. destruct (releases_frame c (new_calls (sched c) s')) as (F1 & F2 & _ & _).
  destruct (new_records_logged (sched c) s' l Hl Hlog) as [(Hn & Hsame & Hst)|(Hn & Hst)]; rewrite Hn in Hcr; simpl in Hcr.
  - rewrite F2 in Hcr. destruct (restart_recovers cfg interval c d wo Hd Hch Hcr) as (c' & He & Hsm & Hd').
    exists c'. split_and!; [done|done|by left].
  - unfold append_record in Hcr. rewrite F1, F2, Hw in Hcr.
    destruct (Wal.Append io (marshal (encodeStateLocked s')) w (disk c)) as [[r w1] d1] eqn:Ha. simpl in Hcr.
    destruct (append_crash io _ w (disk c) d1 d r w1 snap recs (wal_run_ok _ _ _ _ Hr) (Hfit w Hw) Ha Hcr)
      as (w' & d' & recs' & Ho & _ & Hor).
    pose proof (wr_crash_append _ _ _ _ io _ _ _ _ _ _ _ _ Hr (Hfit w Hw) Ha Hcr Ho) as Hr'. simpl in Hr'.
    destruct Hor as [->|[_ ->]].
    + destruct (enable_recovers cfg interval d w' d' snap _ s' wo Ho Hr' (recovers_last _ _ _) Hs' Hch)
        as (c' & He & Hsm & Hd'). exists c'. split_and!; [done|done|by right].
    + destruct (enable_recovers cfg interval d w' d' snap _ (sched c) wo Ho Hr' Hrec Hs Hch)
        as (c' & He & Hsm & Hd'). exists c'. split_and!; [done|done|by left].
Qed.

(** A crash in the middle of a checkpoint. *)
Lemma restart_torn_checkpoint cfg interval k c d (wo : W) :
  coord_durable c → (∀ w, wal c = Some w → entry_ok (wSeq w, checkpoint_snapshot c)) →
  LeaseChunk cfg ≤ items_max → disk_crash (disk (checkpoint (Some k) c).2) d →
  ∃ c', EnablePersistence interval (Coordinator.New cfg d wo) = (Ok tt, c') ∧ coord_durable c' ∧
    same_state (sched c) (sched c').
Proof.
  intros Hd Hfit Hch Hcr. pose proof Hd as [Hs [l Hl] (w & snap & recs & Hw & Hr & Hrec)].
  unfold checkpoint, checkpoint_write in Hcr. rewrite Hw in Hcr. unfold Wal.Checkpoint in Hcr. simpl in Hcr.
  fold (checkpoint_at k (checkpoint_snapshot c) w (disk c)) in Hcr.
  destruct (checkpoint_crash k _ w (disk c) d snap recs (wal_run_ok _ _ _ _ Hr) (Hfit w Hw) Hcr)
    as (w' & d' & snap' & recs' & Ho & _ & Hor).
  pose proof (wr_crash_checkpoint _ _ _ _ k _ _ _ _ _ Hr (Hfit w Hw) Hcr Ho) as Hr'. simpl in Hr'.
  assert (recovers snap' recs' (sched c)) as Hrec' by (destruct Hor as [(-> & -> & _)|(-> & -> & _)]; [done|apply recovers_snap]).
  destruct (enable_recovers cfg interval d w' d' snap' recs' (sched c) wo Ho Hr' Hrec' Hs Hch) as (c' & He & Hsm & Hd').
  by exists c'.
Qed.

(** ** Runs

    Calls of the scheduler and of membership, checkpoints that nothing
    interrupts, and crashes, also in the middle of a call's append or of a
    checkpoint.  A crash in the middle of a call may lose that call. *)
Inductive coord_run : Coordinator W → Prop :=
| run_start cfg interval (wo : W) c :
    LeaseChunk cfg ≤ items_max → EnablePersistence interval (Coordinator.New cfg empty_disk wo) = (Ok tt, c) →
    coord_run c
| run_call o c :
    coord_run c → valid_op o (sched c) → call_logged o (sched c) →
    let s' := run_op (mRing (membership c)) o (sched c) in
    fits c (marshal (encodeStateLocked s')) → coord_run (locked AOk s' c)
| run_member o c : coord_run c → coord_run (c <| membership := Membership.apply_op o (membership c) |>)
| run_checkpoint c :
    coord_run c → (∀ w, wal c = Some w → entry_ok (wSeq w, checkpoint_snapshot c)) →
    coord_run (checkpoint None c).2
| run_crash cfg interval (wo : W) c d c' :
    coord_run c → LeaseChunk cfg ≤ items_max → disk_crash (disk c) d →
    EnablePersistence interval (Coordinator.New cfg d wo) = (Ok tt, c') → coord_run c'
| run_crash_call cfg interval (wo : W) io o c d c' :
    coord_run c → valid_op o (sched c) → call_logged o (sched c) →
    let s' := run_op (mRing (membership c)) o (sched c) in
    fits c (marshal (encodeStateLocked s')) → LeaseChunk cfg ≤ items_max → disk_crash (disk (locked io s' c)) d →
    EnablePersistence interval (Coordinator.New cfg d wo) = (Ok tt, c') → coord_run c'
| run_crash_checkpoint cfg interval (wo : W) k c d c' :
    coord_run c → (∀ w, wal c = Some w → entry_ok (wSeq w, checkpoint_snapshot c)) →
    LeaseChunk cfg ≤ items_max → disk_crash (disk (checkpoint (Some k) c).2) d →
    EnablePersistence interval (Coordinator.New cfg d wo) = (Ok tt, c') → coord_run c'.

Lemma coord_run_durable c : coord_run c → coord_durable c.
Proof.
  induction 1 as [cfg interval wo c Hch He|o c _ IH Hv Hl s' Hf|o c _ [H1 H2 H3]|c _ IH Hf|
    cfg interval wo c d c' _ IH Hch Hcr He|cfg interval wo io o c d c' _ IH Hv Hl s' Hf Hch Hcr He|
    cfg interval wo k c d c' _ IH Hf Hch Hcr He].
  - destruct (OpenWAL empty_disk) as [[[w1 [sn rs]]|e] d1] eqn:Ho; [|by vm_compute in Ho].
    assert (sn = None ∧ rs = []) as [-> ->] by (vm_compute in Ho; by injection Ho as _ <- <- _).
    destruct (enable_recovers cfg interval empty_disk w1 d1 None [] (Scheduler.New 0) wo Ho) as (c' & He' & _ & Hd);
      [by eapply wr_open|done|apply New_ok|done|]. rewrite He in He'. by injection He' as ->.
  - apply locked_durable; [done| | |done].
    + apply run_op_ok; [apply IH|done].
    + apply run_op_logged; [apply IH|done..].
  - by split.
  - by apply checkpoint_durable.
  - destruct (restart_recovers cfg interval c d wo IH Hch Hcr) as (c2 & He2 & _ & Hd).
    rewrite He in He2. by injection He2 as ->.
  - destruct (restart_torn_call cfg interval io s' c d wo IH) as (c2 & He2 & Hd & _); [| |done..|].
    + apply run_op_ok; [apply IH|done].
    + apply run_op_logged; [apply IH|done..].
    + rewrite He in He2. by injection He2 as ->.
  - destruct (restart_torn_checkpoint cfg interval k c d wo IH Hf Hch Hcr) as (c2 & He2 & Hd & _).
    rewrite He in He2. by injection He2 as ->.
Qed.



(** [checkpoint] takes its snapshot and writes it in two steps, and a call
    in between is lost: its record was appended and acknowledged, but the
    checkpoint of the older snapshot truncates it away, and a restart comes up
    with the state before the call. *)
Theorem checkpoint_race_loses_call c cfg interval (wo : W) o d :
  coord_run c → valid_op o (sched c) → call_logged o (sched c) →
  let s' := run_op (mRing (membership c)) o (sched c) in
  let c1 := locked AOk s' c in
  let c2 := (checkpoint_write None (checkpoint_snapshot c) c1).2 in
  fits c (marshal (encodeStateLocked s')) → (∀ w, wal c1 = Some w → entry_ok (wSeq w, checkpoint_snapshot c)) →
  LeaseChunk cfg ≤ items_max → disk_crash (disk c2) d →
  ∃ c', EnablePersistence interval (Coordinator.New cfg d wo) = (Ok tt, c') ∧ same_state (sched c) (sched c').
Proof.
  intros Hr Hv Hl s' c1 c2 Hf Hf2 Hch Hcr. pose proof (coord_run_durable c Hr) as Hd.
  assert (coord_durable c1) as [_ _ (w1 & snap & recs & Hw1 & Hr1 & _)].
  { apply locked_durable; [done|apply run_op_ok; [apply Hd|done]|apply run_op_logged; [apply Hd|done..]|done]. }
  assert (∃ d2, Wal.Checkpoint None (checkpoint_snapshot c) w1 (disk c1) = (Ok tt, d2)) as [d2 Hck] by by eexists.
  pose proof (wr_checkpoint w1 (disk c1) snap recs _ d2 Hr1 (Hf2 w1 Hw1) Hck) as Hr2.
  assert (disk c2 = d2) as Ed by (unfold c2, checkpoint_write; rewrite Hw1, Hck; done).
  rewrite Ed in Hcr.
  destruct (wal_crash_recovers w1 d2 d _ _ (wal_run_ok _ _ _ _ Hr2) Hcr) as (w' & d' & Ho & _).
  destruct (enable_recovers cfg interval d w' d' _ _ (sched c) wo Ho) as (c' & He & Hs & _);
    [by eapply wr_crash|apply recovers_snap|apply Hd|done|]. by exists c'.
Qed.
End durability.

(** ** An instance of the codec *)

Definition status_nat (x : TaskStatus) : nat :=
  match x with TaskPending => 0 | TaskAssigned => 1 | TaskRunning => 2 | TaskDone => 3 | TaskFailed => 4 end.
Definition nat_status (n : nat) : TaskStatus :=
  match n with 0 => TaskPending | 1 => TaskAssigned | 2 => TaskRunning | 3 => TaskDone | _ => TaskFailed end%nat.
Definition jstatus_nat (x : JobStatus) : nat :=
  match x with JobPending => 0 | JobRunning => 1 | JobCompleted => 2 | JobFailed => 3 | JobCancelled => 4 end.
Definition nat_jstatus (n : nat) : JobStatus :=
  match n with 0 => JobPending | 1 => JobRunning | 2 => JobCompleted | 3 => JobFailed | _ => JobCancelled end%nat.

Definition job_fields (j : Job) : list positive :=
  [encode (jID j); encode (jDataset j); encode (jAlgorithm j); encode (jConfig j); encode (jPriority j);
   encode (jstatus_nat (jStatus j)); encode (jShards j); encode (jTotalTasks j); encode (jDoneTasks j);
   encode (jFailedTasks j); encode (jCreatedAt j); encode (jStartedAt j); encode (jFinishedAt j); encode (jError j)].

Definition fields_job (l : list positive) : option Job :=
  match l with
  | [a; b; c; d; e; f; g; h; i; j; k; l; m; n] =>
      a ← decode a; b ← decode b; c ← decode c; d ← decode d; e ← decode e; f ← decode f; g ← decode g;
      h ← decode h; i ← decode i; j ← decode j; k ← decode k; l ← decode l; m ← decode m; n ← decode n;
      Some (MkJob a b c d e (nat_jstatus f) g h i j k l m n)
  | _ => None
  end.

Definition task_fields (t : Task) : list positive :=
  [encode (tID t); encode (tJobID t); encode (tShard t); encode (tWorkerID t); encode (status_nat (tStatus t));
   encode (tPriority t); encode (tRetries t); encode (tMaxRetries t); encode (tAssignedAt t); encode (tStartedAt t);
   encode (tFinishedAt t); encode (tError t); encode (tRangeStart t); encode (tRangeEnd t); encode (tFrontier t);
   encode (tGranted t); encode (tGeneration t); encode (tSplit t)].

Definition fields_task (l : list positive) : option Task :=
  match l with
  | [a; b; c; d; e; f; g; h; i; j; k; l; m; n; o; p; q; r] =>
      a ← decode a; b ← decode b; c ← decode c; d ← decode d; e ← decode e; f ← decode f; g ← decode g;
      h ← decode h; i ← decode i; j ← decode j; k ← decode k; l ← decode l; m ← decode m; n ← decode n;
      o ← decode o; p ← decode p; q ← decode q; r ← decode r;
      Some (MkTask a b c d (nat_status e) f g h i j k l m n o p q r)
  | _ => None
  end.

Lemma fields_job_fields j : fields_job (job_fields j) = Some j.
Proof.
  destruct j as [a b c d e f ? ? ? ? ? ? ? ?]. unfold fields_job, job_fields. cbn -[decode encode].
  rewrite !decode_encode. destruct f; reflexivity.
Qed.

Lemma fields_task_fields t : fields_task (task_fields t) = Some t.
Proof.
  destruct t as [? ? ? ? f ? ? ? ? ? ? ? ? ? ? ? ? ?]. unfold fields_task, task_fields. cbn -[decode encode].
  rewrite !decode_encode. destruct f; reflexivity.
Qed.

Definition demo_codec : StateCodec.
Proof.
  refine {| marshal st := pos_bytes (encode (job_fields <$> stJobs st, task_fields <$> stTasks st, stPending st));
    unmarshal l :=
      match bytes_pos l ≫= decode with
      | Some (js, ts, q) =>
          match mapM fields_job js, mapM fields_task ts with
          | Some js, Some ts => Ok (MkState js ts q)
          | _, _ => Err "invalid character"
          end
      | None => Err "unexpected end of JSON input"
      end |}.
  intros [js ts q]. rewrite bytes_pos_bytes. simpl. rewrite decode_encode.
  by rewrite (mapM_fmap_Some _ _ js fields_job_fields), (mapM_fmap_Some _ _ ts fields_task_fields).
Defined.

(** ** Examples *)

Definition demo_cfg : CoordConfig := MkCoordConfig 1 10 20 2 0.

(** A coordinator that opened an empty log, and one that took a job. *)
Definition demo_c0 : Coordinator unit := (EnablePersistence (H := demo_codec) 0 (Coordinator.New demo_cfg empty_disk tt)).2.
Definition demo_o : op := OpSubmit 1 2 "job" ["t1"] demo_req.
Notation demo_s1 := (run_op (mRing (membership demo_c0)) demo_o (sched demo_c0)) (only parsing).
Definition demo_c1 : Coordinator unit := locked (H := demo_codec) AOk demo_s1 demo_c0.

Lemma demo_c0_run : coord_run (H := demo_codec) demo_c0.
Proof. apply (run_start (H := demo_codec) demo_cfg 0 tt); [by vm_compute|vm_compute; reflexivity]. Qed.

Lemma demo_o_valid : valid_op demo_o (sched demo_c0).
Proof.
  split; [|apply NoDup_singleton]. split_and!; try by vm_compute. apply NoDup_singleton.
Qed.

Lemma demo_fits : fits demo_c0 (marshal (StateCodec := demo_codec) (encodeStateLocked demo_s1)).
Proof. intros w Hw. vm_compute in Hw. injection Hw as <-. by vm_compute. Qed.

Lemma demo_c1_run : coord_run (H := demo_codec) demo_c1.
Proof. apply (run_call (H := demo_codec) demo_o demo_c0 demo_c0_run demo_o_valid I demo_fits). Qed.

(** A crash that loses nothing. *)
Definition settled (d : Disk) : Disk :=
  let f := λ o, (λ f, stable (file_view f)) <$> o in MkDisk (f (dLog d)) None (f (dSnap d)) (f (dSnap d)).

Lemma crash_settled d : disk_crash d (settled d).
Proof.
  assert (∀ o : option File, opt_crash o ((λ f, stable (file_view f)) <$> o)) as Ho.
  { intros [[dur pend]|]; [|exact I]. exists (file_view (MkFile dur pend)). split; [|done].
    unfold file_view. simpl. rewrite <- (firstn_all pend) at 2. apply crash_prefix. }
  split; [apply Ho|]. split; [left; apply Ho|done].
Qed.



Lemma checkpoint_race_loses_call_witness :
  let c2 := (checkpoint_write None (checkpoint_snapshot (H := demo_codec) demo_c0) demo_c1).2 in
  size (tasks (sched demo_c0)) = 0%nat ∧ size (tasks (sched demo_c1)) = 1%nat ∧
  ∃ c', EnablePersistence (H := demo_codec) 0 (Coordinator.New demo_cfg (settled (disk c2)) tt) = (Ok tt, c') ∧
    same_state (sched demo_c0) (sched c').
Proof.
  split; [by vm_compute|]. split; [by vm_compute|].
  apply (checkpoint_race_loses_call (H := demo_codec) demo_c0 demo_cfg 0 tt demo_o
    (settled (disk (checkpoint_write None (checkpoint_snapshot (H := demo_codec) demo_c0) demo_c1).2))).
  - exact demo_c0_run.
  - exact demo_o_valid.
  - exact I.
  - exact demo_fits.
  - intros w Hw. vm_compute in Hw. injection Hw as <-. by vm_compute.
  - by vm_compute.
  - apply crash_settled.
Defined.
