(* ===== verification/Recovery.v ===== *)
(** * The failure of a worker (coordinator/, cluster/membership.go, scheduler/)

    The detector, its event queue, the loop that reads it and the scheduler's
    rebalance, together: when the tasks of a worker that fell silent go back to
    the queue, and when nobody ever takes them back. *)
From S2P Require Import Prelude GoLib Storage Ring Membership Job Keys Scheduler SchedInv Tiling Persist SchedThms Commit Wal Admission.
From S2P Require Import Coordinator CoordThms.
Open Scope Z_scope.

(** ** What a rebalance does to the tasks *)

(** What is left of a task when the worker it may be with is given up. *)
Definition rebalanced (w : string) (t : Task) : Task :=
  if bool_decide (tWorkerID t = w) && in_flight t
  then if tRetries t <? tMaxRetries t then requeue t else t <| tStatus := TaskFailed |>
  else t.

Lemma rebalanced_out w t : tWorkerID (rebalanced w t) = w → in_flight (rebalanced w t) = false.
Proof.
  unfold rebalanced. case_bool_decide; cbn [andb]; [|done]. destruct (in_flight t) eqn:E; [|done].
  destruct (_ <? _); [done|]. by unfold in_flight.
Qed.

Lemma rebalanced_idle w t : in_flight t = false → rebalanced w t = t.
Proof. intros H. unfold rebalanced. by rewrite H, andb_false_r. Qed.

Lemma rebalanced_other w t : tWorkerID t ≠ w → rebalanced w t = t.
Proof. intros H. unfold rebalanced. by rewrite bool_decide_false. Qed.

Lemma rebalanced_idemp w t : rebalanced w (rebalanced w t) = rebalanced w t.
Proof.
  destruct (decide (tWorkerID (rebalanced w t) = w)) as [E|E]; [|by apply rebalanced_other].
  by apply rebalanced_idle, rebalanced_out.
Qed.

Lemma rebalance_step_tasks now w acc id : tasks (rebalance_step now w acc id).2 = alter (rebalanced w) id (tasks acc.2).
Proof.
  destruct acc as [n s]. unfold rebalance_step. cbn [snd]. apply map_eq. intros j.
  destruct (decide (id = j)) as [<-|Hj]; [rewrite lookup_alter_eq|rewrite lookup_alter_ne by done].
  - destruct (tasks s !! id) as [t|] eqn:Ht; [|by cbn; rewrite Ht]. unfold rebalanced.
    cbn [fmap option_fmap option_map]. destruct (decide (tWorkerID t = w)) as [Hw|Hw];
      [rewrite (bool_decide_false (tWorkerID t ≠ w)), bool_decide_true by tauto
      |rewrite (bool_decide_true (tWorkerID t ≠ w)), bool_decide_false by done; by cbn; rewrite Ht].
    destruct (in_flight t); cbn [negb andb]; [|by cbn; rewrite Ht].
    destruct (_ <? _); cbn [snd]; rewrite ?tasks_update; unfold put_task; cbn; by rewrite lookup_insert_eq.
  - destruct (tasks s !! id) as [t|]; [|done]. case_bool_decide; [done|]. destruct (in_flight t); cbn [negb]; [|done].
    destruct (_ <? _); cbn [snd]; rewrite ?tasks_update; unfold put_task; cbn; by rewrite lookup_insert_ne.
Qed.

Lemma RebalanceWorker_tasks now order w s id :
  tasks (RebalanceWorker now order w s) !! id = (if decide (id ∈ order) then rebalanced w <$> tasks s !! id else tasks s !! id).
Proof.
  unfold RebalanceWorker. assert (H : ∀ acc, tasks (foldl (rebalance_step now w) acc order).2 !! id =
    if decide (id ∈ order) then rebalanced w <$> tasks acc.2 !! id else tasks acc.2 !! id).
  { induction order as [|x order IH]; intros acc; [done|]. cbn [foldl]. rewrite IH, rebalance_step_tasks.
    destruct (decide (x = id)) as [->|Hx].
    - rewrite lookup_alter_eq, (decide_True (P := id ∈ id :: order)) by set_solver. case_decide; [|done].
      destruct (tasks acc.2 !! id); [|done]. cbn. by rewrite rebalanced_idemp.
    - rewrite lookup_alter_ne by done. case_decide; [rewrite decide_True by set_solver|rewrite decide_False by set_solver]; done. }
  specialize (H (0%nat, s)). destruct (foldl _ _ order) as [n s']. cbn [fst snd] in *. by destruct (0 <? n)%nat; rewrite ?tasks_persist.
Qed.

(** ** Events *)

Lemma emit_events e m : events m `prefix_of` events (emit e m) ∧
  (length (events (emit e m)) ≤ S (length (events m)))%nat ∧ ((length (events m) < events_cap)%nat → e ∈ events (emit e m)).
Proof.
  unfold emit. destruct (Nat.ltb_spec (length (events m)) events_cap); cbn.
  - split_and!; [by eexists|rewrite length_app; cbn; lia|]. intros _. apply elem_of_app. right. by left.
  - split_and!; [done|lia|]. lia.
Qed.

Lemma tick_node_events now m id : events m `prefix_of` events (tick_node now m id) ∧ (length (events (tick_node now m id)) ≤ S (length (events m)))%nat.
Proof.
  unfold tick_node. destruct (mNodes m !! id) as [n|]; [|split; [done|lia]].
  destruct (State n); [destruct (_ >? _)..|]; try (split; [done|lia]);
    match goal with |- context [emit ?e ?m'] => destruct (emit_events e m') as (H1 & H2 & _) end; by split.
Qed.

Lemma Tick_events now order m : events m `prefix_of` events (Tick now order m) ∧ (length (events (Tick now order m)) ≤ length (events m) + length order)%nat.
Proof.
  unfold Tick. revert m. induction order as [|x order IH]; intros m; [split; [done|cbn; lia]|]. cbn [foldl length].
  destruct (tick_node_events now m x) as [H1 H2], (IH (tick_node now m x)) as [H3 H4]. split; [by etrans|lia].
Qed.

(** With room in the queue a death is announced. *)
Lemma Tick_announces now order m id n : mem_ok m → NoDup order → id ∈ order → (length (events m) + length order ≤ events_cap)%nat →
  mNodes m !! id = Some n → State n = NodeSuspect → now - LastSeen n > deadTimeout m →
  MkEvent id NodeSuspect NodeDead now ∈ events (Tick now order m).
Proof.
  unfold Tick. intros Hm Hnd. revert m Hm. induction Hnd as [|x order Hx Hnd IH]; intros m Hm Hin Hroom Hn Hs Hage; [by apply elem_of_nil in Hin|].
  cbn [foldl length] in *. destruct (decide (id = x)) as [->|Hne].
  - assert (H : MkEvent x NodeSuspect NodeDead now ∈ events (tick_node now m x)).
    { unfold tick_node. rewrite Hn, Hs, (proj2 (Z.gtb_lt _ _)), (mem_id _ Hm _ _ Hn) by lia.
      match goal with |- context [emit ?e ?m'] => destruct (emit_events e m') as (_ & _ & H) end. apply H. cbn. lia. }
    destruct (Tick_events now order (tick_node now m x)) as [[l Hl] _]. unfold Tick in Hl. rewrite Hl. apply elem_of_app. by left.
  - apply elem_of_cons in Hin as [?|Hin]; [done|]. apply IH; [by apply tick_node_ok|done| | |done|].
    + destruct (tick_node_events now m x). lia.
    + rewrite tick_node_nodes, lookup_alter_ne by done. done.
    + by rewrite (proj2 (tick_node_timeouts now m x)).
Qed.

(** ** The loop that reads the events *)

Section recovery.
Context {W : Type} `{StateCodec}.
Implicit Types c : Coordinator W.

Lemma locked_frame io s c : membership (locked io s c) = membership c ∧ sched (locked io s c) = s.
Proof.
  unfold locked. destruct (releases_frame c (new_calls (sched c) s)) as (_ & _ & F & _). revert F. generalize (foldl releaseTicket c (new_calls (sched c) s)).
  intros c0 <-. split; [|done]. cbn. apply (foldl_inv (λ x, membership x = membership c0)); [done|].
  intros x st _ <-. unfold append_record. destruct (wal x); [|done]. by destruct (Wal.Append _ _ _ _) as [[? ?] ?].
Qed.

(** What a turn of [failureEventLoop] takes from outside: how its record is
    appended, the clock, and the order in which the tasks are visited. *)
Definition turn : Type := append_io * Z * list string.

(** [k] turns; the loop waits when the queue is empty. *)
Fixpoint failure_loop (k : nat) (env : nat → turn) c : Coordinator W :=
  match k with
  | O => c
  | S k => let '(io, now, order) := env k in
      match failure_event io now order c with None => c | Some c => failure_loop k env c end
  end.

(** Every turn's order visits every task. *)
Definition visits_tasks (env : nat → turn) c : Prop := ∀ k id, is_Some (tasks (sched c) !! id) → id ∈ (env k).2.

Lemma failure_event_tasks io now order c c' : (∀ id, is_Some (tasks (sched c) !! id) → id ∈ order) → failure_event io now order c = Some c' →
  ∃ ev, events (membership c) = ev :: events (membership c') ∧ mNodes (membership c') = mNodes (membership c) ∧
    ∀ id, tasks (sched c') !! id =
      (if decide (NewState ev = NodeDead) then rebalanced (evNodeID ev) <$> tasks (sched c) !! id else tasks (sched c) !! id).
Proof.
  intros Hall. unfold failure_event, next_event. destruct (events (membership c)) as [|ev evs] eqn:E; [done|]. cbn [mbind option_bind].
  intros [= <-]. exists ev. case_bool_decide as Hd.
  - destruct (locked_frame io (RebalanceWorker now order (evNodeID ev) (sched c)) (c <| membership := (membership c) <| events := evs |> |>)) as [F1 F2].
    rewrite F1, F2. split_and!; [done|done|]. intros id. rewrite decide_True, RebalanceWorker_tasks by done.
    case_decide as Hin; [done|]. destruct (tasks (sched c) !! id) eqn:Et; [|done]. destruct Hin. apply Hall. by eexists.
  - cbn. split_and!; [done|done|]. intros id. by rewrite decide_False.
Qed.

(** The tasks of the nodes announced dead in [evs]. *)
Definition recovered (evs : list FailureEvent) (t : Task) : Task :=
  foldl (λ t ev, if decide (NewState ev = NodeDead) then rebalanced (evNodeID ev) t else t) t evs.

Lemma failure_loop_tasks env c : visits_tasks env c → let c' := failure_loop (length (events (membership c))) env c in
  events (membership c') = [] ∧ mNodes (membership c') = mNodes (membership c) ∧
  ∀ id, tasks (sched c') !! id = recovered (events (membership c)) <$> tasks (sched c) !! id.
Proof.
  remember (events (membership c)) as evs eqn:E. revert c E. induction evs as [|ev evs IH]; intros c E Hv; cbn [length failure_loop].
  { cbn. split_and!; [done|done|]. intros id. by destruct (tasks (sched c) !! id). }
  destruct (env (length evs)) as [[io now] order] eqn:Ee.
  destruct (failure_event io now order c) as [c1|] eqn:Ef; [|unfold failure_event, next_event in Ef; by rewrite <- E in Ef].
  destruct (failure_event_tasks io now order c c1) as (ev' & E' & En & Et); [|done|].
  { intros id Hid. pose proof (Hv (length evs) id Hid) as H0. by rewrite Ee in H0. }
  rewrite <- E in E'. injection E' as <- E1. destruct (IH c1 E1) as (H1 & H2 & H3).
  { intros k id Hid. apply Hv. rewrite Et in Hid. destruct (tasks (sched c) !! id); [by eexists|]. case_decide; by destruct Hid. }
  split_and!; [done|by rewrite H2|]. intros id. rewrite H3, Et. case_decide as Hd; destruct (tasks (sched c) !! id) as [t|]; cbn; try done; by destruct (decide _).
Qed.

Lemma recovered_idle evs t : in_flight t = false → recovered evs t = t.
Proof. induction evs as [|ev evs IH]; intros Ht; [done|]. cbn. case_decide; [rewrite rebalanced_idle by done|]; by apply IH. Qed.

(** One rebalance of its worker settles a task; those before it are of others. *)
Lemma recovered_by evs id t now o : tWorkerID t = id → in_flight t = true → MkEvent id o NodeDead now ∈ evs → recovered evs t = rebalanced id t.
Proof.
  induction evs as [|ev evs IH]; intros Hw Hf Hin; [by apply elem_of_nil in Hin|]. cbn.
  destruct (decide (NewState ev = NodeDead)) as [Hd|Hd]; [destruct (decide (evNodeID ev = id)) as [E|E]|].
  - rewrite E. apply recovered_idle. unfold rebalanced. rewrite bool_decide_true, Hf by done. cbn [andb]. by destruct (_ <? _).
  - rewrite rebalanced_other by congruence. apply IH; [done..|]. apply elem_of_cons in Hin as [<-|?]; [done|done].
  - apply IH; [done..|]. apply elem_of_cons in Hin as [<-|?]; [done|done].
Qed.
Lemma failure_loop_ok k env c : sched_ok (sched c) → sched_ok (sched (failure_loop k env c)).
Proof.
  revert c. induction k as [|k IH]; intros c Hs; [done|]. cbn. destruct (env k) as [[io now] order].
  destruct (failure_event io now order c) as [c'|] eqn:E; [|done]. apply IH. unfold failure_event, next_event in E.
  destruct (events (membership c)) as [|ev evs]; [done|]. cbn in E. injection E as <-. case_bool_decide; [|done].
  match goal with |- context [locked ?io ?s ?c] => rewrite (proj2 (locked_frame io s c)) end. by apply RebalanceWorker_ok.
Qed.

Lemma recovered_other evs id t : tWorkerID t ≠ id → tWorkerID (recovered evs t) = id → in_flight (recovered evs t) = false.
Proof.
  revert t. induction evs as [|ev evs IH]; intros t Hw; [done|].
  change (recovered (ev :: evs) t) with (recovered evs (if decide (NewState ev = NodeDead) then rebalanced (evNodeID ev) t else t)).
  case_decide; [|by apply IH]. destruct (in_flight (rebalanced (evNodeID ev) t)) eqn:Hf; [|by rewrite recovered_idle].
  apply IH. unfold rebalanced in *. destruct (bool_decide _ && in_flight t) eqn:E; [|done]. exfalso. by destruct (_ <? _).
Qed.

(** ** A silent worker *)

Lemma death_is_announced m id n t1 t2 o1 o2 : mem_ok m → visits_all o1 m → visits_all o2 m → (length (events m) + 2 * length o1 ≤ events_cap)%nat →
  mNodes m !! id = Some n → State n ≠ NodeDead → t1 - LastSeen n > suspectTimeout m → t2 - LastSeen n > deadTimeout m →
  ∃ now, MkEvent id NodeSuspect NodeDead now ∈ events (Tick t2 o2 (Tick t1 o1 m)).
Proof.
  intros Hm Hv1 Hv2 Hroom Hn Hs H1 H2. assert (Hl : length o2 = length o1).
  { apply Permutation_length, NoDup_Permutation; [apply Hv2|apply Hv1|]. intros x. rewrite (proj2 Hv1), (proj2 Hv2). done. }
  assert (Hin1 : id ∈ o1) by (apply Hv1; by eexists). assert (Hin2 : id ∈ o2) by (apply Hv2; by eexists).
  destruct (Tick_events t1 o1 m) as [_ Hl1]. destruct (Tick_timeouts t1 o1 m) as [_ Hd].
  pose proof (Tick_all t1 o1 m id Hv1) as Hn1. rewrite Hn in Hn1. cbn in Hn1.
  assert (Hsus : State (ticked t1 m n) = NodeSuspect → ∃ now, MkEvent id NodeSuspect NodeDead now ∈ events (Tick t2 o2 (Tick t1 o1 m))).
  { intros Hst. exists t2. eapply Tick_announces; [by apply Tick_ok|apply Hv2|done|lia|exact Hn1|done|by rewrite Hd]. }
  destruct (State n) eqn:Est; [| |done].
  - apply Hsus. unfold ticked. cbn. rewrite Est. cbn. by rewrite (proj2 (Z.gtb_lt _ _)) by lia.
  - destruct (Z.gtb_spec (t1 - LastSeen n) (deadTimeout m)); [|apply Hsus; unfold ticked; cbn; rewrite Est; cbn; by rewrite Z.gtb_ltb, (proj2 (Z.ltb_ge _ _)) by lia].
    exists t1. destruct (Tick_events t2 o2 (Tick t1 o1 m)) as [[l ->] _]. apply elem_of_app. left.
    apply (Tick_announces t1 o1 m id n); [done|apply Hv1|done|lia|done..|lia].
Qed.


(** ** A worker nobody waits for *)

Lemma mem_ok_events m evs : mem_ok m → mem_ok (m <| events := evs |>).
Proof. by destruct 1. Qed.

(** The detector will say nothing more about [id]: it is dead ([known]) or was
    never registered, and no news of its death is in the queue. *)
Record silenced (known : bool) (id : string) (m : Membership) : Prop := {
  sl_ok : mem_ok m;
  sl_node : if known then ∃ n, mNodes m !! id = Some n ∧ State n = NodeDead else mNodes m !! id = None;
  sl_news : ∀ ev, ev ∈ events m → NewState ev = NodeDead → evNodeID ev ≠ id }.

Lemma emit_news id e m : (NewState e = NodeDead → evNodeID e ≠ id) → (∀ ev, ev ∈ events m → NewState ev = NodeDead → evNodeID ev ≠ id) →
  ∀ ev, ev ∈ events (emit e m) → NewState ev = NodeDead → evNodeID ev ≠ id.
Proof.
  intros He Hm ev. unfold emit. destruct (_ <? _)%nat; [|by apply Hm]. cbn.
  intros [Hin| ->%list_elem_of_singleton]%elem_of_app; [by apply Hm|done].
Qed.

Lemma tick_node_silenced k id now m x : silenced k id m → silenced k id (tick_node now m x).
Proof.
  intros [H1 H2 H3]. split; [by apply tick_node_ok|..].
  - rewrite tick_node_nodes. destruct (decide (x = id)) as [->|Hx]; [rewrite lookup_alter_eq|by rewrite lookup_alter_ne].
    destruct k; [|by rewrite H2]. destruct H2 as (n & -> & Hs). cbn. eexists. split; [done|]. unfold ticked. cbn. by rewrite Hs.
  - unfold tick_node. destruct (mNodes m !! x) as [n|] eqn:Hn; [|done]. pose proof (mem_id _ H1 _ _ Hn) as Hid.
    destruct (State n) eqn:Hs; [destruct (_ >? _)..|]; try done; apply emit_news; cbn; try done.
    intros _ E. rewrite Hid in E. subst x. destruct k; [destruct H2 as (n' & Hn' & Hs')|]; congruence.
Qed.

Lemma Tick_silenced k id now order m : silenced k id m → silenced k id (Tick now order m).
Proof. intros H0. apply (foldl_inv (silenced k id)); [done|]. intros m' x _. apply tick_node_silenced. Qed.

(** What goes on around a worker that does not register: ticks, turns of the
    failure loop, what other workers send, and its own heartbeats as long as it
    is unknown. *)
Inductive quiet (id : string) : Coordinator W → Coordinator W → Prop :=
| q_tick now order c : quiet id c (tick now order c)
| q_event io now order c c' : failure_event io now order c = Some c' → quiet id c c'
| q_register now req c : regID req ≠ id → quiet id c (c <| membership := Register now req (membership c) |>)
| q_heartbeat now hb c : hbNodeID hb ≠ id ∨ mNodes (membership c) !! id = None →
    quiet id c (c <| membership := (HeartbeatOp now hb (membership c)).2 |>).

Lemma quiet_silenced k id c c' : silenced k id (membership c) → quiet id c c' → silenced k id (membership c') ∧
  ∀ tid t, tasks (sched c) !! tid = Some t → tWorkerID t = id → tasks (sched c') !! tid = Some t.
Proof.
  intros Hs Hq. destruct Hq as [now order c|io now order c c' Hf|now req c Hr|now hb c Hh].
  - split; [by apply Tick_silenced|done].
  - unfold failure_event, next_event in Hf. destruct (events (membership c)) as [|ev evs] eqn:E; [done|]. cbn in Hf.
    assert (Hs' : silenced k id ((membership c) <| events := evs |>)).
    { destruct Hs as [H1 H2 H3]. split; [by apply mem_ok_events|done|]. intros e He. apply H3. rewrite E. by right. }
    injection Hf as <-. case_bool_decide as Hd; [|done].
    match goal with |- context [locked ?io ?s ?c] => destruct (locked_frame io s c) as [-> ->] end. split; [done|].
    intros tid t Ht Hw. rewrite RebalanceWorker_tasks, Ht. cbn. rewrite rebalanced_other; [by case_decide|].
    intros E'. apply (sl_news _ _ _ Hs ev); [rewrite E; by left|done|congruence].
  - split; [|done]. destruct Hs as [H1 H2 H3]. cbn. split; [by apply Register_ok|..].
    + unfold Register. destruct (mNodes (membership c) !! regID req); cbn; by rewrite lookup_insert_ne.
    + unfold Register. by destruct (mNodes (membership c) !! regID req).
  - split; [|done]. destruct Hs as [H1 H2 H3]. cbn. split; [by apply HeartbeatOp_ok|..].
    + unfold HeartbeatOp. destruct (mNodes (membership c) !! hbNodeID hb) eqn:En; [|done].
      assert (hbNodeID hb ≠ id) by (intros E; destruct Hh as [?|Hh]; congruence).
      case_bool_decide; cbn; rewrite ?emit_nodes; cbn; by rewrite lookup_insert_ne.
    + unfold HeartbeatOp. destruct (mNodes (membership c) !! hbNodeID hb) eqn:En; [|done]. case_bool_decide; cbn; [|done]. by apply emit_news.
Qed.

Lemma quiet_run k id c c' : silenced k id (membership c) → rtc (quiet id) c c' → silenced k id (membership c') ∧
  ∀ tid t, tasks (sched c) !! tid = Some t → tWorkerID t = id → tasks (sched c') !! tid = Some t.
Proof.
  intros Hs Hr. induction Hr as [c|c c1 c2 H1 _ IH]; [done|]. destruct (quiet_silenced k id c c1 Hs H1) as [Hs1 Ht1].
  destruct (IH Hs1) as [Hs2 Ht2]. split; [done|]. intros tid t Ht Hw. by apply Ht2; [apply Ht1|].
Qed.


(** News of a death is dropped when the queue is full, and is not repeated:
    the worker's tasks stay assigned to it whatever follows, short of its coming
    back. *)
Theorem full_queue_strands_tasks c id n now order :
  mem_ok (membership c) → visits_all order (membership c) → mNodes (membership c) !! id = Some n → State n = NodeSuspect →
  now - LastSeen n > deadTimeout (membership c) → length (events (membership c)) = events_cap →
  (∀ ev, ev ∈ events (membership c) → evNodeID ev ≠ id) →
  ∀ c'', rtc (quiet id) (tick now order c) c'' →
    (∃ n', mNodes (membership c'') !! id = Some n' ∧ State n' = NodeDead) ∧
    ∀ tid t, tasks (sched c) !! tid = Some t → tWorkerID t = id → tasks (sched c'') !! tid = Some t.
Proof.
  intros Hm Hv Hn Hst Hage Hfull Hno c'' Hq. assert (Hsl : silenced true id (membership (tick now order c))).
  { cbn. split; [by apply Tick_ok|..].
    - rewrite (Tick_all now order _ id Hv), Hn. cbn. eexists. split; [done|]. unfold ticked. cbn. rewrite Hst. cbn. by rewrite (proj2 (Z.gtb_lt _ _)) by lia.
    - intros ev Hev _. apply Hno. 
      assert (Hc : events (Tick now order (membership c)) = events (membership c)); [|by rewrite <- Hc].
      apply (foldl_inv (λ m, events m = events (membership c))); [done|]. intros m x _ E. rewrite <- E. unfold tick_node.
      destruct (mNodes m !! x) as [n'|]; [|done]. destruct (State n'); [destruct (_ >? _)..|]; try done; unfold emit; cbn; by rewrite E, Hfull. }
  destruct (quiet_run true id _ c'' Hsl Hq) as [[_ Hd _] Ht]. by split.
Qed.
End recovery.

(** ** Examples *)

Lemma keys_all {A} (m : gmap string A) : NoDup (map_to_list m).*1 ∧ ∀ id, id ∈ (map_to_list m).*1 ↔ is_Some (m !! id).
Proof.
  split; [apply NoDup_fst_map_to_list|]. intros id. rewrite list_elem_of_fmap. split.
  - intros ([k x] & -> & H). apply elem_of_map_to_list in H. by eexists.
  - intros [x H]. exists (id, x). split; [done|]. by apply elem_of_map_to_list.
Qed.

(** The coordinator of CoordThms.v, a worker that registers, and its poll. *)
Definition joined : Coordinator unit :=
  demo_c1 <| membership := Membership.apply_op (OpRegister 2 (MkRegister "w1" "10.0.0.1" "")) (membership demo_c1) |>.
Definition demo_poll : Scheduler.op := OpPoll 3 (map_to_list (tasks (sched joined))).*1 "t2" "w1".
Definition busy : Coordinator unit := locked (H := demo_codec) AOk (run_op (mRing (membership joined)) demo_poll (sched joined)) joined.

Lemma busy_run : coord_run (H := demo_codec) busy.
Proof.
  apply (run_call (H := demo_codec) demo_poll joined).
  - apply (run_member (H := demo_codec) _ demo_c1 demo_c1_run).
  - split; [by vm_compute|]. apply keys_all.
  - done.
  - intros w Hw. vm_compute in Hw. injection Hw as <-. by vm_compute.
Qed.

Lemma busy_members : mem_ok (membership busy).
Proof.
  assert (membership busy = Membership.apply_op (OpRegister 2 (MkRegister "w1" "10.0.0.1" "")) (NewMembership (NewRing 1) 10 20)) as ->
    by (vm_compute; reflexivity).
  apply (mem_reachable_ok 1 10 20), Membership.reach_op, Membership.reach_new.
Qed.

Definition all_nodes : list string := (map_to_list (mNodes (membership busy))).*1.
Definition all_tasks : nat → turn := λ _, (AOk, 40, (map_to_list (tasks (sched busy))).*1).
Definition after_silence : Coordinator unit :=
  let c := tick 60 all_nodes (tick 30 all_nodes busy) in failure_loop (H := demo_codec) (length (events (membership c))) all_tasks c.



(** The suspected worker behind a full queue. *)
Definition crowded : Coordinator unit :=
  let c := tick 15 all_nodes busy in
  c <| membership := (membership c) <| events := replicate events_cap (MkEvent "w2" NodeActive NodeSuspect 15) |> |>.

Lemma full_queue_strands_tasks_witness :
  tWorkerID <$> tasks (sched busy) !! "t1" = Some "w1" ∧
  tasks (sched (tick 99 all_nodes (tick 40 all_nodes crowded))) !! "t1" = tasks (sched busy) !! "t1" ∧
  ∃ n, mNodes (membership (tick 99 all_nodes (tick 40 all_nodes crowded))) !! "w1" = Some n ∧ State n = NodeDead.
Proof.
  split; [by vm_compute|]. destruct (tasks (sched busy) !! "t1") as [t|] eqn:Et; [|by vm_compute in Et].
  pose proof (mem_ok_events _ (replicate events_cap (MkEvent "w2" NodeActive NodeSuspect 15)) (Tick_ok 15 all_nodes (membership busy) busy_members)) as Hm.
  destruct (mNodes (membership crowded) !! "w1") as [n|] eqn:En; [|by vm_compute in En].
  destruct (full_queue_strands_tasks (H := demo_codec) crowded "w1" n 40 all_nodes Hm) with (c'' := tick 99 all_nodes (tick 40 all_nodes crowded)) as [Hd Ht].
  - split; [apply keys_all|]. intros id. unfold crowded. cbn [membership]. rewrite (proj2 (keys_all (mNodes (membership busy))) id).
    pose proof (Tick_all 15 all_nodes (membership busy) id (keys_all _)) as E.
    change (is_Some (mNodes (membership busy) !! id) ↔ is_Some (mNodes (Tick 15 all_nodes (membership busy)) !! id)). rewrite E. by rewrite fmap_is_Some.
  - exact En.
  - vm_compute in En. by injection En as <-.
  - vm_compute in En. injection En as <-. by vm_compute.
  - vm_compute. reflexivity.
  - intros ev Hev. apply elem_of_replicate in Hev as [-> _]. discriminate.
  - apply rtc_once, q_tick.
  - split; [|exact Hd]. apply Ht; [exact Et|]. vm_compute in Et. by injection Et as <-.
Defined.
