(* ===== verification/Config.v ===== *)
(** * Configuration and the coordinator's start (config/config.go, cmd/coordinator/main.go)

    The defaults, a file read over them, and the order in which the program
    puts the coordinator together.  The YAML package is a parameter, as are the
    answers of the network and of the storage client. *)
From Stdlib Require Import SpecFloat.
From S2P Require Import Prelude GoLib Float64 Ring Membership Job Keys Scheduler Commit Wal Admission Coordinator CoordThms.
Open Scope Z_scope.

(** ** Data *)

Record StorageConfig := MkStorageConfig {
  Endpoint : string; Region : string; Bucket : string; AccessKeyID : string; SecretAccessKey : string; UsePathStyle : bool;
  MultipartThreshold : Z; MultipartChunkSize : Z; MultipartConcurrency : Z }.
Record MetadataConfig := MkMetadataConfig { DBPath : string }.
Record RaftPeer := MkRaftPeer { rpID : Z; rpAddress : string }.
Record RaftConfig := MkRaftConfig { raftID : Z; raftPort : Z; raftPeers : list RaftPeer }.
Record CoordinatorConfig := MkCoordinatorConfig {
  ccHost : string; ccPort : Z; ccSuspectTimeout : Z; ccDeadTimeout : Z; ccHeartbeatInterval : Z; ccDispatchInterval : Z;
  ccVnodesPerNode : Z; ccTaskMaxRetries : Z; ccLeaseChunk : Z; ccWALDir : string; ccCheckpointInterval : Z;
  ccMaxInFlightJobs : Z; ccRaft : RaftConfig; ccGRPCPort : Z; ccJWTSecret : string; ccRateLimitPerSec : float64; ccRateLimitBurst : Z }.
Record WorkerConfig := MkWorkerConfig {
  wcID : string; wcCoordinatorURL : string; wcHost : string; wcPort : Z; wcConcurrency : Z; wcPollInterval : Z; wcHeartbeatInterval : Z }.
Record SearchConfig := MkSearchConfig { IndexKey : string; EncoderURL : string }.
Record ServerConfig := MkServerConfig { svHost : string; svPort : Z; MetadataDBPath : string; RegistryDBPath : string; Search_ : SearchConfig }.
Record IngestionConfig := MkIngestionConfig { igWorkers : Z; igBatchSize : Z; MaxFileSizeMB : Z }.
Record TieringConfig := MkTieringConfig { HotDaysThreshold : Z; WarmDaysThreshold : Z; ColdDaysThreshold : Z }.
Record MetricsConfig := MkMetricsConfig { mcEnabled : bool; mcPort : Z; mcPath : string }.
Record OperatorConfig := MkOperatorConfig {
  opNamespace : string; opWorkerImage : string; opCoordinatorURL : string; opPollInterval : Z; opMaxJobsPerCycle : Z;
  opRayDashboardURL : string; opKubeconfigPath : string }.
Record LoggingConfig := MkLoggingConfig { Level : string; LogFormat : string }.

Record Config := MkConfig {
  cfStorage : StorageConfig; cfMetadata : MetadataConfig; cfCoordinator : CoordinatorConfig; cfWorker : WorkerConfig;
  cfOperator : OperatorConfig; cfServer : ServerConfig; cfIngestion : IngestionConfig; cfTiering : TieringConfig;
  cfMetrics : MetricsConfig; cfLogging : LoggingConfig }.

(** Durations are nanoseconds. *)
Definition seconds (n : Z) : Z := n * Second.

Definition DefaultConfig : Config := {|
  cfStorage := MkStorageConfig "http://localhost:9000" "us-east-1" "petabyte-images" "minioadmin" "minioadmin" true
    (100 * 1024 * 1024) (64 * 1024 * 1024) 8;
  cfMetadata := MkMetadataConfig "./metadata.db";
  cfCoordinator := MkCoordinatorConfig "0.0.0.0" 8090 (seconds 10) (seconds 20) (seconds 5) (seconds 1) 150 3 0 "./coordinator-wal" (seconds 30)
    0 (MkRaftConfig 0 0 []) 0 "" (of_Z 50) 100;
  cfWorker := MkWorkerConfig "" "http://localhost:8090" "0.0.0.0" 9001 4 (seconds 2) (seconds 5);
  cfOperator := MkOperatorConfig "petabyte" "petabyte-worker:latest" "http://coordinator:8090" (seconds 5) 10 "" "";
  cfServer := MkServerConfig "0.0.0.0" 8080 "./metadata.db" "./registry.db" (MkSearchConfig "" "");
  cfIngestion := MkIngestionConfig 16 100 500;
  cfTiering := MkTieringConfig 30 90 365;
  cfMetrics := MkMetricsConfig true 9090 "/metrics";
  cfLogging := MkLoggingConfig "info" "text" |}.

Definition RaftConfig_Enabled (r : RaftConfig) : bool := (raftID r >? 0) && (0 <? length (raftPeers r))%nat.

(** What [os.ReadFile] finds; [overlay] sets the fields a document names. *)
Inductive read_file := FileMissing | FileError (e : string) | FileData (data : list byte).
Definition Load (overlay : list byte → Config → result Config) (f : read_file) : result Config :=
  match f with
  | FileMissing => Ok DefaultConfig
  | FileError e => Err ("read config: " +:+ e)
  | FileData data => match overlay data DefaultConfig with Err e => Err ("parse config: " +:+ e) | Ok cfg => Ok cfg end
  end.

(** ** The coordinator program *)

Definition coord_config (c : CoordinatorConfig) : CoordConfig :=
  MkCoordConfig (ccVnodesPerNode c) (ccSuspectTimeout c) (ccDeadTimeout c) (ccTaskMaxRetries c) (ccLeaseChunk c).

(** The raft transport's peers and the group's ids; of two peers with one id the
    last address counts. *)
Definition raft_peers (rc : RaftConfig) : gmap Z string := foldl (λ m p, <[rpID p := rpAddress p]> m) ∅ (raftPeers rc).
Definition raft_ids (rc : RaftConfig) : list Z := map rpID (raftPeers rc).

(** What the program finds when it opens listeners and clients. *)
Record Outside := MkOutside { raft_start : option string; raft_listen : option string; storage_client : option string; grpc_listen : option string }.

(** [startRaft]: the node's [Start] or the listener may fail. *)
Definition startRaft (o : Outside) (c : CoordinatorConfig) : result unit :=
  match raft_start o with
  | Some e => Err ("start raft node: " +:+ e)
  | None =>
      match raft_listen o with
      | Some e => Err ("listen raft " +:+ ccHost c +:+ ":" +:+ fmt_d (raftPort (ccRaft c)) +:+ ": " +:+ e)
      | None => Ok tt
      end
  end.

(** [startGRPC]: the secret and the limits of the server, if there is one. *)
Definition startGRPC (o : Outside) (c : CoordinatorConfig) : result (option (string * float64 * Z)) :=
  if ccGRPCPort c <=? 0 then Ok None
  else if bool_decide (ccJWTSecret c = "") then Err "grpc_port set but jwt_secret is empty; refusing to serve an unauthenticated API"
  else match grpc_listen o with
  | Some e => Err ("listen grpc " +:+ ccHost c +:+ ":" +:+ fmt_d (ccGRPCPort c) +:+ ": " +:+ e)
  | None => Ok (Some (ccJWTSecret c, ccRateLimitPerSec c, ccRateLimitBurst c))
  end.

Section start.
Context {W : Type} `{StateCodec}.

(** [main] up to the point where it serves: an error exits the program. *)
Definition setup_admission (cfg : Config) (c : Coordinator W) : Coordinator W :=
  let n := ccMaxInFlightJobs (cfCoordinator cfg) in
  if n >? 0 then EnableAdmission (SetClass "default" 1 (Admission.New n)) c else c.

Definition setup_raft (o : Outside) (cfg : Config) (c : Coordinator W) : result (Coordinator W) :=
  if RaftConfig_Enabled (ccRaft (cfCoordinator cfg))
  then result_bind (λ _, Ok (EnableRaftCommit c)) (startRaft o (cfCoordinator cfg)) else Ok c.

Definition setup_storage (o : Outside) (cfg : Config) (c : Coordinator W) : result (Coordinator W) :=
  if bool_decide (Bucket (cfStorage cfg) ≠ "")
  then match storage_client o with Some e => Err e | None => Ok (EnableResultCommit c) end else Ok c.

Definition setup_wal (cfg : Config) (c : Coordinator W) : result (Coordinator W) :=
  if bool_decide (ccWALDir (cfCoordinator cfg) ≠ "")
  then match EnablePersistence (ccCheckpointInterval (cfCoordinator cfg)) c with (Err e, _) => Err e | (Ok _, c) => Ok c end else Ok c.

Definition setup (o : Outside) (cfg : Config) (d : Disk) (w : W) : result (Coordinator W * option (string * float64 * Z)) :=
  try c ← setup_raft o cfg (setup_admission cfg (Coordinator.New (coord_config (cfCoordinator cfg)) d w));
  try c ← setup_storage o cfg c;
  try c ← setup_wal cfg c;
  try g ← startGRPC o (cfCoordinator cfg);
  Ok (c, g).

Lemma EnablePersistence_parts interval (c c' : Coordinator W) : EnablePersistence interval c = (Ok tt, c') →
  attached c' = attached c ∧ admission c' = admission c ∧ is_Some (wal c') ∧ is_Some (store (sched c')).
Proof.
  unfold EnablePersistence. destruct (OpenWAL (disk c)) as [[[w rec]|e] d]; [|done]. destruct (Restore _ _ _ _) as [s|]; [|done].
  intros [= <-]. cbn. unfold AttachStore. cbn. split_and!; [done|done|by eexists|by destruct (store s); eexists].
Qed.

(** What a coordinator that serves has been given: output promotion exactly
    with a bucket, agreed commits exactly with a raft group, admission control
    exactly with a positive limit, a log exactly with a directory -- and never
    the side effect -- and a gRPC interface only with a secret to check tokens
    with. *)
Theorem setup_follows_config o cfg d w c g : setup o cfg d w = Ok (c, g) →
  (hasCommitter (attached c) = true ↔ Bucket (cfStorage cfg) ≠ ""%string) ∧
  (hasDecider (attached c) = true ↔ 0 < raftID (ccRaft (cfCoordinator cfg)) ∧ raftPeers (ccRaft (cfCoordinator cfg)) ≠ []) ∧
  hasEffect (attached c) = false ∧
  (is_Some (admission c) ↔ 0 < ccMaxInFlightJobs (cfCoordinator cfg)) ∧
  (is_Some (wal c) ↔ ccWALDir (cfCoordinator cfg) ≠ ""%string) ∧
  (is_Some g ↔ 0 < ccGRPCPort (cfCoordinator cfg)) ∧
  ∀ secret r b, g = Some (secret, r, b) → secret = ccJWTSecret (cfCoordinator cfg) ∧ secret ≠ ""%string.
Proof.
  unfold setup. set (c0 := setup_admission cfg _).
  assert (H0 : attached c0 = MkAttached false false false ∧ wal c0 = None ∧ (is_Some (admission c0) ↔ 0 < ccMaxInFlightJobs (cfCoordinator cfg))).
  { unfold c0, setup_admission. rewrite Z.gtb_ltb. destruct (Z.ltb_spec 0 (ccMaxInFlightJobs (cfCoordinator cfg))) as [Hn|Hn].
    - split_and!; [done..|]. split; [done|by eexists].
    - split_and!; [done..|]. split; [by intros []|lia]. }
  destruct (setup_raft o cfg c0) as [c1|] eqn:E1; [|done]. cbn [result_bind].
  assert (H1 : hasCommitter (attached c1) = false ∧ hasEffect (attached c1) = false ∧ wal c1 = None ∧ admission c1 = admission c0 ∧
    (hasDecider (attached c1) = true ↔ 0 < raftID (ccRaft (cfCoordinator cfg)) ∧ raftPeers (ccRaft (cfCoordinator cfg)) ≠ [])).
  { destruct H0 as (Ha & Hw & _). unfold setup_raft, RaftConfig_Enabled in E1. rewrite Z.gtb_ltb in E1.
    destruct (Z.ltb_spec 0 (raftID (ccRaft (cfCoordinator cfg)))), (raftPeers (ccRaft (cfCoordinator cfg))) as [|p ps]; cbn [andb length Nat.ltb Nat.leb] in E1;
      [| destruct (startRaft o _); [|done]|..]; injection E1 as <-; cbn; rewrite ?Ha; cbn; split_and!; try done; split; try done; try tauto; lia. }
  clear E1. destruct (setup_storage o cfg c1) as [c2|] eqn:E2; [|done]. cbn [result_bind].
  assert (H2 : (hasCommitter (attached c2) = true ↔ Bucket (cfStorage cfg) ≠ ""%string) ∧ hasEffect (attached c2) = false ∧ wal c2 = None ∧ admission c2 = admission c1 ∧
    hasDecider (attached c2) = hasDecider (attached c1)).
  { destruct H1 as (Hc & He & Hw & _). unfold setup_storage in E2. case_bool_decide as Hb; [destruct (storage_client o); [done|]|]; injection E2 as <-; cbn; split_and!; try done; split; try done; congruence. }
  clear E2. destruct (setup_wal cfg c2) as [c3|] eqn:E3; [|done]. cbn [result_bind].
  assert (H3 : attached c3 = attached c2 ∧ admission c3 = admission c2 ∧ (is_Some (wal c3) ↔ ccWALDir (cfCoordinator cfg) ≠ ""%string)).
  { destruct H2 as (_ & _ & Hw & _). unfold setup_wal in E3. case_bool_decide as Hb.
    - destruct (EnablePersistence _ c2) as [[[]|] c'] eqn:Ep; [|done]. injection E3 as <-. apply EnablePersistence_parts in Ep as (? & ? & ? & _). by split_and!.
    - injection E3 as <-. rewrite Hw. split_and!; [done..|]. split; [by intros []|by intros]. }
  clear E3. destruct H0 as (_ & _ & Hadm), H1 as (_ & _ & _ & Ha1 & Hd), H2 as (Hc & He & _ & Ha2 & Hd2), H3 as (Hat & Ha3 & Hw).
  destruct (startGRPC o (cfCoordinator cfg)) as [g'|] eqn:Eg; [|done]. cbn [result_bind]. intros [= <- <-].
  rewrite Hat, Ha3, Ha2, Ha1, Hd2. split_and!; try done.
  - unfold startGRPC in Eg. destruct (Z.leb_spec (ccGRPCPort (cfCoordinator cfg)) 0); [injection Eg as <-; split; [by intros []|lia]|].
    case_bool_decide; [done|]. destruct (grpc_listen o); [done|]. injection Eg as <-. split; [lia|by eexists].
  - intros secret r b ->. unfold startGRPC in Eg. destruct (_ <=? 0); [done|]. case_bool_decide; [done|]. destruct (grpc_listen o); [done|]. by injection Eg as <- <- <-.
Qed.
End start.

(** A default coordinator, but with a gRPC port and a secret. *)
Definition secured : Config :=
  let c := cfCoordinator DefaultConfig in
  MkConfig (cfStorage DefaultConfig) (cfMetadata DefaultConfig)
    (MkCoordinatorConfig (ccHost c) (ccPort c) (ccSuspectTimeout c) (ccDeadTimeout c) (ccHeartbeatInterval c) (ccDispatchInterval c)
       (ccVnodesPerNode c) (ccTaskMaxRetries c) (ccLeaseChunk c) (ccWALDir c) (ccCheckpointInterval c) 8 (MkRaftConfig 1 7000 [MkRaftPeer 1 "a:7000"])
       9443 "hunter2" (ccRateLimitPerSec c) (ccRateLimitBurst c))
    (cfWorker DefaultConfig) (cfOperator DefaultConfig) (cfServer DefaultConfig) (cfIngestion DefaultConfig) (cfTiering DefaultConfig)
    (cfMetrics DefaultConfig) (cfLogging DefaultConfig).
Definition fine : Outside := MkOutside None None None None.
Definition started (cfg : Config) : option (Attached * option (string * float64 * Z)) :=
  match setup (W := unit) (H := demo_codec) fine cfg empty_disk tt with Ok (c, g) => Some (attached c, g) | Err _ => None end.

Lemma setup_follows_config_witness : ∃ c g, setup (W := unit) (H := demo_codec) fine secured empty_disk tt = Ok (c, g) ∧
  hasCommitter (attached c) = true ∧ hasDecider (attached c) = true ∧ hasEffect (attached c) = false.
Proof.
  destruct (setup (W := unit) (H := demo_codec) fine secured empty_disk tt) as [[c g]|e] eqn:E; [|vm_compute in E; discriminate].
  exists c, g. destruct (setup_follows_config (H := demo_codec) fine secured empty_disk tt c g E) as (H1 & H2 & H3 & _).
  split_and!; [done|apply H1; vm_compute; done|apply H2; vm_compute; done|done].
Defined.

(** The defaults are consistent: a worker heartbeats at least twice before it
    is suspected and is suspected before it is dead; the ring has virtual nodes;
    tiers are left in their order; uploads are cut into parts that S3 takes and
    that are smaller than what is cut; the rate limit is positive. They leave
    gRPC, raft and admission control off, and a default coordinator starts, with
    promotion and a log. A missing file means the defaults, and a file only
    changes what the YAML package sets. *)
Theorem defaults_are_sound (c := cfCoordinator DefaultConfig) :
  2 * ccHeartbeatInterval c ≤ ccSuspectTimeout c < ccDeadTimeout c ∧ wcHeartbeatInterval (cfWorker DefaultConfig) = ccHeartbeatInterval c ∧
  0 < ccVnodesPerNode c ∧ 0 < ccTaskMaxRetries c ∧
  0 < HotDaysThreshold (cfTiering DefaultConfig) < WarmDaysThreshold (cfTiering DefaultConfig) ∧
  WarmDaysThreshold (cfTiering DefaultConfig) < ColdDaysThreshold (cfTiering DefaultConfig) ∧
  5 * 2 ^ 20 ≤ MultipartChunkSize (cfStorage DefaultConfig) ≤ MultipartThreshold (cfStorage DefaultConfig) ∧
  fltb (of_Z 0) (ccRateLimitPerSec c) = true ∧ 0 < ccRateLimitBurst c ∧
  started DefaultConfig = Some (MkAttached true false false, None) ∧
  (∀ overlay, Load overlay FileMissing = Ok DefaultConfig) ∧
  (∀ overlay data cfg, Load overlay (FileData data) = Ok cfg → overlay data DefaultConfig = Ok cfg).
Proof.
  split_and!; try (by vm_compute); try (by intros overlay).
  intros overlay data cfg. cbn. destruct (overlay data DefaultConfig); [|done]. by intros [= ->].
Qed.
