(* ===== verification/CoordSlots.v ===== *)
(** * Admission slots and jobs

    The coordinator holds one ticket for each job it scheduled, from the
    submission to the completion hook.  A submission is three locked steps
    (admit, submit, track), and other calls may come in between. *)
From S2P Require Import Prelude GoLib Storage Ring Membership Wal Admission Job Keys Scheduler SchedInv Tiling SchedSteps.
From S2P Require Import Accounting Persist SchedThms Consensus Commit Coordinator CoordThms.
Open Scope Z_scope.

(** ** The hook's log only grows, and only submissions add jobs *)

Definition extends (s s' : Scheduler) : Prop :=
  dom (jobs s') = dom (jobs s) ∧ ∃ new, onJobDone s' = (λ l, l ++ new) <$> onJobDone s.

#[export] Instance extends_preorder : PreOrder extends.
Proof.
  split.
  - intros s. split; [done|]. exists []. destruct (onJobDone s); simpl; [by rewrite app_nil_r|done].
  - intros s1 s2 s3 [E1 [n1 H1]] [E2 [n2 H2]]. split; [congruence|]. exists (n1 ++ n2). rewrite H2, H1.
    destruct (onJobDone s1); simpl; [by rewrite (assoc_L (++))|done].
Qed.

Lemma extends_same s s' : dom (jobs s') = dom (jobs s) → onJobDone s' = onJobDone s → extends s s'.
Proof. intros Ej Eh. split; [done|]. exists []. rewrite Eh. destruct (onJobDone s); simpl; [by rewrite app_nil_r|done]. Qed.

Lemma extends_persist s s' : extends s s' → extends s (persistLocked s').
Proof. intros Hs. etrans; [exact Hs|]. apply extends_same; [by rewrite jobs_persist|apply hook_persisted]. Qed.

Lemma extends_update now jid s : extends s (updateJob now jid s).
Proof.
  unfold updateJob. destruct (jobs s !! jid) as [j|] eqn:Hj; [|done].
  assert (∀ j', dom (<[jid := j']> (jobs s)) = dom (jobs s)) as Hd.
  { intros j'. rewrite dom_insert_L. apply elem_of_dom_2 in Hj. set_solver. }
  set (p := count_status (λ x, x ≠ TaskDone ∧ x ≠ TaskFailed) (job_tasks jid s)).
  destruct (p >? 0); [apply extends_same; simpl; [apply Hd|done]|].
  unfold call_hook. match goal with |- context [onJobDone ?x] => destruct (onJobDone x) eqn:E end; simpl in *.
  - split; simpl; [apply Hd|]. exists [jid]. by rewrite E.
  - apply extends_same; simpl; [apply Hd|done].
Qed.

Lemma extends_bump jid s : extends s (bump_total jid s).
Proof.
  apply extends_same; [|apply bump_hook]. unfold bump_total. destruct (jobs s !! jid) eqn:Hj; [|done].
  simpl. rewrite dom_insert_L. apply elem_of_dom_2 in Hj. set_solver.
Qed.

Lemma extends_fold {A} (f : A * Scheduler → string → A * Scheduler) acc l :
  (∀ acc x, extends acc.2 (f acc x).2) → extends acc.2 (foldl f acc l).2.
Proof. intros Hf. apply (foldl_inv (λ x, extends acc.2 x.2)); [done|]. intros y x _ Hy. by etrans. Qed.

(** Calls that neither submit nor install the hook. *)
Definition plain (o : op) : bool := match o with OpSubmit _ _ _ _ _ | OpSetHook => false | _ => true end.

Lemma run_op_extends {R} `{ShardOwner R} (r : R) o s :
  sched_ok s → plain o = true → extends s (run_op r o s).
Proof.
  intros Hs Hp. destruct o; try done; simpl in *.
  - destruct (PollTasks_outcome r now order newID workerID s Hs) as (a & _ & Hout).
    destruct Hout; [| |done]; apply extends_persist; [by apply extends_same|].
    etrans; [|apply extends_bump]. by apply extends_same.
  - unfold StartTask. case_match; [by apply extends_persist, extends_same|done].
  - unfold report_finish. repeat (case_match; simpl); try done; apply extends_persist;
      try (by apply extends_same); (etrans; [|apply extends_update]; by apply extends_same).
  - unfold RenewLease. case_match; [by apply extends_persist, extends_same|done].
  - unfold RebalanceWorker.
    pose proof (extends_fold (rebalance_step now workerID) (0%nat, s) order) as He.
    destruct (foldl _ _ order) as [n s']. simpl in He.
    assert (extends s s') as Hs'; [|case_match; [by apply extends_persist|done]]. apply He.
    intros [k x] id. simpl. destruct (tasks x !! id); [|done]. repeat case_match; simpl; try done.
    + by apply extends_same.
    + etrans; [|apply extends_update]. by apply extends_same.
  - unfold DrainPending. set (m := if n >? _ then _ else n).
    destruct (m =? 0); [done|]. destruct (m <? 0); [done|].
    match goal with |- context [foldl ?f (?o, ?s0) ?ids] => pose proof (extends_fold f (o, s0) ids) as He end.
    destruct (foldl _ _ _) as [out s']. cbn [snd] in *. apply extends_persist. etrans; [|apply He].
    + by apply extends_same.
    + intros acc id. destruct (hook_drain_step now acc id) as [E1 E2]. apply extends_same; [by rewrite E1|done].
  - unfold SetLeaseChunk. case_match; by apply extends_same.
  - by apply extends_same.
Qed.

(** ** Tickets in someone's hands *)

Definition accounted (ctl : Controller) (L : list Ticket) : Prop :=
  (∀ t, t ∈ L → tkReleased t = false) ∧ ctotal ctl = Z.of_nat (length L) ∧
  (∀ tenant, held tenant ctl = Z.of_nat (length (filter (λ t, tkTenant t = tenant) L))) ∧
  ctotal ctl ≤ MaxInFlight ctl.

#[export] Instance accounted_proper ctl : Proper ((≡ₚ) ==> iff) (accounted ctl).
Proof.
  assert (∀ L L', L ≡ₚ L' → accounted ctl L → accounted ctl L') as Himp.
  { intros L L' HL (H1 & H2 & H3 & H4). split_and!; [|by rewrite <- HL| |done].
    - intros t. rewrite <- HL. apply H1.
    - intros tenant. by rewrite <- HL. }
  intros L L' HL. split; by apply Himp.
Qed.

Lemma accounted_admit tenant ctl t ctl' L :
  Admit tenant ctl = (Ok t, ctl') → accounted ctl L → accounted ctl' (t :: L).
Proof.
  intros Ha (H1 & H2 & H3 & H4). destruct (Admit_cases tenant ctl) as [(e & He & _)|(w & _ & _ & Hm & E)].
  { rewrite Ha in He. done. }
  rewrite Ha in E. injection E as -> ->. split_and!; simpl; [| |intros tn|done].
  - intros t. rewrite elem_of_cons. intros [->|Ht]; [done|by apply H1].
  - lia.
  - unfold held at 1. simpl. rewrite held_insert, filter_cons. simpl.
    destruct (decide (tenant = tn)) as [->|]; [|apply H3]. simpl. rewrite H3. lia.
Qed.

Lemma accounted_shed tenant ctl e ctl' L :
  Admit tenant ctl = (Err e, ctl') → accounted ctl L → accounted ctl' L.
Proof.
  intros Ha Hacc. destruct (Admit_cases tenant ctl) as [(e' & _ & Hc)|(w & _ & _ & _ & E)].
  - rewrite Ha in Hc. simpl in Hc. by subst ctl'.
  - by rewrite Ha in E.
Qed.

Lemma accounted_release t ctl L : accounted ctl (t :: L) → accounted (Release t ctl).2 L.
Proof.
  intros (H1 & H2 & H3 & H4). unfold Release. rewrite (H1 t) by set_solver. simpl.
  pose proof (H3 (tkTenant t)) as Ht. rewrite filter_cons, decide_True in Ht by done. simpl in Ht.
  destruct (held (tkTenant t) ctl >? 0) eqn:E; bool_to_prop; [|lia].
  simpl in H2. split_and!; simpl; [intros; apply H1; set_solver|lia| |lia].
  intros tn. unfold held at 1. simpl. rewrite held_insert. specialize (H3 tn). rewrite filter_cons in H3. simpl in H3.
  destruct (decide (tkTenant t = tn)) as [<-|]; simpl in *; [lia|done].
Qed.

(** ** The system *)

Section slots.
Context {W : Type} `{StateCodec}.
Implicit Types c : Coordinator W.

Definition tickets_of c : list Ticket := (map_to_list (tickets c)).*2.

Lemma release_accounted c jid ctl L :
  admission c = Some ctl → accounted ctl (L ++ tickets_of c) →
  ∃ ctl', admission (releaseTicket c jid) = Some ctl' ∧ accounted ctl' (L ++ tickets_of (releaseTicket c jid)) ∧
    tickets (releaseTicket c jid) = delete jid (tickets c).
Proof.
  intros Ha Hacc. unfold releaseTicket. destruct (tickets c !! jid) as [t|] eqn:Ht.
  2:{ exists ctl. split_and!; [done|done|]. symmetry. by apply delete_id. }
  destruct (admission (c <| tickets := delete jid (tickets c) |>)) as [ctl0|] eqn:E; simpl in E; [|congruence].
  assert (ctl0 = ctl) as -> by congruence. eexists. split; [reflexivity|]. split; [|done].
  apply accounted_release. unfold tickets_of in *. simpl.
  rewrite <- (map_to_list_delete (tickets c) jid t Ht) in Hacc. simpl in Hacc.
  by rewrite <- Permutation_middle in Hacc.
Qed.

Lemma releases_accounted calls c ctl L :
  admission c = Some ctl → accounted ctl (L ++ tickets_of c) →
  ∃ ctl', admission (foldl releaseTicket c calls) = Some ctl' ∧
    accounted ctl' (L ++ tickets_of (foldl releaseTicket c calls)) ∧
    ∀ jid, tickets (foldl releaseTicket c calls) !! jid = if decide (jid ∈ calls) then None else tickets c !! jid.
Proof.
  revert c ctl. induction calls as [|x calls IH]; intros c ctl Ha Hacc; cbn [foldl].
  - exists ctl. split_and!; [done..|]. intros jid. by rewrite decide_False by set_solver.
  - destruct (release_accounted c x ctl L Ha Hacc) as (ctl1 & Ha1 & Hacc1 & Ht1).
    destruct (IH _ ctl1 Ha1 Hacc1) as (ctl2 & Ha2 & Hacc2 & Ht2). exists ctl2. split_and!; [done..|].
    intros jid. rewrite Ht2, Ht1, lookup_delete. repeat case_decide; subst; try done; set_solver.
Qed.

Lemma appends_frame io c recs :
  admission (foldl (append_record io) c recs) = admission c ∧ tickets (foldl (append_record io) c recs) = tickets c.
Proof.
  apply (foldl_inv (λ x, admission x = admission c ∧ tickets x = tickets c)); [done|].
  intros x st _ [<- <-]. unfold append_record. destruct (wal x) as [w|]; [|done].
  by destruct (Wal.Append io (marshal st) w (disk x)) as [[r w'] d'].
Qed.

Lemma locked_accounted io s' c ctl L :
  admission c = Some ctl → accounted ctl (L ++ tickets_of c) →
  ∃ ctl', admission (locked io s' c) = Some ctl' ∧ accounted ctl' (L ++ tickets_of (locked io s' c)) ∧
    ∀ jid, tickets (locked io s' c) !! jid = if decide (jid ∈ new_calls (sched c) s') then None else tickets c !! jid.
Proof.
  intros Ha Hacc. destruct (releases_accounted (new_calls (sched c) s') c ctl L Ha Hacc) as (ctl' & Ha' & Hacc' & Ht').
  unfold locked. set (c1 := foldl releaseTicket c _) in *.
  destruct (appends_frame io c1 (new_records (sched c) s')) as [E1 E2].
  exists ctl'. unfold tickets_of. simpl. rewrite E1, E2. by split_and!.
Qed.

(** Requests that were admitted and not yet submitted, and jobs that were
    submitted and whose ticket is not yet tracked. *)
Record FrontDesk := MkFront { coord : Coordinator W; waiting : list Ticket; untracked : list (string * Ticket) }.

Inductive front_step : FrontDesk → FrontDesk → Prop :=
| ds_admit tenant t ctl ctl' c ws us :
    admission c = Some ctl → Admit tenant ctl = (Ok t, ctl') →
    front_step (MkFront c ws us) (MkFront (c <| admission := Some ctl' |>) (t :: ws) us)
| ds_shed tenant e ctl ctl' c ws us :
    admission c = Some ctl → Admit tenant ctl = (Err e, ctl') →
    front_step (MkFront c ws us) (MkFront (c <| admission := Some ctl' |>) ws us)
| ds_submit io created now jid tids req i t c ws us :
    ws !! i = Some t → valid_op (OpSubmit created now jid tids req) (sched c) →
    front_step (MkFront c ws us)
      (MkFront (locked io (Submit created now jid tids req (sched c)).2 c) (remove_at i ws) ((jid, t) :: us))
| ds_track i jid t c ws us :
    us !! i = Some (jid, t) → front_step (MkFront c ws us) (MkFront (trackTicket jid t c) ws (remove_at i us))
| ds_call io o c ws us :
    valid_op o (sched c) → plain o = true →
    front_step (MkFront c ws us) (MkFront (locked io (run_op (mRing (membership c)) o (sched c)) c) ws us)
| ds_member o c ws us :
    front_step (MkFront c ws us) (MkFront (c <| membership := Membership.apply_op o (membership c) |>) ws us)
| ds_checkpoint fail c ws us : front_step (MkFront c ws us) (MkFront (checkpoint fail c).2 ws us).

(** Every slot is in someone's hands, and no two of the jobs that hold one
    share an id. *)
Record front_inv (d : FrontDesk) : Prop := {
  di_sched : sched_ok (sched (coord d));
  di_acc : ∃ ctl, admission (coord d) = Some ctl ∧
    accounted ctl ((waiting d ++ (untracked d).*2) ++ tickets_of (coord d));
  di_ids : NoDup (untracked d).*1 ∧ ∀ jid, jid ∈ (untracked d).*1 → tickets (coord d) !! jid = None;
  di_jobs : ∀ jid, jid ∈ (untracked d).*1 ∨ is_Some (tickets (coord d) !! jid) → is_Some (jobs (sched (coord d)) !! jid);
}.

Lemma checkpoint_frame fail c :
  sched (checkpoint fail c).2 = sched c ∧ admission (checkpoint fail c).2 = admission c ∧
  tickets (checkpoint fail c).2 = tickets c.
Proof.
  unfold checkpoint, checkpoint_write. destruct (wal c) as [w|]; [|done].
  by destruct (Wal.Checkpoint fail (checkpoint_snapshot c) w (disk c)).
Qed.

Lemma extends_jobs s s' jid : extends s s' → is_Some (jobs s' !! jid) ↔ is_Some (jobs s !! jid).
Proof. intros [E _]. rewrite <- !elem_of_dom. by rewrite E. Qed.

Lemma front_step_inv d d' : front_inv d → front_step d d' → front_inv d'.
Proof.
  intros [Hs (ctl & Ha & Hacc) [Hnd Hdis] Hj] Hst.
  destruct Hst as [tenant t ctl1 ctl' c ws us Ha1 Had|tenant e ctl1 ctl' c ws us Ha1 Had|
    io created now jid tids req i t c ws us Hi Hv|i jid t c ws us Hi|io o c ws us Hv Hp|o c ws us|fail c ws us]; cbn [coord waiting untracked] in *.
  - assert (ctl1 = ctl) as -> by congruence. split; simpl; [done| |done|done]. eexists. split; [done|].
    by apply (accounted_admit tenant ctl).
  - assert (ctl1 = ctl) as -> by congruence. split; simpl; [done| |done|done]. eexists. split; [done|].
    by apply (accounted_shed tenant ctl e).
  - destruct (locked_accounted io (Submit created now jid tids req (sched c)).2 c ctl (ws ++ us.*2) Ha Hacc)
      as (ctl' & Ha' & Hacc' & Ht').
    destruct (Submit_jobs created now jid tids req (sched c)) as (j & _ & Ej).
    assert (jobs (sched c) !! jid = None) as Hnew by apply Hv.
    assert (jid ∉ us.*1 ∧ tickets c !! jid = None) as [Hnu Hnt].
    { split; [intros Hu; destruct (Hj jid (or_introl Hu)); congruence|].
      destruct (tickets c !! jid) eqn:E; [|done]. destruct (Hj jid) as [? ?]; [right; by eexists|congruence]. }
    assert (∀ x, tickets c !! x = None → tickets (locked io (Submit created now jid tids req (sched c)).2 c) !! x = None) as Hkeep.
    { intros x Hx. rewrite Ht'. by case_decide. }
    assert (sched_ok (Submit created now jid tids req (sched c)).2) as Hs'
      by (by apply (run_op_ok (mRing (membership c)) (OpSubmit created now jid tids req))).
    set (s' := (Submit created now jid tids req (sched c)).2) in *.
    assert (sched (locked io s' c) = s') as Esc by done. split; cbn [coord waiting untracked]; rewrite ?Esc.
    + exact Hs'.
    + exists ctl'. split; [done|]. rewrite (remove_at_perm i ws t Hi) in Hacc'.
      simpl in Hacc'. simpl. by rewrite <- Permutation_middle.
    + cbn [fmap list_fmap fst]. split; [by apply NoDup_cons|]. intros x. rewrite elem_of_cons. intros [->|Hx]; [by apply Hkeep|by apply Hkeep, Hdis].
    + intros x Hx. rewrite Ej, lookup_insert. case_decide; [by eexists|]. apply Hj.
      destruct Hx as [Hx|Hx]; [left; set_solver|right]. rewrite Ht' in Hx. case_decide; [by destruct Hx|done].
  - assert (us ≡ₚ (jid, t) :: remove_at i us) as Hp by (by apply remove_at_perm).
    assert (jid ∈ us.*1) as Hin by (rewrite Hp; simpl; set_solver).
    pose proof (Hdis jid Hin) as Hnone. rewrite Hp in Hnd. simpl in Hnd. apply NoDup_cons in Hnd as [Hni Hnd].
    split; simpl; [done| |split; [done|]|].
    + exists ctl. split; [done|]. unfold tickets_of in *. simpl. rewrite map_to_list_insert by done. simpl.
      rewrite <- Permutation_middle. rewrite Hp in Hacc. simpl in Hacc. by rewrite <- Permutation_middle in Hacc.
    + intros x Hx. rewrite lookup_insert_ne by (by intros ->). apply Hdis. rewrite Hp. simpl. set_solver.
    + intros x Hx. apply Hj. destruct Hx as [Hx|Hx]; [left; rewrite Hp; simpl; set_solver|].
      rewrite lookup_insert in Hx. case_decide; [subst; by left|by right].
  - destruct (locked_accounted io (run_op (mRing (membership c)) o (sched c)) c ctl (ws ++ us.*2) Ha Hacc)
      as (ctl' & Ha' & Hacc' & Ht').
    pose proof (run_op_extends (mRing (membership c)) o (sched c) Hs Hp) as He.
    split; simpl; [by apply run_op_ok|by exists ctl'|split; [done|]|].
    + intros x Hx. rewrite Ht'. case_decide; [done|by apply Hdis].
    + intros x Hx. apply (extends_jobs _ _ x He), Hj. destruct Hx as [Hx|Hx]; [by left|right].
      rewrite Ht' in Hx. case_decide; [by destruct Hx|done].
  - split; simpl; [done|by exists ctl|done|done].
  - destruct (checkpoint_frame fail c) as (E1 & E2 & E3). split; unfold tickets_of; simpl; rewrite ?E1, ?E2, ?E3; try done.
    by exists ctl.
Qed.

(** A coordinator with admission control enabled, before it serves. *)
Definition opens (ctl : Controller) (d : FrontDesk) : Prop :=
  ∃ c, sched_ok (sched c) ∧ configured ctl ∧ d = MkFront (EnableAdmission ctl c) [] [].

Lemma opens_inv ctl d : opens ctl d → front_inv d.
Proof.
  intros (c & Hs & Hc & ->). destruct (configured_ok ctl Hc) as ([Hd1 Hd2 Hd3] & _ & _ & Hh).
  split; simpl; [|exists ctl; split; [done|]|split; [constructor|set_solver]|intros x [?|[? Hx]]; [set_solver|by rewrite lookup_empty in Hx]].
  - destruct Hs. by split.
  - unfold tickets_of. simpl. rewrite map_to_list_empty. simpl in *. split_and!; simpl; [set_solver|done| |lia].
    intros tn. by rewrite Hh.
Qed.

(** No slot is lost and none is counted twice.  However requests, tracking
    of tickets, scheduler calls, membership changes and checkpoints interleave,
    the slots taken are exactly the requests being submitted, the jobs whose
    ticket is about to be tracked and the tickets tracked, and they never
    exceed the cap. *)
Theorem slots_accounted ctl d d' :
  opens ctl d → rtc front_step d d' →
  ∃ ctl', admission (coord d') = Some ctl' ∧
    ctotal ctl' = Z.of_nat (length (waiting d') + length (untracked d') + size (tickets (coord d'))) ∧
    ctotal ctl' ≤ MaxInFlight ctl'.
Proof.
  intros Ho Hs. assert (front_inv d') as [_ (ctl' & Ha & _ & Ht & _ & Hm) _ _].
  { pose proof (opens_inv ctl d Ho) as Hi. clear Ho. induction Hs; [done|]. apply IHHs. by eapply front_step_inv. }
  exists ctl'. split_and!; [done| |done]. rewrite Ht. unfold tickets_of.
  rewrite !length_app, !length_fmap, length_map_to_list. done.
Qed.

(** ** Tickets tracked at once

    When nothing comes between a submission and the tracking of its ticket,
    and late results do not arrive. *)
Inductive prompt_step : Coordinator W → Coordinator W → Prop :=
| ps_submit io tenant t ctl ctl' created now jid tids req c :
    admission c = Some ctl → Admit tenant ctl = (Ok t, ctl') →
    valid_op (OpSubmit created now jid tids req) (sched c) →
    prompt_step c (trackTicket jid t
      (locked io (Submit created now jid tids req (sched c)).2 (c <| admission := Some ctl' |>)))
| ps_shed tenant e ctl ctl' c :
    admission c = Some ctl → Admit tenant ctl = (Err e, ctl') → prompt_step c (c <| admission := Some ctl' |>)
| ps_call io o c :
    valid_op o (sched c) → plain o = true → polite o (sched c) → punctual o (sched c) →
    prompt_step c (locked io (run_op (mRing (membership c)) o (sched c)) c)
| ps_member o c : prompt_step c (c <| membership := Membership.apply_op o (membership c) |>)
| ps_checkpoint fail c : prompt_step c (checkpoint fail c).2.

Definition unfinished (s : Scheduler) (jid : string) : Prop := is_Some (jobs s !! jid) ∧ ¬ job_terminal s jid.

Record prompt_inv c : Prop := {
  pi_sched : sched_ok (sched c); pi_acct : acct_ok (sched c); pi_hook : hook_ok (sched c);
  pi_on : is_Some (onJobDone (sched c));
  pi_slots : ∃ ctl, admission c = Some ctl ∧ accounted ctl ([] ++ tickets_of c);
  pi_jobs : ∀ jid, is_Some (tickets c !! jid) ↔ unfinished (sched c) jid;
}.

Lemma prompt_submit io tenant t ctl ctl' created now jid tids req c :
  prompt_inv c → admission c = Some ctl → Admit tenant ctl = (Ok t, ctl') →
  valid_op (OpSubmit created now jid tids req) (sched c) →
  prompt_inv (trackTicket jid t
      (locked io (Submit created now jid tids req (sched c)).2 (c <| admission := Some ctl' |>))).
Proof.
  intros [H1 H2 H3 [calls H4] (ctl0 & Ha0 & Hacc) Hjobs] Ha Had Hv.
  assert (ctl0 = ctl) as -> by congruence. set (c0 := c <| admission := Some ctl' |>).
  destruct (Submit_jobs created now jid tids req (sched c)) as (j & Hrun & Ej).
  pose proof (Submit_hook created now jid tids req (sched c)) as Eh.
  assert (jobs (sched c) !! jid = None) as Hnew by apply Hv.
  assert (sched_ok (Submit created now jid tids req (sched c)).2 ∧ acct_ok (Submit created now jid tids req (sched c)).2 ∧
    hook_ok (Submit created now jid tids req (sched c)).2) as (Hs' & Hac' & Hh').
  { split_and!; [by apply Submit_ok, Hv|by apply acct_Submit, Hv|by apply hook_Submit]. }
  set (s' := (Submit created now jid tids req (sched c)).2) in *.
  assert (accounted ctl' ([t] ++ tickets_of c0)) as Hacc0 by (by apply (accounted_admit tenant ctl)).
  destruct (locked_accounted io s' c0 ctl' [t] eq_refl Hacc0) as (ctl2 & Ha2 & Hacc2 & Ht2).
  assert (new_calls (sched c0) s' = []) as Hnc.
  { unfold new_calls. change (sched c0) with (sched c). rewrite Eh, H4. by apply drop_ge. }
  assert (tickets (locked io s' c0) = tickets c) as Et.
  { apply map_eq. intros x. rewrite Ht2, Hnc, decide_False by set_solver. done. }
  assert (tickets c !! jid = None) as Hnt.
  { destruct (tickets c !! jid) eqn:E; [|done]. destruct (proj1 (Hjobs jid)) as [[? ?] _]; [by eexists|congruence]. }
  assert (sched (trackTicket jid t (locked io s' c0)) = s') as Es by done.
  split; rewrite ?Es; [done..|by exists calls; rewrite Eh| |].
  - exists ctl2. split; [done|].
    change (tickets_of (trackTicket jid t (locked io s' c0))) with (map_to_list (<[jid := t]> (tickets (locked io s' c0)))).*2.
    unfold tickets_of in Hacc2. rewrite Et in *. rewrite map_to_list_insert by done. exact Hacc2.
  - intros x. change (tickets (trackTicket jid t (locked io s' c0))) with (<[jid := t]> (tickets (locked io s' c0))).
    rewrite Et, lookup_insert. unfold unfinished, job_terminal. rewrite Ej, lookup_insert.
    case_decide as Hx; [|apply Hjobs]. subst. split; [|by eexists].
    intros _. split; [by eexists|]. intros (j' & [= <-] & [?|?]); congruence.
Qed.

Lemma prompt_call io o c :
  prompt_inv c → valid_op o (sched c) → plain o = true → polite o (sched c) → punctual o (sched c) →
  prompt_inv (locked io (run_op (mRing (membership c)) o (sched c)) c).
Proof.
  intros [H1 H2 H3 [calls H4] (ctl & Ha & Hacc) Hjobs] Hv Hp Hpo Hpu.
  set (r := mRing (membership c)).
  pose proof (run_op_extends r o (sched c) H1 Hp) as [Ed [new En]]. rewrite H4 in En. simpl in En.
  pose proof (run_op_ok r o (sched c) H1 Hv) as Hs'. pose proof (run_op_acct r o (sched c) H1 H2 Hv Hpo) as Hac'.
  pose proof (run_op_hook r o (sched c) H1 H2 H3 Hv Hpu) as Hh'. set (s' := run_op r o (sched c)) in *.
  destruct (locked_accounted io s' c ctl [] Ha Hacc) as (ctl' & Ha' & Hacc' & Ht').
  assert (new_calls (sched c) s' = new) as Hnc.
  { unfold new_calls. rewrite H4, En. apply drop_app_length. }
  assert (sched (locked io s' c) = s') as Es by done.
  split; rewrite ?Es; [done..|by eexists|by exists ctl'|].
  intros x. rewrite Ht', Hnc. destruct (H3 calls H4) as [_ Hold]. destruct (Hh' _ En) as [_ Hnew].
  unfold unfinished. rewrite <- (Hnew x), <- elem_of_dom, Ed, elem_of_dom, elem_of_app, Hold.
  specialize (Hjobs x). unfold unfinished in Hjobs.
  case_decide; [split; [by intros [? ?]|intros [_ ?]; tauto]|]. rewrite Hjobs. tauto.
Qed.

Lemma prompt_step_inv c c' : prompt_inv c → prompt_step c c' → prompt_inv c'.
Proof.
  intros Hi Hst. destruct Hst as [| tenant e ctl ctl' c Ha Had| |o c|fail c]; [by eapply prompt_submit| |by apply prompt_call| |].
  - destruct Hi as [I1 I2 I3 I4 (ctl0 & Ha0 & Hacc) I6]. split; simpl; try done. exists ctl'. split; [done|].
    assert (ctl0 = ctl) as -> by congruence. by apply (accounted_shed tenant ctl e).
  - destruct Hi as [I1 I2 I3 I4 I5 I6]. by split.
  - destruct (checkpoint_frame fail c) as (E1 & E2 & E3). destruct Hi as [I1 I2 I3 I4 I5 I6].
    split; unfold tickets_of; rewrite ?E1, ?E2, ?E3; done.
Qed.

Lemma prompt_start cfg ctl d (w : W) :
  configured ctl → LeaseChunk cfg ≤ items_max → prompt_inv (EnableAdmission ctl (Coordinator.New cfg d w)).
Proof.
  intros Hc Hch. set (c := Coordinator.New cfg d w).
  assert (sched_ok (sched c) ∧ jobs (sched c) = ∅ ∧ tasks (sched c) = ∅) as (Hs & Ej & Et).
  { unfold c, Coordinator.New. simpl. pose proof (New_ok (TaskMaxRetries cfg)) as Hn.
    destruct (LeaseChunk cfg >? 0); [|done]. split; [by apply SetLeaseChunk_ok|].
    unfold SetLeaseChunk. by case_match. }
  clearbody c. split; simpl; [by destruct Hs; split| | |by eexists| |].
  - split; simpl; intros *; [rewrite Ej|rewrite Et]; by rewrite lookup_empty.
  - intros calls [= <-]. split; [constructor|]. intros jid. split; [set_solver|].
    intros (j & Hj & _). simpl in Hj. rewrite Ej in Hj. by rewrite lookup_empty in Hj.
  - destruct (configured_ok ctl Hc) as ([Hd1 Hd2 Hd3] & _ & _ & Hh). exists ctl. split; [done|].
    unfold tickets_of. simpl in *. rewrite map_to_list_empty. split_and!; simpl; [set_solver|done| |lia].
    intros tn. by rewrite Hh.
  - intros jid. rewrite lookup_empty. unfold unfinished. simpl. rewrite Ej, lookup_empty.
    split; [by intros [? ?]|by intros [[? ?] _]].
Qed.

End slots.

(** ** Examples *)

Definition one_slot : Controller := SetClass "default" 1 (Admission.New 1).
Definition desk_cfg : CoordConfig := MkCoordConfig 1 10 20 0 0.
Definition desk_c0 : Coordinator unit := EnableAdmission one_slot (Coordinator.New desk_cfg empty_disk tt).

Lemma one_slot_configured : configured one_slot.
Proof. apply conf_class, conf_new. Qed.

Definition demo_ticket : Ticket := MkTicket "default" false.
Notation admitted_c := (desk_c0 <| admission := Some (Admit "default" one_slot).2 |>) (only parsing).
Notation submitted_c := (locked (H := demo_codec) AOk (Submit 1 2 "job" ["t1"] demo_req (sched admitted_c)).2 admitted_c)
  (only parsing).

Lemma desk_submit_valid c : jobs c = ∅ → tasks c = ∅ → valid_op (OpSubmit 1 2 "job" ["t1"] demo_req) c.
Proof.
  intros Ej Et. split; [|apply NoDup_singleton]. unfold submit_fresh. rewrite Ej, Et.
  split_and!; try done. apply NoDup_singleton.
Qed.

Lemma slots_accounted_witness :
  ∃ ctl', admission submitted_c = Some ctl' ∧
    ctotal ctl' = Z.of_nat (0 + 1 + size (tickets submitted_c)) ∧ ctotal ctl' ≤ MaxInFlight ctl'.
Proof.
  apply (slots_accounted (H := demo_codec) one_slot (MkFront desk_c0 [] []) (MkFront submitted_c [] [("job", demo_ticket)])).
  - exists (Coordinator.New desk_cfg empty_disk tt). split; [apply New_ok|]. split; [apply one_slot_configured|reflexivity].
  - eapply rtc_l; [eapply (ds_admit "default" demo_ticket); reflexivity|].
    eapply rtc_l; [eapply (ds_submit AOk 1 2 "job" ["t1"] demo_req 0 demo_ticket); [reflexivity|by apply desk_submit_valid]|].
    apply rtc_refl.
Defined.


(** A worker takes and finishes the job before its ticket is tracked. *)
Notation polled_c := (locked (H := demo_codec) AOk (run_op (mRing (membership submitted_c)) (OpPoll 3 (task_keys (sched submitted_c)) "x" "w1") (sched submitted_c)) submitted_c)
  (only parsing).
Notation finished_c := (locked (H := demo_codec) AOk (run_op (mRing (membership polled_c))
    (OpFinish 5 "t1" (MkResult "w1" 1 1 "" 1 "")) (sched polled_c)) polled_c) (only parsing).

(** A ticket tracked too late is never released: [handleJobs] tracks the
    ticket after [Submit] has returned, and when the job finishes in between
    the completion hook finds nothing to release.  No job is left, no call will
    fire the hook again, and yet the slot stays taken and the next submission
    is shed. *)
Theorem late_ticket_leaks_slot :
  let c := trackTicket "job" demo_ticket finished_c in
  rtc (front_step (H := demo_codec)) (MkFront desk_c0 [] []) (MkFront c [] []) ∧
  (jStatus <$> jobs (sched c) !! "job") = Some JobCompleted ∧
  (∀ jid, ¬ unfinished (sched c) jid) ∧
  (ctotal <$> admission c) = Some 1 ∧
  ((λ ctl, is_ok (Admit "default" ctl).1) <$> admission c) = Some false.
Proof.
  intros c. split.
  { eapply rtc_l; [eapply (ds_admit "default" demo_ticket); reflexivity|].
    eapply rtc_l; [eapply (ds_submit AOk 1 2 "job" ["t1"] demo_req 0 demo_ticket); [reflexivity|by apply desk_submit_valid]|].
    eapply rtc_l; [eapply (ds_call AOk (OpPoll 3 (task_keys (sched submitted_c)) "x" "w1")); [|reflexivity]|].
    { split; [by vm_compute|apply elem_of_task_keys]. }
    eapply rtc_l; [eapply (ds_call AOk (OpFinish 5 "t1" (MkResult "w1" 1 1 "" 1 ""))); [exact I|reflexivity]|].
    eapply rtc_l; [eapply (ds_track 0 "job" demo_ticket); reflexivity|]. apply rtc_refl. }
  assert (dom (jobs (sched c)) = {["job"]}) as Hd by (vm_compute; reflexivity).
  assert ((jStatus <$> jobs (sched c) !! "job") = Some JobCompleted) as Hst by (vm_compute; reflexivity).
  split_and!; [exact Hst| |vm_compute; reflexivity..].
  intros jid [Hj Hn]. apply Hn. apply elem_of_dom in Hj as Hin. rewrite Hd in Hin. apply elem_of_singleton in Hin as ->.
  destruct Hj as [j Hj]. exists j. split; [exact Hj|]. rewrite Hj in Hst. injection Hst as Hst. by left.
Qed.
