(* ===== verification/Api.v ===== *)
(** * The coordinator's HTTP interface (internal/coordinator/api.go)

    A request is its method, path, query, tenant header and body; an answer is
    its status code and what is written as JSON.  The JSON decoders of the
    request bodies are parameters.  A handler makes one call of the scheduler,
    membership or admission controller after another; the three locked steps of
    a submission are those of CoordSlots.v. *)
From S2P Require Import Prelude GoLib Storage Ring Membership Wal Admission Job Keys Scheduler SchedInv Accounting SchedThms Commit Coordinator.
From S2P Require Import CoordThms CoordSlots.
Open Scope Z_scope.

Record Request := MkRequest {
  rqMethod : string; rqPath : string; rqQuery : gmap string string; rqTenant : string; rqBody : option (list byte) }.

Inductive payload :=
| PError (msg : string) | PStatus (status : string)
| PPending (pending active : nat)
| PTasks (m : Metrics) (active : nat)
| PAdmission (s : option Stats)
| PAssignments (l : list TaskAssignment)
| PNodes (l : list NodeInfo)
| PRing (count : nat) (distribution : gmap string nat)
| PCreated (jobID : string) (total : Z)
| PJobs (l : list Job) | PJob (j : Job)
| PPoll (a : option TaskAssignment)
| PRenewal (r : LeaseRenewal).

(** No answer is a call that still waits. *)
Record Response := MkResponse { rsStatus : Z; rsBody : payload }.

Definition StatusOK := 200.
Definition StatusCreated := 201.
Definition StatusBadRequest := 400.
Definition StatusNotFound := 404.
Definition StatusMethodNotAllowed := 405.
Definition StatusTooManyRequests := 429.
Definition StatusInternalServerError := 500.

Definition writeJSON (status : Z) (p : payload) : Response := MkResponse status p.
Definition writeError (status : Z) (msg : string) : Response := MkResponse status (PError msg).

(** ** Strings *)

(** [strings.HasPrefix] and [strings.TrimPrefix]. *)
Definition TrimPrefix (s prefix : string) : string :=
  if String.prefix prefix s then String.substring (String.length prefix) (String.length s - String.length prefix) s else s.

(** [strings.SplitN(s, "/", 2)]: the parts before and after the first slash. *)
Fixpoint split_slash (s : string) : string * option string :=
  match s with
  | EmptyString => (EmptyString, None)
  | String c s' =>
      if Ascii.eqb c slash then (EmptyString, Some s')
      else let '(a, b) := split_slash s' in (String c a, b)
  end.

Definition plus : Ascii.ascii := Ascii.ascii_of_N 43.

(** [strconv.Atoi]. *)
Fixpoint atoi_digits (acc : Z) (s : string) : option Z :=
  match s with
  | EmptyString => Some acc
  | String c s' =>
      let d := Z.of_N (Ascii.N_of_ascii c) - 48 in
      if (0 <=? d) && (d <=? 9) then atoi_digits (acc * 10 + d) s' else None
  end.

Definition Atoi (s : string) : option Z :=
  let '(neg, digits) :=
    match s with
    | String c s' => if Ascii.eqb c dash then (true, s') else if Ascii.eqb c plus then (false, s') else (false, s)
    | EmptyString => (false, s)
    end in
  match digits with
  | EmptyString => None
  | _ =>
      n ← atoi_digits 0 digits;
      let n := if (neg : bool) then - n else n in
      if (- 2 ^ 63 <=? n) && (n <=? max_int64) then Some n else None
  end.

(** ** The handlers *)

(** What a handler takes from outside: the clock, fresh identifiers, the
    iteration order of the tasks, how the log's append goes, and how long a
    report is prepared to wait. *)
Record Env (E : Type) := MkEnv {
  evCreated : Z; evNow : Z; evJob : string; evTasks : list string; evOrder : list string; evNew : string;
  evIo : append_io; evWait : E }.
Arguments MkEnv {E} _ _ _ _ _ _ _ _.
Arguments evCreated {E} _.
Arguments evNow {E} _.
Arguments evJob {E} _.
Arguments evTasks {E} _.
Arguments evOrder {E} _.
Arguments evNew {E} _.
Arguments evIo {E} _.
Arguments evWait {E} _.

(** [json.Decoder.Decode] into each request type. *)
Class RequestCodec := {
  decodeRegister : list byte → result RegisterRequest;
  decodeHeartbeat : list byte → result Heartbeat;
  decodeSubmit : list byte → result SubmitJobRequest;
  decodeStart : list byte → result string;
  decodeRenew : list byte → result RenewLeaseRequest;
  decodeResult : list byte → result ResultRequest;
}.

Section api.
Context {W E : Type} `{Committer W, CommitDecider W E, SideEffect W, StateCodec, RequestCodec}.
Implicit Types c : Coordinator W.

Definition decode {A} (dec : list byte → result A) (r : Request) : result A :=
  match rqBody r with None => Err "empty body" | Some b => dec b end.

Definition handleHealth c : Response * Coordinator W := (writeJSON StatusOK (PStatus "ok"), c).

(** The ratio of the two figures is left out. *)
Definition handlePendingMetric c : Response * Coordinator W :=
  (writeJSON StatusOK (PPending (PendingCount (sched c)) (length (ActiveNodes (membership c)))), c).

Definition handleTaskMetric c : Response * Coordinator W :=
  (writeJSON StatusOK (PTasks (MetricsOf (sched c)) (length (ActiveNodes (membership c)))), c).

Definition handleAdmissionMetric c : Response * Coordinator W :=
  (writeJSON StatusOK (PAdmission (StatsOf <$> admission c)), c).

Definition method_not_allowed c : Response * Coordinator W :=
  (writeError StatusMethodNotAllowed "method not allowed", c).

Definition handleOperatorDrain (env : Env E) (r : Request) c : Response * Coordinator W :=
  if bool_decide (rqMethod r ≠ "POST") then method_not_allowed c
  else
    let n := match Atoi (default EmptyString (rqQuery r !! "n")) with
             | Some v => if v >? 0 then v else 10
             | None => 10
             end in
    match DrainPending (evNow env) n (sched c) with
    | (Ok l, s) => (writeJSON StatusOK (PAssignments l), locked (evIo env) s c)
    | (Err e, s) => (writeError StatusInternalServerError e, c)
    end.

Definition handleRegister (env : Env E) (r : Request) c : Response * Coordinator W :=
  if bool_decide (rqMethod r ≠ "POST") then method_not_allowed c
  else
    match decode decodeRegister r with
    | Err e => (writeError StatusBadRequest e, c)
    | Ok req => (writeJSON StatusOK (PStatus "registered"), c <| membership := Register (evNow env) req (membership c) |>)
    end.

Definition handleHeartbeat (env : Env E) (r : Request) c : Response * Coordinator W :=
  if bool_decide (rqMethod r ≠ "POST") then method_not_allowed c
  else
    match decode decodeHeartbeat r with
    | Err e => (writeError StatusBadRequest e, c)
    | Ok hb =>
        match HeartbeatOp (evNow env) hb (membership c) with
        | (Err e, _) => (writeError StatusNotFound e, c)
        | (Ok _, m) => (writeJSON StatusOK (PStatus "ok"), c <| membership := m |>)
        end
    end.

Definition handleNodes c : Response * Coordinator W := (writeJSON StatusOK (PNodes (AllNodes (membership c))), c).

Definition handleRing c : Response * Coordinator W :=
  (writeJSON StatusOK (PRing (NodeCount (mRing (membership c))) (Distribution (mRing (membership c)))), c).

(** The admitted part of [handleJobs]; [Submit] does not fail. *)
Definition submit_job (env : Env E) (req : SubmitJobRequest) (ticket : option Ticket) c : Response * Coordinator W :=
  let '(job, s) := Submit (evCreated env) (evNow env) (evJob env) (evTasks env) req (sched c) in
  let c := locked (evIo env) s c in
  let c := match ticket with Some t => trackTicket (jID job) t c | None => c end in
  (writeJSON StatusCreated (PCreated (jID job) (jTotalTasks job)), c).

Definition tenant_of (r : Request) : string :=
  if bool_decide (rqTenant r = EmptyString) then "default" else rqTenant r.

Definition handleJobs (env : Env E) (r : Request) c : Response * Coordinator W :=
  if bool_decide (rqMethod r = "POST") then
    match decode decodeSubmit r with
    | Err e => (writeError StatusBadRequest e, c)
    | Ok req =>
        match admission c with
        | None => submit_job env req None c
        | Some ctl =>
            match Admit (tenant_of r) ctl with
            | (Err e, ctl) => (writeError StatusTooManyRequests e, c <| admission := Some ctl |>)
            | (Ok t, ctl) => submit_job env req (Some t) (c <| admission := Some ctl |>)
            end
        end
    end
  else if bool_decide (rqMethod r = "GET") then (writeJSON StatusOK (PJobs (ListJobs (sched c))), c)
  else method_not_allowed c.

Definition handleJob (r : Request) c : Response * Coordinator W :=
  let id := TrimPrefix (rqPath r) "/v1/jobs/" in
  if bool_decide (rqMethod r ≠ "GET") then method_not_allowed c
  else
    match GetJob id (sched c) with
    | Err e => (writeError StatusNotFound e, c)
    | Ok j => (writeJSON StatusOK (PJob j), c)
    end.

Definition handlePoll (env : Env E) (r : Request) c : Response * Coordinator W :=
  if bool_decide (rqMethod r ≠ "GET") then method_not_allowed c
  else
    let workerID := default EmptyString (rqQuery r !! "worker") in
    if bool_decide (workerID = EmptyString) then (writeError StatusBadRequest "worker query param required", c)
    else
      match PollTasks (mRing (membership c)) (evNow env) (evOrder env) (evNew env) workerID (sched c) with
      | (Err e, _) => (writeError StatusInternalServerError e, c)
      | (Ok a, s) => (writeJSON StatusOK (PPoll a), locked (evIo env) s c)
      end.

(** The actions on a task; [None] while a result waits for its decision. *)
Definition task_action (env : Env E) (r : Request) (taskID action : string) c : option Response * Coordinator W :=
  if bool_decide (action = "start") then
    match decode decodeStart r with
    | Err e => (Some (writeError StatusBadRequest e), c)
    | Ok _ =>
        match StartTask (evNow env) taskID (sched c) with
        | (Err e, _) => (Some (writeError StatusNotFound e), c)
        | (Ok _, s) => (Some (writeJSON StatusOK (PStatus "started")), locked (evIo env) s c)
        end
    end
  else if bool_decide (action = "renew") then
    match decode decodeRenew r with
    | Err e => (Some (writeError StatusBadRequest e), c)
    | Ok req =>
        match RenewLease taskID req (sched c) with
        | (Err e, _) => (Some (writeError StatusNotFound e), c)
        | (Ok renewal, s) => (Some (writeJSON StatusOK (PRenewal renewal)), locked (evIo env) s c)
        end
    end
  else if bool_decide (action = "result") then
    match decode decodeResult r with
    | Err e => (Some (writeError StatusBadRequest e), c)
    | Ok req =>
        match ReportResult (attached c) (evWait env) (evNow env) taskID req (sched c) (world c) with
        | (None, (_, w)) => (None, c <| world := w |>)
        | (Some (Err e), (s, w)) => (Some (writeError StatusNotFound e), locked (evIo env) s (c <| world := w |>))
        | (Some (Ok _), (s, w)) =>
            (Some (writeJSON StatusOK (PStatus "recorded")), locked (evIo env) s (c <| world := w |>))
        end
    end
  else (Some (writeError StatusNotFound ("unknown action: " +:+ action)), c).

Definition handleTask (env : Env E) (r : Request) c : option Response * Coordinator W :=
  match split_slash (TrimPrefix (rqPath r) "/v1/tasks/") with
  | (taskID, Some action) => task_action env r taskID action c
  | (_, None) => (Some (writeError StatusBadRequest "invalid task path"), c)
  end.

(** [Register] on the mux: exact patterns, then the two subtrees; the two
    debug pages are left out. *)
Definition serve (env : Env E) (r : Request) c : option Response * Coordinator W :=
  let one '(resp, c) := (Some resp : option Response, c : Coordinator W) in
  let p := rqPath r in
  if bool_decide (p = "/healthz") then one (handleHealth c)
  else if bool_decide (p = "/v1/metrics/pending") then one (handlePendingMetric c)
  else if bool_decide (p = "/v1/metrics/admission") then one (handleAdmissionMetric c)
  else if bool_decide (p = "/v1/metrics/tasks") then one (handleTaskMetric c)
  else if bool_decide (p = "/v1/operator/drain") then one (handleOperatorDrain env r c)
  else if bool_decide (p = "/v1/cluster/register") then one (handleRegister env r c)
  else if bool_decide (p = "/v1/cluster/heartbeat") then one (handleHeartbeat env r c)
  else if bool_decide (p = "/v1/cluster/nodes") then one (handleNodes c)
  else if bool_decide (p = "/v1/cluster/ring") then one (handleRing c)
  else if bool_decide (p = "/v1/jobs") then one (handleJobs env r c)
  else if String.prefix "/v1/jobs/" p then one (handleJob r c)
  else if bool_decide (p = "/v1/tasks/poll") then one (handlePoll env r c)
  else if String.prefix "/v1/tasks/" p then handleTask env r c
  else (Some (writeError StatusNotFound "404 page not found"), c).

(** ** What the interface guarantees *)

Lemma locked_same io c : locked io (sched c) c = c.
Proof.
  unfold locked, new_calls, new_records. destruct (onJobDone (sched c)), (store (sched c)); rewrite ?drop_all; by destruct c.
Qed.

Lemma report_error p env now id req s (w : W) e s' w' :
  ReportResult p env now id req s w = (Some (Err e), (s', w')) → s' = s.
Proof.
  unfold ReportResult. destruct (report_begin id req s) as [[a|]|e0]; [| |by intros [=]]; [|done].
  destruct (report_commit p a w) as [[[]|?] w1]; [|by intros [=]].
  destruct (report_decide p env a w1) as [[[d|?]|] w2]; [|by intros [=]..].
  destruct (report_effect p a d w2) as [[[]|?] w3]; [|by intros [=]].
  destruct (report_finish now id req s) as [r s1] eqn:Ef. intros [= -> <- _].
  unfold report_finish in Ef. repeat (case_match; simplify_eq/=); done.
Qed.

(** A refusal leaves the coordinator as it was, the world apart. *)
Definition harmless (resp : option Response) c c' : Prop :=
  match resp with
  | Some resp => 400 ≤ rsStatus resp → rsStatus resp ≠ StatusTooManyRequests → c' = c <| world := world c' |>
  | None => c' = c <| world := world c' |>
  end.

Lemma harmless_same resp c : harmless resp c c.
Proof. destruct c, resp; simpl; done. Qed.

Lemma harmless_ok status p c c' : status < 400 → harmless (Some (writeJSON status p)) c c'.
Proof. intros Hs H400. simpl in H400. lia. Qed.

Lemma harmless_jobs env r c : harmless (Some (handleJobs env r c).1) c (handleJobs env r c).2.
Proof.
  unfold handleJobs. case_bool_decide; [|case_bool_decide; apply harmless_same].
  destruct (decode decodeSubmit r) as [req|e]; [|apply harmless_same].
  destruct (admission c) as [ctl|]; [|by apply harmless_ok].
  destruct (Admit (tenant_of r) ctl) as [[t|e] ctl']; [by apply harmless_ok|]. intros _ Hne. by destruct Hne.
Qed.

Lemma harmless_task env r id action c :
  harmless (task_action env r id action c).1 c (task_action env r id action c).2.
Proof.
  unfold task_action. case_bool_decide; [|case_bool_decide; [|case_bool_decide]]; [..|apply harmless_same].
  - destruct (decode decodeStart r); [|apply harmless_same].
    destruct (StartTask _ _ _) as [[u|e] s]; [by apply harmless_ok|apply harmless_same].
  - destruct (decode decodeRenew r); [|apply harmless_same].
    destruct (RenewLease _ _ _) as [[rn|e] s]; [by apply harmless_ok|apply harmless_same].
  - destruct (decode decodeResult r) as [req|e]; [|apply harmless_same].
    destruct (ReportResult _ _ _ _ _ _ _) as [[[[]|e]|] [s w]] eqn:Er; [by apply harmless_ok| |].
    + apply report_error in Er as ->. intros _ _. cbn [fst snd].
      change (sched c) with (sched (c <| world := w |>)). by rewrite locked_same.
    + done.
Qed.

Lemma harmless_post env r c : 
  harmless (Some (handleRegister env r c).1) c (handleRegister env r c).2 ∧
  harmless (Some (handleHeartbeat env r c).1) c (handleHeartbeat env r c).2.
Proof.
  unfold handleRegister, handleHeartbeat. case_bool_decide; [split; apply harmless_same|]. split.
  - destruct (decode decodeRegister r); [by apply harmless_ok|apply harmless_same].
  - destruct (decode decodeHeartbeat r) as [hb|e]; [|apply harmless_same].
    destruct (HeartbeatOp _ _ _) as [[u|e] m]; [by apply harmless_ok|apply harmless_same].
Qed.

Lemma harmless_get env r c :
  harmless (Some (handlePoll env r c).1) c (handlePoll env r c).2 ∧
  harmless (Some (handleOperatorDrain env r c).1) c (handleOperatorDrain env r c).2 ∧
  harmless (Some (handleJob r c).1) c (handleJob r c).2.
Proof.
  split_and!; [unfold handlePoll|unfold handleOperatorDrain|unfold handleJob]; (case_bool_decide; [apply harmless_same|]).
  - case_bool_decide; [apply harmless_same|].
    destruct (PollTasks _ _ _ _ _ _) as [[a|e] s]; [by apply harmless_ok|apply harmless_same].
  - match goal with |- context [DrainPending _ ?n _] => destruct (DrainPending (evNow env) n (sched c)) as [[l|e] s] end;
      [by apply harmless_ok|apply harmless_same].
  - destruct (GetJob _ _); apply harmless_same.
Qed.

Lemma harmless_one c (p : Response * Coordinator W) :
  harmless (Some p.1) c p.2 → harmless (let '(resp, c') := p in (Some resp, c')).1 c (let '(resp, c') := p in (Some resp, c')).2.
Proof. by destruct p. Qed.

(** Refused requests do no harm: whatever the request, when the answer is
    an error other than a shed submission, or there is no answer yet, neither
    scheduler, membership, admission control nor the log has changed. *)
Theorem refused_request_changes_nothing env r c :
  harmless (serve env r c).1 c (serve env r c).2.
Proof.
  destruct (harmless_post env r c) as [P1 P2], (harmless_get env r c) as (P3 & P4 & P5).
  unfold serve.
  repeat (case_bool_decide; [apply harmless_one; first [apply harmless_jobs|done|apply harmless_same]|]).
  destruct (String.prefix "/v1/jobs/" (rqPath r)); [by apply harmless_one|].
  case_bool_decide; [by apply harmless_one|].
  destruct (String.prefix "/v1/tasks/" (rqPath r)); [|apply harmless_same].
  unfold handleTask. destruct (split_slash _) as [id [action|]]; [apply harmless_task|apply harmless_same].
Qed.

(** A submission is taken or shed.  With admission control on, a decodable
    submission is answered 429 exactly when the controller refuses the tenant,
    and then only the rejection is counted; otherwise it is answered 201, the
    job is there and running with one pending task for each shard, and its
    ticket is tracked. *)
Theorem submission_taken_or_shed env r c ctl req :
  rqMethod r = "POST" → decode decodeSubmit r = Ok req → admission c = Some ctl →
  let resp := (handleJobs env r c).1 in let c' := (handleJobs env r c).2 in
  match Admit (tenant_of r) ctl with
  | (Err e, _) => resp = writeError StatusTooManyRequests e ∧
      c' = c <| admission := Some (ctl <| rejected := rejected ctl + 1 |>) |>
  | (Ok t, _) => resp = writeJSON StatusCreated (PCreated (evJob env) (Z.of_nat (length (submit_shards req)))) ∧
      (jStatus <$> jobs (sched c') !! evJob env) = Some JobRunning ∧
      tickets c' !! evJob env = Some (MkTicket (tenant_of r) false) ∧
      sched c' = (Submit (evCreated env) (evNow env) (evJob env) (evTasks env) req (sched c)).2
  end.
Proof.
  intros Hm Hd Ha resp c'. unfold resp, c', handleJobs. rewrite bool_decide_true, Hd, Ha by done.
  destruct (Admit_cases (tenant_of r) ctl) as [(e & He & Hc)|(w & _ & _ & _ & Ead)].
  - destruct (Admit (tenant_of r) ctl) as [res ctl']. simpl in He, Hc. by subst.
  - rewrite Ead. unfold submit_job.
    destruct (Submit_jobs (evCreated env) (evNow env) (evJob env) (evTasks env) req (sched c)) as (j & Hr & Ej).
    split; [done|]. split; [|split; [apply lookup_insert_eq|done]].
    match goal with |- (jStatus <$> jobs ?x !! _) = _ =>
      change x with (Submit (evCreated env) (evNow env) (evJob env) (evTasks env) req (sched c)).2 end.
    rewrite Ej, lookup_insert_eq. simpl. by rewrite Hr.
Qed.
End api.

(** ** An example: a cap of one job, asked for two *)

Definition demo_requests : RequestCodec :=
  {| decodeRegister _ := Err ""; decodeHeartbeat _ := Err ""; decodeSubmit _ := Ok demo_req;
     decodeStart _ := Err ""; decodeRenew _ := Err ""; decodeResult _ := Err "" |}.
Definition post_job : Request := MkRequest "POST" "/v1/jobs" ∅ "" (Some []).
Definition demo_env : Env unit := MkEnv 1 2 "job" ["t1"] [] "x" AOk tt.

Lemma submission_taken_or_shed_witness :
  let c := (handleJobs (H2 := demo_codec) (H3 := demo_requests) demo_env post_job desk_c0).2 in
  tickets c !! "job" = Some (MkTicket "default" false) ∧
  (handleJobs (H2 := demo_codec) (H3 := demo_requests) demo_env post_job c).1
    = writeError StatusTooManyRequests ("tenant " +:+ fmt_q "default" +:+ " at concurrency share 1: admission rejected").
Proof.
  split.
  - apply (submission_taken_or_shed (H2 := demo_codec) (H3 := demo_requests) demo_env post_job desk_c0 one_slot demo_req
      eq_refl eq_refl eq_refl).
  - exact (proj1 (submission_taken_or_shed (H2 := demo_codec) (H3 := demo_requests) demo_env post_job
      (handleJobs (H2 := demo_codec) (H3 := demo_requests) demo_env post_job desk_c0).2
      (Admit "default" one_slot).2 demo_req eq_refl eq_refl eq_refl)).
Defined.
