(* ===== verification/Lifecycle.v ===== *)
(** * A worker on the wire (worker/worker.go, worker/api.go)

    Registration, heartbeats, polling, the task's calls and the health page, over
    HTTP; then the same calls answered by the coordinator's interface of Api.v:
    what arrives at its methods. JSON is a codec; a URL is the coordinator's
    address followed by a path. *)
From S2P Require Import Prelude GoLib Storage Ring Membership Job Keys Scheduler SchedInv Commit Wal Admission.
From S2P Require Import Worker.
From S2P Require Coordinator Api Recovery.
Open Scope Z_scope.

(** ** Posting *)

Record HttpResponse := MkHttpResponse { hrCode : Z; hrBody : list byte }.

(** The network as the worker sees it. *)
Class Net (W : Type) := {
  Post : string → list byte → W → result HttpResponse * W;
  Get : string → W → result HttpResponse * W }.

(** [json.Marshal] of the requests, the decoders of the answers, and the
    ["error"] of an answer's object, empty if there is none. *)
Class WorkerCodec := {
  encodeRegister : RegisterRequest → result (list byte);
  encodeHeartbeat : Heartbeat → result (list byte);
  encodeStart : string → result (list byte);
  encodeRenew : RenewLeaseRequest → result (list byte);
  encodeResult : ResultRequest → result (list byte);
  decodePoll : list byte → result PollResponse;
  decodeRenewal : list byte → result LeaseRenewal;
  errorField : list byte → string }.

Section worker.
Context {W : Type} `{Net W, WorkerCodec}.

Definition postJSON (url : string) (v : result (list byte)) (w : W) : result unit * W :=
  match v with
  | Err e => (Err ("marshal: " +:+ e), w)
  | Ok b =>
      let '(r, w) := Post url b w in
      (match r with
       | Err e => Err ("post " +:+ url +:+ ": " +:+ e)
       | Ok resp => if 400 <=? hrCode resp then Err ("server " +:+ fmt_d (hrCode resp) +:+ ": " +:+ errorField (hrBody resp)) else Ok tt
       end, w)
  end.

Definition postJSONResp {A} (url : string) (v : result (list byte)) (dec : list byte → result A) (w : W) : result A * W :=
  match v with
  | Err e => (Err ("marshal: " +:+ e), w)
  | Ok b =>
      let '(r, w) := Post url b w in
      (match r with
       | Err e => Err ("post " +:+ url +:+ ": " +:+ e)
       | Ok resp => if 400 <=? hrCode resp then Err ("server " +:+ fmt_d (hrCode resp) +:+ ": " +:+ errorField (hrBody resp)) else dec (hrBody resp)
       end, w)
  end.

(** ** The worker's calls *)

(** Its id, its own address and the coordinator's. *)
Record Self := MkSelf { slID : string; slHost : string; slPort : Z; slCoordinator : string }.

Definition Address (s : Self) : string := slHost s +:+ ":" +:+ fmt_d (slPort s).

Definition register (s : Self) (w : W) : result unit * W :=
  postJSON (slCoordinator s +:+ "/v1/cluster/register") (encodeRegister (MkRegister (slID s) (Address s) "")) w.

(** An error is logged. *)
Definition sendHeartbeat (s : Self) (p : Worker) (w : W) : result unit * W :=
  postJSON (slCoordinator s +:+ "/v1/cluster/heartbeat") (encodeHeartbeat (MkHeartbeat (slID s) (MkMetrics (ActiveTaskCount p) 0 0 []))) w.

(** The answer's status is not looked at. *)
Definition poll_request (s : Self) (w : W) : option PollResponse * W :=
  let '(r, w) := Get (slCoordinator s +:+ "/v1/tasks/poll?worker=" +:+ slID s) w in
  (match r with
   | Err _ => None
   | Ok resp => match decodePoll (hrBody resp) with Err _ => None | Ok pr => Some pr end
   end, w).

Definition task_url (s : Self) (taskID action : string) : string := slCoordinator s +:+ "/v1/tasks/" +:+ taskID +:+ action.

Definition renew (s : Self) (taskID : string) (req : RenewLeaseRequest) (w : W) : result LeaseRenewal * W :=
  postJSONResp (task_url s taskID "/renew") (encodeRenew req) decodeRenewal w.

(** The worker's [Host] with the coordinator behind HTTP; the object store, the
    Parquet encoder and the clock are arguments. *)
Definition http_host (s : Self) (listing : string → W → result (list string) * W) (get : string → W → result Z * W)
    (put : string → list byte → W → result unit * W) (parquet : ResultRow → result (list byte)) (elapsed : W → Z) : Host W := {|
  ListPrefix := listing; GetObject := get; PutObject := put;
  PostStart id wid w := (postJSON (task_url s id "/start") (encodeStart wid) w).2;
  PostRenew id req w := renew s id req w;
  PostResult id req w := postJSON (task_url s id "/result") (encodeResult req) w;
  WriteResultsParquet := parquet; Elapsed := elapsed |}.

(** ** The loops *)

(** What a loop's [select] picks. *)
Inductive wake := Tick | Quit.

Fixpoint heartbeatLoop (s : Self) (p : Worker) (wakes : list wake) (w : W) : W :=
  match wakes with
  | Tick :: wakes => heartbeatLoop s p wakes (sendHeartbeat s p w).2
  | Quit :: _ | [] => w
  end.

Fixpoint pollLoop (s : Self) (wakes : list wake) (p : Worker) (w : W) : Worker * W :=
  match wakes with
  | Tick :: wakes =>
      if polls p then let '(resp, w) := poll_request s w in pollLoop s wakes (Worker.poll resp p) w
      else pollLoop s wakes p w
  | Quit :: _ | [] => (p, w)
  end.

(** [Start]: the loops run when it returns without an error. *)
Definition Start (s : Self) (w : W) : result unit * W :=
  match register s w with
  | (Err e, w) => (Err ("register: " +:+ e), w)
  | (Ok _, w) => (Ok tt, w)
  end.

(** What the health page says. *)
Definition handleHealth (s : Self) (p : Worker) : string * string * Z := ("ok"%string, slID s, ActiveTaskCount p).
End worker.

(** ** The coordinator at the other end *)

(** [path?name=value], for a value without special characters. *)
Definition question : Ascii.ascii := Ascii.ascii_of_N 63.
Definition equals : Ascii.ascii := Ascii.ascii_of_N 61.
Fixpoint cut_at (c : Ascii.ascii) (s : string) : string * option string :=
  match s with
  | EmptyString => (EmptyString, None)
  | String d s' => if Ascii.eqb d c then (EmptyString, Some s') else let '(a, b) := cut_at c s' in (String d a, b)
  end.
Definition parse_url (u : string) : string * gmap string string :=
  match cut_at question u with
  | (p, None) => (p, ∅)
  | (p, Some q) => (p, match cut_at equals q with (k, Some v) => {[k := v]} | (k, None) => {[k := EmptyString]} end)
  end.

Lemma cut_at_app c a b : no_char c a = true → cut_at c (a +:+ String c b) = (a, Some b).
Proof.
  induction a as [|d a IH]; intros Ha; [rewrite string_app_nil; cbn; by rewrite Ascii.eqb_refl|].
  cbn [no_char] in Ha. apply andb_true_iff in Ha as [Hd Ha]. apply negb_true_iff in Hd. rewrite string_app_cons. cbn. by rewrite Hd, IH.
Qed.

Lemma cut_at_none c a : no_char c a = true → cut_at c a = (a, None).
Proof.
  induction a as [|d a IH]; intros Ha; [done|]. cbn [no_char] in Ha. apply andb_true_iff in Ha as [Hd Ha]. apply negb_true_iff in Hd.
  cbn. by rewrite Hd, IH.
Qed.

Section site.
Import Coordinator.
Context {W E : Type} `{Committer W, CommitDecider W E, SideEffect W, StateCodec, WC : WorkerCodec, RC : Api.RequestCodec}.

(** The requests served so far, and the coordinator; [env n] is what the [n]-th
    request takes from outside. *)
Definition site : Type := nat * Coordinator W.

Context (base : string) (env : nat → Api.Env E) (render : Api.payload → list byte) (cut : string).

(** What the two sides' JSON has in common. *)
Record wire_laws : Prop := {
  wl_register r : ∃ b, encodeRegister r = Ok b ∧ Api.decodeRegister b = Ok r;
  wl_heartbeat r : ∃ b, encodeHeartbeat r = Ok b ∧ Api.decodeHeartbeat b = Ok r;
  wl_start r : ∃ b, encodeStart r = Ok b ∧ Api.decodeStart b = Ok r;
  wl_renew r : ∃ b, encodeRenew r = Ok b ∧ Api.decodeRenew b = Ok r;
  wl_result r : ∃ b, encodeResult r = Ok b ∧ Api.decodeResult b = Ok r;
  wl_poll a : decodePoll (render (Api.PPoll a)) = Ok (MkPollResponse a (bool_decide (is_Some a)));
  wl_refused e : decodePoll (render (Api.PError e)) = Ok (MkPollResponse None false);
  wl_renewal r : decodeRenewal (render (Api.PRenewal r)) = Ok r;
  wl_error e : errorField (render (Api.PError e)) = e }.

Definition path_of (url : string) : string := Api.TrimPrefix url base.

(** A request that is never answered ends with the connection: [cut]. *)
Definition exchange (r : Api.Request) (x : site) : result HttpResponse * site :=
  let '(resp, c) := Api.serve (env x.1) r x.2 in
  (match resp with None => Err cut | Some resp => Ok (MkHttpResponse (Api.rsStatus resp) (render (Api.rsBody resp))) end, (S x.1, c)).

#[local] Instance coordinator_net : Net site := {|
  Post url b x := let '(p, q) := parse_url (path_of url) in exchange (Api.MkRequest "POST" p q "" (Some b)) x;
  Get url x := let '(p, q) := parse_url (path_of url) in exchange (Api.MkRequest "GET" p q "" None) x |}.

(** ** The calls without the wire *)

Definition refused {A} (e : string) : result A := Err ("server 404: " +:+ e).

Definition direct_register (req : RegisterRequest) (x : site) : result unit * site :=
  (Ok tt, (S x.1, x.2 <| membership := Register (Api.evNow (env x.1)) req (membership x.2) |>)).

Definition direct_heartbeat (hb : Heartbeat) (x : site) : result unit * site :=
  match HeartbeatOp (Api.evNow (env x.1)) hb (membership x.2) with
  | (Err e, _) => (refused e, (S x.1, x.2))
  | (Ok _, m) => (Ok tt, (S x.1, x.2 <| membership := m |>))
  end.

Definition direct_poll (id : string) (x : site) : option PollResponse * site :=
  let e := env x.1 in
  match PollTasks (mRing (membership x.2)) (Api.evNow e) (Api.evOrder e) (Api.evNew e) id (sched x.2) with
  | (Err _, _) => (Some (MkPollResponse None false), (S x.1, x.2))
  | (Ok a, s) => (Some (MkPollResponse a (bool_decide (is_Some a))), (S x.1, locked (Api.evIo e) s x.2))
  end.

Definition direct_start (id : string) (x : site) : site :=
  match StartTask (Api.evNow (env x.1)) id (sched x.2) with
  | (Err _, _) => (S x.1, x.2)
  | (Ok _, s) => (S x.1, locked (Api.evIo (env x.1)) s x.2)
  end.

Definition direct_renew (id : string) (req : RenewLeaseRequest) (x : site) : result LeaseRenewal * site :=
  match RenewLease id req (sched x.2) with
  | (Err e, _) => (refused e, (S x.1, x.2))
  | (Ok r, s) => (Ok r, (S x.1, locked (Api.evIo (env x.1)) s x.2))
  end.

Definition direct_result (url : string) (id : string) (req : ResultRequest) (x : site) : result unit * site :=
  let e := env x.1 in let c := x.2 in
  match ReportResult (attached c) (Api.evWait e) (Api.evNow e) id req (sched c) (world c) with
  | (None, (_, w)) => (Err ("post " +:+ url +:+ ": " +:+ cut), (S x.1, c <| world := w |>))
  | (Some (Err m), (s, w)) => (refused m, (S x.1, locked (Api.evIo e) s (c <| world := w |>)))
  | (Some (Ok _), (s, w)) => (Ok tt, (S x.1, locked (Api.evIo e) s (c <| world := w |>)))
  end.

(** A worker that calls the coordinator's methods. *)
Definition direct_host (s : Self) (listing : string → site → result (list string) * site) (get : string → site → result Z * site)
    (put : string → list byte → site → result unit * site) (parquet : ResultRow → result (list byte)) (elapsed : site → Z) : Host site := {|
  ListPrefix := listing; GetObject := get; PutObject := put;
  PostStart id wid x := direct_start id x;
  PostRenew id req x := direct_renew id req x;
  PostResult id req x := direct_result (task_url s id "/result") id req x;
  WriteResultsParquet := parquet; Elapsed := elapsed |}.

(** ** The wire adds nothing *)

Context (wire : wire_laws).

Lemma prefix_app a b : String.prefix a (a +:+ b) = true.
Proof. induction a as [|c a IH]; [by destruct b|]. rewrite string_app_cons. cbn. by destruct (Ascii.ascii_dec c c). Qed.

Lemma TrimPrefix_app a b : Api.TrimPrefix (a +:+ b) a = b.
Proof. unfold Api.TrimPrefix. by rewrite prefix_app, substring_rest. Qed.

Lemma path_of_base p : path_of (base +:+ p) = p.
Proof. apply TrimPrefix_app. Qed.

Lemma split_slash_app a b : no_char slash a = true → Api.split_slash (a +:+ String slash b) = (a, Some b).
Proof.
  induction a as [|d a IH]; intros Ha; [by rewrite string_app_nil|].
  cbn [no_char] in Ha. apply andb_true_iff in Ha as [Hd Ha]. apply negb_true_iff in Hd. rewrite string_app_cons. cbn [Api.split_slash]. by rewrite Hd, IH.
Qed.

(** A task's path goes to its action. *)
Lemma serve_task e m b id action c : no_char slash id = true →
  Api.serve e (Api.MkRequest m ("/v1/tasks/" +:+ id +:+ String slash action) ∅ "" b) c =
  Api.task_action e (Api.MkRequest m ("/v1/tasks/" +:+ id +:+ String slash action) ∅ "" b) id action c.
Proof.
  intros Hid. set (p := "/v1/tasks/" +:+ id +:+ String slash action).
  assert (Hpoll : p ≠ "/v1/tasks/poll"%string).
  { intros E0. apply (string_app_head "/v1/tasks/" _ "poll") in E0. assert (no_char slash (id +:+ String slash action) = true) as Hn by (by rewrite E0).
    rewrite no_char_app in Hn. cbn in Hn. by rewrite andb_false_r in Hn. }
  assert (Hne : ∀ q, String.prefix "/v1/tasks/" q = false → p ≠ q) by (intros q Hq <-; unfold p in Hq; by rewrite prefix_app in Hq).
  unfold Api.serve. cbn [Api.rqPath]. fold p. rewrite !bool_decide_false by (try exact Hpoll; apply Hne; by vm_compute).
  assert (String.prefix "/v1/jobs/" p = false) as -> by done.
  assert (String.prefix "/v1/tasks/" p = true) as -> by apply prefix_app. unfold Api.handleTask. cbn [Api.rqPath].
  unfold p at 1. by rewrite TrimPrefix_app, split_slash_app.
Qed.

(** An id that a URL can carry. *)
Definition url_safe (id : string) : Prop := no_char slash id = true ∧ no_char question id = true.

Lemma exchange_task (x : site) b id action : url_safe id → no_char question action = true →
  Post (base +:+ "/v1/tasks/" +:+ id +:+ String slash action) b x =
  let '(resp, c) := Api.task_action (env x.1) (Api.MkRequest "POST" ("/v1/tasks/" +:+ id +:+ String slash action) ∅ "" (Some b)) id action x.2 in
  (match resp with None => Err cut | Some resp => Ok (MkHttpResponse (Api.rsStatus resp) (render (Api.rsBody resp))) end, (S x.1, c)).
Proof.
  intros [Hs Hq] Ha. unfold Post, coordinator_net, exchange. rewrite path_of_base.
  assert (parse_url ("/v1/tasks/" +:+ id +:+ String slash action) = ("/v1/tasks/" +:+ id +:+ String slash action, ∅)) as ->; [|by rewrite serve_task].
  unfold parse_url. rewrite cut_at_none; [done|]. rewrite !no_char_app, Hq. cbn. exact Ha.
Qed.

Lemma posted url b (x : site) c resp : Post url b x = (Ok (MkHttpResponse 200 (render resp)), (S x.1, c)) → postJSON url (Ok b) x = (Ok tt, (S x.1, c)).
Proof. intros E0. unfold postJSON. by rewrite E0. Qed.

Lemma not_found url b (x : site) c e : Post url b x = (Ok (MkHttpResponse 404 (render (Api.PError e))), (S x.1, c)) → postJSON url (Ok b) x = (refused e, (S x.1, c)).
Proof. intros E0. unfold postJSON, refused. rewrite E0. cbn [hrCode hrBody Z.leb]. by rewrite (wl_error wire). Qed.

Lemma wire_register s (x : site) : slCoordinator s = base → register s x = direct_register (MkRegister (slID s) (Address s) "") x.
Proof.
  intros Hb. unfold register, direct_register. rewrite Hb. destruct (wl_register wire (MkRegister (slID s) (Address s) "")) as (b & -> & Hd).
  apply (posted _ b x _ (Api.PStatus "registered")). unfold Post, coordinator_net, exchange. rewrite path_of_base.
  unfold Api.serve. cbn. unfold Api.handleRegister, Api.decode. cbn. by rewrite Hd.
Qed.

Lemma wire_heartbeat s p (x : site) : slCoordinator s = base →
  sendHeartbeat s p x = direct_heartbeat (MkHeartbeat (slID s) (MkMetrics (ActiveTaskCount p) 0 0 [])) x.
Proof.
  intros Hb. unfold sendHeartbeat, direct_heartbeat. rewrite Hb. set (hb := MkHeartbeat _ _). destruct (wl_heartbeat wire hb) as (b & -> & Hd).
  destruct (HeartbeatOp (Api.evNow (env x.1)) hb (membership x.2)) as [[[]|e] m] eqn:Eh;
    [apply (posted _ b x _ (Api.PStatus "ok"))|apply (not_found _ b x _ e)];
    unfold Post, coordinator_net, exchange; rewrite path_of_base; unfold Api.serve; cbn; unfold Api.handleHeartbeat, Api.decode; cbn; by rewrite Hd, Eh.
Qed.

Lemma task_url_base s id action : slCoordinator s = base → task_url s id action = base +:+ "/v1/tasks/" +:+ id +:+ action.
Proof. intros Hb. unfold task_url. by rewrite Hb. Qed.

Lemma wire_start s id wid (x : site) : slCoordinator s = base → url_safe id →
  (postJSON (task_url s id "/start") (encodeStart wid) x).2 = direct_start id x.
Proof.
  intros Hb Hid. rewrite (task_url_base s id "/start" Hb). destruct (wl_start wire wid) as (b & -> & Hd). unfold postJSON, direct_start.
  change "/start"%string with (String slash "start"). rewrite (exchange_task x b id "start" Hid eq_refl). unfold Api.task_action, Api.decode. cbn [Api.rqBody]. rewrite bool_decide_true, Hd by done.
  by destruct (StartTask _ id _) as [[[]|e] s'].
Qed.

Lemma wire_renew s id req (x : site) : slCoordinator s = base → url_safe id → renew s id req x = direct_renew id req x.
Proof.
  intros Hb Hid. unfold renew. rewrite (task_url_base s id "/renew" Hb). destruct (wl_renew wire req) as (b & -> & Hd). unfold postJSONResp, direct_renew.
  change "/renew"%string with (String slash "renew"). rewrite (exchange_task x b id "renew" Hid eq_refl). unfold Api.task_action, Api.decode. cbn [Api.rqBody].
  rewrite bool_decide_false, bool_decide_true, Hd by done.
  destruct (RenewLease id req _) as [[r|e] s']; cbn [Api.writeJSON Api.writeError Api.rsStatus Api.rsBody hrCode hrBody]; [by rewrite <- (wl_renewal wire r)|].
  unfold refused. by rewrite (wl_error wire).
Qed.

Lemma wire_result s id req (x : site) : slCoordinator s = base → url_safe id →
  postJSON (task_url s id "/result") (encodeResult req) x = direct_result (task_url s id "/result") id req x.
Proof.
  intros Hb Hid. rewrite (task_url_base s id "/result" Hb). destruct (wl_result wire req) as (b & -> & Hd). unfold postJSON, direct_result.
  change "/result"%string with (String slash "result"). rewrite (exchange_task x b id "result" Hid eq_refl). unfold Api.task_action, Api.decode. cbn [Api.rqBody].
  rewrite bool_decide_false, bool_decide_false, bool_decide_true, Hd by done.
  destruct (ReportResult _ _ _ id req _ _) as [[[[]|e]|] [s' w]]; [done| |done].
  unfold refused. cbn [Api.writeError Api.writeJSON Api.rsStatus Api.rsBody hrCode hrBody]. by rewrite (wl_error wire).
Qed.

Lemma wire_poll s (x : site) : slCoordinator s = base → slID s ≠ EmptyString → poll_request s x = direct_poll (slID s) x.
Proof.
  intros Hb Hid. unfold poll_request, direct_poll. rewrite Hb. unfold Get, coordinator_net, exchange. rewrite path_of_base.
  assert (HU : parse_url ("/v1/tasks/poll?worker=" +:+ slID s) = ("/v1/tasks/poll"%string, {["worker"%string := slID s]})).
  { change ("/v1/tasks/poll?worker=" +:+ slID s) with ("/v1/tasks/poll" +:+ String question ("worker" +:+ String equals (slID s))).
    unfold parse_url. by rewrite !cut_at_app by done. }
  rewrite HU. unfold Api.serve. cbn [Api.rqPath]. rewrite !bool_decide_false by done. rewrite bool_decide_true by done.
  assert (String.prefix "/v1/jobs/" "/v1/tasks/poll" = false) as -> by done. unfold Api.handlePoll. cbn [Api.rqMethod Api.rqQuery].
  rewrite lookup_singleton_eq. cbn [default id]. rewrite bool_decide_false by tauto. rewrite bool_decide_false by done.
  destruct (PollTasks _ _ _ _ (slID s) _) as [[a|e] s']; cbn [Api.writeJSON Api.writeError Api.rsStatus Api.rsBody hrCode hrBody].
  - by rewrite (wl_poll wire).
  - by rewrite (wl_refused wire).
Qed.

(** ** Runs over the wire *)

Section run.
Context (s : Self) (listing : string → site → result (list string) * site) (get : string → site → result Z * site)
  (put : string → list byte → site → result unit * site) (parquet : ResultRow → result (list byte)) (elapsed : site → Z).
Local Notation wired := (http_host s listing get put parquet elapsed).
Local Notation direct := (direct_host s listing get put parquet elapsed).

Lemma loop_wired fuel wid r (x : site) : slCoordinator s = base → url_safe (aTaskID (rTask r)) →
  loop (H := wired) fuel wid r x = loop (H := direct) fuel wid r x.
Proof.
  intros Hb. revert r x. induction fuel as [|fuel IH]; intros r x Hid; [done|]. cbn [loop]. destruct (loop_next wid r) as [|req|k|]; [done| | |done].
  - cbn [PostRenew http_host direct_host]. rewrite (wire_renew s _ req x Hb Hid). destruct (direct_renew _ req x) as [reply x1]. apply IH.
    unfold renewed. destruct reply; [|done]. by case_match.
  - cbn [GetObject http_host direct_host]. destruct (get k x) as [got x1]. apply IH. unfold fetched. by destruct got.
Qed.

End run.

(** Registering is what [Start] does, once, and nothing else does: a worker
    that the coordinator does not know, after a restart for one, changes nothing
    there with any number of heartbeats, and stays unknown however often it
    polls, though its polls go on leasing tasks to it. *)
Theorem only_start_registers s p (x : site) : slCoordinator s = base → slID s ≠ EmptyString →
  (∃ c', Start s x = (Ok tt, (S x.1, c')) ∧ ∃ n, mNodes (membership c') !! slID s = Some n ∧ State n = NodeActive) ∧
  (mNodes (membership x.2) !! slID s = None →
    (∀ wakes, (heartbeatLoop s p wakes x).2 = x.2) ∧
    ∀ wakes, membership (pollLoop s wakes p x).2.2 = membership x.2).
Proof.
  intros Hb Hid. split.
  - unfold Start. rewrite (wire_register s x Hb). unfold direct_register. eexists. split; [reflexivity|]. cbn. unfold Register. cbn.
    destruct (mNodes (membership x.2) !! slID s); cbn; rewrite lookup_insert_eq; by eexists.
  - intros Hn. split; intros wakes.
    + revert x Hn. induction wakes as [|[|] wakes IH]; intros x Hn; [done| |done]. cbn [heartbeatLoop]. rewrite (wire_heartbeat s p x Hb).
      unfold direct_heartbeat, HeartbeatOp. cbn [hbNodeID]. rewrite Hn. cbn [snd]. by rewrite IH.
    + clear Hn. revert p x. induction wakes as [|[|] wakes IH]; intros p x; [done| |done]. cbn [pollLoop]. destruct (polls p); [|apply IH].
      rewrite (wire_poll s x Hb Hid). unfold direct_poll. destruct (PollTasks _ _ _ _ _ _) as [[a|e] s']; rewrite IH; [|done]. cbn [snd].
      apply Recovery.locked_frame.
Qed.
End site.

(** ** An example: JSON as an enumeration, and the coordinator of Recovery.v *)

#[local] Instance metrics_eq : EqDecision NodeMetrics.
Proof. solve_decision. Defined.
#[local] Instance register_eq : EqDecision RegisterRequest.
Proof. solve_decision. Defined.
#[local] Instance heartbeat_eq : EqDecision Heartbeat.
Proof. solve_decision. Defined.
#[local] Instance renew_eq : EqDecision RenewLeaseRequest.
Proof. solve_decision. Defined.
#[local] Instance result_eq : EqDecision ResultRequest.
Proof. solve_decision. Defined.
#[local] Instance renewal_eq : EqDecision LeaseRenewal.
Proof. solve_decision. Defined.
#[local] Instance assignment_eq : EqDecision TaskAssignment.
Proof. solve_decision. Defined.
#[local, refine] Instance register_countable : Countable RegisterRequest :=
  inj_countable' (λ r, (regID r, regAddress r, regNodeName r)) (λ '(a, b, c), MkRegister a b c) _.
Proof. by intros []. Defined.
#[local, refine] Instance heartbeat_countable : Countable Heartbeat :=
  inj_countable' (λ h, (hbNodeID h, (ActiveTasks (hbMetrics h), CPUPct (hbMetrics h), MemUsedGB (hbMetrics h), CachedShards (hbMetrics h))))
    (λ '(i, (a, b, c, d)), MkHeartbeat i (MkMetrics a b c d)) _.
Proof. by intros [? []]. Defined.
#[local, refine] Instance renew_countable : Countable RenewLeaseRequest :=
  inj_countable' (λ r, (rlWorkerID r, rlGeneration r, rlFrontier r, rlTotal r)) (λ '(a, b, c, d), MkRenew a b c d) _.
Proof. by intros []. Defined.
#[local, refine] Instance result_countable : Countable ResultRequest :=
  inj_countable' (λ r, (rrWorkerID r, rrImagesProcessed r, rrBytesRead r, rrOutputKey r, rrDuration r, rrError r))
    (λ '(a, b, c, d, e, f), MkResult a b c d e f) _.
Proof. by intros []. Defined.
#[local, refine] Instance renewal_countable : Countable LeaseRenewal :=
  inj_countable' (λ r, (lrGeneration r, lrBound r, lrStolen r)) (λ '(a, b, c), MkRenewal a b c) _.
Proof. by intros []. Defined.
#[local, refine] Instance assignment_countable : Countable TaskAssignment :=
  inj_countable' (λ a, (aTaskID a, aJobID a, aShard a, aDataset a, aAlgorithm a, aConfig a, (aRangeStart a, aRangeEnd a, aBound a, aGeneration a, aSplit a)))
    (λ '(a, b, c, d, e, f, (g, h, i, j, k)), MkAssignment a b c d e f g h i j k) _.
Proof. by intros []. Defined.

Definition put `{Countable A} (x : A) : list byte := pos_bytes (encode x).
Definition take `{Countable A} (b : list byte) : result A :=
  match bytes_pos b ≫= decode with Some x => Ok x | None => Err "unexpected end of JSON input" end.

Lemma take_put `{Countable A} (x : A) : take (put x) = Ok x.
Proof. unfold take, put. rewrite bytes_pos_bytes. cbn. by rewrite decode_encode. Qed.

(** An answer is an error, an assignment or a renewal. *)
Definition answer : Type := string + (option TaskAssignment + LeaseRenewal).
Definition demo_render (p : Api.payload) : list byte :=
  match p with
  | Api.PError e => put (inl e : answer)
  | Api.PPoll a => put (inr (inl a) : answer)
  | Api.PRenewal r => put (inr (inr r) : answer)
  | _ => []
  end.

#[local] Instance demo_worker_codec : WorkerCodec := {|
  encodeRegister r := Ok (put r); encodeHeartbeat r := Ok (put r); encodeStart r := Ok (put r);
  encodeRenew r := Ok (put r); encodeResult r := Ok (put r);
  decodePoll b := match take b : result answer with
    | Ok (inl _) => Ok (MkPollResponse None false)
    | Ok (inr (inl a)) => Ok (MkPollResponse a (bool_decide (is_Some a)))
    | _ => Err "json" end;
  decodeRenewal b := match take b : result answer with Ok (inr (inr r)) => Ok r | _ => Err "json" end;
  errorField b := match take b : result answer with Ok (inl e) => e | _ => EmptyString end |}.
#[local] Instance demo_request_codec : Api.RequestCodec := {|
  Api.decodeRegister := take; Api.decodeHeartbeat := take; Api.decodeSubmit _ := Err "json"; Api.decodeStart := take;
  Api.decodeRenew := take; Api.decodeResult := take |}.

Lemma demo_wire : wire_laws demo_render.
Proof.
  split; cbn; intros; try (eexists; split; [done|apply take_put]); unfold put, take; by rewrite bytes_pos_bytes; cbn -[encode decode]; rewrite decode_encode.
Qed.

#[local] Instance no_commit : Committer unit := λ _ _ w, (Ok tt, w).
#[local] Instance no_decide : CommitDecider unit unit := λ _ d w, (Some (Ok d), w).
#[local] Instance no_effect : SideEffect unit := λ _ _ w, (Ok tt, w).

Definition demo_self : Self := MkSelf "w1" "10.0.0.1" 8081 "http://coordinator:9090".
Definition wire_env (n : nat) : Api.Env unit := Api.MkEnv 1 (10 + Z.of_nat n) "job" [] (map_to_list (tasks (Coordinator.sched Recovery.busy))).*1 "t2" AOk tt.
Definition two_objects (_ : string) (x : site (W := unit)) : result (list string) * site (W := unit) := (Ok ["a/0"; "a/1"], x).
Definition stored_put (_ : string) (_ : list byte) (x : site (W := unit)) : result unit * site (W := unit) := (Ok tt, x).
Definition ten_bytes (_ : string) (x : site (W := unit)) : result Z * site (W := unit) := (Ok 10, x).
Definition leased_task : TaskAssignment := MkAssignment "t1" "job" "aa" "ds" "dense" ∅ 0 (-1) 1 0 false.
Definition base_url : string := "http://coordinator:9090".
#[local] Instance demo_net : Net (site (W := unit)) := coordinator_net (H2 := CoordThms.demo_codec) base_url wire_env demo_render "EOF".
Definition wired_worker : Host (site (W := unit)) := http_host demo_self two_objects ten_bytes stored_put (λ _, Ok []) (λ _, 7).
Definition direct_worker : Host (site (W := unit)) :=
  direct_host (H2 := CoordThms.demo_codec) wire_env "EOF" demo_self two_objects ten_bytes stored_put (λ _, Ok []) (λ _, 7).

Definition direct_run : option (result unit) * site (W := unit) := RunTask (H := direct_worker) "w1" leased_task (0%nat, Recovery.busy).


(** The same coordinator, with the worker's registration gone. *)
Definition amnesiac : Coordinator.Coordinator unit := CoordThms.demo_c1.
Lemma only_start_registers_witness :
  mNodes (Coordinator.membership amnesiac) !! "w1" = None ∧
  (heartbeatLoop demo_self (New "w1" "u" 1) [Tick; Tick] (0%nat, amnesiac)).2 = amnesiac ∧
  ∃ c', Start demo_self (0%nat, amnesiac) = (Ok tt, (1%nat, c')).
Proof.
  assert (Hn : mNodes (Coordinator.membership amnesiac) !! "w1" = None) by (by vm_compute).
  destruct (only_start_registers (H2 := CoordThms.demo_codec) base_url wire_env demo_render "EOF" demo_wire demo_self (New "w1" "u" 1)
    (0%nat, amnesiac) eq_refl ltac:(discriminate)) as [(c' & Hs & _) HH].
  destruct (HH Hn) as [Hb _]. split; [exact Hn|]. split; [exact (Hb [Tick; Tick])|]. exists c'. exact Hs.
Defined.
