(* ===== verification/Operator.v ===== *)
(** * The operator at work (cmd/operator/main.go)

    A cycle and the reporting of results as they go over HTTP, the coordinator of
    Api.v at one end and the Kubernetes API of K8s.v at the other. *)
From S2P Require Import Prelude GoLib Storage Ring Membership Job Keys Scheduler SchedInv Commit Wal Admission Worker K8s Lifecycle.
From S2P Require Coordinator CoordThms Api Recovery.
Open Scope Z_scope.

(** The decoders of the coordinator's answers, and the encoder of a report: its
    worker and its error. *)
Class OperatorCodec := {
  decodeAssignments : list byte → result (list TaskAssignment);
  decodeNodes : list byte → result (list NodeInfo);
  encodeReport : string → string → result (list byte);
  reportError : list byte → string }.

Section operator.
Context {V : Type} `{Net V, APIServer V, OperatorCodec}.

Definition drainPending (url : string) (n : Z) (w : V) : result (list TaskAssignment) * V :=
  let '(r, w) := Post (url +:+ "/v1/operator/drain?n=" +:+ fmt_d n) [] w in
  (match r with
   | Err e => Err e
   | Ok resp => match decodeAssignments (hrBody resp) with Err e => Err ("decode drain response: " +:+ e) | Ok l => Ok l end
   end, w).

(** The answer of which [cycle] keeps the active nodes. *)
Definition fetchNodes (url : string) (w : V) : result (list NodeInfo) * V :=
  let '(r, w) := Get (url +:+ "/v1/cluster/nodes") w in
  (match r with Err e => Err e | Ok resp => decodeNodes (hrBody resp) end, w).

(** [cycle], with its two requests. *)
Definition operator_cycle (marshal : TaskAssignment → result (list byte)) (cfg : OperatorConfig) (kube : Client) (w : V) :
    option (result (list (string * result unit))) * V :=
  let '(drained, w) := drainPending (ocCoordinatorURL cfg) (ocMaxJobsPerCycle cfg) w in
  match drained with
  | Ok (a :: l) => let '(nodes, w) := fetchNodes (ocCoordinatorURL cfg) w in cycle marshal cfg kube (Ok (a :: l)) nodes w
  | _ => cycle marshal cfg kube drained (Ok []) w
  end.

Definition operator_postJSON (url : string) (v : result (list byte)) (w : V) : result unit * V :=
  match v with
  | Err e => (Err e, w)
  | Ok b =>
      let '(r, w) := Post url b w in
      (match r with
       | Err e => Err e
       | Ok resp => if 400 <=? hrCode resp then Err ("server " +:+ fmt_d (hrCode resp) +:+ ": " +:+ reportError (hrBody resp)) else Ok tt
       end, w)
  end.

(** The watcher's results, one after the other; an error is logged. *)
Fixpoint reportResults (url : string) (rs : list JobResult) (w : V) : V :=
  match rs with
  | [] => w
  | r :: rs =>
      let req := operator_request r in
      let '(_, w) := operator_postJSON (url +:+ "/v1/tasks/" +:+ jrTaskID r +:+ "/result") (encodeReport (rrWorkerID req) (rrError req)) w in
      reportResults url rs w
  end.
End operator.

(** ** No preference is ever expressed *)

(** No node has a name: [Register] does not take the one it is given over. *)
Definition nameless (m : Membership) : Prop := ∀ id n, mNodes m !! id = Some n → NodeName n = EmptyString.

Lemma nameless_insert m id n : nameless m → NodeName n = EmptyString → ∀ id' n', <[id := n]> (mNodes m) !! id' = Some n' → NodeName n' = EmptyString.
Proof. intros Hm Hn id' n'. rewrite lookup_insert. case_decide; [by intros [= <-]|apply Hm]. Qed.

Lemma nameless_step o m : nameless m → nameless (Membership.apply_op o m).
Proof.
  intros Hm. destruct o as [now req|now hb|now order|]; cbn.
  - unfold Register. destruct (mNodes m !! regID req) as [n|] eqn:En; intros id n'; cbn; apply (nameless_insert m); try done. cbn. by apply (Hm _ _ En).
  - unfold HeartbeatOp. destruct (mNodes m !! hbNodeID hb) as [n|] eqn:En; [|done]. pose proof (Hm _ _ En) as Hn.
    case_bool_decide; cbn; intros id n'; rewrite ?emit_nodes; cbn; by apply (nameless_insert m).
  - apply (foldl_inv nameless); [done|]. intros m' x _ Hm' id n. rewrite tick_node_nodes. destruct (decide (x = id)) as [->|Hx].
    + rewrite lookup_alter_eq. destruct (mNodes m' !! id) as [n0|] eqn:En; [|done]. cbn. intros [= <-]. rewrite <- (Hm' _ _ En).
      unfold ticked. cbn. by repeat case_match.
    + rewrite lookup_alter_ne by done. apply Hm'.
  - unfold next_event. by destruct (events m).
Qed.

Lemma reachable_nameless per suspect dead m : Membership.reachable per suspect dead m → nameless m.
Proof. induction 1 as [|o m _ IH]; [done|]. by apply nameless_step. Qed.

Lemma no_preference m shard : nameless m → buildAffinity shard (activeNodes (AllNodes m)) = None.
Proof.
  intros Hm. unfold buildAffinity. assert (Hf : List.filter (prefers shard) (activeNodes (AllNodes m)) = []); [|by rewrite Hf].
  assert (Ha : ∀ n, In n (activeNodes (AllNodes m)) → NodeName n = EmptyString).
  { intros n Hn. apply List.filter_In in Hn as [Hn _]. apply list_elem_of_In in Hn. unfold AllNodes in Hn.
    apply list_elem_of_fmap in Hn as ([id n'] & -> & Hin). apply elem_of_map_to_list in Hin. by apply (Hm id). }
  induction (activeNodes (AllNodes m)) as [|n l IH]; [done|]. cbn. unfold prefers at 1. rewrite (Ha n) by (by left). cbn. apply IH.
  intros n' Hn'. apply Ha. by right.
Qed.

(** A Job never prefers a node. Whatever names the workers register under and
    whatever shards they report as cached, the nodes the coordinator answers have
    no name, so that the affinity the factory builds from them is empty for every
    shard. *)
Theorem affinity_never_built per suspect dead m marshal a image url j : Membership.reachable per suspect dead m →
  BuildJob marshal a image url (activeNodes (AllNodes m)) = Some (Ok j) → Affinity (tpSpec (Template (bjSpec j))) = None.
Proof.
  intros Hr. unfold BuildJob. destruct (marshal a); [|done]. destruct (JobName (aTaskID a)); [|done]. intros [= <-]. cbn.
  apply no_preference. by eapply reachable_nameless.
Qed.

(** ** What a number looks like in a URL *)

Lemma atoi_digits_val s : ∀ acc, 0 ≤ acc → all_digits s = true → Api.atoi_digits acc s = Some (Z.of_N (digits_val (Z.to_N acc) s)).
Proof.
  induction s as [|c s IH]; intros acc Ha Hs; [cbn; f_equal; lia|]. cbn [all_digits] in Hs. apply andb_true_iff in Hs as [Hc Hs]. apply andb_true_iff in Hc as [H1 H2].
  apply N.leb_le in H1, H2. cbn [Api.atoi_digits]. rewrite (proj2 (Z.leb_le 0 _)), (proj2 (Z.leb_le _ 9)) by lia. cbn [andb]. rewrite IH by (done || lia).
  cbn [digits_val]. do 3 f_equal. lia.
Qed.

Lemma Atoi_fmt_d n : 0 < n ≤ max_int64 → Api.Atoi (fmt_d n) = Some n.
Proof.
  intros [Hn Hm]. destruct (pretty_val n) as [Hv Hd]; [lia|]. unfold fmt_d, Api.Atoi. destruct (pretty n) as [|c s] eqn:E; [cbn in Hv; lia|].
  assert (∀ d : Ascii.ascii, (Ascii.N_of_ascii d < 48)%N → Ascii.eqb c d = false) as Hne.
  { intros d Hlt. apply Ascii.eqb_neq. intros ->. cbn [all_digits] in Hd. apply andb_true_iff in Hd as [Hc _]. apply andb_true_iff in Hc as [Hc _]. apply N.leb_le in Hc. lia. }
  rewrite !Hne by done. rewrite (atoi_digits_val _ 0) by done. change (Z.to_N 0) with 0%N. rewrite Hv. cbn [mbind option_bind].
  rewrite Z2N.id by lia. by rewrite (proj2 (Z.leb_le (- 2 ^ 63) n)), (proj2 (Z.leb_le n max_int64)) by lia.
Qed.

(** ** A cycle over the wire *)

Section site.
Import Coordinator.
Context {W E K : Type} `{Committer W, CommitDecider W E, SideEffect W, StateCodec, Api.RequestCodec, KS : APIServer K, OC : OperatorCodec}.
Context (base : string) (env : nat → Api.Env E) (render : Api.payload → list byte) (cut : string).

(** The coordinator and the Kubernetes API. *)
Definition world : Type := site (W := W) * K.
#[local] Instance coordinator_side : Net world := {|
  Post url b x := let '(r, s) := Post (Net := coordinator_net base env render cut) url b x.1 in (r, (s, x.2));
  Get url x := let '(r, s) := Get (Net := coordinator_net base env render cut) url x.1 in (r, (s, x.2)) |}.
#[local] Instance cluster_side : APIServer world := λ req x, let '(r, k) := Do req x.2 in (r, (x.1, k)).

(** What the two sides' JSON has in common. *)
Record operator_laws : Prop := {
  ol_assignments l : decodeAssignments (render (Api.PAssignments l)) = Ok l;
  ol_nodes l : decodeNodes (render (Api.PNodes l)) = Ok l;
  ol_report w e : ∃ b, encodeReport w e = Ok b ∧ Api.decodeResult b = Ok (MkResult w 0 0 "" 0 e) }.
Context (laws : operator_laws).

Lemma drained_over_the_wire n (x : world) l s : 0 < n ≤ max_int64 → DrainPending (Api.evNow (env x.1.1)) n (sched x.1.2) = (Ok l, s) →
  Post (base +:+ "/v1/operator/drain?n=" +:+ fmt_d n) [] x =
    (Ok (Lifecycle.MkHttpResponse 200 (render (Api.PAssignments l))), ((S x.1.1, locked (Api.evIo (env x.1.1)) s x.1.2), x.2)).
Proof.
  intros Hn HD. unfold Post, coordinator_side, Post, coordinator_net, exchange. rewrite path_of_base.
  assert (HU : parse_url ("/v1/operator/drain?n=" +:+ fmt_d n) = ("/v1/operator/drain"%string, {["n"%string := fmt_d n]})).
  { change ("/v1/operator/drain?n=" +:+ fmt_d n) with ("/v1/operator/drain" +:+ String question ("n" +:+ String equals (fmt_d n))).
    unfold parse_url. by rewrite !cut_at_app by done. }
  rewrite HU. unfold Api.serve. cbn [Api.rqPath]. rewrite !bool_decide_false by done. rewrite bool_decide_true by done.
  unfold Api.handleOperatorDrain. cbn [Api.rqMethod Api.rqQuery]. rewrite bool_decide_false by tauto. rewrite lookup_singleton_eq. cbn [default id].
  rewrite (Atoi_fmt_d n Hn), (proj2 (Z.gtb_lt n 0)) by lia. by rewrite HD.
Qed.

Lemma nodes_over_the_wire (x : world) :
  Get (base +:+ "/v1/cluster/nodes") x = (Ok (Lifecycle.MkHttpResponse 200 (render (Api.PNodes (AllNodes (membership x.1.2))))), ((S x.1.1, x.1.2), x.2)).
Proof. unfold Get, coordinator_side, Get, coordinator_net, exchange. by rewrite path_of_base. Qed.

(** The Kubernetes side does not see the coordinator. *)
Lemma create_aside kube job (x : world) : CreateJob kube job x = ((CreateJob kube job x.2).1, (x.1, (CreateJob kube job x.2).2)).
Proof. unfold CreateJob, Do, cluster_side, Do. by destruct (KS _ x.2) as [r k]. Qed.

Lemma cycle_loop_aside marshal cfg kube nodes l (x : world) :
  cycle_loop marshal cfg kube nodes l x = ((cycle_loop marshal cfg kube nodes l x.2).1, (x.1, (cycle_loop marshal cfg kube nodes l x.2).2)).
Proof.
  revert x. induction l as [|a l IH]; intros x; [by destruct x|]. cbn [cycle_loop]. unfold cycle_one.
  destruct (BuildJob marshal a _ _ nodes) as [[job|e]|]; [|rewrite IH|by destruct x].
  - rewrite create_aside. destruct (CreateJob kube job x.2) as [r k]. cbn [fst snd]. rewrite IH. cbn [fst snd]. by destruct (cycle_loop marshal cfg kube nodes l k).
  - by destruct (cycle_loop marshal cfg kube nodes l x.2).
Qed.

Lemma cycle_aside marshal cfg kube drained nodes (x : world) :
  cycle marshal cfg kube drained nodes x = ((cycle marshal cfg kube drained nodes x.2).1, (x.1, (cycle marshal cfg kube drained nodes x.2).2)).
Proof.
  unfold cycle. destruct drained as [[|a l]|e]; [by destruct x| |by destruct x]. rewrite cycle_loop_aside.
  by destruct (cycle_loop marshal cfg kube _ (a :: l) x.2).
Qed.

(** An operator's cycle over HTTP is one drain of the scheduler, then the
    Jobs of what was drained, made for the nodes the coordinator knows: the
    answers, the Kubernetes side and the coordinator are those of the calls. *)
Theorem operator_cycle_over_the_wire marshal cfg kube (x : world) l s (c := x.1.2) (e := env x.1.1) :
  ocCoordinatorURL cfg = base → 0 < ocMaxJobsPerCycle cfg ≤ max_int64 →
  DrainPending (Api.evNow e) (ocMaxJobsPerCycle cfg) (sched c) = (Ok l, s) →
  let r := cycle marshal cfg kube (Ok l) (Ok (AllNodes (membership c))) x.2 in
  operator_cycle marshal cfg kube x = (r.1, ((if bool_decide (l = []) then S x.1.1 else S (S x.1.1), locked (Api.evIo e) s c), r.2)).
Proof.
  intros Hb Hn HD r. unfold operator_cycle, drainPending. rewrite Hb, (drained_over_the_wire _ x l s Hn HD). cbn [Lifecycle.hrBody].
  rewrite (ol_assignments laws). destruct l as [|a l]; [done|]. unfold fetchNodes. rewrite nodes_over_the_wire. cbn [Lifecycle.hrBody].
  rewrite (ol_nodes laws), cycle_aside. cbn [fst snd]. by rewrite (proj1 (Recovery.locked_frame _ _ _)).
Qed.

(** What the operator reports for its finished Jobs arrives: the coordinator
    is left as by as many calls of [ReportResult], in the order of the results. *)
Theorem results_reach_coordinator rs (x : world) : (∀ r, r ∈ rs → url_safe (jrTaskID r)) →
  reportResults base rs x = (foldl (λ y r, (direct_result env cut "" (jrTaskID r) (operator_request r) y).2) x.1 rs, x.2).
Proof.
  revert x. induction rs as [|r rs IH]; intros x Hr; [by destruct x|]. cbn [reportResults foldl].
  assert (HP : (operator_postJSON (base +:+ "/v1/tasks/" +:+ jrTaskID r +:+ "/result")
      (encodeReport (rrWorkerID (operator_request r)) (rrError (operator_request r))) x).2 =
    ((direct_result env cut "" (jrTaskID r) (operator_request r) x.1).2, x.2)).
  { destruct (ol_report laws (rrWorkerID (operator_request r)) (rrError (operator_request r))) as (b & -> & Hd).
    assert (Hq : MkResult (rrWorkerID (operator_request r)) 0 0 "" 0 (rrError (operator_request r)) = operator_request r) by done. rewrite Hq in Hd. clear Hq.
    unfold operator_postJSON, Post, coordinator_side. change "/result"%string with (String slash "result").
    rewrite (exchange_task base env render cut x.1 b (jrTaskID r) "result" (Hr r ltac:(by left)) eq_refl). unfold Api.task_action, Api.decode. cbn [Api.rqBody].
    rewrite bool_decide_false, bool_decide_false, bool_decide_true, Hd by done. unfold direct_result.
    by destruct (ReportResult _ _ _ (jrTaskID r) (operator_request r) _ _) as [[[[]|e]|] [s' w]]. }
  destruct (operator_postJSON _ _ x) as [res x1]. cbn [snd] in HP. subst x1. rewrite IH; [done|]. intros r' Hr'. apply Hr. by right.
Qed.

(** The same network, but no answer comes back. *)
Definition deaf_side : Net world := {|
  Post url b x := (Err cut, (Post url b x).2);
  Get url x := (Err cut, (Get url x).2) |}.

(** An answer that is lost takes the drained tasks with it. The operator logs
    an error and makes no Job, the coordinator has them assigned to no worker,
    and no worker's failure ever puts them back in the queue. *)
Theorem lost_drain_answer_strands marshal cfg kube (x : world) l s (c := x.1.2) (e := env x.1.1) (c' := locked (Api.evIo e) s c) :
  ocCoordinatorURL cfg = base → 0 < ocMaxJobsPerCycle cfg ≤ max_int64 → sched_ok (sched c) →
  DrainPending (Api.evNow e) (ocMaxJobsPerCycle cfg) (sched c) = (Ok l, s) →
  operator_cycle (H := deaf_side) marshal cfg kube x = (Some (Err ("drain pending: " +:+ cut)), ((S x.1.1, c'), x.2)) ∧
  ∀ a, a ∈ l → ∃ t t', tasks (sched c) !! aTaskID a = Some t ∧ tStatus t = TaskPending ∧
    tasks (sched c') !! aTaskID a = Some t' ∧ tStatus t' = TaskAssigned ∧ tWorkerID t' = tWorkerID t ∧
    ∀ now order worker, worker ≠ tWorkerID t → tasks (RebalanceWorker now order worker (sched c')) !! aTaskID a = Some t'.
Proof.
  intros Hb Hn Hs HD. split.
  - unfold operator_cycle, drainPending. unfold Post at 1, deaf_side. by rewrite Hb, (drained_over_the_wire _ x l s Hn HD).
  - intros a Ha. unfold c'. rewrite (proj2 (Recovery.locked_frame _ _ _)). by eapply drained_is_unowned.
Qed.
End site.

(** ** An example: two tasks whose ids agree in eight characters *)

#[local] Existing Instances Lifecycle.metrics_eq Lifecycle.assignment_eq Lifecycle.assignment_countable Lifecycle.result_eq Lifecycle.result_countable
  Lifecycle.demo_request_codec Lifecycle.no_commit Lifecycle.no_decide Lifecycle.no_effect.
#[local] Instance state_eq : EqDecision NodeState.
Proof. solve_decision. Defined.
#[local, refine] Instance state_countable : Countable NodeState :=
  inj_countable' (λ s, match s with NodeActive => 0%nat | NodeSuspect => 1%nat | NodeDead => 2%nat end)
    (λ n, match n with 0%nat => NodeActive | 1%nat => NodeSuspect | _ => NodeDead end) _.
Proof. by intros []. Defined.
#[local] Instance node_eq : EqDecision NodeInfo.
Proof. solve_decision. Defined.
#[local, refine] Instance node_countable : Countable NodeInfo :=
  inj_countable' (λ n, (nodeID n, Membership.Address n, State n, LastSeen n, JoinedAt n, NodeName n,
      (ActiveTasks (Metrics n), CPUPct (Metrics n), MemUsedGB (Metrics n), CachedShards (Metrics n))))
    (λ '(a, b, c, d, e, f, (g, h, i, j)), MkNode a b c d e (MkMetrics g h i j) f) _.
Proof. by intros [? ? ? ? ? []]. Defined.

Definition operator_render (p : Api.payload) : list byte :=
  match p with Api.PAssignments l => Lifecycle.put l | Api.PNodes l => Lifecycle.put l | _ => [] end.
#[local] Instance demo_operator_codec : OperatorCodec := {|
  decodeAssignments := take; decodeNodes := take; encodeReport w e := Ok (put (MkResult w 0 0 "" 0 e)); reportError _ := ""%string |}.

Lemma demo_operator_laws : operator_laws operator_render.
Proof. split; intros; [apply take_put|apply take_put|eexists; split; [done|apply take_put]]. Qed.

Section depot.
Import Coordinator.
Definition depot : Coordinator unit := CoordThms.demo_c1 <| sched := twins |>.
End depot.
Definition depot_env (n : nat) : Api.Env unit := Api.MkEnv 1 (3 + Z.of_nat n) "job" [] [] "t2" AOk tt.
Definition depot_url : string := "http://coordinator:8090".
Definition depot_cfg : OperatorConfig := MkOperatorConfig depot_url "petabyte-worker:v1" 10.
Definition depot_world : world (W := unit) (K := list string) := ((0%nat, depot), []).
#[local] Existing Instance naming.
Lemma operator_cycle_over_the_wire_witness : ∃ r,
  operator_cycle (H := coordinator_side (H2 := CoordThms.demo_codec) depot_url depot_env operator_render "EOF") (H0 := cluster_side)
    demo_marshal depot_cfg (MkClient "" "" "petabyte") depot_world = r ∧
  match r.1 with Some (Ok logs) => map (λ r, (fst r, is_ok (snd r))) logs | _ => [] end = [("550e8400-a", true); ("550e8400-b", false)]%string.
Proof.
  eexists. split.
  - eapply (operator_cycle_over_the_wire (H2 := CoordThms.demo_codec) depot_url depot_env operator_render "EOF" demo_operator_laws demo_marshal depot_cfg
      (MkClient "" "" "petabyte") depot_world).
    + reflexivity.
    + split; [reflexivity|discriminate].
    + vm_compute. reflexivity.
  - vm_compute. reflexivity.
Defined.

Lemma results_reach_coordinator_witness : ∃ r,
  reportResults (H := coordinator_side (H2 := CoordThms.demo_codec) depot_url depot_env operator_render "EOF") depot_url
    [MkJobResult "550e8400-a" "petabyte-task-550e8400" JobSucceeded ""; MkJobResult "550e8400-b" "petabyte-task-550e8400" JobFailed ""] depot_world = r ∧
  ((λ id, tStatus <$> tasks (Coordinator.sched r.1.2) !! id) <$> ["550e8400-a"; "550e8400-b"]%string) = [Some TaskDone; Some TaskPending].
Proof.
  eexists. split.
  - apply (results_reach_coordinator (H2 := CoordThms.demo_codec) depot_url depot_env operator_render "EOF" demo_operator_laws _ depot_world).
    intros r [->|[->|[]%elem_of_nil]%elem_of_cons]%elem_of_cons; split; reflexivity.
  - vm_compute. reflexivity.
Defined.

Lemma affinity_never_built_witness : ∃ j m, Affinity (tpSpec (Template (bjSpec j))) = None ∧
  mNodes m !! "w1"%string = Some (MkNode "w1" "10.0.0.1" NodeActive 2 1 (MkMetrics 0 0 0 ["a3"%string]) "").
Proof.
  pose (m := Membership.apply_op (OpHeartbeat 2 (MkHeartbeat "w1" (MkMetrics 0 0 0 ["a3"%string])))
    (Membership.apply_op (OpRegister 1 (MkRegister "w1" "10.0.0.1" "node-7")) (NewMembership (NewRing 1) 10 20))).
  destruct (BuildJob demo_marshal demo_task "img" depot_url (activeNodes (AllNodes m))) as [[j|]|] eqn:E; [|by vm_compute in E..].
  exists j, m. split; [|vm_compute; reflexivity]. apply (affinity_never_built 1 10 20 m demo_marshal demo_task "img" depot_url j); [|exact E].
  apply Membership.reach_op, Membership.reach_op, Membership.reach_new.
Defined.

Lemma lost_drain_answer_strands_witness : ∃ r,
  operator_cycle (H := deaf_side (H2 := CoordThms.demo_codec) depot_url depot_env operator_render "EOF") (H0 := cluster_side)
    demo_marshal depot_cfg (MkClient "" "" "petabyte") depot_world = r ∧ r.1 = Some (Err "drain pending: EOF"%string) ∧
  ((λ t, (tStatus t, tWorkerID t)) <$> tasks (Coordinator.sched r.2.1.2) !! "550e8400-a"%string) = Some (TaskAssigned, ""%string).
Proof.
  eexists. split.
  - eapply (lost_drain_answer_strands (H2 := CoordThms.demo_codec) depot_url depot_env operator_render "EOF" demo_marshal depot_cfg
      (MkClient "" "" "petabyte") depot_world).
    + reflexivity.
    + split; [reflexivity|discriminate].
    + apply (run_op_ok (NewRing 1) twins_submit); [apply New_ok|apply twins_valid].
    + vm_compute. reflexivity.
  - split; vm_compute; reflexivity.
Defined.
