(* ===== verification/GenImages.v ===== *)
(** * The generator of test images (cmd/gen-images/main.go)

    The producer that looks for names of a shard, the goroutines that write the
    files, and their channels; whether a file can be written is chosen by the
    environment. *)
From S2P Require Import Prelude GoLib Storage.
Open Scope Z_scope.

Definition classes : list string := ["cat"; "dog"; "bird"; "car"; "tree"].
Definition nameFor (i : Z) : string := nth (Z.to_nat (i mod 5)) classes "" +:+ "_" +:+ fmt_0d 6 i +:+ ".jpg".

(** A goroutine waits for a number, writes a file, or has returned, with an error
    or not. *)
Inductive writer := Idle | Writing (i : Z) | Returned (failed : bool).

(** The producer's counters, the [jobs] channel, the goroutines, the numbers whose
    files were written, and the [errs] channel. *)
Record Gen := MkGen {
  gNext : Z; gEmitted : Z; gClosed : bool; gJobs : list Z; gWorkers : list writer; gDone : list Z; gErrs : list string }.
#[export] Instance eta_Gen : Eta Gen := λ g,
  MkGen (gNext g) (gEmitted g) (gClosed g) (gJobs g) (gWorkers g) (gDone g) (gErrs g).

(** Who moves; what a write says is an argument. *)
Inductive move := Produce | Take (k : nat) | Write (k : nat) (r : result unit) | Leave (k : nat).

Section gen.
Context (shard : string) (count : Z) (workers : nat).

Definition start : Gen := MkGen 0 0 false [] (replicate workers Idle) [] [].

(** Whether a number is handed out. *)
Definition wanted (i : Z) : bool := bool_decide (shard = EmptyString) || bool_decide (ShardKey (nameFor i) = shard).

(** A turn of the producer; it waits while the channel is full. *)
Definition produce (g : Gen) : option Gen :=
  if gClosed g then None
  else if gEmitted g <? count then
    if wanted (gNext g) then
      if (length (gJobs g) <? 2 * workers)%nat
      then Some (g <| gJobs := gJobs g ++ [gNext g] |> <| gEmitted := gEmitted g + 1 |> <| gNext := gNext g + 1 |>)
      else None
    else Some (g <| gNext := gNext g + 1 |>)
  else Some (g <| gClosed := true |>).

Definition set_worker (k : nat) (w : writer) (g : Gen) : Gen := g <| gWorkers := <[k := w]> (gWorkers g) |>.

Definition step (m : move) (g : Gen) : option Gen :=
  match m with
  | Produce => produce g
  | Take k =>
      match gWorkers g !! k, gJobs g with
      | Some Idle, i :: rest => Some (set_worker k (Writing i) (g <| gJobs := rest |>))
      | _, _ => None
      end
  | Write k r =>
      match gWorkers g !! k with
      | Some (Writing i) =>
          Some (match r with
                | Ok _ => set_worker k Idle (g <| gDone := gDone g ++ [i] |>)
                | Err e => set_worker k (Returned true) (if (length (gErrs g) <? workers)%nat then g <| gErrs := gErrs g ++ [e] |> else g)
                end)
      | _ => None
      end
  | Leave k =>
      match gWorkers g !! k with
      | Some Idle => if gClosed g && bool_decide (gJobs g = []) then Some (set_worker k (Returned false) g) else None
      | _ => None
      end
  end.

Inductive reach : Gen → Prop :=
| reach_start : reach start
| reach_step m g g' : reach g → step m g = Some g' → reach g'.

Definition has_returned (w : writer) : bool := match w with Returned _ => true | _ => false end.

(** What [run] returns once it does. *)
Definition answer (g : Gen) : option (result unit) :=
  if gClosed g && forallb has_returned (gWorkers g) then Some (match gErrs g with e :: _ => Err e | [] => Ok tt end) else None.

(** ** Every number goes one way *)

Definition at_hand (w : writer) : option Z := match w with Writing i => Some i | _ => None end.
Definition gave_up (w : writer) : option unit := match w with Returned true => Some tt | _ => None end.

Definition items (g : Gen) : list Z := gJobs g ++ omap at_hand (gWorkers g) ++ gDone g.
Definition failures (g : Gen) : nat := length (omap gave_up (gWorkers g)).

Record gen_inv (g : Gen) : Prop := {
  gi_emitted : gEmitted g = Z.of_nat (length (items g) + failures g);
  gi_errs : length (gErrs g) = failures g;
  gi_workers : length (gWorkers g) = workers;
  gi_nodup : NoDup (items g);
  gi_items : ∀ i, i ∈ items g → wanted i = true ∧ 0 ≤ i < gNext g;
  gi_next : 0 ≤ gNext g;
  gi_count : gEmitted g ≤ Z.max 0 count;
  gi_closed : gClosed g = true → count ≤ gEmitted g }.

Lemma start_gen : gen_inv start.
Proof.
  assert (Ho : ∀ {B} (f : writer → option B) k, f Idle = None → omap f (replicate k Idle) = []).
  { intros B f k Hf. induction k as [|k IH]; [done|]. cbn. by rewrite Hf. }
  assert (HI : items start = []) by (unfold items; cbn; by rewrite Ho). assert (HF : failures start = 0%nat) by (unfold failures; cbn; by rewrite Ho).
  split; rewrite ?HI, ?HF; try done; [by cbn; rewrite length_replicate|constructor|by intros i Hi; apply elem_of_nil in Hi|cbn; lia].
Qed.

Lemma omap_set {B} (f : writer → option B) k x y l : l !! k = Some x → ∃ rest,
  omap f l ≡ₚ option_list (f x) ++ rest ∧ omap f (<[k := y]> l) ≡ₚ option_list (f y) ++ rest.
Proof.
  intros Hk. destruct (insert_perm l k x y Hk) as (l' & P1 & P2). exists (omap f l').
  assert (HC : ∀ z, omap f (z :: l') = option_list (f z) ++ omap f l') by (intros z; cbn; by destruct (f z)).
  rewrite <- !HC. split; by apply omap_Permutation.
Qed.

Lemma produce_gen g g' : gen_inv g → produce g = Some g' → gen_inv g'.
Proof.
  intros [H1 H2 H3 H4 H5 H6 H7 H8]. unfold produce. destruct (gClosed g) eqn:Ec; [done|].
  destruct (Z.ltb_spec (gEmitted g) count) as [Hlt|Hge].
  - destruct (wanted (gNext g)) eqn:Hw; [destruct (_ <? _)%nat; [|done]|]; intros [= <-].
    + assert (HP : items (g <| gJobs := gJobs g ++ [gNext g] |> <| gEmitted := gEmitted g + 1 |> <| gNext := gNext g + 1 |>) ≡ₚ gNext g :: items g).
      { unfold items. cbn. solve_Permutation. }
      split; cbn; try done; try lia.
      * rewrite HP. unfold failures. cbn. fold (failures g). cbn [length]. lia.
      * rewrite HP. constructor; [|done]. intros Hin. apply H5 in Hin. lia.
      * intros i. rewrite HP. intros [->|Hi]%elem_of_cons; [split; [done|lia]|]. destruct (H5 i Hi). split; [done|lia].
      * congruence.
    + split; cbn; try done; try lia; [|congruence]. intros i Hi. destruct (H5 i Hi). split; [done|lia].
  - intros [= <-]. by split.
Qed.

Lemma step_gen m g g' : gen_inv g → step m g = Some g' → gen_inv g'.
Proof.
  intros Hg. pose proof Hg as [H1 H2 H3 H4 H5 H6 H7 H8]. destruct m as [|k|k r|k]; cbn [step]; [by apply produce_gen| | |].
  - destruct (gWorkers g !! k) as [[| |]|] eqn:Hk; try done. destruct (gJobs g) as [|i rest] eqn:Hj; [done|]. intros [= <-].
    destruct (omap_set at_hand k _ (Writing i) _ Hk) as (l & P1 & P2), (omap_set gave_up k _ (Writing i) _ Hk) as (l' & P3 & P4).
    assert (HP : items (set_worker k (Writing i) (g <| gJobs := rest |>)) ≡ₚ items g).
    { unfold items. cbn. rewrite P1, P2, Hj. cbn. solve_Permutation. }
    assert (HF : failures (set_worker k (Writing i) (g <| gJobs := rest |>)) = failures g) by (unfold failures; cbn; by rewrite P3, P4).
    split; rewrite ?HP, ?HF; try done; [by cbn; rewrite length_insert|]. intros j. rewrite HP. apply H5.
  - destruct (gWorkers g !! k) as [[|i|]|] eqn:Hk; try done. destruct r as [[]|e]; intros [= <-].
    + destruct (omap_set at_hand k _ Idle _ Hk) as (l & P1 & P2), (omap_set gave_up k _ Idle _ Hk) as (l' & P3 & P4).
      assert (HP : items (set_worker k Idle (g <| gDone := gDone g ++ [i] |>)) ≡ₚ items g).
      { unfold items. cbn. rewrite P1, P2. cbn. solve_Permutation. }
      assert (HF : failures (set_worker k Idle (g <| gDone := gDone g ++ [i] |>)) = failures g) by (unfold failures; cbn; by rewrite P3, P4).
      split; rewrite ?HP, ?HF; try done; [by cbn; rewrite length_insert|]. intros j. rewrite HP. apply H5.
    + destruct (omap_set at_hand k _ (Returned true) _ Hk) as (l & P1 & P2), (omap_set gave_up k _ (Returned true) _ Hk) as (l' & P3 & P4).
      assert (Hroom : (failures g < workers)%nat).
      { rewrite <- H3. unfold failures. destruct (insert_perm _ k _ Idle Hk) as (l2 & E2 & _). rewrite (Permutation_length (omap_Permutation gave_up _ _ E2)), (Permutation_length E2).
        change (omap gave_up (Writing i :: l2)) with (omap gave_up l2). pose proof (length_omap_le gave_up l2). cbn [length]. lia. }
      rewrite (proj2 (Nat.ltb_lt _ _)) by lia. set (g1 := set_worker _ _ _).
      assert (HP : items g ≡ₚ i :: items g1) by (unfold items, g1; cbn; rewrite P1, P2; cbn; solve_Permutation).
      assert (HF : failures g1 = S (failures g)) by (unfold failures, g1; cbn; by rewrite P3, P4).
      rewrite HP in H1, H4. apply NoDup_cons in H4 as [_ H4]. split; rewrite ?HF; try done.
      * assert (gEmitted g1 = gEmitted g) as -> by done. cbn [length] in H1. lia.
      * unfold g1. cbn. rewrite length_app. cbn. lia.
      * unfold g1. cbn. by rewrite length_insert.
      * intros j Hj. apply H5. rewrite HP. by right.
  - destruct (gWorkers g !! k) as [[| |]|] eqn:Hk; try done. destruct (gClosed g && _) eqn:Ec; [|done]. intros [= <-].
    destruct (omap_set at_hand k _ (Returned false) _ Hk) as (l & P1 & P2), (omap_set gave_up k _ (Returned false) _ Hk) as (l' & P3 & P4).
    assert (HP : items (set_worker k (Returned false) g) ≡ₚ items g) by (unfold items; cbn; by rewrite P1, P2).
    assert (HF : failures (set_worker k (Returned false) g) = failures g) by (unfold failures; cbn; by rewrite P3, P4).
    split; rewrite ?HP, ?HF; try done; [by cbn; rewrite length_insert|]. intros j. rewrite HP. apply H5.
Qed.

Lemma reach_gen g : reach g → gen_inv g.
Proof. induction 1 as [|m g g' _ IH Hs]; [apply start_gen|by eapply step_gen]. Qed.

(** The channel is bounded, and a goroutine leaves without an error only when it
    is closed and empty. *)
Record tidy (g : Gen) : Prop := {
  td_room : (length (gJobs g) ≤ 2 * workers)%nat;
  td_left : Returned false ∈ gWorkers g → gClosed g = true ∧ gJobs g = [] }.

Lemma in_set (k : nat) (w w' : writer) (l : list writer) : w' ∈ <[k := w]> l → w' = w ∨ w' ∈ l.
Proof.
  intros [j Hj]%list_elem_of_lookup. destruct (decide (k = j)) as [->|Hne].
  - left. apply list_lookup_insert_Some in Hj as [(_ & -> & _)|[? _]]; done.
  - right. rewrite list_lookup_insert_ne in Hj by done. by eapply list_elem_of_lookup_2.
Qed.

Lemma step_tidy m g g' : tidy g → step m g = Some g' → tidy g'.
Proof.
  intros [H1 H2]. destruct m as [|k|k r|k]; cbn [step].
  - unfold produce. destruct (gClosed g) eqn:Ec; [done|]. assert (HN : Returned false ∉ gWorkers g) by (intros Hin; by destruct (H2 Hin)).
    destruct (_ <? _); [destruct (wanted _); [destruct (Nat.ltb_spec (length (gJobs g)) (2 * workers)); [|done]|]|]; intros [= <-]; split; cbn; try done.
    rewrite length_app. cbn. lia.
  - destruct (gWorkers g !! k) as [[| |]|]; try done. destruct (gJobs g) as [|i rest] eqn:Hj; [done|]. intros [= <-]. cbn in H1. split; cbn; [lia|].
    intros [?|Hin]%in_set; [done|]. by destruct (H2 Hin).
  - destruct (gWorkers g !! k) as [[|i|]|]; try done. destruct r as [[]|e]; [|destruct (_ <? _)%nat]; intros [= <-]; (split; [exact H1|]);
      cbn; (intros [?|Hin]%in_set; [done|by apply H2]).
  - destruct (gWorkers g !! k) as [[| |]|]; try done. destruct (gClosed g) eqn:Ec; [|done]. cbn. case_bool_decide as Hj; [|done]. intros [= <-]. split; cbn; [exact H1|done].
Qed.

Lemma reach_tidy g : reach g → tidy g.
Proof.
  induction 1 as [|m g g' _ IH Hs]; [|by eapply step_tidy]. split; cbn; [lia|]. intros Hin. by apply elem_of_replicate in Hin as [? _].
Qed.

Lemma answer_closed g r : answer g = Some r → gClosed g = true ∧ Forall (λ w, has_returned w = true) (gWorkers g).
Proof.
  unfold answer. destruct (gClosed g); [|done]. destruct (forallb _ _) eqn:E; [|done]. intros _. split; [done|].
  apply Forall_forall. intros w Hw. rewrite forallb_forall in E. by apply E, list_elem_of_In.
Qed.

Lemma returned_at_hand l : Forall (λ w, has_returned w = true) l → omap at_hand l = [].
Proof. induction 1 as [|w l Hw _ IH]; [done|]. cbn. by destruct w. Qed.

Lemma nobody_gave_up l : Forall (λ w, has_returned w = true) l → omap gave_up l = [] → l ≠ [] → Returned false ∈ l.
Proof. destruct 1 as [|w l Hw _]; [done|]. intros HG _. destruct w as [| |[]]; try done. by left. Qed.

(** When the generator returns without an error it has written exactly the
    number of files asked for, each once, and with a shard given every one of
    them hashes to it. *)
Theorem generated_exactly g : reach g → (0 < workers)%nat → 0 ≤ count → answer g = Some (Ok tt) →
  Z.of_nat (length (gDone g)) = count ∧ NoDup (gDone g) ∧ ∀ i, i ∈ gDone g → shard ≠ EmptyString → ShardKey (nameFor i) = shard.
Proof.
  intros Hr Hw Hc Ha. destruct (reach_gen g Hr) as [H1 H2 H3 H4 H5 H6 H7 H8], (reach_tidy g Hr) as [_ H9].
  destruct (answer_closed g _ Ha) as [Hcl Hret]. specialize (H8 Hcl).
  assert (HF : failures g = 0%nat).
  { rewrite <- H2. unfold answer in Ha. destruct (_ && _); [|done]. by destruct (gErrs g). }
  assert (HJ : gJobs g = []).
  { apply H9, nobody_gave_up; [done| |]; [by apply length_zero_iff_nil|]. intros E. rewrite E in H3. cbn in H3. lia. }
  assert (HI : items g = gDone g) by (unfold items; by rewrite HJ, (returned_at_hand _ Hret)).
  rewrite HI, HF in *. split_and!; [lia|done|]. intros i Hi Hs. destruct (H5 i Hi) as [Hwt _]. unfold wanted in Hwt.
  rewrite bool_decide_false in Hwt by done. by apply bool_decide_eq_true in Hwt.
Qed.

(** *** When it never returns *)

Lemma busy_or_failed l : (length (omap at_hand l) + length (omap gave_up l) ≤ length l)%nat.
Proof.
  induction l as [|w l IH]; [done|].
  assert (HC : ∀ {B} (f : writer → option B), omap f (w :: l) = option_list (f w) ++ omap f l) by (intros B f; cbn; by destruct (f w)).
  rewrite (HC _ at_hand), (HC _ gave_up), !length_app. revert IH. generalize (length (omap at_hand l)) (length (omap gave_up l)). intros a b IH. destruct w as [| |[]]; cbn; lia.
Qed.

Lemma unfinished g : reach g → Z.of_nat (length (gDone g) + 3 * workers) < count → answer g = None.
Proof.
  intros Hr Hc. destruct (answer g) as [r|] eqn:Ha; [|done]. destruct (reach_gen g Hr) as [H1 H2 H3 H4 H5 H6 H7 H8], (reach_tidy g Hr) as [H9 _].
  destruct (answer_closed g _ Ha) as [Hcl _]. specialize (H8 Hcl). pose proof (busy_or_failed (gWorkers g)) as HB. rewrite H3 in HB.
  unfold items, failures in H1. rewrite !length_app in H1. lia.
Qed.

Lemma step_reach g g' : reach g → rtc (λ g g', ∃ m, step m g = Some g') g g' → reach g'.
Proof. intros Hr Hs. induction Hs as [|g g1 g2 [m Hm] _ IH]; [done|]. apply IH. by eapply reach_step. Qed.

(** Writers that cannot write hang the generator. A goroutine returns at its
    first error; once all have, with more files left than both channels and the
    goroutines' hands hold, the producer blocks on a channel that nobody reads,
    and the error is never told. *)
Theorem failed_writers_hang g g' : reach g → Forall (λ w, w = Returned true) (gWorkers g) → Z.of_nat (length (gDone g) + 3 * workers) < count →
  rtc (λ g g', ∃ m, step m g = Some g') g g' → answer g' = None.
Proof.
  intros Hr Hf Hc Hs. assert (HD : Forall (λ w, w = Returned true) (gWorkers g') ∧ gDone g' = gDone g).
  { clear Hr Hc. induction Hs as [g|g g1 g2 [m Hm] _ IH]; [done|]. assert (H1 : gWorkers g1 = gWorkers g ∧ gDone g1 = gDone g); [|destruct H1 as [E1 E2]; rewrite E1, E2 in IH; by apply IH].
    assert (HK : ∀ k, gWorkers g !! k = None ∨ gWorkers g !! k = Some (Returned true)).
    { intros k. destruct (gWorkers g !! k) as [w|] eqn:Hk; [|by left]. right. f_equal. by eapply Forall_lookup_1 in Hf. }
    destruct m as [|k|k r|k]; cbn [step] in Hm; [|destruct (HK k) as [E|E]; rewrite E in Hm; done..].
    unfold produce in Hm. repeat case_match; by simplify_eq/=. }
  apply unfinished; [by eapply step_reach|]. by rewrite (proj2 HD).
Qed.

Lemma nothing_emitted g : reach g → (∀ i, wanted i = false) → gEmitted g = 0.
Proof.
  intros Hr HW. induction Hr as [|m g g' _ IH Hs]; [done|]. rewrite <- IH. destruct m as [|k|k r|k]; cbn [step] in Hs.
  - unfold produce in Hs. rewrite HW in Hs. repeat case_match; by simplify_eq/=.
  - repeat case_match; by simplify_eq/=.
  - repeat case_match; by simplify_eq/=.
  - repeat case_match; by simplify_eq/=.
Qed.

(** Asked for a shard that is not one of the 256, the generator never
    returns and writes nothing. *)
Theorem no_such_shard g : reach g → shard ≠ EmptyString → shard ∉ AllShards → 0 < count → answer g = None ∧ gDone g = [].
Proof.
  intros Hr Hs Hn Hc. assert (HW : ∀ i, wanted i = false).
  { intros i. unfold wanted. rewrite !bool_decide_false; [done| |done]. intros E. apply Hn. rewrite <- E. apply ShardKey_in_AllShards. }
  destruct (reach_gen g Hr) as [H1 H2 H3 H4 H5 H6 H7 H8]. pose proof (nothing_emitted g Hr HW) as HE. split.
  - destruct (answer g) as [r|] eqn:Ha; [|done]. destruct (answer_closed g _ Ha) as [Hcl _]. specialize (H8 Hcl). lia.
  - rewrite HE in H1. unfold items in H1. rewrite !length_app in H1. apply length_zero_iff_nil. lia.
Qed.
End gen.

(** ** Examples *)

(** Two files of any shard by one goroutine. *)
Definition two_moves : list move := [Produce; Take 0; Produce; Write 0 (Ok tt); Produce; Take 0; Write 0 (Ok tt); Leave 0].
Definition moves (shard : string) (count : Z) (workers : nat) (l : list move) : option Gen :=
  foldl (λ g m, g ≫= step shard count workers m) (Some (start workers)) l.

Lemma moves_reach shard count workers l g : moves shard count workers l = Some g → reach shard count workers g.
Proof.
  unfold moves. revert g. induction l as [|m l IH] using rev_ind; intros g; [intros [= <-]; apply reach_start|].
  rewrite foldl_app. cbn. destruct (foldl _ _ l) as [g0|]; [|done]. intros Hs. eapply reach_step; [by apply IH|exact Hs].
Qed.

Lemma generated_exactly_witness : ∃ g, moves "" 2 1 two_moves = Some g ∧ nameFor <$> gDone g = ["cat_000000.jpg"; "dog_000001.jpg"]%string ∧
  Z.of_nat (length (gDone g)) = 2.
Proof.
  destruct (moves "" 2 1 two_moves) as [g|] eqn:E; [|by vm_compute in E]. exists g. split; [done|].
  split; [vm_compute in E; injection E as <-; vm_compute; reflexivity|].
  refine (proj1 (generated_exactly "" 2 1 g (moves_reach _ _ _ _ _ E) _ _ _)); [lia|lia|]. vm_compute in E. injection E as <-. reflexivity.
Defined.

(** One goroutine, a full disk, and four files. *)
Definition stuck_moves : list move := [Produce; Take 0; Produce; Produce; Write 0 (Err "no space left on device")].

Lemma failed_writers_hang_witness : ∃ g, moves "" 4 1 stuck_moves = Some g ∧ (∀ m, step "" 4 1 m g = None) ∧ answer g = None.
Proof.
  destruct (moves "" 4 1 stuck_moves) as [g|] eqn:E; [|by vm_compute in E]. exists g. split; [done|]. split.
  - vm_compute in E. injection E as <-. by intros [|[|k]|[|k] r|[|k]].
  - apply (failed_writers_hang "" 4 1 g g (moves_reach _ _ _ _ _ E)); [vm_compute in E; injection E as <-; by repeat constructor..|apply rtc_refl].
Defined.

Lemma no_such_shard_witness : ∃ g, moves "7A" 1 1 [Produce; Produce; Produce] = Some g ∧ gNext g = 3 ∧ answer g = None.
Proof.
  destruct (moves "7A" 1 1 [Produce; Produce; Produce]) as [g|] eqn:E; [|by vm_compute in E]. exists g. split; [done|].
  split; [vm_compute in E; by injection E as <-|].
  refine (proj1 (no_such_shard "7A" 1 1 g (moves_reach _ _ _ _ _ E) _ _ _)); [done|apply (bool_decide_unpack _); by vm_compute|lia].
Defined.
