(* ===== verification/Programs.v ===== *)
(** * The remaining programs (cmd/sandbox-runner/, cmd/vsearch/, cmd/ingest/)

    What the pod of a sandboxed task runs, and the command lines that turn flags
    into a query and into labels.  JSON, [strconv.ParseFloat] and the environment
    are arguments. *)
From Stdlib Require Import SpecFloat.
From S2P Require Import Prelude GoLib Encoding Float64 Vsearch Job Keys Api EventRing Sandbox.
From S2P Require Import K8s.
Open Scope Z_scope.

(** ** The sandbox runner *)

Definition decodeAssignment (unmarshal : list byte → result TaskAssignment) (encoded : string) : result TaskAssignment :=
  match StdEncoding.DecodeString encoded with
  | None => Err "illegal base64 data"
  | Some raw => unmarshal raw
  end.

Section env.
Context (getenv : string → string) (parse_float : string → option float64).

Definition envOr (key fallback : string) : string :=
  if bool_decide (getenv key ≠ "") then getenv key else fallback.
Definition envInt (key : string) (fallback : Z) : Z :=
  if bool_decide (getenv key ≠ "") then match Atoi (getenv key) with Some n => n | None => fallback end else fallback.
Definition envFloat (key : string) (fallback : float64) : float64 :=
  if bool_decide (getenv key ≠ "") then match parse_float (getenv key) with Some n => n | None => fallback end else fallback.

Definition limitsFromEnv : ResourceLimits :=
  MkLimits (envFloat "PETABYTE_CPU_CORES" (of_Z 1)) (wrap64 (Z.shiftl (envInt "PETABYTE_MEMORY_GB" 2) 30))
    (envInt "PETABYTE_GPU_COUNT" 0) (Z.shiftl 10 30) "none" (envInt "PETABYTE_TIMEOUT_SEC" 3600).

Definition runner_spec (a : TaskAssignment) (image : string) : RunnerSpec :=
  MkRunnerSpec (aTaskID a) (aJobID a) (aShard a) (aDataset a) image limitsFromEnv
    (<["PETABYTE_SHARD" := aShard a]> {["PETABYTE_DATASET" := aDataset a]}) ""
    (Trace.TraceID (aJobID a) (aShard a) (aRangeStart a) (aRangeEnd a)).

(** What the runner posts when the execution is over. *)
Definition runner_report (workerID : string) (duration : Z) (r : option RunResult) (err : option string) : ResultRequest :=
  let '(n, b, k) := match r with Some r => (rrImagesProcessed r, rrBytesRead r, rrOutputKey r) | None => (0, 0, ""%string) end in
  MkResult workerID n b k duration (match err with Some e => e | None => ""%string end).

(** [main]: what is run, or the exit of a task that cannot be. *)
Definition sandbox_main (unmarshal : list byte → result TaskAssignment) (worker_url worker_id : string) :
    result (string * string * RunnerSpec) :=
  match decodeAssignment unmarshal (getenv "PETABYTE_TASK_JSON") with
  | Err e => Err ("decode task assignment: " +:+ e)
  | Ok a =>
      let image := getenv "PETABYTE_ALGORITHM_IMAGE" in
      if bool_decide (image = "") then Err "PETABYTE_ALGORITHM_IMAGE not set"
      else Ok (envOr "PETABYTE_COORDINATOR_URL" worker_url, envOr "PETABYTE_WORKER_ID" worker_id, runner_spec a image)
  end.
End env.

(** Whatever its environment says, a sandboxed task has no network, ten
    gigabytes of disk, and the shard and dataset of its assignment; the
    algorithm sees its trace id and no idempotency key, though the key is
    documented to reach it; and the lease's range is not in the specification, so
    a task that was split is run on its whole shard. *)
Theorem sandboxed_spec getenv parse_float a image (spec := runner_spec getenv parse_float a image) :
  NetworkMode (rsLimits spec) = "none"%string ∧ DiskBytes (rsLimits spec) = 10 * 2 ^ 30 ∧
  rsShard spec = aShard a ∧ rsDataset spec = aDataset a ∧
  container_env spec !! TraceIDEnv = Some (Trace.TraceID (aJobID a) (aShard a) (aRangeStart a) (aRangeEnd a)) ∧
  container_env spec !! IdempotencyKeyEnv = None ∧
  ∀ b, aTaskID b = aTaskID a → aJobID b = aJobID a → aShard b = aShard a → aDataset b = aDataset a →
    runner_spec getenv parse_float b image =
    MkRunnerSpec (rsTaskID spec) (rsJobID spec) (rsShard spec) (rsDataset spec) image (rsLimits spec) (rsEnv spec) (rsIdempotencyKey spec)
      (Trace.TraceID (aJobID b) (aShard b) (aRangeStart b) (aRangeEnd b)).
Proof.
  assert (HE : container_env spec = <[TraceIDEnv := rsTraceID spec]> (rsEnv spec)).
  { assert (Hk : rsIdempotencyKey spec = EmptyString) by done. assert (Ht : rsTraceID spec ≠ EmptyString) by (unfold spec, runner_spec, Trace.TraceID; done).
    unfold container_env. rewrite Hk. repeat case_bool_decide; try done; tauto. }
  rewrite HE. split_and!; try done.
  intros b E1 E2 E3 E4. unfold spec, runner_spec. cbn. by rewrite E1, E2, E3, E4.
Qed.

Lemma sandboxed_spec_witness :
  rsLimits (runner_spec (λ _, ""%string) (λ _, None) (MkAssignment "t" "j" "aa" "ds" "dense" ∅ 500 900 600 1 true) "img") =
  rsLimits (runner_spec (λ _, ""%string) (λ _, None) demo_task "img") ∧
  runner_spec (λ _, ""%string) (λ _, None) (MkAssignment "t" "j" "aa" "ds" "dense" ∅ 500 900 600 1 true) "img" =
  MkRunnerSpec "t" "j" "aa" "ds" "img" (rsLimits (runner_spec (λ _, ""%string) (λ _, None) demo_task "img"))
    (<["PETABYTE_SHARD" := "aa"%string]> {["PETABYTE_DATASET" := "ds"%string]}) "" (Trace.TraceID "j" "aa" 500 900).
Proof.
  split; [done|]. destruct (sandboxed_spec (λ _, ""%string) (λ _, None) (MkAssignment "t" "j" "aa" "ds" "dense" ∅ 0 (-1) 600 0 false) "img") as (_ & _ & _ & _ & _ & _ & H).
  by rewrite (H (MkAssignment "t" "j" "aa" "ds" "dense" ∅ 500 900 600 1 true)).
Defined.

(** The pods that the operator makes cannot run a sandboxed task: their Job
    sets the task and the coordinator's address only, so the runner finds no
    image and exits, and none of the limits it would read. *)
Theorem operator_pod_has_no_image marshal unmarshal parse_float a image url nodes j worker_url worker_id :
  BuildJob marshal a image url nodes = Some (Ok j) →
  is_ok (sandbox_main (pod_env j) parse_float unmarshal worker_url worker_id) = false ∧
  limitsFromEnv (pod_env j) parse_float = MkLimits (of_Z 1) (2 * 2 ^ 30) 0 (10 * 2 ^ 30) "none" 3600.
Proof.
  unfold BuildJob. destruct (marshal a); [|done]. destruct (JobName (aTaskID a)); [|done]. intros [= <-]. split; [|reflexivity].
  unfold sandbox_main. destruct (decodeAssignment _ _); [|done]. rewrite bool_decide_true by reflexivity. done.
Qed.

Lemma operator_pod_has_no_image_witness : ∃ j, demo_job = Some (Ok j) ∧
  is_ok (sandbox_main (pod_env j) (λ _, None) demo_unmarshal "http://localhost:8090" "w") = false.
Proof.
  eexists. split; [reflexivity|].
  apply (operator_pod_has_no_image demo_marshal demo_unmarshal (λ _, None) demo_task "petabyte-worker:v1" "http://coordinator:8090" [] _ "http://localhost:8090" "w").
  reflexivity.
Defined.

(** ** The vector search command *)

(** [buildQuery]: the JSON decoder and the image file are arguments. *)
Definition buildQuery (unmarshal : string → result (list float32)) (read : string → result (list byte)) (k : Z) (id vector text imagePath : string) : result Query :=
  match (if bool_decide (vector ≠ "") then unmarshal vector else Ok []) with
  | Err e => Err ("parse -vector as JSON array: " +:+ e)
  | Ok v =>
      match (if bool_decide (imagePath ≠ "") then read imagePath else Ok []) with
      | Err e => Err ("read -image: " +:+ e)
      | Ok data =>
          let given s := if bool_decide (s ≠ ""%string) then 1 else 0 in
          let set := given id + given vector + given text + given imagePath in
          if negb (set =? 1) then Err ("provide exactly one query: -id, -vector, -text, or -image (got " +:+ fmt_d set +:+ ")")
          else Ok (MkQuery id v text data k)
      end
  end.

(** ** The ingest command *)

(** [strings.Split(s, ",")] and [strings.TrimSpace], on ASCII. *)
Definition comma : Ascii.ascii := Ascii.ascii_of_N 44.
Fixpoint split_comma (s : string) : list string :=
  match s with
  | EmptyString => [EmptyString]
  | String c s =>
      if Ascii.eqb c comma then EmptyString :: split_comma s
      else match split_comma s with [] => [String c EmptyString] | w :: ws => String c w :: ws end
  end.
Definition is_space (c : Ascii.ascii) : bool :=
  let n := Ascii.N_of_ascii c in (n =? 32)%N || ((9 <=? n) && (n <=? 13))%N.
Fixpoint trim_left (s : string) : string :=
  match s with String c s' => if is_space c then trim_left s' else s | EmptyString => EmptyString end.
Fixpoint trim_right (s : string) : string :=
  match s with
  | EmptyString => EmptyString
  | String c s' => match trim_right s' with EmptyString => if is_space c then EmptyString else String c EmptyString | t => String c t end
  end.
Definition TrimSpace (s : string) : string := trim_right (trim_left s).

Definition parse_labels (labels : string) : list string :=
  if bool_decide (labels = "") then []
  else List.filter (λ t, bool_decide (t ≠ "")) (map TrimSpace (split_comma labels)).

(** The exit status of an ingest: nothing landed, or more than one in a hundred
    failed. *)
Definition ingest_fails (processed failed : Z) : bool :=
  (processed =? 0) || fltb (fmul (decimal 1 2) (of_Z (wrap64 (processed + failed)))) (of_Z failed).

Example labels_check : parse_labels " cat, big dog ,,	x" = ["cat"; "big dog"; "x"]%string ∧ ingest_fails 99 1 = false ∧ ingest_fails 98 2 = true ∧ ingest_fails 0 0 = true.
Proof. by vm_compute. Qed.

Lemma trim_left_head s : match trim_left s with EmptyString => True | String c _ => is_space c = false end.
Proof. induction s as [|c s IH]; cbn; [done|]. by destruct (is_space c) eqn:E. Qed.

Lemma trim_right_head s : match trim_right s with EmptyString => True | String c _ => ∃ s', s = String c s' end.
Proof. destruct s as [|c s]; cbn; [done|]. destruct (trim_right s); [destruct (is_space c)|]; cbn; try done; by eexists. Qed.

Lemma trim_right_idemp s : trim_right (trim_right s) = trim_right s.
Proof.
  induction s as [|c s IH]; cbn; [done|]. destruct (trim_right s) as [|d t] eqn:E; [destruct (is_space c) eqn:Ec; cbn; [done|by rewrite Ec]|].
  cbn [trim_right] in *. by rewrite IH.
Qed.

(** Labels given on the command line are not empty, have no space around them
    and no comma in them. *)
Theorem labels_are_clean labels t : t ∈ parse_labels labels → t ≠ ""%string ∧ TrimSpace t = t ∧ no_char comma t = true.
Proof.
  unfold parse_labels. case_bool_decide; [intros Ht; by apply elem_of_nil in Ht|].
  rewrite list_elem_of_In, filter_In, bool_decide_eq_true, in_map_iff. intros [(s & <- & Hs) Hne]. split_and!; [done| |].
  - unfold TrimSpace. pose proof (trim_right_head (trim_left s)) as Hh. pose proof (trim_left_head s) as Hl.
    destruct (trim_right (trim_left s)) as [|c u] eqn:E; [done|]. destruct Hh as [s' Hs']. rewrite Hs' in Hl.
    replace (trim_left (String c u)) with (String c u) by (cbn; by rewrite Hl). rewrite <- E. apply trim_right_idemp.
  - assert (Hc : ∀ x, no_char comma x = true → no_char comma (TrimSpace x) = true).
    { intros x Hx. unfold TrimSpace. assert (no_char comma (trim_left x) = true) as Hx'.
      { induction x as [|c x IH]; cbn in *; [done|]. apply andb_true_iff in Hx as [? ?]. destruct (is_space c); [by apply IH|]. by apply andb_true_iff. }
      induction (trim_left x) as [|c y IH]; [done|]. cbn [no_char] in Hx'. apply andb_true_iff in Hx' as [H1 H2]. specialize (IH H2). cbn [trim_right].
      destruct (trim_right y) as [|d t]; [destruct (is_space c)|]; [done|..]; cbn [no_char] in *; apply andb_true_iff; by split. }
    apply Hc. clear - Hs. revert s Hs. induction labels as [|c l IH]; intros s; cbn [split_comma]; [by intros [<-|[]]|].
    destruct (Ascii.eqb c comma) eqn:Ec; [intros [<-|Hs]; [done|by apply IH]|].
    destruct (split_comma l) as [|w ws]; [intros [<-|[]]; cbn [no_char]; by rewrite Ec|]. intros [<-|Hs]; [|apply IH; by right].
    cbn [no_char]. rewrite Ec. apply IH. by left.
Qed.

Lemma labels_are_clean_witness : "big dog"%string ∈ parse_labels " cat, big dog ,," ∧ no_char comma "big dog" = true.
Proof.
  assert (H : "big dog"%string ∈ parse_labels " cat, big dog ,,") by (apply (list_elem_of_In _ _); vm_compute; auto).
  split; [exact H|]. by apply (labels_are_clean " cat, big dog ,," "big dog" H).
Defined.
