(* ===== verification/Server.v ===== *)
(** * The platform's HTTP server (cmd/server/main.go, cmd/server/algorithms.go)

    The routes over the metadata index and over the algorithm registry.  A
    handler is a function of the request and of what the database answers; the
    zip reader and the JSON decoders are parameters.  The similarity route is in
    Vsearch.v. *)
From Stdlib Require Import SpecFloat.
From S2P Require Import Prelude GoLib Float64 Storage Paths Sandbox.
From S2P Require Import Metadata.
From S2P Require Registry Api.
Import Registry.
Open Scope Z_scope.

(** ** Paths *)

(** [splitPath]: the segments between slashes that are not empty. *)
Fixpoint split_path (part : string) (path : string) : list string :=
  let emit l := if bool_decide (part = EmptyString) then l else part :: l in
  match path with
  | EmptyString => emit []
  | String c path => if Ascii.eqb c slash then emit (split_path EmptyString path) else split_path (part +:+ String c EmptyString) path
  end.
Definition splitPath (path : string) : list string := split_path EmptyString path.

(** ** Answers *)

Inductive payload :=
| PError (msg : string) | PHealthy
| PStats (s : DatasetStat) | PShards (l : list ShardStat) | PManifest (m : ShardManifest) | PRecords (l : list DataRecord)
| PLabels (m : gmap string Z) | PCosts (m : gmap string float64)
| PAlgorithm (a : Algorithm) | PAlgorithms (l : list Algorithm)
| PInvalid (msg : string) | PValid (m : Manifest) (image_ref : string).
Record Response := MkResponse { rsStatus : Z; rsBody : payload }.

Definition writeJSON (status : Z) (p : payload) : Response := MkResponse status p.
Definition writeError (status : Z) (msg : string) : Response := MkResponse status (PError msg).

(** ** The estimate (tiering/engine.go) *)

(** US dollars per GB and month; a tier that is not named costs nothing. *)
Definition pricePerGB (tier : string) : float64 :=
  if bool_decide (tier = TierHot) then decimal 23 3
  else if bool_decide (tier = TierWarm) then decimal 125 4
  else if bool_decide (tier = TierCold) then decimal 4 3
  else if bool_decide (tier = TierArchive) then decimal 99 5
  else S754_zero false.
Definition CostProjection (stats : gmap string Z) : gmap string float64 :=
  map_imap (λ tier bytes, Some (fmul (fdiv (of_Z bytes) (of_Z (1024 * 1024 * 1024))) (pricePerGB tier))) stats.

(** ** The index's routes *)

(** The query string's parameters, absent ones empty. *)
Record Request := MkRequest {
  rqMethod : string; rqPath : string; rqQuery : string → string; rqTenant : string; rqBody : result (list byte) }.

Definition dataset_of (r : Request) : string :=
  if bool_decide (rqQuery r "dataset" = "") then "train" else rqQuery r "dataset".

Section index.
Context {codec : Codec} (like : string → string → bool) (decode_tiers : list byte → result (gmap string Z)).

(** What the database does to the queries of one request. *)
Record Faults3 := MkFaults3 { q1 : query_fault; q2 : query_fault; q3 : query_fault }.

Definition handleStats (f : Faults3) (t : Metadata.Table) (r : Request) : Response :=
  match DatasetStats (q1 f) (q2 f) (q3 f) (dataset_of r) t with Err e => writeError 500 e | Ok s => writeJSON 200 (PStats s) end.

Definition handleShards (f : Faults3) (t : Metadata.Table) (r : Request) : Response :=
  match ShardStats (q1 f) (dataset_of r) t with Err e => writeError 500 e | Ok s => writeJSON 200 (PShards s) end.

Definition rest_of (prefix path : string) : string := String.substring (String.length prefix) (String.length path - String.length prefix) path.

Definition handleManifest (f : Faults3) (t : Metadata.Table) (r : Request) : Response :=
  match splitPath (rest_of "/v1/shards/" (rqPath r)) with
  | [shard; "manifest"%string] =>
      match GetShardManifest (q1 f) shard (dataset_of r) t with
      | (Some m, None) => writeJSON 200 (PManifest m)
      | (_, Some e) => writeError 500 e
      | (None, None) => writeError 500 ""
      end
  | _ => writeError 400 "use /v1/shards/{shard}/manifest"
  end.

Definition handleSearch (f : Faults3) (t : Metadata.Table) (r : Request) : Response :=
  let limit := match Api.Atoi (rqQuery r "limit") with Some n => n | None => 100 end in
  match SearchByLabel like (q1 f) (rqQuery r "label") (rqQuery r "dataset") limit t with
  | (_, Some e) => writeError 500 e
  | (l, None) => writeJSON 200 (PRecords l)
  end.

Definition handleLabels (f : Faults3) (t : Metadata.Table) (r : Request) : Response :=
  match LabelCounts (q1 f) (dataset_of r) t with
  | (Some m, None) => writeJSON 200 (PLabels m)
  | (_, Some e) => writeError 500 e
  | (None, None) => writeError 500 ""
  end.

Definition handleEstimate (r : Request) : Response :=
  if negb (bool_decide (rqMethod r = "POST")) then writeError 405 "POST required"
  else match result_bind decode_tiers (rqBody r) with
  | Err e => writeError 400 e
  | Ok input => writeJSON 200 (PCosts (CostProjection input))
  end.
End index.

(** ** The registry's routes (algorithms.go) *)

Definition imageRegistry : string := "registry.internal/petabyte".
Definition maxUploadBytes : Z := Z.shiftl 128 20.

(** [sandbox.ImageRef]; a digest has more than twelve digits. *)
Definition image_ref (registry : string) (p : Package) : string :=
  registry +:+ "/" +:+ mName (pkManifest p) +:+ ":" +:+ String.substring 0 12 (pkDigest p).

Section algorithms.
Context {mc : ManifestCodec} {ac : AlgoCodec} (unzip : list byte → result (list ZipFile)) (quota : Quota).

(** [readPackage]: a longer body is cut off. *)
Definition readPackage (r : Request) : result Package :=
  match rqBody r with
  | Err e => Err e
  | Ok body => ParsePackage (unzip (limit_read maxUploadBytes body))
  end.

Definition owner_of (r : Request) : string := if bool_decide (rqTenant r = "") then "default" else rqTenant r.

Definition algorithm_of (r : Request) (p : Package) : Algorithm :=
  MkAlgorithm (mName (pkManifest p)) (mVersion (pkManifest p)) (owner_of r) (image_ref imageRegistry p) (pkDigest p) (pkManifest p) None.

(** [fault] is the database's; [now] the time of a registration. *)
Definition handleAlgorithms (fault : option string) (now : Z) (r : Request) (t : Registry.Table) : Response * Registry.Table :=
  if bool_decide (rqMethod r = "GET") then
    (match List_ fault t with Err e => writeError 500 e | Ok l => writeJSON 200 (PAlgorithms l) end, t)
  else if bool_decide (rqMethod r = "POST") then
    match readPackage r with
    | Err e => (writeError 400 e, t)
    | Ok pkg =>
        match Validate (pkManifest pkg) quota with
        | Err e => (writeError 422 e, t)
        | Ok _ =>
            let algo := algorithm_of r pkg in
            match Register fault now algo t with
            | (Err e, t) => (writeError 409 e, t)
            | (Ok _, t) => (writeJSON 201 (PAlgorithm algo), t)
            end
        end
    end
  else (writeError 405 "GET or POST required", t).

Definition handleValidate (r : Request) : Response :=
  if negb (bool_decide (rqMethod r = "POST")) then writeError 405 "POST required"
  else match readPackage r with
  | Err e => writeError 400 e
  | Ok pkg =>
      match Validate (pkManifest pkg) quota with
      | Err e => writeJSON 200 (PInvalid e)
      | Ok _ => writeJSON 200 (PValid (pkManifest pkg) (image_ref imageRegistry pkg))
      end
  end.

Definition handleVersions (fault : option string) (r : Request) (t : Registry.Table) : Response :=
  match splitPath (rest_of "/v1/algorithms/" (rqPath r)) with
  | [name] => match ListVersions fault name t with Err e => writeError 500 e | Ok l => writeJSON 200 (PAlgorithms l) end
  | [name; version] => match Get fault name version t with Err e => writeError 404 e | Ok a => writeJSON 200 (PAlgorithm a) end
  | _ => writeError 400 "use /v1/algorithms/{name}[/{version}]"
  end.

(** ** Properties *)

Lemma split_path_plain part s rest : no_char slash s = true →
  split_path part (s +:+ rest) = split_path (part +:+ s) rest.
Proof.
  revert part. induction s as [|c s IH]; intros part Hs.
  - rewrite string_app_nil. f_equal. clear. induction part as [|c p IH]; [done|]. rewrite string_app_cons. by rewrite <- IH.
  - cbn [no_char] in Hs. apply andb_true_iff in Hs as [Hc Hs]. apply negb_true_iff in Hc. rewrite string_app_cons. cbn [split_path]. rewrite Hc, IH by done.
    by rewrite string_app_assoc.
Qed.

Lemma splitPath_one a : no_char slash a = true → a ≠ ""%string → splitPath a = [a].
Proof.
  intros Ha Hne. unfold splitPath. pose proof (split_path_plain EmptyString a EmptyString Ha) as E.
  assert (∀ x, x +:+ "" = x) as Hr by (clear; induction x as [|c x IH]; [done|]; by rewrite string_app_cons, IH).
  rewrite Hr, string_app_nil in E. rewrite E. cbn. by rewrite bool_decide_false.
Qed.

Lemma splitPath_cons a rest : no_char slash a = true → a ≠ ""%string → splitPath (a +:+ String slash rest) = a :: splitPath rest.
Proof.
  intros Ha Hne. unfold splitPath. rewrite split_path_plain by done. rewrite string_app_nil. cbn [split_path]. rewrite Ascii.eqb_refl.
  by rewrite bool_decide_false.
Qed.

Lemma parse_shape archive p : ParsePackage archive = Ok p → checkShape (pkManifest p) = Ok tt.
Proof.
  unfold ParsePackage. destruct archive as [zs|]; [|done]. destruct (read_files zs ∅ 0) as [files|]; cbn [result_bind]; [|done].
  destruct (find _ required_files); [done|]. destruct (unmarshal_manifest _) as [m|]; [|done].
  destruct (checkShape m) as [[]|] eqn:Ec; cbn [result_bind]; [|done]. by intros [= <-].
Qed.

(** The registry changes only by a POST that is answered 201: then the body
    was a package whose manifest is well-formed and within quota, one row is
    appended, and asking for that name and version gives the algorithm, its
    image reference made of its digest, whatever else is attempted later. *)
Theorem registration_is_checked fault now r t resp t' : handleAlgorithms fault now r t = (resp, t') →
  (rsStatus resp ≠ 201 → t' = t) ∧
  (rsStatus resp = 201 → ∃ p, rqMethod r = "POST"%string ∧ readPackage r = Ok p ∧ checkShape (pkManifest p) = Ok tt ∧
     Validate (pkManifest p) quota = Ok tt ∧ rsBody resp = PAlgorithm (algorithm_of r p) ∧ length t' = S (length t) ∧
     ∀ later, Get None (mName (pkManifest p)) (mVersion (pkManifest p)) (attempts later t') =
       Ok (MkAlgorithm (mName (pkManifest p)) (mVersion (pkManifest p)) (owner_of r) (image_ref imageRegistry p) (pkDigest p) (pkManifest p) (Some now))).
Proof.
  unfold handleAlgorithms. case_bool_decide as Hg.
  { intros [= <- <-]. split; [done|]. destruct (List_ _ _); done. }
  case_bool_decide as Hp; [|by intros [= <- <-]]. destruct (readPackage r) as [p|e] eqn:Er; [|by intros [= <- <-]].
  destruct (Validate _ quota) as [[]|] eqn:Ev; [|by intros [= <- <-]].
  destruct (register_cases fault now (algorithm_of r p) t) as [[e ->]|(s & Hs & Hn & ->)]; [by intros [= <- <-]|]. intros [= <- <-].
  split; [done|]. intros _. exists p. split_and!; try done.
  - unfold readPackage in Er. destruct (rqBody r); [|done]. by eapply parse_shape.
  - rewrite length_app. cbn. lia.
  - intros later. cbn [algorithm_of Name Version Owner ImageRef Digest CreatedAt default] in *.
    unfold Get. rewrite (attempts_keep _ _ _ (MkAlgoRow (mName (pkManifest p)) (mVersion (pkManifest p)) (owner_of r) (image_ref imageRegistry p) (pkDigest p) s now)).
    + unfold scanAlgorithm. cbn. cbn in Hs. by rewrite (manifest_roundtrip _ _ Hs).
    + rewrite find_app_r by done. cbn. unfold is_version. cbn. by rewrite bool_decide_eq_true_2.
Qed.

(** A registered version is served at /v1/algorithms/name/version when neither
    part has a slash; the manifest's check lets slashes pass, and an algorithm
    whose name has one is answered 400, whatever is registered. *)
Theorem versions_are_served name version r t :
  rqPath r = ("/v1/algorithms/" +:+ name +:+ String slash version)%string →
  (no_char slash name = true → name ≠ ""%string → no_char slash version = true → version ≠ ""%string →
     handleVersions None r t = match Get None name version t with Err e => writeError 404 e | Ok a => writeJSON 200 (PAlgorithm a) end) ∧
  (∀ a b, name = (a +:+ String slash b)%string → no_char slash a = true → a ≠ ""%string → no_char slash b = true → b ≠ ""%string →
     no_char slash version = true → version ≠ ""%string → rsStatus (handleVersions None r t) = 400).
Proof.
  intros Hr. assert (Hrest : rest_of "/v1/algorithms/" (rqPath r) = name +:+ String slash version).
  { rewrite Hr. apply substring_rest. }
  unfold handleVersions. rewrite Hrest. split.
  - intros Hn Hne Hv Hve. by rewrite splitPath_cons, splitPath_one.
  - intros a b -> Ha Hae Hb Hbe Hv Hve. rewrite string_app_assoc, string_app_cons, splitPath_cons, splitPath_cons, splitPath_one by done. done.
Qed.
End algorithms.

(** ** Examples *)

Example split_check : splitPath "//a/b//" = ["a"; "b"]%string ∧ splitPath "/" = [] ∧ splitPath "clip" = ["clip"]%string.
Proof. by vm_compute. Qed.

(** A gigabyte at each tier costs what the tier costs; a tier nobody prices is
    free. *)
Example projection_check :
  let costs := CostProjection (list_to_map [(TierHot, 2 ^ 30); (TierCold, 2 ^ 30); ("glacier"%string, 2 ^ 30)]) in
  costs !! TierHot = Some (decimal 23 3) ∧ costs !! TierCold = Some (decimal 4 3) ∧ costs !! "glacier"%string = Some (S754_zero false).
Proof. by vm_compute. Qed.

(** Registering the package of Sandbox.v. *)
Definition post : Request := MkRequest "POST" "/v1/algorithms" (λ _, EmptyString) "ann" (Ok []).
Definition resize_package : Package := MkPackage resize upload_files (contentDigest upload_files).
Definition register_resize (t : Registry.Table) : Response * Registry.Table :=
  handleAlgorithms (mc := resize_codec) (ac := one_manifest) (λ _, Ok upload) DefaultQuota None 7 post t.

Lemma registration_is_checked_witness :
  rsStatus (register_resize []).1 = 201 ∧ length (register_resize []).2 = 1%nat ∧
  is_ok (Get (codec := one_manifest) None (mName resize) (mVersion resize) (register_resize []).2) = true ∧
  (register_resize (register_resize []).2).2 = (register_resize []).2.
Proof.
  destruct (register_resize []) as [resp t] eqn:E.
  assert (Hs : rsStatus resp = 201) by (change resp with (resp, t).1; rewrite <- E; vm_compute; reflexivity).
  pose proof (registration_is_checked (mc := resize_codec) (ac := one_manifest) (λ _, Ok upload) DefaultQuota None 7 post [] resp t E) as [_ H].
  destruct (H Hs) as (p & _ & Hp & _ & _ & _ & Hl & Hg). assert (p = resize_package) as -> by (vm_compute in Hp; by injection Hp).
  split_and!; [done|exact Hl| |].
  - pose proof (Hg []) as Hg0. cbn in Hg0 |- *. by rewrite Hg0.
  - destruct (register_resize t) as [resp' t'] eqn:E'.
    cbn [snd]. rewrite E'. cbn [snd].
    apply (registration_is_checked (mc := resize_codec) (ac := one_manifest) (λ _, Ok upload) DefaultQuota None 7 post t resp' t' E').
    change resp' with (resp', t').1. rewrite <- E'. change t with (resp, t).2. rewrite <- E. vm_compute. discriminate.
Defined.

Lemma versions_are_served_witness :
  rsStatus (handleVersions (ac := one_manifest) None (MkRequest "GET" "/v1/algorithms/vision/clip/1" (λ _, EmptyString) "" (Ok [])) []) = 400.
Proof.
  apply (versions_are_served (ac := one_manifest) "vision/clip" "1" (MkRequest "GET" "/v1/algorithms/vision/clip/1" (λ _, EmptyString) "" (Ok [])) [] eq_refl)
    with (a := "vision"%string) (b := "clip"%string); done.
Defined.
