(* ===== verification/Builder.v ===== *)
(** * Building an image (sandbox/builder.go)

    [docker build] and [docker push] of a package from a temporary directory, and
    the run of a container; the docker client is a world with one operation. *)
From S2P Require Import Prelude GoLib Float64 Paths Sandbox.
From S2P Require Server.
Open Scope Z_scope.

(** A docker command: how it ended, and what it printed to its two outputs. *)
Class Docker (W : Type) := docker : string → list string → W → ended * string * string * W.

Section docker.
Context {W : Type} `{Docker W, ManifestCodec}.

Definition bin (dockerBin : string) : string := if bool_decide (dockerBin = EmptyString) then "docker" else dockerBin.

(** ** The build *)

Record BuildResult := MkBuild { brImageRef : string; brDigest : string }.

Definition newline : string := String (Ascii.ascii_of_N 10) EmptyString.

(** The message of a command that did not succeed. *)
Definition ended_error (timeout : Z) (e : ended) : option string :=
  match e with
  | Succeeded => None
  | Exited code => Some ("exit status " +:+ fmt_d code)
  | Failed m => Some m
  | DeadlineExceeded => Some "signal: killed"%string
  end.

(** [os.RemoveAll]. *)
Definition under (dir path : string) : bool := bool_decide (path = dir) || String.prefix (dir +:+ String slash EmptyString) path.
Definition RemoveAll (dir : string) (fs : gmap string (list byte)) : gmap string (list byte) := filter (λ kv, under dir kv.1 = false) fs.

(** [Build]; [tmp] is the answer of [os.MkdirTemp]. *)
Definition Build (dockerBin : string) (tmp : result string) (fault : string → option string) (p : Package) (registry : string)
    (fs : gmap string (list byte)) (w : W) : result BuildResult * gmap string (list byte) * W :=
  match tmp with
  | Err e => (Err ("build context: " +:+ e), fs, w)
  | Ok dir =>
      let '(r, fs) := writeContext fault dir p fs in
      match r with
      | Err e => (Err e, RemoveAll dir fs, w)
      | Ok _ =>
          let ref := Server.image_ref registry p in
          let '(e, out, err, w) := docker (bin dockerBin) ["build"; "-t"; ref; dir] w in
          match ended_error 0 e with
          | Some m => (Err ("docker build " +:+ ref +:+ ": " +:+ m +:+ newline +:+ out +:+ err), RemoveAll dir fs, w)
          | None =>
              let '(e, out, err, w) := docker (bin dockerBin) ["push"; ref] w in
              match ended_error 0 e with
              | Some m => (Err ("docker push " +:+ ref +:+ ": " +:+ m +:+ newline +:+ out +:+ err), RemoveAll dir fs, w)
              | None => (Ok (MkBuild ref (pkDigest p)), RemoveAll dir fs, w)
              end
          end
      end
  end.

(** ** A run *)

(** [RunscRuntime.Run]. *)
Definition Run (fmt_float : float64 → string) (env : list (string * string)) (dockerBin runtime : string) (spec : ExecutionSpec) (w : W) :
    ExecutionResult * option string * W :=
  let '(e, out, err, w) := docker (bin dockerBin) (buildRunArgs fmt_float env runtime spec) w in
  (RunResultOf (esTaskID spec) (TimeoutSec (esLimits spec)) out err e, w).

(** ** No trace is left *)

Lemma under_below dir path : below dir path → under dir path = true.
Proof.
  unfold under. intros [->|(cs & _ & _ & ->)]; [by rewrite bool_decide_true|]. apply orb_true_iff. right.
  change (dir +:+ String slash (join cs)) with (dir +:+ (String slash EmptyString +:+ join cs)). rewrite <- string_app_assoc.
  generalize (dir +:+ String slash EmptyString). intros a. induction a as [|c a IH]; [by destruct (join cs)|]. rewrite string_app_cons. cbn.
  by destruct (Ascii.ascii_dec c c).
Qed.

Lemma removed_fs archive p fault dir fs : ParsePackage archive = Ok p → clean_dir dir → (∀ path, under dir path = true → fs !! path = None) →
  RemoveAll dir (writeContext fault dir p fs).2 = fs.
Proof.
  intros Hp Hd Hn. apply map_eq. intros path. unfold RemoveAll. rewrite map_lookup_filter. destruct (under dir path) eqn:Eu.
  - rewrite (Hn path Eu). destruct ((writeContext fault dir p fs).2 !! path) as [d|]; [|done]. cbn. rewrite option_guard_False; [done|]. cbn. by rewrite Eu.
  - assert ((writeContext fault dir p fs).2 !! path = fs !! path) as ->.
    { destruct (decide ((writeContext fault dir p fs).2 !! path = fs !! path)) as [|Hne]; [done|].
      by rewrite (under_below dir path (write_stays_below archive p fault dir fs Hp Hd path Hne)) in Eu. }
    destruct (fs !! path) as [d|]; [|done]. cbn. by rewrite option_guard_True by (cbn; exact Eu).
Qed.

(** A build leaves no trace. Whatever the package holds and whichever file,
    build or push fails, the files are those of before the build; and what is
    returned is the package's digest under a tag made of it. *)
Theorem build_leaves_no_trace archive p dockerBin dir fault registry fs (w : W) r fs' w' :
  ParsePackage archive = Ok p → clean_dir dir → (∀ path, under dir path = true → fs !! path = None) →
  Build dockerBin (Ok dir) fault p registry fs w = (r, fs', w') →
  fs' = fs ∧ ∀ b, r = Ok b → brDigest b = contentDigest (pkFiles p) ∧ brImageRef b = Server.image_ref registry p.
Proof.
  intros Hp Hd Hn. pose proof (removed_fs archive p fault dir fs Hp Hd Hn) as HR. unfold Build. destruct (writeContext fault dir p fs) as [rw fs1]. cbn [snd] in HR.
  assert (HD : pkDigest p = contentDigest (pkFiles p)).
  { clear HR Hn. revert Hp. unfold ParsePackage. destruct archive as [zs|]; [|done]. destruct (read_files zs ∅ 0) as [files|]; cbn [result_bind]; [|done].
    destruct (find _ required_files); [done|]. destruct (unmarshal_manifest _) as [m|]; [|done]. by destruct (checkShape m); [intros [= <-]|]. }
  destruct rw as [[]|e]; [|by intros [= <- <- <-]]. destruct (docker _ ["build"; _; _; _] w) as [[[e1 o1] x1] w1].
  destruct (ended_error 0 e1); [by intros [= <- <- <-]|]. destruct (docker _ ["push"; _] w1) as [[[e2 o2] x2] w2].
  destruct (ended_error 0 e2); [by intros [= <- <- <-]|]. intros [= <- <- <-]. split; [done|]. intros b [= <-]. done.
Qed.
End docker.

(** ** An example: a client whose second command fails *)

#[local] Existing Instance resize_codec.
Definition failing_push : Docker nat := λ _ _ n, (match n with O => Succeeded | _ => Exited 1 end, ""%string, "denied"%string, S n).
Definition upload_package : Package := MkPackage resize upload_files (contentDigest upload_files).

Lemma build_leaves_no_trace_witness : ∃ e, Build (H := failing_push) "" (Ok build_dir) (λ _, None) upload_package "registry.local"
    {["/etc/passwd"%string := []]} 0%nat = (Err e, {["/etc/passwd"%string := []]}, 2%nat).
Proof.
  destruct (Build (H := failing_push) "" (Ok build_dir) (λ _, None) upload_package "registry.local" {["/etc/passwd"%string := []]} 0%nat)
    as [[r fs'] w'] eqn:E.
  destruct (build_leaves_no_trace (H := failing_push) (Ok upload) upload_package "" build_dir (λ _, None) "registry.local"
    {["/etc/passwd"%string := []]} 0%nat r fs' w' upload_parsed build_dir_clean) as [-> _]; [|exact E|].
  - intros path Hu. rewrite lookup_singleton_ne; [done|]. intros <-. by vm_compute in Hu.
  - vm_compute in E. destruct r as [b|e]; [by injection E|]. exists e. injection E as <- <-. reflexivity.
Defined.
