(* ===== verification/Latency.v ===== *)
(** * Latency figures (scheduler/metrics.go)

    The percentiles, maximum and mean of the finished tasks' durations, in
    binary64; the counters of the same snapshot are in Coordinator.v. *)
From Stdlib Require Import SpecFloat.
From S2P Require Import Prelude GoLib Float64 Ring Job Keys Scheduler.
Open Scope Z_scope.

(** The conversion of a float to an [int], towards zero. *)
Definition to_int (x : float64) : Z :=
  match x with
  | S754_finite s m e => let v := if 0 <=? e then Zpos m * 2 ^ e else Zpos m / 2 ^ (- e) in if s then - v else v
  | _ => 0
  end.

Definition percentile_rank (n : nat) (p : float64) : nat :=
  let rank := to_int (fmul p (of_Z (Z.of_nat n - 1))) in
  let rank := if rank <? 0 then 0 else rank in
  Z.to_nat (if rank >=? Z.of_nat n then Z.of_nat n - 1 else rank).

(** [percentile]; [None] is the panic of an empty slice. *)
Definition percentile (sorted : list float64) (p : float64) : option float64 :=
  if (length sorted =? 1)%nat then sorted !! 0%nat else sorted !! percentile_rank (length sorted) p.

(** [Time.Sub] stops at the largest durations. *)
Definition Sub (t u : Z) : Z := Z.max (- 2 ^ 63) (Z.min max_int64 (t - u)).

(** The duration of a finished task, in milliseconds. *)
Definition latency (t : Task) : option float64 :=
  match tStatus t, tStartedAt t, tFinishedAt t with
  | TaskDone, Some s, Some f => Some (fdiv (of_Z (Sub f s)) (of_Z 1000000))
  | _, _, _ => None
  end.

Record Latencies := MkLatencies { P50 : float64; P95 : float64; P99 : float64; LMax : float64; LMean : float64 }.
Definition no_latencies : Latencies := MkLatencies (of_Z 0) (of_Z 0) (of_Z 0) (of_Z 0) (of_Z 0).

(** The latencies in the order the map is ranged over, and the figures;
    [None] is a panic. *)
Definition latencies (order : list string) (s : Scheduler) : list float64 := omap (λ id, tasks s !! id ≫= latency) order.
Definition summarise (l : list float64) : option Latencies :=
  if (0 <? length l)%nat then
    let sorted := Float64s l in
    p50 ← percentile sorted (decimal 50 2);
    p95 ← percentile sorted (decimal 95 2);
    p99 ← percentile sorted (decimal 99 2);
    max ← sorted !! (length sorted - 1)%nat;
    Some (MkLatencies p50 p95 p99 max (fdiv (foldl fadd (of_Z 0) l) (of_Z (Z.of_nat (length sorted)))))
  else Some no_latencies.
Definition LatenciesOf (order : list string) (s : Scheduler) : option Latencies := summarise (latencies order s).

(** ** Ranks *)

Lemma rank_lt n p : (0 < n)%nat → (percentile_rank n p < n)%nat.
Proof.
  intros Hn. unfold percentile_rank. set (r := to_int _). destruct (Z.ltb_spec r 0); cbn zeta; rewrite Z.geb_leb;
    destruct (Z.leb_spec (Z.of_nat n) (if r <? 0 then 0 else r)); destruct (Z.ltb_spec r 0); try lia; case_match; lia.
Qed.

Lemma percentile_in l p : l ≠ [] → ∃ x, percentile l p = Some x ∧ x ∈ l.
Proof.
  intros Hl. assert (0 < length l)%nat by (destruct l; [done|cbn; lia]). unfold percentile.
  destruct (Nat.eqb_spec (length l) 1) as [E|E].
  - destruct l as [|x l']; [done|]. exists x. split; [done|by left].
  - destruct (lookup_lt_is_Some_2 l (percentile_rank (length l) p)) as [x Hx]; [by apply rank_lt|]. exists x. split; [done|]. by eapply list_elem_of_lookup_2.
Qed.

Definition rank_exact (p : Z) (n : nat) : bool := (percentile_rank n (decimal p 2) =? Z.to_nat (p * (Z.of_nat n - 1) / 100))%nat.

(** Up to this many finished tasks the rounding of the product never matters. *)
Definition ranks_bound : nat := 256.
Lemma ranks_checked : forallb (λ n, rank_exact 50 n && rank_exact 95 n && rank_exact 99 n) (seq 1 ranks_bound) = true.
Proof. vm_compute. reflexivity. Qed.

Lemma ranks_exact n : (1 ≤ n ≤ ranks_bound)%nat → ∀ p, p ∈ [50; 95; 99] → percentile_rank n (decimal p 2) = Z.to_nat (p * (Z.of_nat n - 1) / 100).
Proof.
  intros Hn p Hp. pose proof ranks_checked as H. rewrite forallb_forall in H. specialize (H n). rewrite in_seq in H.
  specialize (H ltac:(lia)). apply andb_true_iff in H as [H H3]. apply andb_true_iff in H as [H1 H2]. unfold rank_exact in *.
  apply Nat.eqb_eq in H1, H2, H3. repeat (apply elem_of_cons in Hp as [->|Hp]; [done|]). by apply elem_of_nil in Hp.
Qed.

Lemma sorted_lookup l i j x y : StronglySorted sorts_le l → (i ≤ j)%nat → l !! i = Some x → l !! j = Some y → sorts_le x y.
Proof.
  intros Hs. revert i j. induction Hs as [|z l Hs IH HF]; intros i j Hij Hi Hj; [done|]. destruct i as [|i], j as [|j]; try lia.
  - cbn in Hi, Hj. injection Hi as <-. injection Hj as <-. unfold sorts_le. destruct (total sorts_le z z); done.
  - cbn in Hi, Hj. injection Hi as <-. rewrite Forall_forall in HF. apply HF. by eapply list_elem_of_lookup_2.
  - apply (IH i j); [lia|done..].
Qed.

(** The figures are durations of finished tasks and in order: whatever order
    the tasks are visited in, there are figures; each percentile and the maximum
    is one of the latencies, nothing exceeds the maximum, and with up to 256 of
    them the percentiles do not decrease. *)
Theorem figures_are_latencies order s (l := latencies order s) : l ≠ [] →
  ∃ f, LatenciesOf order s = Some f ∧ P50 f ∈ l ∧ P95 f ∈ l ∧ P99 f ∈ l ∧ LMax f ∈ l ∧ (∀ x, x ∈ l → sorts_le x (LMax f)) ∧
    ((length l ≤ ranks_bound)%nat → sorts_le (P50 f) (P95 f) ∧ sorts_le (P95 f) (P99 f) ∧ sorts_le (P99 f) (LMax f)).
Proof.
  intros Hl. unfold LatenciesOf. fold l. unfold summarise. set (so := Float64s l).
  assert (HP : so ≡ₚ l) by apply merge_sort_Permutation. assert (HS : StronglySorted sorts_le so) by (apply StronglySorted_merge_sort; apply _).
  assert (Hso : so ≠ []) by (intros E; rewrite E in HP; by apply Permutation_nil_l in HP; symmetry in HP).
  assert (Hn : (0 < length so)%nat) by (destruct so; [done|cbn; lia]). pose proof (Permutation_length HP) as HL.
  rewrite (proj2 (Nat.ltb_lt 0 (length l))) by lia.
  destruct (percentile_in so (decimal 50 2) Hso) as (a & Ea & Ia), (percentile_in so (decimal 95 2) Hso) as (b & Eb & Ib), (percentile_in so (decimal 99 2) Hso) as (c & Ec & Ic).
  destruct (lookup_lt_is_Some_2 so (length so - 1)) as [m Em]; [lia|]. rewrite Ea, Eb, Ec, Em. cbn [mbind option_bind].
  eexists. split; [reflexivity|]. cbn. rewrite <- !HP. split_and!; [done..|by eapply list_elem_of_lookup_2| |].
  - intros x Hx. rewrite <- HP in Hx. apply list_elem_of_lookup in Hx as [i Hi]. eapply (sorted_lookup so i); [done| |exact Hi|exact Em].
    apply lookup_lt_Some in Hi. lia.
  - intros Hb. unfold percentile in Ea, Eb, Ec. destruct (Nat.eqb_spec (length so) 1) as [E1|E1].
    + rewrite Ea in Eb, Ec. injection Eb as <-. injection Ec as <-. rewrite E1 in Em. cbn in Em. rewrite Ea in Em. injection Em as <-.
      assert (sorts_le a a) by (by destruct (total sorts_le a a)). done.
    + assert (Hr : (1 ≤ length so ≤ ranks_bound)%nat) by lia.
      rewrite (ranks_exact _ Hr 50 ltac:(by left)) in Ea. rewrite (ranks_exact _ Hr 95 ltac:(right; by left)) in Eb.
      rewrite (ranks_exact _ Hr 99 ltac:(right; right; by left)) in Ec.
      assert (Hd : 50 * (Z.of_nat (length so) - 1) / 100 ≤ 95 * (Z.of_nat (length so) - 1) / 100 ≤ 99 * (Z.of_nat (length so) - 1) / 100).
      { split; apply Z.div_le_mono; lia. }
      split_and!; (eapply sorted_lookup; [exact HS| |eassumption|eassumption]); [lia|lia|]. apply lookup_lt_Some in Ec. lia.
Qed.

(** The percentiles are not the nearest ranks that the code promises: of two
    latencies the 99th percentile is the smaller one, and of ten the 95th is the
    second largest. *)
Theorem rank_below_nearest : (∀ a b, percentile [a; b] (decimal 99 2) = Some a) ∧ percentile_rank 10 (decimal 95 2) = 8%nat.
Proof. split; [|by vm_compute]. intros a b. unfold percentile. cbn [length Nat.eqb]. assert (percentile_rank 2 (decimal 99 2) = 0%nat) as -> by (by vm_compute). done. Qed.

(** ** An example: three tasks, one of them running *)

Definition timed (id : string) (st : TaskStatus) (started finished : Z) : Task :=
  MkTask id "job" "aa" "w1" st 5 0 2 (Some 0) (Some started) (Some finished) "" 0 (-1) 0 0 0 false.
Definition three_tasks : Scheduler :=
  (Scheduler.New 2) <| tasks := list_to_map [("a", timed "a" TaskDone 0 7000000); ("b", timed "b" TaskDone 1000000 4000000); ("c", timed "c" TaskRunning 0 9000000)]%string |>.

Lemma figures_are_latencies_witness : ∃ f, LatenciesOf ["a"; "b"; "c"]%string three_tasks = Some f ∧ LMax f = of_Z 7 ∧ P99 f = of_Z 3 ∧ LMean f = of_Z 5 ∧
  sorts_le (P99 f) (LMax f).
Proof.
  destruct (figures_are_latencies ["a"; "b"; "c"]%string three_tasks) as (f & Hf & _ & _ & _ & _ & Hm & _); [by vm_compute|].
  exists f. split; [done|]. vm_compute in Hf. injection Hf as <-. split_and!; [by vm_compute..|]. apply Hm. vm_compute. right. by left.
Defined.
